(* ===== verification/_CoqProject ===== *)
-Q . S2P
Prelude.v
Ir.v
Tiling.v
Lifetime.v
DdrOffsets.v
CpModel.v
CpSearch.v
CpLegal.v
CpSolution.v
CpVerify.v
Dma.v
Mcast.v
Sequencer.v
Wire.v
StCutGraph.v
StCutFlow.v
StCutLevels.v
StCutSchedule.v
Scheduler.v
GraphSchedule.v
GraphPasses.v
GraphCse.v
GraphBuild.v
PlanOrder.v
OpDescHash.v
GraphDeps.v
DepsBuild.v
VtcmAlloc.v
Sfcd.v
BlockTable.v
HalfFloat.v
OptPasses.v
ShapeFold.v
