(* ===== verification/Prelude.v ===== *)
(** * A verification library for the GEHTP graph compiler

    GEHTP ([src/compiler]) compiles a neural-network graph for a Hexagon
    accelerator: the graph is prepared and tiled, its operations are put in an
    order, its tensors get addresses in the on-chip memory (VTCM) or in DDR,
    DMA transfers and their tokens are emitted, and the result is written as a
    container of records.  The library translates the passes that decide
    something into executable definitions and proves what makes them correct.

    ** Files

    - [Prelude]: machine integers with their wrap, alignment, and the list,
      option and integer lemmas the other files share.
    - [Ir]: the tensors, outputs and ops of [ir/types.hpp], as far as the
      modelled passes read them.
    - [Tiling]: [Module ConvTiling] is [tiling/conv_tiling.cpp];
      [Module TilingRule] is [tiling/tiling_rule.cpp] (rules, plans, the
      registry); [Module Tiler] is [tiling/tiler.cpp] (the tilers, merging,
      distribution over processors, conforming of dimensions).
    - [Lifetime]: [allocate_with_lifetime] and the linear allocator of
      [vtcm/fancy_allocator.cpp].
    - [DdrOffsets]: [vtcm/ddr_offsets.cpp], from the execution order to the
      emitted table.
    - [CpModel], [CpSearch], [CpLegal], [CpSolution], [CpVerify]: the CP oracle
      of [vtcm/cp_solver.cpp].  [CpModel] holds the problem and
      [preprocess]; [CpSearch] the branch and bound with its trail; [CpLegal]
      the proof that a recorded schedule is legal; [CpSolution] extraction,
      placement, verification, the greedy fallback and the adapters;
      [CpVerify] the meaning of [verify].
    - [Dma]: [dma/spill_fill.cpp] and [dma/op_emitter.cpp]: tokens, emitters,
      the spill planner.
    - [Mcast]: [mcast/mcast_optimizer.cpp].
    - [Sequencer]: [scheduler/dp_sequencer.cpp] and [scheduler/mlh_model.cpp].
    - [Wire]: the binary layouts of [serialize/barrel.cpp],
      [serialize/class_index_record.cpp], [serialize/co_aux_record.cpp] and the
      tag words of [serialize/bin_format.cpp].
    - [StCutGraph], [StCutFlow], [StCutLevels], [StCutSchedule]:
      [scheduler/st_cut.cpp].  [StCutGraph] holds the paired edge slots, the
      per-node lists, the ledger and its replay; [StCutFlow] the flow between
      two nodes, the trial edges and the cut; [StCutLevels] the level waves,
      the proposal, the verdict, the memory curve and the order check;
      [StCutSchedule] the journal of ranges, the restart, the emission of an
      order and the retry loop.
    - [Scheduler]: [schedule/scheduler.cpp], from the choice of kernels and
      the expansion of a model descriptor into steps to the checkpoint chain
      and the insertion of the transfers the CP oracle asks for.
    - [GraphSchedule]: [schedule/e2e_bridge.cpp] and [Scheduler::schedule]: the
      min-cut graph built from the op map, the run of the retry loop on it and
      the order read back.
    - [GraphPasses], [GraphCse], [GraphBuild], [PlanOrder]:
      [ir/graph_prepare.cpp].  [GraphPasses] holds the graph, the meaning of
      an op ([eval]), dead code removal and the ordering; [GraphCse] the
      elimination of common subexpressions and the fixpoint of the passes;
      [GraphBuild] the appending of ops and constants, the consumer lists and
      the shape steps; [PlanOrder] the settling of the execution order and
      the way of a clean graph through the scheduler.
    - [OpDescHash], [GraphDeps], [DepsBuild]: [ir/graph_deps.cpp].
      [OpDescHash] holds the hash table of op descriptors; [GraphDeps] the
      memory groups, lifetimes, groups, distances and the run list;
      [DepsBuild] what the whole construction leaves behind.
    - [VtcmAlloc]: [build_graph_deps], [vtcm_lifetime_alloc] and
      [vtcm_lifetime_alloc_cp] of [ir/graph_prepare.cpp], where the
      dependencies meet the allocator of [Lifetime] and the CP oracle.
    - [Sfcd]: [vtcm/spillfill_g4.cpp], the control words of spill and fill:
      their writer, the walk that prints them, the merging of copies, the
      pools and the tagged fields.
    - [BlockTable]: the block table of [vtcm/fancy_allocator.cpp] with its hash
      table, the linking of inputs and outputs, the overlap pass and the final
      pass of [ir/graph_prepare.cpp], and the persistent pools.
    - [HalfFloat], [OptPasses], [ShapeFold]: the optimisation passes of [opt/].
      [HalfFloat] holds the conversions of half precision constants;
      [OptPasses] the pass manager and its worklist, shape folding, fusion and
      constant folding, and the proof that the worklist ends; [ShapeFold] what
      the passes keep.

    ** Conventions

    A value of an unsigned type of w bits is an integer in [0, 2^w); every
    operation of the code that can leave the range is followed by [wrap].  A
    hash map is a [gmap]; where the code iterates over one, the order is an
    argument.  A throw, a failed look-up or an access out of range is [None].
    Floating-point values appear only where they are compared, through an
    abstract type with the comparison as a parameter.  The clock of the search
    is a parameter too.

    ** Theorems

    Tiling: the tiles partition the output, an input slice covers exactly the
    rows and columns its output tile reads, a rule's tile fits its budget.
    Allocation: tensors alive together never overlap, in VTCM and in DDR; every
    request gets an address; the allocator's own invariants.  CP oracle: the
    search restores its state and always returns; what it records is a legal
    schedule within its limits; extraction places segments apart; a solution
    that [solve] returns has passed [verify], and [verify] implies the abstract
    notion of a valid solution.  DMA: the token validation agrees with the
    history of calls; every emitted pair validates; every spill is filled.
    Multicast: merging delivers what the sends delivered.  Sequencer: Kahn's
    algorithm returns a topological order of exactly the acyclic part.  Wire:
    the headers and records read back as written.  Min-cut scheduler: the
    halves of an edge stay paired and listed; the flow respects the weights
    and is conserved; a cut leaves the graph as it was; levels are
    topological; the journal's ranges partition the positions; the order
    chosen is a rearrangement of the given one, valid or unchanged, and of
    least peak among the rounds.  Scheduler: the general plan is the golden
    plan; the checkpoint chain counts what it announces; every transfer of the
    oracle's solution is placed.  Graph schedule: the plan order is a
    rearrangement of the live ops that respects the data flow of the graph.
    Graph passes: dead code removal deletes exactly what nothing needs, the
    ordering is topological, elimination and the fixpoint keep the value of
    every op that is left as long as signatures tell attributes apart; from a settled graph the executed order runs every
    live op once, after what it reads.  Graph dependencies: the hash table is
    a finite map as long as it has at most 2^30 slots; lifetimes run from the
    position of an op to that of its last reader; the groups cut the ordering
    into consecutive pieces; distances settle, or the descriptors' first inputs
    form a loop and the code says so.  Allocation of a graph: outputs that are
    alive together along the ordering get disjoint addresses inside the VTCM,
    and the CP branch hands out what the verified solution says.  Spill and
    fill: the control words that are written walk back to the records, and
    merging copies the same bytes.  Block table: blocks with a place of their
    own are disjoint and inside the budget; nothing is ever marked as spilled.
    Optimisation passes: the run ends with a settled graph, folding shapes
    keeps every value where the folded ops are read at their first output, and a folded half precision constant comes back as the
    theorem says.

    ** Fuel

    Loops without a structural measure take fuel, and a theorem of each shows
    that the fuel given is enough: the number of nodes plus one for Kahn's
    queue, the length of the tree for a descent, one more than the slots of the
    add lists for the closure of the order check, one more than the nodes for
    the levels, the rounds plus one for the retry loop, twice the ops plus one for
    the depth-first search, twice the ops plus two for the fixpoint of the
    passes, two levels for the growth of the op table and of the block table,
    32 doublings for the size of the former, 33 halvings for a size class, as
    many chunks as there are pairs for a wait record, for the worklist of a pass
    phase the weight of the graph times the ids it names, the code's own limit
    4n+16 for the distances, and for the CP search a measure computed from the
    problem ([run_search_total]).

    ** Not modelled

    Floating-point cost models and host kernels (constant folding takes the
    kernel as an argument), JSON input, the C interface, the command line
    tools, device kernels, logging, environment switches and the file output
    of the context binary.  Of [serialize/] only the layouts in [Wire] are
    modelled, not the byte stream of a whole graph and its reader.  The groups
    and supertiles of [vtcm/dp_group_graph.cpp] and [vtcm/supertile.cpp] decide
    by floating-point costs and no later pass reads them; the transcriptions
    [create_supertiles_m36.cpp], [tile_shape_m36c.cpp], [phys_alloc_m37.cpp],
    [alloc_io_tensors_m38.cpp] and [tcm_migration_m42.cpp] of [vtcm/] are called
    by no other part of the compiler.
    The class templates of the op objects carry no behaviour of their own. *)

From stdpp Require Export base gmap sets list strings numbers sorting fin_maps.
From Stdlib Require Export ZArith Lia.

#[global] Open Scope Z_scope.

(** * Machine integers

    A value of an unsigned type of [w] bits is a [Z] in [0, 2^w); every
    operation of the code that can leave that range is followed by the wrap
    of its type. *)

Definition wrap (w z : Z) : Z := z mod 2 ^ w.

Abbreviation u8 := (wrap 8).
Abbreviation u16 := (wrap 16).
Abbreviation u32 := (wrap 32).
Abbreviation u64 := (wrap 64).

Notation "'in_u32' z" := (0 <= z < 2 ^ 32) (at level 10, only parsing).
Notation "'in_u64' z" := (0 <= z < 2 ^ 64) (at level 10, only parsing).

(** [SIZE_MAX] of a 64-bit target. *)
Definition SIZE_MAX : Z := 2 ^ 64 - 1.

(** [static_cast<int32_t>] of an unsigned 32-bit value. *)
Definition i32 (z : Z) : Z := (z + 2 ^ 31) mod 2 ^ 32 - 2 ^ 31.

Create HintDb hnnx.

Lemma wrap_id w z : 0 <= z < 2 ^ w -> wrap w z = z.
Proof. intros. unfold wrap. by apply Z.mod_small. Qed.

Lemma wrap_range w z : 0 <= w -> 0 <= wrap w z < 2 ^ w.
Proof. intros. apply Z.mod_pos_bound. by apply Z.pow_pos_nonneg. Qed.

Lemma wrap_idem w z : 0 <= w -> wrap w (wrap w z) = wrap w z.
Proof. intros. by apply wrap_id, wrap_range. Qed.

Lemma u64_range z : in_u64 (u64 z).
Proof. by apply wrap_range. Qed.

Lemma u32_range z : in_u32 (u32 z).
Proof. by apply wrap_range. Qed.

#[export] Hint Resolve u64_range u32_range : hnnx.

(** Drop every wrap whose argument is in range by linear arithmetic. *)
Ltac unwrap :=
  repeat match goal with
  | |- context [wrap ?w ?z] => rewrite (wrap_id w z) by lia
  end.
Ltac unwrap_in H :=
  repeat match type of H with
  | context [wrap ?w ?z] => rewrite (wrap_id w z) in H by lia
  end.

(** Split the boolean comparisons of the hypotheses and the goal into their
    propositional forms. *)
Ltac bool_prop :=
  repeat match goal with
  | H : (_ <? _) = true |- _ => apply Z.ltb_lt in H
  | H : (_ <? _) = false |- _ => apply Z.ltb_ge in H
  | H : (_ <=? _) = true |- _ => apply Z.leb_le in H
  | H : (_ <=? _) = false |- _ => apply Z.leb_gt in H
  | H : (_ =? _) = true |- _ => apply Z.eqb_eq in H
  | H : (_ =? _) = false |- _ => apply Z.eqb_neq in H
  | H : (_ && _) = true |- _ => apply andb_true_iff in H; destruct H
  | H : (_ || _) = false |- _ => apply orb_false_iff in H; destruct H
  | H : bool_decide _ = true |- _ => apply bool_decide_eq_true in H
  | H : bool_decide _ = false |- _ => apply bool_decide_eq_false in H
  | H : negb _ = true |- _ => apply negb_true_iff in H
  | H : negb _ = false |- _ => apply negb_false_iff in H
  end.

(** Case analysis on one boolean test of the goal, in propositional form. *)
Ltac case_bool :=
  match goal with
  | |- context [if ?b then _ else _] => let E := fresh "E" in destruct b eqn:E; bool_prop
  end.

(** * Rounding up to an alignment *)

(** [(v + a - 1) / a * a], the exact rounding that the code writes in several
    ways. *)
Definition round_up (v a : Z) : Z := (v + a - 1) / a * a.

Lemma round_up_spec v a :
  0 < a -> (a | round_up v a) /\ v <= round_up v a < v + a.
Proof.
  intros Ha. unfold round_up. split; [by exists ((v + a - 1) / a) |].
  pose proof (Z.div_mod (v + a - 1) a ltac:(lia)).
  pose proof (Z.mod_pos_bound (v + a - 1) a Ha). lia.
Qed.

Lemma round_up_le v a : 0 < a -> v <= round_up v a.
Proof. intros. by apply round_up_spec. Qed.

Lemma round_up_divide v a : 0 < a -> (a | round_up v a).
Proof. intros. by apply round_up_spec. Qed.

Lemma divide_lt_eq a x y : 0 < a -> (a | x) -> (a | y) -> x <= y < x + a -> y = x.
Proof.
  intros Ha [p ->] [q ->] H. f_equal.
  assert (p <= q) by (apply Z.mul_le_mono_pos_r with a; lia).
  assert (q < p + 1) by (apply Z.mul_lt_mono_pos_r with a; lia). lia.
Qed.

Lemma round_up_unique v a r : 0 < a -> (a | r) -> v <= r < v + a -> round_up v a = r.
Proof.
  intros Ha Hr Hb. destruct (round_up_spec v a Ha) as [Hd Hv].
  destruct (decide (r <= round_up v a)).
  - apply divide_lt_eq with a; [done..|lia].
  - symmetry. apply divide_lt_eq with a; [done..|lia].
Qed.

Lemma round_up_multiple v a : 0 < a -> (a | v) -> round_up v a = v.
Proof. intros. apply round_up_unique; [done..|lia]. Qed.

Lemma round_up_mono v v' a : 0 < a -> v <= v' -> round_up v a <= round_up v' a.
Proof.
  intros. unfold round_up. apply Z.mul_le_mono_nonneg_r; [lia|].
  apply Z.div_le_mono; lia.
Qed.

(** The remainder form: [m = v % a; m == 0 ? v : v + (a - m)]. *)
Lemma round_up_rem v a :
  0 < a -> (if v mod a =? 0 then v else v + (a - v mod a)) = round_up v a.
Proof.
  intros Ha. symmetry. pose proof (Z.mod_pos_bound v a Ha).
  pose proof (Z.div_mod v a ltac:(lia)).
  case_bool; apply round_up_unique; try lia.
  - exists (v / a). lia.
  - exists (v / a + 1). lia.
Qed.

(** The mask form: [(v + a - 1) & ~(a - 1)] for a power of two [a]. *)
Lemma round_up_mask v k :
  0 <= k -> Z.land (v + 2 ^ k - 1) (Z.lnot (2 ^ k - 1)) = round_up v (2 ^ k).
Proof.
  intros Hk. unfold round_up.
  replace (2 ^ k - 1) with (Z.ones k) by (rewrite Z.ones_equiv; lia).
  rewrite <- Z.ldiff_land, Z.ldiff_ones_r by done.
  by rewrite Z.shiftl_mul_pow2, Z.shiftr_div_pow2 by done.
Qed.

(** Clearing the low bits in [uint64_t]. *)
Lemma land_high_u64 x k :
  0 <= k < 64 -> 0 <= x < 2 ^ 64 -> Z.land x (u64 (Z.lnot (Z.ones k))) = x / 2 ^ k * 2 ^ k.
Proof.
  intros Hk Hx. unfold wrap.
  rewrite <- Z.land_ones, (Z.land_comm (Z.lnot _)), Z.land_assoc, Z.land_ones by lia.
  rewrite Z.mod_small, <- Z.ldiff_land, Z.ldiff_ones_r by lia.
  by rewrite Z.shiftl_mul_pow2, Z.shiftr_div_pow2 by lia.
Qed.

(** The same in [uint32_t], as long as the sum does not wrap. *)
Lemma round_up_mask_u32 v k :
  0 <= k < 32 -> 0 <= v -> v + 2 ^ k <= 2 ^ 32 ->
  Z.land (u32 (v + (2 ^ k - 1))) (u32 (Z.lnot (2 ^ k - 1))) = round_up v (2 ^ k).
Proof.
  intros Hk Hv Hb. assert (0 < 2 ^ k) by (apply Z.pow_pos_nonneg; lia).
  rewrite <- round_up_mask by lia. unwrap.
  unfold wrap. rewrite <- Z.land_ones, (Z.land_comm (Z.lnot _)), Z.land_assoc by lia.
  rewrite Z.land_ones, Z.mod_small by lia. f_equal. lia.
Qed.

#[export] Hint Resolve round_up_le round_up_divide : hnnx.

(** * Sorting

    [std::sort] with a strict comparator.  On a comparator that orders every
    two distinct elements the result is unique; where the code's comparator
    leaves ties, the standard leaves their order open and this model picks
    one. *)

Section std_sort.
  Context {A : Type} (lt : A -> A -> bool).

Definition not_after (x y : A) : Prop := lt y x = false.

#[local] Instance not_after_dec x y : Decision (not_after x y).
  Proof. unfold not_after. apply _. Defined.

Definition std_sort (l : list A) : list A := merge_sort not_after l.

Lemma std_sort_perm l : std_sort l ≡ₚ l.
  Proof. apply merge_sort_Permutation. Qed.

Lemma std_sort_elem x l : x ∈ std_sort l <-> x ∈ l.
  Proof. by rewrite std_sort_perm. Qed.

Lemma std_sort_length l : length (std_sort l) = length l.
  Proof. by rewrite std_sort_perm. Qed.

Lemma std_sort_sorted l :
    (forall x y, lt x y = true -> lt y x = false) ->
    (forall x y z, lt y x = false -> lt z y = false -> lt z x = false) ->
    StronglySorted not_after (std_sort l).
  Proof.
    intros Hasym Htrans.
    assert (Transitive not_after) by (intros x y z; unfold not_after; eauto).
    assert (Total not_after).
    { intros x y. unfold not_after. destruct (lt y x) eqn:E; eauto. }
    by apply StronglySorted_merge_sort.
  Qed.
End std_sort.

Arguments not_after {A} lt x y /.

(** [std::stable_sort]: equal elements keep their order. *)
Section stable_sort.
Context {A : Type} (lt : A -> A -> bool).

Fixpoint insert_sorted (x : A) (l : list A) : list A :=
match l with
| [] => [x]
| y :: l' => if lt x y then x :: l else y :: insert_sorted x l'
end.

Definition stable_sort (l : list A) : list A := foldl (fun acc x => insert_sorted x acc) [] l.

(** A sorted list stays as it is. *)
Lemma stable_sort_id l : StronglySorted (not_after lt) l -> stable_sort l = l.
Proof.
unfold stable_sort. assert (forall x acc, (forall y, y ∈ acc -> lt x y = false) -> insert_sorted x acc = acc ++ [x]) as Hend.
{ intros x acc. induction acc as [|y acc IH]; intros H; [done|]. cbn. rewrite H by (left). rewrite IH; [done|]. intros z Hz. apply H. by right. }
induction l as [|x l IH] using rev_ind; [done|]. intros Hs. rewrite foldl_app. cbn.
assert (StronglySorted (not_after lt) l /\ forall y, y ∈ l -> lt x y = false) as [Hl Hx].
{ clear IH. induction l as [|z l IH]; [split; [constructor|set_solver]|]. cbn in Hs. apply StronglySorted_inv in Hs as [Hs Hz].
  destruct (IH Hs) as [Hl Hx]. rewrite Forall_forall in Hz. split.
  - constructor; [done|]. apply Forall_forall. intros y Hy. apply Hz. set_solver.
  - intros y [->|Hy]%elem_of_cons; [|by apply Hx]. apply Hz. set_solver. }
rewrite IH by done. by apply Hend.
Qed.
End stable_sort.

(** * Lists *)

Lemma StronglySorted_weaken {A} (R R' : A -> A -> Prop) l :
  (forall x y, R x y -> R' x y) -> StronglySorted R l -> StronglySorted R' l.
Proof.
  intros HR. induction l as [|x l IH]; intros Hs; [constructor|]. apply StronglySorted_inv in Hs as [Hs Hx].
  constructor; [by apply IH|]. eapply Forall_impl; [exact Hx|]. intros y. apply HR.
Qed.

Lemma StronglySorted_all {A} (R : A -> A -> Prop) l : (forall x y, x ∈ l -> y ∈ l -> R x y) -> StronglySorted R l.
Proof.
  induction l as [|x l IH]; intros H; constructor; [apply IH; set_solver|]. apply Forall_forall. set_solver.
Qed.

(** Sum of a measure over a list. *)
Definition sum_by {A} (f : A -> Z) (l : list A) : Z := foldr (fun x acc => f x + acc) 0 l.

Lemma sum_by_app {A} (f : A -> Z) l k : sum_by f (l ++ k) = sum_by f l + sum_by f k.
Proof. induction l as [|x l IH]; simpl; lia. Qed.

Lemma sum_by_le {A} (f g : A -> Z) l : (forall x, x ∈ l -> f x <= g x) -> sum_by f l <= sum_by g l.
Proof.
  induction l as [|x l IH]; intros H; [done|]. unfold sum_by in *. cbn [foldr].
  pose proof (H x ltac:(by left)). assert (forall y, y ∈ l -> f y <= g y) as H' by (intros; apply H; by right).
  specialize (IH H'). lia.
Qed.

Lemma sum_by_nonneg {A} (f : A -> Z) l : (forall x, x ∈ l -> 0 <= f x) -> 0 <= sum_by f l.
Proof.
  induction l as [|x l IH]; intros H; simpl; [done|].
  assert (0 <= f x) by (apply H; set_solver).
  assert (0 <= sum_by f l) by (apply IH; set_solver). lia.
Qed.

Lemma sum_by_perm {A} (f : A -> Z) l k : l ≡ₚ k -> sum_by f l = sum_by f k.
Proof. induction 1; simpl; lia. Qed.

Lemma sum_by_elem_le {A} (f : A -> Z) l x :
  (forall y, y ∈ l -> 0 <= f y) -> x ∈ l -> f x <= sum_by f l.
Proof.
  intros H Hx. apply list_elem_of_split in Hx as (l1 & l2 & ->).
  rewrite sum_by_app. simpl.
  assert (0 <= sum_by f l1) by (apply sum_by_nonneg; intros; apply H; set_solver).
  assert (0 <= sum_by f l2) by (apply sum_by_nonneg; intros; apply H; set_solver). lia.
Qed.

Lemma sum_by_fold_left {A} (f : A -> Z) l acc :
  foldl (fun a x => a + f x) acc l = acc + sum_by f l.
Proof. revert acc. induction l as [|x l IH]; intros acc; simpl; [lia|]. rewrite IH. lia. Qed.

Lemma sum_by_ext {A} (f g : A -> Z) l : (forall x, x ∈ l -> f x = g x) -> sum_by f l = sum_by g l.
Proof.
  induction l as [|x l IH]; intros H; [done|]. simpl. rewrite H, IH; set_solver.
Qed.

Lemma sum_by_map {A B} (f : B -> Z) (g : A -> B) l : sum_by f (map g l) = sum_by (fun x => f (g x)) l.
Proof. induction l as [|x l IH]; simpl; [done|]. by rewrite IH. Qed.

Lemma sum_by_scale {A} (f : A -> Z) c l : sum_by (fun x => c * f x) l = c * sum_by f l.
Proof. induction l as [|x l IH]; simpl; lia. Qed.

Lemma sum_by_const {A} c (l : list A) : sum_by (fun _ => c) l = c * Z.of_nat (length l).
Proof. induction l as [|x l IH]; simpl; lia. Qed.

(** The sum of a product over a two-level loop. *)
Lemma sum_by_product {A B C} (f : C -> Z) (g : A -> Z) (h : B -> Z) (mk : A -> B -> C) la lb :
  (forall a b, f (mk a b) = g a * h b) ->
  sum_by f (concat (map (fun a => map (mk a) lb) la)) = sum_by g la * sum_by h lb.
Proof.
  intros H. induction la as [|a la IH]; [done|]. simpl.
  rewrite sum_by_app, IH, sum_by_map, (sum_by_ext _ (fun b => g a * h b)), sum_by_scale by done.
  lia.
Qed.

(** A [uint64_t] accumulation whose exact value fits is exact. *)
Lemma foldl_u64_sum {A} (f : A -> Z) l acc :
  (forall x, x ∈ l -> 0 <= f x) -> 0 <= acc -> acc + sum_by f l < 2 ^ 64 ->
  foldl (fun a x => u64 (a + f x)) acc l = acc + sum_by f l.
Proof.
  revert acc. induction l as [|x l IH]; intros acc Hf Ha Hs; simpl in *; [lia|].
  assert (0 <= f x) by (apply Hf; set_solver).
  assert (0 <= sum_by f l) by (apply sum_by_nonneg; set_solver).
  unwrap. rewrite IH; [lia|set_solver|lia..].
Qed.

(** Number of elements that satisfy a boolean predicate. *)
Definition countb {A} (f : A -> bool) (l : list A) : nat :=
  length (filter (fun x => f x = true) l).

Lemma countb_nil {A} (f : A -> bool) : countb f [] = 0%nat.
Proof. done. Qed.

Lemma countb_cons {A} (f : A -> bool) x l :
  countb f (x :: l) = ((if f x then 1 else 0) + countb f l)%nat.
Proof. unfold countb. rewrite filter_cons. by case_decide; destruct (f x). Qed.

Lemma countb_app {A} (f : A -> bool) l k : countb f (l ++ k) = (countb f l + countb f k)%nat.
Proof. unfold countb. by rewrite filter_app, length_app. Qed.

Lemma countb_perm {A} (f : A -> bool) l k : l ≡ₚ k -> countb f l = countb f k.
Proof. intros H. unfold countb. by rewrite H. Qed.

Lemma countb_false {A} (f : A -> bool) l : (forall x, x ∈ l -> f x = false) -> countb f l = 0%nat.
Proof.
  induction l as [|x l IH]; intros H; [done|]. rewrite countb_cons, IH, H; set_solver.
Qed.

Lemma countb_le {A} (f : A -> bool) l : (countb f l <= length l)%nat.
Proof. unfold countb. apply length_filter. Qed.

Lemma countb_full {A} (f : A -> bool) l : countb f l = length l -> forall x, x ∈ l -> f x = true.
Proof.
induction l as [|x l IH]; [set_solver|]. rewrite countb_cons. cbn [length]. pose proof (countb_le f l) as Hle.
destruct (f x) eqn:E; [|lia]. intros H y [->|Hy]%elem_of_cons; [done|]. apply IH; [lia|done].
Qed.

Lemma countb_all {A} (f : A -> bool) l : (forall x, x ∈ l -> f x = true) -> countb f l = length l.
Proof.
induction l as [|x l IH]; intros H; [done|]. rewrite countb_cons, H, IH by set_solver. done.
Qed.

Lemma countb_insert {A} (f : A -> bool) l i x y :
l !! i = Some x -> (countb f (<[i := y]> l) + (if f x then 1 else 0) = countb f l + (if f y then 1 else 0))%nat.
Proof.
revert i. induction l as [|z l IH]; intros [|i] H; [done..| |].
- injection H as ->. change (<[0%nat := y]> (x :: l)) with (y :: l). rewrite !countb_cons. lia.
- change (<[S i := y]> (z :: l)) with (z :: <[i := y]> l). rewrite !countb_cons. specialize (IH i H). lia.
Qed.

Lemma countb_replicate {A} (f : A -> bool) n x : f x = false -> countb f (replicate n x) = 0%nat.
Proof. intros E. apply countb_false. by intros y [-> _]%elem_of_replicate. Qed.

(** Counting in a two-level loop whose test splits into an outer and an inner
    part. *)
Lemma countb_concat {A B} (f : B -> bool) (g : A -> bool) (mk : A -> list B) n l :
  (forall x, x ∈ l -> countb f (mk x) = if g x then n else 0%nat) ->
  countb f (concat (map mk l)) = (countb g l * n)%nat.
Proof.
  induction l as [|x l IH]; intros H; [done|]. simpl.
  rewrite countb_app, countb_cons, IH, H by set_solver. by destruct (g x).
Qed.

Lemma countb_map {A B} (f : B -> bool) (g : A -> B) l :
  countb f (map g l) = countb (fun x => f (g x)) l.
Proof. induction l as [|x l IH]; [done|]. simpl. by rewrite !countb_cons, IH. Qed.

Lemma countb_ext {A} (f g : A -> bool) l :
  (forall x, x ∈ l -> f x = g x) -> countb f l = countb g l.
Proof.
  induction l as [|x l IH]; intros H; [done|]. rewrite !countb_cons, IH, H; set_solver.
Qed.

Lemma forallb_ext_elem {A} (f g : A -> bool) l :
  (forall x, x ∈ l -> f x = g x) -> forallb f l = forallb g l.
Proof.
  induction l as [|x l IH]; intros H; [done|]. simpl. rewrite H, IH; set_solver.
Qed.

Lemma elem_of_concat {A} (x : A) ls : x ∈ concat ls <-> exists l, l ∈ ls /\ x ∈ l.
Proof.
  rewrite list_elem_of_In, in_concat.
  setoid_rewrite list_elem_of_In. done.
Qed.

Lemma elem_of_map {A B} (f : A -> B) y l : y ∈ map f l <-> exists x, y = f x /\ x ∈ l.
Proof. exact (list_elem_of_fmap f l y). Qed.

Lemma elem_of_option_list {A} (o : option A) x : x ∈ option_list o <-> o = Some x.
Proof. destruct o; set_solver. Qed.

Lemma list_filter_all_true {A} (P : A -> Prop) `{!forall x, Decision (P x)} (l : list A) : (forall x, x ∈ l -> P x) -> filter P l = l.
Proof.
induction l as [|x l IH]; intros HP; [done|]. rewrite filter_cons_True by (apply HP; left). f_equal. apply IH.
intros y Hy. apply HP. by right.
Qed.

Lemma list_filter_none {A} (P : A -> Prop) `{!forall x, Decision (P x)} (l : list A) : (forall x, x ∈ l -> ~ P x) -> filter P l = [].
Proof.
induction l as [|x l IH]; intros HP; [done|]. rewrite filter_cons_False by (apply HP; left). apply IH.
intros y Hy. apply HP. by right.
Qed.

Lemma NoDup_map_inj {A B} (f : A -> B) l x y :
  NoDup (map f l) -> x ∈ l -> y ∈ l -> f x = f y -> x = y.
Proof.
  intros Hnd [i Hi]%list_elem_of_lookup [j Hj]%list_elem_of_lookup Hf.
  assert (i = j); [|congruence].
  eapply NoDup_lookup; [exact Hnd|..].
  - change (map f l) with (f <$> l). by rewrite list_lookup_fmap, Hi.
  - change (map f l) with (f <$> l). by rewrite list_lookup_fmap, Hj, Hf.
Qed.

(** A loop whose body can fail, over a list that a total body maps. *)
Lemma mapM_pure {A B} (f : A -> option B) (g : A -> B) l :
  (forall x, x ∈ l -> f x = Some (g x)) -> mapM f l = Some (map g l).
Proof.
  induction l as [|x l IH]; intros H; [done|]. simpl.
  rewrite (H x) by set_solver. simpl. rewrite IH; [done|set_solver].
Qed.

(** Running maximum, as the code's [m = std::max(m, f(x))] loops. *)
Definition max_by {A} (f : A -> Z) (l : list A) : Z := foldl (fun a x => Z.max a (f x)) 0 l.

Lemma foldl_max_spec {A} (f : A -> Z) l acc :
  let r := foldl (fun a x => Z.max a (f x)) acc l in
  acc <= r /\ (forall x, x ∈ l -> f x <= r) /\ (r = acc \/ exists x, x ∈ l /\ f x = r).
Proof.
  revert acc. induction l as [|y l IH]; intros acc; simpl.
  - split; [lia|]. split; [set_solver|by left].
  - destruct (IH (Z.max acc (f y))) as (H1 & H2 & H3). split; [lia|]. split.
    + intros x [->|Hx]%elem_of_cons; [lia|by apply H2].
    + destruct H3 as [H3|(x & Hx & H3)].
      * destruct (decide (f y <= acc)); [left; lia|].
        right. exists y. rewrite elem_of_cons. split; [by left|lia].
      * right. exists x. rewrite elem_of_cons. split; [by right|done].
Qed.

Lemma max_by_le {A} (f : A -> Z) l x : x ∈ l -> f x <= max_by f l.
Proof. apply foldl_max_spec. Qed.

Lemma max_by_attained {A} (f : A -> Z) l :
  max_by f l = 0 \/ exists x, x ∈ l /\ f x = max_by f l.
Proof. apply foldl_max_spec. Qed.

(** * Pairwise relations

    [pairwise R l]: every element of [l] is related to every later one; for a
    symmetric [R] the order of [l] does not matter. *)
Abbreviation pairwise R l := (StronglySorted R l).

Lemma pairwise_app {A} (R : A -> A -> Prop) l k :
  pairwise R (l ++ k) <->
  (forall x y, x ∈ l -> y ∈ k -> R x y) /\ pairwise R l /\ pairwise R k.
Proof. apply StronglySorted_app. Qed.

Lemma pairwise_cons {A} (R : A -> A -> Prop) x l :
  pairwise R (x :: l) <-> (forall y, y ∈ l -> R x y) /\ pairwise R l.
Proof. rewrite StronglySorted_cons, Forall_forall. done. Qed.

Lemma pairwise_impl {A} (R S : A -> A -> Prop) l :
  (forall x y, R x y -> S x y) -> pairwise R l -> pairwise S l.
Proof.
  intros H. induction l as [|x l IH]; [constructor|].
  rewrite !pairwise_cons. intros [Hx Hl]. split; [intros; apply H; by apply Hx|by apply IH].
Qed.

Lemma pairwise_perm {A} (R : A -> A -> Prop) l k :
  (forall x y, R x y -> R y x) -> l ≡ₚ k -> pairwise R l -> pairwise R k.
Proof.
  intros Hsym Hp. induction Hp as [|x l k Hp IH|x y l|]; intros Hl; [done| | |by auto].
  - rewrite pairwise_cons in *. destruct Hl as [Hx Hl]. split; [|by auto].
    intros y Hy. apply Hx. by rewrite Hp.
  - rewrite !pairwise_cons in *. destruct Hl as (Hy & Hx & Hl). split_and!; [|set_solver|done].
    intros z [->|Hz]%elem_of_cons; [apply Hsym; set_solver|set_solver].
Qed.

(** Disjointness of the byte ranges [[o, o + s)], given as (offset, size). *)
Definition disjoint_ranges (a b : Z * Z) : Prop := a.1 + a.2 <= b.1 \/ b.1 + b.2 <= a.1.

Lemma disjoint_ranges_sym a b : disjoint_ranges a b -> disjoint_ranges b a.
Proof. unfold disjoint_ranges. lia. Qed.

#[export] Hint Resolve disjoint_ranges_sym : hnnx.

(** * Counted loops

    [for (uint32_t x = x0; x < bound; x += step)], as the list of the values
    the counter takes.  The counter wraps; [None] is the loop that has not
    ended after [fuel] iterations. *)
Fixpoint loop_starts (fuel : nat) (x bound step : Z) : option (list Z) :=
  match fuel with
  | O => None
  | S fuel =>
      if x <? bound then
        rest ← loop_starts fuel (u32 (x + step)) bound step; Some (x :: rest)
      else Some []
  end.

(** Membership of a half-open interval. *)
Definition in_range (lo n x : Z) : bool := (lo <=? x) && (x <? lo + n).

Lemma in_range_spec lo n x : in_range lo n x = true <-> lo <= x < lo + n.
Proof. unfold in_range. rewrite andb_true_iff, Z.leb_le, Z.ltb_lt. lia. Qed.

Lemma in_range_false lo n x : in_range lo n x = false <-> ~ (lo <= x < lo + n).
Proof. by rewrite <- in_range_spec, not_true_iff_false. Qed.

Section loop_starts.
  Variables (bound step : Z).
  Hypotheses (Hstep : 0 < step) (Hno_wrap : bound + step <= 2 ^ 32).

  (** The loop ends: the distance to the bound is enough fuel. *)
Lemma loop_starts_total fuel x :
    0 <= x -> (Z.to_nat (bound - x) < fuel)%nat ->
    exists l, loop_starts fuel x bound step = Some l.
  Proof.
    revert x. induction fuel as [|fuel IH]; intros x Hx Hf; [lia|]. simpl.
    case_bool; [|by eexists]. unwrap.
    destruct (IH (x + step)) as [l ->]; [lia..|]. by eexists.
  Qed.

  (** The intervals [[s, s + min step (bound - s))] of the starts cut
      [[x, bound)] into pieces: every point is in exactly one. *)
Lemma loop_starts_partition fuel x l y :
    0 <= x -> loop_starts fuel x bound step = Some l ->
    countb (fun s => in_range s (Z.min step (bound - s)) y) l
      = if in_range x (bound - x) y then 1%nat else 0%nat.
  Proof.
    revert x l. induction fuel as [|fuel IH]; intros x l Hx Hl; [done|].
    simpl in Hl. destruct (x <? bound) eqn:E; bool_prop.
    - unwrap_in Hl. destruct (loop_starts fuel (x + step) bound step) as [r|] eqn:Er; [|done].
      simplify_eq/=. specialize (IH (x + step) r ltac:(lia) Er).
      rewrite countb_cons, IH;
        repeat match goal with |- context [if ?b then _ else _] =>
          let E := fresh in destruct b eqn:E end; try done;
        rewrite ?in_range_spec, ?in_range_false, ?not_true_iff_false in *; lia.
    - simplify_eq/=. destruct (in_range _ _ y) eqn:E2; [|done].
      rewrite in_range_spec in E2. lia.
  Qed.

Lemma loop_starts_bounds fuel x l s :
    0 <= x -> loop_starts fuel x bound step = Some l -> s ∈ l -> x <= s < bound.
  Proof.
    revert x l. induction fuel as [|fuel IH]; intros x l Hx Hl Hs; [done|].
    simpl in Hl. destruct (x <? bound) eqn:E; bool_prop.
    - unwrap_in Hl. destruct (loop_starts fuel (x + step) bound step) as [r|] eqn:Er; [|done].
      simplify_eq/=. apply elem_of_cons in Hs as [->|Hs]; [lia|].
      specialize (IH (x + step) r ltac:(lia) Er Hs). lia.
    - simplify_eq/=. set_solver.
  Qed.
End loop_starts.

(** [for (uint32_t x = 0; x < bound; x += step)]: the counter takes at most
    [bound] values below the bound, so a loop that has not ended after
    [bound + 1] iterations repeats one and never ends. *)
Definition for_u32 (bound step : Z) : option (list Z) :=
  loop_starts (S (Z.to_nat bound)) 0 bound step.

Lemma for_u32_total bound step :
  0 < step -> bound + step <= 2 ^ 32 -> exists l, for_u32 bound step = Some l.
Proof. intros. apply loop_starts_total; lia. Qed.

Lemma for_u32_bounds bound step l s :
  0 < step -> bound + step <= 2 ^ 32 -> for_u32 bound step = Some l -> s ∈ l -> 0 <= s < bound.
Proof. intros ?? Hl Hs. by eapply loop_starts_bounds in Hl. Qed.

Lemma for_u32_partition bound step l y :
  0 < step -> bound + step <= 2 ^ 32 -> for_u32 bound step = Some l -> 0 <= y < bound ->
  countb (fun s => in_range s (Z.min step (bound - s)) y) l = 1%nat.
Proof.
  intros ?? Hl Hy. erewrite loop_starts_partition by done.
  destruct (in_range 0 (bound - 0) y) eqn:E; [done|]. rewrite in_range_false in E. lia.
Qed.

(** * Loops that can fail *)

(** A [for] loop whose body can leave the range of an array. *)
Fixpoint foldM {A B} (f : A -> B -> option A) (l : list B) (a : A) : option A :=
  match l with
  | [] => Some a
  | b :: l => a' ← f a b; foldM f l a'
  end.

Lemma foldM_app {A B} (f : A -> B -> option A) l k a :
  foldM f (l ++ k) a = (a' ← foldM f l a; foldM f k a').
Proof. revert a. induction l as [|b l IH]; intros a; simpl; [done|]. destruct (f a b); [by apply IH|done]. Qed.

(** What every step keeps, the loop keeps. *)
Lemma foldM_keeps {A B} (f : A -> B -> option A) (P : A -> Prop) l a a' :
  (forall x b y, b ∈ l -> P x -> f x b = Some y -> P y) ->
  P a -> foldM f l a = Some a' -> P a'.
Proof.
  revert a. induction l as [|b l IH]; intros a Hstep Ha Hf; cbn in Hf; [by simplify_eq|].
  destruct (f a b) as [x|] eqn:E; [|done]. cbn in Hf.
  apply (IH x); [|by eapply Hstep; [left| |]|done].
  intros y b' z Hb'. apply Hstep. set_solver.
Qed.

(** A loop whose steps succeed under what they keep succeeds. *)
Lemma foldM_total {A B} (f : A -> B -> option A) (P : A -> Prop) l a :
  (forall x b, b ∈ l -> P x -> exists y, f x b = Some y /\ P y) ->
  P a -> exists a', foldM f l a = Some a' /\ P a'.
Proof.
  revert a. induction l as [|b l IH]; intros a Hstep Ha; cbn; [by eauto|].
  destruct (Hstep a b) as (y & -> & Hy); [left|done|]. cbn.
  apply IH; [|done]. intros x b' Hb'. apply Hstep. set_solver.
Qed.
