(* ===== verification/Ir.v ===== *)
(** The shared IR data ([compiler/include/hnnx/ir/types.hpp]): operator
    descriptors, their flags, connections and output definitions, restricted to
    the fields that the modelled components read. *)
From S2P Require Import Prelude.

(** [op_id_t] is [uint64_t]. *)
Abbreviation op_id_t := Z.

Inductive DType :=
  | Float32 | Float16 | Int8 | Int16 | Int32 | UInt8 | Bool
  | BFloat16 | Int4 | UInt4 | FP8_E4M3 | FP8_E5M2 | MXFP4.

#[export] Instance DType_eq_dec : EqDecision DType.
Proof. solve_decision. Defined.

(** [dims] has five entries, of which the first [rank] are in use. *)
Record OutputDef := mkOutputDef {
  rank : Z; dtype : Z; dims : list Z; element_size : Z
}.

Definition dim (od : OutputDef) (i : nat) : Z := nth i (dims od) 0.

Definition OP_ENABLED : Z := 0x01.
Definition OP_CONST : Z := 0x02.
Definition OP_DEAD : Z := 0x04.

Record InputConn := mkInputConn {
  src_id : op_id_t; out_idx : Z; src_out_def : OutputDef
}.

Record OpDef := mkOpDef {
  op_id : op_id_t;
  flags : Z;
  name : option string;        (** [name_tag->name()], [None] for a null tag *)
  output_def : OutputDef;
  inputs : list InputConn;
  consumers : list op_id_t
}.

Definition is_enabled (od : OpDef) : bool := negb (Z.land (flags od) OP_ENABLED =? 0).
Definition is_const (od : OpDef) : bool := negb (Z.land (flags od) OP_CONST =? 0).
Definition is_dead (od : OpDef) : bool := negb (Z.land (flags od) OP_DEAD =? 0).
