(* ===== verification/Tiling.v ===== *)
(** Tiling: the spatial convolution tiles with their halo
    ([compiler/src/tiling/conv_tiling.cpp]), the budget-driven tiling rules and
    their registry ([compiler/src/tiling/tiling_rule.cpp]), and the per-op
    tilers, tile conforming and tile distribution
    ([compiler/src/tiling/tiler.cpp]). *)
From S2P Require Import Prelude Ir.

(** * conv_tiling.cpp *)
Module ConvTiling.

Record ConvTileDesc := mkConvTileDesc {
  out_y0 : Z; out_x0 : Z; out_h : Z; out_w : Z;
  in_y0 : Z; in_x0 : Z; in_h : Z; in_w : Z;
  kh : Z; kw : Z; sh : Z; sw : Z;
  ph_begin : Z; pw_begin : Z;
  ci : Z; co : Z;
  co0 : Z; co_n : Z;
  block_ref : Z
}.

(** Convolution geometry, the arguments of [compute_conv_tiles]. *)
Record ConvGeom := mkConvGeom {
  g_in_h : Z; g_in_w : Z; g_cin : Z;
  g_out_h : Z; g_out_w : Z; g_cout : Z;
  g_kh : Z; g_kw : Z; g_sh : Z; g_sw : Z;
  g_ph : Z; g_pw : Z
}.

(** The halo of one axis: first input index and length, clamped to the input.
    The code computes it in [long long]. *)
Definition halo (o0 on stride pad k limit : Z) : Z * Z :=
  let r0 := o0 * stride - pad in
  let r1 := r0 + (on - 1) * stride + k in
  let r0 := Z.max r0 0 in
  let r1 := Z.min r1 limit in
  (u32 r0, u32 (Z.max (r1 - r0) 0)).

Arguments halo : simpl never.

(** The body of the three nested loops. [sh] and [sw] are already non-zero. *)
Definition conv_tile (g : ConvGeom) (sh sw th tw co_s co0 y0 x0 : Z) : ConvTileDesc :=
  let co_n := Z.min co_s (g_cout g - co0) in
  let oh := Z.min th (g_out_h g - y0) in
  let ow := Z.min tw (g_out_w g - x0) in
  let rows := halo y0 oh sh (g_ph g) (g_kh g) (g_in_h g) in
  let cols := halo x0 ow sw (g_pw g) (g_kw g) (g_in_w g) in
  mkConvTileDesc y0 x0 oh ow rows.1 cols.1 rows.2 cols.2
    (g_kh g) (g_kw g) sh sw (g_ph g) (g_pw g) (g_cin g) (g_cout g) co0 co_n 0.

(** [None]: one of the loops never ends (its counter wraps). *)
Definition compute_conv_tiles (g : ConvGeom) (tile_h tile_w co_per_tile : Z)
  : option (list ConvTileDesc) :=
  if (g_out_h g =? 0) || (g_out_w g =? 0) then Some []
  else
    let th := if 0 <? tile_h then tile_h else g_out_h g in
    let tw := if 0 <? tile_w then tile_w else g_out_w g in
    let sh := if g_sh g =? 0 then 1 else g_sh g in
    let sw := if g_sw g =? 0 then 1 else g_sw g in
    let co_s :=
      if (0 <? co_per_tile) && (co_per_tile <? g_cout g) then co_per_tile else g_cout g in
    cos ← for_u32 (g_cout g) co_s;
    per_co ← mapM (fun co0 =>
      ys ← for_u32 (g_out_h g) th;
      per_y ← mapM (fun y0 =>
        xs ← for_u32 (g_out_w g) tw;
        Some (map (conv_tile g sh sw th tw co_s co0 y0) xs)) ys;
      Some (concat per_y)) cos;
    Some (concat per_co).

(** The output element [(y, x, c)] belongs to a tile. *)
Definition covers (y x c : Z) (t : ConvTileDesc) : bool :=
  in_range (out_y0 t) (out_h t) y && in_range (out_x0 t) (out_w t) x
  && in_range (co0 t) (co_n t) c.

(** Every dimension fits its [uint32_t] with room for the counters' last step. *)
Definition geom_ok (g : ConvGeom) : Prop :=
  0 < g_out_h g < 2 ^ 31 /\ 0 < g_out_w g < 2 ^ 31 /\ 0 < g_cout g < 2 ^ 31 /\
  0 <= g_in_h g < 2 ^ 31 /\ 0 <= g_in_w g < 2 ^ 31 /\
  0 <= g_sh g < 2 ^ 31 /\ 0 <= g_sw g < 2 ^ 31 /\
  0 <= g_kh g < 2 ^ 31 /\ 0 <= g_kw g < 2 ^ 31 /\
  0 <= g_ph g < 2 ^ 31 /\ 0 <= g_pw g < 2 ^ 31.

(** A window [k] of the stride-[stride] convolution reads input index
    [o * stride + d - pad]; if that index is inside the input, the halo of any
    tile that contains [o] contains it. *)
Lemma halo_contains o0 on stride pad k limit o d :
  0 <= o0 -> 0 <= stride -> 0 <= limit < 2 ^ 32 -> o0 <= o < o0 + on -> 0 <= d < k ->
  let h := halo o0 on stride pad k limit in
  0 <= o * stride + d - pad < limit ->
  h.1 <= o * stride + d - pad < h.1 + h.2.
Proof.
  intros ?? Hl Ho Hd h Hr. subst h. unfold halo. simpl.
  assert (o0 * stride <= o * stride) by (apply Z.mul_le_mono_nonneg_r; lia).
  assert (o * stride <= (o0 + on - 1) * stride) by (apply Z.mul_le_mono_nonneg_r; lia).
  replace ((o0 + on - 1) * stride) with (o0 * stride + (on - 1) * stride) in * by lia.
  set (P := o0 * stride) in *. set (Q := (on - 1) * stride) in *.
  set (R := o * stride) in *. unwrap. lia.
Qed.

(** The halo never reaches past the input. *)
Lemma halo_inside o0 on stride pad k limit :
  0 <= limit < 2 ^ 32 ->
  let h := halo o0 on stride pad k limit in
  h.2 = 0 \/ (0 <= h.1 /\ 0 < h.2 /\ h.1 + h.2 <= limit).
Proof.
  intros Hl h. subst h. unfold halo. simpl.
  set (r0 := o0 * stride - pad). set (r1 := r0 + (on - 1) * stride + k).
  destruct (decide (Z.min r1 limit - Z.max r0 0 <= 0)).
  - left. rewrite Z.max_r by lia. done.
  - right. unwrap. lia.
Qed.

(** The loops of a well-formed geometry end; the result is the three-level
    product of the counters. *)
Lemma compute_conv_tiles_eq g tile_h tile_w co_per_tile :
  geom_ok g -> 0 <= tile_h < 2 ^ 31 -> 0 <= tile_w < 2 ^ 31 -> 0 <= co_per_tile < 2 ^ 31 ->
  exists th tw sh sw co_s cos ys xs,
    0 < th < 2 ^ 31 /\ 0 < tw < 2 ^ 31 /\ 0 < co_s < 2 ^ 31 /\
    sh = (if g_sh g =? 0 then 1 else g_sh g) /\ sw = (if g_sw g =? 0 then 1 else g_sw g) /\
    for_u32 (g_cout g) co_s = Some cos /\ for_u32 (g_out_h g) th = Some ys /\
    for_u32 (g_out_w g) tw = Some xs /\
    compute_conv_tiles g tile_h tile_w co_per_tile =
      Some (concat (map (fun co0 => concat (map (fun y0 =>
        map (conv_tile g sh sw th tw co_s co0 y0) xs) ys)) cos)).
Proof.
  intros (Hh & Hw & Hc & _) ???. unfold compute_conv_tiles.
  set (th := if 0 <? tile_h then tile_h else g_out_h g).
  set (tw := if 0 <? tile_w then tile_w else g_out_w g).
  set (co_s := if (0 <? co_per_tile) && (co_per_tile <? g_cout g)
               then co_per_tile else g_cout g).
  assert (0 < th < 2 ^ 31) by (subst th; case_bool; lia).
  assert (0 < tw < 2 ^ 31) by (subst tw; case_bool; lia).
  assert (0 < co_s < 2 ^ 31).
  { subst co_s. case_bool; [lia|]. lia. }
  destruct (for_u32_total (g_cout g) co_s) as [cos Hcos]; [lia..|].
  destruct (for_u32_total (g_out_h g) th) as [ys Hys]; [lia..|].
  destruct (for_u32_total (g_out_w g) tw) as [xs Hxs]; [lia..|].
  eexists th, tw, _, _, co_s, cos, ys, xs. do 5 (split; [done|]). do 3 (split; [done|]).
  rewrite (proj2 (Z.eqb_neq _ _)) by lia. rewrite (proj2 (Z.eqb_neq _ _)) by lia.
  cbv zeta. simpl. rewrite Hcos. simpl.
  erewrite mapM_pure; [done|]. intros co0 _. simpl. rewrite Hys. simpl.
  erewrite mapM_pure; [done|]. intros y0 _. simpl. by rewrite Hxs.
Qed.

(** Every output element of every channel is in exactly one tile. *)
Lemma conv_tiles_count g tile_h tile_w co_per_tile y x c :
  geom_ok g -> 0 <= tile_h < 2 ^ 31 -> 0 <= tile_w < 2 ^ 31 -> 0 <= co_per_tile < 2 ^ 31 ->
  0 <= y < g_out_h g -> 0 <= x < g_out_w g -> 0 <= c < g_cout g ->
  exists tiles, compute_conv_tiles g tile_h tile_w co_per_tile = Some tiles /\
    countb (covers y x c) tiles = 1%nat.
Proof.
  intros Hg Hth Htw Hco Hy Hx Hc.
  destruct (compute_conv_tiles_eq g _ _ _ Hg Hth Htw Hco)
    as (th & tw & sh & sw & co_s & cos & ys & xs & ? & ? & ? & _ & _ & Hcos & Hys & Hxs & ->).
  destruct Hg as (? & ? & ? & _).
  eexists. split; [done|].
  erewrite (countb_concat _ (fun s => in_range s (Z.min co_s (g_cout g - s)) c) _ 1).
  { by rewrite (for_u32_partition _ _ cos) by (done || lia). }
  intros co0 _.
  erewrite (countb_concat _ (fun s => in_range s (Z.min th (g_out_h g - s)) y &&
                                   in_range co0 (Z.min co_s (g_cout g - co0)) c) _ 1).
  - destruct (in_range co0 _ c) eqn:E.
    + rewrite (countb_ext _ (fun s => in_range s (Z.min th (g_out_h g - s)) y)).
      * by rewrite (for_u32_partition _ _ ys) by (done || lia).
      * intros s _. by rewrite andb_true_r.
    + rewrite countb_false; [done|]. intros s _. simpl. by rewrite andb_false_r.
  - intros y0 _. rewrite countb_map.
    destruct (in_range y0 _ y && in_range co0 _ c) eqn:E.
    + apply andb_true_iff in E as [E1 E2].
      rewrite (countb_ext _ (fun s => in_range s (Z.min tw (g_out_w g - s)) x)).
      * by apply for_u32_partition; [lia..|done|done].
      * intros x0 _. unfold covers. simpl. by rewrite E1, E2, andb_true_r.
    + rewrite countb_false; [done|]. intros x0 _. unfold covers. simpl.
      destruct (in_range y0 _ y), (in_range co0 _ c), (in_range x0 _ x); done.
Qed.

Lemma conv_tiles_elem g tile_h tile_w co_per_tile tiles t :
  geom_ok g -> 0 <= tile_h < 2 ^ 31 -> 0 <= tile_w < 2 ^ 31 -> 0 <= co_per_tile < 2 ^ 31 ->
  compute_conv_tiles g tile_h tile_w co_per_tile = Some tiles -> t ∈ tiles ->
  exists th tw co_s co0 y0 x0, 0 < th /\ 0 < tw /\ 0 < co_s /\
    0 <= co0 < g_cout g /\ 0 <= y0 < g_out_h g /\ 0 <= x0 < g_out_w g /\
    t = conv_tile g (if g_sh g =? 0 then 1 else g_sh g) (if g_sw g =? 0 then 1 else g_sw g)
          th tw co_s co0 y0 x0.
Proof.
  intros Hg Hth Htw Hco Hc Ht.
  destruct (compute_conv_tiles_eq g _ _ _ Hg Hth Htw Hco)
    as (th & tw & sh & sw & co_s & cos & ys & xs & ? & ? & ? & -> & -> & Hcos & Hys & Hxs & Heq).
  rewrite Heq in Hc. simplify_eq. destruct Hg as (? & ? & ? & _).
  apply elem_of_concat in Ht as (? & (co0 & -> & Hco0)%elem_of_map & Ht).
  apply elem_of_concat in Ht as (? & (y0 & -> & Hy0)%elem_of_map & Ht).
  apply elem_of_map in Ht as (x0 & -> & Hx0).
  exists th, tw, co_s, co0, y0, x0. do 3 (split; [lia|]).
  split; [eapply for_u32_bounds; [..|done|done]; lia|].
  split; [eapply for_u32_bounds; [..|done|done]; lia|].
  split; [eapply for_u32_bounds; [..|done|done]; lia|done].
Qed.

(** [compute_conv_tiles] returns, and its tiles partition the output: every
    output element of every channel lies in exactly one tile, and every tile is
    non-empty and inside the output. *)
Theorem conv_tiles_partition g tile_h tile_w co_per_tile y x c :
  geom_ok g -> 0 <= tile_h < 2 ^ 31 -> 0 <= tile_w < 2 ^ 31 -> 0 <= co_per_tile < 2 ^ 31 ->
  0 <= y < g_out_h g -> 0 <= x < g_out_w g -> 0 <= c < g_cout g ->
  exists tiles, compute_conv_tiles g tile_h tile_w co_per_tile = Some tiles /\
    countb (covers y x c) tiles = 1%nat /\
    forall t, t ∈ tiles ->
      0 < out_h t /\ out_y0 t + out_h t <= g_out_h g /\
      0 < out_w t /\ out_x0 t + out_w t <= g_out_w g /\
      0 < co_n t /\ co0 t + co_n t <= g_cout g.
Proof.
  intros Hg Hth Htw Hco Hy Hx Hc.
  destruct (conv_tiles_count g tile_h tile_w co_per_tile y x c) as (tiles & Ht & Hn); [done..|].
  exists tiles. do 2 (split; [done|]). intros t Hel.
  destruct (conv_tiles_elem _ _ _ _ _ _ Hg Hth Htw Hco Ht Hel)
    as (th & tw & co_s & co0 & y0 & x0 & ? & ? & ? & ? & ? & ? & ->). simpl. lia.
Qed.

(** C27: the input slice of a tile holds every input element that the tile's
    outputs read: for an output [(y, x)] of the tile and a kernel offset
    [(dy, dx)], an input row [y*sh + dy - ph] or column [x*sw + dx - pw] that
    lies inside the input lies inside the slice; and a non-empty slice never
    reaches past the input. *)
Theorem conv_tiles_halo g tile_h tile_w co_per_tile tiles t :
  geom_ok g -> 0 <= tile_h < 2 ^ 31 -> 0 <= tile_w < 2 ^ 31 -> 0 <= co_per_tile < 2 ^ 31 ->
  compute_conv_tiles g tile_h tile_w co_per_tile = Some tiles -> t ∈ tiles ->
  (forall y dy, out_y0 t <= y < out_y0 t + out_h t -> 0 <= dy < kh t ->
     let r := y * sh t + dy - ph_begin t in
     0 <= r < g_in_h g -> in_y0 t <= r < in_y0 t + in_h t) /\
  (forall x dx, out_x0 t <= x < out_x0 t + out_w t -> 0 <= dx < kw t ->
     let c := x * sw t + dx - pw_begin t in
     0 <= c < g_in_w g -> in_x0 t <= c < in_x0 t + in_w t) /\
  (in_h t = 0 \/ in_y0 t + in_h t <= g_in_h g) /\
  (in_w t = 0 \/ in_x0 t + in_w t <= g_in_w g).
Proof.
  intros Hg Hth Htw Hco Hc Ht.
  destruct (conv_tiles_elem _ _ _ _ _ _ Hg Hth Htw Hco Hc Ht)
    as (th & tw & co_s & co0 & y0 & x0 & ? & ? & ? & ? & ? & ? & ->).
  destruct Hg as (? & ? & ? & ? & ? & ? & ? & _). simpl.
  split; [|split; [|split]].
  - intros y dy Hy Hdy Hr. apply halo_contains; [lia| |lia|done|done|done]. case_bool; lia.
  - intros x dx Hx Hdx Hr. apply halo_contains; [lia| |lia|done|done|done]. case_bool; lia.
  - edestruct (halo_inside y0) as [Hz|Hz]; [|left; exact Hz|right; apply Hz]. lia.
  - edestruct (halo_inside x0) as [Hz|Hz]; [|left; exact Hz|right; apply Hz]. lia.
Qed.

(** A 5x5 image under a 3x3 same-padded convolution, cut into 2x2 tiles and two
    channel segments. *)
Definition geom_5x5 : ConvGeom := mkConvGeom 5 5 8 5 5 6 3 3 1 1 1 1.

Lemma geom_5x5_ok : geom_ok geom_5x5.
Proof. unfold geom_ok; simpl; lia. Defined.

Lemma conv_tiles_partition_witness :
  exists tiles, compute_conv_tiles geom_5x5 2 2 4 = Some tiles /\
    countb (covers 4 1 5) tiles = 1%nat.
Proof.
  destruct (conv_tiles_partition geom_5x5 2 2 4 4 1 5 geom_5x5_ok)
    as (tiles & H1 & H2 & _); simpl; [lia..|by exists tiles].
Defined.

Lemma conv_tiles_halo_witness :
  let t := conv_tile geom_5x5 1 1 2 2 4 0 2 4 in
  in_y0 t <= 2 * sh t + 1 - ph_begin t < in_y0 t + in_h t /\
  (in_h t = 0 \/ in_y0 t + in_h t <= 5).
Proof.
  pose (tiles := default [] (compute_conv_tiles geom_5x5 2 2 4)).
  destruct (conv_tiles_halo geom_5x5 2 2 4 tiles (conv_tile geom_5x5 1 1 2 2 4 0 2 4))
    as (Hy & _ & Hin & _).
  - apply geom_5x5_ok.
  - lia.
  - lia.
  - lia.
  - reflexivity.
  - apply (list_elem_of_lookup_2 tiles 5). reflexivity.
  - split; [apply (Hy 2 1); vm_compute; intuition discriminate|exact Hin].
Defined.

End ConvTiling.

(** * tiling_rule.cpp *)
Module TilingRule.
Import ConvTiling.

Record TileBudget := mkTileBudget { vtcm_tile_size : Z; align : Z }.

Record OpShape := mkOpShape {
  M : Z; N : Z; K : Z; weight_bits : Z;
  s_in_h : Z; s_in_w : Z; s_cin : Z;
  s_out_h : Z; s_out_w : Z; s_cout : Z;
  s_kh : Z; s_kw : Z; s_sh : Z; s_sw : Z; s_ph : Z; s_pw : Z
}.

Record OutputTile := mkOutputTile {
  m0 : Z; m1 : Z; n0 : Z; n1 : Z; c0 : Z; c1 : Z; working_set : Z
}.

Record TilingPlan := mkTilingPlan {
  op : string; tiled : bool; tiles : list OutputTile;
  max_working_set : Z; fits_budget : bool
}.

Definition matmul_ws (Mt Nt K wbits : Z) : Z :=
  let a := u64 (u64 (Mt * K) * 2) in
  let b := u64 (u64 (Nt * K) * wbits) / 8 in
  let c := u64 (u64 (Mt * Nt) * 2) in
  u64 (u64 (a + b) + c).

(** [while (v > align && ws(v) > limit) v = down(v);], with
    [down(v) = (v > align) ? v - align : align]. *)
Fixpoint shrink (fuel : nat) (align limit : Z) (ws : Z -> Z) (v : Z) : option Z :=
  if (align <? v) && (limit <? ws v) then
    match fuel with
    | O => None
    | S fuel => shrink fuel align limit ws (if align <? v then v - align else align)
    end
  else Some v.

(** The tile sizes chosen for a budget: shrink [N] first, then [M]. *)
Definition shrink_tile (s : OpShape) (b : TileBudget) (al : Z) : option (Z * Z) :=
  if 0 <? vtcm_tile_size b then
    nt ← shrink (Z.to_nat (N s)) al (vtcm_tile_size b)
           (fun nt => matmul_ws (M s) nt (K s) (weight_bits s)) (N s);
    mt ← shrink (Z.to_nat (M s)) al (vtcm_tile_size b)
           (fun mt => matmul_ws mt nt (K s) (weight_bits s)) (M s);
    Some (mt, nt)
  else Some (M s, N s).

Definition matmul_tile (s : OpShape) (mt nt m0 n0 : Z) : OutputTile :=
  let m1 := Z.min (M s) (u32 (m0 + mt)) in
  let n1 := Z.min (N s) (u32 (n0 + nt)) in
  mkOutputTile m0 m1 n0 n1 0 0 (matmul_ws (m1 - m0) (n1 - n0) (K s) (weight_bits s)).

Definition max_ws (l : list OutputTile) : Z := max_by working_set l.

Definition fits (b : TileBudget) (maxws : Z) : bool :=
  (vtcm_tile_size b =? 0) || (maxws <=? vtcm_tile_size b).

Definition is_tiled {A} (l : list A) : bool := (1 <? length l)%nat.

Definition matmul_tile_shape (s : OpShape) (b : TileBudget) : option TilingPlan :=
  let al := if 0 <? align b then align b else 32 in
  if (M s =? 0) || (N s =? 0) || (K s =? 0) then
    Some (mkTilingPlan "matmul" false [] 0 false)
  else
    '(mt, nt) ← shrink_tile s b al;
    ms ← for_u32 (M s) mt;
    rows ← mapM (fun m0 =>
      ns ← for_u32 (N s) nt;
      Some (map (matmul_tile s mt nt m0) ns)) ms;
    let ts := concat rows in
    let maxws := max_ws ts in
    Some (mkTilingPlan "matmul" (is_tiled ts) ts maxws (fits b maxws)).

(** The spatial tile size of [conv_tile_shape]. *)
Definition conv_tile_size (s : OpShape) (b : TileBudget) : Z * Z :=
  if 0 <? vtcm_tile_size b then
    let per_pix := u64 (u64 (u64 (s_kh s * s_kw s) * s_cin s) * 2) in
    if 0 <? per_pix then
      let max_pix := vtcm_tile_size b / 8 / per_pix in
      if (0 <? max_pix) && (max_pix <? u64 (s_out_h s * s_out_w s)) then
        let th := u32 (Z.max 1 (max_pix / s_out_w s)) in
        if th <? s_out_h s then (th, s_out_w s) else (s_out_h s, s_out_w s)
      else (s_out_h s, s_out_w s)
    else (s_out_h s, s_out_w s)
  else (s_out_h s, s_out_w s).

Definition geom_of_shape (s : OpShape) : ConvGeom :=
  mkConvGeom (s_in_h s) (s_in_w s) (s_cin s) (s_out_h s) (s_out_w s) (s_cout s)
    (s_kh s) (s_kw s) (s_sh s) (s_sw s) (s_ph s) (s_pw s).

Definition conv_output_tile (t : ConvTileDesc) : OutputTile :=
  let inb := u64 (u64 (u64 (in_h t * in_w t) * ci t) * 2) in
  let wb := u64 (u64 (u64 (u64 (kh t * kw t) * ci t) * co_n t) * 2) in
  let outb := u64 (u64 (u64 (out_h t * out_w t) * co_n t) * 2) in
  mkOutputTile (out_y0 t) (u32 (out_y0 t + out_h t)) (out_x0 t) (u32 (out_x0 t + out_w t))
    (co0 t) (u32 (co0 t + co_n t)) (u64 (u64 (inb + wb) + outb)).

Definition conv_tile_shape (s : OpShape) (b : TileBudget) : option TilingPlan :=
  if (s_out_h s =? 0) || (s_out_w s =? 0) || (s_cout s =? 0) then
    Some (mkTilingPlan "conv2d" false [] 0 false)
  else
    let '(tile_h, tile_w) := conv_tile_size s b in
    ct ← compute_conv_tiles (geom_of_shape s) tile_h tile_w 0;
    let ts := map conv_output_tile ct in
    let maxws := max_ws ts in
    Some (mkTilingPlan "conv2d" (is_tiled ts) ts maxws (fits b maxws)).

Definition identity_tile_plan (s : OpShape) : TilingPlan :=
  mkTilingPlan "identity" false [] 0 false.

(** The registry: the rules by op name, and the names in order of first
    registration.  A rule may fail to return, as [matmul_tile_shape] does when
    its loops do not end. *)
Abbreviation ShapeFn := (OpShape -> TileBudget -> option TilingPlan).

Record TilingRuleRegistry := mkRegistry {
  rules_ : gmap string ShapeFn;
  order_ : list string
}.

Definition empty_registry : TilingRuleRegistry := mkRegistry ∅ [].

Definition register_rule (op : string) (fn : ShapeFn) (r : TilingRuleRegistry)
  : TilingRuleRegistry :=
  let order := match rules_ r !! op with None => order_ r ++ [op] | Some _ => order_ r end in
  mkRegistry (<[op := fn]> (rules_ r)) order.

Definition has (op : string) (r : TilingRuleRegistry) : bool :=
  match rules_ r !! op with Some _ => true | None => false end.

Definition plan (r : TilingRuleRegistry) (op : string) (s : OpShape) (b : TileBudget)
  : option TilingPlan :=
  match rules_ r !! op with
  | None => Some (identity_tile_plan s)
  | Some fn => fn s b
  end.

Definition registered (r : TilingRuleRegistry) : list string := order_ r.

Definition register_builtin_tiling_rules (r : TilingRuleRegistry) : TilingRuleRegistry :=
  register_rule "conv2d" conv_tile_shape (register_rule "matmul" matmul_tile_shape r).

(** The alignment in force: [b.align > 0 ? b.align : 32]. *)
Definition eff_align (b : TileBudget) : Z := if 0 <? align b then align b else 32.

Definition out_covers (m n c : Z) (t : OutputTile) : bool :=
  in_range (m0 t) (m1 t - m0 t) m && in_range (n0 t) (n1 t - n0 t) n
  && in_range (c0 t) (c1 t - c0 t) c.

(** Row and column only: [c0] and [c1] are unused by matmul. *)
Definition mn_covers (m n : Z) (t : OutputTile) : bool :=
  in_range (m0 t) (m1 t - m0 t) m && in_range (n0 t) (n1 t - n0 t) n.

Definition matmul_ok (s : OpShape) (b : TileBudget) : Prop :=
  0 < M s < 2 ^ 31 /\ 0 < N s < 2 ^ 31 /\ 0 < K s < 2 ^ 31 /\
  0 <= align b < 2 ^ 31 /\ 0 <= vtcm_tile_size b.

(** No product of the working-set estimate wraps for the whole matrix. *)
Definition ws_no_wrap (s : OpShape) : Prop :=
  0 <= weight_bits s /\
  M s * K s * 2 + N s * K s * weight_bits s + M s * N s * 2 < 2 ^ 64.

Lemma shrink_spec fuel al limit ws v :
  0 < al -> 0 < v -> (Z.to_nat v <= fuel)%nat ->
  exists r, shrink fuel al limit ws v = Some r /\ 0 < r <= v /\ (ws r <= limit \/ r <= al).
Proof.
  intros Hal. revert v. induction fuel as [|fuel IH]; intros v Hv Hf; [lia|]. simpl.
  destruct (al <? v) eqn:E1, (limit <? ws v) eqn:E2; bool_prop; simpl;
    [|exists v; split_and!; [done|lia..|lia]..].
  destruct (IH (v - al)) as (r & -> & Hr & Hw); [lia..|].
  exists r. split_and!; [done|lia..|done].
Qed.

Lemma matmul_ws_exact Mt Nt s :
  ws_no_wrap s -> 0 <= Mt <= M s -> 0 <= Nt <= N s -> 0 <= K s ->
  matmul_ws Mt Nt (K s) (weight_bits s)
    = Mt * K s * 2 + Nt * K s * weight_bits s / 8 + Mt * Nt * 2.
Proof.
  intros [Hw Hb] HM HN HK. unfold matmul_ws.
  assert (0 <= Mt * K s <= M s * K s) by nia.
  assert (0 <= Nt * K s <= N s * K s) by nia.
  assert (0 <= Nt * K s * weight_bits s <= N s * K s * weight_bits s) by nia.
  assert (0 <= Mt * Nt <= M s * N s) by nia.
  destruct (decide (weight_bits s = 0)) as [->|].
  - rewrite !Z.mul_0_r. change (u64 0 / 8) with 0. change (0 / 8) with 0. unwrap. lia.
  - assert (Nt * K s <= Nt * K s * weight_bits s) by nia.
    pose proof (Z.div_mod (Nt * K s * weight_bits s) 8 ltac:(lia)).
    pose proof (Z.mod_pos_bound (Nt * K s * weight_bits s) 8 ltac:(lia)).
    unwrap. done.
Qed.

Lemma matmul_ws_mono Mt Nt Mt' Nt' s :
  ws_no_wrap s -> 0 <= K s -> 0 <= Mt <= Mt' -> 0 <= Nt <= Nt' -> Mt' <= M s -> Nt' <= N s ->
  matmul_ws Mt Nt (K s) (weight_bits s) <= matmul_ws Mt' Nt' (K s) (weight_bits s).
Proof.
  intros Hw HK ????. rewrite !matmul_ws_exact by (done || lia).
  assert (Nt * K s * weight_bits s / 8 <= Nt' * K s * weight_bits s / 8).
  { destruct Hw. apply Z.div_le_mono; [lia|].
    do 2 (apply Z.mul_le_mono_nonneg_r; [lia|]). lia. }
  assert (Mt * K s <= Mt' * K s) by nia. assert (Mt * Nt <= Mt' * Nt') by nia. lia.
Qed.

Lemma shrink_tile_spec s b :
  matmul_ok s b ->
  exists mt nt, shrink_tile s b (eff_align b) = Some (mt, nt) /\
    0 < mt <= M s /\ 0 < nt <= N s /\
    (0 < vtcm_tile_size b -> ws_no_wrap s ->
     matmul_ws mt nt (K s) (weight_bits s) <= vtcm_tile_size b \/
     (mt <= eff_align b /\ nt <= eff_align b)).
Proof.
  intros (HM & HN & HK & Hal & Hb). unfold shrink_tile.
  assert (0 < eff_align b) by (unfold eff_align; case_bool; lia).
  case_bool; [|exists (M s), (N s); split_and!; [done|lia..]].
  edestruct (shrink_spec (Z.to_nat (N s)) (eff_align b) (vtcm_tile_size b)
    (fun nt => matmul_ws (M s) nt (K s) (weight_bits s)) (N s)) as (nt & -> & Hnt & Hn); [lia..|].
  simpl.
  edestruct (shrink_spec (Z.to_nat (M s)) (eff_align b) (vtcm_tile_size b)
    (fun mt => matmul_ws mt nt (K s) (weight_bits s)) (M s)) as (mt & -> & Hmt & Hm); [lia..|].
  simpl. exists mt, nt. split_and!; [done|lia..|]. intros _ Hw.
  destruct Hm as [Hm|Hm]; [by left|]. destruct Hn as [Hn|Hn]; [left|by right].
  etransitivity; [apply (matmul_ws_mono mt nt (M s) nt)|exact Hn]; [done|lia..].
Qed.

Lemma matmul_tile_shape_eq s b :
  matmul_ok s b ->
  exists mt nt ms ns, shrink_tile s b (eff_align b) = Some (mt, nt) /\
    0 < mt <= M s /\ 0 < nt <= N s /\
    for_u32 (M s) mt = Some ms /\ for_u32 (N s) nt = Some ns /\
    let ts := concat (map (fun m0 => map (matmul_tile s mt nt m0) ns) ms) in
    matmul_tile_shape s b =
      Some (mkTilingPlan "matmul" (is_tiled ts) ts (max_ws ts) (fits b (max_ws ts))).
Proof.
  intros Hok. destruct (shrink_tile_spec _ _ Hok) as (mt & nt & Hs & Hm & Hn & _).
  destruct Hok as (HM & HN & HK & _).
  destruct (for_u32_total (M s) mt) as [ms Hms]; [lia..|].
  destruct (for_u32_total (N s) nt) as [ns Hns]; [lia..|].
  exists mt, nt, ms, ns. do 5 (split; [done|]). cbv zeta.
  unfold matmul_tile_shape. rewrite !(proj2 (Z.eqb_neq _ _)) by lia. cbv zeta. simpl.
  unfold eff_align in Hs. rewrite Hs. simpl. rewrite Hms. simpl.
  erewrite mapM_pure; [done|]. intros m0 _. simpl. by rewrite Hns.
Qed.

(** C28: the matmul rule returns a plan, and the plan's tiles partition the
    [M x N] output: every element is in exactly one tile. *)
Theorem matmul_plan_partition s b m n :
  matmul_ok s b -> 0 <= m < M s -> 0 <= n < N s ->
  exists p, matmul_tile_shape s b = Some p /\ countb (mn_covers m n) (tiles p) = 1%nat.
Proof.
  intros Hok Hm Hn.
  destruct (matmul_tile_shape_eq _ _ Hok) as (mt & nt & ms & ns & _ & ? & ? & Hms & Hns & ->).
  destruct Hok as (? & ? & _). eexists. split; [done|]. simpl.
  erewrite (countb_concat _ (fun s0 => in_range s0 (Z.min mt (M s - s0)) m) _ 1).
  { rewrite (for_u32_partition _ _ ms) by (done || lia). done. }
  intros r Hr. rewrite countb_map.
  apply (for_u32_bounds (M s) mt ms) in Hr; [|lia..|done].
  rewrite (countb_ext _ (fun c => in_range r (Z.min mt (M s - r)) m
                               && in_range c (Z.min nt (N s - c)) n)).
  - destruct (in_range r _ m) eqn:E; [|by rewrite countb_false].
    by apply for_u32_partition; [lia..|done|done].
  - intros c Hc. apply (for_u32_bounds (N s) nt ns) in Hc; [|lia..|done].
    unfold mn_covers. simpl. unwrap. f_equal; f_equal; lia.
Qed.

(** C39: the budget of a matmul plan. [max_working_set] bounds every tile; a plan
    that says it fits has every tile within the budget; and a plan that says it
    does not fit has already been cut down to tiles of at most [align] rows and
    [align] columns (32 when the budget names no alignment). *)
Theorem matmul_plan_budget s b p t :
  matmul_ok s b -> ws_no_wrap s -> 0 < vtcm_tile_size b ->
  matmul_tile_shape s b = Some p -> t ∈ tiles p ->
  working_set t <= max_working_set p /\
  (fits_budget p = true -> working_set t <= vtcm_tile_size b) /\
  (fits_budget p = false -> m1 t - m0 t <= eff_align b /\ n1 t - n0 t <= eff_align b).
Proof.
  intros Hok Hw Hb Hp Ht.
  destruct (shrink_tile_spec _ _ Hok) as (mt & nt & Hs & _ & _ & Hfit).
  destruct (matmul_tile_shape_eq _ _ Hok) as (mt' & nt' & ms & ns & Hs' & ? & ? & Hms & Hns & Heq).
  rewrite Hs in Hs'. rewrite Heq in Hp. simplify_eq. simpl in *.
  assert (Hmax : working_set t <= max_ws (concat (map (fun m0 => map (matmul_tile s mt' nt' m0) ns) ms)))
    by (by apply max_by_le).
  split; [done|]. unfold fits. rewrite (proj2 (Z.eqb_neq _ _)) by lia. simpl. split.
  - intros ?. bool_prop. lia.
  - intros ?. bool_prop. specialize (Hfit Hb Hw).
    assert (Hdim : forall t, t ∈ concat (map (fun m0 => map (matmul_tile s mt' nt' m0) ns) ms) ->
      0 <= m1 t - m0 t <= mt' /\ 0 <= n1 t - n0 t <= nt' /\
      working_set t = matmul_ws (m1 t - m0 t) (n1 t - n0 t) (K s) (weight_bits s)).
    { destruct Hok as (? & ? & _). intros u Hu.
      apply elem_of_concat in Hu as (? & (r & -> & Hr)%elem_of_map & Hu).
      apply elem_of_map in Hu as (c & -> & Hc). simpl.
      apply (for_u32_bounds (M s) mt' ms) in Hr; [|lia..|done].
      apply (for_u32_bounds (N s) nt' ns) in Hc; [|lia..|done]. unwrap. split_and!; [lia..|done]. }
    destruct Hfit as [Hfit|Hfit]; [|destruct (Hdim t Ht); lia].
    destruct (max_by_attained working_set
      (concat (map (fun m0 => map (matmul_tile s mt' nt' m0) ns) ms))) as [Hz|(u & Hu & Hz)];
      unfold max_ws in *; [lia|].
    destruct (Hdim u Hu) as (? & ? & Hws). destruct Hok as (? & ? & ? & _).
    assert (working_set u <= vtcm_tile_size b); [|lia]. rewrite Hws.
    etransitivity; [apply (matmul_ws_mono _ _ mt' nt')|exact Hfit]; (done || lia).
Qed.

Definition conv_ok (s : OpShape) (b : TileBudget) : Prop :=
  geom_ok (geom_of_shape s) /\ 0 <= vtcm_tile_size b.

Lemma conv_tile_size_range s b :
  conv_ok s b ->
  0 <= (conv_tile_size s b).1 < 2 ^ 31 /\ 0 <= (conv_tile_size s b).2 < 2 ^ 31.
Proof.
  intros [(Hh & Hw & _) Hb]. simpl in *. unfold conv_tile_size.
  repeat (case_bool; simpl; [|lia]). split; [|lia].
  pose proof (u32_range (Z.max 1 (vtcm_tile_size b / 8 /
    u64 (u64 (u64 (s_kh s * s_kw s) * s_cin s) * 2) / s_out_w s))). lia.
Qed.

(** The convolution rule returns a plan whose tiles partition the output
    (rows, columns and channels), whose [max_working_set] bounds every tile and
    whose [fits_budget] is exactly that bound against a non-zero budget. *)
Theorem conv_plan_partition s b y x c :
  conv_ok s b -> 0 <= y < s_out_h s -> 0 <= x < s_out_w s -> 0 <= c < s_cout s ->
  exists p, conv_tile_shape s b = Some p /\ countb (out_covers y x c) (tiles p) = 1%nat /\
    (forall t, t ∈ tiles p -> working_set t <= max_working_set p) /\
    (fits_budget p = true <-> vtcm_tile_size b = 0 \/ max_working_set p <= vtcm_tile_size b).
Proof.
  intros Hok Hy Hx Hc. destruct (conv_tile_size_range _ _ Hok) as [Hth Htw].
  destruct Hok as [Hg Hb].
  destruct (conv_tiles_count (geom_of_shape s) (conv_tile_size s b).1 (conv_tile_size s b).2
    0 y x c) as (ct & Hct & Hcount); [done..|lia|done|done|done|].
  pose proof Hg as (? & ? & ? & _). simpl in *.
  unfold conv_tile_shape. rewrite !(proj2 (Z.eqb_neq _ _)) by lia. simpl.
  destruct (conv_tile_size s b) as [th tw]. simpl in *. rewrite Hct. simpl.
  eexists. split; [done|]. simpl. split; [|split].
  - rewrite countb_map, <- Hcount. apply countb_ext. intros t Ht.
    destruct (conv_tiles_elem (geom_of_shape s) th tw 0 ct t Hg Hth Htw ltac:(lia) Hct Ht)
      as (th' & tw' & co_s & co0 & y0 & x0 & ? & ? & ? & ? & ? & ? & ->).
    unfold out_covers, covers. simpl in *.
    assert (in_range_u32 : forall lo n v, 0 <= lo < 2 ^ 31 -> 0 <= n < 2 ^ 31 ->
      in_range lo (u32 (lo + n) - lo) v = in_range lo n v).
    { intros lo n v Hlo Hn. unwrap. f_equal. lia. }
    rewrite !in_range_u32; [done|lia..].
  - intros t Ht. by apply max_by_le.
  - unfold fits. rewrite orb_true_iff, Z.eqb_eq, Z.leb_le. done.
Qed.

(** Well-formed registry: the name list has no duplicate and lists exactly the
    keys of the rule map. *)
Definition registry_wf (r : TilingRuleRegistry) : Prop :=
  NoDup (registered r) /\ forall op, op ∈ registered r <-> has op r = true.

Lemma registry_wf_empty : registry_wf empty_registry.
Proof. split; [constructor|]. intros op. unfold has. simpl. set_solver. Qed.

Lemma has_spec op r : has op r = true <-> is_Some (rules_ r !! op).
Proof. unfold has. destruct (rules_ r !! op); split; naive_solver. Qed.

(** Registering a rule keeps the registry well formed; the registered op is
    planned by the new rule, every other op as before, an op that was never
    registered falls back to the identity plan, and re-registering an op keeps
    the diagnostic order. *)
Theorem register_rule_spec op fn r :
  registry_wf r ->
  registry_wf (register_rule op fn r) /\
  (forall s b, plan (register_rule op fn r) op s b = fn s b) /\
  (forall op' s b, op' <> op -> plan (register_rule op fn r) op' s b = plan r op' s b) /\
  (forall op' s b, has op' r = false -> plan r op' s b = Some (identity_tile_plan s)) /\
  (has op r = true -> registered (register_rule op fn r) = registered r).
Proof.
  intros [Hnd Hel]. split_and!.
  - split.
    + unfold register_rule, registered in *. simpl.
      destruct (rules_ r !! op) eqn:E; [done|]. apply NoDup_app. split_and!; [done| |].
      * intros x Hx ->%list_elem_of_singleton. apply Hel, has_spec in Hx. by rewrite E in Hx.
      * apply NoDup_singleton.
    + intros op'. rewrite has_spec. unfold register_rule, registered in *. simpl.
      rewrite lookup_insert. destruct (rules_ r !! op) eqn:E; case_decide; subst;
        rewrite ?elem_of_app, ?list_elem_of_singleton, Hel, has_spec;
        clear Hel; rewrite ?E; intuition (simplify_eq; eauto).
  - intros s b. unfold plan, register_rule. simpl. by rewrite lookup_insert_eq.
  - intros op' s b Hne. unfold plan, register_rule. simpl. by rewrite lookup_insert_ne.
  - intros op' s b Hno. unfold plan, has in *. by destruct (rules_ r !! op').
  - intros [fn' Hs]%has_spec. unfold register_rule, registered. simpl. by rewrite Hs.
Qed.

(** A 100x96x64 f16 matrix product under a 16 KiB budget. *)
Definition shape_100 : OpShape := mkOpShape 100 96 64 16 0 0 0 0 0 0 1 1 1 1 0 0.
Definition budget_16k : TileBudget := mkTileBudget 16384 32.

Lemma shape_100_ok : matmul_ok shape_100 budget_16k.
Proof. unfold matmul_ok; simpl; lia. Defined.

(** The rule stops at 36 x 32 tiles: 100 is cut in steps of 32 down to 36, a tile
    height that is not a multiple of the alignment. *)
Example shape_100_tiles :
  shrink_tile shape_100 budget_16k (eff_align budget_16k) = Some (36, 32).
Proof. reflexivity. Qed.

Lemma matmul_plan_partition_witness :
  exists p, matmul_tile_shape shape_100 budget_16k = Some p /\
    countb (mn_covers 99 95) (tiles p) = 1%nat.
Proof. apply (matmul_plan_partition _ _ 99 95 shape_100_ok); simpl; lia. Defined.

Lemma matmul_plan_budget_witness :
  let t := matmul_tile shape_100 36 32 0 0 in
  working_set t <= vtcm_tile_size budget_16k.
Proof.
  pose (p := default (identity_tile_plan shape_100) (matmul_tile_shape shape_100 budget_16k)).
  refine (proj1 (proj2 (matmul_plan_budget shape_100 budget_16k p
    (matmul_tile shape_100 36 32 0 0) shape_100_ok _ _ eq_refl _)) eq_refl).
  - unfold ws_no_wrap; simpl; lia.
  - simpl; lia.
  - apply (list_elem_of_lookup_2 (tiles p) 0). reflexivity.
Defined.

Definition shape_conv : OpShape := mkOpShape 0 0 0 16 28 28 16 28 28 32 3 3 1 1 1 1.
Definition budget_64k : TileBudget := mkTileBudget 65536 32.

Lemma conv_plan_partition_witness :
  exists p, conv_tile_shape shape_conv budget_64k = Some p /\
    countb (out_covers 27 3 31) (tiles p) = 1%nat.
Proof.
  destruct (conv_plan_partition shape_conv budget_64k 27 3 31) as (p & H1 & H2 & _).
  - unfold conv_ok, geom_ok; simpl; lia.
  - simpl; lia.
  - simpl; lia.
  - simpl; lia.
  - exact (ex_intro _ p (conj H1 H2)).
Defined.

Lemma register_rule_spec_witness :
  registry_wf (register_rule "matmul" matmul_tile_shape empty_registry).
Proof.
  exact (proj1 (register_rule_spec "matmul" matmul_tile_shape empty_registry registry_wf_empty)).
Defined.

End TilingRule.

(** * tiler.cpp *)
Module Tiler.

Record TileShape := mkTileShape { t_dims : list Z; t_rank : Z }.

Record TileInfo := mkTileInfo {
  shape : TileShape; nsp_id : Z; vtcm_offset : Z; ddr_offset : Z;
  is_contiguous : bool; needs_dma : bool
}.

Record TilingConfig := mkTilingConfig {
  conv_batch_tiling : Z; conv_width_tiling : Z;
  conv_height_tiling : Z; conv_channel_tiling : Z
}.

Definition dimn (t : TileInfo) (i : nat) : Z := nth i (t_dims (shape t)) 0.

(** [(out + n - 1) / n] in [uint32_t]. *)
Definition cdiv_u32 (out n : Z) : Z := u32 (u32 (out + n) - 1) / n.

(** The size of block [i] of [n]: the last block takes what is left. *)
Definition block_dim (out n tile i : Z) : Z :=
  if i =? n - 1 then u32 (out - u32 (i * tile)) else tile.

(** [op]'s cached output definition; [None] when the op is not a [TypicalOp]. *)
Definition conv_dims (od : option OutputDef) : Z * Z * Z * Z :=
  match od with
  | Some od =>
      if 4 <=? rank od then (u32 (dim od 0), u32 (dim od 1), u32 (dim od 2), u32 (dim od 3))
      else (1, 224, 224, 32)
  | None => (1, 224, 224, 32)
  end.

Module ConvTiler.
Definition generate_tiles (od : option OutputDef) (config : TilingConfig) : list TileInfo :=
  let '(out_n, out_h, out_w, out_c) := conv_dims od in
  let ht := if 0 <? conv_height_tiling config then conv_height_tiling config else 1 in
  let wt := if 0 <? conv_width_tiling config then conv_width_tiling config else 1 in
  let tile_h := cdiv_u32 out_h ht in
  let tile_w := cdiv_u32 out_w wt in
  concat (map (fun bh => map (fun bw =>
    mkTileInfo (mkTileShape [out_n; block_dim out_h ht tile_h bh;
                             block_dim out_w wt tile_w bw; out_c; 0] 4)
      0 0 0 true (1 <? u32 (ht * wt))) (seqZ 0 wt)) (seqZ 0 ht)).

Definition estimate_cost (tiles : list TileInfo) : Z :=
  foldl (fun total t =>
    let mac := u64 (u64 (u64 (dimn t 1 * dimn t 2) * dimn t 3) * 9) in
    u64 (total + u64 (mac + (if needs_dma t then 128 else 0)))) 0 tiles.
End ConvTiler.

Module MatMulTiler.
Definition generate_tiles (od : option OutputDef) (config : TilingConfig) : list TileInfo :=
  let '(m, n) :=
    match od with
    | Some od => if 2 <=? rank od then (u32 (dim od 0), u32 (dim od 1)) else (1, 1)
    | None => (1, 1)
    end in
  let mt := if 0 <? conv_height_tiling config then conv_height_tiling config else 2 in
  let nt := if 0 <? conv_width_tiling config then conv_width_tiling config else 2 in
  let tile_m := cdiv_u32 m mt in
  let tile_n := cdiv_u32 n nt in
  concat (map (fun bi => map (fun bj =>
    mkTileInfo (mkTileShape [block_dim m mt tile_m bi; block_dim n nt tile_n bj; 0; 0; 0] 2)
      0 0 0 true (1 <? u32 (mt * nt))) (seqZ 0 nt)) (seqZ 0 mt)).

Definition estimate_cost (tiles : list TileInfo) : Z :=
  foldl (fun total t => u64 (total + u64 (u64 (dimn t 0 * dimn t 1) * 64))) 0 tiles.
End MatMulTiler.

(** [Supertiler::merge_tiles]: fold every later tile of the same NSP and
    contiguity into the first one. *)
Definition mergeable (cur t : TileInfo) : bool :=
  (nsp_id t =? nsp_id cur) && Bool.eqb (is_contiguous t) (is_contiguous cur).

Definition absorb (cur t : TileInfo) : TileInfo :=
  mkTileInfo (shape cur) (nsp_id cur) (vtcm_offset cur)
    (Z.min (ddr_offset cur) (ddr_offset t)) (is_contiguous cur) (needs_dma cur).

(** The inner loop: the merged tile and the tiles still unused, in order. *)
Fixpoint merge_into (cur : TileInfo) (ts : list TileInfo) : TileInfo * list TileInfo :=
  match ts with
  | [] => (cur, [])
  | t :: ts =>
      if mergeable cur t then merge_into (absorb cur t) ts
      else let '(cur', rest) := merge_into cur ts in (cur', t :: rest)
  end.

(** The outer loop; each step uses up at least one tile, so [length tiles] is
    enough fuel. *)
Fixpoint merge_loop (fuel : nat) (ts : list TileInfo) : list TileInfo :=
  match fuel, ts with
  | S fuel, t :: ts =>
      let '(cur, rest) := merge_into t ts in cur :: merge_loop fuel rest
  | _, _ => []
  end.

Definition merge_tiles (ts : list TileInfo) : list TileInfo :=
  if (length ts <=? 1)%nat then ts else merge_loop (length ts) ts.

(** [TileDistributor::distribute]: tile [i] goes to NSP [i % num_nsps].
    [None]: the division by zero of a non-empty tile list over no NSP. *)
Definition distribute (ts : list TileInfo) (num_nsps : Z) : option (list (list TileInfo)) :=
  if num_nsps =? 0 then (if decide (ts = []) then Some [] else None)
  else
    Some (foldl (fun dist '(i, t) =>
      alter (fun l => l ++ [t]) (Z.to_nat (u32 (Z.of_nat i mod num_nsps))) dist)
      (replicate (Z.to_nat num_nsps) []) (zip (seq 0 (length ts)) ts)).

(** [TileConformer::conform]. *)
Definition conform_unit (dt : DType) : option Z :=
  match dt with
  | Float16 | Int16 => Some 64
  | Int8 | UInt8 => Some 128
  | Int32 | Float32 => Some 32
  | _ => None
  end.

(** [(d + (a - 1)) & ~(a - 1)] in [uint32_t]. *)
Definition conform_dim (a d : Z) : Z := Z.land (u32 (d + (a - 1))) (u32 (Z.lnot (a - 1))).

Definition conform (sh : TileShape) (dt : DType) : TileShape :=
  match conform_unit dt with
  | Some a => mkTileShape (map (conform_dim a) (t_dims sh)) (t_rank sh)
  | None => sh
  end.

Definition prod_u64 (l : list Z) : Z := foldl (fun a d => u64 (a * d)) 1 l.

(** [compute_conv_tile_cost]; the shapes have five dimensions. *)
Definition compute_conv_tile_cost (input_shape output_shape weight_shape : TileShape) : Z :=
  let w := t_dims weight_shape in
  let mac_ops := u64 (prod_u64 (t_dims output_shape)
                   * u32 (u32 (nth 0 w 0 * nth 1 w 0) * nth 2 w 0)) in
  let input_bytes := prod_u64 (t_dims input_shape) in
  let weight_bytes := prod_u64 (t_dims weight_shape) in
  u64 (mac_ops + u64 (input_bytes + weight_bytes) / 1024).

(** ** Block sizes *)

Lemma block_dim_sum out n tile :
  0 < n -> sum_by (block_dim out n tile) (seqZ 0 n) = (n - 1) * tile + u32 (out - u32 ((n - 1) * tile)).
Proof.
  intros Hn. replace (seqZ 0 n) with (seqZ 0 (n - 1 + 1)) by (f_equal; lia).
  rewrite seqZ_app, sum_by_app by lia.
  rewrite (sum_by_ext (block_dim out n tile) (fun _ => tile) (seqZ 0 (n - 1))).
  - rewrite sum_by_const, length_seqZ, Z2Nat.id by lia. simpl. unfold block_dim.
    replace (Z.of_nat 0 + (0 + (n - 1))) with (n - 1) by lia. rewrite Z.eqb_refl. lia.
  - intros i Hi%elem_of_seqZ. unfold block_dim. by rewrite (proj2 (Z.eqb_neq _ _)) by lia.
Qed.

Lemma cdiv_u32_exact out n :
  0 < n -> 0 <= out -> out + n <= 2 ^ 32 -> 0 < out -> cdiv_u32 out n * n = round_up out n.
Proof.
  intros. unfold cdiv_u32, round_up.
  destruct (decide (out + n = 2 ^ 32)) as [E|]; [|unwrap; do 2 f_equal; lia].
  rewrite E. change (u32 (u32 (2 ^ 32) - 1)) with (2 ^ 32 - 1). done.
Qed.

(** The blocks of one axis cover it exactly when the full blocks do not already
    exceed it. *)
Definition axis_exact (out n : Z) : Prop :=
  0 < n < 2 ^ 31 /\ 0 < out < 2 ^ 31 /\ (n - 1) * cdiv_u32 out n <= out.

Lemma block_dim_sum_exact out n :
  axis_exact out n -> sum_by (block_dim out n (cdiv_u32 out n)) (seqZ 0 n) = out.
Proof.
  intros (Hn & Ho & He). rewrite block_dim_sum by lia.
  assert (0 <= cdiv_u32 out n) by (unfold cdiv_u32; apply Z.div_pos; [apply u32_range|lia]).
  assert (0 <= (n - 1) * cdiv_u32 out n) by nia. unwrap. lia.
Qed.

Lemma block_dim_nonneg out n i : 0 < n -> 0 <= block_dim out n (cdiv_u32 out n) i.
Proof.
  intros. unfold block_dim, cdiv_u32. case_bool; [apply u32_range|].
  apply Z.div_pos; [apply u32_range|lia].
Qed.

(** The tiles of [ConvTiler::generate_tiles] cover the whole output plane: their
    areas add up to [out_h * out_w], as long as on each axis the full blocks in
    front of the last one do not already exceed the axis. *)
Theorem conv_tiler_area od config :
  let ht := if 0 <? conv_height_tiling config then conv_height_tiling config else 1 in
  let wt := if 0 <? conv_width_tiling config then conv_width_tiling config else 1 in
  let '(_, out_h, out_w, _) := conv_dims od in
  axis_exact out_h ht -> axis_exact out_w wt ->
  sum_by (fun t => dimn t 1 * dimn t 2) (ConvTiler.generate_tiles od config) = out_h * out_w.
Proof.
  cbv zeta. unfold ConvTiler.generate_tiles.
  destruct (conv_dims od) as [[[out_n out_h] out_w] out_c]. intros Hh Hw.
  rewrite (sum_by_product _ (block_dim out_h _ (cdiv_u32 out_h _))
    (block_dim out_w _ (cdiv_u32 out_w _))) by done.
  by rewrite !block_dim_sum_exact.
Qed.

(** Without that condition the last block wraps: five output rows in four
    blocks give block heights 2, 2, 2 and 2^32 - 1. *)
Theorem conv_tiler_last_block_wraps :
  exists od config, conv_dims (Some od) = (1, 5, 8, 16) /\
    map (fun t => dimn t 1) (ConvTiler.generate_tiles (Some od) config) = [2; 2; 2; 2 ^ 32 - 1].
Proof.
  exists (mkOutputDef 4 0 [1; 5; 8; 16; 0] 2), (mkTilingConfig 1 1 4 1). done.
Qed.

(** [MatMulTiler]'s cost estimate of its own tiles is 64 multiply-accumulates
    per output element, as long as the blocks cover both axes and the total fits
    64 bits. *)
Theorem matmul_tiler_cost od config m n :
  let mt := if 0 <? conv_height_tiling config then conv_height_tiling config else 2 in
  let nt := if 0 <? conv_width_tiling config then conv_width_tiling config else 2 in
  2 <= rank od -> m = u32 (dim od 0) -> n = u32 (dim od 1) ->
  axis_exact m mt -> axis_exact n nt -> 64 * m * n < 2 ^ 64 ->
  MatMulTiler.estimate_cost (MatMulTiler.generate_tiles (Some od) config) = 64 * m * n.
Proof.
  cbv zeta. intros Hr -> -> Hm Hn Hb. unfold MatMulTiler.generate_tiles.
  rewrite (proj2 (Z.leb_le _ _)) by done.
  set (m := u32 (dim od 0)) in *. set (n := u32 (dim od 1)) in *.
  set (mt := if 0 <? conv_height_tiling config then _ else _) in *.
  set (nt := if 0 <? conv_width_tiling config then _ else _) in *.
  set (ts := concat _).
  assert (Hsum : sum_by (fun t => dimn t 0 * dimn t 1) ts = m * n).
  { subst ts. rewrite (sum_by_product _ (block_dim m mt (cdiv_u32 m mt))
      (block_dim n nt (cdiv_u32 n nt))) by done.
    by rewrite !block_dim_sum_exact. }
  assert (Hnn : forall t, t ∈ ts -> 0 <= dimn t 0 * dimn t 1).
  { subst ts. intros t (? & (i & -> & _)%elem_of_map & Ht)%elem_of_concat.
    apply elem_of_map in Ht as (j & -> & _).
    apply Z.mul_nonneg_nonneg; apply block_dim_nonneg; [apply Hm|apply Hn]. }
  unfold MatMulTiler.estimate_cost.
  assert (Hle : forall t, t ∈ ts -> dimn t 0 * dimn t 1 <= m * n).
  { intros t Ht. rewrite <- Hsum. by apply (sum_by_elem_le (fun t => dimn t 0 * dimn t 1)). }
  assert (Hs : sum_by (fun t => u64 (u64 (dimn t 0 * dimn t 1) * 64)) ts = 64 * m * n).
  { rewrite (sum_by_ext _ (fun t => 64 * (dimn t 0 * dimn t 1))), sum_by_scale, Hsum; [lia|].
    intros t Ht. specialize (Hnn t Ht). specialize (Hle t Ht). unwrap. lia. }
  rewrite (foldl_u64_sum (fun t => u64 (u64 (dimn t 0 * dimn t 1) * 64))); rewrite ?Hs; try lia.
  intros t Ht. apply u64_range.
Qed.

(** ** Merging, distributing and conforming tiles *)

Definition key (t : TileInfo) : Z * bool := (nsp_id t, is_contiguous t).

Lemma mergeable_key cur t : mergeable cur t = true <-> key t = key cur.
Proof.
  unfold mergeable, key. rewrite andb_true_iff, Z.eqb_eq, eqb_true_iff.
  split; [intros [-> ->]; done|by intros [= -> ->]].
Qed.

Lemma merge_into_spec cur ts cur' rest :
  merge_into cur ts = (cur', rest) ->
  key cur' = key cur /\ ddr_offset cur' <= ddr_offset cur /\
  (forall t, t ∈ rest <-> t ∈ ts /\ key t <> key cur) /\
  (forall t, t ∈ ts -> key t = key cur -> ddr_offset cur' <= ddr_offset t) /\
  (length rest <= length ts)%nat.
Proof.
  revert cur cur' rest. induction ts as [|t ts IH]; intros cur cur' rest H; simpl in H.
  - simplify_eq. split_and!; set_solver by lia.
  - destruct (mergeable cur t) eqn:E.
    + apply mergeable_key in E. apply IH in H as (Hk & Hd & Hr & Hm & Hl).
      assert (Hka : key (absorb cur t) = key cur) by done. rewrite Hka in *. simpl in *.
      split_and!; [done|lia| | |lia].
      * intros u. rewrite Hr, elem_of_cons.
        split; [intros [? ?]; auto|intros [[->|?] ?]; [congruence|auto]].
      * intros u [->|Hu]%elem_of_cons Hku; [lia|]. by apply Hm.
    + assert (key t <> key cur) by (rewrite <- mergeable_key; congruence).
      destruct (merge_into cur ts) as [c r] eqn:E2. simplify_eq.
      apply IH in E2 as (Hk & Hd & Hr & Hm & Hl). split_and!; [done|lia| | |simpl; lia].
      * intros u. rewrite !elem_of_cons, Hr.
        split; [intros [->|[? ?]]; auto|intros [[->|?] ?]; auto].
      * intros u [->|Hu]%elem_of_cons Hku; [done|]. by apply Hm.
Qed.

Lemma merge_loop_spec fuel ts :
  (length ts <= fuel)%nat ->
  NoDup (map key (merge_loop fuel ts)) /\
  (forall t, t ∈ ts -> exists u, u ∈ merge_loop fuel ts /\ key u = key t /\ ddr_offset u <= ddr_offset t) /\
  (forall u, u ∈ merge_loop fuel ts -> exists t, t ∈ ts /\ key u = key t).
Proof.
  revert ts. induction fuel as [|fuel IH]; intros ts Hf.
  { destruct ts; simpl in *; [|lia]. split_and!; [constructor|set_solver..]. }
  destruct ts as [|t ts]; simpl in *; [split_and!; [constructor|set_solver..]|].
  destruct (merge_into t ts) as [cur rest] eqn:E.
  apply merge_into_spec in E as (Hk & Hd & Hr & Hm & Hl).
  destruct (IH rest) as (Hnd & Hex & Hsrc); [lia|]. simpl. split_and!.
  - constructor; [|done]. intros (u & Hu & Hin)%elem_of_map.
    apply Hsrc in Hin as (v & Hv & Hkv). apply Hr in Hv as [_ Hv]. congruence.
  - intros u Hu. destruct (decide (key u = key t)) as [Ek|Ek].
    + exists cur. rewrite elem_of_cons. split_and!; [by left|congruence|].
      apply elem_of_cons in Hu as [->|Hu]; [done|by apply Hm].
    + assert (u ∈ rest) as Hin by (apply Hr; set_solver).
      destruct (Hex _ Hin) as (w & Hw & ? & ?). exists w. rewrite elem_of_cons. auto.
  - intros u [->|Hu]%elem_of_cons; [exists t; rewrite elem_of_cons; auto|].
    destruct (Hsrc _ Hu) as (v & Hv & ?). exists v. rewrite elem_of_cons.
    apply Hr in Hv as [? _]. auto.
Qed.

(** Merging leaves one tile per (NSP, contiguity) class: no two results share a
    class, every input tile is represented by a result of its class whose DDR
    offset is no larger, and no result invents a class. *)
Theorem merge_tiles_spec ts :
  NoDup (map key (merge_tiles ts)) /\
  (forall t, t ∈ ts -> exists u, u ∈ merge_tiles ts /\ key u = key t /\ ddr_offset u <= ddr_offset t) /\
  (forall u, u ∈ merge_tiles ts -> exists t, t ∈ ts /\ key u = key t).
Proof.
  unfold merge_tiles. destruct (_ <=? _)%nat eqn:E; [|by apply merge_loop_spec].
  apply Nat.leb_le in E. destruct ts as [|t [|t' ts]]; simpl in *; [..|lia].
  - split_and!; [constructor|set_solver..].
  - split_and!; [apply NoDup_singleton|..]; intros u ->%list_elem_of_singleton;
      exists t; rewrite list_elem_of_singleton; auto with lia.
Qed.

Lemma concat_alter_perm {A} k (x : A) (ls : list (list A)) :
  (k < length ls)%nat -> concat (alter (fun l => l ++ [x]) k ls) ≡ₚ x :: concat ls.
Proof.
  revert k. induction ls as [|l ls IH]; intros [|k] Hk; simpl in *; [lia..| |].
  - rewrite <- app_assoc. simpl. by rewrite <- Permutation_middle.
  - etransitivity; [apply Permutation_app_head, (IH k); lia|].
    by rewrite <- Permutation_middle.
Qed.

Lemma distribute_snoc ts t n :
  0 < n < 2 ^ 32 ->
  distribute (ts ++ [t]) n =
    (alter (fun l => l ++ [t]) (Z.to_nat (Z.of_nat (length ts) mod n))) <$> distribute ts n.
Proof.
  intros Hn. unfold distribute. rewrite !(proj2 (Z.eqb_neq _ _)) by lia. simpl. f_equal.
  rewrite length_app. simpl. rewrite seq_app, zip_with_app by (by rewrite length_seq).
  rewrite foldl_app. simpl.
  pose proof (Z.mod_pos_bound (Z.of_nat (length ts)) n ltac:(lia)). by unwrap.
Qed.

Lemma div_succ_step n i k :
  0 < n -> 0 <= i -> 0 <= k < n ->
  (i + 1 + (n - 1 - k)) / n = (i + (n - 1 - k)) / n + (if i mod n =? k then 1 else 0).
Proof.
  intros Hn Hi Hk. pose proof (Z.div_mod i n ltac:(lia)). pose proof (Z.mod_pos_bound i n Hn).
  set (q := i / n) in *. set (r := i mod n) in *. clearbody q r. subst i.
  case_bool; destruct (decide (r <= k)).
  all: try (exfalso; lia).
  - rewrite <- (Z.div_unique_pos (n * q + r + 1 + (n - 1 - k)) n (q + 1) 0) by lia.
    rewrite <- (Z.div_unique_pos (n * q + r + (n - 1 - k)) n q (n - 1)) by lia. lia.
  - rewrite <- (Z.div_unique_pos (n * q + r + 1 + (n - 1 - k)) n q (r + n - k)) by lia.
    rewrite <- (Z.div_unique_pos (n * q + r + (n - 1 - k)) n q (r + n - 1 - k)) by lia. lia.
  - rewrite <- (Z.div_unique_pos (n * q + r + 1 + (n - 1 - k)) n (q + 1) (r - k)) by lia.
    rewrite <- (Z.div_unique_pos (n * q + r + (n - 1 - k)) n (q + 1) (r - 1 - k)) by lia. lia.
Qed.

(** Distributing over [n > 0] NSPs loses and duplicates no tile, and NSP [k] gets
    [(length + n - 1 - k) / n] of them, so the shares differ by at most one. *)
Theorem distribute_balanced ts n :
  0 < n < 2 ^ 32 ->
  exists d, distribute ts n = Some d /\ length d = Z.to_nat n /\ concat d ≡ₚ ts /\
    forall k l, d !! Z.to_nat k = Some l -> 0 <= k < n ->
      Z.of_nat (length l) = (Z.of_nat (length ts) + (n - 1 - k)) / n.
Proof.
  intros Hn. induction ts as [|t ts IH] using rev_ind.
  - unfold distribute. rewrite (proj2 (Z.eqb_neq _ _)) by lia. eexists. split; [done|]. simpl.
    split_and!; [by rewrite length_replicate| |].
    + by induction (Z.to_nat n) as [|m IHm].
    + intros k l [-> _]%lookup_replicate Hk. simpl. rewrite Z.div_small; lia.
  - destruct IH as (d & Hd & Hlen & Hperm & Hshare).
    rewrite distribute_snoc, Hd by done. simpl. eexists. split; [done|].
    pose proof (Z.mod_pos_bound (Z.of_nat (length ts)) n ltac:(lia)).
    split_and!.
    + by rewrite length_alter.
    + rewrite concat_alter_perm by lia. rewrite Hperm. apply Permutation_cons_append.
    + intros k l Hl Hk. rewrite length_app. simpl.
      replace (Z.of_nat (length ts + 1)) with (Z.of_nat (length ts) + 1) by lia.
      rewrite div_succ_step by lia. rewrite list_lookup_alter in Hl.
      destruct (decide _) as [E|E].
      * rewrite E in Hl. destruct (d !! Z.to_nat k) as [l'|] eqn:El; simpl in Hl; [|done]. simplify_eq.
        rewrite length_app. simpl. apply Hshare in El; [|done].
        rewrite (proj2 (Z.eqb_eq _ _)) by lia. lia.
      * apply Hshare in Hl; [|done]. rewrite (proj2 (Z.eqb_neq _ _)) by lia. lia.
Qed.

(** Conforming rounds every dimension up to the next multiple of the unit of its
    element type (128 bytes' worth of elements), and nothing else. *)
Theorem conform_rounds_up sh dt a d :
  conform_unit dt = Some a -> d ∈ t_dims sh -> 0 <= d -> d + a <= 2 ^ 32 ->
  exists d', d' ∈ t_dims (conform sh dt) /\ (a | d') /\ d <= d' < d + a.
Proof.
  intros Ha Hd Hd0 Hb. exists (round_up d a).
  assert (Hk : exists k, 0 <= k < 32 /\ a = 2 ^ k).
  { destruct dt; simplify_eq/=; [exists 5|exists 6|exists 7|exists 6|exists 5|exists 7]; done. }
  destruct Hk as (k & Hk & ->). assert (0 < 2 ^ k) by (apply Z.pow_pos_nonneg; lia).
  split; [|by apply round_up_spec]. unfold conform. rewrite Ha. simpl. apply elem_of_map.
  exists d. split; [|done]. unfold conform_dim. by rewrite round_up_mask_u32.
Qed.

Definition od_1_6_8_16 : OutputDef := mkOutputDef 4 0 [1; 6; 8; 16; 0] 2.

Lemma conv_tiler_area_witness :
  sum_by (fun t => dimn t 1 * dimn t 2)
    (ConvTiler.generate_tiles (Some od_1_6_8_16) (mkTilingConfig 1 3 2 1)) = 6 * 8.
Proof.
  refine (conv_tiler_area (Some od_1_6_8_16) (mkTilingConfig 1 3 2 1) _ _);
    repeat split; vm_compute; congruence.
Defined.

Lemma matmul_tiler_cost_witness :
  MatMulTiler.estimate_cost
    (MatMulTiler.generate_tiles (Some od_1_6_8_16) (mkTilingConfig 1 3 1 1)) = 64 * 1 * 6.
Proof.
  refine (matmul_tiler_cost od_1_6_8_16 (mkTilingConfig 1 3 1 1) 1 6 _ _ _ _ _ _);
    repeat split; vm_compute; congruence.
Defined.

Lemma distribute_balanced_witness :
  exists d, distribute (ConvTiler.generate_tiles (Some od_1_6_8_16) (mkTilingConfig 1 3 2 1)) 4 = Some d /\
    length d = 4%nat.
Proof.
  destruct (distribute_balanced (ConvTiler.generate_tiles (Some od_1_6_8_16)
    (mkTilingConfig 1 3 2 1)) 4) as (d & H1 & H2 & _); [lia|by exists d].
Defined.

Lemma conform_rounds_up_witness :
  exists d', d' ∈ t_dims (conform (mkTileShape [1; 30; 30; 65; 1] 4) Float16) /\ (64 | d') /\
    65 <= d' < 65 + 64.
Proof.
  apply (conform_rounds_up (mkTileShape [1; 30; 30; 65; 1] 4) Float16 64 65); [done| |lia..].
  apply (list_elem_of_lookup_2 _ 3). reflexivity.
Defined.

End Tiler.
