(* ===== verification/Lifetime.v ===== *)
(** The lifetime allocator [fa::FancyAllocator::allocate_with_lifetime] and its
    safety check [validate_no_overlap]
    ([compiler/src/vtcm/fancy_allocator.cpp]), with the bump allocator
    [allocate], [check_total_allocation] and the VTCM budget
    [VtcmCacheInstance::usable_size]. *)
From S2P Require Import Prelude Ir.

Record AllocRequest := mkAllocRequest {
  req_op : op_id_t; size : Z; life_begin : Z; life_end : Z
}.

Record AllocResult := mkAllocResult {
  offset : Z; block_id : Z; spilled : bool
}.

Record Group := mkGroup {
  g_begin : Z; g_end : Z; members : list AllocRequest; total_size : Z
}.

Record Range := mkRange { r_start : Z; r_end : Z }.
Record Live := mkLive { l_off : Z; l_size : Z; l_end : Z }.
Record TakenRange := mkTaken {
  tr_start : Z; tr_end : Z; tr_op_index : Z; tr_begin : Z; tr_life_end : Z
}.

#[export] Instance AllocRequest_eq_dec : EqDecision AllocRequest.
Proof. solve_decision. Defined.

(** [static_cast<int64_t>]. *)
Definition i64 (z : Z) : Z := (z + 2 ^ 63) mod 2 ^ 64 - 2 ^ 63.

Definition align_up (alignment v : Z) : Z :=
  let m := v mod alignment in
  if m =? 0 then v else u64 (v + (alignment - m)).

(** The comparator of [std::sort]: [life_begin] ascending, then [life_end]
    descending, then [op_id] ascending. *)
Definition req_lt (a b : AllocRequest) : bool :=
  if negb (life_begin a =? life_begin b) then life_begin a <? life_begin b
  else if negb (life_end a =? life_end b) then life_end b <? life_end a
  else req_op a <? req_op b.

(** ** Grouping: consecutive requests with the same interval.  The groups are
    held back first. *)
Definition group_step (gs : list Group) (req : AllocRequest) : list Group :=
  if size req =? 0 then gs
  else
    match gs with
    | g :: gs' =>
        if (g_begin g =? life_begin req) && (g_end g =? life_end req)
        then mkGroup (g_begin g) (g_end g) (members g ++ [req]) (u64 (total_size g + size req)) :: gs'
        else mkGroup (life_begin req) (life_end req) [req] (size req) :: gs
    | [] => [mkGroup (life_begin req) (life_end req) [req] (size req)]
    end.

Definition make_groups (sorted : list AllocRequest) : list Group :=
  rev (foldl group_step [] sorted).

(** ** The allocation state *)
Record AllocState := mkState {
  free_list : list Range;
  active : list Live;
  high_water : Z;
  next_block_id : Z;
  allocs : gmap op_id_t AllocResult;      (** [lifetime_allocs_] *)
  taken_ranges : list TakenRange
}.

Definition init_state : AllocState := mkState [] [] 0 0 ∅ [].

(** Return the regions whose tensors are dead to the free list. *)
Definition expire (b : Z) (st : AllocState) : AllocState :=
  mkState
    (free_list st ++ map (fun l => mkRange (l_off l) (u64 (l_off l + l_size l)))
                       (filter (fun l => (l_end l <? b) = true) (active st)))
    (filter (fun l => (l_end l <? b) = false) (active st))
    (high_water st) (next_block_id st) (allocs st) (taken_ranges st).

(** First fit: the first free range that holds [need] bytes gives its head. *)
Fixpoint first_fit (need : Z) (fl : list Range) : option (Z * list Range) :=
  match fl with
  | [] => None
  | r :: fl =>
      if need <=? u64 (r_end r - r_start r) then
        let start := u64 (r_start r + need) in
        Some (r_start r, if r_end r <=? start then fl else mkRange start (r_end r) :: fl)
      else
        '(off, fl') ← first_fit need fl; Some (off, r :: fl')
  end.

(** Sequential placement of a group's members from [cur]. *)
Definition place_member (alignment : Z) (acc : Z * Z * gmap op_id_t AllocResult)
    (req : AllocRequest) : Z * Z * gmap op_id_t AllocResult :=
  let '(cur, bid, m) := acc in
  (u64 (cur + align_up alignment (size req)), u32 (bid + 1),
   <[req_op req := mkAllocResult cur bid false]> m).

Definition spill_member (acc : Z * gmap op_id_t AllocResult) (req : AllocRequest)
    : Z * gmap op_id_t AllocResult :=
  let '(bid, m) := acc in
  (u32 (bid + 1), <[req_op req := mkAllocResult 0 bid true]> m).

(** One group: expire, first fit, else bump, else spill the whole group. *)
Definition process_group (alignment vtcm_budget : Z) (st0 : AllocState) (g : Group)
    : AllocState :=
  let need := align_up alignment (total_size g) in
  let st := expire (g_begin g) st0 in
  let '(off, fl) :=
    match first_fit need (free_list st) with
    | Some (s, fl) => (i64 s, fl)
    | None => (-1, free_list st)
    end in
  let bump := off <? 0 in
  let off := if bump then i64 (high_water st) else off in
  if bump && (vtcm_budget <? u64 (u64 off + need)) then
    let '(bid, m) := foldl spill_member (next_block_id st, allocs st) (members g) in
    mkState fl (active st) (high_water st) bid m (taken_ranges st)
  else
    let hw := if bump then u64 (u64 off + need) else high_water st in
    let '(_, bid, m) :=
      foldl (place_member alignment) (u64 off, next_block_id st, allocs st) (members g) in
    mkState fl (active st ++ [mkLive (u64 off) need (g_end g)]) hw bid m
      (taken_ranges st ++ [mkTaken (u64 off) (u64 (u64 off + need)) (-1) (g_begin g) (g_end g)]).

(** Requests of size zero get a block id and offset 0. *)
Definition place_empty (acc : Z * gmap op_id_t AllocResult) (req : AllocRequest)
    : Z * gmap op_id_t AllocResult :=
  let '(bid, m) := acc in
  if size req =? 0 then (u32 (bid + 1), <[req_op req := mkAllocResult 0 bid false]> m)
  else (bid, m).

(** ** [validate_no_overlap] *)
Definition req_by_op (requests : list AllocRequest) : gmap op_id_t AllocRequest :=
  foldl (fun m r => <[req_op r := r]> m) ∅ requests.

Definition placed_of (reqs : gmap op_id_t AllocRequest) (e : op_id_t * AllocResult)
    : option (AllocRequest * Z) :=
  if spilled e.2 then None
  else
    match reqs !! e.1 with
    | Some r => if size r =? 0 then None else Some (r, offset e.2)
    | None => None
    end.

Definition life_overlap (a b : AllocRequest) : bool :=
  (life_begin a <? life_end b) && (life_begin b <? life_end a).

Definition off_overlap (a b : AllocRequest * Z) : bool :=
  (a.2 <? u64 (b.2 + size b.1)) && (b.2 <? u64 (a.2 + size a.1)).

Fixpoint pairs_ok (placed : list (AllocRequest * Z)) : bool :=
  match placed with
  | [] => true
  | a :: rest => forallb (fun b => negb (life_overlap a.1 b.1 && off_overlap a b)) rest
                 && pairs_ok rest
  end.

(** [false]: the process aborts. *)
Definition validate_no_overlap (requests : list AllocRequest)
    (lifetime_allocs : gmap op_id_t AllocResult) : bool :=
  pairs_ok (omap (placed_of (req_by_op requests)) (map_to_list lifetime_allocs)).

Record Allocation := mkAllocation {
  lifetime_allocs : gmap op_id_t AllocResult;
  lifetime_used : Z; lifetime_saved : Z; final_taken : list TakenRange
}.

(** [None]: [validate_no_overlap] aborted. *)
Definition allocate_with_lifetime (requests : list AllocRequest)
    (vtcm_budget alignment : Z) : option Allocation :=
  match requests with
  | [] => Some (mkAllocation ∅ 0 0 [])
  | _ =>
      let sorted := std_sort req_lt requests in
      let total_requested := foldl (fun a r => u64 (a + size r)) 0 sorted in
      let st := foldl (process_group alignment vtcm_budget) init_state (make_groups sorted) in
      let '(_, m) := foldl place_empty (next_block_id st, allocs st) sorted in
      let used := high_water st in
      let saved := if used <? total_requested then total_requested - used else 0 in
      if validate_no_overlap sorted m
      then Some (mkAllocation m used saved (taken_ranges st))
      else None
  end.

Definition get_allocation (a : Allocation) (op : op_id_t) : option AllocResult :=
  lifetime_allocs a !! op.

(** ** The linear allocator: [allocate], [deallocate] *)

Record MemBlock := mkMemBlock {
  mb_offset : Z; mb_size : Z; pool_id : Z; is_free : bool; is_mc_cacheable_shared : bool
}.

(** [pools_[0]] and [block_map_].  A [MemBlock*] of the map is the index of
    the block in [pool.blocks]. *)
Record Bump := mkBump {
  pool_size : Z; blocks : list MemBlock; block_map : gmap Z nat
}.

Definition empty_bump : Bump := mkBump 0 [] ∅.

(** The pointer is the block's offset plus one; [None] is [nullptr]. *)
Definition allocate (sz alignment : Z) (s : Bump) : option Z * Bump :=
  if sz =? 0 then (None, s)
  else
    let alignment := if alignment <? 4 then 4 else alignment in
    let base := pool_size s in
    let misalign := Z.land base (alignment - 1) in
    let base := if negb (misalign =? 0) then u64 (base + u64 (alignment - misalign)) else base in
    let ptr := u64 (base + 1) in
    (Some ptr,
     mkBump (u64 (base + sz)) (blocks s ++ [mkMemBlock base sz 0 false false])
       (<[ptr := length (blocks s)]> (block_map s))).

Definition set_free (b : MemBlock) : MemBlock :=
  mkMemBlock (mb_offset b) (mb_size b) (pool_id b) true (is_mc_cacheable_shared b).

Definition deallocate (ptr : Z) (s : Bump) : Bump :=
  match block_map s !! ptr with
  | Some i => mkBump (pool_size s) (alter set_free i (blocks s)) (delete ptr (block_map s))
  | None => s
  end.

(** [check_total_allocation]: 1 is "memory usage too large". *)
Definition check_total_allocation (limit used extra const_size : Z) : Z :=
  if limit <? u64 (u64 (used + extra) + const_size) then 1 else 0.

(** [VtcmCacheInstance::usable_size]: min(size, 4MB) * 0.75.  The product of a
    value below 2^23 and 0.75 is exact in a double. *)
Definition VTCM_4MB_LIMIT : Z := 0x400000.
Definition usable_size (vtcm_size : Z) : Z := Z.min vtcm_size VTCM_4MB_LIMIT * 3 / 4.

(** ** Groups *)

Lemma i64_id z : 0 <= z < 2 ^ 63 -> i64 z = z.
Proof. intros. unfold i64. rewrite Z.mod_small; lia. Qed.

Lemma align_up_multiple al v : 0 < al -> (al | v) -> align_up al v = v.
Proof.
  intros Ha Hd. unfold align_up. rewrite (proj2 (Z.mod_divide v al ltac:(lia))) by done. done.
Qed.

Definition group_ok (g : Group) : Prop :=
  members g <> [] /\ total_size g = sum_by size (members g) /\
  forall r, r ∈ members g ->
    life_begin r = g_begin g /\ life_end r = g_end g /\ size r <> 0.

Lemma sum_by_filter_nonzero {A} (f : A -> Z) l :
  sum_by f (filter (fun x => f x <> 0) l) = sum_by f l.
Proof.
  induction l as [|x l IH]; [done|]. rewrite filter_cons.
  case_decide; simpl; rewrite IH; lia.
Qed.

(** The group list, back first, after the requests [done]. *)
Definition groups_inv (done : list AllocRequest) (gs : list Group) : Prop :=
  concat (map members (rev gs)) = filter (fun r => size r <> 0) done /\
  (forall g, g ∈ gs -> group_ok g).

Lemma group_step_inv done gs r :
  (forall x, x ∈ done ++ [r] -> 0 <= size x) ->
  sum_by size (done ++ [r]) < 2 ^ 64 ->
  groups_inv done gs -> groups_inv (done ++ [r]) (group_step gs r).
Proof.
  intros Hnn Hsum [Hc Hg]. unfold group_step.
  destruct (size r =? 0) eqn:E0; bool_prop.
  { split; [|done]. rewrite filter_app, Hc. simpl.
    rewrite filter_cons_False, filter_nil, app_nil_r by (simpl; lia). done. }
  assert (Hf : filter (fun r => size r <> 0) (done ++ [r])
               = filter (fun r => size r <> 0) done ++ [r]).
  { rewrite filter_app. simpl. by rewrite filter_cons_True, filter_nil. }
  assert (Hnew : groups_inv (done ++ [r]) (mkGroup (life_begin r) (life_end r) [r] (size r) :: gs)).
  { split.
    - rewrite Hf. simpl. by rewrite map_app, concat_app, Hc.
    - intros g [->|Hin]%elem_of_cons; [|by apply Hg]. unfold group_ok. simpl.
      split_and!; [done|lia|]. by intros ? ->%list_elem_of_singleton. }
  destruct gs as [|g gs]; [done|].
  destruct ((g_begin g =? life_begin r) && (g_end g =? life_end r)) eqn:E; [|done]. bool_prop.
  destruct (Hg g) as (Hne & Htot & Hmem); [set_solver|].
  split.
  - rewrite Hf. simpl in *. rewrite map_app, concat_app in *. simpl in *.
    by rewrite <- Hc, !app_nil_r, <- app_assoc.
  - intros g' [->|Hin]%elem_of_cons; [|apply Hg; set_solver]. unfold group_ok. simpl.
    split_and!.
    + by destruct (members g).
    + rewrite sum_by_app. simpl. rewrite Htot.
      assert (0 <= size r) by (apply Hnn; set_solver).
      simpl in Hc. rewrite map_app, concat_app in Hc. simpl in Hc. rewrite app_nil_r in Hc.
      pose proof (sum_by_filter_nonzero size done) as Hs.
      rewrite <- Hc, sum_by_app in Hs. rewrite sum_by_app in Hsum. simpl in Hsum.
      assert (Hin : forall x, x ∈ concat (map members (rev gs)) \/ x ∈ members g -> 0 <= size x).
      { intros x Hx%elem_of_app. rewrite Hc in Hx. apply list_elem_of_filter in Hx as [_ Hx].
        apply Hnn. set_solver. }
      assert (0 <= sum_by size (members g)) by (apply sum_by_nonneg; auto).
      assert (0 <= sum_by size (concat (map members (rev gs)))) by (apply sum_by_nonneg; auto).
      unwrap. lia.
    + intros x [Hx| ->%list_elem_of_singleton]%elem_of_app; [by apply Hmem|]. done.
Qed.

Lemma make_groups_spec sorted :
  (forall x, x ∈ sorted -> 0 <= size x) -> sum_by size sorted < 2 ^ 64 ->
  concat (map members (make_groups sorted)) = filter (fun r => size r <> 0) sorted /\
  (forall g, g ∈ make_groups sorted -> group_ok g).
Proof.
  intros Hnn Hsum. unfold make_groups.
  assert (H : groups_inv sorted (foldl group_step [] sorted)).
  { induction sorted as [|r l IH] using rev_ind; [split; set_solver|].
    rewrite foldl_app. simpl. apply group_step_inv; [done..|].
    rewrite sum_by_app in Hsum. simpl in Hsum.
    assert (0 <= size r) by (apply Hnn; set_solver).
    apply IH; [intros; apply Hnn; set_solver|lia]. }
  destruct H as [Hc Hg]. split; [done|]. intros g.
  rewrite list_elem_of_In, <- in_rev, <- list_elem_of_In. apply Hg.
Qed.

(** The groups come in the order of their [life_begin]. *)
Lemma groups_sorted gs l :
  concat (map members gs) = l -> (forall g, g ∈ gs -> group_ok g) ->
  pairwise (fun a b => life_begin a <= life_begin b) l ->
  pairwise (fun g h => g_begin g <= g_begin h) gs.
Proof.
  revert l. induction gs as [|g gs IH]; intros l Hc Hg Hl; [constructor|].
  simpl in Hc. subst l. apply pairwise_app in Hl as (Hx & _ & Hl).
  apply pairwise_cons. split; [|apply (IH _ eq_refl); [intros; apply Hg; set_solver|done]].
  intros h Hh. destruct (Hg g) as (Hne & _ & Hmem); [set_solver|].
  destruct (Hg h) as (Hne' & _ & Hmem'); [set_solver|].
  destruct (members g) as [|r rs] eqn:Er; [done|].
  destruct (members h) as [|r' rs'] eqn:Er'; [done|].
  destruct (Hmem r) as (<- & _); [set_solver|]. destruct (Hmem' r') as (<- & _); [set_solver|].
  apply Hx; [set_solver|]. apply elem_of_concat. exists (members h).
  rewrite Er'. split; [|set_solver]. apply elem_of_map. by exists h.
Qed.

Lemma req_lt_begin a b : req_lt b a = false -> life_begin a <= life_begin b.
Proof. unfold req_lt. repeat case_bool; bool_prop; lia. Qed.

Lemma sorted_by_begin reqs :
  pairwise (fun a b => life_begin a <= life_begin b) (std_sort req_lt reqs).
Proof.
  eapply pairwise_impl; [intros x y; apply req_lt_begin|]. apply std_sort_sorted.
  - intros a b. unfold req_lt. repeat case_bool; bool_prop; intros; bool_prop; lia.
  - intros a b c. unfold req_lt. repeat case_bool; bool_prop; intros; bool_prop; lia.
Qed.

(** ** The placement invariant *)

(** The closed lifetimes share a point. *)
Definition life_meet (a b : AllocRequest) : Prop := life_begin a <= life_end b /\ life_begin b <= life_end a.

Lemma life_overlap_meet a b : life_overlap a b = true -> life_meet a b.
Proof. unfold life_overlap, life_meet. intros H. bool_prop. lia. Qed.

Section invariant.
Context (al budget : Z).
Hypotheses (Hal : 0 < al) (Hbudget : 0 <= budget < 2 ^ 62).

(** The regions that the allocator manages, as (offset, size). *)
Definition reg_of_range (r : Range) : Z * Z := (r_start r, r_end r - r_start r).
Definition reg_of_live (l : Live) : Z * Z := (l_off l, l_size l).
Definition regions (st : AllocState) : list (Z * Z) :=
  map reg_of_range (free_list st) ++ map reg_of_live (active st).

Definition reg_ok (hw : Z) (p : Z * Z) : Prop :=
  0 <= p.1 /\ 0 < p.2 /\ p.1 + p.2 <= hw /\ (al | p.1) /\ (al | p.2).

(** A non-spilled request of the processed ones, at its offset. *)
Definition placed (st : AllocState) (r : AllocRequest) (o : Z) : Prop :=
  exists bid, allocs st !! req_op r = Some (mkAllocResult o bid false).

Record Inv (b : Z) (dn : list AllocRequest) (st : AllocState) : Prop := {
  inv_hw : 0 <= high_water st <= budget;
  inv_hw_al : (al | high_water st);
  inv_regs : forall p, p ∈ regions st -> reg_ok (high_water st) p;
  inv_disj : pairwise disjoint_ranges (regions st);
  inv_dom : forall op, is_Some (allocs st !! op) <-> exists r, r ∈ dn /\ req_op r = op;
  inv_placed : forall r o, r ∈ dn -> placed st r o ->
    0 <= o /\ o + size r <= high_water st /\ (al | o) /\
    (life_end r < b \/ exists l, l ∈ active st /\ l_end l = life_end r /\
                        l_off l <= o /\ o + size r <= l_off l + l_size l);
  inv_safe : forall r1 r2 o1 o2, r1 ∈ dn -> r2 ∈ dn -> r1 <> r2 ->
    placed st r1 o1 -> placed st r2 o2 -> life_meet r1 r2 ->
    disjoint_ranges (o1, size r1) (o2, size r2)
}.

Lemma inv_init b : Inv b [] init_state.
Proof.
  split; simpl; [lia|apply Z.divide_0_r|set_solver|constructor| |set_solver..].
  intros op. rewrite lookup_empty. split; [intros [? ?]; done|set_solver].
Qed.

(** Expiring moves regions from the active list to the free list. *)
Lemma expire_regions b hw l :
  hw < 2 ^ 63 -> (forall p, p ∈ map reg_of_live l -> reg_ok hw p) ->
  map reg_of_range (map (fun l => mkRange (l_off l) (u64 (l_off l + l_size l)))
                      (filter (fun l => (l_end l <? b) = true) l)) ++
  map reg_of_live (filter (fun l => (l_end l <? b) = false) l) ≡ₚ map reg_of_live l.
Proof.
  intros Hhw. induction l as [|x l IH]; intros Hok; [done|].
  destruct (Hok (reg_of_live x)) as (? & ? & ? & _); [set_solver|]. simpl in *.
  rewrite !filter_cons. destruct (l_end x <? b) eqn:E; simpl.
  - unfold reg_of_range at 1, reg_of_live at 2. simpl. unwrap.
    replace (l_off x + l_size x - l_off x) with (l_size x) by lia.
    apply perm_skip, IH. set_solver.
  - rewrite <- Permutation_middle. apply perm_skip, IH. set_solver.
Qed.

Lemma expire_inv b b' dn st : b <= b' -> Inv b dn st -> Inv b' dn (expire b' st).
Proof.
  intros Hb [Hhw Hhwal Hregs Hdisj Hdom Hplaced Hsafe].
  assert (Hperm : regions (expire b' st) ≡ₚ regions st).
  { unfold regions, expire. simpl. rewrite map_app, <- app_assoc.
    apply Permutation_app_head, (expire_regions b' (high_water st)); [lia|].
    intros p Hp. apply Hregs. unfold regions. set_solver. }
  split; simpl; [done|done| | |done| |done].
  - intros p Hp. apply Hregs. by rewrite <- Hperm.
  - eapply pairwise_perm; [apply disjoint_ranges_sym|by symmetry|done].
  - intros r o Hr Hpl. destruct (Hplaced r o Hr Hpl) as (? & ? & ? & Hl).
    split_and!; [done..|]. destruct Hl as [Hl|(l & Hl & He & ? & ?)]; [left; lia|].
    destruct (l_end l <? b') eqn:E; bool_prop; [left; lia|right].
    exists l. split_and!; [|done..]. apply list_elem_of_filter. split; [|done].
    by apply Z.ltb_ge.
Qed.

(** First fit cuts the head off one free range. *)
Lemma first_fit_spec need hw fl o fl' :
  hw < 2 ^ 63 -> 0 < need -> (al | need) ->
  (forall p, p ∈ map reg_of_range fl -> reg_ok hw p) ->
  first_fit need fl = Some (o, fl') ->
  exists s rest rem, map reg_of_range fl ≡ₚ (o, s) :: rest /\ need <= s /\
    map reg_of_range fl' ≡ₚ rem ++ rest /\
    ((s = need /\ rem = []) \/ (need < s /\ rem = [(o + need, s - need)])).
Proof.
  intros Hhw Hneed Hdiv. revert o fl'. induction fl as [|r fl IH]; intros o fl' Hok H; [done|].
  simpl in H. destruct (Hok (reg_of_range r)) as (? & ? & ? & ? & ?); [set_solver|].
  simpl in *. unwrap_in H. destruct (need <=? r_end r - r_start r) eqn:E; bool_prop; unwrap_in H.
  - exists (r_end r - r_start r), (map reg_of_range fl).
    destruct (r_end r <=? r_start r + need) eqn:E2; bool_prop; simplify_eq/=.
    + exists []. split_and!; [done|done|done|left; split; [lia|done]].
    + exists [(r_start r + need, r_end r - r_start r - need)].
      split_and!; [done|done| |right; split; [lia|done]].
      simpl. unfold reg_of_range at 1. simpl. do 2 f_equiv. lia.
  - destruct (first_fit need fl) as [[o1 fl1]|] eqn:E1; [|done]. simplify_eq/=.
    destruct (IH o fl1) as (s & rest & rem & Hp & ? & Hp' & Hrem); [set_solver|done|].
    exists s, (reg_of_range r :: rest), rem. split_and!; [|done| |done].
    + simpl. rewrite Hp. apply perm_swap.
    + simpl. rewrite Hp'. by rewrite Permutation_middle.
Qed.

Lemma first_fit_none need fl o fl' :
  first_fit need fl = Some (o, fl') -> exists r, r ∈ fl /\ r_start r = o.
Proof.
  revert o fl'. induction fl as [|r fl IH]; intros o fl' H; [done|]. simpl in H.
  destruct (need <=? _); [simplify_eq; exists r; set_solver|].
  destruct (first_fit need fl) as [[o1 fl1]|] eqn:E1; [|done]. simplify_eq/=.
  destruct (IH _ _ eq_refl) as (r' & ? & ?). exists r'. set_solver.
Qed.

(** ** Placing the members of a group *)

Definition req_ok (r : AllocRequest) : Prop := 0 <= size r /\ (al | size r).

Lemma place_members_spec rs cur bid m cur' bid' m' :
  foldl (place_member al) (cur, bid, m) rs = (cur', bid', m') ->
  (forall r, r ∈ rs -> req_ok r) -> NoDup (map req_op rs) ->
  0 <= cur -> (al | cur) -> cur + sum_by size rs < 2 ^ 63 ->
  (forall op, op ∉ map req_op rs -> m' !! op = m !! op) /\
  (forall r, r ∈ rs -> exists o b, m' !! req_op r = Some (mkAllocResult o b false) /\
     cur <= o /\ o + size r <= cur + sum_by size rs /\ (al | o)) /\
  (forall r1 r2 o1 o2 b1 b2, r1 ∈ rs -> r2 ∈ rs -> r1 <> r2 ->
     m' !! req_op r1 = Some (mkAllocResult o1 b1 false) ->
     m' !! req_op r2 = Some (mkAllocResult o2 b2 false) ->
     disjoint_ranges (o1, size r1) (o2, size r2)).
Proof.
  revert cur bid m. induction rs as [|r rs IH]; intros cur bid m Hf Hok Hnd Hcur Hdiv Hsum.
  { simplify_eq/=. split_and!; [done|set_solver..]. }
  simpl in Hf, Hsum, Hnd. apply NoDup_cons in Hnd as [Hnin Hnd].
  destruct (Hok r) as [Hr0 Hrd]; [set_solver|].
  assert (0 <= sum_by size rs) by (apply sum_by_nonneg; intros; apply Hok; set_solver).
  rewrite align_up_multiple in Hf by done. unwrap_in Hf.
  apply IH in Hf as (Hother & Hin & Hpair); [|set_solver|done|lia|by apply Z.divide_add_r|lia].
  assert (Hhead : m' !! req_op r = Some (mkAllocResult cur bid false)).
  { rewrite Hother by done. apply lookup_insert_eq. }
  split_and!.
  - intros op Hop. simpl in Hop. rewrite Hother by set_solver.
    apply lookup_insert_ne. set_solver.
  - simpl. intros x [->|Hx]%elem_of_cons.
    + exists cur, bid. split_and!; [done|lia..|done].
    + destruct (Hin x Hx) as (o & b & ? & ? & ? & ?). exists o, b. split_and!; [done|lia..|done].
  - intros r1 r2 o1 o2 b1 b2 H1 H2 Hne Hm1 Hm2. unfold disjoint_ranges. simpl.
    apply elem_of_cons in H1 as [->|H1], H2 as [->|H2]; [done| | |].
    + destruct (Hin r2 H2) as (o & b & Ho & ? & ? & _). simplify_eq. lia.
    + destruct (Hin r1 H1) as (o & b & Ho & ? & ? & _). simplify_eq. lia.
    + by apply (Hpair r1 r2 o1 o2 b1 b2).
Qed.

Lemma spill_members_spec rs bid m bid' m' :
  foldl spill_member (bid, m) rs = (bid', m') ->
  (forall op, op ∉ map req_op rs -> m' !! op = m !! op) /\
  (forall r, r ∈ rs -> exists b, m' !! req_op r = Some (mkAllocResult 0 b true)).
Proof.
  revert bid m. induction rs as [|r rs IH]; intros bid m Hf; [simplify_eq/=; set_solver|].
  simpl in Hf. apply IH in Hf as [Hother Hin]. split.
  - intros op Hop. simpl in Hop. rewrite Hother by set_solver. apply lookup_insert_ne. set_solver.
  - intros x [->|Hx]%elem_of_cons; [|by apply Hin].
    destruct (decide (req_op r ∈ map req_op rs)) as [Hd|Hd].
    + apply elem_of_map in Hd as (y & Hy & Hyin). rewrite Hy. by apply Hin.
    + rewrite Hother by done. exists bid. apply lookup_insert_eq.
Qed.

(** ** One group *)

Definition members_ok (dn : list AllocRequest) (g : Group) : Prop :=
  group_ok g /\ (forall r, r ∈ members g -> req_ok r) /\
  NoDup (map req_op (members g)) /\
  (forall r, r ∈ members g -> req_op r ∉ map req_op dn) /\
  sum_by size (members g) < 2 ^ 62.

Lemma sum_divide rs : (forall r, r ∈ rs -> req_ok r) -> (al | sum_by size rs).
Proof.
  induction rs as [|r rs IH]; intros H; [apply Z.divide_0_r|].
  apply Z.divide_add_r; [apply H; set_solver|apply IH; set_solver].
Qed.

Lemma members_pos dn g : members_ok dn g -> 0 < sum_by size (members g).
Proof.
  intros [(Hne & _ & Hm) (Hok & _)]. destruct (members g) as [|r rs]; [done|]. simpl.
  assert (0 <= sum_by size rs) by (apply sum_by_nonneg; intros; apply Hok; set_solver).
  destruct (Hok r) as [? _]; [set_solver|]. destruct (Hm r) as (_ & _ & ?); [set_solver|]. lia.
Qed.

Lemma not_elem_op dn g r :
  members_ok dn g -> r ∈ dn -> req_op r ∉ map req_op (members g).
Proof.
  intros (_ & _ & _ & Hfresh & _) Hr (x & Hx & Hin)%elem_of_map.
  apply (Hfresh x Hin). rewrite <- Hx. apply elem_of_map. by exists r.
Qed.

(** The group is placed at a region [off] that is disjoint from every other. *)
Lemma place_group_inv dn st g off fl hw cur bid m tk :
  Inv (g_begin g) dn st -> members_ok dn g ->
  let need := sum_by size (members g) in
  foldl (place_member al) (off, next_block_id st, allocs st) (members g) = (cur, bid, m) ->
  high_water st <= hw <= budget -> (al | hw) ->
  let st' := mkState fl (active st ++ [mkLive off need (g_end g)]) hw bid m tk in
  (forall p, p ∈ regions st' -> reg_ok hw p) -> pairwise disjoint_ranges (regions st') ->
  Inv (g_begin g) (dn ++ members g) st'.
Proof.
  intros HI Hm need Hf Hhw Hal_hw st' Hregs Hdisj.
  pose proof (members_pos _ _ Hm) as Hpos.
  destruct HI as [Ihw Ihwal Iregs Idisj Idom Iplaced Isafe].
  destruct Hm as ((Hne & Htot & Hmem) & Hok & Hnd & Hfresh & Hsum) eqn:Em. clear Em.
  assert (Hnew : (off, need) ∈ regions st').
  { unfold regions. simpl. rewrite map_app. set_solver. }
  destruct (Hregs _ Hnew) as (? & ? & ? & ? & _). simpl in *.
  apply place_members_spec in Hf as (Hother & Hin & Hpair); [|done|done|lia|done|subst need; lia].
  assert (Hold : forall r, r ∈ dn -> m !! req_op r = allocs st !! req_op r).
  { intros r Hr. apply Hother. by eapply not_elem_op. }
  split; simpl; [lia|done|done|done| | |].
  - intros op. destruct (decide (op ∈ map req_op (members g))) as [Hop|Hop].
    + apply elem_of_map in Hop as (r & -> & Hr). destruct (Hin r Hr) as (o & b & -> & _).
      split; [|by eexists]. intros _. exists r. set_solver.
    + rewrite Hother, Idom by done. split.
      * intros (r & Hr & <-). exists r. set_solver.
      * intros (r & [Hr|Hr]%elem_of_app & <-); [by exists r|].
        exfalso. apply Hop, elem_of_map. by exists r.
  - intros r o [Hr|Hr]%elem_of_app [b Hb]; simpl in Hb.
    + rewrite Hold in Hb by done. destruct (Iplaced r o Hr) as (? & ? & ? & Hl); [by exists b|].
      split_and!; [lia|lia|done|]. destruct Hl as [?|(l & ? & ?)]; [by left|right].
      exists l. set_solver.
    + destruct (Hin r Hr) as (o' & b' & Hb' & ? & ? & ?). rewrite Hb in Hb'. simplify_eq.
      split_and!; [lia|subst need; lia|done|right].
      exists (mkLive off need (g_end g)). simpl. destruct (Hmem r Hr) as (_ & -> & _).
      subst need. split_and!; [set_solver|done|lia|lia].
  - assert (Hmixed : forall r1 r2 o1 o2, r1 ∈ dn -> r2 ∈ members g ->
      placed st' r1 o1 -> placed st' r2 o2 -> life_meet r1 r2 ->
      disjoint_ranges (o1, size r1) (o2, size r2)).
    { intros r1 r2 o1 o2 Hr1 Hr2 [b1 Hb1] [b2 Hb2] Hlo. simpl in *.
      rewrite Hold in Hb1 by done.
      destruct (Iplaced r1 o1 Hr1) as (_ & _ & _ & Hl); [by exists b1|].
      destruct (Hin r2 Hr2) as (o' & b' & Hb' & ? & ? & _). rewrite Hb2 in Hb'. simplify_eq.
      destruct Hlo as [_ Hlo]. destruct (Hmem r2 Hr2) as (Hb & _).
      destruct Hl as [?|(l & Hl & _ & ? & ?)]; [lia|].
      unfold regions, st' in Hdisj. simpl in Hdisj. rewrite map_app, app_assoc in Hdisj.
      apply pairwise_app in Hdisj as (Hx & _).
      specialize (Hx (reg_of_live l) (off, need)). unfold disjoint_ranges in *. simpl in *.
      destruct Hx as [Hx|Hx];
        [apply elem_of_app; right; apply elem_of_map; by exists l|set_solver|..];
        subst need; lia. }
    intros r1 r2 o1 o2 [Hr1|Hr1]%elem_of_app [Hr2|Hr2]%elem_of_app Hne' Hp1 Hp2 Hlo.
    + apply (Isafe r1 r2); [done..| | |done].
      * destruct Hp1 as [b Hb]. simpl in Hb. rewrite Hold in Hb by done. by exists b.
      * destruct Hp2 as [b Hb]. simpl in Hb. rewrite Hold in Hb by done. by exists b.
    + by apply Hmixed.
    + apply disjoint_ranges_sym, Hmixed; [done..|]. unfold life_meet in *. tauto.
    + destruct Hp1 as [b1 Hb1], Hp2 as [b2 Hb2]. by apply (Hpair r1 r2 o1 o2 b1 b2).
Qed.

Lemma need_eq dn g : members_ok dn g -> align_up al (total_size g) = sum_by size (members g).
Proof.
  intros ((_ & Htot & _) & Hok & _). rewrite Htot. by apply align_up_multiple, sum_divide.
Qed.

Lemma reuse_hole dn st g s fl cur bid m tk :
  Inv (g_begin g) dn st -> members_ok dn g ->
  let need := sum_by size (members g) in
  first_fit need (free_list st) = Some (s, fl) ->
  foldl (place_member al) (s, next_block_id st, allocs st) (members g) = (cur, bid, m) ->
  Inv (g_begin g) (dn ++ members g)
    (mkState fl (active st ++ [mkLive s need (g_end g)]) (high_water st) bid m tk).
Proof.
  intros HI Hm need Hff Hf. pose proof (members_pos _ _ Hm) as Hpos.
  destruct (HI) as [Ihw Ihwal Iregs Idisj _ _ _].
  assert (Hnd : (al | need)) by (apply sum_divide, Hm).
  destruct (first_fit_spec need (high_water st) (free_list st) s fl) as
    (sz & rest & rem & Hp & Hsz & Hp' & Hrem); [lia|done|done| |done|].
  { intros p Hp. apply Iregs. unfold regions. set_solver. }
  set (live := map reg_of_live (active st)).
  assert (Hold : regions st ≡ₚ (s, sz) :: rest ++ live) by (unfold regions; by rewrite Hp).
  assert (Hnew : forall hw bid m tk,
    regions (mkState fl (active st ++ [mkLive s need (g_end g)]) hw bid m tk)
      ≡ₚ (s, need) :: rem ++ rest ++ live).
  { intros. unfold regions. simpl. rewrite Hp', map_app. simpl.
    etransitivity; [|symmetry; apply Permutation_cons_append]. by rewrite <- !app_assoc. }
  assert (Hs : reg_ok (high_water st) (s, sz)) by (apply Iregs; rewrite Hold; set_solver).
  assert (Hrest : forall p, p ∈ rest ++ live ->
    reg_ok (high_water st) p /\ disjoint_ranges (s, sz) p).
  { intros p Hin. split; [apply Iregs; rewrite Hold; set_solver|].
    eapply pairwise_perm in Idisj; [|apply disjoint_ranges_sym|exact Hold].
    apply pairwise_cons in Idisj as [Hx _]. by apply Hx. }
  assert (Hdisj_rest : pairwise disjoint_ranges (rest ++ live)).
  { eapply pairwise_perm in Idisj; [|apply disjoint_ranges_sym|exact Hold].
    by apply pairwise_cons in Idisj as [_ ?]. }
  unfold reg_ok in Hs. simpl in Hs. destruct Hs as (? & ? & ? & ? & ?).
  apply (place_group_inv dn st g s fl (high_water st) cur bid m tk); [done..|lia|done| |]; fold need.
  - intros p. rewrite Hnew. intros [->|[Hin|Hin]%elem_of_app]%elem_of_cons.
    + unfold reg_ok. simpl. split_and!; [lia..|done|done].
    + destruct Hrem as [[? ->]|[? ->]]; [set_solver|].
      apply list_elem_of_singleton in Hin as ->. unfold reg_ok. simpl.
      split_and!; [lia..|by apply Z.divide_add_r|by apply Z.divide_sub_r].
    + by apply Hrest.
  - eapply pairwise_perm; [apply disjoint_ranges_sym|symmetry; apply Hnew|].
    apply pairwise_cons. split.
    + intros p [Hin|Hin]%elem_of_app.
      * destruct Hrem as [[? ->]|[? ->]]; [set_solver|].
        apply list_elem_of_singleton in Hin as ->. unfold disjoint_ranges. simpl. lia.
      * apply Hrest in Hin as [_ Hd]. unfold disjoint_ranges in *. simpl in *. lia.
    + apply pairwise_app. split_and!; [| |done].
      * intros p q Hin Hq. destruct Hrem as [[? ->]|[? ->]]; [set_solver|].
        apply list_elem_of_singleton in Hin as ->. apply Hrest in Hq as [_ Hd].
        unfold disjoint_ranges in *. simpl in *. lia.
      * destruct Hrem as [[? ->]|[? ->]]; repeat constructor.
Qed.

Lemma bump_group dn st g cur bid m tk :
  Inv (g_begin g) dn st -> members_ok dn g ->
  let need := sum_by size (members g) in
  let hw := high_water st in
  hw + need <= budget ->
  foldl (place_member al) (hw, next_block_id st, allocs st) (members g) = (cur, bid, m) ->
  Inv (g_begin g) (dn ++ members g)
    (mkState (free_list st) (active st ++ [mkLive hw need (g_end g)]) (hw + need) bid m tk).
Proof.
  intros HI Hm need hw Hfit Hf. pose proof (members_pos _ _ Hm) as Hpos.
  destruct (HI) as [Ihw Ihwal Iregs Idisj _ _ _].
  assert (Hnd : (al | need)) by (apply sum_divide, Hm).
  assert (Hnew : regions (mkState (free_list st) (active st ++ [mkLive hw need (g_end g)])
                            (hw + need) bid m tk) = regions st ++ [(hw, need)]).
  { unfold regions. simpl. by rewrite map_app, app_assoc. }
  subst hw.
  apply (place_group_inv dn st g (high_water st) (free_list st) _ cur bid m tk);
    [done..|lia|by apply Z.divide_add_r| |]; fold need; rewrite Hnew.
  - intros p [Hin|Hin]%elem_of_app.
    + apply Iregs in Hin as (? & ? & ? & ?). unfold reg_ok. split_and!; [lia..|tauto|tauto].
    + apply list_elem_of_singleton in Hin as ->. unfold reg_ok. simpl.
      split_and!; [lia|subst need; lia|lia|done|done].
  - apply pairwise_app. split_and!; [|done|repeat constructor].
    intros p q Hin ->%list_elem_of_singleton. apply Iregs in Hin as (? & ? & ? & _).
    unfold disjoint_ranges. simpl. lia.
Qed.

Lemma spill_group dn st g fl bid m tk :
  Inv (g_begin g) dn st -> members_ok dn g -> fl = free_list st ->
  foldl spill_member (next_block_id st, allocs st) (members g) = (bid, m) ->
  Inv (g_begin g) (dn ++ members g) (mkState fl (active st) (high_water st) bid m tk).
Proof.
  intros HI Hm -> Hf. destruct (HI) as [Ihw Ihwal Iregs Idisj Idom Iplaced Isafe].
  apply spill_members_spec in Hf as [Hother Hin].
  assert (Hold : forall r, r ∈ dn -> m !! req_op r = allocs st !! req_op r).
  { intros r Hr. apply Hother. by eapply not_elem_op. }
  set (st' := mkState _ _ _ _ _ _).
  assert (Hpl : forall r o, r ∈ dn ++ members g -> placed st' r o -> r ∈ dn /\ placed st r o).
  { intros r o [Hr|Hr]%elem_of_app [b Hb]; simpl in Hb.
    - split; [done|]. exists b. by rewrite <- Hold.
    - destruct (Hin r Hr) as [b' Hb']. congruence. }
  split; simpl; [done..| | |].
  - intros op. destruct (decide (op ∈ map req_op (members g))) as [Hop|Hop].
    + apply elem_of_map in Hop as (r & -> & Hr). destruct (Hin r Hr) as (b & ->).
      split; [|by eexists]. intros _. exists r. set_solver.
    + rewrite Hother, Idom by done. split.
      * intros (r & Hr & <-). exists r. set_solver.
      * intros (r & [Hr|Hr]%elem_of_app & <-); [by exists r|].
        exfalso. apply Hop, elem_of_map. by exists r.
  - intros r o Hr Hp. destruct (Hpl r o Hr Hp). by apply Iplaced.
  - intros r1 r2 o1 o2 Hr1 Hr2 Hne Hp1 Hp2.
    destruct (Hpl r1 o1 Hr1 Hp1), (Hpl r2 o2 Hr2 Hp2). by apply Isafe.
Qed.

Lemma process_group_inv b dn st g :
  Inv b dn st -> b <= g_begin g -> members_ok dn g ->
  Inv (g_begin g) (dn ++ members g) (process_group al budget st g).
Proof.
  intros HI Hb Hm. pose proof (expire_inv b (g_begin g) dn st Hb HI) as HI'.
  pose proof (members_pos _ _ Hm) as Hpos.
  pose proof (inv_hw _ _ _ HI') as Hhw.
  assert (Hlt : sum_by size (members g) < 2 ^ 62) by apply Hm.
  unfold process_group. rewrite (need_eq dn g Hm).
  remember (expire (g_begin g) st) as st1 eqn:Est. clear HI Hb Est.
  destruct (first_fit _ (free_list st1)) as [[s fl]|] eqn:Hff.
  - assert (Hs : 0 <= s < 2 ^ 62).
    { apply first_fit_none in Hff as (r & Hr & <-).
      destruct (inv_regs _ _ _ HI' (reg_of_range r)) as (? & ? & ? & _); [|simpl in *; lia].
      unfold regions. apply elem_of_app. left. apply elem_of_map. by exists r. }
    rewrite i64_id by lia. rewrite (proj2 (Z.ltb_ge s 0)) by lia. simpl. unwrap.
    destruct (foldl (place_member al) _ _) as [[cur bid] m] eqn:Hf.
    eapply reuse_hole; done.
  - simpl. rewrite i64_id by lia. unwrap.
    destruct (budget <? _) eqn:Ebud; bool_prop.
    + destruct (foldl spill_member _ _) as [bid m] eqn:Hf. eapply spill_group; done.
    + destruct (foldl (place_member al) _ _) as [[cur bid] m] eqn:Hf. by eapply bump_group.
Qed.

(** ** All groups *)

Lemma process_groups_inv gs b dn st :
  Inv b dn st -> pairwise (fun g h => g_begin g <= g_begin h) gs ->
  (forall g, g ∈ gs -> b <= g_begin g /\ group_ok g) ->
  (forall r, r ∈ concat (map members gs) -> req_ok r) ->
  NoDup (map req_op (dn ++ concat (map members gs))) ->
  sum_by size (concat (map members gs)) < 2 ^ 62 ->
  exists b', Inv b' (dn ++ concat (map members gs)) (foldl (process_group al budget) st gs).
Proof.
  revert b dn st. induction gs as [|g gs IH]; intros b dn st HI Hs Hg Hok Hnd Hsum; simpl in *.
  { exists b. by rewrite app_nil_r. }
  apply pairwise_cons in Hs as [Hle Hs].
  rewrite sum_by_app in Hsum.
  assert (0 <= sum_by size (members g)) by (apply sum_by_nonneg; intros; apply Hok; set_solver).
  assert (0 <= sum_by size (concat (map members gs)))
    by (apply sum_by_nonneg; intros; apply Hok; set_solver).
  destruct (Hg g) as [Hb Hgok]; [set_solver|].
  assert (Hm : members_ok dn g).
  { rewrite !map_app, !NoDup_app in Hnd. destruct Hnd as (_ & Hx & Hmem & _ & _).
    split_and!; [done|intros; apply Hok; set_solver|done| |lia].
    intros r Hr Hin. apply (Hx _ Hin), elem_of_app. left. apply elem_of_map. by exists r. }
  rewrite app_assoc in Hnd |- *.
  eapply (IH (g_begin g)); [by eapply process_group_inv|done| | |done|lia].
  - intros h Hh. split; [by apply Hle|apply Hg; set_solver].
  - intros r Hr. apply Hok. set_solver.
Qed.

(** The high water mark stays below the bytes requested, and a group is
    spilled only past the budget. *)
Definition unspilled (m : gmap op_id_t AllocResult) : Prop :=
  forall op r, m !! op = Some r -> spilled r = false.

Lemma place_members_unspilled rs cur bid m :
  unspilled m -> unspilled (foldl (place_member al) (cur, bid, m) rs).2.
Proof.
  revert cur bid m. induction rs as [|r rs IH]; intros cur bid m H; [done|].
  simpl. apply IH. intros op x [[_ <-]|[_ Hx]]%lookup_insert_Some; [done|by eapply H].
Qed.

Lemma process_group_unspilled b dn st g :
  Inv b dn st -> b <= g_begin g -> members_ok dn g -> unspilled (allocs st) ->
  high_water st + sum_by size (members g) <= budget ->
  high_water (process_group al budget st g) <= high_water st + sum_by size (members g) /\
  unspilled (allocs (process_group al budget st g)).
Proof.
  intros HI Hb Hm Hun Hfit. pose proof (expire_inv b (g_begin g) dn st Hb HI) as HI'.
  pose proof (members_pos _ _ Hm) as Hpos. pose proof (inv_hw _ _ _ HI) as Hhw.
  unfold process_group. rewrite (need_eq dn g Hm).
  destruct (first_fit _ _) as [[s fl]|] eqn:Hff.
  - assert (Hs : 0 <= s < 2 ^ 62).
    { apply first_fit_none in Hff as (r & Hr & <-).
      destruct (inv_regs _ _ _ HI' (reg_of_range r)) as (? & ? & ? & _); [|simpl in *; lia].
      unfold regions. apply elem_of_app. left. apply elem_of_map. by exists r. }
    rewrite i64_id by lia. rewrite (proj2 (Z.ltb_ge s 0)) by lia. simpl.
    pose proof (place_members_unspilled (members g) (u64 s) (next_block_id st) _ Hun) as Hu.
    destruct (foldl (place_member al) _ _) as [[cur bid] m] eqn:Hf. simpl in *. split; [lia|done].
  - simpl. rewrite i64_id by lia. unwrap. rewrite (proj2 (Z.ltb_ge budget _)) by lia.
    pose proof (place_members_unspilled (members g) (high_water st) (next_block_id st) _ Hun) as Hu.
    destruct (foldl (place_member al) _ _) as [[cur bid] m] eqn:Hf. simpl in *. split; [lia|done].
Qed.

Lemma process_groups_unspilled gs b dn st :
  Inv b dn st -> pairwise (fun g h => g_begin g <= g_begin h) gs ->
  (forall g, g ∈ gs -> b <= g_begin g /\ group_ok g) ->
  (forall r, r ∈ concat (map members gs) -> req_ok r) ->
  NoDup (map req_op (dn ++ concat (map members gs))) ->
  sum_by size (concat (map members gs)) < 2 ^ 62 ->
  unspilled (allocs st) ->
  high_water st + sum_by size (concat (map members gs)) <= budget ->
  unspilled (allocs (foldl (process_group al budget) st gs)).
Proof.
  revert b dn st.
  induction gs as [|g gs IH]; intros b dn st HI Hs Hg Hok Hnd Hsum Hun Hfit; simpl in *; [done|].
  apply pairwise_cons in Hs as [Hle Hs].
  rewrite sum_by_app in Hsum, Hfit.
  assert (0 <= sum_by size (members g)) by (apply sum_by_nonneg; intros; apply Hok; set_solver).
  assert (0 <= sum_by size (concat (map members gs)))
    by (apply sum_by_nonneg; intros; apply Hok; set_solver).
  destruct (Hg g) as [Hb Hgok]; [set_solver|].
  assert (Hm : members_ok dn g).
  { rewrite !map_app, !NoDup_app in Hnd. destruct Hnd as (_ & Hx & Hmem & _ & _).
    split_and!; [done|intros; apply Hok; set_solver|done| |lia].
    intros r Hr Hin. apply (Hx _ Hin), elem_of_app. left. apply elem_of_map. by exists r. }
  rewrite app_assoc in Hnd.
  destruct (process_group_unspilled b dn st g) as [Hhw Hun']; [done..|lia|].
  eapply (IH (g_begin g)); [by eapply process_group_inv|done| | |done|lia|done|lia].
  - intros h Hh. split; [by apply Hle|apply Hg; set_solver].
  - intros r Hr. apply Hok. set_solver.
Qed.
End invariant.

(** ** The requests of size zero *)

Lemma place_empty_spec rs bid m :
  NoDup (map req_op rs) ->
  let m' := (foldl place_empty (bid, m) rs).2 in
  (forall op, (forall r, r ∈ rs -> size r = 0 -> req_op r <> op) -> m' !! op = m !! op) /\
  (forall r, r ∈ rs -> size r = 0 -> exists b, m' !! req_op r = Some (mkAllocResult 0 b false)).
Proof.
  simpl. revert bid m. induction rs as [|r rs IH]; intros bid m Hnd; [set_solver|].
  simpl in Hnd. apply NoDup_cons in Hnd as [Hnin Hnd]. simpl.
  destruct (size r =? 0) eqn:E; bool_prop.
  - destruct (IH (u32 (bid + 1)) (<[req_op r:=mkAllocResult 0 bid false]> m) Hnd) as [Hother Hin].
    split.
    + intros op Hop. rewrite Hother by (intros; apply Hop; set_solver).
      apply lookup_insert_ne, Hop; [set_solver|done].
    + intros x [->|Hx]%elem_of_cons Hz; [|by apply Hin].
      exists bid. rewrite Hother; [apply lookup_insert_eq|].
      intros y Hy _ Heq. apply Hnin, elem_of_map. by exists y.
  - destruct (IH bid m Hnd) as [Hother Hin]. split.
    + intros op Hop. apply Hother. intros y Hy. apply Hop. set_solver.
    + intros x [->|Hx]%elem_of_cons Hz; [done|by apply Hin].
Qed.

(** ** The pairwise check *)

Definition compatible (a b : AllocRequest * Z) : Prop :=
  life_overlap a.1 b.1 && off_overlap a b = false.

Lemma pairs_ok_pairwise l : pairs_ok l = true <-> pairwise compatible l.
Proof.
  induction l as [|a l IH]; simpl; [split; [constructor|done]|].
  rewrite pairwise_cons, andb_true_iff, IH, forallb_forall.
  unfold compatible. setoid_rewrite negb_true_iff. setoid_rewrite list_elem_of_In. done.
Qed.

Lemma pairwise_omap {A B} (R : A -> A -> Prop) (S : B -> B -> Prop) (f : A -> option B) l :
  (forall x y a b, R x y -> f x = Some a -> f y = Some b -> S a b) ->
  pairwise R l -> pairwise S (omap f l).
Proof.
  intros H. induction l as [|x l IH]; simpl; [constructor|].
  rewrite pairwise_cons. intros [Hx Hl]. destruct (f x) as [a|] eqn:Ea; [|by apply IH].
  apply pairwise_cons. split; [|by apply IH].
  intros b (y & Hy & Hb)%list_elem_of_omap. eapply H; [by apply Hx|done..].
Qed.

Lemma pairwise_distinct_keys {V} (l : list (Z * V)) :
  NoDup (map fst l) -> pairwise (fun x y => x ∈ l /\ y ∈ l /\ x.1 <> y.1) l.
Proof.
  induction l as [|x l IH]; intros Hnd; [constructor|].
  simpl in Hnd. apply NoDup_cons in Hnd as [Hnin Hnd]. apply pairwise_cons. split.
  - intros y Hy. split_and!; [set_solver..|]. intros Heq. apply Hnin, elem_of_map. by exists y.
  - eapply pairwise_impl; [|by apply IH]. intros a b (? & ? & ?). set_solver.
Qed.

Lemma req_by_op_sound reqs op r : req_by_op reqs !! op = Some r -> r ∈ reqs /\ req_op r = op.
Proof.
  unfold req_by_op. induction reqs as [|x l IH] using rev_ind; [simpl; by rewrite lookup_empty|].
  rewrite foldl_app. simpl. intros [[<- <-]|[_ Hr]]%lookup_insert_Some; [set_solver|].
  apply IH in Hr. set_solver.
Qed.

Lemma validate_no_overlap_intro reqs m :
  (forall r1 r2 a1 a2, r1 ∈ reqs -> r2 ∈ reqs -> r1 <> r2 -> size r1 <> 0 -> size r2 <> 0 ->
     m !! req_op r1 = Some a1 -> m !! req_op r2 = Some a2 -> spilled a1 = false ->
     spilled a2 = false -> life_overlap r1 r2 = true ->
     off_overlap (r1, offset a1) (r2, offset a2) = false) ->
  validate_no_overlap reqs m = true.
Proof.
  intros H. unfold validate_no_overlap. apply pairs_ok_pairwise.
  eapply pairwise_omap; [|apply pairwise_distinct_keys, NoDup_fst_map_to_list].
  intros [op1 a1] [op2 a2] p1 p2 (Hi1 & Hi2 & Hne). simpl in Hne.
  apply elem_of_map_to_list in Hi1, Hi2. unfold placed_of. simpl.
  destruct (spilled a1) eqn:Es1, (spilled a2) eqn:Es2; try done.
  destruct (req_by_op reqs !! op1) as [r1|] eqn:E1; [|done].
  destruct (req_by_op reqs !! op2) as [r2|] eqn:E2; [|done].
  apply req_by_op_sound in E1 as [? <-], E2 as [? <-].
  destruct (size r1 =? 0) eqn:Ez1, (size r2 =? 0) eqn:Ez2; try done. bool_prop.
  intros. simplify_eq. unfold compatible. simpl.
  destruct (life_overlap r1 r2) eqn:El; [|done]. simpl.
  eapply H; [done|done| |done..]. intros ->. done.
Qed.

Lemma disjoint_off_overlap r1 r2 o1 o2 :
  0 <= o1 -> 0 <= o2 -> o1 + size r1 < 2 ^ 64 -> o2 + size r2 < 2 ^ 64 ->
  0 <= size r1 -> 0 <= size r2 ->
  disjoint_ranges (o1, size r1) (o2, size r2) -> off_overlap (r1, o1) (r2, o2) = false.
Proof.
  unfold disjoint_ranges, off_overlap. simpl. intros. unwrap.
  apply andb_false_iff. rewrite !Z.ltb_ge. lia.
Qed.

(** ** The whole allocation *)

Definition well_formed (al : Z) (reqs : list AllocRequest) : Prop :=
  (forall r, r ∈ reqs -> req_ok al r) /\ NoDup (map req_op reqs) /\ sum_by size reqs < 2 ^ 62.

Lemma well_formed_perm al l k : l ≡ₚ k -> well_formed al l -> well_formed al k.
Proof.
  intros Hp (Hok & Hnd & Hsum). split_and!.
  - intros r. rewrite <- Hp. apply Hok.
  - rewrite <- (Permutation_map req_op Hp). done.
  - by rewrite <- (sum_by_perm size _ _ Hp).
Qed.

(** The state after all groups, and the final map. *)
Lemma groups_state al budget sorted :
  0 < al -> 0 <= budget < 2 ^ 62 -> well_formed al sorted ->
  pairwise (fun a b => life_begin a <= life_begin b) sorted ->
  let st := foldl (process_group al budget) init_state (make_groups sorted) in
  (exists b, Inv al budget b (filter (fun r => size r <> 0) sorted) st) /\
  (sum_by size sorted <= budget -> unspilled (allocs st)).
Proof.
  intros Hal Hbud (Hok & Hnd & Hsum) Hsorted.
  destruct (make_groups_spec sorted) as [Hc Hg]; [intros; by apply Hok|lia|].
  assert (Hgs : pairwise (fun g h => g_begin g <= g_begin h) (make_groups sorted)).
  { eapply groups_sorted; [exact Hc|done|].
    clear -Hsorted. induction sorted as [|r l IH]; [constructor|].
    apply pairwise_cons in Hsorted as [Hx Hl]. rewrite filter_cons. case_decide; [|by apply IH].
    apply pairwise_cons. split; [|by apply IH]. intros y [_ Hy]%list_elem_of_filter. by apply Hx. }
  set (b0 := match make_groups sorted with [] => 0 | g :: _ => g_begin g end).
  assert (Hb0 : forall g, g ∈ make_groups sorted -> b0 <= g_begin g /\ group_ok g).
  { intros g Hin. split; [|by apply Hg]. subst b0. destruct (make_groups sorted) as [|g0 gs]; [set_solver|].
    apply pairwise_cons in Hgs as [Hx _]. apply elem_of_cons in Hin as [->|Hin]; [lia|by apply Hx]. }
  assert (Hok' : forall r, r ∈ concat (map members (make_groups sorted)) -> req_ok al r).
  { intros r. rewrite Hc. intros [_ Hr]%list_elem_of_filter. by apply Hok. }
  assert (Hnd' : NoDup (map req_op (concat (map members (make_groups sorted))))).
  { rewrite Hc. clear -Hnd. induction sorted as [|r l IH]; [constructor|].
    simpl in Hnd. apply NoDup_cons in Hnd as [Hnin Hnd]. rewrite filter_cons.
    case_decide; [|by apply IH]. simpl. apply NoDup_cons. split; [|by apply IH].
    intros (y & Hy & [_ Hin]%list_elem_of_filter)%elem_of_map. apply Hnin, elem_of_map. by exists y. }
  assert (Hs' : sum_by size (concat (map members (make_groups sorted))) = sum_by size sorted).
  { rewrite Hc. apply sum_by_filter_nonzero. }
  simpl. split.
  - destruct (process_groups_inv al budget Hal Hbud (make_groups sorted) b0 [] init_state)
      as [b Hb]; [by apply inv_init|done..|lia|]. exists b. by rewrite <- Hc.
  - intros Hfit. eapply (process_groups_unspilled al budget Hal Hbud _ b0 []); [by apply inv_init|done..|lia| |].
    + intros op r. simpl. by rewrite lookup_empty.
    + simpl. lia.
Qed.

(** What a call leaves when the check passes. *)
Lemma allocation_facts al budget reqs :
  0 < al -> 0 <= budget < 2 ^ 62 -> well_formed al reqs ->
  exists a, allocate_with_lifetime reqs budget al = Some a /\
    (0 <= lifetime_used a <= budget /\
     lifetime_saved a = Z.max 0 (sum_by size reqs - lifetime_used a)) /\
    (forall op, is_Some (get_allocation a op) <-> op ∈ map req_op reqs) /\
    (forall r x, r ∈ reqs -> get_allocation a (req_op r) = Some x -> spilled x = false ->
       0 <= offset x /\ offset x + size r <= lifetime_used a /\ (al | offset x)) /\
    (forall r1 r2 x1 x2, r1 ∈ reqs -> r2 ∈ reqs -> r1 <> r2 ->
       get_allocation a (req_op r1) = Some x1 -> get_allocation a (req_op r2) = Some x2 ->
       spilled x1 = false -> spilled x2 = false -> life_meet r1 r2 ->
       disjoint_ranges (offset x1, size r1) (offset x2, size r2)) /\
    (sum_by size reqs <= budget ->
       forall op x, get_allocation a op = Some x -> spilled x = false).
Proof.
  intros Hal Hbud Hwf. unfold get_allocation, allocate_with_lifetime.
  destruct reqs as [|r0 rs] eqn:Ereqs.
  { eexists. split; [done|]. simpl. split_and!; [lia..| | | |].
    - intros op. rewrite lookup_empty. split; [intros [? ?]; done|set_solver].
    - intros ? ?. set_solver.
    - intros ? ? ? ?. set_solver.
    - intros _ op x. by rewrite lookup_empty. }
  rewrite <- Ereqs in *. clear r0 rs Ereqs.
  pose proof (std_sort_perm req_lt reqs) as Hperm.
  assert (Hwf' : well_formed al (std_sort req_lt reqs)) by (by eapply well_formed_perm).
  destruct (groups_state al budget (std_sort req_lt reqs)) as [[b HI] Hun];
    [done|done|done|apply sorted_by_begin|].
  assert (Hin : forall r, r ∈ std_sort req_lt reqs <-> r ∈ reqs) by (intros; by rewrite Hperm).
  rewrite (sum_by_perm size _ _ Hperm) in Hun.
  assert (Htot : foldl (fun a r => u64 (a + size r)) 0 (std_sort req_lt reqs) = sum_by size reqs).
  { destruct Hwf' as (Hok & _ & Hs). rewrite foldl_u64_sum; [|intros; by apply Hok|lia|lia].
    by rewrite (sum_by_perm size _ _ Hperm). }
  rewrite Htot. clear Htot.
  remember (std_sort req_lt reqs) as sorted eqn:Esorted. clear Esorted.
  remember (foldl (process_group al budget) init_state (make_groups sorted)) as st eqn:Est.
  clear Est. destruct HI as [Ihw Ihwal _ _ Idom Iplaced Isafe].
  destruct Hwf' as (Hok & Hnd & Hsum).
  destruct (place_empty_spec sorted (next_block_id st) (allocs st) Hnd) as [Hother Hempty].
  destruct (foldl place_empty _ _) as [bid m] eqn:Hf. simpl in Hother, Hempty. clear Hf bid.
  assert (Hfull : forall r, r ∈ sorted -> size r <> 0 -> m !! req_op r = allocs st !! req_op r).
  { intros r Hr Hsz. apply Hother. intros r' Hr' Hz Heq.
    apply Hsz. rewrite <- Hz. f_equal. by apply (NoDup_map_inj req_op sorted). }
  assert (Hfacts : forall r x, r ∈ sorted -> m !! req_op r = Some x -> spilled x = false ->
    (size r <> 0 /\ placed st r (offset x)) \/ (size r = 0 /\ offset x = 0)).
  { intros r x Hr Hx Hs. destruct (decide (size r = 0)) as [Hz|Hz].
    - right. destruct (Hempty r Hr Hz) as [b' Hb']. rewrite Hb' in Hx. by simplify_eq.
    - left. split; [done|]. rewrite Hfull in Hx by done. destruct x as [o bid' s]. simpl in *.
      subst s. by exists bid'. }
  assert (Hbounds : forall r x, r ∈ sorted -> m !! req_op r = Some x -> spilled x = false ->
    0 <= offset x /\ offset x + size r <= high_water st /\ (al | offset x)).
  { intros r x Hr Hx Hs. destruct (Hfacts r x Hr Hx Hs) as [[Hz Hp]|[-> ->]].
    - destruct (Iplaced r (offset x)) as (? & ? & ? & _); [|done|done].
      by apply list_elem_of_filter.
    - split_and!; [lia|lia|apply Z.divide_0_r]. }
  assert (Hdisj : forall r1 r2 x1 x2, r1 ∈ sorted -> r2 ∈ sorted -> r1 <> r2 ->
    m !! req_op r1 = Some x1 -> m !! req_op r2 = Some x2 ->
    spilled x1 = false -> spilled x2 = false -> life_meet r1 r2 ->
    disjoint_ranges (offset x1, size r1) (offset x2, size r2)).
  { intros r1 r2 x1 x2 Hr1 Hr2 Hne Hx1 Hx2 Hs1 Hs2 Hlo.
    destruct (Hbounds r1 x1) as (? & ? & _); [done..|].
    destruct (Hbounds r2 x2) as (? & ? & _); [done..|].
    destruct (Hfacts r1 x1) as [[Hz1 Hp1]|[Hz1 Hp1]]; [done..| |unfold disjoint_ranges; simpl; lia].
    destruct (Hfacts r2 x2) as [[Hz2 Hp2]|[Hz2 Hp2]]; [done..| |unfold disjoint_ranges; simpl; lia].
    apply (Isafe r1 r2); [by apply list_elem_of_filter..|done|done|done|done]. }
  rewrite validate_no_overlap_intro.
  2: { intros r1 r2 a1 a2 Hr1 Hr2 Hne _ _ Hx1 Hx2 Hs1 Hs2 Hlo.
       destruct (Hbounds r1 a1) as (? & ? & _); [done..|].
       destruct (Hbounds r2 a2) as (? & ? & _); [done..|].
       destruct (Hok r1) as [? _]; [done|]. destruct (Hok r2) as [? _]; [done|].
       apply disjoint_off_overlap; [lia..|]. by apply Hdisj, life_overlap_meet. }
  eexists. split; [done|]. simpl. setoid_rewrite <- Hin.
  split_and!; [lia|lia|repeat case_bool; lia| |done|done|].
  - intros op. rewrite <- (Permutation_map req_op Hperm). split.
    + intros Hsome. destruct (decide (op ∈ map req_op sorted)) as [?|Hnot]; [done|].
      rewrite Hother in Hsome.
      * apply Idom in Hsome as (r & [_ Hr]%list_elem_of_filter & <-).
        apply elem_of_map. by exists r.
      * intros r Hr _ <-. apply Hnot, elem_of_map. by exists r.
    + intros (r & -> & Hr)%elem_of_map. destruct (decide (size r = 0)) as [Hz|Hz].
      * destruct (Hempty r Hr Hz) as [b' ->]. by eexists.
      * rewrite Hfull by done. apply Idom. exists r. split; [|done]. by apply list_elem_of_filter.
  - intros Hfit op x Hx. destruct (decide (op ∈ map req_op sorted)) as [Hop|Hop].
    + apply elem_of_map in Hop as (r & -> & Hr). destruct (decide (size r = 0)) as [Hz|Hz].
      * destruct (Hempty r Hr Hz) as [b' Hb']. rewrite Hb' in Hx. by simplify_eq.
      * rewrite Hfull in Hx by done. by apply (Hun Hfit) in Hx.
    + rewrite Hother in Hx; [by apply (Hun Hfit) in Hx|].
      intros r Hr _ <-. apply Hop, elem_of_map. by exists r.
Qed.

(** C5: on requests whose sizes are multiples of the alignment, with distinct
    op ids, [allocate_with_lifetime] always returns (its overlap check never
    aborts); every request gets a result, the pool use is within the budget,
    each resident tensor is aligned and inside the used part of the pool, and
    two resident tensors whose lifetimes, ends included, have a point in
    common share no byte. *)
Theorem allocate_with_lifetime_safe al budget reqs :
  0 < al -> 0 <= budget < 2 ^ 62 -> well_formed al reqs ->
  exists a, allocate_with_lifetime reqs budget al = Some a /\
    0 <= lifetime_used a <= budget /\
    (forall op, is_Some (get_allocation a op) <-> op ∈ map req_op reqs) /\
    (forall r x, r ∈ reqs -> get_allocation a (req_op r) = Some x -> spilled x = false ->
       0 <= offset x /\ offset x + size r <= lifetime_used a /\ (al | offset x)) /\
    (forall r1 r2 x1 x2, r1 ∈ reqs -> r2 ∈ reqs -> r1 <> r2 ->
       get_allocation a (req_op r1) = Some x1 -> get_allocation a (req_op r2) = Some x2 ->
       spilled x1 = false -> spilled x2 = false -> life_meet r1 r2 ->
       disjoint_ranges (offset x1, size r1) (offset x2, size r2)).
Proof.
  intros Hal Hb Hwf. destruct (allocation_facts al budget reqs) as (a & ? & [? _] & ? & ? & ? & _);
    [done..|]. by exists a.
Qed.

(** Three tensors of 128 bytes: the third starts when the first two are dead
    and reuses the first one's bytes. *)
Definition reuse_requests : list AllocRequest :=
  [mkAllocRequest 1 128 0 1; mkAllocRequest 2 128 0 2; mkAllocRequest 3 128 3 4].

Lemma reuse_requests_ok : well_formed 128 reuse_requests.
Proof.
  split; [|split; [by apply (bool_decide_unpack _); vm_compute|done]].
  intros r. unfold reuse_requests. rewrite !elem_of_cons, elem_of_nil.
  intros [->|[->|[->|H]]]; [..|done]; (split; [simpl; lia|by exists 1]).
Qed.

Lemma allocate_with_lifetime_safe_witness :
  exists a, allocate_with_lifetime reuse_requests 256 128 = Some a /\ 0 <= lifetime_used a <= 256.
Proof.
  destruct (allocate_with_lifetime_safe 128 256 reuse_requests) as (a & Ha & Hu & _);
    [lia|lia|exact reuse_requests_ok|].
  exact (ex_intro _ a (conj Ha Hu)).
Defined.

(** When the requested bytes fit the budget no tensor is spilled, and the
    bytes saved by reuse are the requested bytes that the pool did not need. *)
Theorem allocate_with_lifetime_no_spill al budget reqs :
  0 < al -> 0 <= budget < 2 ^ 62 -> well_formed al reqs -> sum_by size reqs <= budget ->
  exists a, allocate_with_lifetime reqs budget al = Some a /\
    (forall r, r ∈ reqs -> exists x, get_allocation a (req_op r) = Some x /\ spilled x = false) /\
    lifetime_saved a = Z.max 0 (sum_by size reqs - lifetime_used a).
Proof.
  intros Hal Hb Hwf Hfit.
  destruct (allocation_facts al budget reqs) as (a & ? & [? ?] & Hdom & _ & _ & Hun); [done..|].
  exists a. split_and!; [done| |done]. intros r Hr.
  destruct (proj2 (Hdom (req_op r))) as [x Hx]; [apply elem_of_map; by exists r|].
  exists x. split; [done|]. by eapply Hun.
Qed.

Lemma allocate_with_lifetime_no_spill_witness :
  exists a, allocate_with_lifetime reuse_requests 512 128 = Some a /\
    lifetime_saved a = Z.max 0 (384 - lifetime_used a).
Proof.
  destruct (allocate_with_lifetime_no_spill 128 512 reuse_requests) as (a & Ha & _ & Hs);
    [lia|lia|exact reuse_requests_ok|vm_compute; discriminate|].
  exact (ex_intro _ a (conj Ha Hs)).
Defined.

(** The reuse of the example; adjacent free ranges are not merged, so a third
    tensor of 256 bytes would not fit them. *)
Example reuse_requests_saved :
  (a ← allocate_with_lifetime reuse_requests 4096 128; Some (lifetime_used a, lifetime_saved a))
  = Some (256, 128).
Proof. vm_compute. reflexivity. Qed.

(** With sizes that are not multiples of the alignment the allocator is
    not safe.  A group reserves [align_up] of the sum of its sizes, but its
    members advance by [align_up] of each size, so the last members run past
    the reservation: two 1-byte tensors of one group and a third tensor make
    the overlap check abort, and a group that fits the budget places a member
    beyond it. *)
Theorem unaligned_members_overrun :
  allocate_with_lifetime
    [mkAllocRequest 1 1 0 5; mkAllocRequest 2 1 0 5; mkAllocRequest 3 1 1 4] 4096 128 = None /\
  exists a, allocate_with_lifetime [mkAllocRequest 1 1 0 5; mkAllocRequest 2 1 0 5] 128 128 = Some a /\
    get_allocation a 2 = Some (mkAllocResult 128 1 false) /\ lifetime_used a = 128.
Proof.
  split; [vm_compute; reflexivity|].
  eexists. split; [vm_compute; reflexivity|]. vm_compute. done.
Qed.

(** ** The linear allocator *)

Definition bump_ok (s : Bump) : Prop :=
  0 <= pool_size s /\
  (forall b, b ∈ blocks s -> 0 <= mb_offset b /\ 0 < mb_size b /\ mb_offset b + mb_size b <= pool_size s) /\
  pairwise disjoint_ranges (map (fun b => (mb_offset b, mb_size b)) (blocks s)) /\
  (forall p i, block_map s !! p = Some i ->
     exists b, blocks s !! i = Some b /\ is_free b = false /\ p = mb_offset b + 1) /\
  (forall p q i, block_map s !! p = Some i -> block_map s !! q = Some i -> p = q).

Lemma bump_base s k :
  2 <= k < 32 -> 0 <= pool_size s < 2 ^ 62 ->
  let a := 2 ^ k in
  let misalign := Z.land (pool_size s) (a - 1) in
  (if negb (misalign =? 0) then u64 (pool_size s + u64 (a - misalign)) else pool_size s)
  = round_up (pool_size s) a.
Proof.
  intros Hk Hp a misalign. assert (0 < a) by (apply Z.pow_pos_nonneg; lia).
  assert (a < 2 ^ 32) by (apply Z.pow_lt_mono_r; lia).
  assert (Hm : misalign = pool_size s mod a).
  { subst misalign a. replace (2 ^ k - 1) with (Z.ones k) by (rewrite Z.ones_equiv; lia).
    apply Z.land_ones. lia. }
  pose proof (Z.mod_pos_bound (pool_size s) a ltac:(done)).
  rewrite <- round_up_rem, Hm by done. destruct (_ =? 0); simpl; [done|]. by unwrap.
Qed.

Lemma allocate_eq s sz al :
  0 < sz -> (al < 4 \/ exists k, al = 2 ^ k /\ 2 <= k < 32) ->
  0 <= pool_size s -> pool_size s + sz < 2 ^ 62 ->
  let base := round_up (pool_size s) (Z.max 4 al) in
  allocate sz al s = (Some (base + 1),
    mkBump (base + sz) (blocks s ++ [mkMemBlock base sz 0 false false])
      (<[base + 1 := length (blocks s)]> (block_map s))).
Proof.
  intros Hsz Hal Hp Hsum base. unfold allocate. rewrite (proj2 (Z.eqb_neq sz 0)) by lia.
  assert (Ha : exists k, (if al <? 4 then 4 else al) = 2 ^ k /\ 2 <= k < 32 /\ Z.max 4 al = 2 ^ k).
  { destruct Hal as [Hal|(k & -> & Hk)]; [exists 2; case_bool; lia|exists k].
    assert (2 ^ 2 <= 2 ^ k) by (apply Z.pow_le_mono_r; lia).
    case_bool; split_and!; lia. }
  destruct Ha as (k & -> & Hk & Hmax). subst base. rewrite Hmax.
  pose proof (bump_base s k Hk ltac:(lia)) as Hb. simpl in Hb. rewrite Hb.
  assert (0 < 2 ^ k) by (apply Z.pow_pos_nonneg; lia).
  assert (2 ^ k <= 2 ^ 32) by (apply Z.pow_le_mono_r; lia).
  destruct (round_up_spec (pool_size s) (2 ^ k)) as [_ ?]; [done|].
  by unwrap.
Qed.

Lemma allocate_bump_ok s sz al :
  bump_ok s -> 0 < sz -> (al < 4 \/ exists k, al = 2 ^ k /\ 2 <= k < 32) ->
  pool_size s + sz < 2 ^ 62 -> bump_ok (allocate sz al s).2.
Proof.
  intros (Hp & Hb & Hd & Hm & Hi) Hsz Hal Hsum.
  pose proof (allocate_eq s sz al Hsz Hal Hp Hsum) as ->.
  pose proof (round_up_spec (pool_size s) (Z.max 4 al) ltac:(lia)) as [_ Hle].
  set (base := round_up _ _) in *. unfold bump_ok. simpl.
  assert (Hold : forall p i, block_map s !! p = Some i -> (i < length (blocks s))%nat).
  { intros p i Hpi. destruct (Hm p i Hpi) as (b & Hbi & _). by eapply lookup_lt_Some. }
  split; [lia|]. split; [|split; [|split]].
  - intros b [Hin| ->%list_elem_of_singleton]%elem_of_app; simpl; [|lia]. apply Hb in Hin. lia.
  - rewrite map_app. apply pairwise_app. split; [|split; [done|repeat constructor]].
    intros x y (b & -> & Hin)%elem_of_map ->%list_elem_of_singleton.
    apply Hb in Hin. unfold disjoint_ranges. simpl. lia.
  - intros p i [[<- <-]|[_ Hpi]]%lookup_insert_Some.
    + exists (mkMemBlock base sz 0 false false). split; [|done].
      by rewrite lookup_app_r, Nat.sub_diag by lia.
    + destruct (Hm p i Hpi) as (b & Hbi & ?). exists b. split; [|done]. by apply lookup_app_l_Some.
  - intros p q i [[<- <-]|[_ Hpi]]%lookup_insert_Some [[<- ?]|[_ Hqi]]%lookup_insert_Some;
      [done|apply Hold in Hqi; lia|subst i; apply Hold in Hpi; lia|by apply (Hi p q i)].
Qed.


Lemma empty_bump_ok : bump_ok empty_bump.
Proof.
  unfold bump_ok. simpl. split; [lia|]. split; [set_solver|]. split; [constructor|].
  split; intros *; by rewrite lookup_empty.
Qed.

(** The linear allocator keeps its blocks disjoint and inside the pool and
    its pointer map one-to-one on live blocks; an allocation of a positive size
    at an alignment below 4 (taken as 4) or a power of two returns an aligned
    block past every earlier one, and freed space is never reused. *)
Theorem bump_allocate_ok s sz al :
  bump_ok s -> 0 < sz -> (al < 4 \/ exists k, al = 2 ^ k /\ 2 <= k < 32) ->
  pool_size s + sz < 2 ^ 62 ->
  exists p s', allocate sz al s = (Some p, s') /\ bump_ok s' /\
    (Z.max 4 al | p - 1) /\ pool_size s <= p - 1 /\ pool_size s' = p - 1 + sz /\
    (forall b, b ∈ blocks s -> b ∈ blocks s').
Proof.
  intros Hs Hsz Hal Hsum. pose proof (allocate_bump_ok s sz al Hs Hsz Hal Hsum) as Hs'.
  destruct Hs as (Hp & _). rewrite allocate_eq in Hs' |- * by done.
  pose proof (round_up_spec (pool_size s) (Z.max 4 al) ltac:(lia)) as [Hdiv Hle].
  set (base := round_up _ _) in *. eexists _, _. split; [done|].
  replace (base + 1 - 1) with base by lia. simpl in *.
  split_and!; [done|done|lia|lia|set_solver].
Qed.

Lemma bump_allocate_ok_witness : exists p s', allocate 100 128 empty_bump = (Some p, s') /\ bump_ok s'.
Proof.
  destruct (bump_allocate_ok empty_bump 100 128) as (p & s' & H & Hok & _).
  - exact empty_bump_ok.
  - lia.
  - right. exists 7. split; [done|lia].
  - simpl. lia.
  - exact (ex_intro _ p (ex_intro _ s' (conj H Hok))).
Defined.

(** Freeing a live pointer marks its block and no other, and the pointer
    is no longer live. *)
Theorem bump_deallocate_ok s p i :
  bump_ok s -> block_map s !! p = Some i ->
  bump_ok (deallocate p s) /\ block_map (deallocate p s) !! p = None /\
  (forall j, blocks (deallocate p s) !! j =
     if decide (j = i) then set_free <$> (blocks s !! j) else blocks s !! j).
Proof.
  intros (Hp & Hb & Hd & Hm & Hi) Hpi. unfold deallocate. rewrite Hpi. unfold bump_ok. simpl.
  assert (Hl : forall j, alter set_free i (blocks s) !! j =
    if decide (j = i) then set_free <$> (blocks s !! j) else blocks s !! j).
  { intros j. rewrite list_lookup_alter. repeat case_decide; by subst. }
  split; [|split; [apply lookup_delete_eq|done]].
  split; [done|]. split; [|split; [|split]].
  - intros b [j Hj]%list_elem_of_lookup. rewrite Hl in Hj. case_decide.
    + apply fmap_Some in Hj as (b' & Hj & ->). simpl.
      by apply Hb, (list_elem_of_lookup_2 _ j).
    + by apply Hb, (list_elem_of_lookup_2 _ j).
  - replace (map _ (alter set_free i (blocks s)))
      with (map (fun b => (mb_offset b, mb_size b)) (blocks s)); [done|].
    clear. revert i. induction (blocks s) as [|b l IH]; intros [|i]; try done.
    change (alter set_free (S i) (b :: l)) with (b :: alter set_free i l). simpl. f_equal. apply IH.
  - intros q j [Hne Hqj]%lookup_delete_Some. destruct (Hm q j Hqj) as (b & Hbj & ?).
    exists b. split; [|done]. rewrite Hl. case_decide; [|done]. subst j.
    by destruct Hne; apply (Hi p q i).
  - intros q r j [_ Hqj]%lookup_delete_Some [_ Hrj]%lookup_delete_Some. by apply (Hi q r j).
Qed.

Lemma bump_deallocate_ok_witness :
  block_map (deallocate 1 (allocate 100 128 empty_bump).2) !! 1 = None.
Proof.
  destruct (bump_deallocate_ok (allocate 100 128 empty_bump).2 1 0) as (_ & H & _).
  - apply allocate_bump_ok; [exact empty_bump_ok|lia| |simpl; lia].
    right. exists 7. split; [done|lia].
  - reflexivity.
  - exact H.
Defined.

(** The usable VTCM is three quarters of at most 4 MB. *)
Lemma usable_size_bounds v : 0 <= v -> 0 <= usable_size v <= 0x300000 /\ usable_size v <= v.
Proof.
  intros. unfold usable_size, VTCM_4MB_LIMIT.
  pose proof (Z.div_mod (Z.min v 0x400000 * 3) 4 ltac:(lia)).
  pose proof (Z.mod_pos_bound (Z.min v 0x400000 * 3) 4 ltac:(lia)). lia.
Qed.
