(* ===== verification/DdrOffsets.v ===== *)
(** The static offset table of the temporaries
    ([compiler/src/vtcm/ddr_offsets.cpp]): tensor sizes and lifetimes from the
    planned order, allocation in a VTCM pool and a DDR pool, the spill area of
    the tensors that fit neither, and the emitted table. *)
From S2P Require Import Prelude Ir Lifetime.

(** The part of [GraphPrepare] that the table is computed from. *)
Record Graph := mkGraph {
  opdef_map : gmap op_id_t OpDef;
  plan_order : list op_id_t;
  ordering : list op_id_t
}.

Definition get_op_at (g : Graph) (id : op_id_t) : option OpDef := opdef_map g !! id.

Record DdrTempEntry := mkEntry {
  te_op : op_id_t; te_offset : Z; te_size : Z; in_vtcm : bool
}.
Record DdrSpillEntry := mkSpill { se_op : op_id_t; se_offset : Z; se_size : Z }.

(** The planned order, or the topological order of an unscheduled graph. *)
Definition exec_order (g : Graph) : list op_id_t :=
  match plan_order g with [] => ordering g | o => o end.

(** [pos[order[i]] = i]. *)
Definition positions (order : list op_id_t) : gmap op_id_t Z :=
  (foldl (fun '(i, m) id => (i + 1, <[id := u32 i]> m)) (0, ∅) order).2.

(** The bytes of an output, rounded up to 128. *)
Definition tensor_bytes (od : OutputDef) : Z :=
  let elems := foldl (fun acc d => u64 (acc * d)) 1
                 (take (Z.to_nat (Z.min (rank od) 5)) (dims od)) in
  let elems := if elems =? 0 then 1 else elems in
  let es := if (element_size od =? 0) || (4 <? element_size od) then 4 else element_size od in
  Z.land (u64 (u64 (elems * es) + 127)) (u64 (Z.lnot 127)).

(** One consumer in the lifetime loop: a consumer outside the order keeps the
    tensor until the end of the graph. *)
Definition life_step (g : Graph) (pos : gmap op_id_t Z) (n : Z) (acc : bool * Z)
    (cid : op_id_t) : bool * Z :=
  let '(has_consumer, life_end) := acc in
  match get_op_at g cid with
  | None => acc
  | Some c =>
      if is_dead c then acc
      else (true, match pos !! cid with
                  | Some q => Z.max life_end (u32 (q + 1))
                  | None => n
                  end)
  end.

Definition life_end_of (g : Graph) (pos : gmap op_id_t Z) (n p : Z) (od : OpDef) : Z :=
  let '(has_consumer, life_end) :=
    foldl (life_step g pos n) (false, u32 (u32 p + 1)) (consumers od) in
  if has_consumer then life_end else n.

(** The request of the op at position [p]; [None] for an op without a
    temporary. *)
Definition request_at (g : Graph) (pos : gmap op_id_t Z) (n p : Z) (id : op_id_t)
    : option AllocRequest :=
  match get_op_at g id with
  | None => None
  | Some od =>
      if negb (is_enabled od) || is_dead od || is_const od then None
      else match name od with
           | None => None
           | Some nm =>
               if (nm =? "Input")%string || (nm =? "Output")%string then None
               else Some (mkAllocRequest (op_id od) (tensor_bytes (output_def od)) (u32 p)
                            (life_end_of g pos n p od))
           end
  end.

Fixpoint requests_from (g : Graph) (pos : gmap op_id_t Z) (n p : Z) (order : list op_id_t)
    : list AllocRequest :=
  match order with
  | [] => []
  | id :: order =>
      option_list (request_at g pos n p id) ++ requests_from g pos n (p + 1) order
  end.

Definition requests (g : Graph) : list AllocRequest :=
  let order := exec_order g in
  requests_from g (positions order) (u32 (Z.of_nat (length order))) 0 order.

(** The tensors of a pool and the ones it does not hold. *)
Definition split_pool (a : Allocation) (vtcm : bool) (reqs : list AllocRequest)
    : list DdrTempEntry * list AllocRequest :=
  foldl (fun '(entries, rest) r =>
           match get_allocation a (req_op r) with
           | Some x => if spilled x then (entries, rest ++ [r])
                       else (entries ++ [mkEntry (req_op r) (offset x) (size r) vtcm], rest)
           | None => (entries, rest ++ [r])
           end) ([], []) reqs.

(** The spill area, in order of the op ids; nothing is recorded when the
    caller passes no spill list. *)
Definition finalize_spills (spill_reqs : list AllocRequest) (want_spills : bool)
    : list DdrSpillEntry * Z :=
  let sorted := std_sort (fun a b => req_op a <? req_op b) spill_reqs in
  if want_spills then
    foldl (fun '(out, total) r =>
             (out ++ [mkSpill (req_op r) total (size r)], u64 (total + size r))) ([], 0) sorted
  else ([], 0).

Record DdrOffsets := mkDdrOffsets {
  entries : list DdrTempEntry; cap_out : Z;
  spilled_out : list DdrSpillEntry; spill_total : Z
}.

(** Two ways to fail: there is no execution order (the code returns -1), and
    the allocator's overlap check aborts the process. *)
Inductive DdrError := NoOrder | OverlapAbort.

Definition compute_ddr_offsets (g : Graph) (budget vtcm_budget : Z) (want_spills : bool)
    : DdrOffsets + DdrError :=
  match exec_order g with
  | [] => inr NoOrder
  | _ =>
      let reqs := requests g in
      let total := foldl (fun a r => u64 (a + size r)) 0 reqs in
      let cap := if budget =? 0 then total else budget in
      if 0 <? vtcm_budget then
        match allocate_with_lifetime reqs vtcm_budget 128 with
        | None => inr OverlapAbort
        | Some vac =>
            let '(v_entries, ddr_reqs) := split_pool vac true reqs in
            match allocate_with_lifetime ddr_reqs cap 128 with
            | None => inr OverlapAbort
            | Some dac =>
                let '(d_entries, spill_reqs) := split_pool dac false ddr_reqs in
                let '(sp, st) := finalize_spills spill_reqs want_spills in
                inl (mkDdrOffsets (v_entries ++ d_entries) cap sp st)
            end
        end
      else
        match allocate_with_lifetime reqs cap 128 with
        | None => inr OverlapAbort
        | Some ac =>
            let '(d_entries, spill_reqs) := split_pool ac false reqs in
            let '(sp, st) := finalize_spills spill_reqs want_spills in
            inl (mkDdrOffsets d_entries cap sp st)
        end
  end.

(** [emit_ddr_offset_table]: one row per entry, the lifetime computed again. *)
Record Row := mkRow { row_op : op_id_t; row_offset : Z; row_size : Z; row_lb : Z; row_le : Z }.

Definition emit_row (g : Graph) (pos : gmap op_id_t Z) (n : Z) (e : DdrTempEntry) : Row :=
  let '(lb, le) :=
    match pos !! te_op e with
    | None => (0, 0)
    | Some p =>
        match get_op_at g (te_op e) with
        | None => (p, u32 (p + 1))
        | Some od =>
            let '(has_consumer, le) :=
              foldl (life_step g pos n) (false, u32 (p + 1)) (consumers od) in
            (p, if has_consumer then le else n)
        end
    end in
  mkRow (te_op e) (te_offset e) (te_size e) lb le.

Definition emit_ddr_offset_table (g : Graph) (budget : Z) : (Z * list Row) + DdrError :=
  match compute_ddr_offsets g budget 0 false with
  | inr e => inr e
  | inl t =>
      let order := exec_order g in
      inl (cap_out t,
           map (emit_row g (positions order) (u32 (Z.of_nat (length order)))) (entries t))
  end.

(** ** Sizes *)

Lemma tensor_bytes_ok od : 0 <= tensor_bytes od /\ (128 | tensor_bytes od).
Proof.
  unfold tensor_bytes. set (x := u64 (u64 _ + 127)).
  change (Z.lnot 127) with (Z.lnot (Z.ones 7)).
  rewrite land_high_u64 by (split; try apply u64_range; lia). change (2 ^ 7) with 128.
  assert (0 <= x / 128) by (apply Z.div_pos; [apply u64_range|lia]).
  split; [lia|apply Z.divide_factor_r].
Qed.

(** The exact number of elements and the element size that the code uses. *)
Definition elements (od : OutputDef) : Z :=
  Z.max 1 (foldr Z.mul 1 (take (Z.to_nat (Z.min (rank od) 5)) (dims od))).
Definition elem_bytes (od : OutputDef) : Z :=
  if (1 <=? element_size od) && (element_size od <=? 4) then element_size od else 4.

Lemma foldl_mul_exact ds acc :
  (forall d, d ∈ ds -> 1 <= d) -> 1 <= acc -> acc * foldr Z.mul 1 ds < 2 ^ 64 ->
  foldl (fun a d => u64 (a * d)) acc ds = acc * foldr Z.mul 1 ds /\ 1 <= foldr Z.mul 1 ds.
Proof.
  revert acc. induction ds as [|d ds IH]; intros acc Hd Ha Hs; simpl in *; [lia|].
  assert (1 <= d) by (apply Hd; set_solver).
  assert (Hp : 1 <= foldr Z.mul 1 ds).
  { clear -Hd. induction ds as [|e ds IH]; simpl; [lia|].
    assert (1 <= e) by (apply Hd; set_solver).
    assert (1 <= foldr Z.mul 1 ds) by (apply IH; intros x; rewrite !elem_of_cons; set_solver). nia. }
  assert (acc * d < 2 ^ 64) by nia. unwrap. rewrite Z.mul_assoc in *.
  destruct (IH (acc * d)) as [-> _]; [set_solver|nia|lia|]. split; [lia|nia].
Qed.

Lemma foldl_mul_zero ds acc :
  0 ∈ ds -> foldl (fun a d => u64 (a * d)) acc ds = 0.
Proof.
  assert (Hz : forall ds, foldl (fun a d => u64 (a * d)) 0 ds = 0).
  { induction ds0 as [|d l IH]; [done|]. exact IH. }
  revert acc. induction ds as [|d ds IH]; intros acc; [set_solver|].
  intros [<-|Hin]%elem_of_cons; simpl; [|by apply IH]. rewrite Z.mul_0_r. apply Hz.
Qed.

Lemma foldr_mul_zero ds : 0 ∈ ds -> foldr Z.mul 1 ds = 0.
Proof.
  induction ds as [|d ds IH]; [set_solver|].
  intros [<-|Hin]%elem_of_cons; simpl; [done|]. by rewrite IH, Z.mul_0_r.
Qed.

(** ** Positions *)

Definition order_ok (order : list op_id_t) : Prop :=
  NoDup order /\ Z.of_nat (length order) < 2 ^ 32.

Lemma positions_spec order id q :
  order_ok order ->
  positions order !! id = Some q <-> 0 <= q /\ order !! Z.to_nat q = Some id.
Proof.
  unfold positions. intros [Hnd Hlen].
  assert (H : (foldl (fun '(i, m) id => (i + 1, <[id:=u32 i]> m)) (0, (∅ : gmap op_id_t Z)) order).1
              = Z.of_nat (length order) /\
              forall id q, (foldl (fun '(i, m) id => (i + 1, <[id:=u32 i]> m)) (0, (∅ : gmap op_id_t Z)) order).2 !! id = Some q
                <-> 0 <= q /\ order !! Z.to_nat q = Some id); [|by apply H].
  clear id q. induction order as [|x l IH] using rev_ind.
  { split; [done|]. intros id q. simpl. rewrite lookup_empty. by split; [|intros [_ ?]]. }
  rewrite length_app in *. simpl in *. apply NoDup_app in Hnd as (Hnd & Hx & _).
  destruct IH as [IH1 IH2]; [done|lia|]. rewrite foldl_app. simpl.
  destruct (foldl _ _ l) as [i m] eqn:E. simpl in *. subst i. split; [lia|].
  intros id q. rewrite lookup_insert_Some, IH2.
  rewrite wrap_id by lia. split.
  - intros [[<- <-]|[Hne [Hq Hl]]]; (split; [lia|]).
    + by rewrite Nat2Z.id, lookup_app_r, Nat.sub_diag by lia.
    + by apply lookup_app_l_Some.
  - intros [Hq Hl]. apply lookup_app_Some in Hl as [Hl|[Hge Hl]].
    + right. split; [|done]. intros ->. apply (Hx id); [by eapply list_elem_of_lookup_2|set_solver].
    + apply list_lookup_singleton_Some in Hl as [Hn ->]. left. split; [done|lia].
Qed.

(** ** Requests *)

Lemma requests_from_elem g pos n order p r :
  r ∈ requests_from g pos n p order <->
  exists i id, order !! i = Some id /\ request_at g pos n (p + Z.of_nat i) id = Some r.
Proof.
  revert p. induction order as [|x l IH]; intros p; simpl.
  { split; [set_solver|]. intros (i & id & H & _). by rewrite lookup_nil in H. }
  rewrite elem_of_app, elem_of_option_list, IH. split.
  - intros [H|(i & id & Hi & H)].
    + exists 0%nat, x. rewrite Z.add_0_r. done.
    + exists (S i), id. simpl. split; [done|].
      replace (p + Z.of_nat (S i)) with (p + 1 + Z.of_nat i) by lia. done.
  - intros ([|i] & id & Hi & H); simpl in Hi.
    + simplify_eq. rewrite Z.add_0_r in H. by left.
    + right. exists i, id. split; [done|].
      replace (p + 1 + Z.of_nat i) with (p + Z.of_nat (S i)) by lia. done.
Qed.

Definition graph_ok (g : Graph) : Prop :=
  exec_order g <> [] /\ order_ok (exec_order g) /\
  (forall id od, opdef_map g !! id = Some od -> op_id od = id) /\
  sum_by size (requests g) < 2 ^ 62.

Lemma request_at_inv g pos n p id r :
  (forall id od, opdef_map g !! id = Some od -> op_id od = id) ->
  request_at g pos n p id = Some r ->
  exists od, get_op_at g id = Some od /\ req_op r = id /\
    size r = tensor_bytes (output_def od) /\ life_begin r = u32 p /\
    life_end r = life_end_of g pos n p od.
Proof.
  intros Hk. unfold request_at, get_op_at.
  destruct (opdef_map g !! id) as [od|] eqn:E; [|done].
  apply Hk in E. repeat case_match; try done. intros ?; simplify_eq. by exists od.
Qed.

Lemma requests_NoDup g :
  graph_ok g -> NoDup (map req_op (requests g)).
Proof.
  intros (_ & [Hnd _] & Hk & _). unfold requests. generalize (positions (exec_order g)).
  generalize (u32 (Z.of_nat (length (exec_order g)))). intros n pos. generalize 0.
  revert Hnd. generalize (exec_order g). clear -Hk.
  induction l as [|x l IH]; intros Hnd p; [constructor|].
  apply NoDup_cons in Hnd as [Hx Hnd]. simpl. rewrite map_app, NoDup_app. split_and!; [| |by apply IH].
  - destruct (request_at g pos n p x); [apply NoDup_singleton|constructor].
  - intros id (r & -> & Hr)%elem_of_map (r' & Heq & (i & id' & Hi & H)%requests_from_elem)%elem_of_map.
    apply elem_of_option_list in Hr.
    apply (request_at_inv _ _ _ _ _ _ Hk) in Hr as (_ & _ & Hop1 & _).
    apply (request_at_inv _ _ _ _ _ _ Hk) in H as (_ & _ & Hop & _).
    apply Hx. rewrite <- Hop1, Heq, Hop. by eapply list_elem_of_lookup_2.
Qed.

Lemma requests_well_formed g : graph_ok g -> well_formed 128 (requests g).
Proof.
  intros Hg. split; [|split; [by apply requests_NoDup|apply Hg]].
  intros r (i & id & _ & H)%requests_from_elem.
  apply request_at_inv in H as (od & _ & _ & Hs & _); [|apply Hg].
  unfold req_ok. rewrite Hs. apply tensor_bytes_ok.
Qed.

(** ** Lifetimes *)

(** The op of [od], whose output is at [p], is needed when position [q] runs:
    a live consumer does not run before [q] (or is outside the order), or the
    op has no live consumer and is an output of the graph. *)
Definition live_consumer (g : Graph) (od : OpDef) (c : op_id_t) : Prop :=
  c ∈ consumers od /\ exists odc, get_op_at g c = Some odc /\ is_dead odc = false.

Definition needed_at (g : Graph) (od : OpDef) (q : Z) : Prop :=
  (exists c, live_consumer g od c /\
     forall i, exec_order g !! i = Some c -> q <= Z.of_nat i) \/
  (forall c, ~ live_consumer g od c).

Section lifetimes.
Context (g : Graph) (Hg : graph_ok g).
Let n := u32 (Z.of_nat (length (exec_order g))).
Let pos := positions (exec_order g).

Lemma order_length : n = Z.of_nat (length (exec_order g)).
Proof. apply wrap_id. destruct Hg as (_ & [_ ?] & _). lia. Qed.

Lemma pos_spec id q :
  pos !! id = Some q <-> 0 <= q /\ exec_order g !! Z.to_nat q = Some id.
Proof. apply positions_spec, Hg. Qed.

Lemma pos_bound id q : pos !! id = Some q -> 0 <= q < n.
Proof.
  rewrite pos_spec, order_length. intros [? H%lookup_lt_Some]. lia.
Qed.

Lemma life_fold_spec cs b le :
  0 <= le <= n ->
  let r := foldl (life_step g pos n) (b, le) cs in
  le <= r.2 <= n /\
  (r.1 = true <-> b = true \/ exists c odc, c ∈ cs /\ get_op_at g c = Some odc /\ is_dead odc = false) /\
  (forall c odc, c ∈ cs -> get_op_at g c = Some odc -> is_dead odc = false ->
     match pos !! c with Some q => q + 1 | None => n end <= r.2).
Proof.
  simpl. revert b le. induction cs as [|c cs IH]; intros b le Hle; simpl.
  { split; [lia|]. split; [|set_solver]. split; [by left|].
    intros [?|(? & ? & ? & _)]; [done|set_solver]. }
  destruct (get_op_at g c) as [odc|] eqn:Ec; [|].
  2: { destruct (IH b le Hle) as (H1 & H2 & H3). split; [done|]. split.
       - rewrite H2. split; [|]; (intros [?|(x & y & Hx & Hy & ?)]; [by left|]); right.
         + exists x, y. set_solver.
         + apply elem_of_cons in Hx as [->|Hx]; [congruence|]. by exists x, y.
       - intros x y [->|Hx]%elem_of_cons Hy; [congruence|by apply (H3 x y)]. }
  destruct (is_dead odc) eqn:Ed.
  { destruct (IH b le Hle) as (H1 & H2 & H3). split; [done|]. split.
    - rewrite H2. split; (intros [?|(x & y & Hx & Hy & ?)]; [by left|]); right.
      + exists x, y. set_solver.
      + apply elem_of_cons in Hx as [->|Hx]; [congruence|]. by exists x, y.
    - intros x y [->|Hx]%elem_of_cons Hy; [congruence|by apply (H3 x y)]. }
  set (le' := match pos !! c with Some _ => _ | None => _ end).
  assert (Hle' : le <= le' <= n /\ match pos !! c with Some q => q + 1 | None => n end <= le').
  { subst le'. pose proof (wrap_range 32 (Z.of_nat (length (exec_order g)))). fold n in H.
    destruct (pos !! c) as [q|] eqn:Eq; [|lia]. apply pos_bound in Eq.
    rewrite wrap_id by lia. lia. }
  destruct (IH true le' ltac:(lia)) as (H1 & H2 & H3). split; [lia|]. split.
  - rewrite H2. split; [|by left]. intros _. right. exists c, odc. set_solver.
  - intros x y [->|Hx]%elem_of_cons Hy Hd; [lia|by apply (H3 x y)].
Qed.

Lemma life_end_spec p od :
  0 <= p < n ->
  p + 1 <= life_end_of g pos n p od <= n /\
  (forall q, q < n -> needed_at g od q -> q + 1 <= life_end_of g pos n p od).
Proof.
  intros Hp. unfold life_end_of.
  pose proof (wrap_range 32 (Z.of_nat (length (exec_order g)))) as Hn. fold n in Hn.
  rewrite (wrap_id 32 p), wrap_id by lia.
  pose proof (life_fold_spec (consumers od) false (p + 1) ltac:(lia)) as (H1 & H2 & H3).
  destruct (foldl _ _ _) as [hc le]. simpl in *. destruct hc.
  - split; [lia|]. intros q Hq [(c & [Hc (odc & Hoc & Hd)] & Hi)|Hno].
    + specialize (H3 c odc Hc Hoc Hd). destruct (pos !! c) as [i|] eqn:Ei; [|lia].
      apply pos_spec in Ei as [? Ei]. apply Hi in Ei. lia.
    + destruct (proj1 H2 eq_refl) as [?|(c & odc & ? & ? & ?)]; [done|].
      destruct (Hno c). split; [done|by exists odc].
  - split; [lia|]. intros. lia.
Qed.

Lemma requests_elem r :
  r ∈ requests g -> exists p od, exec_order g !! Z.to_nat p = Some (req_op r) /\
    0 <= p < n /\ get_op_at g (req_op r) = Some od /\
    size r = tensor_bytes (output_def od) /\ life_begin r = p /\
    life_end r = life_end_of g pos n p od.
Proof.
  intros (i & id & Hi & H)%requests_from_elem. fold n pos in H.
  apply request_at_inv in H as (od & Hod & <- & Hs & Hb & He); [|apply Hg].
  exists (Z.of_nat i), od. rewrite Nat2Z.id.
  assert (Z.of_nat i < n) by (rewrite order_length; apply lookup_lt_Some in Hi; lia).
  pose proof (wrap_range 32 (Z.of_nat (length (exec_order g)))) as Hn. fold n in Hn.
  rewrite wrap_id in Hb by lia. split_and!; try done; lia.
Qed.

(** A tensor produced while another is still needed has an overlapping
    lifetime. *)
Lemma needed_life_overlap ra rb oda p q :
  ra ∈ requests g -> rb ∈ requests g ->
  exec_order g !! p = Some (req_op ra) -> exec_order g !! q = Some (req_op rb) ->
  (p < q)%nat -> get_op_at g (req_op ra) = Some oda -> needed_at g oda (Z.of_nat q) ->
  life_overlap ra rb = true.
Proof.
  intros Ha Hb Hp Hq Hlt Hoda Hneed.
  apply requests_elem in Ha as (p' & oda' & Hp' & Hpr & Hoda' & _ & Hba & Hea).
  apply requests_elem in Hb as (q' & odb & Hq' & Hqr & _ & _ & Hbb & Heb).
  assert (Hnd : NoDup (exec_order g)) by apply Hg.
  assert (Z.to_nat p' = p) by (eapply NoDup_lookup; eauto).
  assert (Z.to_nat q' = q) by (eapply NoDup_lookup; eauto).
  assert (oda' = oda) as -> by congruence.
  unfold life_overlap. rewrite Hba, Hbb, Hea, Heb.
  destruct (life_end_spec p' oda) as [_ Hx]; [done|].
  destruct (life_end_spec q' odb) as [Hy _]; [done|].
  specialize (Hx q' ltac:(lia)). assert (Z.of_nat q = q') as Eq by lia. rewrite Eq in Hneed. specialize (Hx Hneed).
  apply andb_true_iff. rewrite !Z.ltb_lt. lia.
Qed.
End lifetimes.

(** ** Pools *)

Lemma split_pool_spec a vtcm reqs es rest :
  split_pool a vtcm reqs = (es, rest) ->
  map te_op es ++ map req_op rest ≡ₚ map req_op reqs /\
  (forall r, r ∈ rest -> r ∈ reqs) /\
  sum_by size rest = sum_by size reqs - sum_by te_size es /\
  (forall r x, r ∈ rest -> get_allocation a (req_op r) = Some x -> spilled x = true) /\
  (forall e, e ∈ es -> in_vtcm e = vtcm /\ exists r x, r ∈ reqs /\
     get_allocation a (req_op r) = Some x /\ spilled x = false /\
     te_op e = req_op r /\ te_size e = size r /\ te_offset e = offset x).
Proof.
  unfold split_pool. revert es rest. induction reqs as [|r reqs IH] using rev_ind; intros es rest H.
  { simplify_eq/=. set_solver. }
  rewrite foldl_app in H. simpl in H. destruct (foldl _ _ reqs) as [es0 rest0].
  destruct (IH es0 rest0 eq_refl) as (Hp & Hr & Hs & Hsp & He). clear IH.
  rewrite map_app, sum_by_app. simpl.
  assert (Hold : forall e, e ∈ es0 -> in_vtcm e = vtcm /\ exists r0 x, r0 ∈ reqs ++ [r] /\
     get_allocation a (req_op r0) = Some x /\ spilled x = false /\
     te_op e = req_op r0 /\ te_size e = size r0 /\ te_offset e = offset x).
  { intros e Hin. destruct (He e Hin) as (? & r' & x & ? & ?). split; [done|].
    exists r', x. set_solver. }
  assert (Hkeep : forall x, get_allocation a (req_op r) = x ->
     (forall y, x = Some y -> spilled y = true) -> (es, rest) = (es0, rest0 ++ [r]) ->
     map te_op es ++ map req_op rest ≡ₚ map req_op reqs ++ [req_op r] /\
     (forall r0, r0 ∈ rest -> r0 ∈ reqs ++ [r]) /\
     sum_by size rest = sum_by size reqs + (size r + 0) - sum_by te_size es /\
     (forall r0 x, r0 ∈ rest -> get_allocation a (req_op r0) = Some x -> spilled x = true)).
  { intros x Hx Hy [= -> ->]. rewrite map_app, sum_by_app. simpl.
    split; [by rewrite app_assoc, Hp|]. split; [set_solver|]. split; [lia|].
    intros r0 y [Hin| ->%list_elem_of_singleton]%elem_of_app Hg; [by eapply Hsp|].
    apply Hy. congruence. }
  destruct (get_allocation a (req_op r)) as [x|] eqn:Ex.
  2: { destruct (Hkeep None) as (? & ? & ? & ?); [done..|]. simplify_eq. by split_and!. }
  destruct (spilled x) eqn:Es.
  { destruct (Hkeep (Some x)) as (? & ? & ? & ?); [done|by intros ? [= <-]|done|].
    simplify_eq. by split_and!. }
  simplify_eq. rewrite map_app, sum_by_app. simpl. split_and!; [|set_solver|lia|done|].
  - rewrite <- app_assoc, (Permutation_app_comm [_]), app_assoc, Hp. done.
  - intros e [Hin| ->%list_elem_of_singleton]%elem_of_app; [by apply Hold|].
    split; [done|]. exists r, x. set_solver.
Qed.

(** ** The spill area *)

Definition spill_range (s : DdrSpillEntry) : Z * Z := (se_offset s, se_size s).

(** Consecutive offsets. *)
Lemma pack_spec rs out total :
  (forall r, r ∈ rs -> 0 <= size r) -> 0 <= total -> total + sum_by size rs < 2 ^ 64 ->
  (forall s, s ∈ out -> 0 <= se_offset s /\ se_offset s + se_size s <= total) ->
  pairwise disjoint_ranges (map spill_range out) ->
  let r := foldl (fun '(out, total) r =>
             (out ++ [mkSpill (req_op r) total (size r)], u64 (total + size r))) (out, total) rs in
  map se_op r.1 = map se_op out ++ map req_op rs /\
  map se_size r.1 = map se_size out ++ map size rs /\
  r.2 = total + sum_by size rs /\
  (forall s, s ∈ r.1 -> 0 <= se_offset s /\ se_offset s + se_size s <= r.2) /\
  pairwise disjoint_ranges (map spill_range r.1).
Proof.
  simpl. revert out total. induction rs as [|x rs IH]; intros out total Hnn Ht Hsum Hout Hd; simpl in *.
  { rewrite !app_nil_r, Z.add_0_r. done. }
  assert (0 <= size x) by (apply Hnn; set_solver).
  assert (0 <= sum_by size rs) by (apply sum_by_nonneg; intros; apply Hnn; set_solver).
  unwrap.
  destruct (IH (out ++ [mkSpill (req_op x) total (size x)]) (total + size x))
    as (H1 & H2 & H3 & H4 & H5); [set_solver|lia|lia| | |].
  - intros s [Hs| ->%list_elem_of_singleton]%elem_of_app; [apply Hout in Hs; lia|simpl; lia].
  - rewrite map_app. apply pairwise_app. split_and!; [|done|repeat constructor].
    intros a b (s & -> & Hs)%elem_of_map ->%list_elem_of_singleton.
    apply Hout in Hs. unfold disjoint_ranges. simpl. lia.
  - rewrite H1, H2, H3, !map_app, <- !app_assoc. simpl. split_and!; [done|done|lia| |done].
    intros s Hs. apply H4 in Hs. lia.
Qed.

Lemma finalize_spills_spec reqs :
  (forall r, r ∈ reqs -> 0 <= size r) -> sum_by size reqs < 2 ^ 64 ->
  let r := finalize_spills reqs true in
  map se_op r.1 ≡ₚ map req_op reqs /\ pairwise Z.le (map se_op r.1) /\
  r.2 = sum_by size reqs /\
  (forall s, s ∈ r.1 -> 0 <= se_offset s /\ se_offset s + se_size s <= r.2) /\
  pairwise disjoint_ranges (map spill_range r.1).
Proof.
  intros Hnn Hsum. unfold finalize_spills.
  pose proof (std_sort_perm (fun a b => req_op a <? req_op b) reqs) as Hp.
  destruct (pack_spec (std_sort (fun a b => req_op a <? req_op b) reqs) [] 0)
    as (H1 & _ & H3 & H4 & H5);
    [intros r; rewrite Hp; apply Hnn|lia|by rewrite (sum_by_perm size _ _ Hp)|set_solver|constructor|].
  simpl. rewrite H1, H3. simpl. split_and!; [by apply Permutation_map, Hp| | | |done].
  - assert (Hs : pairwise (not_after (fun a b => req_op a <? req_op b))
                   (std_sort (fun a b => req_op a <? req_op b) reqs)).
    { apply std_sort_sorted; intros *; rewrite ?Z.ltb_lt, ?Z.ltb_ge; lia. }
    clear -Hs. induction Hs as [|x l Hl IH Hx]; simpl; constructor; [done|].
    rewrite Forall_forall. intros y (z & -> & Hz)%elem_of_map.
    rewrite Forall_forall in Hx. specialize (Hx z Hz). simpl in Hx. by apply Z.ltb_ge.
  - by rewrite (sum_by_perm size _ _ Hp).
  - intros s Hs. specialize (H4 s Hs). lia.
Qed.

(** ** The table *)

(** What one pool's allocation gives. *)
Lemma pool_facts reqs pool :
  well_formed 128 reqs -> 0 <= pool < 2 ^ 62 ->
  exists a, allocate_with_lifetime reqs pool 128 = Some a /\
  forall vtcm es rest, split_pool a vtcm reqs = (es, rest) ->
    (map te_op es ++ map req_op rest ≡ₚ map req_op reqs /\ well_formed 128 rest /\
     (forall r, r ∈ rest -> r ∈ reqs) /\ (sum_by size reqs <= pool -> rest = [])) /\
    (forall e, e ∈ es -> in_vtcm e = vtcm /\ 0 <= te_offset e /\
       te_offset e + te_size e <= pool /\ (128 | te_offset e) /\
       exists r, r ∈ reqs /\ te_op e = req_op r /\ te_size e = size r) /\
    (forall ra rb ea eb, ra ∈ reqs -> rb ∈ reqs -> ra <> rb -> ea ∈ es -> eb ∈ es ->
       te_op ea = req_op ra -> te_op eb = req_op rb -> life_overlap ra rb = true ->
       disjoint_ranges (te_offset ea, te_size ea) (te_offset eb, te_size eb)).
Proof.
  intros Hwf Hpool.
  destruct (allocation_facts 128 pool reqs) as (a & Ha & [Hu _] & Hdom & Hb & Hd & Hun); [lia|done..|].
  exists a. split; [done|]. intros vtcm es rest Hsp.
  apply split_pool_spec in Hsp as (Hp & Hr & Hs & Hsx & He).
  pose proof Hwf as (Hok & Hnd & Hsum). split; [split_and!|split]; [done| |done| | |].
  - split; [intros; by apply Hok, Hr|]. split.
    + rewrite <- Hp in Hnd. by apply NoDup_app in Hnd as (_ & _ & ?).
    + assert (0 <= sum_by te_size es); [|lia]. apply sum_by_nonneg. intros e Hin.
      apply He in Hin as (_ & r & x & Hin & _ & _ & _ & -> & _). by apply Hok.
  - intros Hfit. destruct rest as [|r rest]; [done|]. exfalso.
    destruct (proj2 (Hdom (req_op r))) as [x Hx].
    { apply elem_of_map. exists r. split; [done|]. apply Hr. set_solver. }
    specialize (Hsx r x ltac:(set_solver) Hx). rewrite (Hun Hfit _ _ Hx) in Hsx. done.
  - intros e Hin. apply He in Hin as (Hv & r & x & Hin & Hx & Hnsp & ? & -> & ->).
    destruct (Hb r x Hin Hx Hnsp) as (? & ? & ?). split_and!; [done|lia|lia|done|by exists r].
  - intros ra rb ea eb Hra Hrb Hne Hea Heb Hopa Hopb Hlo.
    apply He in Hea as (_ & ra' & xa & Hina & Hxa & Hna & Hoa & -> & ->).
    apply He in Heb as (_ & rb' & xb & Hinb & Hxb & Hnb & Hob & -> & ->).
    assert (ra' = ra) as -> by (apply (NoDup_map_inj req_op reqs); congruence).
    assert (rb' = rb) as -> by (apply (NoDup_map_inj req_op reqs); congruence).
    apply (Hd ra rb xa xb); [done..|]. by apply life_overlap_meet.
Qed.

Definition pool_of (vtcm_budget : Z) (t : DdrOffsets) (e : DdrTempEntry) : Z :=
  if in_vtcm e then vtcm_budget else cap_out t.

(** A table whose entries are inside their pools and, in one pool, disjoint
    where the lifetimes overlap; the spills are the tensors without an entry. *)
Definition table_ok (reqs : list AllocRequest) (vtcm_budget : Z) (es : list DdrTempEntry)
    (cap : Z) (rest : list AllocRequest) : Prop :=
  map te_op es ++ map req_op rest ≡ₚ map req_op reqs /\
  well_formed 128 rest /\
  (forall e, e ∈ es -> 0 <= te_offset e /\
     te_offset e + te_size e <= (if in_vtcm e then vtcm_budget else cap) /\ (128 | te_offset e)) /\
  (forall ra rb ea eb, ra ∈ reqs -> rb ∈ reqs -> ra <> rb -> ea ∈ es -> eb ∈ es ->
     in_vtcm ea = in_vtcm eb ->
     te_op ea = req_op ra -> te_op eb = req_op rb -> life_overlap ra rb = true ->
     disjoint_ranges (te_offset ea, te_size ea) (te_offset eb, te_size eb)) /\
  (sum_by size reqs <= cap -> rest = []).

Lemma one_pool reqs cap vb :
  well_formed 128 reqs -> 0 <= cap < 2 ^ 62 ->
  exists a, allocate_with_lifetime reqs cap 128 = Some a /\
  forall es rest, split_pool a false reqs = (es, rest) -> table_ok reqs vb es cap rest.
Proof.
  intros Hwf Hcap. destruct (pool_facts reqs cap Hwf Hcap) as (a & Ha & Hsp).
  exists a. split; [done|]. intros es rest H.
  destruct (Hsp false es rest H) as ((? & ? & ? & ?) & He & Hd). split_and!; [done|done| | |done].
  - intros e Hin. destruct (He e Hin) as (-> & ? & ? & ? & _). done.
  - intros ra rb ea eb Hra Hrb Hne Hea Heb _. by apply (Hd ra rb ea eb).
Qed.

Lemma two_pools reqs cap vb :
  well_formed 128 reqs -> 0 <= cap < 2 ^ 62 -> 0 <= vb < 2 ^ 62 ->
  exists a, allocate_with_lifetime reqs vb 128 = Some a /\
  forall ves dreqs, split_pool a true reqs = (ves, dreqs) ->
  exists b, allocate_with_lifetime dreqs cap 128 = Some b /\
  forall des rest, split_pool b false dreqs = (des, rest) ->
    table_ok reqs vb (ves ++ des) cap rest.
Proof.
  intros Hwf Hcap Hvb. destruct (pool_facts reqs vb Hwf Hvb) as (a & Ha & Hspa).
  exists a. split; [done|]. intros ves dreqs H.
  destruct (Hspa true ves dreqs H) as ((Hp & Hwfd & Hsub & _) & He & Hd).
  destruct (pool_facts dreqs cap Hwfd Hcap) as (b & Hb & Hspb).
  exists b. split; [done|]. intros des rest H'.
  destruct (Hspb false des rest H') as ((Hp' & Hwfr & _ & Hfit) & He' & Hd').
  assert (Hnd : NoDup (map req_op reqs)) by apply Hwf.
  assert (Hin : forall e r, e ∈ des -> r ∈ reqs -> te_op e = req_op r -> r ∈ dreqs).
  { intros e r Hin Hr Hop. destruct (He' e Hin) as (_ & _ & _ & _ & r' & Hr' & Hop' & _).
    assert (r' = r) as <-; [|done].
    apply (NoDup_map_inj req_op reqs); [done|by apply Hsub|done|congruence]. }
  split_and!; [|done| | |].
  - by rewrite map_app, <- app_assoc, Hp'.
  - intros e [Hine|Hine]%elem_of_app.
    + destruct (He e Hine) as (-> & ? & ? & ? & _). done.
    + destruct (He' e Hine) as (-> & ? & ? & ? & _). done.
  - intros ra rb ea eb Hra Hrb Hne [Hea|Hea]%elem_of_app [Heb|Heb]%elem_of_app Hv Hopa Hopb Hlo.
    + by apply (Hd ra rb ea eb).
    + destruct (He _ Hea) as [? _], (He' _ Heb) as [? _]. congruence.
    + destruct (He' _ Hea) as [? _], (He _ Heb) as [? _]. congruence.
    + apply (Hd' ra rb ea eb); [by apply (Hin ea)|by apply (Hin eb)|done..].
  - intros Hle. apply Hfit. clear -Hle H Hwf.
    apply split_pool_spec in H as (_ & _ & Hs & _ & He).
    assert (0 <= sum_by te_size ves); [|lia]. apply sum_by_nonneg. intros e Hin.
    apply He in Hin as (_ & r & x & Hin & _ & _ & _ & -> & _). by apply Hwf.
Qed.

Lemma table_facts g budget vb w :
  graph_ok g -> 0 <= budget < 2 ^ 62 -> 0 <= vb < 2 ^ 62 ->
  exists t rest, compute_ddr_offsets g budget vb w = inl t /\
    cap_out t = (if budget =? 0 then sum_by size (requests g) else budget) /\
    table_ok (requests g) vb (entries t) (cap_out t) rest /\
    (spilled_out t, spill_total t) = finalize_spills rest w.
Proof.
  intros Hg Hb Hv. pose proof (requests_well_formed g Hg) as Hwf.
  unfold compute_ddr_offsets.
  assert (Hno : exec_order g <> []) by apply Hg. destruct (exec_order g) as [|x xs] eqn:Eo; [done|].
  clear Hno Eo.
  assert (Hnn : 0 <= sum_by size (requests g)) by (apply sum_by_nonneg; intros; by apply Hwf).
  rewrite foldl_u64_sum; [|intros; by apply Hwf|lia|destruct Hwf as (_ & _ & ?); lia].
  simpl Z.add. set (cap := if budget =? 0 then _ else _).
  assert (Hcap : 0 <= cap < 2 ^ 62).
  { subst cap. destruct Hwf as (_ & _ & ?). case_bool; lia. }
  destruct (0 <? vb) eqn:Ev.
  - destruct (two_pools (requests g) cap vb Hwf Hcap Hv) as (a & -> & Ha).
    destruct (split_pool a true _) as [ves dreqs] eqn:E1.
    destruct (Ha ves dreqs eq_refl) as (b & -> & Hbs).
    destruct (split_pool b false _) as [des rest] eqn:E2. specialize (Hbs des rest eq_refl).
    destruct (finalize_spills rest w) as [sp st] eqn:Ef. by exists (mkDdrOffsets (ves ++ des) cap sp st), rest.
  - destruct (one_pool (requests g) cap vb Hwf Hcap) as (a & -> & Ha).
    destruct (split_pool a false _) as [des rest] eqn:E1. specialize (Ha des rest eq_refl).
    destruct (finalize_spills rest w) as [sp st] eqn:Ef. by exists (mkDdrOffsets des cap sp st), rest.
Qed.

(** A graph of an input, three computing ops and an output. *)
Definition sample_def (elems : Z) : OutputDef := mkOutputDef 4 1 [1; 1; 1; elems; 7] 2.
Definition sample_op (id : Z) (nm : string) (elems : Z) (cs : list Z) : OpDef :=
  mkOpDef id OP_ENABLED (Some nm) (sample_def elems) [] cs.
Definition sample_graph : Graph :=
  mkGraph (list_to_map [(10, sample_op 10 "Input" 700 [11]); (11, sample_op 11 "Conv2d" 700 [12; 13]);
                        (12, sample_op 12 "Relu" 700 [13]); (13, sample_op 13 "Add" 700 [14]);
                        (14, sample_op 14 "Output" 1 [])])
    [10; 11; 12; 13; 14] [].

Lemma sample_graph_ok : graph_ok sample_graph.
Proof.
  split; [done|]. split; [split; [by apply (bool_decide_unpack _); vm_compute|done]|]. split; [|done].
  change (map_Forall (fun id od => op_id od = id) (opdef_map sample_graph)).
  by apply (bool_decide_unpack _); vm_compute.
Qed.

(** For a graph with an execution order and below 2^62 bytes of
    temporaries, the offset table is always produced (no overlap abort); every
    temporary has exactly one entry or spill record; every entry is 128-byte
    aligned and inside its pool; the spill area is packed in order of op ids,
    without overlap. *)
Theorem ddr_offsets_complete g budget vtcm_budget :
  graph_ok g -> 0 <= budget < 2 ^ 62 -> 0 <= vtcm_budget < 2 ^ 62 ->
  exists t, compute_ddr_offsets g budget vtcm_budget true = inl t /\
    map te_op (entries t) ++ map se_op (spilled_out t) ≡ₚ map req_op (requests g) /\
    (forall e, e ∈ entries t -> 0 <= te_offset e /\ (128 | te_offset e) /\
       te_offset e + te_size e <= pool_of vtcm_budget t e) /\
    (forall s, s ∈ spilled_out t -> 0 <= se_offset s /\ se_offset s + se_size s <= spill_total t) /\
    pairwise disjoint_ranges (map spill_range (spilled_out t)) /\
    pairwise Z.le (map se_op (spilled_out t)).
Proof.
  intros Hg Hb Hv. destruct (table_facts g budget vtcm_budget true Hg Hb Hv)
    as (t & rest & Ht & _ & (Hp & Hwf & He & _ & _) & Hfin).
  destruct (finalize_spills_spec rest) as (H1 & H2 & _ & H4 & H5);
    [intros; by apply Hwf|destruct Hwf as (_ & _ & ?); lia|].
  rewrite <- Hfin in *. simpl in *. exists t. split_and!; [done|by rewrite H1| |done..].
  intros e Hin. unfold pool_of. destruct (He e Hin) as (? & ? & ?). done.
Qed.

Lemma ddr_offsets_complete_witness :
  exists t, compute_ddr_offsets sample_graph 1536 1408 true = inl t /\
    map te_op (entries t) ++ map se_op (spilled_out t) ≡ₚ map req_op (requests sample_graph).
Proof.
  destruct (ddr_offsets_complete sample_graph 1536 1408) as (t & Ht & Hp & _);
    [exact sample_graph_ok|lia|lia|].
  exact (ex_intro _ t (conj Ht Hp)).
Defined.

(** Each computing op needs 1408 bytes: one fits VTCM at a time. *)
Example sample_table :
  compute_ddr_offsets sample_graph 1536 1408 true =
  inl (mkDdrOffsets [mkEntry 11 0 1408 true; mkEntry 12 0 1408 false] 1536 [mkSpill 13 0 1408] 1408).
Proof. vm_compute. reflexivity. Qed.

(** C26: no live tensor is overwritten.  If the op [b] runs after [a] while the
    output of [a] is still needed at that position (a live consumer of it runs
    at or after that position or is outside the order, or nothing consumes it),
    then in one pool the two tensors share no byte. *)
Theorem ddr_offsets_no_clobber g budget vtcm_budget t a b oda p q ea eb :
  graph_ok g -> 0 <= budget < 2 ^ 62 -> 0 <= vtcm_budget < 2 ^ 62 ->
  compute_ddr_offsets g budget vtcm_budget true = inl t ->
  exec_order g !! p = Some a -> exec_order g !! q = Some b -> (p < q)%nat ->
  get_op_at g a = Some oda -> needed_at g oda (Z.of_nat q) ->
  ea ∈ entries t -> eb ∈ entries t -> te_op ea = a -> te_op eb = b -> in_vtcm ea = in_vtcm eb ->
  disjoint_ranges (te_offset ea, te_size ea) (te_offset eb, te_size eb).
Proof.
  intros Hg Hb Hv Ht Hpa Hqb Hlt Hoda Hneed Hea Heb <- <- Hpool.
  destruct (table_facts g budget vtcm_budget true Hg Hb Hv)
    as (t' & rest & Ht' & _ & (Hp & _ & _ & Hd & _) & _).
  assert (t' = t) as -> by congruence.
  assert (Hsrc : forall e, e ∈ entries t -> exists r, r ∈ requests g /\ te_op e = req_op r).
  { intros e Hin. assert (H : te_op e ∈ map req_op (requests g)).
    { rewrite <- Hp. apply elem_of_app. left. apply elem_of_map. by exists e. }
    apply elem_of_map in H as (r & ? & ?). by exists r. }
  destruct (Hsrc ea Hea) as (ra & Hra & Ea), (Hsrc eb Heb) as (rb & Hrb & Eb).
  apply (Hd ra rb); [done..| |done|done|done|done|done|].
  - intros ->. assert (p = q); [|lia].
    eapply (NoDup_lookup (exec_order g)); [apply Hg|exact Hpa|]. by rewrite Hqb, Ea, Eb.
  - rewrite Ea in Hpa, Hoda. rewrite Eb in Hqb.
    by eapply (needed_life_overlap g Hg ra rb oda p q).
Qed.

Lemma ddr_offsets_no_clobber_witness :
  disjoint_ranges (0, 1408) (1408, 1408).
Proof.
  destruct (compute_ddr_offsets sample_graph 0 0 true) as [t|] eqn:E; [|vm_compute in E; discriminate].
  apply (ddr_offsets_no_clobber sample_graph 0 0 t 11 12 (sample_op 11 "Conv2d" 700 [12; 13]) 1 2
           (mkEntry 11 0 1408 false) (mkEntry 12 1408 1408 false)).
  - exact sample_graph_ok.
  - lia.
  - lia.
  - exact E.
  - reflexivity.
  - reflexivity.
  - lia.
  - reflexivity.
  - left. exists 13. split; [split; [|eexists; split; reflexivity]|].
    + simpl. apply elem_of_cons. right. apply elem_of_cons. by left.
    + intros i Hi. clear E. simpl in Hi. do 5 (destruct i as [|i]; [first [discriminate|lia]|]). discriminate.
  - vm_compute in E. injection E as <-. simpl. apply elem_of_cons. by left.
  - vm_compute in E. injection E as <-. simpl. apply elem_of_cons. right. apply elem_of_cons. by left.
  - reflexivity.
  - reflexivity.
  - reflexivity.
Defined.

(** With no budget the pool is as large as all tensors together, and
    nothing is spilled. *)
Theorem ddr_offsets_default_budget g vtcm_budget :
  graph_ok g -> 0 <= vtcm_budget < 2 ^ 62 ->
  exists t, compute_ddr_offsets g 0 vtcm_budget true = inl t /\
    map te_op (entries t) ≡ₚ map req_op (requests g) /\ spilled_out t = [] /\
    cap_out t = sum_by size (requests g).
Proof.
  intros Hg Hv. destruct (table_facts g 0 vtcm_budget true Hg) as (t & rest & Ht & Hcap & (Hp & _ & _ & _ & Hfit) & Hfin);
    [lia|done|].
  simpl in Hcap. rewrite Hcap in Hfit. rewrite Hfit in * by lia.
  exists t. split_and!; [done| | |done].
  - simpl in Hp. by rewrite app_nil_r in Hp.
  - by injection Hfin as -> _.
Qed.

Lemma ddr_offsets_default_budget_witness :
  exists t, compute_ddr_offsets sample_graph 0 1408 true = inl t /\ spilled_out t = [].
Proof.
  destruct (ddr_offsets_default_budget sample_graph 1408) as (t & Ht & _ & Hs & _);
    [exact sample_graph_ok|lia|].
  exact (ex_intro _ t (conj Ht Hs)).
Defined.

(** The size of a temporary is its exact number of bytes (an empty output
    counts as one element, an element size outside 1..4 as 4) rounded up to
    128, as long as the byte count fits 64 bits. *)
Theorem tensor_bytes_exact od :
  (forall d, d ∈ dims od -> 0 <= d) -> 0 <= element_size od ->
  elements od * elem_bytes od + 127 < 2 ^ 64 ->
  tensor_bytes od = round_up (elements od * elem_bytes od) 128.
Proof.
  intros Hd Hes Hb. unfold tensor_bytes.
  set (ds := take _ (dims od)).
  assert (Hds : forall d, d ∈ ds -> 0 <= d).
  { intros d Hin. apply Hd. by eapply (subseteq_take _ (dims od)). }
  assert (He : (if foldl (fun acc d => u64 (acc * d)) 1 ds =? 0 then 1
                else foldl (fun acc d => u64 (acc * d)) 1 ds) = elements od).
  { unfold elements in *. fold ds in Hb |- *. destruct (decide (0 ∈ ds)) as [Hz|Hz].
    - rewrite foldl_mul_zero, foldr_mul_zero by done. done.
    - destruct (foldl_mul_exact ds 1) as [-> ?].
      + intros d Hin. specialize (Hds d Hin). destruct (decide (d = 0)) as [->|]; [done|lia].
      + lia.
      + unfold elem_bytes in Hb. destruct (_ && _) eqn:E; bool_prop; nia.
      + rewrite (proj2 (Z.eqb_neq _ 0)); lia. }
  rewrite He. clear He.
  assert (Hel : (if (element_size od =? 0) || (4 <? element_size od) then 4 else element_size od)
                = elem_bytes od).
  { unfold elem_bytes. destruct (_ =? 0) eqn:E1, (4 <? _) eqn:E2, (1 <=? _) eqn:E3, (_ <=? 4) eqn:E4;
      bool_prop; simpl; lia. }
  rewrite Hel. assert (1 <= elements od) by (unfold elements; lia).
  assert (1 <= elem_bytes od).
  { unfold elem_bytes. destruct (_ && _) eqn:E; bool_prop; lia. }
  unwrap. change (Z.lnot 127) with (Z.lnot (Z.ones 7)).
  rewrite land_high_u64 by lia. unfold round_up. do 2 f_equal. lia.
Qed.

Lemma tensor_bytes_exact_witness : tensor_bytes (sample_def 700) = round_up 1400 128.
Proof.
  apply (tensor_bytes_exact (sample_def 700)).
  - intros d. simpl. rewrite !elem_of_cons, elem_of_nil. lia.
  - simpl. lia.
  - vm_compute. reflexivity.
Defined.

(** Entries of the one-pool table. *)
Lemma table_entries g budget t w :
  graph_ok g -> 0 <= budget < 2 ^ 62 -> compute_ddr_offsets g budget 0 w = inl t ->
  (forall e, e ∈ entries t -> exists r, r ∈ requests g /\ te_op e = req_op r /\ te_size e = size r) /\
  (forall e, e ∈ entries t -> in_vtcm e = false).
Proof.
  intros Hg Hb. unfold compute_ddr_offsets. simpl.
  destruct (exec_order g); [done|]. destruct (allocate_with_lifetime _ _ _) as [a|]; [|done].
  destruct (split_pool a false _) as [es rest] eqn:E. destruct (finalize_spills _ _) as [sp st].
  intros [= <-]. simpl. apply split_pool_spec in E as (_ & _ & _ & _ & He).
  split; intros e Hin; destruct (He e Hin) as (? & r & x & ? & _ & _ & ? & ? & _); [by exists r|done].
Qed.

Lemma emit_row_eq g e r :
  graph_ok g -> r ∈ requests g -> te_op e = req_op r -> te_size e = size r ->
  emit_row g (positions (exec_order g)) (u32 (Z.of_nat (length (exec_order g)))) e
  = mkRow (req_op r) (te_offset e) (size r) (life_begin r) (life_end r).
Proof.
  intros Hg Hr Hop Hsz. destruct (requests_elem g Hg r Hr) as (p & od & Hp & Hpn & Hod & _ & Hb & He).
  unfold emit_row. rewrite Hop, Hsz.
  rewrite (proj2 (positions_spec (exec_order g) (req_op r) p (proj1 (proj2 Hg)))) by (split; [lia|done]).
  rewrite Hod, Hb, He. unfold life_end_of.
  pose proof (wrap_range 32 (Z.of_nat (length (exec_order g)))) as Hn.
  rewrite (wrap_id 32 p) by lia. destruct (foldl _ _ _) as [hc le]. by destruct hc.
Qed.

(** The emitted table has a row per entry with the lifetime that the
    allocation used, so in the table itself two rows whose lifetimes overlap
    have disjoint ranges inside the pool. *)
Theorem emit_table_checks g budget :
  graph_ok g -> 0 <= budget < 2 ^ 62 ->
  exists cap rows, emit_ddr_offset_table g budget = inl (cap, rows) /\
    (forall row, row ∈ rows -> 0 <= row_offset row /\ row_offset row + row_size row <= cap /\
       exists r, r ∈ requests g /\ row = mkRow (req_op r) (row_offset row) (size r) (life_begin r) (life_end r)) /\
    (forall x y, x ∈ rows -> y ∈ rows -> row_op x <> row_op y ->
       row_lb x < row_le y -> row_lb y < row_le x ->
       disjoint_ranges (row_offset x, row_size x) (row_offset y, row_size y)).
Proof.
  intros Hg Hb. destruct (table_facts g budget 0 false Hg Hb ltac:(lia))
    as (t & rest & Ht & _ & (_ & _ & He & Hd & _) & _).
  unfold emit_ddr_offset_table. rewrite Ht. eexists _, _. split; [done|].
  destruct (table_entries g budget t false Hg Hb Ht) as [Hsrc Hddr].
  assert (Hrow : forall row, row ∈ map (emit_row g (positions (exec_order g))
      (u32 (Z.of_nat (length (exec_order g))))) (entries t) ->
    exists e r, e ∈ entries t /\ r ∈ requests g /\ te_op e = req_op r /\ te_size e = size r /\
      row = mkRow (req_op r) (te_offset e) (size r) (life_begin r) (life_end r)).
  { intros row (e & -> & Hin)%elem_of_map. destruct (Hsrc e Hin) as (r & Hr & Hop & Hsz).
    exists e, r. split_and!; [done..|]. by apply emit_row_eq. }
  split.
  - intros row (e & r & Hin & Hr & Hop & Hsz & ->)%Hrow. simpl.
    destruct (He e Hin) as (? & Hcap & _). rewrite (Hddr e Hin) in Hcap.
    split_and!; [lia|lia|by exists r].
  - intros x y (ex & rx & Hx & Hrx & Hopx & Hszx & ->)%Hrow
      (ey & ry & Hy & Hry & Hopy & Hszy & ->)%Hrow. simpl. intros Hne Hl1 Hl2.
    rewrite <- Hszx, <- Hszy. apply (Hd rx ry ex ey); [done..| |done|done| |done|done|].
    + intros ->. done.
    + by rewrite !Hddr.
    + unfold life_overlap. apply andb_true_iff. by rewrite !Z.ltb_lt.
Qed.

Lemma emit_table_checks_witness :
  exists cap rows, emit_ddr_offset_table sample_graph 0 = inl (cap, rows) /\
    forall row, row ∈ rows -> 0 <= row_offset row /\ row_offset row + row_size row <= cap.
Proof.
  destruct (emit_table_checks sample_graph 0) as (cap & rows & H & Hr & _);
    [exact sample_graph_ok|lia|].
  exists cap, rows. split; [exact H|]. intros row Hin. destruct (Hr row Hin) as (? & ? & _). split; assumption.
Defined.
