(* ===== verification/CpModel.v ===== *)
(** The problem of the CP oracle ([compiler/src/vtcm/cp_solver.cpp],
    [compiler/include/hnnx/vtcm/cp_solver.hpp]): tensors, options, the
    preprocessing of [CPSolver::Impl], and the adapter that builds a problem
    from the allocation requests. *)
From S2P Require Import Prelude Ir Lifetime.

Record CPTensor := mkTensor {
  ct_id : op_id_t; ct_m : Z; ct_w : Z; ct_C : Z; no_remat : bool
}.

Record CPProblem := mkProblem {
  nodes_of : list CPTensor;
  edges : list (nat * nat);          (** [(u, v)]: [v] consumes [u] *)
  cap_M : Z; budget_W : Z;
  topo_hint : list op_id_t
}.

Definition num_nodes (p : CPProblem) : nat := length (nodes_of p).

Inductive Mode := FULL | PAGING_ONLY | REMAT_ONLY | SEQ_ONLY.
Inductive Objective := DDR_BYTES | PEAK_RESIDENT | TOTAL_COMPUTE.
Inductive CostModel := UNIFORM | BYTES | COST_TABLE.

#[export] Instance Mode_eq_dec : EqDecision Mode.
Proof. solve_decision. Defined.
#[export] Instance Objective_eq_dec : EqDecision Objective.
Proof. solve_decision. Defined.

Record CPOptions := mkOptions {
  mode : Mode; cost_model : CostModel; respect_topo_order : bool;
  node_limit : Z; max_exact_nodes : Z; C_default : Z
}.

Definition remat_allowed (o : CPOptions) : bool :=
  match mode o with FULL | REMAT_ONLY => true | _ => false end.
Definition paging_allowed (o : CPOptions) : bool :=
  match mode o with FULL | PAGING_ONLY => true | _ => false end.

(** ** Preprocessing *)

(** The derived tables of [CPSolver::Impl]; a node is an index. *)
Record Pre := mkPre {
  prob : CPProblem; opts : CPOptions;
  pm : list Z; pw : list Z; pC : list Z;
  preds : list (list nat); cons : list (list nat); outdeg : list Z;
  topo_rank : list Z; topo_seq : list nat;
  may_serve : list bool; sum_w : Z; obj : Objective
}.

(** [std::unique] on the sorted list. *)
Fixpoint unique (l : list nat) : list nat :=
  match l with
  | x :: ((y :: _) as l') => if Nat.eqb x y then unique l' else x :: unique l'
  | _ => l
  end.

Definition sort_unique (l : list nat) : list nat := unique (std_sort Nat.ltb l).

Definition edge_ok (n : nat) (e : nat * nat) : bool :=
  (e.1 <? n)%nat && (e.2 <? n)%nat && negb (e.1 =? e.2)%nat.

Definition preds_of (p : CPProblem) (v : nat) : list nat :=
  sort_unique (map fst (filter (fun e => edge_ok (num_nodes p) e && (e.2 =? v)%nat = true) (edges p))).
Definition cons_of (p : CPProblem) (u : nat) : list nat :=
  sort_unique (map snd (filter (fun e => edge_ok (num_nodes p) e && (e.1 =? u)%nat = true) (edges p))).

(** The topological ranks: the nodes of the hint in its order, then the other
    nodes in index order.  The state is the rank table and the sequence; a
    node is ranked when it is in the sequence. *)
Definition rank_node (acc : list Z * list nat) (v : nat) : list Z * list nat :=
  let '(rank, sq) := acc in
  if decide (v ∈ sq) then acc
  else (<[v := Z.of_nat (length sq)]> rank, sq ++ [v]).

Definition topo_ranks (p : CPProblem) : list Z * list nat :=
  let n := num_nodes p in
  let hinted :=
    foldl (fun acc id =>
      foldl (fun acc '(v, nd) => if ct_id nd =? id then rank_node acc v else acc) acc
        (zip (seq 0 n) (nodes_of p))) (replicate n (-1), []) (topo_hint p) in
  foldl rank_node hinted (seq 0 n).

Definition eff_w (nd : CPTensor) : Z := if ct_w nd =? 0 then 1 else ct_w nd.
Definition eff_C (o : CPOptions) (nd : CPTensor) : Z :=
  let c := if ct_C nd =? 0 then 1 else ct_C nd in
  let c := if no_remat nd then 1 else c in
  if decide (mode o = SEQ_ONLY) then 1 else c.

Definition objective_of (o : CPOptions) : Objective :=
  match mode o with
  | REMAT_ONLY => TOTAL_COMPUTE
  | SEQ_ONLY => PEAK_RESIDENT
  | _ => DDR_BYTES
  end.

Definition preprocess (p : CPProblem) (o : CPOptions) : Pre :=
  let n := num_nodes p in
  let ws := map eff_w (nodes_of p) in
  let Cs := map (eff_C o) (nodes_of p) in
  let preds := map (preds_of p) (seq 0 n) in
  let cons := map (cons_of p) (seq 0 n) in
  let '(rank, sq) := topo_ranks p in
  mkPre p o (map ct_m (nodes_of p)) ws Cs preds cons
    (map (fun cs => u32 (Z.of_nat (length cs))) cons) rank sq
    (map (fun u => remat_allowed o && existsb (fun c => 2 <=? Cs !!! c) (cons !!! u)) (seq 0 n))
    (foldl (fun a x => u64 (a + x)) 0 ws) (objective_of o).

(** ** [build_problem_from_requests]

    [slack_w] is the part of [W] above [sum_w], the product of [sum_w] and the
    slack as a [double], converted to [uint64_t]. *)
Definition kBytesPerW : Z := 2048.

Definition request_weight (o : CPOptions) (sz : Z) : Z :=
  match cost_model o with
  | UNIFORM => 1
  | _ => u64 (1 + (if sz =? 0 then 0 else (sz - 1) / kBytesPerW))
  end.

Definition add_request (o : CPOptions) (acc : list CPTensor * gmap op_id_t nat)
    (r : AllocRequest) : list CPTensor * gmap op_id_t nat :=
  let '(nodes, idx) := acc in
  match idx !! req_op r with
  | Some _ => acc
  | None =>
      (nodes ++ [mkTensor (req_op r) (size r) (request_weight o (size r)) (C_default o) false],
       <[req_op r := length nodes]> idx)
  end.

Definition add_edge (idx : gmap op_id_t nat) (e : op_id_t * op_id_t) : option (nat * nat) :=
  match idx !! e.1, idx !! e.2 with
  | Some a, Some b => if (a =? b)%nat then None else Some (a, b)
  | _, _ => None
  end.

Definition build_problem_from_requests (requests : list AllocRequest)
    (edges : list (op_id_t * op_id_t)) (vtcm_budget : Z) (topo_order : list op_id_t)
    (o : CPOptions) (slack_w : Z -> Z) : CPProblem :=
  let '(nodes, idx) := foldl (add_request o) ([], ∅) requests in
  let sum_w := foldl (fun a t => u64 (a + ct_w t)) 0 nodes in
  let W := u64 (sum_w + slack_w sum_w) in
  mkProblem nodes (omap (add_edge idx) edges) vtcm_budget
    (if W <? sum_w then sum_w else W) topo_order.

(** ** Facts on the tables *)

Lemma unique_elem x l : x ∈ unique l <-> x ∈ l.
Proof.
  induction l as [|y [|z l] IH]; [done|done|].
  change (unique (y :: z :: l)) with (if (y =? z)%nat then unique (z :: l) else y :: unique (z :: l)).
  destruct (Nat.eqb_spec y z) as [->|].
  - rewrite IH. set_solver.
  - rewrite !(elem_of_cons _ x y), IH. done.
Qed.

Lemma unique_NoDup l : StronglySorted le l -> NoDup (unique l).
Proof.
  induction l as [|y [|z l] IH]; intros Hs; [constructor|apply NoDup_singleton|].
  change (unique (y :: z :: l)) with (if (y =? z)%nat then unique (z :: l) else y :: unique (z :: l)).
  apply pairwise_cons in Hs as [Hy Hs]. destruct (Nat.eqb_spec y z) as [->|Hne]; [by apply IH|].
  apply NoDup_cons. split; [|by apply IH]. rewrite unique_elem. intros Hin.
  assert (y <= z)%nat by (apply Hy; set_solver).
  assert (z <= y)%nat; [|lia].
  apply pairwise_cons in Hs as [Hz _]. apply elem_of_cons in Hin as [->|Hin]; [done|by apply Hz].
Qed.

Lemma sort_unique_spec l : NoDup (sort_unique l) /\ forall x, x ∈ sort_unique l <-> x ∈ l.
Proof.
  unfold sort_unique. split; [|intros x; by rewrite unique_elem, std_sort_elem].
  apply unique_NoDup. eapply pairwise_impl; [|apply (std_sort_sorted Nat.ltb)].
  - intros x y. simpl. rewrite Nat.ltb_ge. done.
  - intros x y. rewrite Nat.ltb_lt, Nat.ltb_ge. lia.
  - intros x y z. rewrite !Nat.ltb_ge. lia.
Qed.

Lemma edge_ok_spec n e :
  edge_ok n e = true <-> (e.1 < n)%nat /\ (e.2 < n)%nat /\ e.1 <> e.2.
Proof.
  unfold edge_ok. rewrite !andb_true_iff, negb_true_iff, !Nat.ltb_lt, Nat.eqb_neq. tauto.
Qed.

Lemma preds_of_spec p v :
  NoDup (preds_of p v) /\
  forall u, u ∈ preds_of p v <-> (u, v) ∈ edges p /\ (u < num_nodes p)%nat /\ (v < num_nodes p)%nat /\ u <> v.
Proof.
  unfold preds_of. destruct (sort_unique_spec (map fst (filter (fun e => edge_ok (num_nodes p) e && (e.2 =? v)%nat = true) (edges p)))) as [Hnd Hel].
  split; [done|]. intros u. rewrite Hel, elem_of_map. split.
  - intros ([u' v'] & -> & [He Hin]%list_elem_of_filter). simpl in *.
    apply andb_true_iff in He as [He ->%Nat.eqb_eq]. apply edge_ok_spec in He as (? & ? & ?). done.
  - intros (Hin & Hu & Hv & Hne). exists (u, v). split; [done|]. apply list_elem_of_filter.
    split; [|done]. apply andb_true_iff. rewrite edge_ok_spec, Nat.eqb_refl. done.
Qed.

Lemma cons_of_spec p u :
  NoDup (cons_of p u) /\
  forall v, v ∈ cons_of p u <-> (u, v) ∈ edges p /\ (u < num_nodes p)%nat /\ (v < num_nodes p)%nat /\ u <> v.
Proof.
  unfold cons_of. destruct (sort_unique_spec (map snd (filter (fun e => edge_ok (num_nodes p) e && (e.1 =? u)%nat = true) (edges p)))) as [Hnd Hel].
  split; [done|]. intros v. rewrite Hel, elem_of_map. split.
  - intros ([u' v'] & -> & [He Hin]%list_elem_of_filter). simpl in *.
    apply andb_true_iff in He as [He ->%Nat.eqb_eq]. apply edge_ok_spec in He as (? & ? & ?). done.
  - intros (Hin & Hu & Hv & Hne). exists (u, v). split; [done|]. apply list_elem_of_filter.
    split; [|done]. apply andb_true_iff. rewrite edge_ok_spec, Nat.eqb_refl. done.
Qed.
