(* ===== verification/CpSearch.v ===== *)
(** The exact search of the CP oracle ([CPSolver::Impl] in
    [compiler/src/vtcm/cp_solver.cpp]): the search state, the transitions with
    their undo, the bounds and the depth-first branch and bound. *)
From S2P Require Import Prelude Ir CpModel.

(** [CPSolver::Impl::St]. *)
Inductive St := UNCOMPUTED | LIVE0 | CLOSED_DDR | CLOSED_FREE | LIVE1 | DONE.

#[export] Instance St_eq_dec : EqDecision St.
Proof. solve_decision. Defined.
#[export] Instance St_inhabited : Inhabited St := populate UNCOMPUTED.

Inductive LK := L_COMPUTE | L_REMAT | L_FILL | L_SPILL | L_CLOSE.

#[export] Instance LK_eq_dec : EqDecision LK.
Proof. solve_decision. Defined.

Record Ent := mkEnt { e_slot : Z; e_k : LK; e_v : nat; e_e : Z }.

(** The part of the state that the search undoes.  [log] and [lc_undo] are
    stacks, their last element first. *)
Record Cur := mkCur {
  st : list St; unsched : list Z; last_cons : list Z; lc_undo : list (list Z);
  ncomputed : Z; next_topo : Z;
  resident : Z; spill_b : Z; fill_b : Z; compute_used : Z; computed_w : Z;
  remats : Z; spills : Z; slot_t : Z; log : list Ent
}.

(** The incumbent. *)
Record Inc := mkInc {
  inc_k0 : Z; inc_k1 : Z; inc_k2 : Z; inc_log : list Ent;
  inc_ddr : Z; inc_peak : Z; inc_compute : Z;
  inc_remats : Z; inc_spills : Z; inc_slots : Z
}.

(** The part that backtracking keeps: [seg_start] and [peak] are written by
    [place] and not restored by [unplace]. *)
Record Glob := mkGlob {
  seg_start : list Z; peak : Z; inc : option Inc;
  nodes : Z; aborted : bool; abort_reason : string; frontier_lb : Z
}.

Record Search := mkSearch { cur : Cur; glob : Glob }.

Definition set_nodes (s : Search) (z : Z) : Search :=
  let g := glob s in
  mkSearch (cur s) (mkGlob (seg_start g) (peak g) (inc g) z (aborted g) (abort_reason g) (frontier_lb g)).

Definition tick (s : Search) : Search := set_nodes s (u64 (nodes (glob s) + 1)).

(** [aborted = true; if (abort_reason.empty()) abort_reason = why;] *)
Definition abort (why : string) (s : Search) : Search :=
  let g := glob s in
  mkSearch (cur s) (mkGlob (seg_start g) (peak g) (inc g) (nodes g) true
    (if (abort_reason g =? "")%string then why else abort_reason g) (frontier_lb g)).

Definition set_cur (s : Search) (c : Cur) : Search := mkSearch c (glob s).

Definition set_t (t : Z) (c : Cur) : Cur :=
  mkCur (st c) (unsched c) (last_cons c) (lc_undo c) (ncomputed c) (next_topo c) (resident c)
    (spill_b c) (fill_b c) (compute_used c) (computed_w c) (remats c) (spills c) t (log c).

Record Cand := mkCand { c_kind : Z; c_v : nat; c_rnk : Z }.

Definition cand_lt (a b : Cand) : bool :=
  if negb (c_rnk a =? c_rnk b) then c_rnk a <? c_rnk b
  else if negb (c_kind a =? c_kind b) then c_kind a <? c_kind b
  else (c_v a <? c_v b)%nat.

Section search.
Context (p : Pre) (clock : Z -> bool).   (** the time limit is over at a node count *)

Definition n : nat := num_nodes (prob p).
Definition allow_remat : bool := remat_allowed (opts p).
Definition allow_paging : bool := paging_allowed (opts p).
Definition m_ (v : nat) : Z := pm p !!! v.
Definition w_ (v : nat) : Z := pw p !!! v.
Definition C_ (v : nat) : Z := pC p !!! v.
Definition preds_ (v : nat) : list nat := preds p !!! v.

Definition future_need (c : Cur) (u : nat) : bool := (0 <? unsched c !!! u) || (may_serve p !!! u).

Definition is_live (s : St) : bool := match s with LIVE0 | LIVE1 => true | _ => false end.

Definition preds_open (c : Cur) (v : nat) : bool :=
  forallb (fun u => is_live (st c !!! u)) (preds_ v).

(** The bytes or cycles that the closed tensors with waiting consumers still
    cost, added to [acc]. *)
Definition add_closed (c : Cur) (s : St) (f : nat -> Z) (acc : Z) : Z :=
  foldl (fun a u => if bool_decide (st c !!! u = s) && (0 <? unsched c !!! u) then u64 (a + f u) else a)
    acc (seq 0 n).

Definition compute_floor (c : Cur) : Z := u64 (u64 (sum_w p - computed_w c) + compute_used c).

Definition dead_state (c : Cur) : bool :=
  (negb allow_remat &&
     existsb (fun u => bool_decide (st c !!! u = CLOSED_FREE) && future_need c u) (seq 0 n)) ||
  (negb (bool_decide (mode (opts p) = SEQ_ONLY)) &&
     (budget_W (prob p) <?
        (if allow_remat then add_closed c CLOSED_FREE w_ (compute_floor c) else compute_floor c))).

Definition lb_objective (s : Search) : Z :=
  let c := cur s in
  match obj p with
  | DDR_BYTES => add_closed c CLOSED_DDR m_ (u64 (spill_b c + fill_b c))
  | TOTAL_COMPUTE => add_closed c CLOSED_FREE w_ (compute_floor c)
  | PEAK_RESIDENT => if resident c <? peak (glob s) then peak (glob s) else resident c
  end.

Definition lb_tiebreak (s : Search) : Z :=
  let c := cur s in
  match obj p with
  | DDR_BYTES => if allow_remat then add_closed c CLOSED_FREE w_ (compute_floor c) else compute_floor c
  | TOTAL_COMPUTE => add_closed c CLOSED_DDR m_ (u64 (spill_b c + fill_b c))
  | PEAK_RESIDENT => slot_t c
  end.

Definition prune_by_bound (s : Search) : bool :=
  match inc (glob s) with
  | None => false
  | Some i =>
      let lb0 := lb_objective s in
      if negb (lb0 =? inc_k0 i) then inc_k0 i <? lb0
      else inc_k1 i <=? lb_tiebreak s
  end.

Definition note_frontier (s : Search) : Search :=
  let g := glob s in
  if negb (aborted g) then s
  else
    let lb := lb_objective s in
    if lb <? frontier_lb g
    then mkSearch (cur s) (mkGlob (seg_start g) (peak g) (inc g) (nodes g) (aborted g) (abort_reason g) lb)
    else s.

(** [time_over]: its answer and the state. *)
Definition time_over (s : Search) : bool * Search :=
  let g := glob s in
  if aborted g then (true, s)
  else if negb (Z.land (nodes g) (4096 - 1) =? 0) then (false, s)
  else if clock (nodes g) then (true, abort "timeout" s)
  else (false, s).

(** ** Transitions *)

Definition close_l0 (u : nat) (to_ddr : bool) (c : Cur) : Cur :=
  mkCur (<[u := if to_ddr then CLOSED_DDR else CLOSED_FREE]> (st c)) (unsched c) (last_cons c)
    (lc_undo c) (ncomputed c) (next_topo c) (u64 (resident c - m_ u))
    (if to_ddr then u64 (spill_b c + m_ u) else spill_b c) (fill_b c) (compute_used c) (computed_w c)
    (remats c) (if to_ddr then u32 (spills c + 1) else spills c) (slot_t c)
    (mkEnt (slot_t c) (if to_ddr then L_SPILL else L_CLOSE) u (slot_t c) :: log c).

Definition reopen_l0 (u : nat) (was_ddr : bool) (c : Cur) : Cur :=
  mkCur (<[u := LIVE0]> (st c)) (unsched c) (last_cons c)
    (lc_undo c) (ncomputed c) (next_topo c) (u64 (resident c + m_ u))
    (if was_ddr then u64 (spill_b c - m_ u) else spill_b c) (fill_b c) (compute_used c) (computed_w c)
    (remats c) (if was_ddr then u32 (spills c - 1) else spills c) (slot_t c) (tail (log c)).

(** Finalize an open tensor, and its undo. *)
Definition finalize (u : nat) (c : Cur) : Cur :=
  mkCur (<[u := DONE]> (st c)) (unsched c) (last_cons c)
    (lc_undo c) (ncomputed c) (next_topo c) (u64 (resident c - m_ u))
    (spill_b c) (fill_b c) (compute_used c) (computed_w c) (remats c) (spills c) (slot_t c)
    (mkEnt (slot_t c) L_CLOSE u (slot_t c) :: log c).

Definition unfinalize (u : nat) (s : St) (c : Cur) : Cur :=
  mkCur (<[u := s]> (st c)) (unsched c) (last_cons c)
    (lc_undo c) (ncomputed c) (next_topo c) (u64 (resident c + m_ u))
    (spill_b c) (fill_b c) (compute_used c) (computed_w c) (remats c) (spills c) (slot_t c)
    (tail (log c)).

(** The consumer loop of [place]: saved [last_cons] values, and the tables. *)
Definition consume (slot : Z) (us : list nat) (lc : list Z) : list Z * list Z :=
  foldl (fun '(undo, lc) u => (undo ++ [lc !!! u], <[u := slot]> lc)) ([], lc) us.

Definition decr (us : list nat) (un : list Z) : list Z :=
  foldl (fun un u => <[u := u32 (un !!! u - 1)]> un) un us.
Definition incr (us : list nat) (un : list Z) : list Z :=
  foldl (fun un u => <[u := u32 (un !!! u + 1)]> un) un us.

Definition place_cur (cd : Cand) (slot : Z) (c : Cur) : Cur :=
  let v := c_v cd in
  let '(undo, lc) := consume slot (preds_ v) (last_cons c) in
  if c_kind cd =? 0 then
    mkCur (<[v := LIVE0]> (st c)) (decr (preds_ v) (unsched c)) lc (undo :: lc_undo c)
      (u32 (ncomputed c + 1))
      (if respect_topo_order (opts p) then u32 (next_topo c + 1) else next_topo c)
      (u64 (resident c + m_ v)) (spill_b c) (fill_b c)
      (u64 (compute_used c + w_ v)) (u64 (computed_w c + w_ v)) (remats c) (spills c) (slot_t c)
      (mkEnt slot L_COMPUTE v 0 :: log c)
  else if c_kind cd =? 1 then
    mkCur (<[v := LIVE1]> (st c)) (unsched c) lc (undo :: lc_undo c)
      (ncomputed c) (next_topo c) (u64 (resident c + m_ v)) (spill_b c) (fill_b c)
      (u64 (compute_used c + w_ v)) (computed_w c) (u32 (remats c + 1)) (spills c) (slot_t c)
      (mkEnt slot L_REMAT v 0 :: log c)
  else
    mkCur (<[v := LIVE1]> (st c)) (unsched c) (last_cons c) ([] :: lc_undo c)
      (ncomputed c) (next_topo c) (u64 (resident c + m_ v)) (spill_b c) (u64 (fill_b c + m_ v))
      (compute_used c) (computed_w c) (remats c) (spills c) (slot_t c)
      (mkEnt slot L_FILL v 0 :: log c).

(** [place]: also [seg_start] and the running peak. *)
Definition place (cd : Cand) (slot : Z) (s : Search) : Search :=
  let c := place_cur cd slot (cur s) in
  let g := glob s in
  mkSearch c (mkGlob (<[c_v cd := slot]> (seg_start g))
    (if peak g <? resident c then resident c else peak g)
    (inc g) (nodes g) (aborted g) (abort_reason g) (frontier_lb g)).

Definition restore (us : list nat) (saved : list Z) (lc : list Z) : list Z :=
  foldl (fun lc '(u, x) => <[u := x]> lc) lc (zip us saved).

Definition unplace (cd : Cand) (c : Cur) : Cur :=
  let v := c_v cd in
  let saved := hd [] (lc_undo c) in
  if c_kind cd =? 0 then
    mkCur (<[v := UNCOMPUTED]> (st c)) (incr (preds_ v) (unsched c))
      (restore (preds_ v) saved (last_cons c)) (tail (lc_undo c))
      (u32 (ncomputed c - 1))
      (if respect_topo_order (opts p) then u32 (next_topo c - 1) else next_topo c)
      (u64 (resident c - m_ v)) (spill_b c) (fill_b c)
      (u64 (compute_used c - w_ v)) (u64 (computed_w c - w_ v)) (remats c) (spills c) (slot_t c)
      (tail (log c))
  else if c_kind cd =? 1 then
    mkCur (<[v := CLOSED_FREE]> (st c)) (unsched c)
      (restore (preds_ v) saved (last_cons c)) (tail (lc_undo c))
      (ncomputed c) (next_topo c) (u64 (resident c - m_ v)) (spill_b c) (fill_b c)
      (u64 (compute_used c - w_ v)) (computed_w c) (u32 (remats c - 1)) (spills c) (slot_t c)
      (tail (log c))
  else
    mkCur (<[v := CLOSED_DDR]> (st c)) (unsched c) (last_cons c) (tail (lc_undo c))
      (ncomputed c) (next_topo c) (u64 (resident c - m_ v)) (spill_b c) (u64 (fill_b c - m_ v))
      (compute_used c) (computed_w c) (remats c) (spills c) (slot_t c) (tail (log c)).

(** ** [leaf] *)

(** The loop that closes the open tensors that satisfy [b], in index order, and
    the stack of the states they had. *)
Definition close_open (b : Cur -> nat -> bool) (c : Cur) : list (nat * St) * Cur :=
  foldl (fun '(stack, c) u =>
           if is_live (st c !!! u) && b c u then ((u, st c !!! u) :: stack, finalize u c)
           else (stack, c)) ([], c) (seq 0 n).

Definition reopen_all (stack : list (nat * St)) (c : Cur) : Cur :=
  foldl (fun c '(u, s) => unfinalize u s c) c stack.

Definition better (k0 k1 k2 : Z) (i : option Inc) : bool :=
  match i with
  | None => true
  | Some i => (k0 <? inc_k0 i) ||
      ((k0 =? inc_k0 i) && ((k1 <? inc_k1 i) || ((k1 =? inc_k1 i) && (k2 <? inc_k2 i))))
  end.

(** The lexicographic key of a leaf. *)
Definition leaf_keys (pk : Z) (c : Cur) : Z * Z * Z :=
  let ddr := u64 (spill_b c + fill_b c) in
  match obj p with
  | TOTAL_COMPUTE => (compute_used c, ddr, slot_t c)
  | PEAK_RESIDENT => (pk, slot_t c, ddr)
  | DDR_BYTES => (ddr, compute_used c, slot_t c)
  end.

Definition leaf (s : Search) : Search :=
  let '(stack, c) := close_open (fun _ _ => true) (cur s) in
  let g := glob s in
  let ddr := u64 (spill_b c + fill_b c) in
  let '(k0, k1, k2) := leaf_keys (peak g) c in
  let g' :=
    if better k0 k1 k2 (inc g) then
      mkGlob (seg_start g) (peak g)
        (Some (mkInc k0 k1 k2 (log c) ddr (peak g) (compute_used c) (remats c) (spills c) (slot_t c)))
        (nodes g) (aborted g) (abort_reason g) (frontier_lb g)
    else g in
  mkSearch (reopen_all stack c) g'.

(** ** The search *)

(** The body of [dfs] and the phases it calls, given [dfs] for the boundary
    after the next task. *)
Section phases.
Context (dfs : Search -> option Search).

Definition is_aborted (s : Search) : bool := aborted (glob s).

(** [place(c, slot); t = slot; dfs(); t = saved_t; unplace(c, slot);] *)
Definition descend (cd : Cand) (slot : Z) (s : Search) : option Search :=
  let saved_t := slot_t (cur s) in
  let s := place cd slot s in
  s ← dfs (set_cur s (set_t slot (cur s)));
  Some (set_cur s (unplace cd (set_t saved_t (cur s)))).

(** A transition, the rest of the search after it, and its undo. *)
Definition branch (step undo : Cur -> Cur) (f : Search -> option Search) (s : Search)
    : option Search :=
  s ← f (set_cur s (step (cur s)));
  Some (set_cur s (undo (cur s))).

(** [resident + m[v] <= M]. *)
Definition fits_in (v : nat) (c : Cur) : bool :=
  u64 (resident c + m_ v) <=? cap_M (prob p).

Definition can_spill (c : Cur) (u : nat) : bool :=
  allow_paging && (2 <=? C_ u) && future_need c u.

Fixpoint evict_rec (cd : Cand) (slot : Z) (vict : list nat) (s : Search) : option Search :=
  if is_aborted s then Some (note_frontier s)
  else
    let s := tick s in
    if fits_in (c_v cd) (cur s) then descend cd slot s
    else
      match vict with
      | [] => Some s
      | u :: vict =>
          if bool_decide (st (cur s) !!! u = LIVE1) then
            s ← branch (finalize u) (unfinalize u LIVE1) (evict_rec cd slot vict) s;
            if is_aborted s then Some s else evict_rec cd slot vict s
          else
            s ← (if allow_remat && (2 <=? C_ u)
                 then branch (close_l0 u false) (reopen_l0 u false) (evict_rec cd slot vict) s
                 else Some s);
            if is_aborted s then Some s
            else
              s ← (if can_spill (cur s) u
                   then branch (close_l0 u true) (reopen_l0 u true) (evict_rec cd slot vict) s
                   else Some s);
              if is_aborted s then Some s
              else evict_rec cd slot vict s
      end.

Definition is_victim (cd : Cand) (c : Cur) (u : nat) : bool :=
  if bool_decide (st c !!! u = LIVE1) then
    (unsched c !!! u =? 0) && negb (bool_decide (u ∈ preds_ (c_v cd)))
  else
    bool_decide (st c !!! u = LIVE0) && negb (last_cons c !!! u =? slot_t c) &&
    negb (bool_decide (u ∈ preds_ (c_v cd))) &&
    ((allow_remat && (2 <=? C_ u)) || can_spill c u).

Definition victim_lt (a b : nat) : bool :=
  if negb (m_ a =? m_ b) then m_ b <? m_ a
  else if negb (topo_rank p !!! a =? topo_rank p !!! b) then topo_rank p !!! a <? topo_rank p !!! b
  else (a <? b)%nat.

Definition evict_and_place (cd : Cand) (slot : Z) (s : Search) : option Search :=
  let s := tick s in
  let vict := filter (fun u => is_victim cd (cur s) u = true) (seq 0 n) in
  evict_rec cd slot (std_sort victim_lt vict) s.

Definition candidate (c : Cur) (v : nat) : option Cand :=
  let r := topo_rank p !!! v in
  let in_budget := u64 (compute_used c + w_ v) <=? budget_W (prob p) in
  match st c !!! v with
  | UNCOMPUTED =>
      if respect_topo_order (opts p) &&
         match topo_seq p !! Z.to_nat (next_topo c) with
         | Some x => negb (x =? v)%nat
         | None => true
         end then None
      else if preds_open c v && in_budget then Some (mkCand 0 v r) else None
  | CLOSED_FREE =>
      if allow_remat && (2 <=? C_ v) && future_need c v && preds_open c v && in_budget
      then Some (mkCand 1 v r) else None
  | CLOSED_DDR =>
      if allow_paging && (2 <=? C_ v) && future_need c v then Some (mkCand 2 v r) else None
  | _ => None
  end.

Fixpoint task_loop (slot : Z) (cs : list Cand) (s : Search) : option Search :=
  match cs with
  | [] => Some s
  | cd :: cs =>
      s ← (if fits_in (c_v cd) (cur s) then descend cd slot s else evict_and_place cd slot s);
      if is_aborted s then Some (note_frontier s) else task_loop slot cs s
  end.

Definition task_phase (s : Search) : option Search :=
  if is_aborted s then Some (note_frontier s)
  else
    let s := tick s in
    let slot := u32 (slot_t (cur s) + 1) in
    task_loop slot (std_sort cand_lt (omap (candidate (cur s)) (seq 0 n))) s.

Fixpoint close_rec (cands : list nat) (s : Search) : option Search :=
  if is_aborted s then Some (note_frontier s)
  else
    let s := tick s in
    match cands with
    | [] => task_phase s
    | u :: cands =>
        if bool_decide (st (cur s) !!! u = LIVE1) then
          s ← branch (finalize u) (unfinalize u LIVE1) (close_rec cands) s;
          if is_aborted s then Some s else close_rec cands s
        else
          s ← (if allow_remat
               then branch (close_l0 u false) (reopen_l0 u false) (close_rec cands) s
               else Some s);
          if is_aborted s then Some s
          else
            s ← close_rec cands s;
            if is_aborted s then Some s
            else if can_spill (cur s) u
                 then branch (close_l0 u true) (reopen_l0 u true) (close_rec cands) s
                 else Some s
    end.

Definition close_candidate (c : Cur) (u : nat) : bool :=
  (bool_decide (st c !!! u = LIVE0) || (bool_decide (st c !!! u = LIVE1) && (unsched c !!! u =? 0)))
  && (last_cons c !!! u =? slot_t c).

Definition rank_lt (a b : nat) : bool :=
  if negb (topo_rank p !!! a =? topo_rank p !!! b) then topo_rank p !!! a <? topo_rank p !!! b
  else (a <? b)%nat.

Definition dfs_body (s : Search) : option Search :=
  if is_aborted s then Some (note_frontier s)
  else
    let s := tick s in
    if node_limit (opts p) <? nodes (glob s) then Some (note_frontier (abort "node-limit" s))
    else
      let '(over, s) := time_over s in
      if over then Some (note_frontier s)
      else
        let '(stack, c) := close_open (fun c u => negb (future_need c u)) (cur s) in
        let s := set_cur s c in
        s ← (if ncomputed c =? Z.of_nat n then Some (leaf s)
             else if negb (dead_state c) && negb (prune_by_bound s) then
               let cands :=
                 if 0 <? slot_t c
                 then std_sort rank_lt (filter (fun u => close_candidate c u = true) (seq 0 n))
                 else [] in
               close_rec cands s
             else Some s);
        Some (set_cur s (reopen_all stack (cur s))).
End phases.

(** [None]: the nesting of tasks exceeds the fuel. *)
Fixpoint dfs (fuel : nat) (s : Search) : option Search :=
  match fuel with
  | O => None
  | S fuel => dfs_body (dfs fuel) s
  end.

Definition init_cur : Cur :=
  mkCur (replicate n UNCOMPUTED) (outdeg p) (replicate n 0) [] 0 0 0 0 0 0 0 0 0 0 [].

Definition init_search : Search :=
  mkSearch init_cur (mkGlob (replicate n 0) 0 None 0 false "" (2 ^ 64 - 1)).

(** Every task moves one tensor forward through its states, so at most
    [2 n] tasks nest. *)
Definition search_fuel : nat := 2 * n + 1.

Definition run_search : option Search := dfs search_fuel init_search.

End search.

(** ** Undo *)

Lemma u64_sub_add x y : in_u64 x -> u64 (u64 (x - y) + y) = x.
Proof.
  intros. unfold wrap. rewrite Zplus_mod_idemp_l.
  replace (x - y + y) with x by lia. by apply Z.mod_small.
Qed.

Lemma u64_add_sub x y : in_u64 x -> u64 (u64 (x + y) - y) = x.
Proof.
  intros. unfold wrap. rewrite Zminus_mod_idemp_l.
  replace (x + y - y) with x by lia. by apply Z.mod_small.
Qed.

Lemma u32_sub_add x y : in_u32 x -> u32 (u32 (x - y) + y) = x.
Proof.
  intros. unfold wrap. rewrite Zplus_mod_idemp_l.
  replace (x - y + y) with x by lia. by apply Z.mod_small.
Qed.

Lemma u32_add_sub x y : in_u32 x -> u32 (u32 (x + y) - y) = x.
Proof.
  intros. unfold wrap. rewrite Zminus_mod_idemp_l.
  replace (x + y - y) with x by lia. by apply Z.mod_small.
Qed.

Lemma insert_undo {A} `{Inhabited A} (l : list A) i x y :
  l !!! i = y -> (i < length l)%nat -> <[i := y]> (<[i := x]> l) = l.
Proof.
  intros <- Hi. rewrite list_insert_insert_eq. apply list_insert_id.
  by apply list_lookup_lookup_total_lt.
Qed.

(** The consumer tables. *)
Lemma consume_eq (slot : Z) (us : list nat) (lc : list Z) (undo : list Z) :
  NoDup us ->
  foldl (fun '(undo, lc) u => (undo ++ [lc !!! u], <[u := slot]> lc)) (undo, lc) us
  = (undo ++ map (fun u => lc !!! u) us, foldl (fun lc u => <[u := slot]> lc) lc us).
Proof.
  revert undo lc. induction us as [|u us IH]; intros undo lc Hnd; simpl; [by rewrite app_nil_r|].
  apply NoDup_cons in Hnd as [Hu Hnd]. rewrite IH by done. f_equal.
  rewrite <- app_assoc. simpl. do 2 f_equal. apply map_ext_in. intros x Hx%list_elem_of_In.
  apply list_lookup_total_insert_ne. set_solver.
Qed.

Lemma set_all_lookup (slot : Z) (us : list nat) (lc : list Z) i :
  foldl (fun lc u => <[u := slot]> lc) lc us !! i
  = if decide (i ∈ us) then (fun _ : Z => slot) <$> lc !! i else lc !! i.
Proof.
  revert lc. induction us as [|u us IH]; intros lc; [by rewrite decide_False by set_solver|]. simpl.
  rewrite IH. destruct (decide (i = u)) as [->|Hne].
  - rewrite (decide_True (P := u ∈ u :: us)) by set_solver.
    destruct (lc !! u) as [x|] eqn:E.
    + rewrite list_lookup_insert_eq by (by eapply lookup_lt_Some). by case_decide.
    + rewrite list_insert_ge by (by apply lookup_ge_None). rewrite E. by case_decide.
  - rewrite list_lookup_insert_ne by done.
    destruct (decide (i ∈ us)), (decide (i ∈ u :: us)); set_solver.
Qed.

Lemma restore_lookup (f : nat -> Z) us lc i :
  restore us (map f us) lc !! i = if decide (i ∈ us) then (fun _ : Z => f i) <$> lc !! i else lc !! i.
Proof.
  unfold restore. revert lc. induction us as [|u us IH]; intros lc; [by rewrite decide_False by set_solver|]. simpl.
  rewrite IH. destruct (decide (i = u)) as [->|Hne].
  - rewrite (decide_True (P := u ∈ u :: us)) by set_solver.
    destruct (lc !! u) as [x|] eqn:E.
    + rewrite list_lookup_insert_eq by (by eapply lookup_lt_Some). by case_decide.
    + rewrite list_insert_ge by (by apply lookup_ge_None). rewrite E. by case_decide.
  - rewrite list_lookup_insert_ne by done.
    destruct (decide (i ∈ us)), (decide (i ∈ u :: us)); set_solver.
Qed.

Lemma restore_consume slot us lc :
  NoDup us -> restore us (consume slot us lc).1 (consume slot us lc).2 = lc.
Proof.
  intros Hnd. unfold consume. rewrite consume_eq by done. simpl. apply list_eq. intros i.
  rewrite restore_lookup, set_all_lookup. case_decide; [|done].
  destruct (lc !! i) as [x|] eqn:E; [|done]. simpl. f_equal.
  by apply list_lookup_total_correct.
Qed.

Lemma step_lookup (f : Z -> Z) (us : list nat) (un : list Z) i :
  NoDup us ->
  foldl (fun un u => <[u := f (un !!! u)]> un) un us !! i
  = if decide (i ∈ us) then f <$> un !! i else un !! i.
Proof.
  revert un. induction us as [|u us IH]; intros un Hnd; [by rewrite decide_False by set_solver|]. simpl.
  apply NoDup_cons in Hnd as [Hu Hnd]. rewrite IH by done. destruct (decide (i = u)) as [->|Hne].
  - rewrite decide_False by done. rewrite (decide_True (P := u ∈ u :: us)) by set_solver.
    destruct (un !! u) as [x|] eqn:E.
    + rewrite list_lookup_insert_eq by (by eapply lookup_lt_Some). simpl. f_equal.
      by rewrite (list_lookup_total_correct _ _ _ E).
    + rewrite list_insert_ge by (by apply lookup_ge_None). by rewrite E.
  - rewrite list_lookup_insert_ne by done.
    destruct (decide (i ∈ us)), (decide (i ∈ u :: us)); set_solver.
Qed.

Lemma incr_decr us un :
  NoDup us -> Forall (fun x => in_u32 x) un -> incr us (decr us un) = un.
Proof.
  intros Hnd Hun. apply list_eq. intros i. unfold incr, decr.
  rewrite (step_lookup (fun x => u32 (x + 1))), (step_lookup (fun x => u32 (x - 1))) by done.
  case_decide; [|done]. destruct (un !! i) as [x|] eqn:E; [|done]. simpl. f_equal.
  apply u32_sub_add. by eapply Forall_lookup_1 in Hun.
Qed.

Lemma decr_length us un : length (decr us un) = length un.
Proof.
  unfold decr. revert un. induction us as [|u us IH]; intros un; simpl; [done|].
  by rewrite IH, length_insert.
Qed.

Lemma decr_range us un : Forall (fun x => in_u32 x) un -> Forall (fun x => in_u32 x) (decr us un).
Proof.
  unfold decr. revert un. induction us as [|u us IH]; intros un H; simpl; [done|].
  apply IH, Forall_insert; [done|apply u32_range].
Qed.

Lemma consume_length slot us lc : NoDup us -> length (consume slot us lc).2 = length lc.
Proof.
  intros Hnd. unfold consume. rewrite consume_eq by done. simpl. clear Hnd.
  revert lc. induction us as [|u us IH]; intros lc; simpl; [done|]. by rewrite IH, length_insert.
Qed.

Definition pre_ok (p : Pre) : Prop :=
  forall v, NoDup (preds_ p v) /\ forall u, u ∈ preds_ p v -> (u < n p)%nat.

(** The state is a value of its C++ types. *)
Record wf (p : Pre) (c : Cur) : Prop := {
  wf_st : length (st c) = n p;
  wf_unsched : length (unsched c) = n p /\ Forall (fun x => in_u32 x) (unsched c);
  wf_last : length (last_cons c) = n p;
  wf_u32 : in_u32 (ncomputed c) /\ in_u32 (next_topo c) /\ in_u32 (remats c) /\ in_u32 (spills c);
  wf_u64 : in_u64 (resident c) /\ in_u64 (spill_b c) /\ in_u64 (fill_b c) /\
           in_u64 (compute_used c) /\ in_u64 (computed_w c)
}.

(** The tasks a tensor can still take. *)
Definition tasks_left (s : St) : nat :=
  match s with UNCOMPUTED => 2 | LIVE0 | CLOSED_DDR | CLOSED_FREE => 1 | LIVE1 | DONE => 0 end.
Definition rem (c : Cur) : nat := sum_list_with tasks_left (st c).

Definition cand_ok (c : Cur) (cd : Cand) : Prop :=
  (c_kind cd = 0 /\ st c !!! c_v cd = UNCOMPUTED) \/
  (c_kind cd = 1 /\ st c !!! c_v cd = CLOSED_FREE) \/
  (c_kind cd = 2 /\ st c !!! c_v cd = CLOSED_DDR).

Section undo.
Context (p : Pre) (Hp : pre_ok p).

Lemma close_reopen u b c :
  wf p c -> (u < n p)%nat -> st c !!! u = LIVE0 -> reopen_l0 p u b (close_l0 p u b c) = c.
Proof.
  intros [? ? ? (? & ? & ? & ?) (? & ? & ? & ? & ?)] Hu Hst. destruct c.
  unfold reopen_l0, close_l0. simpl in *. rewrite insert_undo, u64_sub_add by (done || lia).
  destruct b; [by rewrite u64_add_sub, u32_add_sub|done].
Qed.

Lemma finalize_undo u s c :
  wf p c -> (u < n p)%nat -> st c !!! u = s -> unfinalize p u s (finalize p u c) = c.
Proof.
  intros [? ? ? (? & ? & ? & ?) (? & ? & ? & ? & ?)] Hu Hst. destruct c.
  unfold unfinalize, finalize. simpl in *. by rewrite insert_undo, u64_sub_add by (done || lia).
Qed.

Lemma unplace_place cd slot t c :
  wf p c -> (c_v cd < n p)%nat -> cand_ok c cd -> t = slot_t c ->
  unplace p cd (set_t t (set_t slot (place_cur p cd slot c))) = c.
Proof.
  intros [? [? ?] ? (? & ? & ? & ?) (? & ? & ? & ? & ?)] Hv Hk ->.
  destruct (Hp (c_v cd)) as [Hnd _]. destruct c as [st0 un lc0 ud nc nt res sb fb cu cw rm sp t0 lg].
  pose proof (restore_consume slot (preds_ p (c_v cd)) lc0 Hnd) as Hrest.
  unfold unplace, place_cur, set_t. simpl in *.
  destruct (consume slot (preds_ p (c_v cd)) lc0) as [undo lc]. simpl in Hrest.
  destruct Hk as [[-> Hst]|[[-> Hst]|[-> Hst]]]; simpl;
    rewrite insert_undo, !u64_add_sub by (done || lia); simpl.
  - rewrite incr_decr, Hrest, u32_add_sub by done.
    destruct (respect_topo_order _); [by rewrite u32_add_sub|done].
  - by rewrite Hrest, u32_add_sub.
  - done.
Qed.

Lemma wf_close u b c : wf p c -> wf p (close_l0 p u b c).
Proof.
  intros [? ? ? (? & ? & ? & ?) (? & ? & ? & ? & ?)].
  split; simpl; rewrite ?length_insert; try done; destruct b; eauto using u32_range, u64_range.
Qed.

Lemma wf_finalize u c : wf p c -> wf p (finalize p u c).
Proof.
  intros [? ? ? (? & ? & ? & ?) (? & ? & ? & ? & ?)].
  split; simpl; rewrite ?length_insert; try done; eauto using u32_range, u64_range.
Qed.

Lemma wf_place cd slot t c : wf p c -> wf p (set_t t (place_cur p cd slot c)).
Proof.
  intros [? [? ?] ? (? & ? & ? & ?) (? & ? & ? & ? & ?)].
  destruct (Hp (c_v cd)) as [Hnd _].
  pose proof (consume_length slot (preds_ p (c_v cd)) (last_cons c) Hnd) as Hl.
  unfold place_cur. destruct (consume slot _ _) as [undo lc]. simpl in Hl.
  destruct (c_kind cd =? 0); [|destruct (c_kind cd =? 1)];
    (split; simpl; rewrite ?length_insert, ?decr_length, ?Hl; try done);
    try destruct (respect_topo_order _); eauto using u32_range, u64_range, decr_range.
Qed.

(** *** The task count *)

Lemma sum_insert (f : St -> nat) l i x :
  (i < length l)%nat -> (sum_list_with f (<[i := x]> l) + f (l !!! i) = sum_list_with f l + f x)%nat.
Proof.
  revert i. induction l as [|y l IH]; intros [|i] Hi; simpl in *; [lia..|].
  specialize (IH i ltac:(lia)). unfold lookup_total in *. simpl in *. lia.
Qed.

Lemma rem_close u b c :
  wf p c -> (u < n p)%nat -> st c !!! u = LIVE0 -> rem (close_l0 p u b c) = rem c.
Proof.
  intros Hwf Hu Hst. unfold rem. simpl.
  pose proof (sum_insert tasks_left (st c) u (if b then CLOSED_DDR else CLOSED_FREE)
    ltac:(rewrite (wf_st _ _ Hwf); done)) as H. rewrite Hst in H. destruct b; simpl in *; lia.
Qed.

Lemma rem_finalize u c :
  wf p c -> (u < n p)%nat -> (rem (finalize p u c) <= rem c)%nat.
Proof.
  intros Hwf Hu. unfold rem. simpl.
  pose proof (sum_insert tasks_left (st c) u DONE ltac:(rewrite (wf_st _ _ Hwf); done)) as H.
  simpl in *. lia.
Qed.

Lemma rem_place cd slot t c :
  wf p c -> (c_v cd < n p)%nat -> cand_ok c cd ->
  (rem (set_t t (place_cur p cd slot c)) + 1 = rem c)%nat.
Proof.
  intros Hwf Hv Hk. unfold rem, place_cur. destruct (consume _ _ _) as [undo lc].
  pose proof (fun x => sum_insert tasks_left (st c) (c_v cd) x ltac:(rewrite (wf_st _ _ Hwf); done)) as H.
  destruct Hk as [[-> Hst]|[[-> Hst]|[-> Hst]]]; simpl; [specialize (H LIVE0)|specialize (H LIVE1)..];
    rewrite Hst in H; simpl in H; lia.
Qed.
End undo.

(** ** The exploration principle

    An invariant of the undoable state that every transition keeps, and a
    property of incumbents that every leaf establishes, hold throughout the
    search; the search ends, and it leaves the undoable state as it found it. *)

Definition cand_legal (p : Pre) (c : Cur) (cd : Cand) : Prop :=
  let v := c_v cd in
  let in_budget := u64 (compute_used c + w_ p v) <= budget_W (prob p) in
  (v < n p)%nat /\
  ((c_kind cd = 0 /\ st c !!! v = UNCOMPUTED /\ preds_open p c v = true /\ in_budget) \/
   (c_kind cd = 1 /\ st c !!! v = CLOSED_FREE /\ allow_remat p = true /\ 2 <= C_ p v /\
      preds_open p c v = true /\ in_budget) \/
   (c_kind cd = 2 /\ st c !!! v = CLOSED_DDR /\ allow_paging p = true /\ 2 <= C_ p v)).

Lemma cand_legal_ok p c cd : cand_legal p c cd -> cand_ok c cd.
Proof. unfold cand_legal, cand_ok. tauto. Qed.

Lemma candidate_legal p c v cd :
  (v < n p)%nat -> candidate p c v = Some cd -> c_v cd = v /\ cand_legal p c cd.
Proof.
  intros Hv. unfold candidate, cand_legal. destruct (st c !!! v) eqn:Est; try done.
  - destruct (respect_topo_order _ && _); [done|].
    destruct (preds_open p c v && _) eqn:E; [|done]. intros [= <-]. simpl. bool_prop.
    split; [done|]. split; [done|]. by left.
  - destruct (_ && _) eqn:E; [|done]. intros [= <-]. simpl. bool_prop.
    split; [done|]. split; [done|]. right. by right.
  - destruct (_ && _) eqn:E; [|done]. intros [= <-]. simpl. bool_prop.
    split; [done|]. split; [done|]. right. by left.
Qed.

(** Closing a tensor that the candidate does not read keeps it legal. *)
Lemma cand_legal_other p c c' cd u x :
  st c' = <[u := x]> (st c) -> compute_used c' = compute_used c ->
  u <> c_v cd -> u ∉ preds_ p (c_v cd) -> cand_legal p c cd -> cand_legal p c' cd.
Proof.
  intros Hst Hcu Hne Hnin. unfold cand_legal, preds_open. rewrite Hst, Hcu.
  rewrite list_lookup_total_insert_ne by done.
  assert (Hf : forallb (fun x0 => is_live (<[u := x]> (st c) !!! x0)) (preds_ p (c_v cd))
               = forallb (fun x0 => is_live (st c !!! x0)) (preds_ p (c_v cd))).
  { apply forallb_ext_elem. intros y Hy. rewrite list_lookup_total_insert_ne; [done|set_solver]. }
  by rewrite Hf.
Qed.

Section explore.
Context (p : Pre) (clock : Z -> bool) (Hp : pre_ok p).
Context (I : Cur -> Z -> Prop) (Q : Inc -> Prop).
Hypothesis HI_wf : forall c pk, I c pk -> wf p c.
Hypothesis HI_grow : forall c pk c' pk', I c pk -> I c' pk' -> pk <= pk' -> I c pk'.
Hypothesis HI_finalize : forall u c pk,
  I c pk -> (u < n p)%nat -> is_live (st c !!! u) = true -> I (finalize p u c) pk.
Hypothesis HI_close : forall u (b : bool) c pk,
  I c pk -> (u < n p)%nat -> st c !!! u = LIVE0 ->
  (if b then can_spill p c u else allow_remat p) = true -> I (close_l0 p u b c) pk.
Hypothesis HI_place : forall cd c pk,
  I c pk -> cand_legal p c cd -> fits_in p (c_v cd) c = true ->
  let c' := place_cur p cd (u32 (slot_t c + 1)) c in
  I (set_t (u32 (slot_t c + 1)) c') (if pk <? resident c' then resident c' else pk).
Hypothesis HQ_leaf : forall c pk k0 k1 k2,
  I c pk -> (forall u, (u < n p)%nat -> is_live (st c !!! u) = false) ->
  ncomputed c = Z.of_nat (n p) -> leaf_keys p pk c = (k0, k1, k2) ->
  Q (mkInc k0 k1 k2 (log c) (u64 (spill_b c + fill_b c)) pk (compute_used c) (remats c) (spills c)
       (slot_t c)).

Definition good (g : Glob) : Prop := forall i, inc g = Some i -> Q i.

(** A state between two phases. *)
Definition fine (s : Search) : Prop := I (cur s) (peak (glob s)) /\ good (glob s).

(** The outcome of a phase started in [s]. *)
Definition ok_from (s : Search) (r : option Search) : Prop :=
  exists s', r = Some s' /\ cur s' = cur s /\ fine s' /\ peak (glob s) <= peak (glob s').

Definition explores (k : nat) (f : Search -> option Search) : Prop :=
  forall s, fine s -> (rem (cur s) < k)%nat -> ok_from s (f s).

Lemma ok_now s : fine s -> ok_from s (Some s).
Proof. intros. by exists s. Qed.

Lemma ok_frontier s : fine s -> ok_from s (Some (note_frontier p s)).
Proof.
  intros Hg. unfold note_frontier.
  destruct (aborted _); simpl; [|by apply ok_now]. destruct (_ <? _); [|by apply ok_now]. by eexists.
Qed.

Lemma ok_tick s r : ok_from (tick s) r -> ok_from s r.
Proof. done. Qed.

Lemma set_cur_id s c : c = cur s -> set_cur s c = s.
Proof. intros ->. by destruct s. Qed.

Lemma time_over_spec s b s' :
  time_over clock s = (b, s') -> cur s' = cur s /\ inc (glob s') = inc (glob s) /\ peak (glob s') = peak (glob s).
Proof. unfold time_over, abort. intros H. repeat case_match; by simplify_eq. Qed.

(** A branch: change the state by an invertible step, go on, and undo it. *)
Lemma ok_branch s (step undo : Cur -> Cur) (f : Search -> option Search) :
  fine s -> undo (step (cur s)) = cur s ->
  ok_from (set_cur s (step (cur s))) (f (set_cur s (step (cur s)))) ->
  ok_from s (branch step undo f s).
Proof.
  intros [HI _] Hu (s' & Hf & Hc & [HI' Hg] & Hpk). unfold branch. rewrite Hf. eexists. split; [done|].
  simpl in *. rewrite Hc, Hu. split_and!; [done| |done]. split; [|done]. simpl. by apply (HI_grow _ _ _ _ HI HI').
Qed.

(** Sequencing of phases that restore the state, as [if (aborted) return;]
    between them. *)
Lemma ok_seq s r (f : Search -> option Search) :
  ok_from s r -> (forall s', cur s' = cur s -> fine s' -> ok_from s' (f s')) ->
  ok_from s (s' ← r; f s').
Proof.
  intros (s' & -> & Hc & Hg & Hpk) Hf. simpl. destruct (Hf s' Hc Hg) as (s'' & -> & Hc' & Hg' & Hpk').
  exists s''. split_and!; [done|congruence|done|lia].
Qed.

Lemma ok_stop s (b : bool) r :
  fine s -> ok_from s r -> ok_from s (if b then Some s else r).
Proof. intros. case_match; [by apply ok_now|done]. Qed.

(** *** The phases *)
Section phases_ok.
Context (k : nat) (dfs : Search -> option Search) (Hdfs : explores k dfs).

Lemma descend_ok cd s :
  fine s -> (rem (cur s) <= k)%nat -> cand_legal p (cur s) cd ->
  fits_in p (c_v cd) (cur s) = true ->
  ok_from s (descend p dfs cd (u32 (slot_t (cur s) + 1)) s).
Proof.
  intros [HI Hg] Hr Hl Hfit. pose proof (cand_legal_ok _ _ _ Hl) as Hk.
  assert (Hv : (c_v cd < n p)%nat) by apply Hl.
  unfold descend. set (slot := u32 _).
  destruct (Hdfs (set_cur (place p cd slot s) (set_t slot (cur (place p cd slot s)))))
    as (s' & -> & Hc & [HI' Hg'] & Hpk).
  - split; [|done]. simpl. by apply HI_place.
  - simpl. pose proof (rem_place p cd slot slot (cur s) (HI_wf _ _ HI) Hv Hk). lia.
  - eexists. split; [done|]. simpl in *. rewrite Hc.
    assert (unplace p cd (set_t (slot_t (cur s)) (set_t slot (place_cur p cd slot (cur s)))) = cur s) as ->
      by (apply (unplace_place p Hp cd slot (slot_t (cur s)) (cur s)); [by eapply HI_wf|done..]).
    assert (peak (glob s) <= peak (glob s')) by (destruct (_ <? _) eqn:E in Hpk; bool_prop; lia).
    split_and!; [done| |done]. split; [|done]. simpl. by apply (HI_grow _ _ _ _ HI HI').
Qed.

(** The victims of an eviction for the candidate [cd]. *)
Definition victims_ok (c : Cur) (cd : Cand) (vict : list nat) : Prop :=
  NoDup vict /\ forall u, u ∈ vict ->
    (u < n p)%nat /\ u <> c_v cd /\ u ∉ preds_ p (c_v cd) /\ is_live (st c !!! u) = true.

Lemma victims_ok_tail c c' cd u x vict :
  st c' = <[u := x]> (st c) -> victims_ok c cd (u :: vict) -> victims_ok c' cd vict.
Proof.
  intros Hst [Hnd Hv]. apply NoDup_cons in Hnd as [Hu Hnd]. split; [done|].
  intros y Hy. destruct (Hv y) as (? & ? & ? & Hl); [set_solver|].
  rewrite Hst, list_lookup_total_insert_ne by set_solver. done.
Qed.

Lemma evict_rec_ok cd vict s :
  fine s -> (rem (cur s) <= k)%nat -> cand_legal p (cur s) cd ->
  victims_ok (cur s) cd vict ->
  ok_from s (evict_rec p dfs cd (u32 (slot_t (cur s) + 1)) vict s).
Proof.
  revert s. induction vict as [|u vict IH]; intros s HI Hr Hl Hv; simpl.
  { case_match; [by apply ok_frontier|]. apply ok_tick.
    destruct (fits_in _ _ _) eqn:Hfit; [by apply (descend_ok cd (tick s))|by apply ok_now]. }
  case_match; [by apply ok_frontier|]. apply ok_tick.
  destruct (fits_in _ _ _) eqn:Hfit; [by apply (descend_ok cd (tick s))|].
  destruct (proj2 Hv u) as (Hun & Hne & Hnp & Hlive); [set_solver|].
  assert (Hrest : forall s', cur s' = cur s -> fine s' ->
            ok_from s' (evict_rec p dfs cd (u32 (slot_t (cur s) + 1)) vict s')).
  { intros s' Hc Hg'. rewrite <- Hc in *. apply IH; [done..|].
    split; [by destruct Hv as [[_ ?]%NoDup_cons _]|]. intros; apply Hv; set_solver. }
  assert (Hstep : forall s' step undo x, cur s' = cur s -> fine s' ->
    (forall pk, I (cur s) pk -> I (step (cur s)) pk) -> (rem (step (cur s)) <= k)%nat ->
    slot_t (step (cur s)) = slot_t (cur s) -> compute_used (step (cur s)) = compute_used (cur s) ->
    st (step (cur s)) = <[u := x]> (st (cur s)) -> undo (step (cur s)) = cur s ->
    ok_from s' (branch step undo (evict_rec p dfs cd (u32 (slot_t (cur s) + 1)) vict) s')).
  { intros s' step undo x Hc Hg' HI' Hr' Ht Hcu Hst Hundo. rewrite <- Hc in *.
    apply ok_branch; [done..|]. rewrite <- Ht.
    apply IH; simpl; [split; [by apply HI', Hg'|apply Hg']|done| |by eapply victims_ok_tail].
    by apply (cand_legal_other p (cur s') _ cd u x). }
  assert (Hwf : wf p (cur s)) by (by eapply HI_wf, HI).
  case_bool_decide as Elive.
  - apply ok_seq.
    + apply (Hstep _ _ _ DONE); [done|done|intros; by apply HI_finalize| |done|done|done|].
      * pose proof (rem_finalize p u (cur s) Hwf Hun). lia.
      * by apply finalize_undo.
    + intros s' Hc Hg'. apply ok_stop; [done|]. by apply Hrest.
  - assert (Est : st (cur s) !!! u = LIVE0) by (by destruct (st (cur s) !!! u)).
    assert (Hclose : forall s' (b : bool), cur s' = cur s -> fine s' ->
      (if b then can_spill p (cur s) u else allow_remat p) = true ->
      ok_from s' (branch (close_l0 p u b) (reopen_l0 p u b)
                    (evict_rec p dfs cd (u32 (slot_t (cur s) + 1)) vict) s')).
    { intros s' b Hc Hg' Hb.
      apply (Hstep _ _ _ (if b then CLOSED_DDR else CLOSED_FREE)); try done.
      - intros. by apply HI_close.
      - by rewrite (rem_close p).
      - by apply close_reopen. }
    apply ok_seq.
    + simpl. destruct (allow_remat p && _) eqn:E; [|by apply ok_now].
      bool_prop. by apply (Hclose _ false).
    + intros s' Hc Hg'. apply ok_stop; [done|]. apply ok_seq.
      * destruct (can_spill p (cur s') u) eqn:E; [|by apply ok_now].
        rewrite Hc in E. by apply (Hclose _ true).
      * intros s'' Hc' Hg''. apply ok_stop; [done|]. apply Hrest; [by rewrite Hc', Hc|done].
Qed.

Lemma evict_and_place_ok cd s :
  fine s -> (rem (cur s) <= k)%nat -> cand_legal p (cur s) cd ->
  ok_from s (evict_and_place p dfs cd (u32 (slot_t (cur s) + 1)) s).
Proof.
  intros HI Hr Hl. unfold evict_and_place. apply ok_tick.
  apply (evict_rec_ok cd _ (tick s)); [done..|]. split.
  - rewrite std_sort_perm. apply NoDup_filter, NoDup_seq.
  - intros u. rewrite std_sort_elem, list_elem_of_filter, elem_of_seq. intros [Hv [_ Hu]].
    simpl in *. unfold is_victim in Hv.
    assert (Hlive : is_live (st (cur s) !!! u) = true /\ u ∉ preds_ p (c_v cd)).
    { case_bool_decide as E; bool_prop; [by rewrite E|]. split; [|done].
      by match goal with H : _ = LIVE0 |- _ => rewrite H end. }
    destruct Hlive as [Hlive Hnin]. split_and!; [done| |done..].
    intros ->. destruct Hl as [_ [(_ & E & _)|[(_ & E & _)|(_ & E & _)]]]; by rewrite E in Hlive.
Qed.

Lemma task_loop_ok cs s :
  fine s -> (rem (cur s) <= k)%nat ->
  (forall cd, cd ∈ cs -> cand_legal p (cur s) cd) ->
  ok_from s (task_loop p dfs (u32 (slot_t (cur s) + 1)) cs s).
Proof.
  revert s. induction cs as [|cd cs IH]; intros s HI Hr Hl; simpl; [by apply ok_now|].
  assert (cand_legal p (cur s) cd) by (apply Hl; set_solver).
  apply ok_seq.
  - destruct (fits_in _ _ _) eqn:Hfit; [by apply descend_ok|by apply evict_and_place_ok].
  - intros s' Hc Hg'. case_match; [by apply ok_frontier|]. rewrite <- Hc in *.
    apply IH; [done..|]. intros; apply Hl; set_solver.
Qed.

Lemma task_phase_ok s :
  fine s -> (rem (cur s) <= k)%nat -> ok_from s (task_phase p dfs s).
Proof.
  intros HI Hr. unfold task_phase. case_match; [by apply ok_frontier|]. apply ok_tick.
  apply (task_loop_ok _ (tick s)); [done..|].
  intros cd. rewrite std_sort_elem. intros (v & Hv & Hcd)%list_elem_of_omap.
  apply elem_of_seq in Hv as [_ Hv]. by apply candidate_legal in Hcd as [_ ?].
Qed.

Definition closable (c : Cur) (cands : list nat) : Prop :=
  NoDup cands /\ forall u, u ∈ cands -> (u < n p)%nat /\ is_live (st c !!! u) = true.

Lemma closable_tail c c' u x cands :
  st c' = <[u := x]> (st c) -> closable c (u :: cands) -> closable c' cands.
Proof.
  intros Hst [Hnd Hv]. apply NoDup_cons in Hnd as [Hu Hnd]. split; [done|].
  intros y Hy. destruct (Hv y) as (? & Hl); [set_solver|].
  rewrite Hst, list_lookup_total_insert_ne by set_solver. done.
Qed.

Lemma close_rec_ok cands s :
  fine s -> (rem (cur s) <= k)%nat -> closable (cur s) cands ->
  ok_from s (close_rec p dfs cands s).
Proof.
  revert s. induction cands as [|u cands IH]; intros s HI Hr Hcl; simpl.
  { case_match; [by apply ok_frontier|]. apply ok_tick. by apply (task_phase_ok (tick s)). }
  case_match; [by apply ok_frontier|]. apply ok_tick.
  destruct (proj2 Hcl u) as (Hun & Hlive); [set_solver|].
  assert (Hrest : forall s', cur s' = cur s -> fine s' ->
            ok_from s' (close_rec p dfs cands s')).
  { intros s' Hc Hg'. rewrite <- Hc in *. apply IH; [done..|].
    split; [by destruct Hcl as [[_ ?]%NoDup_cons _]|]. intros; apply Hcl; set_solver. }
  assert (Hstep : forall s' step undo x, cur s' = cur s -> fine s' ->
    (forall pk, I (cur s) pk -> I (step (cur s)) pk) -> (rem (step (cur s)) <= k)%nat ->
    st (step (cur s)) = <[u := x]> (st (cur s)) -> undo (step (cur s)) = cur s ->
    ok_from s' (branch step undo (close_rec p dfs cands) s')).
  { intros s' step undo x Hc Hg' HI' Hr' Hst Hundo. rewrite <- Hc in *.
    apply ok_branch; [done..|]. apply IH; simpl; [split; [by apply HI', Hg'|apply Hg']|done|by eapply closable_tail]. }
  assert (Hwf : wf p (cur s)) by (by eapply HI_wf, HI).
  case_bool_decide as Elive.
  - apply ok_seq.
    + apply (Hstep _ _ _ DONE); [done|done|intros; by apply HI_finalize| |done|].
      * pose proof (rem_finalize p u (cur s) Hwf Hun). lia.
      * by apply finalize_undo.
    + intros s' Hc Hg'. apply ok_stop; [done|]. by apply Hrest.
  - assert (Est : st (cur s) !!! u = LIVE0) by (by destruct (st (cur s) !!! u)).
    assert (Hclose : forall s' (b : bool), cur s' = cur s -> fine s' ->
      (if b then can_spill p (cur s) u else allow_remat p) = true ->
      ok_from s' (branch (close_l0 p u b) (reopen_l0 p u b) (close_rec p dfs cands) s')).
    { intros s' b Hc Hg' Hb.
      apply (Hstep _ _ _ (if b then CLOSED_DDR else CLOSED_FREE)); try done.
      - intros. by apply HI_close.
      - by rewrite (rem_close p).
      - by apply close_reopen. }
    apply ok_seq.
    + simpl. destruct (allow_remat p) eqn:E; [|by apply ok_now]. by apply (Hclose _ false).
    + intros s' Hc Hg'. apply ok_stop; [done|]. apply ok_seq; [by apply Hrest|].
      intros s'' Hc' Hg''. apply ok_stop; [done|].
      destruct (can_spill p (cur s'') u) eqn:E; [|by apply ok_now].
      rewrite Hc', Hc in E. apply (Hclose _ true); [by rewrite Hc', Hc|done..].
Qed.

(** The forced closes and their undo. *)
Lemma close_open_ok b us c pk :
  I c pk -> (forall u, u ∈ us -> (u < n p)%nat) ->
  let r := foldl (fun '(stack, c) u =>
             if is_live (st c !!! u) && b c u then ((u, st c !!! u) :: stack, finalize p u c)
             else (stack, c)) ([], c) us in
  I r.2 pk /\ reopen_all p r.1 r.2 = c /\ (rem r.2 <= rem c)%nat /\ ncomputed r.2 = ncomputed c /\
  (forall u, is_live (st c !!! u) = false -> is_live (st r.2 !!! u) = false) /\
  ((forall c u, b c u = true) -> forall u, u ∈ us -> is_live (st r.2 !!! u) = false).
Proof.
  simpl. intros HI. induction us as [|u us IH] using rev_ind; intros Hus.
  { simpl. split_and!; [done..|set_solver]. }
  rewrite foldl_app. simpl.
  destruct IH as (HI' & Hre & Hrem & Hn & Hdead & Hall); [intros; apply Hus; set_solver|].
  destruct (foldl _ ([], c) us) as [stack c1]. simpl in *.
  assert (Hu : (u < n p)%nat) by (apply Hus; set_solver).
  assert (Hwf : wf p c1) by (by eapply HI_wf).
  assert (Hlen : (u < length (st c1))%nat) by (by rewrite (wf_st _ _ Hwf)).
  destruct (is_live (st c1 !!! u) && b c1 u) eqn:E; simpl.
  - bool_prop. split_and!.
    + by apply HI_finalize.
    + by rewrite finalize_undo.
    + pose proof (rem_finalize p u c1 Hwf Hu). lia.
    + done.
    + intros v Hv. destruct (decide (v = u)) as [->|].
      * by rewrite list_lookup_total_insert_eq.
      * rewrite list_lookup_total_insert_ne by done. by apply Hdead.
    + intros Hb v [Hv|Hv%list_elem_of_singleton]%elem_of_app; destruct (decide (v = u)) as [->|];
        rewrite ?list_lookup_total_insert_eq, ?list_lookup_total_insert_ne by done; try done.
      by apply Hall.
  - split_and!; [done..|]. intros Hb v [Hv| ->%list_elem_of_singleton]%elem_of_app; [by apply Hall|].
    apply andb_false_iff in E as [E|E]; [done|by rewrite Hb in E].
Qed.

Lemma leaf_ok s :
  fine s -> ncomputed (cur s) = Z.of_nat (n p) -> ok_from s (Some (leaf p s)).
Proof.
  intros [HI Hg] Hn. eexists. split; [done|]. unfold leaf, close_open.
  destruct (close_open_ok (fun _ _ => true) (seq 0 (n p)) (cur s) _ HI)
    as (HI' & Hre & _ & Hn' & _ & Hall); [intros u; rewrite elem_of_seq; lia|].
  destruct (foldl _ _ _) as [stack c]. simpl in *.
  destruct (leaf_keys p _ c) as [[k0 k1] k2] eqn:Ek. simpl. split; [done|].
  destruct (better _ _ _ _); simpl; (split; [|done]); (split; simpl; [by rewrite Hre|]); [|done].
  intros i [= <-]. simpl. apply HQ_leaf; [done| |congruence|done].
  intros u Hu. apply Hall; [done|]. apply elem_of_seq. lia.
Qed.

Lemma dfs_body_ok s :
  fine s -> (rem (cur s) <= k)%nat -> ok_from s (dfs_body p clock dfs s).
Proof.
  intros HI Hr. unfold dfs_body. case_match; [by apply ok_frontier|]. apply ok_tick.
  case_match; [by apply (ok_frontier (abort "node-limit" (tick s)))|].
  destruct (time_over clock (tick s)) as [over s1] eqn:Et.
  apply time_over_spec in Et as (Hc1 & Hi1 & Hk1). simpl in Hc1, Hi1, Hk1.
  assert (Hg1 : fine s1) by (split; [rewrite Hc1, Hk1; apply HI|intros i; rewrite Hi1; apply HI]).
  cut (ok_from s1 (if over then Some (note_frontier p s1) else
    let '(stack, c) := close_open p (fun c u => negb (future_need p c u)) (cur s1) in
    let s := set_cur s1 c in
    s ← (if ncomputed c =? Z.of_nat (n p) then Some (leaf p s)
         else if negb (dead_state p c) && negb (prune_by_bound p s) then
           let cands := if 0 <? slot_t c
                 then std_sort (rank_lt p) (filter (fun u => close_candidate c u = true) (seq 0 (n p)))
                 else [] in
           close_rec p dfs cands s
         else Some s);
    Some (set_cur s (reopen_all p stack (cur s))))).
  { intros (s' & Heq & Hc' & Hg' & Hpk). exists s'. split; [exact Heq|]. split_and!; [by rewrite Hc', Hc1|done|simpl; lia]. }
  destruct over; [by apply ok_frontier|]. rewrite <- Hc1 in Hr. clear HI. unfold close_open.
  destruct (close_open_ok (fun c u => negb (future_need p c u)) (seq 0 (n p)) (cur s1) _ (proj1 Hg1))
    as (HI' & Hre & Hrem & _); [intros u; rewrite elem_of_seq; lia|].
  destruct (foldl _ _ _) as [stack c]. simpl in HI', Hre, Hrem |- *.
  cut (ok_from (set_cur s1 c)
    (if ncomputed c =? Z.of_nat (n p) then Some (leaf p (set_cur s1 c))
         else if negb (dead_state p c) && negb (prune_by_bound p (set_cur s1 c)) then
           close_rec p dfs (if 0 <? slot_t c
                 then std_sort (rank_lt p) (filter (fun u => close_candidate c u = true) (seq 0 (n p)))
                 else []) (set_cur s1 c)
         else Some (set_cur s1 c))).
  { intros (s2 & -> & Hc2 & [HI2 Hg2] & Hpk). eexists. split; [done|]. simpl in *. rewrite Hc2, Hre.
    split_and!; [done| |done]. split; [|done]. simpl. by apply (HI_grow _ _ _ _ (proj1 Hg1) HI2). }
  assert (fine (set_cur s1 c)) by (split; [done|apply Hg1]).
  destruct (ncomputed c =? _) eqn:En; bool_prop; [by apply leaf_ok|].
  destruct (negb _ && _); [|by apply ok_now].
  apply close_rec_ok; [done|simpl; lia|]. simpl.
  destruct (0 <? slot_t c); [|split; [constructor|set_solver]]. split.
  - rewrite std_sort_perm. apply NoDup_filter, NoDup_seq.
  - intros u. rewrite std_sort_elem, list_elem_of_filter, elem_of_seq. intros [Hcl [_ Hu]].
    split; [done|]. unfold close_candidate in Hcl. bool_prop.
    match goal with H : _ || _ = true |- _ => apply orb_true_iff in H as [H|H] end; bool_prop;
      by match goal with H : st _ !!! _ = _ |- _ => rewrite H end.
Qed.
End phases_ok.

Lemma dfs_explores fuel : explores fuel (dfs p clock fuel).
Proof.
  induction fuel as [|fuel IH]; intros s HI Hr; [lia|]. simpl.
  apply (dfs_body_ok fuel); [done|done|lia].
Qed.
End explore.

Lemma preprocess_preds p o v :
  (v < num_nodes p)%nat -> preds_ (preprocess p o) v = preds_of p v.
Proof.
  intros Hv. unfold preds_, preprocess. destruct (topo_ranks p) as [rank sq]. simpl.
  apply list_lookup_total_correct. change (map ?f ?l) with (f <$> l).
  rewrite list_lookup_fmap, lookup_seq_lt by done. done.
Qed.

Lemma preprocess_ok p o : pre_ok (preprocess p o).
Proof.
  intros v. destruct (decide (v < num_nodes p)%nat) as [Hv|Hv].
  - rewrite preprocess_preds by done. split; [apply preds_of_spec|].
    intros u Hu. apply preds_of_spec in Hu as (_ & ? & _).
    unfold n, preprocess. by destruct (topo_ranks p).
  - unfold preds_, preprocess. destruct (topo_ranks p) as [rank sq]. simpl.
    rewrite list_lookup_total_alt, lookup_ge_None_2 by (rewrite length_map, length_seq; lia).
    split; [constructor|set_solver].
Qed.

Lemma init_wf p o : wf (preprocess p o) (init_cur (preprocess p o)).
Proof.
  assert (Hn : n (preprocess p o) = num_nodes p) by (unfold n, preprocess; by destruct (topo_ranks p)).
  split; simpl; rewrite ?length_replicate; try done.
  unfold preprocess in *. destruct (topo_ranks p) as [rank sq]. simpl in *.
  rewrite !length_map, length_seq. split; [done|].
  apply Forall_forall. intros x (cs & -> & _)%elem_of_map. apply u32_range.
Qed.

Lemma init_rem p : rem (init_cur p) = (2 * n p)%nat.
Proof.
  unfold rem. simpl. induction (n p) as [|k IH]; [done|]. simpl. rewrite IH. lia.
Qed.

Lemma wf_explores p clock fuel :
  pre_ok p -> explores (fun c _ => wf p c) (fun _ => True) fuel (dfs p clock fuel).
Proof.
  intros Hp. apply dfs_explores; [done|done|done|..].
  - intros u c _ Hc _ _. by apply wf_finalize.
  - intros u b c _ Hc _ _ _. by apply wf_close.
  - intros cd c _ Hc _ _. by apply wf_place.
  - done.
Qed.

(** C4: the depth-first search with its hand-written undo terminates and
    restores.  From any well-formed state, with one unit of fuel more than the
    tasks the tensors can still take, [dfs] returns, and it returns with every
    undoable part of the state (tensor states, consumer tables, undo stack,
    counters, event log) exactly as it was, also when it is aborted by the node
    or the time limit. *)
Theorem search_restores p clock fuel s :
  pre_ok p -> wf p (cur s) -> (rem (cur s) < fuel)%nat ->
  exists s', dfs p clock fuel s = Some s' /\ cur s' = cur s.
Proof.
  intros Hp Hwf Hr.
  destruct (wf_explores p clock fuel Hp s) as (s' & ? & ? & _); [by split|done|].
  by exists s'.
Qed.

(** Two independent chains 0 -> 2 and 1 -> 3. *)
Definition chains (hint : list op_id_t) : CPProblem :=
  mkProblem [mkTensor 100 2 1 2 false; mkTensor 101 3 1 2 false;
             mkTensor 102 1 1 2 false; mkTensor 103 1 1 2 false]
    [(0, 2); (1, 3)]%nat 8 100 hint.
Definition opts_of (m : Mode) (topo : bool) : CPOptions := mkOptions m BYTES topo 5000000 50 2.
Definition no_clock : Z -> bool := fun _ => false.

Lemma search_restores_witness :
  let p := preprocess (chains []) (opts_of FULL true) in
  exists s', dfs p no_clock 9 (init_search p) = Some s' /\ cur s' = init_cur p.
Proof.
  apply (search_restores (preprocess (chains []) (opts_of FULL true)) no_clock 9
           (init_search (preprocess (chains []) (opts_of FULL true)))).
  - apply preprocess_ok.
  - apply init_wf.
  - vm_compute. lia.
Defined.

(** C40: the exact search of any problem ends within its fuel, and back in its
    initial state. *)
Theorem run_search_total prb o clock :
  exists s', run_search (preprocess prb o) clock = Some s' /\ cur s' = init_cur (preprocess prb o).
Proof.
  destruct (wf_explores (preprocess prb o) clock (search_fuel (preprocess prb o))
              (preprocess_ok prb o) (init_search (preprocess prb o))) as (s' & ? & ? & _).
  - split; [apply init_wf|by intros i].
  - simpl. rewrite init_rem. unfold search_fuel. lia.
  - by exists s'.
Qed.

(** In the peak objective ([SEQ_ONLY]) the search is not exhaustive:
    [unplace] does not restore the running peak, so no branch explored after a
    bad one can beat it.  Two searches of one problem that differ only in the
    hint that ranks the candidates both end without abort, with peaks 6 and 4;
    the result of the first is reported as optimal. *)
Theorem seq_search_peak_not_minimal :
  (s ← run_search (preprocess (chains []) (opts_of SEQ_ONLY false)) no_clock;
   i ← inc (glob s); Some (aborted (glob s), inc_peak i)) = Some (false, 6) /\
  (s ← run_search (preprocess (chains [100; 102; 101; 103]) (opts_of SEQ_ONLY false)) no_clock;
   i ← inc (glob s); Some (aborted (glob s), inc_peak i)) = Some (false, 4).
Proof. split; vm_compute; reflexivity. Qed.
