(* ===== verification/CpLegal.v ===== *)
(** Legal schedules: the abstract specification of the CP oracle's search.  A
    schedule is a sequence of events on the tensors' states; [run] says which
    event sequences respect the capacity, the dependencies and the compute
    budget.  The search of [CpSearch] is shown to record only complete legal
    schedules. *)
From S2P Require Import Prelude Ir CpModel CpSearch.

Section legal.
Context (p : Pre).

(** Bytes of the open tensors. *)
Definition res (sts : list St) : Z :=
  sum_by (fun v => if is_live (sts !!! v) then m_ p v else 0) (seq 0 (n p)).

Definition open_preds (sts : list St) (v : nat) : Prop :=
  forall u, u ∈ preds_ p v -> is_live (sts !!! u) = true.

(** [run log sts t cmp]: the events [log], newest first, are legal from the
    initial state, and leave the tensors in [sts], [t] tasks placed and [cmp]
    cycles computed. *)
Inductive run : list Ent -> list St -> Z -> Z -> Prop :=
  | run_init : run [] (replicate (n p) UNCOMPUTED) 0 0
  | run_compute lg sts t cmp v :
      run lg sts t cmp -> (v < n p)%nat -> sts !!! v = UNCOMPUTED -> open_preds sts v ->
      res sts + m_ p v <= cap_M (prob p) -> cmp + w_ p v <= budget_W (prob p) ->
      run (mkEnt (t + 1) L_COMPUTE v 0 :: lg) (<[v := LIVE0]> sts) (t + 1) (cmp + w_ p v)
  | run_remat lg sts t cmp v :
      run lg sts t cmp -> (v < n p)%nat -> sts !!! v = CLOSED_FREE -> open_preds sts v ->
      allow_remat p = true -> 2 <= C_ p v ->
      res sts + m_ p v <= cap_M (prob p) -> cmp + w_ p v <= budget_W (prob p) ->
      run (mkEnt (t + 1) L_REMAT v 0 :: lg) (<[v := LIVE1]> sts) (t + 1) (cmp + w_ p v)
  | run_fill lg sts t cmp v :
      run lg sts t cmp -> (v < n p)%nat -> sts !!! v = CLOSED_DDR ->
      allow_paging p = true -> 2 <= C_ p v -> res sts + m_ p v <= cap_M (prob p) ->
      run (mkEnt (t + 1) L_FILL v 0 :: lg) (<[v := LIVE1]> sts) (t + 1) cmp
  | run_spill lg sts t cmp v :
      run lg sts t cmp -> (v < n p)%nat -> sts !!! v = LIVE0 ->
      allow_paging p = true -> 2 <= C_ p v ->
      run (mkEnt t L_SPILL v t :: lg) (<[v := CLOSED_DDR]> sts) t cmp
  | run_discard lg sts t cmp v :
      run lg sts t cmp -> (v < n p)%nat -> sts !!! v = LIVE0 -> allow_remat p = true ->
      run (mkEnt t L_CLOSE v t :: lg) (<[v := CLOSED_FREE]> sts) t cmp
  | run_finalize lg sts t cmp v :
      run lg sts t cmp -> (v < n p)%nat -> is_live (sts !!! v) = true ->
      run (mkEnt t L_CLOSE v t :: lg) (<[v := DONE]> sts) t cmp.

(** Bytes moved, and events of a kind. *)
Definition moved (k : LK) (lg : list Ent) : Z :=
  sum_by (fun e => if bool_decide (e_k e = k) then m_ p (e_v e) else 0) lg.
Definition events (k : LK) (lg : list Ent) : Z :=
  sum_by (fun e => if bool_decide (e_k e = k) then 1 else 0) lg.

(** Bytes open after a log, and the most that were open at any of its
    points. *)
Definition opened (e : Ent) : Z :=
  match e_k e with L_COMPUTE | L_REMAT | L_FILL => m_ p (e_v e) | L_SPILL | L_CLOSE => - m_ p (e_v e) end.
Definition open_bytes (lg : list Ent) : Z := sum_by opened lg.
Fixpoint log_peak (lg : list Ent) : Z :=
  match lg with
  | [] => 0
  | _ :: lg' => Z.max (open_bytes lg) (log_peak lg')
  end.

(** The bytes open at some point of some legal schedule. *)
Definition reached (pk : Z) : Prop := exists lg sts t cmp, run lg sts t cmp /\ res sts = pk.

Definition computed (s : St) : bool := negb (bool_decide (s = UNCOMPUTED)).

(** A complete schedule: every tensor was computed and is closed. *)
Definition complete (sts : list St) : Prop :=
  forall v, (v < n p)%nat -> computed (sts !!! v) = true /\ is_live (sts !!! v) = false.

(** What an incumbent stands for.  The search keeps one running peak over all
    the branches it has been through, so that the recorded peak bounds that of
    the log and need not be attained by it. *)
Definition legal_incumbent (i : Inc) : Prop :=
  exists sts, run (inc_log i) sts (inc_slots i) (inc_compute i) /\ complete sts /\
    inc_ddr i = u64 (moved L_SPILL (inc_log i) + moved L_FILL (inc_log i)) /\
    inc_remats i = u32 (events L_REMAT (inc_log i)) /\
    inc_spills i = u32 (events L_SPILL (inc_log i)) /\
    log_peak (inc_log i) <= inc_peak i <= cap_M (prob p) /\ reached (inc_peak i) /\
    match obj p with
    | DDR_BYTES => (inc_k0 i, inc_k1 i, inc_k2 i) = (inc_ddr i, inc_compute i, inc_slots i)
    | TOTAL_COMPUTE => (inc_k0 i, inc_k1 i, inc_k2 i) = (inc_compute i, inc_ddr i, inc_slots i)
    | PEAK_RESIDENT => (inc_k0 i, inc_k1 i, inc_k2 i) = (inc_peak i, inc_slots i, inc_ddr i)
    end.

(** The sizes of a problem: no accumulation of the search overflows. *)
Record bounds_ok : Prop := {
  b_n : Z.of_nat (n p) < 2 ^ 30;
  b_m : forall v, 0 <= m_ p v <= cap_M (prob p);
  b_M : cap_M (prob p) < 2 ^ 62;
  b_w : forall v, 0 <= w_ p v < 2 ^ 62;
  b_W : 0 <= budget_W (prob p) < 2 ^ 62
}.

(** ** The state of the search is that of a run *)

Record Inv (c : Cur) : Prop := {
  i_wf : wf p c;
  i_run : run (log c) (st c) (slot_t c) (compute_used c);
  i_res : resident c = res (st c);
  i_cap : res (st c) <= cap_M (prob p);
  i_spill : spill_b c = u64 (moved L_SPILL (log c));
  i_fill : fill_b c = u64 (moved L_FILL (log c));
  i_remats : remats c = u32 (events L_REMAT (log c));
  i_spills : spills c = u32 (events L_SPILL (log c));
  i_computed : ncomputed c = Z.of_nat (countb computed (st c));
  i_slots : 0 <= slot_t c /\ slot_t c + Z.of_nat (rem c) <= 2 * Z.of_nat (n p);
  i_used : 0 <= compute_used c <= budget_W (prob p)
}.

Lemma res_insert sts v x :
  length sts = n p -> (v < n p)%nat ->
  res (<[v := x]> sts) = res sts - (if is_live (sts !!! v) then m_ p v else 0)
                         + (if is_live x then m_ p v else 0).
Proof.
  intros Hl Hv. unfold res.
  assert (Hs : seq 0 (n p) = seq 0 v ++ v :: seq (S v) (n p - S v)).
  { replace (n p) with (v + S (n p - S v))%nat at 1 by lia. by rewrite seq_app. }
  rewrite Hs, !sum_by_app. simpl. rewrite list_lookup_total_insert_eq by lia.
  assert (Hext : forall us, v ∉ us ->
    sum_by (fun u => if is_live (<[v := x]> sts !!! u) then m_ p u else 0) us
    = sum_by (fun u => if is_live (sts !!! u) then m_ p u else 0) us).
  { intros us Hus. apply sum_by_ext. intros u Hu. rewrite list_lookup_total_insert_ne; [done|].
    set_solver. }
  rewrite !Hext by (rewrite elem_of_seq; lia). lia.
Qed.

Lemma res_nonneg sts : bounds_ok -> 0 <= res sts.
Proof. intros Hb. apply sum_by_nonneg. intros v _. case_match; [apply Hb|lia]. Qed.

Lemma countb_insert_total (f : St -> bool) sts v x :
  (v < length sts)%nat ->
  (countb f (<[v := x]> sts) + (if f (sts !!! v) then 1 else 0)
   = countb f sts + (if f x then 1 else 0))%nat.
Proof. intros Hv. by apply countb_insert, list_lookup_lookup_total_lt. Qed.

Lemma run_length lg sts t cmp : run lg sts t cmp -> length sts = n p.
Proof. induction 1; rewrite ?length_insert, ?length_replicate; done. Qed.

Lemma u64_add_r x y : u64 (u64 x + y) = u64 (x + y).
Proof. unfold wrap. by rewrite Zplus_mod_idemp_l. Qed.

Lemma u32_add_r x y : u32 (u32 x + y) = u32 (x + y).
Proof. unfold wrap. by rewrite Zplus_mod_idemp_l. Qed.

Section simulation.
Hypotheses (Hp : pre_ok p) (Hb : bounds_ok).

Lemma res_minus sts v x :
  length sts = n p -> (v < n p)%nat -> is_live (sts !!! v) = true -> is_live x = false ->
  0 <= res (<[v := x]> sts) /\ res (<[v := x]> sts) = res sts - m_ p v.
Proof.
  intros Hl Hv H1 H2. split; [by apply res_nonneg|]. rewrite res_insert, H1, H2 by done. lia.
Qed.

Lemma res_cap c : Inv c -> 0 <= res (st c) < 2 ^ 64.
Proof. intros [Hwf _ Hres _ _ _ _ _ _ _ _]. rewrite <- Hres. apply Hwf. Qed.

Lemma rem_slots c c' :
  (rem c' <= rem c)%nat -> slot_t c' = slot_t c ->
  0 <= slot_t c /\ slot_t c + Z.of_nat (rem c) <= 2 * Z.of_nat (n p) ->
  0 <= slot_t c' /\ slot_t c' + Z.of_nat (rem c') <= 2 * Z.of_nat (n p).
Proof. intros ? ->. lia. Qed.

(** Closing an open tensor, in one of the three ways. *)
Lemma Inv_shut u c x k (sb sp : Z) :
  Inv c -> (u < n p)%nat -> is_live (st c !!! u) = true -> is_live x = false -> x <> UNCOMPUTED ->
  (k = L_CLOSE /\ sb = spill_b c /\ sp = spills c \/
   k = L_SPILL /\ sb = u64 (spill_b c + m_ p u) /\ sp = u32 (spills c + 1)) ->
  run (mkEnt (slot_t c) k u (slot_t c) :: log c) (<[u := x]> (st c)) (slot_t c) (compute_used c) ->
  (tasks_left x <= tasks_left (st c !!! u))%nat ->
  Inv (mkCur (<[u := x]> (st c)) (unsched c) (last_cons c) (lc_undo c) (ncomputed c) (next_topo c)
         (u64 (resident c - m_ p u)) sb (fill_b c) (compute_used c) (computed_w c) (remats c) sp
         (slot_t c) (mkEnt (slot_t c) k u (slot_t c) :: log c)).
Proof.
  intros HI Hu Hlive Hx Hnc Hk Hrun Ht. pose proof (res_cap c HI) as Hcap.
  destruct HI as [Hwf _ Hres Hca Hsp Hfi Hre Hs Hnco Hsl Hus].
  assert (Hlen : length (st c) = n p) by apply Hwf.
  destruct (res_minus (st c) u x Hlen Hu Hlive Hx) as [Hnn Heq].
  pose proof (b_m Hb u) as Hm.
  assert (Hcomp : computed (st c !!! u) = true) by (unfold computed; by destruct (st c !!! u)).
  assert (Hcx : computed x = true) by (unfold computed; by destruct x).
  pose proof (countb_insert_total computed (st c) u x ltac:(lia)) as Hcnt. rewrite Hcomp, Hcx in Hcnt.
  split; simpl.
  - destruct Hwf as [? ? ? (? & ? & ? & ?) (? & ? & ? & ? & ?)].
    split; simpl; rewrite ?length_insert; try done;
      destruct Hk as [(-> & -> & ->)|(-> & -> & ->)]; eauto using u32_range, u64_range.
  - done.
  - rewrite Hres, Heq, wrap_id by lia. done.
  - lia.
  - unfold moved in *. simpl. destruct Hk as [(-> & -> & ->)|(-> & -> & ->)]; simpl.
    + by rewrite Hsp.
    + rewrite Hsp, u64_add_r. f_equal. lia.
  - unfold moved in *. simpl. destruct Hk as [(-> & -> & ->)|(-> & -> & ->)]; simpl; by rewrite Hfi.
  - unfold events in *. simpl. destruct Hk as [(-> & -> & ->)|(-> & -> & ->)]; simpl; by rewrite Hre.
  - unfold events in *. simpl. destruct Hk as [(-> & -> & ->)|(-> & -> & ->)]; simpl.
    + by rewrite Hs.
    + rewrite Hs, u32_add_r. f_equal. lia.
  - rewrite Hnco. lia.
  - unfold rem in *. simpl. pose proof (sum_insert tasks_left (st c) u x ltac:(lia)). lia.
  - done.
Qed.

Lemma Inv_finalize u c :
  Inv c -> (u < n p)%nat -> is_live (st c !!! u) = true -> Inv (finalize p u c).
Proof.
  intros HI Hu Hl. apply Inv_shut; try done; [by left| |simpl; lia].
  by apply run_finalize; [apply HI|..].
Qed.

Lemma Inv_close u (b : bool) c :
  Inv c -> (u < n p)%nat -> st c !!! u = LIVE0 ->
  (if b then can_spill p c u else allow_remat p) = true -> Inv (close_l0 p u b c).
Proof.
  intros HI Hu Hst Hb'. unfold close_l0.
  assert (Hl : is_live (st c !!! u) = true) by (by rewrite Hst).
  destruct b; (apply Inv_shut; [done..| | |by rewrite Hst]).
  - by right.
  - unfold can_spill in Hb'. bool_prop. by apply run_spill; [apply HI|..].
  - by left.
  - by apply run_discard; [apply HI|..].
Qed.

Lemma preds_open_spec c v : preds_open p c v = true <-> open_preds (st c) v.
Proof.
  unfold preds_open, open_preds. rewrite forallb_forall. by setoid_rewrite list_elem_of_In.
Qed.

Lemma fits_spec c v : Inv c -> fits_in p v c = true -> res (st c) + m_ p v <= cap_M (prob p).
Proof.
  intros HI Hf. unfold fits_in in Hf. bool_prop.
  pose proof (b_m Hb v). pose proof (b_M Hb). pose proof (res_cap c HI).
  pose proof (i_cap _ HI). rewrite (i_res _ HI) in Hf. by unwrap_in Hf.
Qed.

Lemma budget_spec c v :
  Inv c -> u64 (compute_used c + w_ p v) <= budget_W (prob p) ->
  compute_used c + w_ p v <= budget_W (prob p).
Proof.
  intros HI. pose proof (b_w Hb v). pose proof (b_W Hb). pose proof (i_used _ HI).
  by unwrap.
Qed.

Lemma Inv_place cd c :
  Inv c -> cand_legal p c cd -> fits_in p (c_v cd) c = true ->
  Inv (set_t (u32 (slot_t c + 1)) (place_cur p cd (u32 (slot_t c + 1)) c)).
Proof.
  intros HI Hl Hf. pose proof (fits_spec c (c_v cd) HI Hf) as Hfit.
  pose proof (cand_legal_ok _ _ _ Hl) as Hok. destruct Hl as [Hv Hl].
  pose proof (wf_place p Hp cd (u32 (slot_t c + 1)) (u32 (slot_t c + 1)) c (i_wf _ HI)) as Hwf'.
  pose proof (rem_place p cd (u32 (slot_t c + 1)) (u32 (slot_t c + 1)) c (i_wf _ HI) Hv Hok) as Hrem.
  pose proof (budget_spec c (c_v cd) HI) as Hbud.
  pose proof (b_m Hb (c_v cd)). pose proof (b_M Hb). pose proof (res_cap c HI).
  pose proof (b_w Hb (c_v cd)). pose proof (b_n Hb). pose proof (b_W Hb).
  destruct HI as [Hwf Hrun Hres Hca Hsp Hfi Hre Hs Hnco Hsl Hus].
  assert (Hlen : length (st c) = n p) by apply Hwf.
  assert (Hcnt : forall x, _) by (intros x; exact (countb_insert_total computed (st c) (c_v cd) x ltac:(lia))).
  pose proof (countb_le computed (st c)) as Hle.
  assert (Hri : forall x, res (<[c_v cd := x]> (st c)) = res (st c)
      - (if is_live (st c !!! c_v cd) then m_ p (c_v cd) else 0) + (if is_live x then m_ p (c_v cd) else 0))
    by (intros; by apply res_insert).
  assert (Hslot : u32 (slot_t c + 1) = slot_t c + 1) by (rewrite wrap_id; lia).
  rewrite Hslot in *. unfold place_cur in *. destruct (consume _ _ _) as [undo lc].
  destruct Hl as [(Hk & Hst & Hpo & Hin)|[(Hk & Hst & Har & HC & Hpo & Hin)|(Hk & Hst & Hap & HC)]];
    rewrite Hk in *; simpl in *; rewrite Hst in *; simpl in *.
  - specialize (Hbud Hin). specialize (Hcnt LIVE0). simpl in Hcnt. specialize (Hri LIVE0). simpl in Hri.
    split; simpl; [done| | | | | | | | |lia|].
    + unwrap. apply run_compute; [done..|by apply preds_open_spec|done|done].
    + rewrite Hres, wrap_id; lia.
    + lia.
    + done.
    + done.
    + done.
    + done.
    + rewrite Hnco, wrap_id; lia.
    + unwrap. lia.
  - specialize (Hbud Hin). specialize (Hcnt LIVE1). simpl in Hcnt. specialize (Hri LIVE1). simpl in Hri.
    split; simpl; [done| | | | | | | | |lia|].
    + unwrap. apply run_remat; [done|done|done|by apply preds_open_spec|done..].
    + rewrite Hres, wrap_id; lia.
    + lia.
    + done.
    + done.
    + unfold events in *. simpl. rewrite Hre, u32_add_r. f_equal. lia.
    + done.
    + rewrite Hnco. lia.
    + unwrap. lia.
  - specialize (Hcnt LIVE1). simpl in Hcnt. specialize (Hri LIVE1). simpl in Hri.
    split; simpl; [done| | | | | | | | |lia|lia].
    + by apply run_fill.
    + rewrite Hres, wrap_id; lia.
    + lia.
    + done.
    + unfold moved in *. simpl. rewrite Hfi, u64_add_r. f_equal. lia.
    + done.
    + done.
    + rewrite Hnco. lia.
Qed.

(** *** The running peak *)

Lemma run_capacity lg sts t cmp : run lg sts t cmp -> res sts <= cap_M (prob p) /\ cmp <= budget_W (prob p).
Proof.
  intros Hrun. induction Hrun;
    [|pose proof (run_length _ _ _ _ Hrun); pose proof (b_m Hb v);
      rewrite res_insert by done; simpl; destruct IHHrun; case_match; lia..].
  split; [|apply Hb]. unfold res. rewrite (sum_by_ext _ (fun _ => 0)).
  - rewrite sum_by_const. pose proof (b_m Hb 0). lia.
  - intros v Hv%elem_of_seq. rewrite lookup_total_replicate_2 by lia. done.
Qed.

Lemma run_open_bytes lg sts t cmp : run lg sts t cmp -> open_bytes lg = res sts.
Proof.
  intros Hrun. induction Hrun;
    [|pose proof (run_length _ _ _ _ Hrun); unfold open_bytes, opened in *; simpl; rewrite IHHrun, res_insert by done;
      repeat match goal with H : context [_ !!! _] |- _ => rewrite H end; simpl; lia..].
  unfold res. rewrite (sum_by_ext _ (fun _ => 0)); [by rewrite sum_by_const|].
  intros v Hv%elem_of_seq. rewrite lookup_total_replicate_2 by lia. done.
Qed.

Lemma open_le_peak lg : open_bytes lg <= log_peak lg.
Proof. destruct lg; [done|]. apply Z.le_max_l. Qed.

(** A state under a running peak. *)
Record PInv (c : Cur) (pk : Z) : Prop := {
  pi_inv : Inv c;
  pi_peak : log_peak (log c) <= pk;
  pi_reached : reached pk
}.

Lemma PInv_grow c pk c' pk' : PInv c pk -> PInv c' pk' -> pk <= pk' -> PInv c pk'.
Proof. intros [? ? ?] [? ? ?] ?. split; [done|lia|done]. Qed.

(** Closing a tensor opens no bytes. *)
Lemma PInv_closed c pk c' e :
  PInv c pk -> Inv c' -> log c' = e :: log c -> e_k e = L_CLOSE \/ e_k e = L_SPILL -> PInv c' pk.
Proof.
  intros [? Hpk ?] HI Hl Hk. split; [done| |done]. rewrite Hl. cbn [log_peak].
  pose proof (open_le_peak (log c)). pose proof (b_m Hb (e_v e)).
  assert (open_bytes (e :: log c) <= open_bytes (log c)); [|lia].
  unfold open_bytes, opened. simpl. destruct Hk as [-> | ->]; lia.
Qed.

Lemma PInv_finalize u c pk :
  PInv c pk -> (u < n p)%nat -> is_live (st c !!! u) = true -> PInv (finalize p u c) pk.
Proof.
  intros HI Hu Hl. eapply PInv_closed; [done|by apply Inv_finalize; [apply HI|..]|done|by left].
Qed.

Lemma PInv_close u (b : bool) c pk :
  PInv c pk -> (u < n p)%nat -> st c !!! u = LIVE0 ->
  (if b then can_spill p c u else allow_remat p) = true -> PInv (close_l0 p u b c) pk.
Proof.
  intros HI Hu Hl Hc. eapply PInv_closed; [done|by apply Inv_close; [apply HI|..]|done|].
  simpl. destruct b; [by right|by left].
Qed.

Lemma PInv_place cd c pk :
  PInv c pk -> cand_legal p c cd -> fits_in p (c_v cd) c = true ->
  let c' := place_cur p cd (u32 (slot_t c + 1)) c in
  PInv (set_t (u32 (slot_t c + 1)) c') (if pk <? resident c' then resident c' else pk).
Proof.
  intros [HI Hpk Hr] Hl Hf c'. pose proof (Inv_place cd c HI Hl Hf) as HI'. fold c' in HI'.
  assert (exists e, log c' = e :: log c) as [e He].
  { subst c'. unfold place_cur. destruct (consume _ _ _). repeat case_match; by eexists. }
  pose proof (run_open_bytes _ _ _ _ (i_run _ HI')) as Ho. simpl in Ho. rewrite He in Ho.
  pose proof (i_res _ HI') as Hres. simpl in Hres.
  split; [done| |].
  - change (log (set_t (u32 (slot_t c + 1)) c')) with (log c'). rewrite He. cbn [log_peak]. rewrite Ho, <- Hres.
    destruct (pk <? resident c') eqn:E; bool_prop; lia.
  - destruct (pk <? resident c'); [|done]. do 4 eexists. split; [exact (i_run _ HI')|]. simpl. congruence.
Qed.

Lemma Inv_leaf c pk k0 k1 k2 :
  PInv c pk -> (forall u, (u < n p)%nat -> is_live (st c !!! u) = false) ->
  ncomputed c = Z.of_nat (n p) -> leaf_keys p pk c = (k0, k1, k2) ->
  legal_incumbent (mkInc k0 k1 k2 (log c) (u64 (spill_b c + fill_b c)) pk (compute_used c) (remats c)
                     (spills c) (slot_t c)).
Proof.
  intros [[Hwf Hrun Hres Hca Hsp Hfi Hre Hs Hnco Hsl Hus] Hpk Hre'] Hdead Hn Hk.
  exists (st c). simpl. split_and!; [done| | |done|done|done| |done|].
  - intros v Hv. split; [|by apply Hdead].
    apply (countb_full computed (st c)); [|apply list_elem_of_lookup_total_2; by rewrite (wf_st _ _ Hwf)]. rewrite (wf_st _ _ Hwf). lia.
  - rewrite Hsp, Hfi, u64_add_r. rewrite Z.add_comm, u64_add_r. f_equal. lia.
  - destruct Hre' as (lg & sts & t & cmp & Hr & <-). by eapply run_capacity.
  - unfold leaf_keys in Hk. destruct (obj p); by simplify_eq.
Qed.

Lemma init_Inv_of : wf p (init_cur p) -> Inv (init_cur p).
Proof.
  intros Hwf. split; simpl; try done.
  - constructor.
  - unfold res. rewrite (sum_by_ext _ (fun _ => 0)); [by rewrite sum_by_const|].
    intros v Hv%elem_of_seq. rewrite lookup_total_replicate_2 by lia. done.
  - unfold res. rewrite (sum_by_ext _ (fun _ => 0)); [rewrite sum_by_const; pose proof (b_m Hb 0); lia|].
    intros v Hv%elem_of_seq. rewrite lookup_total_replicate_2 by lia. done.
  - rewrite countb_false; [done|]. by intros x [-> _]%elem_of_replicate.
  - split; [lia|]. rewrite init_rem. lia.
  - pose proof (b_W Hb). lia.
Qed.

Lemma init_PInv_of : wf p (init_cur p) -> PInv (init_cur p) 0.
Proof.
  intros Hwf. pose proof (init_Inv_of Hwf) as HI. split; [done|done|].
  do 4 eexists. split; [exact (i_run _ HI)|]. symmetry. exact (i_res _ HI).
Qed.

End simulation.
End legal.

(** ** What a legal schedule guarantees *)

Definition is_task (k : LK) : bool :=
  match k with L_COMPUTE | L_REMAT | L_FILL => true | _ => false end.

(** Events of a kind on a tensor. *)
Definition cnt (k : LK) (v : nat) (lg : list Ent) : nat :=
  countb (fun e => bool_decide (e_k e = k) && bool_decide (e_v e = v)) lg.

(** The event counts (compute, spill, fill, remat) that each state allows. *)
Definition counts_ok (s : St) (c : nat * nat * nat * nat) : Prop :=
  match s with
  | UNCOMPUTED => c = (0, 0, 0, 0)%nat
  | LIVE0 | CLOSED_FREE => c = (1, 0, 0, 0)%nat
  | CLOSED_DDR => c = (1, 1, 0, 0)%nat
  | LIVE1 => c = (1, 1, 1, 0)%nat \/ c = (1, 0, 0, 1)%nat
  | DONE => c = (1, 0, 0, 0)%nat \/ c = (1, 1, 1, 0)%nat \/ c = (1, 0, 0, 1)%nat
  end.

Definition counts (v : nat) (lg : list Ent) : nat * nat * nat * nat :=
  (cnt L_COMPUTE v lg, cnt L_SPILL v lg, cnt L_FILL v lg, cnt L_REMAT v lg).

Lemma counts_other v u s k x lg : u <> v -> counts v (mkEnt s k u x :: lg) = counts v lg.
Proof.
  intros Hne. unfold counts, cnt. rewrite !countb_cons. simpl.
  by rewrite (bool_decide_eq_false_2 (u = v)), !andb_false_r by done.
Qed.

Lemma counts_same v s k x lg :
  counts v (mkEnt s k v x :: lg) =
  let '(a, b, c, d) := counts v lg in
  match k with
  | L_COMPUTE => (S a, b, c, d) | L_SPILL => (a, S b, c, d) | L_FILL => (a, b, S c, d)
  | L_REMAT => (a, b, c, S d) | L_CLOSE => (a, b, c, d)
  end.
Proof.
  unfold counts, cnt. rewrite !countb_cons. simpl. rewrite (bool_decide_eq_true_2 (v = v)) by done.
  by destruct k.
Qed.

(** One event on [v] moves its state and its counts together. *)
Lemma counts_step sts v x s k y lg u :
  (v < length sts)%nat ->
  (counts_ok (sts !!! v) (counts v lg) -> counts_ok x (counts v (mkEnt s k v y :: lg))) ->
  counts_ok (sts !!! u) (counts u lg) ->
  counts_ok (<[v := x]> sts !!! u) (counts u (mkEnt s k v y :: lg)).
Proof.
  intros Hv Hstep Hu. destruct (decide (u = v)) as [->|Hne].
  - rewrite list_lookup_total_insert_eq by done. by apply Hstep.
  - by rewrite list_lookup_total_insert_ne, counts_other by done.
Qed.

Lemma run_counts p lg sts t cmp :
  run p lg sts t cmp -> forall v, (v < n p)%nat -> counts_ok (sts !!! v) (counts v lg).
Proof.
  intros Hrun.
  induction Hrun as [| ? ? ? ? v Hrun IH ? E | ? ? ? ? v Hrun IH ? E | ? ? ? ? v Hrun IH ? E
                    | ? ? ? ? v Hrun IH ? E | ? ? ? ? v Hrun IH ? E | ? ? ? ? v Hrun IH ? E];
    intros u Hu; [by rewrite lookup_total_replicate_2 by done|..];
    pose proof (run_length _ _ _ _ _ Hrun) as Hlen;
    (apply counts_step; [by rewrite Hlen| |by apply IH]);
    rewrite counts_same; destruct (counts v lg) as [[[a b] c] d];
    [rewrite E..|destruct (sts !!! v); try done]; simpl; intros Hc; intuition congruence.
Qed.

(** The slots of the tasks, oldest first. *)
Definition task_slots (lg : list Ent) : list Z :=
  map e_slot (filter (fun e => is_task (e_k e) = true) (rev lg)).

Definition task_cycles (p : Pre) (lg : list Ent) : Z :=
  sum_by (fun e => match e_k e with L_COMPUTE | L_REMAT => w_ p (e_v e) | _ => 0 end) lg.

Lemma run_slots p lg sts t cmp :
  run p lg sts t cmp -> 0 <= t /\ task_slots lg = seqZ 1 t /\ cmp = task_cycles p lg.
Proof.
  assert (Hnew : forall lg t k v, is_task k = true -> 0 <= t -> task_slots lg = seqZ 1 t ->
            task_slots (mkEnt (t + 1) k v 0 :: lg) = seqZ 1 (t + 1)).
  { intros lg' t' k v Hk Ht IH. unfold task_slots in *. simpl.
    rewrite filter_app, map_app, IH. rewrite filter_cons_True by done. simpl.
    replace (seqZ 1 (t' + 1)) with (seqZ 1 t' ++ [t' + 1]); [done|].
    rewrite seqZ_app by lia. f_equal. unfold seqZ. simpl. f_equal. lia. }
  assert (Hold : forall lg t k v x, is_task k = false ->
            task_slots (mkEnt t k v x :: lg) = task_slots lg).
  { intros lg' t' k v x Hk. unfold task_slots. simpl.
    rewrite filter_app, map_app, filter_cons_False by (simpl; by rewrite Hk).
    by rewrite filter_nil, app_nil_r. }
  intros Hrun. induction Hrun; [done|..]; destruct IHHrun as (Ht & Hs & Hc);
    rewrite ?Hold by done; (split; [lia|]); (split; [by auto|]);
    unfold task_cycles in *; simpl; lia.
Qed.

(** Every earlier point of a run is a run. *)
Lemma run_suffix p lg2 lg1 sts t cmp :
  run p (lg2 ++ lg1) sts t cmp -> exists sts1 t1 cmp1, run p lg1 sts1 t1 cmp1.
Proof.
  revert sts t cmp. induction lg2 as [|e lg2 IH]; intros sts t cmp H; [by exists sts, t, cmp|].
  simpl in H. inversion H; subst; by eapply IH.
Qed.

Lemma legal_explores p clock fuel :
  pre_ok p -> bounds_ok p ->
  explores (PInv p) (legal_incumbent p) fuel (dfs p clock fuel).
Proof.
  intros Hp Hb. apply dfs_explores; [done|by intros c pk [[]]|apply PInv_grow|..].
  - intros u c pk. by apply PInv_finalize.
  - intros u b c pk. by apply PInv_close.
  - intros cd c pk. by apply PInv_place.
  - intros c pk k0 k1 k2. by apply Inv_leaf.
Qed.

(** What the exact search records is the log of a complete legal schedule. *)
Lemma recorded_legal prb o clock s' i :
  bounds_ok (preprocess prb o) ->
  run_search (preprocess prb o) clock = Some s' -> inc (glob s') = Some i ->
  legal_incumbent (preprocess prb o) i.
Proof.
  intros Hb Hs Hi.
  destruct (legal_explores (preprocess prb o) clock (search_fuel (preprocess prb o))
              (preprocess_ok prb o) Hb (init_search (preprocess prb o))) as (s2 & Hs2 & _ & [_ Hg] & _).
  - split; [|by intros j]. apply init_PInv_of; [done|apply init_wf].
  - simpl. rewrite init_rem. unfold search_fuel. lia.
  - unfold run_search in Hs. rewrite Hs2 in Hs. simplify_eq. by apply Hg.
Qed.

(** C3: refinement of the search.  Every incumbent that the exact search of a
    problem records is the event log of a complete legal schedule of the
    abstract specification: each event was legal where it happened (open
    predecessors, residency within [M], cycles within [W], reopening only what
    the mode allows), every tensor was computed and is closed at the end, and
    the recorded traffic, cycles and counters, with the keys made of them, are
    those of the log.  The recorded peak (the first key of the peak objective)
    is at least the peak of the log, at most [M], and the residency of a point
    of some legal schedule: the code does not take it back with the branch that
    raised it. *)
Theorem search_records_legal_schedules prb o clock s' i :
  bounds_ok (preprocess prb o) ->
  run_search (preprocess prb o) clock = Some s' -> inc (glob s') = Some i ->
  legal_incumbent (preprocess prb o) i.
Proof. by apply recorded_legal. Qed.

Lemma chains_bounds m b : bounds_ok (preprocess (chains []) (opts_of m b)).
Proof.
  split.
  - done.
  - intros v. destruct v as [|[|[|[|v]]]]; vm_compute; split; discriminate.
  - done.
  - intros v. destruct v as [|[|[|[|v]]]]; vm_compute; (split; [discriminate|reflexivity]).
  - done.
Qed.

Lemma search_records_legal_schedules_witness :
  exists i, legal_incumbent (preprocess (chains []) (opts_of FULL true)) i /\ inc_ddr i = 0.
Proof.
  destruct (run_search (preprocess (chains []) (opts_of FULL true)) no_clock) as [s|] eqn:E;
    [|vm_compute in E; discriminate].
  destruct (inc (glob s)) as [i|] eqn:Ei.
  - exists i. split.
    + apply (search_records_legal_schedules (chains []) (opts_of FULL true) no_clock s i).
      * apply chains_bounds.
      * exact E.
      * exact Ei.
    + vm_compute in E. injection E as <-. simpl in Ei. injection Ei as <-. reflexivity.
  - vm_compute in E. injection E as <-. simpl in Ei. discriminate.
Defined.

(** At every point of the schedule that the exact search records, not only
    at its end, the open tensors fit the memory and the cycles so far fit the
    compute budget (Eq. 6 and Eq. 10 of the code's formalization). *)
Theorem recorded_schedule_within_limits prb o clock s' i lg2 lg1 :
  let p := preprocess prb o in
  bounds_ok p -> run_search p clock = Some s' -> inc (glob s') = Some i ->
  inc_log i = lg2 ++ lg1 ->
  exists sts t cmp, run p lg1 sts t cmp /\ res p sts <= cap_M (prob p) /\ cmp <= budget_W (prob p).
Proof.
  intros p Hb Hs Hi Hlg. destruct (recorded_legal prb o clock s' i Hb Hs Hi) as (sts & Hrun & _).
  rewrite Hlg in Hrun. destruct (run_suffix p lg2 lg1 _ _ _ Hrun) as (sts1 & t1 & cmp1 & Hrun1).
  exists sts1, t1, cmp1. split; [done|]. by eapply run_capacity.
Qed.

Lemma recorded_schedule_within_limits_witness :
  exists (lg : list Ent) sts t cmp, (length lg = 6)%nat /\
    run (preprocess (chains []) (opts_of FULL true)) lg sts t cmp /\
    res (preprocess (chains []) (opts_of FULL true)) sts <= 8 /\ cmp <= 100.
Proof.
  destruct (run_search (preprocess (chains []) (opts_of FULL true)) no_clock) as [s|] eqn:E;
    [|vm_compute in E; discriminate].
  destruct (inc (glob s)) as [i|] eqn:Ei.
  - exists (drop 2 (inc_log i)).
    destruct (recorded_schedule_within_limits (chains []) (opts_of FULL true) no_clock s i
                (take 2 (inc_log i)) (drop 2 (inc_log i))) as (sts & t & cmp & H).
    + apply chains_bounds.
    + exact E.
    + exact Ei.
    + symmetry. apply take_drop.
    + exists sts, t, cmp. split; [|exact H].
      vm_compute in E. injection E as <-. simpl in Ei. injection Ei as <-. reflexivity.
  - vm_compute in E. injection E as <-. simpl in Ei. discriminate.
Defined.

(** The structure of the schedule that the exact search records (Eq. 8, 9,
    12, 14): one task per slot, in the slots 1, 2, 3, ...; every tensor is
    computed exactly once, and then either never reopened, or paged out and at
    most once paged in, or recomputed once, never both; the cycles charged are
    those of the COMPUTE and REMAT events. *)
Theorem recorded_schedule_structure prb o clock s' i :
  let p := preprocess prb o in
  bounds_ok p -> run_search p clock = Some s' -> inc (glob s') = Some i ->
  task_slots (inc_log i) = seqZ 1 (inc_slots i) /\
  inc_compute i = task_cycles p (inc_log i) /\
  forall v, (v < n p)%nat ->
    counts v (inc_log i) ∈ [(1, 0, 0, 0); (1, 1, 0, 0); (1, 1, 1, 0); (1, 0, 0, 1)]%nat.
Proof.
  intros p Hb Hr Hi. destruct (recorded_legal prb o clock s' i Hb Hr Hi) as (sts & Hrun & Hc & _).
  destruct (run_slots _ _ _ _ _ Hrun) as (_ & Hs & Hcy).
  split_and!; [done|done|]. intros v Hv.
  pose proof (run_counts _ _ _ _ _ Hrun v Hv) as Hk. destruct (Hc v Hv) as [H1 H2].
  rewrite !elem_of_cons. destruct (sts !!! v); simpl in Hk; try done; intuition.
Qed.

Lemma recorded_schedule_structure_witness :
  exists i, task_slots (inc_log i) = seqZ 1 (inc_slots i) /\ inc_slots i = 4.
Proof.
  destruct (run_search (preprocess (chains []) (opts_of FULL true)) no_clock) as [s|] eqn:E;
    [|vm_compute in E; discriminate].
  destruct (inc (glob s)) as [i|] eqn:Ei.
  - exists i. split.
    + apply (recorded_schedule_structure (chains []) (opts_of FULL true) no_clock s i).
      * apply chains_bounds.
      * exact E.
      * exact Ei.
    + vm_compute in E. injection E as <-. simpl in Ei. injection Ei as <-. reflexivity.
  - vm_compute in E. injection E as <-. simpl in Ei. discriminate.
Defined.
