(* ===== verification/CpSolution.v ===== *)
(** From event logs to solutions of the CP oracle
    ([compiler/src/vtcm/cp_solver.cpp]): extraction of the segments, first-fit
    placement, the greedy fallback, the independent check [verify], the entry
    point [solve] and the adapters of its results. *)
From S2P Require Import Prelude Ir Lifetime CpModel CpSearch.

Record CPSegment := mkSeg {
  sg_s : Z; sg_e : Z; active : bool; fill_start : bool; spill_end : bool;
  vtcm_offset : Z; ddr_offset : Z
}.
Definition no_seg : CPSegment := mkSeg 0 0 false false false 0 0.
#[export] Instance CPSegment_inhabited : Inhabited CPSegment := populate no_seg.

Inductive Kind := COMPUTE | REMAT | PAGE_IN | PAGE_OUT.
Record CPTask := mkTask { tk_kind : Kind; tk_v : op_id_t; tk_bytes : Z; tk_slot : Z }.

#[export] Instance Kind_eq_dec : EqDecision Kind.
Proof. solve_decision. Defined.

(** [bound_gap], a [double] for reports, is left out. *)
Record CPSolution := mkSolution {
  feasible : bool; segments : list (CPSegment * CPSegment); sq : list CPTask;
  ddr_bytes : Z; peak_resident : Z; total_compute : Z; remat_count : Z; spill_count : Z;
  placement_degraded : Z; vtcm_arena_used : Z; ddr_arena_used : Z;
  optimal : bool; nodes_explored : Z; sol_abort : string
}.

Definition empty_solution : CPSolution :=
  mkSolution false [] [] 0 0 0 0 0 0 0 0 false 0 "".

Definition kAlign : Z := 128.
Definition kUnplaced : Z := 2 ^ 64 - 1.

Definition cp_align_up (x a : Z) : Z := u64 (u64 (u64 (x + a) - 1) / a * a).

(** Segment [i] of a tensor; any other index is undefined behaviour. *)
Definition seg (i : nat) (sgs : CPSegment * CPSegment) : CPSegment :=
  match i with O => sgs.1 | _ => sgs.2 end.
Definition set_seg (i : nat) (x : CPSegment) (sgs : CPSegment * CPSegment)
    : CPSegment * CPSegment :=
  match i with O => (x, sgs.2) | _ => (sgs.1, x) end.
Definition upd (v i : nat) (f : CPSegment -> CPSegment) (l : list (CPSegment * CPSegment))
    : list (CPSegment * CPSegment) :=
  alter (fun sgs => set_seg i (f (seg i sgs)) sgs) v l.

Section extract.
Context (p : Pre).

Let n := num_nodes (prob p).

(** ** [extract_from]: one log entry, oldest first.  [None]: the entry closes a
    tensor that is not open. *)
Definition extract_step (acc : list (CPSegment * CPSegment) * list nat) (e : Ent)
    : option (list (CPSegment * CPSegment) * list nat) :=
  let '(segs, open_seg) := acc in
  let v := e_v e in
  match e_k e with
  | L_COMPUTE =>
      Some (upd v 0 (fun g => mkSeg (e_slot e) (sg_e g) (active g) (fill_start g) (spill_end g)
                                (vtcm_offset g) (ddr_offset g)) segs,
            <[v := 0%nat]> open_seg)
  | L_REMAT | L_FILL =>
      Some (upd v 1 (fun g => mkSeg (e_slot e) (sg_e g) true (bool_decide (e_k e = L_FILL))
                                (spill_end g) (vtcm_offset g) (ddr_offset g)) segs,
            <[v := 1%nat]> open_seg)
  | L_SPILL =>
      let i := open_seg !!! v in
      if (1 <? i)%nat then None
      else Some (upd v i (fun g => mkSeg (sg_s g) (e_e e) (active g) (fill_start g) true
                                     (vtcm_offset g) (ddr_offset g)) segs,
                 <[v := 255%nat]> open_seg)
  | L_CLOSE =>
      let i := open_seg !!! v in
      if (1 <? i)%nat then None
      else Some (upd v i (fun g => mkSeg (sg_s g) (e_e e) (active g) (fill_start g) (spill_end g)
                                     (vtcm_offset g) (ddr_offset g)) segs,
                 <[v := 255%nat]> open_seg)
  end.

Fixpoint extract_segments (lg : list Ent) (acc : list (CPSegment * CPSegment) * list nat)
    : option (list (CPSegment * CPSegment) * list nat) :=
  match lg with
  | [] => Some acc
  | e :: lg => acc ← extract_step acc e; extract_segments lg acc
  end.

Definition activate (g : CPSegment) : CPSegment :=
  mkSeg (sg_s g) (sg_e g) true (fill_start g) (spill_end g) (vtcm_offset g) (ddr_offset g).

Definition task_of (e : Ent) : option CPTask :=
  let mk k := Some (mkTask k (ct_id (nth (e_v e) (nodes_of (prob p)) (mkTensor 0 0 1 2 false)))
                      (m_ p (e_v e)) (e_slot e)) in
  match e_k e with
  | L_COMPUTE => mk COMPUTE
  | L_REMAT => mk REMAT
  | L_FILL => mk PAGE_IN
  | L_SPILL => mk PAGE_OUT
  | L_CLOSE => None
  end.

(** The totals of the second loop. *)
Definition sum_kind (ks : list LK) (f : nat -> Z) (wr : Z -> Z) (lg : list Ent) : Z :=
  foldl (fun a e => if bool_decide (e_k e ∈ ks) then wr (a + f (e_v e)) else a) 0 lg.

(** ** [place_offsets] *)

Definition inflates (al : Z) : bool := existsb (fun v => negb (m_ p v mod al =? 0)) (seq 0 n).

(** [while (a > 1 && (a > M || inflates(a))) a >>= 1], from [kAlign]. *)
Fixpoint shrink_align (fuel : nat) (a : Z) : Z :=
  match fuel with
  | O => a
  | S fuel =>
      if (1 <? a) && ((cap_M (prob p) <? a) || inflates a)
      then shrink_align fuel (Z.shiftr a 1) else a
  end.

Definition place_align : Z := shrink_align 7 kAlign.

(** The active segments, by start slot, then size descending, then tensor. *)
Definition seg_lt (segs : list (CPSegment * CPSegment)) (a b : nat * nat) : bool :=
  let sa := sg_s (seg a.2 (segs !!! a.1)) in
  let sb := sg_s (seg b.2 (segs !!! b.1)) in
  if negb (sa =? sb) then sa <? sb
  else if negb (m_ p a.1 =? m_ p b.1) then m_ p b.1 <? m_ p a.1
  else (a.1 <? b.1)%nat.

Definition place_order (segs : list (CPSegment * CPSegment)) : list (nat * nat) :=
  std_sort (seg_lt segs)
    (filter (fun vi => active (seg vi.2 (segs !!! vi.1)) = true)
       (concat (map (fun v => [(v, 0); (v, 1)]%nat) (seq 0 n)))).

Record Placed := mkPlaced { q_s : Z; q_e : Z; q_off : Z; q_sz : Z }.

Definition clashes (sg : CPSegment) (off sz : Z) (q : Placed) : bool :=
  negb ((sg_e sg <? q_s q) || (q_e q <? sg_s sg)) &&
  negb ((u64 (off + sz) <=? q_off q) || (u64 (q_off q + q_sz q) <=? off)).

Definition fits_at (sg : CPSegment) (sz : Z) (dn : list Placed) (off : Z) : bool :=
  (u64 (off + sz) <=? cap_M (prob p)) && negb (existsb (clashes sg off sz) dn).

(** The offsets tried, ascending.  (The code also drops duplicates, which do
    not change the first offset that fits.) *)
Definition offset_cands (a : Z) (second : bool) (sgs : CPSegment * CPSegment) (dn : list Placed)
    : list Z :=
  std_sort Z.ltb (0 ::
    (if second && negb (vtcm_offset sgs.1 =? kUnplaced) then [vtcm_offset sgs.1] else []) ++
    concat (map (fun q => [q_off q; cp_align_up (u64 (q_off q + q_sz q)) a]) dn)).

Record PlaceState := mkPlace {
  pl_segs : list (CPSegment * CPSegment); pl_done : list Placed; degraded : Z; arena : Z
}.

Definition place_segment (a : Z) (ps : PlaceState) (vi : nat * nat) : PlaceState :=
  let '(v, i) := vi in
  let sgs := pl_segs ps !!! v in
  let sg := seg i sgs in
  let sz := cp_align_up (m_ p v) a in
  let set_off o := upd v i (fun g => mkSeg (sg_s g) (sg_e g) (active g) (fill_start g) (spill_end g)
                                       o (ddr_offset g)) (pl_segs ps) in
  match filter (fun off => fits_at sg sz (pl_done ps) off = true)
          (offset_cands a (i =? 1)%nat sgs (pl_done ps)) with
  | [] => mkPlace (set_off kUnplaced) (pl_done ps) (u32 (degraded ps + 1)) (arena ps)
  | off :: _ =>
      mkPlace (set_off off) (pl_done ps ++ [mkPlaced (sg_s sg) (sg_e sg) off sz]) (degraded ps)
        (if arena ps <? u64 (off + sz) then u64 (off + sz) else arena ps)
  end.

(** The DDR arena: spills in log order; a fill reuses its spill's address. *)
Definition arena_step (acc : list (CPSegment * CPSegment) * Z) (e : Ent)
    : list (CPSegment * CPSegment) * Z :=
  let '(segs, c) := acc in
  match e_k e with
  | L_SPILL =>
      let v := e_v e in
      let set g := mkSeg (sg_s g) (sg_e g) (active g) (fill_start g) (spill_end g) (vtcm_offset g) c in
      let segs := upd v 0 set segs in
      let sg1 := seg 1 (segs !!! v) in
      (if active sg1 && fill_start sg1 then upd v 1 set segs else segs, u64 (c + m_ p v))
  | _ => acc
  end.

Definition place_offsets (segs : list (CPSegment * CPSegment)) (lg : list Ent)
    : PlaceState * Z :=
  let ps := foldl (place_segment place_align) (mkPlace segs [] 0 0) (place_order segs) in
  let '(segs, used) := foldl arena_step (pl_segs ps, 0) lg in
  (mkPlace segs (pl_done ps) (degraded ps) (arena ps), used).

(** ** [recompute_peak]: open tensors, over the slots [1 .. 2n+2] *)
Definition covers_slot (slot : Z) (g : CPSegment) : bool :=
  active g && (sg_s g <=? slot) && (slot <=? sg_e g).

Definition residency (segs : list (CPSegment * CPSegment)) (slot : Z) : Z :=
  foldl (fun r v => if covers_slot slot (segs !!! v).1 || covers_slot slot (segs !!! v).2
                    then u64 (r + m_ p v) else r) 0 (seq 0 n).

Definition recompute_peak (segs : list (CPSegment * CPSegment)) : Z :=
  foldl (fun pk slot => Z.max pk (residency segs slot)) 0 (seqZ 1 (2 * Z.of_nat n + 2)).

(** [lg], oldest first; [nodes] the count so far. *)
Definition extract_from (lg : list Ent) (nodes : Z) : option CPSolution :=
  '(segs, _) ← extract_segments lg (replicate n (no_seg, no_seg), replicate n 255%nat);
  let segs := map (fun sgs => (activate sgs.1, sgs.2)) segs in
  let '(ps, ddr_used) := place_offsets segs lg in
  let u64w := (fun z => u64 z) in
  let u32w := (fun z => u32 z) in
  Some (mkSolution true (pl_segs ps) (omap task_of lg)
    (sum_kind [L_SPILL; L_FILL] (m_ p) u64w lg)
    (recompute_peak (pl_segs ps))
    (sum_kind [L_COMPUTE; L_REMAT] (w_ p) u64w lg)
    (sum_kind [L_REMAT] (fun _ => 1) u32w lg)
    (sum_kind [L_SPILL] (fun _ => 1) u32w lg)
    (degraded ps) (arena ps) ddr_used false nodes "").
End extract.

(** ** [verify] *)

(** The census of the task sequence, per tensor. *)
Record Census := mkCensus {
  n_comp : list Z; n_remat : list Z; n_pin : list Z; n_pout : list Z;
  comp_slot : list Z; remat_slot : list Z; pin_slot : list Z; pout_slot : list Z;
  last_start : Z; c_ddr : Z; c_compute : Z
}.

Definition id_index (prb : CPProblem) : gmap op_id_t nat :=
  foldl (fun m '(v, nd) => <[ct_id nd := v]> m) ∅ (zip (seq 0 (num_nodes prb)) (nodes_of prb)).

Definition node_m (prb : CPProblem) (v : nat) : Z := map ct_m (nodes_of prb) !!! v.
Definition node_w (prb : CPProblem) (v : nat) : Z := map eff_w (nodes_of prb) !!! v.

Definition bump (v : nat) (l : list Z) : list Z := <[v := u32 (l !!! v + 1)]> l.

(** One task; [inr] is the message of the violated check. *)
Definition census_step (prb : CPProblem) (c : Census) (t : CPTask) : Census + string :=
  match id_index prb !! tk_v t with
  | None => inr "seq references unknown tensor id"
  | Some v =>
      match tk_kind t with
      | COMPUTE =>
          if 1 <? bump v (n_comp c) !!! v then inr "Eq.12: more than one COMPUTE"
          else if tk_slot t <=? last_start c then inr "Eq.8: start slots not increasing"
          else inl (mkCensus (bump v (n_comp c)) (n_remat c) (n_pin c) (n_pout c)
                      (<[v := tk_slot t]> (comp_slot c)) (remat_slot c) (pin_slot c) (pout_slot c)
                      (tk_slot t) (c_ddr c) (u64 (c_compute c + node_w prb v)))
      | REMAT =>
          if 1 <? bump v (n_remat c) !!! v then inr "more than one REMAT (C_v=2 bound)"
          else if tk_slot t <=? last_start c then inr "Eq.8: start slots not increasing"
          else inl (mkCensus (n_comp c) (bump v (n_remat c)) (n_pin c) (n_pout c)
                      (comp_slot c) (<[v := tk_slot t]> (remat_slot c)) (pin_slot c) (pout_slot c)
                      (tk_slot t) (c_ddr c) (u64 (c_compute c + node_w prb v)))
      | PAGE_IN =>
          if 1 <? bump v (n_pin c) !!! v then inr "more than one PAGE_IN"
          else if tk_slot t <=? last_start c then inr "Eq.8: start slots not increasing"
          else inl (mkCensus (n_comp c) (n_remat c) (bump v (n_pin c)) (n_pout c)
                      (comp_slot c) (remat_slot c) (<[v := tk_slot t]> (pin_slot c)) (pout_slot c)
                      (tk_slot t) (u64 (c_ddr c + node_m prb v)) (c_compute c))
      | PAGE_OUT =>
          if 1 <? bump v (n_pout c) !!! v then inr "Eq.14: more than one PAGE_OUT"
          else if tk_slot t <? last_start c then inr "PAGE_OUT precedes current start"
          else inl (mkCensus (n_comp c) (n_remat c) (n_pin c) (bump v (n_pout c))
                      (comp_slot c) (remat_slot c) (pin_slot c) (<[v := tk_slot t]> (pout_slot c))
                      (last_start c) (u64 (c_ddr c + node_m prb v)) (c_compute c))
      end
  end.

Fixpoint census (prb : CPProblem) (ts : list CPTask) (c : Census) : Census + string :=
  match ts with
  | [] => inl c
  | t :: ts => match census_step prb c t with inl c => census prb ts c | inr e => inr e end
  end.

Definition empty_census (k : nat) : Census :=
  mkCensus (replicate k 0) (replicate k 0) (replicate k 0) (replicate k 0)
    (replicate k 0) (replicate k 0) (replicate k 0) (replicate k 0) 0 0 0.

(** The first failing check of a list, in order. *)
Fixpoint first_fail (checks : list (bool * string)) : option string :=
  match checks with
  | [] => None
  | (b, msg) :: checks => if b then Some msg else first_fail checks
  end.

Fixpoint first_some {A} (f : A -> option string) (l : list A) : option string :=
  match l with
  | [] => None
  | x :: l => match f x with Some e => Some e | None => first_some f l end
  end.

Definition segment_checks (c : Census) (segs : list (CPSegment * CPSegment)) (v : nat) : option string :=
  let s0 := (segs !!! v).1 in
  let s1 := (segs !!! v).2 in
  let has l := negb (l !!! v =? 0) in
  let one l := l !!! v =? 1 in
  match first_fail
    [(negb (active s0), "first segment inactive (Eq.12)");
     (negb (sg_s s0 =? comp_slot c !!! v), "seg0 start != COMPUTE slot");
     (sg_e s0 <? sg_s s0, "Eq.4: seg0 e < s");
     (negb (Bool.eqb (spill_end s0) (one (n_pout c))), "seg0.spill_end vs PAGE_OUT mismatch")] with
  | Some e => Some e
  | None =>
      if active s1 then
        first_fail
          [(negb (u32 (n_remat c !!! v + n_pin c !!! v) =? 1), "seg1 active but no reopen task");
           (negb (Bool.eqb (fill_start s1) (one (n_pin c))), "seg1.fill_start vs PAGE_IN mismatch");
           (negb (sg_s s1 =? (if has (n_pin c) then pin_slot c !!! v else remat_slot c !!! v)),
              "seg1 start mismatch");
           (sg_e s1 <? sg_s s1, "Eq.4: seg1 e < s");
           (sg_s s1 <? sg_e s0, "Eq.5: seg0 overlaps seg1");
           (fill_start s1 && negb (spill_end s0), "Eq.9: fill without prior spill");
           (fill_start s1 && negb (ddr_offset s1 =? ddr_offset s0),
              "Eq.9: fill DDR address != spill address")]
      else first_fail [(has (n_remat c) || has (n_pin c), "reopen task without active seg1")]
  end.

(** Residency of a slot, both segments counted. *)
Definition slot_bytes (prb : CPProblem) (segs : list (CPSegment * CPSegment)) (slot : Z) : Z :=
  foldl (fun r v =>
    let r := if covers_slot slot (segs !!! v).1 then u64 (r + node_m prb v) else r in
    if covers_slot slot (segs !!! v).2 then u64 (r + node_m prb v) else r)
    0 (seq 0 (num_nodes prb)).

Definition peak_bytes (prb : CPProblem) (segs : list (CPSegment * CPSegment)) : Z :=
  foldl (fun pk slot => Z.max pk (slot_bytes prb segs slot)) 0
    (seqZ 1 (2 * Z.of_nat (num_nodes prb) + 2)).

(** The predecessors as [verify] reads them: every edge between nodes. *)
Definition edge_preds (prb : CPProblem) (v : nat) : list nat :=
  map fst (filter (fun e => (e.1 <? num_nodes prb)%nat && (e.2 <? num_nodes prb)%nat
                             && (e.2 =? v)%nat = true) (edges prb)).

Definition covered (segs : list (CPSegment * CPSegment)) (slot : Z) (u : nat) : bool :=
  covers_slot slot (segs !!! u).1 || covers_slot slot (segs !!! u).2.

Definition coverage_checks (prb : CPProblem) (c : Census) (segs : list (CPSegment * CPSegment))
    (v : nat) : option string :=
  let at_slot slot :=
    if forallb (covered segs slot) (edge_preds prb v) then None
    else Some "Eq.7: predecessor segment does not cover consumer" in
  match at_slot (comp_slot c !!! v) with
  | Some e => Some e
  | None => if remat_slot c !!! v =? 0 then None else at_slot (remat_slot c !!! v)
  end.

Definition count_kind (k : Kind) (ts : list CPTask) : Z :=
  foldl (fun a t => if bool_decide (tk_kind t = k) then u32 (a + 1) else a) 0 ts.

(** [None]: the solution passes; otherwise the first violated check. *)
Definition verify (prb : CPProblem) (s : CPSolution) : option string :=
  let k := num_nodes prb in
  if negb (length (segments s) =? k)%nat then Some "segments size mismatch"
  else if negb (feasible s) then Some "solution marked infeasible"
  else
    match census prb (sq s) (empty_census k) with
    | inr e => Some e
    | inl c =>
        match first_some (fun v => if n_comp c !!! v =? 1 then None
                            else Some "Eq.12: node not computed exactly once") (seq 0 k) with
        | Some e => Some e
        | None =>
            match first_some (segment_checks c (segments s)) (seq 0 k) with
            | Some e => Some e
            | None =>
                let pk := peak_bytes prb (segments s) in
                match first_fail [(cap_M prb <? pk, "Eq.6: residency exceeds M");
                                  (negb (pk =? peak_resident s), "peak_resident mismatch")] with
                | Some e => Some e
                | None =>
                    match first_some (coverage_checks prb c (segments s)) (seq 0 k) with
                    | Some e => Some e
                    | None =>
                        first_fail
                          [(budget_W prb <? c_compute c, "Eq.10: compute budget exceeded");
                           (negb (c_ddr c =? ddr_bytes s), "ddr_bytes mismatch");
                           (negb (c_compute c =? total_compute s), "total_compute mismatch");
                           (negb (count_kind REMAT (sq s) =? remat_count s)
                            || negb (count_kind PAGE_OUT (sq s) =? spill_count s), "counters mismatch")]
                    end
                end
            end
        end
    end.

(** ** The greedy fallback *)

Record Greedy := mkGreedy {
  glog : list Ent;                                  (** newest first *)
  live : list bool; paged : list bool; g_spilled : list bool;
  g_res : Z; cu : Z; sl : Z
}.

Definition at_ (l : list bool) (u : nat) : bool := l !!! u.

Section greedy.
Context (p : Pre).

Let n := num_nodes (prob p).

Definition crank : list Z :=
  foldl (fun l '(r, v) => <[v := Z.of_nat r]> l) (replicate n 0)
    (zip (seq 0 n) (topo_seq p)).

Definition last_rank : list Z :=
  foldl (fun l e => if l !!! e.1 <? crank !!! e.2 then <[e.1 := crank !!! e.2]> l else l)
    (replicate n 0) (edges (prob p)).

(** Reopen a paged predecessor, each fill in a slot of its own. *)
Definition reopen_step (acc : Greedy + string) (u : nat) : Greedy + string :=
  match acc with
  | inr e => inr e
  | inl g =>
      if at_ (live g) u then inl g
      else if at_ (paged g) u then
        let slot := u32 (sl g + 1) in
        inl (mkGreedy (mkEnt slot L_FILL u 0 :: glog g) (<[u := true]> (live g))
               (<[u := false]> (paged g)) (g_spilled g) (u64 (g_res g + m_ p u)) (cu g) slot)
      else inr "greedy-infeasible"
  end.

Definition compute_step (c : nat) (g : Greedy) : Greedy + string :=
  let res := u64 (g_res g + m_ p c) in
  let cu' := u64 (cu g + w_ p c) in
  if budget_W (prob p) <? cu' then inr "greedy-W"
  else
    let slot := u32 (sl g + 1) in
    if cap_M (prob p) <? res then inr "greedy-infeasible"
    else inl (mkGreedy (mkEnt slot L_COMPUTE c 0 :: glog g) (<[c := true]> (live g)) (paged g)
                (g_spilled g) res cu' slot).

Definition close_step (r : Z) (g : Greedy) (u : nat) : Greedy :=
  if at_ (live g) u && negb (at_ (paged g) u) && (last_rank !!! u =? r) && (crank !!! u <=? r) then
    mkGreedy (mkEnt (sl g) L_CLOSE u (sl g) :: glog g) (<[u := false]> (live g)) (paged g)
      (g_spilled g) (u64 (g_res g - m_ p u)) (cu g) (sl g)
  else g.

(** Spill the largest tensors that the next step does not read. *)
Definition evictable (r : Z) (nxt : nat) (g : Greedy) (u : nat) : bool :=
  at_ (live g) u && negb (at_ (g_spilled g) u) && negb (last_rank !!! u <=? r + 1) &&
  negb (bool_decide (u ∈ preds_ p nxt)) && negb (C_ p u <? 2).

Definition spill_step (acc : Greedy * Z) (u : nat) : Greedy * Z :=
  let '(g, forced) := acc in
  if forced <=? cap_M (prob p) then acc
  else
    (mkGreedy (mkEnt (sl g) L_SPILL u (sl g) :: glog g) (<[u := false]> (live g))
       (<[u := true]> (paged g)) (<[u := true]> (g_spilled g)) (u64 (g_res g - m_ p u)) (cu g) (sl g),
     u64 (forced - m_ p u)).

Definition lookahead (r : Z) (nxt : nat) (g : Greedy) : Greedy + string :=
  let forced := foldl (fun f u => if negb (at_ (live g) u) && at_ (paged g) u then u64 (f + m_ p u) else f)
                  (u64 (g_res g + m_ p nxt)) (preds_ p nxt) in
  if forced <=? cap_M (prob p) then inl g
  else if negb (allow_paging p) then inr "greedy-infeasible"
  else
    let vict := std_sort (fun a b => m_ p b <? m_ p a)
                  (filter (fun u => evictable r nxt g u = true) (seq 0 n)) in
    let '(g, forced) := foldl spill_step (g, forced) vict in
    if cap_M (prob p) <? forced then inr "greedy-infeasible" else inl g.

Definition rank_step (acc : Greedy + string) (rc : nat * nat) : Greedy + string :=
  let '(r, c) := rc in
  match foldl reopen_step acc (preds_ p c) with
  | inr e => inr e
  | inl g =>
      match compute_step c g with
      | inr e => inr e
      | inl g =>
          let g := foldl (close_step (Z.of_nat r)) g (seq 0 n) in
          match topo_seq p !! S r with
          | Some nxt => lookahead (Z.of_nat r) nxt g
          | None => inl g
          end
      end
  end.

Definition greedy_log : list Ent + string :=
  let init := mkGreedy [] (replicate n false) (replicate n false) (replicate n false) 0 0 0 in
  match foldl rank_step (inl init) (zip (seq 0 n) (topo_seq p)) with
  | inr e => inr e
  | inl g =>
      inl (foldl (fun lg u => if at_ (live g) u then mkEnt (sl g) L_CLOSE u (sl g) :: lg else lg)
             (glog g) (seq 0 n))
  end.

Definition with_abort (s : CPSolution) (f : bool) (o : bool) (why : string) : CPSolution :=
  mkSolution f (segments s) (sq s) (ddr_bytes s) (peak_resident s) (total_compute s)
    (remat_count s) (spill_count s) (placement_degraded s) (vtcm_arena_used s) (ddr_arena_used s)
    o (nodes_explored s) why.

(** The tables [last_rank] and [crank] have an entry for the ends of each
    edge. *)
Definition edges_in_range : bool := forallb (fun e => (e.1 <? n)%nat && (e.2 <? n)%nat) (edges (prob p)).

(** [None]: an edge leads outside the tables, or the log closes a tensor that
    is not open (undefined behaviour). *)
Definition solve_greedy (why : string) (nodes : Z) : option CPSolution :=
  if negb edges_in_range then None
  else
  match greedy_log with
  | inr e => Some (with_abort empty_solution false false (why ++ "+" ++ e)%string)
  | inl lg =>
      s ← extract_from p (rev lg) nodes;
      match verify (prob p) s with
      | None => Some (with_abort s (feasible s) false why)
      | Some e => Some (with_abort s false false (why ++ ("+verify-failed: " ++ e))%string)
      end
  end.

(** ** [CPSolver::solve] *)
Definition solve (clock : Z -> bool) : option CPSolution :=
  if (n =? 0)%nat then Some (with_abort empty_solution true true "")
  else if budget_W (prob p) <? sum_w p then
    Some (with_abort empty_solution false false "W below sum(w): no solution can compute every node")
  else if existsb (fun v => cap_M (prob p) <? m_ p v) (seq 0 n) then
    Some (with_abort empty_solution false false "tensor m exceeds M (can never be resident)")
  else if max_exact_nodes (opts p) <? Z.of_nat n then solve_greedy "exact-size-limit" 0
  else
    s ← run_search p clock;
    let g := glob s in
    match inc g with
    | Some i =>
        out ← extract_from p (rev (inc_log i)) (nodes g);
        let out := if aborted g then with_abort out true false (abort_reason g)
                   else with_abort out true true "" in
        match verify (prob p) out with
        | None => Some out
        | Some e => Some (with_abort out false false ("verify-failed: " ++ e)%string)
        end
    | None =>
        if aborted g then solve_greedy (abort_reason g) (nodes g)
        else Some (with_abort empty_solution false false "infeasible: search tree exhausted")
    end.
End greedy.

(** [CPSolver(problem, options).solve()]. *)
Definition CPSolver_solve (prb : CPProblem) (o : CPOptions) (clock : Z -> bool) : option CPSolution :=
  solve (preprocess prb o) clock.

(** ** Adapters *)

Definition to_alloc_results (sol : CPSolution) (prb : CPProblem) : gmap op_id_t AllocResult :=
  if negb (length (segments sol) =? num_nodes prb)%nat then ∅
  else
    (foldl (fun '(block, m) '(sgs, nd) =>
       let s0 := fst (sgs : CPSegment * CPSegment) in
       if vtcm_offset s0 =? kUnplaced
       then (block, <[ct_id nd := mkAllocResult 0 0 true]> m)
       else (u32 (block + 1), <[ct_id nd := mkAllocResult (vtcm_offset s0) block false]> m))
     (1, ∅) (zip (segments sol) (nodes_of prb))).2.

Record CPSpillFillPlan := mkCPPlan {
  spill_position : Z; fill_position : Z; pl_vtcm_offset : Z; pl_vtcm_offset_spill : Z;
  pl_ddr_offset : Z; pl_size : Z; pl_op : op_id_t
}.

Definition topo_pos (prb : CPProblem) : gmap op_id_t Z :=
  foldl (fun m '(i, id) => <[id := Z.of_nat i]> m) ∅
    (zip (seq 0 (length (topo_hint prb))) (topo_hint prb)).

(** The consumptions of [v], in sequence order: slot and consumer. *)
Definition consumptions (sol : CPSolution) (prb : CPProblem) (v : nat) : list (Z * nat) :=
  let idx := id_index prb in
  concat (map (fun t =>
    if bool_decide (tk_kind t = COMPUTE) || bool_decide (tk_kind t = REMAT) then
      match idx !! tk_v t with
      | Some c => omap (fun e => if (e.2 =? c)%nat && (e.1 =? v)%nat then Some (tk_slot t, c) else None)
                    (filter (fun e => (e.2 <? num_nodes prb)%nat = true) (edges prb))
      | None => []
      end
    else []) (sq sol)).

(** The last consumption not after [e], the first one not before [s]. *)
Definition last_before (e : Z) (cs : list (Z * nat)) : option (Z * nat) :=
  foldl (fun best c => if (c.1 <=? e) && match best with None => true | Some b => b.1 <? c.1 end
                       then Some c else best) None cs.
Definition first_after (s : Z) (cs : list (Z * nat)) : option (Z * nat) :=
  foldl (fun best c => if (s <=? c.1) && match best with None => true | Some b => c.1 <? b.1 end
                       then Some c else best) None cs.

Definition plan_of (sol : CPSolution) (prb : CPProblem) (v : nat) : option CPSpillFillPlan :=
  let s0 := (segments sol !!! v).1 in
  let s1 := (segments sol !!! v).2 in
  if negb (spill_end s0) || negb (active s1) || negb (fill_start s1) then None
  else
    let cs := consumptions sol prb v in
    match last_before (sg_e s0) cs, first_after (sg_s s1) cs with
    | Some l0, Some f1 =>
        let node c := nth c (nodes_of prb) (mkTensor 0 0 1 2 false) in
        let pos c := default 0 (topo_pos prb !! ct_id (node c)) in
        let off g := if vtcm_offset g =? kUnplaced then 0 else vtcm_offset g in
        Some (mkCPPlan (pos l0.2) (pos f1.2) (off s1) (off s0) (ddr_offset s0)
                (ct_m (node v)) (ct_id (node v)))
    | _, _ => None
    end.

Definition to_spill_fill_plans (sol : CPSolution) (prb : CPProblem) : list CPSpillFillPlan :=
  if negb (length (segments sol) =? num_nodes prb)%nat then []
  else omap (plan_of sol prb) (seq 0 (num_nodes prb)).

(** ** [solve] *)

Lemma verify_with_abort prb s f o w :
  f = feasible s -> verify prb (with_abort s f o w) = verify prb s.
Proof. by intros ->. Qed.

Lemma extract_feasible p lg k s : extract_from p lg k = Some s -> feasible s = true.
Proof.
  unfold extract_from. intros H. destruct (extract_segments _ _) as [[segs o]|]; [|done]. simpl in H.
  destruct (place_offsets _ _ _) as [ps d]. by simplify_eq.
Qed.

Lemma solve_greedy_verified p why k s :
  solve_greedy p why k = Some s -> feasible s = true -> verify (prob p) s = None.
Proof.
  unfold solve_greedy. destruct (negb _); [done|]. destruct (greedy_log p) as [lg|e]; [|by intros ?; simplify_eq].
  destruct (extract_from p (rev lg) k) as [s'|]; [|done]. simpl.
  destruct (verify (prob p) s') eqn:E; intros ?; simplify_eq; [done|].
  intros _. by rewrite verify_with_abort.
Qed.

Lemma solve_passes_verify prb o clock s :
  (0 < num_nodes prb)%nat -> CPSolver_solve prb o clock = Some s -> feasible s = true ->
  verify prb s = None.
Proof.
  intros Hn. unfold CPSolver_solve, solve.
  assert (Hp : prob (preprocess prb o) = prb) by (unfold preprocess; by destruct (topo_ranks prb)).
  rewrite !Hp. rewrite (proj2 (Nat.eqb_neq (num_nodes prb) 0)) by lia.
  destruct (_ <? _); [by intros ?; simplify_eq|].
  destruct (existsb _ _); [by intros ?; simplify_eq|].
  assert (Hg : forall why k, solve_greedy (preprocess prb o) why k = Some s -> feasible s = true ->
            verify prb s = None).
  { intros why k. rewrite <- Hp at 2. apply solve_greedy_verified. }
  destruct (_ <? _); [apply Hg|].
  destruct (run_search _ _) as [s'|]; [|done]. simpl.
  destruct (inc (glob s')) as [i|].
  - destruct (extract_from _ _ _) as [out|]; [|done]. simpl.
    match goal with |- context [match verify prb ?x with _ => _ end] => destruct (verify prb x) eqn:E end;
      intros [= <-]; [done|by intros _].
  - destruct (aborted _); [apply Hg|by intros ?; simplify_eq].
Qed.

(** C1: [solve] never returns an unchecked schedule: whatever path produced it
    (exact search complete, exact search cut off, greedy fallback), a solution
    of a non-empty problem that is marked feasible passes [verify]. *)
Theorem solve_verified prb o clock s :
  (0 < num_nodes prb)%nat -> CPSolver_solve prb o clock = Some s -> feasible s = true ->
  verify prb s = None.
Proof. apply solve_passes_verify. Qed.

(** One long-lived tensor over a chain. *)
Definition skip_chain (M : Z) : CPProblem :=
  mkProblem (map (fun id => mkTensor id 256 1 2 false) [10; 11; 12; 13; 14])
    [(0, 1); (1, 2); (2, 3); (3, 4); (0, 4)]%nat M 7 [10; 11; 12; 13; 14].

Lemma solve_verified_witness :
  exists s, CPSolver_solve (skip_chain 768) (opts_of FULL true) no_clock = Some s /\
    verify (skip_chain 768) s = None.
Proof.
  destruct (CPSolver_solve (skip_chain 768) (opts_of FULL true) no_clock) as [s|] eqn:E;
    [|vm_compute in E; discriminate].
  exists s. split; [reflexivity|].
  apply (solve_verified (skip_chain 768) (opts_of FULL true) no_clock s).
  - vm_compute. lia.
  - exact E.
  - vm_compute in E. injection E as <-. reflexivity.
Defined.

Definition two_tensors : CPProblem :=
  mkProblem [mkTensor 1 3 1 2 false; mkTensor 2 3 1 2 false] [] 3 2 [].
Definition late_solution : CPSolution :=
  mkSolution true [(mkSeg 100 101 true false false 0 0, no_seg); (mkSeg 101 101 true false false 0 0, no_seg)]
    [mkTask COMPUTE 1 3 100; mkTask COMPUTE 2 3 101] 0 0 2 0 0 0 0 0 true 0 "".

(** [verify] reads the residency only in the slots [1 .. 2n+2], so it does
    not check Eq. 6 on its own: a solution whose slots lie beyond is accepted
    with any residency.  Here two tensors of 3 bytes are open together in slot
    101 of a 3-byte memory. *)
Theorem verify_misses_late_slots :
  verify two_tensors late_solution = None /\
  slot_bytes two_tensors (segments late_solution) 101 = 6 /\ cap_M two_tensors = 3.
Proof. by vm_compute. Qed.

(** ** Placement *)

Lemma seg_upd_same v i f l :
  (v < length l)%nat -> (i < 2)%nat -> seg i (upd v i f l !!! v) = f (seg i (l !!! v)).
Proof.
  intros Hv Hi. unfold upd. rewrite !list_lookup_total_alt, list_lookup_alter, decide_True by done.
  destruct (lookup_lt_is_Some_2 l v Hv) as [x ->]. simpl. by destruct i as [|[|i]]; [..|lia].
Qed.

Lemma seg_upd_other v i v' i' f l :
  (i < 2)%nat -> (i' < 2)%nat -> (v, i) <> (v', i') ->
  seg i' (upd v i f l !!! v') = seg i' (l !!! v').
Proof.
  intros Hi Hi' Hne. unfold upd. rewrite !list_lookup_total_alt, list_lookup_alter.
  case_decide as E; [|done]. subst v'. destruct (l !! v) as [x|]; [|done]. simpl.
  destruct i as [|[|i]], i' as [|[|i']]; try lia; by try congruence.
Qed.

Lemma upd_length v i f l : length (upd v i f l) = length l.
Proof. apply length_alter. Qed.

#[local] Arguments prod_inhabited : simpl never.

Section placement.
Context (p : Pre).

Let n := num_nodes (prob p).
Let M := cap_M (prob p).
Let a := place_align p.

Hypothesis Hm : forall v, (v < n)%nat -> 0 <= m_ p v <= M.
Hypothesis HM : 0 <= M < 2 ^ 62.

Lemma shrink_align_spec k :
  let r := shrink_align p k (2 ^ Z.of_nat k) in
  1 <= r <= 2 ^ Z.of_nat k /\ forall v, (v < n)%nat -> (r | m_ p v).
Proof.
  induction k as [|k IH]; [split; [simpl; lia|intros; apply Z.divide_1_l]|].
  assert (Hpow : 2 ^ Z.of_nat (S k) = 2 * 2 ^ Z.of_nat k).
  { rewrite Nat2Z.inj_succ, Z.pow_succ_r by lia. done. }
  assert (0 < 2 ^ Z.of_nat k) by (apply Z.pow_pos_nonneg; lia).
  change (shrink_align p (S k) (2 ^ Z.of_nat (S k))) with
    (if (1 <? 2 ^ Z.of_nat (S k)) && ((M <? 2 ^ Z.of_nat (S k)) || inflates p (2 ^ Z.of_nat (S k)))
     then shrink_align p k (Z.shiftr (2 ^ Z.of_nat (S k)) 1) else 2 ^ Z.of_nat (S k)).
  destruct (_ && _) eqn:E.
  - rewrite Z.shiftr_div_pow2 by lia.
    replace (2 ^ Z.of_nat (S k) / 2 ^ 1) with (2 ^ Z.of_nat k)
      by (rewrite Hpow, Z.mul_comm; change (2 ^ 1) with 2; by rewrite Z.div_mul).
    destruct IH as [? ?]. split; [lia|done].
  - split; [lia|]. intros v Hv. apply andb_false_iff in E as [E|E]; bool_prop; [lia|].
    match goal with H : inflates p _ = false |- _ => unfold inflates in H; rename H into Hi end.
    apply Z.mod_divide; [lia|]. destruct (decide (m_ p v mod 2 ^ Z.of_nat (S k) = 0)) as [?|Hnd]; [done|]. exfalso.
    assert (Ht : existsb (fun v => negb (m_ p v mod 2 ^ Z.of_nat (S k) =? 0)) (seq 0 n) = true).
    { apply existsb_exists. exists v. split; [apply list_elem_of_In, elem_of_seq; lia|].
      by apply negb_true_iff, Z.eqb_neq. }
    subst n. congruence.
Qed.

Lemma place_align_spec : 1 <= a <= 128 /\ forall v, (v < n)%nat -> (a | m_ p v).
Proof. exact (shrink_align_spec 7). Qed.

Lemma cp_align_up_multiple x : 0 <= x < 2 ^ 63 -> (a | x) -> cp_align_up x a = x.
Proof.
  intros Hx Hd. destruct place_align_spec as [Ha _]. unfold cp_align_up.
  rewrite (wrap_id 64 (x + a)), (wrap_id 64 (x + a - 1)) by lia.
  change ((x + a - 1) / a * a) with (round_up x a). rewrite round_up_multiple by (lia || done).
  apply wrap_id. lia.
Qed.

(** The segments before placement, and a placed one. *)
Definition same_times (segs0 segs : list (CPSegment * CPSegment)) : Prop :=
  length segs = length segs0 /\
  forall v i, (i < 2)%nat -> sg_s (seg i (segs !!! v)) = sg_s (seg i (segs0 !!! v)) /\
    sg_e (seg i (segs !!! v)) = sg_e (seg i (segs0 !!! v)) /\
    active (seg i (segs !!! v)) = active (seg i (segs0 !!! v)).

Definition compat (segs : list (CPSegment * CPSegment)) (x y : nat * nat) : Prop :=
  let gx := seg x.2 (segs !!! x.1) in
  let gy := seg y.2 (segs !!! y.1) in
  vtcm_offset gx <> kUnplaced -> vtcm_offset gy <> kUnplaced ->
  sg_s gx <= sg_e gy -> sg_s gy <= sg_e gx ->
  disjoint_ranges (vtcm_offset gx, m_ p x.1) (vtcm_offset gy, m_ p y.1).

Definition placed_ok (segs : list (CPSegment * CPSegment)) (dn : list Placed) (x : nat * nat) : Prop :=
  let g := seg x.2 (segs !!! x.1) in
  vtcm_offset g = kUnplaced \/ mkPlaced (sg_s g) (sg_e g) (vtcm_offset g) (m_ p x.1) ∈ dn.

Record PInv (segs0 : list (CPSegment * CPSegment)) (dn : list (nat * nat)) (ps : PlaceState) : Prop := {
  p_done : forall q, q ∈ pl_done ps ->
    0 <= q_off q /\ 0 <= q_sz q /\ q_off q + q_sz q <= M /\ (a | q_off q) /\ (a | q_sz q);
  p_same : same_times segs0 (pl_segs ps);
  p_idx : forall x, x ∈ dn -> (x.2 < 2)%nat;
  p_placed : forall x, x ∈ dn -> placed_ok (pl_segs ps) (pl_done ps) x;
  p_rest : forall v i, (i < 2)%nat -> (v, i) ∉ dn -> vtcm_offset (seg i (pl_segs ps !!! v)) = 0;
  p_compat : forall x y, x ∈ dn -> y ∈ dn -> x <> y -> compat (pl_segs ps) x y
}.

Lemma offset_cands_ok segs0 dn ps v second off :
  PInv segs0 dn ps -> off ∈ offset_cands a second (pl_segs ps !!! v) (pl_done ps) ->
  0 <= off <= M /\ (a | off).
Proof.
  intros [Hd _ _ Hpl Hrest _]. unfold offset_cands. rewrite std_sort_elem, elem_of_cons, elem_of_app.
  intros [->|[Hin|Hin]].
  - split; [lia|apply Z.divide_0_r].
  - destruct (second && negb _) eqn:E; [|by apply elem_of_nil in Hin].
    apply list_elem_of_singleton in Hin as ->. bool_prop.
    destruct (decide ((v, 0%nat) ∈ dn)) as [Hin|Hnin].
    + destruct (Hpl _ Hin) as [Hu|Hq]; simpl in *; [done|]. apply Hd in Hq. simpl in Hq.
      split; [lia|tauto].
    + specialize (Hrest v 0%nat ltac:(lia) Hnin). simpl in Hrest. rewrite Hrest.
      split; [lia|apply Z.divide_0_r].
  - apply elem_of_concat in Hin as (l & (q & -> & Hq)%elem_of_map & Hin).
    destruct (Hd q Hq) as (? & ? & ? & ? & ?). rewrite wrap_id in Hin by lia.
    rewrite cp_align_up_multiple in Hin by (lia || by apply Z.divide_add_r).
    apply elem_of_cons in Hin as [->|[->|Hin]%elem_of_cons]; [|split; [lia|by apply Z.divide_add_r]|by apply elem_of_nil in Hin].
    split; [lia|done].
Qed.

Lemma place_segment_ok segs0 dn ps v i :
  PInv segs0 dn ps -> (v < n)%nat -> (i < 2)%nat -> length segs0 = n -> (v, i) ∉ dn ->
  PInv segs0 (dn ++ [(v, i)]) (place_segment p a ps (v, i)).
Proof.
  intros HP Hv Hi Hlen Hnin.
  pose proof HP as [Hd [Hl Hs] Hidx Hpl Hrest Hc].
  destruct place_align_spec as [Ha Hdiv].
  assert (Hsz : cp_align_up (m_ p v) a = m_ p v)
    by (apply cp_align_up_multiple; [pose proof (Hm v Hv); lia|by apply Hdiv]).
  unfold place_segment. rewrite Hsz.
  set (sgs := pl_segs ps !!! v). set (sg := seg i sgs).
  set (set_off o := upd v i (fun g => mkSeg (sg_s g) (sg_e g) (active g) (fill_start g) (spill_end g)
                                       o (ddr_offset g)) (pl_segs ps)).
  assert (Hself : forall o, seg i (set_off o !!! v) = mkSeg (sg_s sg) (sg_e sg) (active sg)
            (fill_start sg) (spill_end sg) o (ddr_offset sg)).
  { intros o. unfold set_off. by rewrite seg_upd_same by lia. }
  assert (Hother : forall o v' i', (i' < 2)%nat -> (v', i') <> (v, i) ->
            seg i' (set_off o !!! v') = seg i' (pl_segs ps !!! v')).
  { intros o v' i' Hi' Hne. unfold set_off. by rewrite seg_upd_other by (lia || congruence). }
  assert (Hsame : forall o, same_times segs0 (set_off o)).
  { intros o. split; [unfold set_off; by rewrite upd_length|]. intros v' i' Hi'.
    destruct (decide ((v', i') = (v, i))) as [[= -> ->]|Hne].
    - rewrite Hself. simpl. by apply Hs.
    - rewrite Hother by done. by apply Hs. }
  assert (Hext : forall o dn' dg ar,
    (forall q, q ∈ pl_done ps -> q ∈ dn') ->
    (forall q, q ∈ dn' -> 0 <= q_off q /\ 0 <= q_sz q /\ q_off q + q_sz q <= M /\ (a | q_off q) /\ (a | q_sz q)) ->
    (o = kUnplaced \/ mkPlaced (sg_s sg) (sg_e sg) o (m_ p v) ∈ dn') ->
    (o <> kUnplaced -> forall q, q ∈ pl_done ps -> sg_s sg <= q_e q -> q_s q <= sg_e sg ->
       disjoint_ranges (o, m_ p v) (q_off q, q_sz q)) ->
    PInv segs0 (dn ++ [(v, i)]) (mkPlace (set_off o) dn' dg ar)).
  { intros o dn' dg ar Hsub Hok Hself_ok Hnew. split; simpl.
    - done.
    - apply Hsame.
    - intros x [Hx| ->%list_elem_of_singleton]%elem_of_app; [by apply Hidx|done].
    - intros [v' i'] [Hx| ->%list_elem_of_singleton]%elem_of_app; unfold placed_ok; simpl.
      + rewrite Hother by (by apply (Hidx (v', i')) || (intros ?; simplify_eq; done)).
        destruct (Hpl _ Hx) as [?|?]; [by left|right]. by apply Hsub.
      + rewrite Hself. done.
    - intros v' i' Hi' Hn. rewrite Hother by (done || (intros ?; simplify_eq; set_solver)).
      apply Hrest; [done|set_solver].
    - assert (Hold : forall x, x ∈ dn -> compat (set_off o) (v, i) x).
      { intros [v' i'] Hx. unfold compat. simpl. rewrite Hself. simpl.
        rewrite Hother by (by apply (Hidx (v', i')) || (intros ?; simplify_eq; done)).
        intros Hu1 Hu2 Ht1 Ht2. destruct (Hpl _ Hx) as [?|Hq]; [done|]. simpl in Hq.
        by apply (Hnew Hu1 _ Hq). }
      intros x y [Hx| ->%list_elem_of_singleton]%elem_of_app [Hy| ->%list_elem_of_singleton]%elem_of_app Hne.
      + destruct x as [vx ix], y as [vy iy]. unfold compat. simpl.
        rewrite !Hother by (by apply (Hidx (vx, ix)) || by apply (Hidx (vy, iy)) || (intros ?; simplify_eq; done)).
        by apply (Hc (vx, ix) (vy, iy)).
      + intros ? ? ? ?. by apply disjoint_ranges_sym, Hold.
      + by apply Hold.
      + done. }
  destruct (filter _ _) as [|off offs] eqn:Ef.
  - apply Hext; [done|done|by left|done].
  - assert (Hoff : off ∈ filter (fun off => fits_at p sg (m_ p v) (pl_done ps) off = true)
              (offset_cands a (i =? 1)%nat sgs (pl_done ps))) by (rewrite Ef; set_solver).
    apply list_elem_of_filter in Hoff as [Hfit Hoff].
    apply (offset_cands_ok segs0 dn ps v) in Hoff as [Hr Hdo]; [|done].
    pose proof (Hm v Hv). unfold fits_at in Hfit. apply andb_true_iff in Hfit as [Hle Hcl].
    rewrite wrap_id in Hle by lia. bool_prop. fold M in Hle.
    apply Hext.
    + set_solver.
    + intros q [Hq| ->%list_elem_of_singleton]%elem_of_app; [by apply Hd|]. simpl.
      split_and!; [lia..|done|by apply Hdiv].
    + right. set_solver.
    + intros _ q Hq Ht1 Ht2. destruct (Hd q Hq) as (? & ? & ? & _).
      assert (Hno : clashes sg off (m_ p v) q = false).
      { destruct (clashes sg off (m_ p v) q) eqn:E; [|done].
        rewrite <- Hcl. symmetry. apply existsb_exists. exists q. by rewrite <- list_elem_of_In. }
      unfold clashes in Hno. rewrite !wrap_id in Hno by lia. unfold disjoint_ranges. simpl.
      apply andb_false_iff in Hno as [E|E]; apply negb_false_iff, orb_true_iff in E as [E|E]; bool_prop; lia.
Qed.

Lemma place_segments_ok segs0 order dn ps :
  PInv segs0 dn ps -> length segs0 = n -> NoDup (dn ++ order) ->
  (forall x, x ∈ order -> (x.1 < n)%nat /\ (x.2 < 2)%nat) ->
  PInv segs0 (dn ++ order) (foldl (place_segment p a) ps order).
Proof.
  revert dn ps. induction order as [|[v i] order IH]; intros dn ps HP Hl Hnd Ho; [by rewrite app_nil_r|].
  simpl. rewrite (app_assoc dn [(v, i)] order : dn ++ (v, i) :: order = _) in Hnd |- *.
  destruct (Ho (v, i)) as [? ?]; [set_solver|].
  apply IH; [apply place_segment_ok; try done| | |].
  - apply NoDup_app in Hnd as (Hnd & _). apply NoDup_app in Hnd as (_ & Hx & _).
    intros Hin. apply (Hx _ Hin). set_solver.
  - done.
  - done.
  - intros x Hx. apply Ho. set_solver.
Qed.

Lemma pairs_NoDup (vs : list nat) :
  NoDup vs -> NoDup (concat (map (fun v => [(v, 0); (v, 1)]%nat) vs)).
Proof.
  induction vs as [|v vs IH]; intros Hnd; [constructor|].
  apply NoDup_cons in Hnd as [Hv Hnd]. simpl.
  assert (Hout : forall i, (v, i) ∉ concat (map (fun v => [(v, 0); (v, 1)]%nat) vs)).
  { intros i (l & (u & -> & Hu)%elem_of_map & Hin)%elem_of_concat.
    rewrite !elem_of_cons, elem_of_nil in Hin. destruct Hin as [?|[?|[]]]; simplify_eq; done. }
  apply NoDup_cons. split; [|apply NoDup_cons; split; [apply Hout|by apply IH]].
  intros [?|?]%elem_of_cons; [done|by eapply Hout].
Qed.

Lemma place_order_spec segs :
  NoDup (place_order p segs) /\
  forall x, x ∈ place_order p segs <->
    (x.1 < n)%nat /\ (x.2 < 2)%nat /\ active (seg x.2 (segs !!! x.1)) = true.
Proof.
  unfold place_order. split.
  - rewrite std_sort_perm. apply NoDup_filter, pairs_NoDup, NoDup_seq.
  - intros [v i]. rewrite std_sort_elem, list_elem_of_filter, elem_of_concat. simpl.
    change (num_nodes (prob p)) with n. split.
    + intros [Ha (l & (u & -> & Hu%elem_of_seq)%elem_of_map & Hin)].
      rewrite !elem_of_cons, elem_of_nil in Hin.
      destruct Hin as [?|[?|[]]]; simplify_eq; (split_and!; [lia|lia|done]).
    + intros (Hv & Hi & Ha). split; [done|]. exists [(v, 0); (v, 1)]%nat. split.
      * apply elem_of_map. exists v. split; [done|]. apply elem_of_seq. lia.
      * destruct i as [|[|i]]; [set_solver..|lia].
Qed.

(** The arena pass writes DDR offsets only. *)
Definition same_place (segs segs' : list (CPSegment * CPSegment)) : Prop :=
  length segs' = length segs /\
  forall v i, (i < 2)%nat -> let g := seg i (segs !!! v) in let g' := seg i (segs' !!! v) in
    sg_s g' = sg_s g /\ sg_e g' = sg_e g /\ active g' = active g /\ vtcm_offset g' = vtcm_offset g.

Lemma same_place_trans l1 l2 l3 : same_place l1 l2 -> same_place l2 l3 -> same_place l1 l3.
Proof.
  intros [H1 H2] [H3 H4]. split; [congruence|]. intros v i Hi. simpl.
  destruct (H2 v i Hi) as (? & ? & ? & ?), (H4 v i Hi) as (? & ? & ? & ?). repeat split; congruence.
Qed.

Lemma same_place_upd v i f segs :
  (i < 2)%nat ->
  (forall g, sg_s (f g) = sg_s g /\ sg_e (f g) = sg_e g /\ active (f g) = active g /\
     vtcm_offset (f g) = vtcm_offset g) ->
  same_place segs (upd v i f segs).
Proof.
  intros Hi Hf. split; [apply upd_length|]. intros v' i' Hi'. simpl.
  destruct (decide ((v, i) = (v', i'))) as [[= <- <-]|Hne]; [|by rewrite seg_upd_other].
  destruct (decide (v < length segs)%nat) as [Hv|Hv]; [by rewrite seg_upd_same|].
  unfold upd. rewrite !list_lookup_total_alt, list_lookup_alter, decide_True by done.
  by rewrite lookup_ge_None_2 by lia.
Qed.

Lemma arena_ok lg segs c : same_place segs (foldl (arena_step p) (segs, c) lg).1.
Proof.
  revert segs c. induction lg as [|e lg IH]; intros segs c; simpl; [by split|].
  destruct (e_k e); try apply IH.
  eapply same_place_trans; [|apply IH].
  set (f := fun g => mkSeg (sg_s g) _ _ _ _ _ _).
  apply (same_place_trans _ (upd (e_v e) 0 f segs)); [by apply same_place_upd; [lia|]|].
  case_match; [by apply (same_place_upd (e_v e) 1); [lia|]|]. split; [done|by intros].
Qed.

Lemma place_offsets_ok segs lg ps used :
  length segs = n -> (forall v i, (i < 2)%nat -> vtcm_offset (seg i (segs !!! v)) = 0) ->
  place_offsets p segs lg = (ps, used) ->
  exists ps0, PInv segs (place_order p segs) ps0 /\ same_place (pl_segs ps0) (pl_segs ps).
Proof.
  intros Hlen Hz. unfold place_offsets.
  set (ps0 := foldl _ (mkPlace segs [] 0 0) (place_order p segs)).
  destruct (foldl (arena_step p) (pl_segs ps0, 0) lg) as [segs' u] eqn:E.
  intros [= <- <-]. exists ps0. simpl. split.
  - destruct (place_order_spec segs) as [Hnd Hin].
    apply (place_segments_ok segs (place_order p segs) []); [|done|done|].
    + split; simpl; [set_solver|done|set_solver|set_solver| |set_solver].
      intros v i Hi _. by apply Hz.
    + intros x Hx. apply Hin in Hx as (? & ? & _). done.
  - pose proof (arena_ok lg (pl_segs ps0) 0) as H. by rewrite E in H.
Qed.
End placement.

(** ** Extraction *)

Definition unplaced_segs (k : nat) (segs : list (CPSegment * CPSegment)) : Prop :=
  length segs = k /\ forall v i, (i < 2)%nat -> vtcm_offset (seg i (segs !!! v)) = 0.

Lemma unplaced_upd k v i f segs :
  (i < 2)%nat -> (forall g, vtcm_offset (f g) = vtcm_offset g) ->
  unplaced_segs k segs -> unplaced_segs k (upd v i f segs).
Proof.
  intros Hi Hf [Hl Hz]. split; [by rewrite upd_length|]. intros v' i' Hi'.
  destruct (decide ((v, i) = (v', i'))) as [[= <- <-]|Hne].
  - destruct (decide (v < length segs)%nat) as [Hv|Hv].
    + rewrite seg_upd_same, Hf by done. by apply Hz.
    + unfold upd. rewrite list_lookup_total_alt, list_lookup_alter, decide_True by done.
      rewrite lookup_ge_None_2 by lia. by destruct i.
  - rewrite seg_upd_other by done. by apply Hz.
Qed.

Lemma extract_unplaced k lg acc acc' :
  extract_segments lg acc = Some acc' -> unplaced_segs k acc.1 -> unplaced_segs k acc'.1.
Proof.
  revert acc. induction lg as [|e lg IH]; intros acc H Hacc; simpl in H; [by simplify_eq|].
  destruct (extract_step acc e) as [acc1|] eqn:E; [|done]. simpl in H. apply (IH acc1 H).
  unfold extract_step in E. destruct acc as [segs op]. simpl in Hacc.
  destruct (e_k e); [| | |destruct (1 <? _)%nat eqn:El; [done|]..]; simplify_eq; simpl;
    apply unplaced_upd; try done; try lia; apply Nat.ltb_ge in El; lia.
Qed.

(** A segment of a solution that has a place in the memory. *)
Definition placed_segment (p : Pre) (s : CPSolution) (x : nat * nat) : Prop :=
  (x.1 < num_nodes (prob p))%nat /\ (x.2 < 2)%nat /\ active (seg x.2 (segments s !!! x.1)) = true /\
  vtcm_offset (seg x.2 (segments s !!! x.1)) <> kUnplaced.

(** C25: the placement of an extracted schedule is safe.  Every placed
    segment lies inside the memory, at a multiple of the alignment in use;
    and two different retention segments that are both placed and whose slot
    intervals meet occupy disjoint bytes. *)
Theorem extracted_placement_safe p lg k s :
  let segment (x : nat * nat) := seg x.2 (segments s !!! x.1) in
  (forall v, (v < num_nodes (prob p))%nat -> 0 <= m_ p v <= cap_M (prob p)) ->
  0 <= cap_M (prob p) < 2 ^ 62 ->
  extract_from p lg k = Some s ->
  (forall x, placed_segment p s x ->
    0 <= vtcm_offset (segment x) /\ vtcm_offset (segment x) + m_ p x.1 <= cap_M (prob p) /\
    (place_align p | vtcm_offset (segment x))) /\
  (forall x y, placed_segment p s x -> placed_segment p s y -> x <> y ->
    sg_s (segment x) <= sg_e (segment y) -> sg_s (segment y) <= sg_e (segment x) ->
    disjoint_ranges (vtcm_offset (segment x), m_ p x.1) (vtcm_offset (segment y), m_ p y.1)).
Proof.
  simpl. intros Hm HM Hext. unfold extract_from in Hext.
  destruct (extract_segments lg _) as [[segs op]|] eqn:E; [|done]. simpl in Hext.
  apply (extract_unplaced (num_nodes (prob p))) in E as [Hl Hz].
  2: { split; [simpl; by rewrite length_replicate|]. intros x y Hy. simpl.
       destruct (decide (x < num_nodes (prob p))%nat) as [?|?].
       - rewrite lookup_total_replicate_2 by done. by destruct y.
       - rewrite list_lookup_total_alt, lookup_ge_None_2 by (rewrite length_replicate; lia). by destruct y. }
  simpl in Hl, Hz.
  set (segs1 := map (fun sgs => (activate sgs.1, sgs.2)) segs) in *.
  destruct (place_offsets p segs1 lg) as [ps used] eqn:Ep. simplify_eq/=.
  assert (Hl1 : length segs1 = num_nodes (prob p)) by (subst segs1; by rewrite length_map).
  assert (Hz1 : forall v i, (i < 2)%nat -> vtcm_offset (seg i (segs1 !!! v)) = 0).
  { intros x y Hy. specialize (Hz x y Hy). subst segs1. rewrite list_lookup_total_alt in *.
    change (map ?f ?l) with (f <$> l). rewrite list_lookup_fmap.
    destruct (segs !! x) as [[g0 g1]|]; simpl in *; [|by destruct y]. by destruct y. }
  destruct (place_offsets_ok p Hm HM segs1 lg ps used Hl1 Hz1 Ep) as (ps0 & [Hd [_ Hs] Hidx Hpl Hrest Hc] & [_ Hsp]).
  destruct (place_order_spec p Hm HM segs1) as [_ Hord].
  assert (Hin : forall v i, (v < num_nodes (prob p))%nat -> (i < 2)%nat -> active (seg i (pl_segs ps !!! v)) = true ->
    (v, i) ∈ place_order p segs1).
  { intros v i Hv Hi Ha. apply (proj2 (Hord (v, i))). destruct (Hsp v i Hi) as (_ & _ & Eac & _). rewrite Eac in Ha. simpl.
    by rewrite <- (proj2 (proj2 (Hs v i Hi))). }
  split.
  - intros [v i] (Hv & Hi & Ha & Hu). simpl in *. pose proof (Hin v i Hv Hi Ha) as Hx.
    destruct (Hsp v i Hi) as (_ & _ & _ & Eo). rewrite Eo in Hu |- *.
    destruct (Hpl _ Hx) as [?|Hq]; simpl in *; [done|]. apply Hd in Hq. simpl in Hq. tauto.
  - intros [v i] [w j] (Hv & Hi & Ha1 & Hu1) (Hw & Hj & Ha2 & Hu2) Hne Ht1 Ht2. simpl in *.
    pose proof (Hin v i Hv Hi Ha1) as Hx. pose proof (Hin w j Hw Hj Ha2) as Hy.
    destruct (Hsp v i Hi) as (Es1 & Ee1 & _ & Eo1), (Hsp w j Hj) as (Es2 & Ee2 & _ & Eo2).
    rewrite Eo1 in Hu1 |- *. rewrite Eo2 in Hu2 |- *. rewrite Es1, Ee2 in Ht1. rewrite Es2, Ee1 in Ht2.
    by apply (Hc (v, i) (w, j)).
Qed.

Definition chain_log : list Ent :=
  map (fun v => mkEnt (Z.of_nat v + 1) L_COMPUTE v 0) (seq 0 5) ++
  map (fun v => mkEnt 5 L_CLOSE v 5) (seq 0 5).

Lemma extracted_placement_safe_witness :
  exists s, extract_from (preprocess (skip_chain 768) (opts_of FULL true))
      chain_log 0 = Some s /\
    0 <= vtcm_offset (segments s !!! 2%nat).1 <= 768 - 256 /\
    disjoint_ranges (vtcm_offset (segments s !!! 0%nat).1, 256) (vtcm_offset (segments s !!! 1%nat).1, 256).
Proof.
  destruct (extract_from (preprocess (skip_chain 768) (opts_of FULL true))
      chain_log 0) as [s|] eqn:E; [|vm_compute in E; discriminate].
  exists s. split; [reflexivity|].
  assert (forall v, (v < 3)%nat -> placed_segment (preprocess (skip_chain 768) (opts_of FULL true)) s (v, 0%nat)) as Hp.
  { intros v Hv. vm_compute in E. injection E as <-.
    destruct v as [|[|[|v]]]; [| | |lia]; (split; [vm_compute; lia|]); (split; [simpl; lia|]);
      (split; [reflexivity|vm_compute; discriminate]). }
  destruct (extracted_placement_safe (preprocess (skip_chain 768) (opts_of FULL true)) chain_log 0 s) as [Hin Hdis].
  - intros v Hv. destruct v as [|[|[|[|[|v]]]]]; vm_compute; split; discriminate.
  - vm_compute. split; [discriminate|reflexivity].
  - exact E.
  - split.
    + destruct (Hin (2%nat, 0%nat) (Hp 2%nat ltac:(lia))) as (H1 & H2 & _). split; [exact H1|].
      change (m_ _ _) with 256 in H2. change (cap_M _) with 768 in H2. simpl in H2. lia.
    + apply (Hdis (0%nat, 0%nat) (1%nat, 0%nat)); [apply Hp; lia|apply Hp; lia|discriminate| |];
        vm_compute in E; injection E as <-; vm_compute; discriminate.
Defined.
