(* ===== verification/CpVerify.v ===== *)
(** What [CPSolver::verify] guarantees: a solution that passes satisfies the
    constraints of the formalization, stated on its tasks and segments, in the
    slots that the check reads. *)
From S2P Require Import Prelude Ir Lifetime CpModel CpSearch CpSolution.

#[local] Arguments prod_inhabited : simpl never.

(** The tasks of a kind on a tensor. *)
Definition tasks_for (prb : CPProblem) (k : Kind) (v : nat) (ts : list CPTask) : list CPTask :=
  filter (fun t => tk_kind t = k /\ id_index prb !! tk_v t = Some v) ts.

Definition is_start (t : CPTask) : bool := negb (bool_decide (tk_kind t = PAGE_OUT)).
Definition start_slots (ts : list CPTask) : list Z := map tk_slot (filter (fun t => is_start t = true) ts).

(** The cycles and the traffic of one task. *)
Definition task_w (prb : CPProblem) (t : CPTask) : Z :=
  match tk_kind t, id_index prb !! tk_v t with
  | COMPUTE, Some v | REMAT, Some v => node_w prb v
  | _, _ => 0
  end.
Definition task_ddr (prb : CPProblem) (t : CPTask) : Z :=
  match tk_kind t, id_index prb !! tk_v t with
  | PAGE_IN, Some v | PAGE_OUT, Some v => node_m prb v
  | _, _ => 0
  end.

(** The declarative form of Eq. 4 to 14 as far as [verify] checks them. *)
Record valid_solution (prb : CPProblem) (s : CPSolution) : Prop := {
  v_known : forall t, t ∈ sq s -> exists v, id_index prb !! tk_v t = Some v /\ (v < num_nodes prb)%nat;
  (** Eq. 12, Eq. 14 and the retention bound *)
  v_once : forall v, (v < num_nodes prb)%nat -> length (tasks_for prb COMPUTE v (sq s)) = 1%nat;
  v_most : forall v k, (v < num_nodes prb)%nat -> (length (tasks_for prb k v (sq s)) <= 1)%nat;
  (** Eq. 8 *)
  v_order : pairwise Z.lt (start_slots (sq s)) /\ (forall x, x ∈ start_slots (sq s) -> 0 < x);
  (** Eq. 4 and Eq. 12: the first segment starts with the computation *)
  v_seg0 : forall v, (v < num_nodes prb)%nat ->
    let g := (segments s !!! v).1 in
    active g = true /\ sg_s g <= sg_e g /\
    (exists t, t ∈ tasks_for prb COMPUTE v (sq s) /\ tk_slot t = sg_s g) /\
    (spill_end g = true <-> tasks_for prb PAGE_OUT v (sq s) <> []);
  (** Eq. 4, 5 and 9: the second segment *)
  v_seg1 : forall v, (v < num_nodes prb)%nat ->
    let g0 := (segments s !!! v).1 in
    let g := (segments s !!! v).2 in
    if active g then
      sg_s g <= sg_e g /\ sg_e g0 <= sg_s g /\
      (exists t, t ∈ tasks_for prb (if fill_start g then PAGE_IN else REMAT) v (sq s) /\
                 tk_slot t = sg_s g) /\
      (fill_start g = true -> spill_end g0 = true /\ ddr_offset g = ddr_offset g0)
    else tasks_for prb REMAT v (sq s) = [] /\ tasks_for prb PAGE_IN v (sq s) = [];
  (** Eq. 6, in the slots [1 .. 2n+2] *)
  v_capacity : forall slot, 1 <= slot <= 2 * Z.of_nat (num_nodes prb) + 2 ->
    slot_bytes prb (segments s) slot <= cap_M prb;
  (** Eq. 7 *)
  v_deps : forall u v t, (u, v) ∈ edges prb -> (u < num_nodes prb)%nat -> (v < num_nodes prb)%nat ->
    t ∈ tasks_for prb COMPUTE v (sq s) ++ tasks_for prb REMAT v (sq s) ->
    covered (segments s) (tk_slot t) u = true;
  (** Eq. 10 and Eq. 3, as [uint64_t] sums *)
  v_budget : u64 (sum_by (task_w prb) (sq s)) <= budget_W prb;
  v_ddr : ddr_bytes s = u64 (sum_by (task_ddr prb) (sq s));
  v_compute : total_compute s = u64 (sum_by (task_w prb) (sq s))
}.

(** ** The census *)

Definition n_of (c : Census) (k : Kind) : list Z :=
  match k with COMPUTE => n_comp c | REMAT => n_remat c | PAGE_IN => n_pin c | PAGE_OUT => n_pout c end.
Definition slot_of (c : Census) (k : Kind) : list Z :=
  match k with
  | COMPUTE => comp_slot c | REMAT => remat_slot c | PAGE_IN => pin_slot c | PAGE_OUT => pout_slot c
  end.

Definition last_slot (ts : list CPTask) : Z := match last ts with Some t => tk_slot t | None => 0 end.

Record CInv (prb : CPProblem) (ts : list CPTask) (c : Census) : Prop := {
  c_len : forall k, length (n_of c k) = num_nodes prb /\ length (slot_of c k) = num_nodes prb;
  c_known : forall t, t ∈ ts -> exists v, id_index prb !! tk_v t = Some v /\ (v < num_nodes prb)%nat;
  c_count : forall k v, (v < num_nodes prb)%nat ->
    n_of c k !!! v = Z.of_nat (length (tasks_for prb k v ts)) /\
    (length (tasks_for prb k v ts) <= 1)%nat /\
    slot_of c k !!! v = last_slot (tasks_for prb k v ts);
  c_order : pairwise Z.lt (start_slots ts) /\
    (forall x, x ∈ start_slots ts -> 0 < x <= last_start c) /\ 0 <= last_start c;
  c_sums : c_ddr c = u64 (sum_by (task_ddr prb) ts) /\ c_compute c = u64 (sum_by (task_w prb) ts)
}.

Lemma id_index_bound prb id v : id_index prb !! id = Some v -> (v < num_nodes prb)%nat.
Proof.
  unfold id_index.
  assert (H : forall l (m : gmap op_id_t nat), (forall x y, m !! x = Some y -> (y < num_nodes prb)%nat) ->
    (forall q, q ∈ l -> (q.1 < num_nodes prb)%nat) ->
    forall x y, foldl (fun m '(v, nd) => <[ct_id nd := v]> m) m l !! x = Some y -> (y < num_nodes prb)%nat).
  { induction l as [|[w nd] l IH]; intros m Hm Hl x y; simpl; [apply Hm|].
    apply IH; [|intros; apply Hl; set_solver].
    intros x' y' [[_ <-]|[_ Hx]]%lookup_insert_Some; [|by eapply Hm].
    apply (Hl (w, nd)). set_solver. }
  apply H; [intros x y; by rewrite lookup_empty|].
  intros [w nd] Hin. apply elem_of_zip_l in Hin. apply elem_of_seq in Hin. simpl. lia.
Qed.

Lemma tasks_for_snoc prb k v ts t :
  tasks_for prb k v (ts ++ [t]) =
  tasks_for prb k v ts ++ (if decide (tk_kind t = k /\ id_index prb !! tk_v t = Some v) then [t] else []).
Proof. unfold tasks_for. rewrite filter_app, filter_cons, filter_nil. done. Qed.

Lemma bump_lookup v l u :
  (v < length l)%nat -> bump v l !!! u = if decide (u = v) then u32 (l !!! v + 1) else l !!! u.
Proof.
  intros Hv. unfold bump. case_decide as E; [subst; by rewrite list_lookup_total_insert_eq|].
  by rewrite list_lookup_total_insert_ne.
Qed.

Lemma last_slot_snoc ts t : last_slot (ts ++ [t]) = tk_slot t.
Proof. unfold last_slot. by rewrite last_snoc. Qed.

(** Each kind of task updates its own two tables. *)
Definition census_add (c c' : Census) (k : Kind) (v : nat) (slot : Z) : Prop :=
  forall k', n_of c' k' = (if decide (k' = k) then bump v (n_of c k') else n_of c k') /\
             slot_of c' k' = (if decide (k' = k) then <[v := slot]> (slot_of c k') else slot_of c k').

Lemma census_step_inv prb c t c' :
  census_step prb c t = inl c' ->
  exists v, id_index prb !! tk_v t = Some v /\ census_add c c' (tk_kind t) v (tk_slot t) /\
    bump v (n_of c (tk_kind t)) !!! v <= 1 /\
    (if is_start t then last_start c < tk_slot t /\ last_start c' = tk_slot t
     else last_start c' = last_start c) /\
    c_ddr c' = (if bool_decide (tk_kind t = PAGE_IN \/ tk_kind t = PAGE_OUT)
                then u64 (c_ddr c + node_m prb v) else c_ddr c) /\
    c_compute c' = (if bool_decide (tk_kind t = COMPUTE \/ tk_kind t = REMAT)
                    then u64 (c_compute c + node_w prb v) else c_compute c).
Proof.
  unfold census_step. destruct (id_index prb !! tk_v t) as [v|]; [|done].
  intros H. exists v. split; [done|]. unfold is_start.
  destruct (tk_kind t); (destruct (1 <? _) eqn:E1; [done|]);
    ((destruct (tk_slot t <=? _) eqn:E2 || destruct (tk_slot t <? _) eqn:E2); [done|]);
    simplify_eq; bool_prop; (split; [intros []; done|]); simpl; split_and!; try done; lia.
Qed.

Lemma start_slots_snoc ts t :
  start_slots (ts ++ [t]) = start_slots ts ++ (if is_start t then [tk_slot t] else []).
Proof.
  unfold start_slots. rewrite filter_app, filter_cons, filter_nil, map_app.
  case_decide as E; destruct (is_start t); done.
Qed.

Lemma CInv_step prb ts c t c' :
  CInv prb ts c -> census_step prb c t = inl c' -> CInv prb (ts ++ [t]) c'.
Proof.
  intros [Hlen Hknown Hcount [Hord [Hpos H0]] [Hddr Hcomp]] Hst.
  apply census_step_inv in Hst as (v & Hv & Hadd & Hone & Hstart & Hddr' & Hcomp').
  assert (Hvn : (v < num_nodes prb)%nat) by (by eapply id_index_bound).
  assert (Hb : forall k u, (u < num_nodes prb)%nat ->
    n_of c' k !!! u = (if decide (k = tk_kind t) then (if decide (u = v) then n_of c k !!! u + 1 else n_of c k !!! u)
                       else n_of c k !!! u)).
  { intros k u Hu. destruct (Hadd k) as [-> _].
    destruct (decide (k = tk_kind t)) as [->|E]; [|done].
    rewrite bump_lookup by (by rewrite (proj1 (Hlen _))). destruct (decide (u = v)) as [->|]; [|done].
    destruct (Hcount (tk_kind t) v Hvn) as (-> & ? & _). by rewrite wrap_id by lia. }
  split.
  - intros k. destruct (Hadd k) as [-> ->]. unfold bump. destruct (decide (k = tk_kind t)); rewrite ?length_insert; apply Hlen.
  - intros x [Hx| ->%list_elem_of_singleton]%elem_of_app; [by apply Hknown|by exists v].
  - intros k u Hu. rewrite tasks_for_snoc, Hb by done.
    destruct (Hcount k u Hu) as (Hc & Hle & Hsl). destruct (Hadd k) as [_ Hs].
    destruct (decide (k = tk_kind t)) as [->|Hk].
    + destruct (decide (u = v)) as [->|Hne].
      * rewrite decide_True by done. rewrite length_app, last_slot_snoc. simpl.
        rewrite Hs, list_lookup_total_insert_eq by (by rewrite (proj2 (Hlen _))).
        rewrite bump_lookup, decide_True in Hone by (done || by rewrite (proj1 (Hlen _))).
        rewrite Hc, wrap_id in Hone by lia. split_and!; [lia|lia|done].
      * rewrite decide_False by (intros [_ ?]; congruence). rewrite app_nil_r.
        by rewrite Hs, list_lookup_total_insert_ne.
    + rewrite decide_False by (intros [? _]; congruence). rewrite app_nil_r. by rewrite Hs.
  - rewrite start_slots_snoc. destruct (is_start t).
    + destruct Hstart as [Hlt ->]. split_and!; [|intros x [Hx| ->%list_elem_of_singleton]%elem_of_app|lia].
      * apply pairwise_app. split_and!; [|done|repeat constructor].
        intros x y Hx ->%list_elem_of_singleton. apply Hpos in Hx. lia.
      * apply Hpos in Hx. lia.
      * lia.
    + rewrite Hstart, app_nil_r. done.
  - rewrite !sum_by_app. simpl. unfold task_ddr at 2, task_w at 2. rewrite Hv, Hddr', Hcomp', Hddr, Hcomp.
    destruct (tk_kind t); simpl; rewrite ?Z.add_0_r; split; try done;
      unfold wrap; by rewrite Zplus_mod_idemp_l.
Qed.

Lemma census_ok prb ts0 ts c c' :
  CInv prb ts0 c -> census prb ts c = inl c' -> CInv prb (ts0 ++ ts) c'.
Proof.
  revert ts0 c. induction ts as [|t ts IH]; intros ts0 c HI H; simpl in H.
  { simplify_eq. by rewrite app_nil_r. }
  destruct (census_step prb c t) as [c1|] eqn:E; [|done].
  rewrite (app_assoc ts0 [t] ts : ts0 ++ t :: ts = _). eapply IH; [by eapply CInv_step|done].
Qed.

Lemma empty_census_ok prb : CInv prb [] (empty_census (num_nodes prb)).
Proof.
  split; simpl.
  - intros []; simpl; by rewrite !length_replicate.
  - set_solver.
  - intros k v Hv. destruct k; simpl; split_and!;
      rewrite ?lookup_total_replicate_2 by done; simpl; done || lia.
  - split_and!; [constructor|set_solver|lia].
  - done.
Qed.

(** ** The checks *)

Lemma first_some_none {A} (f : A -> option string) l :
  first_some f l = None -> forall x, x ∈ l -> f x = None.
Proof.
  induction l as [|y l IH]; simpl; intros H x Hx; [set_solver|].
  destruct (f y) eqn:E; [done|]. apply elem_of_cons in Hx as [->|Hx]; [done|by apply IH].
Qed.

Lemma max_slots_le prb segs pk slot :
  foldl (fun pk slot => Z.max pk (slot_bytes prb segs slot)) 0 (seqZ 1 (2 * Z.of_nat (num_nodes prb) + 2)) = pk ->
  1 <= slot <= 2 * Z.of_nat (num_nodes prb) + 2 -> slot_bytes prb segs slot <= pk.
Proof.
  intros <- Hs. apply (foldl_max_spec (slot_bytes prb segs)). apply elem_of_seqZ. lia.
Qed.

Lemma edge_preds_elem prb u v :
  (u, v) ∈ edges prb -> (u < num_nodes prb)%nat -> (v < num_nodes prb)%nat -> u ∈ edge_preds prb v.
Proof.
  intros He Hu Hv. unfold edge_preds. apply elem_of_map. exists (u, v). split; [done|].
  apply list_elem_of_filter. split; [|done]. simpl.
  rewrite !andb_true_iff, !Nat.ltb_lt, Nat.eqb_eq. done.
Qed.

(** The checks of [verify], read off one by one. *)
Lemma verify_inv prb s :
  verify prb s = None ->
  exists c, census prb (sq s) (empty_census (num_nodes prb)) = inl c /\
    length (segments s) = num_nodes prb /\
    (forall v, (v < num_nodes prb)%nat -> n_comp c !!! v = 1 /\
       segment_checks c (segments s) v = None /\ coverage_checks prb c (segments s) v = None) /\
    peak_bytes prb (segments s) <= cap_M prb /\ c_compute c <= budget_W prb /\
    c_ddr c = ddr_bytes s /\ c_compute c = total_compute s.
Proof.
  unfold verify. destruct (length (segments s) =? _)%nat eqn:El; [|done]. simpl.
  destruct (feasible s); [|done]. simpl.
  destruct (census prb (sq s) _) as [c|e]; [|done]. intros H. exists c. split; [done|].
  apply Nat.eqb_eq in El. split; [done|].
  destruct (first_some (fun v => if n_comp c !!! v =? 1 then _ else _) _) eqn:E1; [done|].
  destruct (first_some (segment_checks _ _) _) eqn:E2; [done|].
  destruct (cap_M prb <? _) eqn:E3; [done|].
  destruct (negb (peak_bytes _ _ =? _)); [done|].
  destruct (first_some (coverage_checks _ _ _) _) eqn:E4; [done|].
  destruct (budget_W prb <? _) eqn:E5; [done|].
  destruct (negb (c_ddr c =? _)) eqn:E6; [done|].
  destruct (negb (c_compute c =? _)) eqn:E7; [done|]. bool_prop.
  split.
  - intros v Hv. assert (Hin : v ∈ seq 0 (num_nodes prb)) by (apply elem_of_seq; lia).
    pose proof (first_some_none _ _ E1 v Hin) as H1. simpl in H1.
    destruct (n_comp c !!! v =? 1) eqn:E; [|done]. bool_prop.
    split_and!; [done|by apply (first_some_none _ _ E2)|by apply (first_some_none _ _ E4)].
  - done.
Qed.

(** A single task of a kind is the one its tables describe. *)
Lemma one_task prb ts c k v :
  CInv prb ts c -> (v < num_nodes prb)%nat -> n_of c k !!! v <> 0 ->
  exists t, tasks_for prb k v ts = [t] /\ slot_of c k !!! v = tk_slot t.
Proof.
  intros HI Hv Hn. destruct (c_count _ _ _ HI k v Hv) as (Hc & Hle & Hs).
  destruct (tasks_for prb k v ts) as [|t [|t' l]]; simpl in *; [lia| |lia]. by exists t.
Qed.

Lemma no_task prb ts c k v :
  CInv prb ts c -> (v < num_nodes prb)%nat -> n_of c k !!! v = 0 -> tasks_for prb k v ts = [].
Proof.
  intros HI Hv Hn. destruct (c_count _ _ _ HI k v Hv) as (Hc & _ & _).
  destruct (tasks_for prb k v ts); simpl in *; [done|lia].
Qed.

Lemma task_count prb ts c k v :
  CInv prb ts c -> (v < num_nodes prb)%nat -> n_of c k !!! v = 0 \/ n_of c k !!! v = 1.
Proof. intros HI Hv. destruct (c_count _ _ _ HI k v Hv) as (Hc & ? & _). lia. Qed.

Lemma seg0_checked prb s c v :
  CInv prb (sq s) c -> (v < num_nodes prb)%nat -> n_comp c !!! v = 1 ->
  segment_checks c (segments s) v = None ->
  let g := (segments s !!! v).1 in
  active g = true /\ sg_s g <= sg_e g /\
  (exists t, t ∈ tasks_for prb COMPUTE v (sq s) /\ tk_slot t = sg_s g) /\
  (spill_end g = true <-> tasks_for prb PAGE_OUT v (sq s) <> []).
Proof.
  intros HI Hv H1 Hc g. unfold segment_checks in Hc. fold g in Hc.
  destruct (first_fail _) eqn:Ef in Hc; [done|]. clear Hc.
  simpl in Ef. destruct (active g) eqn:Ea; [|done]. simpl in Ef.
  destruct (sg_s g =? _) eqn:Es; [|done]. simpl in Ef.
  destruct (sg_e g <? _) eqn:Ee; [done|].
  destruct (Bool.eqb (spill_end g) _) eqn:Ep; [|done]. bool_prop. apply eqb_prop in Ep.
  split; [done|]. split; [lia|]. split.
  - destruct (one_task prb (sq s) c COMPUTE v HI Hv) as (t & -> & Hs); [simpl; lia|].
    exists t. split; [set_solver|]. simpl in Hs. lia.
  - rewrite Ep. destruct (task_count prb (sq s) c PAGE_OUT v HI Hv) as [Hn|Hn]; simpl in Hn; rewrite Hn; simpl.
    + rewrite (no_task prb (sq s) c) by done. by split.
    + destruct (one_task prb (sq s) c PAGE_OUT v HI Hv) as (t & -> & _); [simpl; lia|]. by split.
Qed.

Lemma seg1_checked prb s c v :
  CInv prb (sq s) c -> (v < num_nodes prb)%nat ->
  segment_checks c (segments s) v = None ->
  let g0 := (segments s !!! v).1 in
  let g := (segments s !!! v).2 in
  if active g then
    sg_s g <= sg_e g /\ sg_e g0 <= sg_s g /\
    (exists t, t ∈ tasks_for prb (if fill_start g then PAGE_IN else REMAT) v (sq s) /\ tk_slot t = sg_s g) /\
    (fill_start g = true -> spill_end g0 = true /\ ddr_offset g = ddr_offset g0)
  else tasks_for prb REMAT v (sq s) = [] /\ tasks_for prb PAGE_IN v (sq s) = [].
Proof.
  intros HI Hv Hc g0 g. unfold segment_checks in Hc. fold g0 g in Hc.
  destruct (first_fail _) in Hc; [done|].
  destruct (task_count prb (sq s) c REMAT v HI Hv) as [Hr|Hr], (task_count prb (sq s) c PAGE_IN v HI Hv) as [Hi|Hi];
    simpl in Hr, Hi; rewrite ?Hr, ?Hi in Hc; destruct (active g); simpl in Hc; try done.
  - split; [by apply (no_task prb (sq s) c)|by apply (no_task prb (sq s) c)].
  - destruct (one_task prb (sq s) c PAGE_IN v HI Hv) as (t & Ht & Hs); [simpl; lia|]. simpl in Hs.
    destruct (fill_start g); [|done]. simpl in Hc.
    destruct (sg_s g =? _) eqn:E1; [|done]. simpl in Hc.
    destruct (sg_e g <? _) eqn:E2; [done|]. destruct (sg_s g <? _) eqn:E3; [done|].
    destruct (spill_end g0) eqn:E4; [|done]. simpl in Hc.
    destruct (ddr_offset g =? _) eqn:E5; [|done]. bool_prop.
    split_and!; [lia|lia| |done]. exists t. rewrite Ht. split; [set_solver|lia].
  - destruct (one_task prb (sq s) c REMAT v HI Hv) as (t & Ht & Hs); [simpl; lia|]. simpl in Hs.
    destruct (fill_start g); [done|]. simpl in Hc.
    destruct (sg_s g =? _) eqn:E1; [|done]. simpl in Hc.
    destruct (sg_e g <? _) eqn:E2; [done|]. destruct (sg_s g <? _) eqn:E3; [done|]. bool_prop.
    split_and!; [lia|lia| |done]. exists t. rewrite Ht. split; [set_solver|lia].
Qed.

Lemma verify_valid prb s : verify prb s = None -> valid_solution prb s.
Proof.
  intros (c & Hc & Hlen & Hv & Hpk & Hw & Hd & Hcomp)%verify_inv.
  apply (census_ok prb []) in Hc; [|apply empty_census_ok]. simpl in Hc.
  assert (Hsum := c_sums _ _ _ Hc). split.
  - apply (c_known _ _ _ Hc).
  - intros v Hvn. destruct (Hv v Hvn) as (H1 & _).
    destruct (one_task prb (sq s) c COMPUTE v Hc Hvn) as (t & -> & _); [simpl; lia|done].
  - intros v k Hvn. by destruct (c_count _ _ _ Hc k v Hvn) as (_ & ? & _).
  - destruct (c_order _ _ _ Hc) as (? & Hpos & _). split; [done|]. intros x Hx. by apply Hpos.
  - intros v Hvn. destruct (Hv v Hvn) as (? & ? & _). by apply (seg0_checked prb s c).
  - intros v Hvn. destruct (Hv v Hvn) as (? & ? & _). by apply (seg1_checked prb s c).
  - intros slot Hs. etransitivity; [|exact Hpk]. by apply (max_slots_le prb (segments s)).
  - intros u v t He Hu Hvn Ht. destruct (Hv v Hvn) as (H1 & _ & Hcov). unfold coverage_checks in Hcov.
    assert (Hin : u ∈ edge_preds prb v) by (by apply edge_preds_elem).
    assert (Hall : forall slot, forallb (covered (segments s) slot) (edge_preds prb v) = true ->
              covered (segments s) slot u = true).
    { intros slot Hf. rewrite forallb_forall in Hf. apply Hf. by apply list_elem_of_In. }
    destruct (forallb (covered (segments s) (comp_slot c !!! v)) _) eqn:E1; [|done].
    destruct (c_order _ _ _ Hc) as (_ & Hpos & _).
    assert (Hstart : 0 < tk_slot t).
    { apply Hpos. unfold start_slots. apply elem_of_map. exists t. split; [done|].
      apply list_elem_of_filter. unfold tasks_for in Ht.
      apply elem_of_app in Ht as [Ht|Ht]; apply list_elem_of_filter in Ht as [[Hk _] Ht];
        (split; [|done]); unfold is_start; by rewrite Hk. }
    apply elem_of_app in Ht as [Ht|Ht].
    + destruct (one_task prb (sq s) c COMPUTE v Hc Hvn) as (t' & Ht' & Hs); [simpl; lia|].
      rewrite Ht' in Ht. apply list_elem_of_singleton in Ht as ->. simpl in Hs. rewrite <- Hs. by apply Hall.
    + destruct (one_task prb (sq s) c REMAT v Hc Hvn) as (t' & Ht' & Hs).
      { intros Hz. rewrite (no_task prb (sq s) c REMAT v Hc Hvn Hz) in Ht. by apply elem_of_nil in Ht. }
      rewrite Ht' in Ht. apply list_elem_of_singleton in Ht as ->. simpl in Hs. rewrite <- Hs in *.
      rewrite (proj2 (Z.eqb_neq _ 0)) in Hcov by lia.
      destruct (forallb (covered (segments s) (remat_slot c !!! v)) _) eqn:E2; [|done]. by apply Hall.
  - by rewrite <- (proj2 Hsum).
  - by rewrite <- (proj1 Hsum), Hd.
  - by rewrite <- (proj2 Hsum), Hcomp.
Qed.

(** C2: soundness of the independent check.  A solution that [verify] accepts
    satisfies the declarative constraints: every tensor is computed once and
    every other task happens at most once, start slots strictly increase, each
    segment is a non-empty interval that starts at its task, the second one
    after the first and, when it is a fill, from the spilled address; the
    residency is within the memory in every slot up to [2n+2]; every consumer
    finds its predecessors open; and the cycles and the traffic are the sums of
    the tasks, the cycles within the budget. *)
Theorem verify_sound prb s : verify prb s = None -> valid_solution prb s.
Proof. apply verify_valid. Qed.

Lemma verify_sound_witness :
  exists s, CPSolver_solve (skip_chain 768) (opts_of FULL true) no_clock = Some s /\
    valid_solution (skip_chain 768) s.
Proof.
  destruct (CPSolver_solve (skip_chain 768) (opts_of FULL true) no_clock) as [s|] eqn:E;
    [|vm_compute in E; discriminate].
  exists s. split; [reflexivity|]. apply verify_sound.
  vm_compute in E. injection E as <-. vm_compute. reflexivity.
Defined.
