(* ===== verification/Dma.v ===== *)
(** DMA spill/fill emission ([compiler/src/dma/op_emitter.cpp],
    [compiler/src/dma/spill_fill.cpp], [compiler/include/hnnx/dma/spill_fill.hpp]):
    the sync token planner [SynctokenManager], the emitter [OpEmitter] that
    appends DMA records and reports their tokens, and the pressure estimates of
    [SpillFillScheduler]. *)
From S2P Require Import Prelude Ir.

(** * Sync tokens *)

(** [SynctokenManager::TokenEntry]. *)
Record TokenEntry := mkToken {
  token_id : Z;
  signal_pos : Z;
  signal_name : string;
  wait_positions : list Z
}.

Definition new_token (id : Z) : TokenEntry := mkToken id SIZE_MAX "" [].

Record SynctokenManager := mkManager {
  next_id_ : Z;
  tokens_ : list TokenEntry
}.

Definition empty_manager : SynctokenManager := mkManager 17 [].

Definition find_token (id : Z) (ts : list TokenEntry) : option nat :=
  fst <$> list_find (fun t => token_id t = id) ts.

Definition allocate_token (m : SynctokenManager) : Z * SynctokenManager :=
  (next_id_ m, mkManager (u32 (next_id_ m + 2)) (tokens_ m ++ [new_token (next_id_ m)])).

Definition reuse (id : Z) (m : SynctokenManager) : SynctokenManager :=
  match find_token id (tokens_ m) with
  | Some _ => m
  | None => mkManager (next_id_ m) (tokens_ m ++ [new_token id])
  end.

(** The entry that [signal] and [wait] write to: found, or created first. *)
Definition with_token (id : Z) (f : TokenEntry -> TokenEntry) (m : SynctokenManager)
    : SynctokenManager :=
  let m := match find_token id (tokens_ m) with Some _ => m | None => reuse id m end in
  match find_token id (tokens_ m) with
  | Some i => mkManager (next_id_ m) (alter f i (tokens_ m))
  | None => m
  end.

Definition signal (id pos : Z) (name : string) : SynctokenManager -> SynctokenManager :=
  with_token id (fun t => mkToken (token_id t) pos name (wait_positions t)).

Definition wait (id pos : Z) : SynctokenManager -> SynctokenManager :=
  with_token id (fun t => mkToken (token_id t) (signal_pos t) (signal_name t)
                            (wait_positions t ++ [pos])).

Definition token_valid (t : TokenEntry) : bool :=
  negb (negb (bool_decide (wait_positions t = [])) && (signal_pos t =? SIZE_MAX)) &&
  forallb (fun w => negb ((signal_pos t =? SIZE_MAX) || (w <=? signal_pos t))) (wait_positions t).

Definition validate (m : SynctokenManager) : bool := forallb token_valid (tokens_ m).

Definition reset (m : SynctokenManager) : SynctokenManager := mkManager 17 [].

(** ** The log of calls that a manager has seen *)

Inductive TokenCall :=
  | CAllocate
  | CReuse (id : Z)
  | CSignal (id pos : Z) (name : string)
  | CWait (id pos : Z).

Definition token_call (m : SynctokenManager) (c : TokenCall) : SynctokenManager :=
  match c with
  | CAllocate => (allocate_token m).2
  | CReuse id => reuse id m
  | CSignal id pos name => signal id pos name m
  | CWait id pos => wait id pos m
  end.

Definition run_tokens (cs : list TokenCall) : SynctokenManager := foldl token_call empty_manager cs.

(** What the log says about a token: its last signal, and its waits. *)
Definition last_signal (id : Z) (cs : list TokenCall) : Z :=
  foldl (fun acc c => match c with CSignal i p _ => if i =? id then p else acc | _ => acc end)
    SIZE_MAX cs.

Definition waits_of (id : Z) (cs : list TokenCall) : list Z :=
  omap (fun c => match c with CWait i p => if i =? id then Some p else None | _ => None end) cs.

(** The manager's table holds exactly that: the first entry of an id has its
    last signal and its waits, and further entries of the id are idle. *)
Definition tracks (cs : list TokenCall) (ts : list TokenEntry) : Prop :=
  (forall id,
     match find_token id ts with
     | Some i => exists e, ts !! i = Some e /\ token_id e = id /\
         signal_pos e = last_signal id cs /\ wait_positions e = waits_of id cs
     | None => last_signal id cs = SIZE_MAX /\ waits_of id cs = []
     end) /\
  (forall j e, ts !! j = Some e -> find_token (token_id e) ts = Some j \/ wait_positions e = []).

Lemma find_token_some id ts i :
  find_token id ts = Some i <->
  exists e, ts !! i = Some e /\ token_id e = id /\
    forall j e', (j < i)%nat -> ts !! j = Some e' -> token_id e' <> id.
Proof.
  unfold find_token. rewrite fmap_Some. split.
  - intros ([k e] & (H & <- & Hj)%list_find_Some & ->). simpl. exists e. split_and!; [done..|].
    intros j e' ??. by eapply Hj.
  - intros (e & ? & <- & Hj). exists (i, e). split; [|done]. apply list_find_Some.
    split_and!; [done..|]. intros. by eapply Hj.
Qed.

Lemma find_token_none id ts :
  find_token id ts = None <-> forall e, e ∈ ts -> token_id e <> id.
Proof.
  unfold find_token. rewrite fmap_None, list_find_None, Forall_forall. done.
Qed.

Lemma find_token_snoc id ts e :
  find_token id (ts ++ [e]) =
  match find_token id ts with
  | Some i => Some i
  | None => if decide (token_id e = id) then Some (length ts) else None
  end.
Proof.
  destruct (find_token id ts) as [i|] eqn:E.
  - apply find_token_some in E as (x & Hi & Hx & Hj). apply find_token_some.
    pose proof (lookup_lt_Some _ _ _ Hi). exists x. split_and!; [by rewrite lookup_app_l|done|].
    intros j e' Hlt. rewrite lookup_app_l by lia. by apply Hj.
  - pose proof (proj1 (find_token_none id ts) E) as Hn. case_decide as He.
    + apply find_token_some. exists e. split_and!; [by apply list_lookup_middle|done|].
      intros j e' Hj. rewrite lookup_app_l by done. intros Hl. apply Hn. by eapply list_elem_of_lookup_2.
    + apply find_token_none. intros x [Hx| ->%list_elem_of_singleton]%elem_of_app; [by apply Hn|done].
Qed.

Lemma find_token_alter id ts f i :
  (forall t, token_id (f t) = token_id t) -> find_token id (alter f i ts) = find_token id ts.
Proof.
  intros Hf. apply option_eq. intros k. rewrite !find_token_some.
  assert (Hl : forall j (P : TokenEntry -> Prop), (forall t, P (f t) <-> P t) ->
            (exists e, alter f i ts !! j = Some e /\ P e) <-> exists e, ts !! j = Some e /\ P e).
  { intros j P HP. destruct (decide (j = i)) as [->|].
    - rewrite list_lookup_alter_eq. destruct (ts !! i) as [t|]; simpl; [|naive_solver].
      split; intros (? & [= <-] & ?); eexists; (split; [done|]); by apply HP.
    - by rewrite list_lookup_alter_ne. }
  assert (Hi : forall j, (exists e, alter f i ts !! j = Some e /\ token_id e = id) <->
                         exists e, ts !! j = Some e /\ token_id e = id).
  { intros j. apply Hl. intros t. by rewrite Hf. }
  split; intros (e & He & Hid & Hj).
  - destruct (proj1 (Hi k)) as (e' & ? & ?); [by exists e|]. exists e'. split_and!; [done..|].
    intros j x Hlt Hx Hxid. destruct (proj2 (Hi j)) as (y & ? & ?); [by exists x|]. by eapply Hj.
  - destruct (proj2 (Hi k)) as (e' & ? & ?); [by exists e|]. exists e'. split_and!; [done..|].
    intros j x Hlt Hx Hxid. destruct (proj1 (Hi j)) as (y & ? & ?); [by exists x|]. by eapply Hj.
Qed.

Lemma last_signal_snoc id cs c :
  last_signal id (cs ++ [c]) =
  match c with CSignal i p _ => if i =? id then p else last_signal id cs | _ => last_signal id cs end.
Proof. unfold last_signal. by rewrite foldl_snoc. Qed.

Lemma waits_of_snoc id cs c :
  waits_of id (cs ++ [c]) =
  waits_of id cs ++ match c with CWait i p => if i =? id then [p] else [] | _ => [] end.
Proof.
  unfold waits_of. rewrite omap_app. f_equal. destruct c; simpl; try done. by destruct (_ =? _).
Qed.

(** A new entry changes nothing: it is idle. *)
Lemma tracks_append cs ts id :
  tracks cs ts -> tracks cs (ts ++ [new_token id]).
Proof.
  intros [Hf Hi]. split.
  - intros id'. rewrite find_token_snoc. specialize (Hf id').
    destruct (find_token id' ts) as [i|].
    + destruct Hf as (e & Hl & ?). exists e. split; [|done].
      rewrite lookup_app_l; [done|by eapply lookup_lt_Some].
    + case_decide as E; [|done]. exists (new_token id).
      split; [by apply list_lookup_middle|]. simpl in *. destruct Hf as [-> ->]. done.
  - intros j e [Hl|[Hj Hl]]%lookup_app_Some.
    + rewrite find_token_snoc. destruct (Hi j e Hl) as [->|]; auto.
    + right. destruct (j - length ts)%nat eqn:E; simplify_eq/=. done.
Qed.

Lemma tracks_find cs m id :
  tracks cs (tokens_ m) ->
  exists i m', tracks cs (tokens_ m') /\ next_id_ m' = next_id_ m /\
    find_token id (tokens_ m') = Some i /\
    forall f, with_token id f m = mkManager (next_id_ m) (alter f i (tokens_ m')).
Proof.
  intros Ht. unfold with_token, reuse. destruct (find_token id (tokens_ m)) as [i|] eqn:E.
  - exists i, m. by rewrite E.
  - exists (length (tokens_ m)), (mkManager (next_id_ m) (tokens_ m ++ [new_token id])). simpl.
    split_and!; [by apply tracks_append|done|..];
      rewrite find_token_snoc, E, decide_True by done; done.
Qed.

(** Writing the first entry of [id] as a call on [id] asks. *)
Lemma tracks_alter cs c ts id i f :
  tracks cs ts -> find_token id ts = Some i -> (forall t, token_id (f t) = token_id t) ->
  (forall t, signal_pos t = last_signal id cs -> signal_pos (f t) = last_signal id (cs ++ [c])) ->
  (forall t, wait_positions t = waits_of id cs -> wait_positions (f t) = waits_of id (cs ++ [c])) ->
  (forall id', id' <> id -> last_signal id' (cs ++ [c]) = last_signal id' cs /\
                            waits_of id' (cs ++ [c]) = waits_of id' cs) ->
  tracks (cs ++ [c]) (alter f i ts).
Proof.
  intros [Hf Hi] Hid Hft Hs Hw Ho. split.
  - intros id'. rewrite find_token_alter by done. pose proof (Hf id') as H.
    destruct (decide (id' = id)) as [->|Hne].
    + rewrite Hid in *. destruct H as (e & Hl & He & He1 & He2). exists (f e).
      rewrite list_lookup_alter_eq, Hl. split_and!; [done|by rewrite Hft|by apply Hs|by apply Hw].
    + destruct (Ho id' Hne) as [-> ->]. destruct (find_token id' ts) as [k|] eqn:E; [|done].
      destruct H as (e & Hl & He & ?). exists e. split; [|done].
      rewrite list_lookup_alter_ne; [done|]. intros ->.
      apply find_token_some in Hid as (x & ? & ? & _). simplify_eq.
  - intros j e. rewrite find_token_alter by done. destruct (decide (i = j)) as [->|].
    + rewrite list_lookup_alter_eq. destruct (ts !! j) as [t|] eqn:E; simpl; [|done].
      intros [= <-]. left. rewrite Hft. apply find_token_some in Hid as (x & ? & <- & Hj).
      simplify_eq. apply find_token_some. by exists x.
    + rewrite list_lookup_alter_ne by done. apply Hi.
Qed.

Lemma tracks_step cs c m :
  tracks cs (tokens_ m) -> tracks (cs ++ [c]) (tokens_ (token_call m c)).
Proof.
  assert (Hskip : forall ts, tracks cs ts ->
            (forall id, last_signal id (cs ++ [c]) = last_signal id cs /\
                        waits_of id (cs ++ [c]) = waits_of id cs) -> tracks (cs ++ [c]) ts).
  { intros ts [Hf Hi] Hsame. split; [|done]. intros id. destruct (Hsame id) as [-> ->]. apply Hf. }
  intros Ht. destruct c as [|id|id pos name|id pos]; simpl.
  - apply Hskip; [by apply tracks_append|]. intros id. by rewrite last_signal_snoc, waits_of_snoc, app_nil_r.
  - apply Hskip; [|intros id'; by rewrite last_signal_snoc, waits_of_snoc, app_nil_r].
    unfold reuse. case_match; [done|]. by apply tracks_append.
  - destruct (tracks_find cs m id Ht) as (i & m' & Ht' & _ & Hi & Hw). unfold signal. rewrite Hw.
    simpl. eapply tracks_alter; [done|done|done|..]; intros; simpl;
      rewrite ?last_signal_snoc, ?waits_of_snoc, ?app_nil_r; repeat case_bool; try done; lia.
  - destruct (tracks_find cs m id Ht) as (i & m' & Ht' & _ & Hi & Hw). unfold wait. rewrite Hw.
    simpl. eapply tracks_alter; [done|done|done|..]; intros; simpl;
      rewrite ?last_signal_snoc, ?waits_of_snoc, ?app_nil_r; repeat case_bool;
      try congruence; try lia; split; [done|by rewrite app_nil_r].
Qed.

Lemma run_tracks cs : tracks cs (tokens_ (run_tokens cs)).
Proof.
  induction cs as [|c cs IH] using rev_ind; [split; [done|by intros []]|].
  unfold run_tokens. rewrite foldl_snoc. by apply tracks_step.
Qed.

Lemma token_valid_spec t :
  (forall w, w ∈ wait_positions t -> w < 2 ^ 64) ->
  token_valid t = true <-> forall w, w ∈ wait_positions t -> signal_pos t < w.
Proof.
  intros Hb. unfold token_valid, SIZE_MAX in *. rewrite andb_true_iff, forallb_forall. split.
  - intros [_ H] w Hw. specialize (H w (proj1 (list_elem_of_In _ _) Hw)).
    rewrite negb_true_iff, orb_false_iff in H. destruct H. bool_prop. lia.
  - intros H. split.
    + destruct (wait_positions t) as [|w ws]; [done|]. simpl.
      assert (Hw : w ∈ w :: ws) by set_solver. specialize (H w Hw). specialize (Hb w Hw).
      rewrite negb_true_iff. bool_prop. lia.
    + intros w Hw%list_elem_of_In. specialize (H w Hw). specialize (Hb w Hw).
      rewrite negb_true_iff, orb_false_iff. split; bool_prop; lia.
Qed.

Definition call_ok (c : TokenCall) : Prop :=
  match c with CWait _ pos => 0 <= pos < 2 ^ 64 | _ => True end.

Lemma waits_of_elem id w cs : w ∈ waits_of id cs <-> CWait id w ∈ cs.
Proof.
  unfold waits_of. rewrite list_elem_of_omap. split.
  - intros (c & Hc & E). destruct c as [| | |i p]; try done. simpl in E. destruct (Z.eqb_spec i id); by simplify_eq.
  - intros H. exists (CWait id w). split; [done|]. by rewrite Z.eqb_refl.
Qed.

Definition allocs (cs : list TokenCall) : Z :=
  sum_by (fun c => match c with CAllocate => 1 | _ => 0 end) cs.

(** A log that only names ids that were allocated before. *)
Definition named_id (c : TokenCall) : option Z :=
  match c with CAllocate => None | CReuse id => Some id | CSignal id _ _ => Some id | CWait id _ => Some id end.

Fixpoint disciplined (k : Z) (cs : list TokenCall) : Prop :=
  match cs with
  | [] => True
  | c :: cs =>
      match named_id c with
      | None => disciplined (k + 1) cs
      | Some id => (exists j, 0 <= j < k /\ id = 17 + 2 * j) /\ disciplined k cs
      end
  end.

(** After [k] allocations the table holds the ids [17, 19, ...], once each. *)
Definition holds_ids (k : Z) (m : SynctokenManager) : Prop :=
  next_id_ m = 17 + 2 * k /\ map token_id (tokens_ m) = map (fun j => 17 + 2 * j) (seqZ 0 k).

Lemma holds_find k m j : holds_ids k m -> 0 <= j < k -> is_Some (find_token (17 + 2 * j) (tokens_ m)).
Proof.
  intros [_ Hm] Hj. destruct (find_token _ _) eqn:E; [done|]. exfalso.
  assert (H : 17 + 2 * j ∈ map token_id (tokens_ m)).
  { rewrite Hm, elem_of_map. exists j. split; [done|]. rewrite elem_of_seqZ. lia. }
  apply elem_of_map in H as (e & He & Hin). by apply (proj1 (find_token_none _ _) E e).
Qed.

Lemma holds_fresh k m : 0 <= k -> holds_ids k m -> find_token (next_id_ m) (tokens_ m) = None.
Proof.
  intros Hk [-> Hm]. apply find_token_none. intros e He Hid.
  assert (H : token_id e ∈ map token_id (tokens_ m)) by (apply elem_of_map; by exists e).
  rewrite Hm, elem_of_map in H. destruct H as (j & Hj & [_ ?]%elem_of_seqZ). lia.
Qed.

Lemma with_token_ids id f m :
  is_Some (find_token id (tokens_ m)) -> (forall t, token_id (f t) = token_id t) ->
  next_id_ (with_token id f m) = next_id_ m /\
  map token_id (tokens_ (with_token id f m)) = map token_id (tokens_ m).
Proof.
  intros [i Hi] Hf. unfold with_token. rewrite Hi, Hi. simpl. split; [done|].
  change (map token_id ?l) with (token_id <$> l).
  apply list_eq. intros j. rewrite !list_lookup_fmap. destruct (decide (i = j)) as [->|].
  - rewrite list_lookup_alter_eq. destruct (tokens_ m !! j); simpl; [by rewrite Hf|done].
  - by rewrite list_lookup_alter_ne.
Qed.

Lemma disciplined_holds cs : forall k m,
  0 <= k -> disciplined k cs -> holds_ids k m -> k + allocs cs < 2 ^ 31 - 9 ->
  holds_ids (k + allocs cs) (foldl token_call m cs).
Proof.
  unfold allocs. induction cs as [|c cs IH]; intros k m Hk Hd Hh Hb; simpl in *.
  { by rewrite Z.add_0_r. }
  assert (Hnn : 0 <= sum_by (fun c => match c with CAllocate => 1 | _ => 0 end) cs)
    by (apply sum_by_nonneg; intros [] _; lia).
  destruct c as [|id|id pos name|id pos]; simpl in *.
  - rewrite Z.add_assoc. apply IH; [lia|done| |lia]. destruct Hh as [Hn Hm]. split; simpl.
    + rewrite Hn. unwrap. lia.
    + rewrite map_app, Hm. simpl. rewrite Hn, seqZ_app, map_app by lia. f_equal.
  - destruct Hd as [(j & Hj & ->) Hd]. apply IH; [lia|done| |lia].
    unfold reuse. by destruct (holds_find k m j Hh Hj) as [i ->].
  - destruct Hd as [(j & Hj & ->) Hd]. apply IH; [lia|done| |lia]. destruct Hh as [Hn Hm].
    destruct (with_token_ids (17 + 2 * j)
                (fun t => mkToken (token_id t) pos name (wait_positions t)) m) as [E1 E2].
    + by apply (holds_find k).
    + done.
    + unfold signal. split; congruence.
  - destruct Hd as [(j & Hj & ->) Hd]. apply IH; [lia|done| |lia]. destruct Hh as [Hn Hm].
    destruct (with_token_ids (17 + 2 * j)
                (fun t => mkToken (token_id t) (signal_pos t) (signal_name t) (wait_positions t ++ [pos])) m)
      as [E1 E2].
    + by apply (holds_find k).
    + done.
    + unfold wait. split; congruence.
Qed.

Lemma validate_log cs :
  Forall call_ok cs ->
  validate (run_tokens cs) = true <-> forall id w, CWait id w ∈ cs -> last_signal id cs < w.
Proof.
  intros Hok. destruct (run_tracks cs) as [Hf Hi].
  assert (Hb : forall id w, w ∈ waits_of id cs -> w < 2 ^ 64).
  { intros id w Hw%waits_of_elem. rewrite Forall_forall in Hok. by destruct (Hok _ Hw). }
  assert (Hv : forall j e, tokens_ (run_tokens cs) !! j = Some e ->
            wait_positions e = [] \/ signal_pos e = last_signal (token_id e) cs /\
                                     wait_positions e = waits_of (token_id e) cs).
  { intros j e He. destruct (Hi j e He) as [E|]; [right|by left].
    specialize (Hf (token_id e)). rewrite E in Hf. destruct Hf as (? & ? & _ & ?). by simplify_eq. }
  unfold validate. rewrite forallb_forall. split.
  - intros H id w Hw. apply waits_of_elem in Hw. specialize (Hf id).
    destruct (find_token id _) as [i|]; [|destruct Hf as [_ E]; rewrite E in Hw; by apply elem_of_nil in Hw].
    destruct Hf as (e & He & <- & Hs & Hwe). rewrite <- Hs.
    specialize (H e (proj1 (list_elem_of_In _ _) (list_elem_of_lookup_2 _ _ _ He))).
    rewrite token_valid_spec in H.
    + apply H. by rewrite Hwe.
    + rewrite Hwe. apply Hb.
  - intros H e [j He]%list_elem_of_In%list_elem_of_lookup.
    destruct (Hv j e He) as [E|[Es E]]; apply token_valid_spec; rewrite ?E.
    + by intros w Hw%elem_of_nil.
    + by intros w Hw%elem_of_nil.
    + apply Hb.
    + intros w Hw. rewrite Es. by apply H, waits_of_elem.
Qed.

(** [SynctokenManager::validate] on any sequence of [allocate], [reuse],
    [signal] and [wait] calls: it accepts exactly when every wait on a token
    comes after the last position that the token was signalled at (a token
    never signalled counts as signalled at [SIZE_MAX], so no wait passes). *)
Theorem validate_trace cs :
  Forall call_ok cs ->
  validate (run_tokens cs) = true <-> forall id w, CWait id w ∈ cs -> last_signal id cs < w.
Proof. apply validate_log. Qed.

Lemma validate_trace_witness :
  last_signal 17 [CAllocate; CSignal 17 3 "W"; CWait 17 5; CWait 17 9] < 9.
Proof.
  refine (proj1 (validate_trace [CAllocate; CSignal 17 3 "W"; CWait 17 5; CWait 17 9] _) eq_refl 17 9 _).
  - by repeat constructor.
  - apply (list_elem_of_lookup_2 _ 3). reflexivity.
Defined.

(** Ids handed out by [allocate] are fresh: in a log that names only ids
    allocated before, the [k]-th one is [0x11 + 2k], no entry of the table has
    it yet, and the table never holds an id twice. *)
Theorem allocate_fresh cs :
  disciplined 0 cs -> allocs cs < 2 ^ 31 - 9 ->
  let m := run_tokens cs in
  (allocate_token m).1 = 17 + 2 * allocs cs /\
  find_token (allocate_token m).1 (tokens_ m) = None /\
  NoDup (map token_id (tokens_ m)).
Proof.
  intros Hd Hb m. assert (Hn : 0 <= allocs cs) by (apply sum_by_nonneg; intros [] _; lia).
  assert (Hh : holds_ids (allocs cs) m) by (by apply (disciplined_holds cs 0 empty_manager)).
  split_and!; [apply Hh|by apply (holds_fresh (allocs cs))|].
  destruct Hh as [_ ->]. apply NoDup_fmap_2; [intros ???; lia|apply NoDup_seqZ].
Qed.

Lemma allocate_fresh_witness :
  (allocate_token (run_tokens [CAllocate; CSignal 17 0 "W"; CReuse 17; CAllocate])).1 = 17 + 2 * 2.
Proof. apply allocate_fresh; [|reflexivity]. simpl. split_and!; try exists 0; try lia. Defined.

(** What the token table misses.  [signal] overwrites the position, so a
    token shared by two transfers (as the header allows for W and b) is checked
    against the last recorded signal only: a wait before the other signal is
    accepted.  And [reuse] of an id that was never allocated registers it, so a
    later [allocate] hands the same id out again. *)
Theorem shared_tokens_unchecked :
  validate (run_tokens [CAllocate; CSignal 17 5 "W"; CSignal 17 3 "b"; CWait 17 4]) = true /\
  map token_id (tokens_ (run_tokens [CReuse 17; CAllocate])) = [17; 17].
Proof. split; reflexivity. Qed.

(** * The emitter *)

Inductive DmaOpType :=
  | Spill | Fill | SpillWithDB | FillWithDB | MCSend | MCRecvRdy | MCRecvDone | MCRecvDone2
  | ChunkPreload | MSyncPost | MSyncWait | HVXSpawn | DmaCheckpointSet | DmaCheckpointWait.

#[export] Instance DmaOpType_eq_dec : EqDecision DmaOpType.
Proof. solve_decision. Defined.

Definition DMA_MODE_1D : Z := 0x0000.
Definition DMA_MODE_2D : Z := 0x0001.
Definition DMA_MODE_FILL : Z := 0x0010.
Definition DMA_MODE_SPILL : Z := 0x0020.

Record DmaOpInfo := mkDma {
  d_type : DmaOpType;
  src_offset : Z;
  dst_offset : Z;
  d_size : Z;
  src_nsp : Z;
  dst_nsp : Z;
  mcid : Z;
  payload_size : Z;
  is_multicast : bool;
  double_buffered : bool;
  synctoken_id : Z;
  d_flags : Z;
  d_config : Z;
  src_stride : Z;
  dst_stride : Z;
  d_width : Z;
  d_height : Z
}.

(** [DmaOpInfo info{}], and the groups of fields that the emitter fills in. *)
Definition dma (t : DmaOpType) : DmaOpInfo := mkDma t 0 0 0 0 0 0 0 false false 0 0 0 0 0 0 0.

Definition transfer (t : DmaOpType) (src dst size : Z) (db : bool) (token flags : Z) : DmaOpInfo :=
  mkDma t src dst size 0 0 0 0 false db token flags 0 0 0 0 0.

Definition strided (i : DmaOpInfo) (ss ds w h : Z) : DmaOpInfo :=
  mkDma (d_type i) (src_offset i) (dst_offset i) (d_size i) (src_nsp i) (dst_nsp i) (mcid i)
    (payload_size i) (is_multicast i) (double_buffered i) (synctoken_id i) (d_flags i) (d_config i)
    ss ds w h.

Definition mcast (t : DmaOpType) (src dst mcid payload token : Z) : DmaOpInfo :=
  mkDma t 0 0 0 src dst mcid payload true false token 0 0 0 0 0 0.

Definition spill_type (db : bool) : DmaOpType := if db then SpillWithDB else Spill.
Definition fill_type (db : bool) : DmaOpType := if db then FillWithDB else Fill.

Record OpEmitter := mkEmitter {
  emitted_ops_ : list DmaOpInfo;
  synctoken_mgr_ : SynctokenManager
}.

Definition empty_emitter : OpEmitter := mkEmitter [] empty_manager.

(** The [switch] on the type has empty branches, and [position] is not read. *)
Definition emit_dma_op (info : DmaOpInfo) (position : Z) (e : OpEmitter) : OpEmitter :=
  mkEmitter (emitted_ops_ e ++ [info]) (synctoken_mgr_ e).

Definition on_mgr (f : SynctokenManager -> SynctokenManager) (e : OpEmitter) : OpEmitter :=
  mkEmitter (emitted_ops_ e) (f (synctoken_mgr_ e)).

Definition insert_preload_op (position prev_position : Z) (e : OpEmitter) : OpEmitter :=
  emit_dma_op (transfer ChunkPreload position prev_position 0 false 0 0) position e.

Definition insert_spill_fill_pair (vtcm ddr size spill_pos fill_pos : Z) (db : bool)
    (e : OpEmitter) : OpEmitter :=
  let e := emit_dma_op (transfer (spill_type db) vtcm ddr size db 0
                          (Z.lor DMA_MODE_SPILL DMA_MODE_1D)) spill_pos e in
  emit_dma_op (transfer (fill_type db) ddr vtcm size db 0
                 (Z.lor DMA_MODE_FILL DMA_MODE_1D)) fill_pos e.

Definition insert_spill_fill_pair_sync (vtcm ddr size spill_pos fill_pos : Z) (db : bool)
    (token : Z) (e : OpEmitter) : OpEmitter :=
  let e := emit_dma_op (transfer (spill_type db) vtcm ddr size db token
                          (Z.lor DMA_MODE_SPILL DMA_MODE_1D)) spill_pos e in
  let e := on_mgr (signal token spill_pos "DmaCheckpointSet") e in
  let e := emit_dma_op (transfer (fill_type db) ddr vtcm size db token
                          (Z.lor DMA_MODE_FILL DMA_MODE_1D)) fill_pos e in
  on_mgr (wait token fill_pos) e.

Definition insert_spill_fill_pair_2d (vtcm ddr width height ss ds spill_pos fill_pos : Z)
    (db : bool) (token : Z) (e : OpEmitter) : OpEmitter :=
  let size := u64 (width * height) in
  let e := emit_dma_op (strided (transfer (spill_type db) vtcm ddr size db token
                          (Z.lor DMA_MODE_SPILL DMA_MODE_2D)) ss ds width height) spill_pos e in
  let e := if negb (token =? 0) then on_mgr (signal token spill_pos "DmaCheckpointSet(2D)") e else e in
  let e := emit_dma_op (strided (transfer (fill_type db) ddr vtcm size db token
                          (Z.lor DMA_MODE_FILL DMA_MODE_2D)) ds ss width height) fill_pos e in
  if negb (token =? 0) then on_mgr (wait token fill_pos) e else e.

Definition insert_mcast_pair (src dst mcid payload send_pos recv_pos : Z) (e : OpEmitter) : OpEmitter :=
  let e := emit_dma_op (mcast MCSend src dst mcid payload 0) send_pos e in
  emit_dma_op (mcast MCRecvRdy src dst mcid 0 0) recv_pos e.

Definition insert_mcast_pair_sync (src dst mcid payload send_pos recv_pos token : Z)
    (e : OpEmitter) : OpEmitter :=
  let e := emit_dma_op (mcast MCSend src dst mcid payload token) send_pos e in
  let e := on_mgr (signal token send_pos "MCSend") e in
  let e := emit_dma_op (mcast MCRecvRdy src dst mcid 0 token) recv_pos e in
  on_mgr (wait token recv_pos) e.

Definition checkpoint (t : DmaOpType) (token : Z) : DmaOpInfo :=
  transfer t 0 0 0 false token 0.

Definition insert_dma_checkpoint_set (token pos : Z) (name : string) (e : OpEmitter) : OpEmitter :=
  on_mgr (signal token pos name) (emit_dma_op (checkpoint DmaCheckpointSet token) pos e).

Definition insert_dma_checkpoint_wait (token pos : Z) (e : OpEmitter) : OpEmitter :=
  on_mgr (wait token pos) (emit_dma_op (checkpoint DmaCheckpointWait token) pos e).

Definition insert_msync_post (pos : Z) (e : OpEmitter) : OpEmitter := emit_dma_op (dma MSyncPost) pos e.
Definition insert_msync_wait (pos : Z) (e : OpEmitter) : OpEmitter := emit_dma_op (dma MSyncWait) pos e.

Definition insert_hvx_spawn (fork_pos join_pos : Z) (e : OpEmitter) : OpEmitter :=
  emit_dma_op (dma HVXSpawn) join_pos (emit_dma_op (dma HVXSpawn) fork_pos e).

(** These three have no body in the source. *)
Definition validate_spill_fill (e : OpEmitter) : bool := true.
Definition combine_fills (e : OpEmitter) : OpEmitter := e.
Definition link_source_destructive_operands (tags : list Z) (e : OpEmitter) : OpEmitter := e.

(** ** Sequences of emitter calls *)

Inductive EmitCall :=
  | EPreload (pos prev : Z)
  | EPair (vtcm ddr size spos fpos : Z) (db : bool)
  | EPairSync (vtcm ddr size spos fpos : Z) (db : bool) (token : Z)
  | EPair2d (vtcm ddr w h ss ds spos fpos : Z) (db : bool) (token : Z)
  | EMcast (src dst mcid payload spos rpos : Z)
  | EMcastSync (src dst mcid payload spos rpos token : Z)
  | ECheckpointSet (token pos : Z) (name : string)
  | ECheckpointWait (token pos : Z)
  | EMsyncPost (pos : Z)
  | EMsyncWait (pos : Z)
  | EHvxSpawn (fpos jpos : Z).

Definition emit_call (e : OpEmitter) (c : EmitCall) : OpEmitter :=
  match c with
  | EPreload pos prev => insert_preload_op pos prev e
  | EPair v d sz s f db => insert_spill_fill_pair v d sz s f db e
  | EPairSync v d sz s f db t => insert_spill_fill_pair_sync v d sz s f db t e
  | EPair2d v d w h ss ds s f db t => insert_spill_fill_pair_2d v d w h ss ds s f db t e
  | EMcast src dst mc pl s r => insert_mcast_pair src dst mc pl s r e
  | EMcastSync src dst mc pl s r t => insert_mcast_pair_sync src dst mc pl s r t e
  | ECheckpointSet t pos name => insert_dma_checkpoint_set t pos name e
  | ECheckpointWait t pos => insert_dma_checkpoint_wait t pos e
  | EMsyncPost pos => insert_msync_post pos e
  | EMsyncWait pos => insert_msync_wait pos e
  | EHvxSpawn f j => insert_hvx_spawn f j e
  end.

Definition emit_all (cs : list EmitCall) : OpEmitter := foldl emit_call empty_emitter cs.

(** The transfer of a call that is tracked by a token: who signals, who waits. *)
Definition sync_pair (c : EmitCall) : option (Z * Z * Z) :=
  match c with
  | EPairSync _ _ _ s f _ t => Some (t, s, f)
  | EPair2d _ _ _ _ _ _ s f _ t => if t =? 0 then None else Some (t, s, f)
  | EMcastSync _ _ _ _ s r t => Some (t, s, r)
  | _ => None
  end.

(** The token calls that a call makes. *)
Definition token_calls (c : EmitCall) : list TokenCall :=
  match c with
  | EPairSync _ _ _ s f _ t => [CSignal t s "DmaCheckpointSet"; CWait t f]
  | EPair2d _ _ _ _ _ _ s f _ t =>
      if t =? 0 then [] else [CSignal t s "DmaCheckpointSet(2D)"; CWait t f]
  | EMcastSync _ _ _ _ s r t => [CSignal t s "MCSend"; CWait t r]
  | ECheckpointSet t pos name => [CSignal t pos name]
  | ECheckpointWait t pos => [CWait t pos]
  | _ => []
  end.

Lemma emit_all_tokens cs :
  synctoken_mgr_ (emit_all cs) = run_tokens (concat (map token_calls cs)).
Proof.
  induction cs as [|c cs IH] using rev_ind; [done|].
  unfold emit_all, run_tokens in *.
  rewrite foldl_snoc, map_app, concat_app, foldl_app. simpl. rewrite app_nil_r, <- IH.
  set (e := foldl emit_call empty_emitter cs).
  destruct c as [| | |? ? ? ? ? ? ? ? ? t| | | | | | |]; simpl; try done.
  unfold insert_spill_fill_pair_2d. by destruct (t =? 0).
Qed.

(** Calls that pair every signal with a wait. *)
Definition paired (c : EmitCall) : bool :=
  match c with ECheckpointSet _ _ _ | ECheckpointWait _ _ => false | _ => true end.

Lemma token_calls_pair c :
  paired c = true ->
  match sync_pair c with
  | Some (t, s, f) => exists name, token_calls c = [CSignal t s name; CWait t f]
  | None => token_calls c = []
  end.
Proof. destruct c as [| | |? ? ? ? ? ? ? ? ? t| | | | | | |]; simpl; try done; eauto. destruct (t =? 0); eauto. Qed.

Definition pair_token (x : Z * Z * Z) : Z := x.1.1.

Lemma last_signal_app id cs ds :
  (forall p name, CSignal id p name ∉ ds) -> last_signal id (cs ++ ds) = last_signal id cs.
Proof.
  intros H. induction ds as [|c ds IH] using rev_ind; [by rewrite app_nil_r|].
  rewrite app_assoc, last_signal_snoc.
  rewrite IH by (intros p name Hin; apply (H p name); set_solver).
  destruct c as [| |i p name|]; try done. destruct (Z.eqb_spec i id) as [->|]; [|done].
  exfalso. apply (H p name). set_solver.
Qed.

(** The log of paired calls, by token. *)
Lemma paired_signal cs id p name :
  forallb paired cs = true -> CSignal id p name ∈ concat (map token_calls cs) ->
  exists f, (id, p, f) ∈ omap sync_pair cs.
Proof.
  intros Hp (ds & Hds & Hin)%elem_of_concat. apply elem_of_map in Hds as (c & -> & Hc).
  rewrite forallb_forall in Hp. specialize (Hp c (proj1 (list_elem_of_In _ _) Hc)).
  pose proof (token_calls_pair c Hp) as H. destruct (sync_pair c) as [[[t s] f]|] eqn:E.
  - destruct H as [nm H]. rewrite H in Hin. exists f. apply list_elem_of_omap. exists c.
    split; [done|]. rewrite E. set_solver.
  - rewrite H in Hin. by apply elem_of_nil in Hin.
Qed.

Lemma paired_wait cs id w :
  forallb paired cs = true ->
  CWait id w ∈ concat (map token_calls cs) <-> exists s, (id, s, w) ∈ omap sync_pair cs.
Proof.
  intros Hp. rewrite elem_of_concat. setoid_rewrite list_elem_of_omap. rewrite forallb_forall in Hp.
  split.
  - intros (ds & (c & -> & Hc)%elem_of_map & Hin).
    specialize (Hp c (proj1 (list_elem_of_In _ _) Hc)).
    pose proof (token_calls_pair c Hp) as H. destruct (sync_pair c) as [[[t s] f]|] eqn:E.
    + destruct H as [nm H]. rewrite H in Hin. exists s, c. split; [done|]. rewrite E. set_solver.
    + rewrite H in Hin. by apply elem_of_nil in Hin.
  - intros (s & c & Hc & E). exists (token_calls c). split; [apply elem_of_map; by exists c|].
    specialize (Hp c (proj1 (list_elem_of_In _ _) Hc)).
    pose proof (token_calls_pair c Hp) as H. rewrite E in H. destruct H as [nm ->]. set_solver.
Qed.

Lemma paired_last_signal cs id s f :
  forallb paired cs = true -> NoDup (map pair_token (omap sync_pair cs)) ->
  (id, s, f) ∈ omap sync_pair cs -> last_signal id (concat (map token_calls cs)) = s.
Proof.
  induction cs as [|c cs IH] using rev_ind; intros Hp Hnd Hin; [by apply elem_of_nil in Hin|].
  rewrite forallb_app in Hp. apply andb_true_iff in Hp as [Hp Hc]. simpl in Hc.
  rewrite andb_true_r in Hc. pose proof (token_calls_pair c Hc) as Ht.
  rewrite map_app, concat_app. simpl. rewrite app_nil_r.
  rewrite omap_app in Hin, Hnd. rewrite map_app in Hnd. apply NoDup_app in Hnd as (Hnd & Hdis & _).
  simpl in *. destruct (sync_pair c) as [[[t s'] f']|] eqn:E.
  - destruct Ht as [nm ->]. apply elem_of_app in Hin as [Hin|Hin].
    + rewrite last_signal_app; [by apply IH|]. intros p name H.
      assert (t = id) as -> by (set_solver).
      apply (Hdis id); [|simpl; set_solver]. apply elem_of_map. by exists (id, s, f).
    + apply list_elem_of_singleton in Hin. simplify_eq.
      change [CSignal t s' nm; CWait t f'] with ([CSignal t s' nm] ++ [CWait t f']).
      rewrite app_assoc, !last_signal_snoc. by rewrite Z.eqb_refl.
  - rewrite Ht, app_nil_r. apply IH; [done..|]. by rewrite app_nil_r in Hin.
Qed.

(** Positions are [size_t]. *)
Definition positions_ok (cs : list EmitCall) : Prop :=
  forall t s f, (t, s, f) ∈ omap sync_pair cs -> in_u64 f.

(** C36: The emitter and the token check together.  For any sequence of emitter
    calls without bare checkpoints, in which no two transfers share a token,
    [validate] accepts the tokens exactly when every synchronised spill/fill or
    multicast pair has its producer before its consumer; transfers without a
    token do not matter. *)
Theorem emitted_pairs_validate cs :
  forallb paired cs = true -> NoDup (map pair_token (omap sync_pair cs)) -> positions_ok cs ->
  validate (synctoken_mgr_ (emit_all cs)) = true <->
  forall t s f, (t, s, f) ∈ omap sync_pair cs -> s < f.
Proof.
  intros Hp Hnd Hpos. rewrite emit_all_tokens, validate_log.
  - split.
    + intros H t s f Hin. rewrite <- (paired_last_signal cs t s f) by done.
      apply H. apply paired_wait; [done|]. by exists s.
    + intros H id w [s Hin]%paired_wait; [|done]. rewrite (paired_last_signal cs id s w) by done.
      by apply (H id).
  - apply Forall_forall. intros [] Hin; simpl; try done.
    apply paired_wait in Hin as [s Hin]; [|done]. by apply (Hpos id s).
Qed.

Lemma emitted_pairs_validate_witness :
  validate (synctoken_mgr_ (emit_all
    [EPairSync 0 4096 256 2 7 false 17; EPair 256 8192 64 3 4 true; EMcastSync 0 1 5 64 3 9 19])) = true.
Proof.
  apply emitted_pairs_validate.
  - reflexivity.
  - by apply (bool_decide_unpack _); vm_compute.
  - intros t s f. simpl. rewrite !elem_of_cons. intros [?|[?|?%elem_of_nil]]; simplify_eq; lia.
  - intros t s f. simpl. rewrite !elem_of_cons. intros [?|[?|?%elem_of_nil]]; simplify_eq; lia.
Defined.

(** ** What is emitted *)

Definition is_spill (i : DmaOpInfo) : bool := bool_decide (d_type i ∈ [Spill; SpillWithDB]).
Definition is_fill (i : DmaOpInfo) : bool := bool_decide (d_type i ∈ [Fill; FillWithDB]).

(** The transfer that a spill makes, and the one that a fill undoes: VTCM
    address, DDR address, size, buffering, token, VTCM and DDR strides, shape. *)
Definition spill_key (i : DmaOpInfo) : Z * Z * Z * bool * Z * Z * Z * Z * Z :=
  (src_offset i, dst_offset i, d_size i, double_buffered i, synctoken_id i,
   src_stride i, dst_stride i, d_width i, d_height i).
Definition fill_key (i : DmaOpInfo) : Z * Z * Z * bool * Z * Z * Z * Z * Z :=
  (dst_offset i, src_offset i, d_size i, double_buffered i, synctoken_id i,
   dst_stride i, src_stride i, d_width i, d_height i).

Definition spills_of (l : list DmaOpInfo) := map spill_key (filter (fun i => is_spill i = true) l).
Definition fills_of (l : list DmaOpInfo) := map fill_key (filter (fun i => is_fill i = true) l).


(** What one call appends. *)
Definition balanced (l : list DmaOpInfo) : Prop :=
  spills_of l = fills_of l /\
  forall k, (countb is_fill (take k l) <= countb is_spill (take k l))%nat.

Lemma balanced_app l1 l2 : balanced l1 -> balanced l2 -> balanced (l1 ++ l2).
Proof.
  intros [E1 H1] [E2 H2]. unfold balanced, spills_of, fills_of in *. split.
  - by rewrite !filter_app, !map_app, E1, E2.
  - intros k. rewrite take_app, !countb_app. specialize (H1 k). specialize (H2 (k - length l1)%nat). lia.
Qed.

Lemma balanced_idle l : Forall (fun i => is_spill i = false /\ is_fill i = false) l -> balanced l.
Proof.
  intros Hl. unfold balanced, spills_of, fills_of. split.
  - induction Hl as [|i l [Hs Hf] _ IH]; [done|]. by rewrite !filter_cons_False by congruence.
  - intros k. apply (Forall_take _ k) in Hl. rewrite (countb_false is_fill); [lia|].
    intros x Hx. rewrite Forall_forall in Hl. by destruct (Hl x Hx).
Qed.

Lemma balanced_pair a b :
  is_spill a = true -> is_fill a = false -> is_spill b = false -> is_fill b = true ->
  spill_key a = fill_key b -> balanced [a; b].
Proof.
  intros Ha Ha' Hb Hb' E. unfold balanced, spills_of, fills_of. split.
  - rewrite filter_cons_True, filter_cons_False by (simpl; congruence).
    rewrite filter_cons_False, filter_cons_True by (simpl; congruence). simpl. by rewrite E.
  - intros [|[|k]]; simpl; rewrite ?take_nil, ?countb_cons, ?countb_nil, ?Ha, ?Ha', ?Hb, ?Hb'; lia.
Qed.

Lemma emit_call_app e c :
  exists l, emitted_ops_ (emit_call e c) = emitted_ops_ e ++ l /\ balanced l.
Proof.
  assert (Hidle : forall l, forallb (fun i => negb (is_spill i) && negb (is_fill i)) l = true -> balanced l).
  { intros l. rewrite forallb_forall. intros H. apply balanced_idle, Forall_forall.
    intros i Hi%list_elem_of_In. specialize (H i Hi). rewrite andb_true_iff, !negb_true_iff in H. done. }
  destruct c as [| | |? ? ? ? ? ? ? ? db t| | | | | | |]; simpl;
    unfold insert_spill_fill_pair_2d; try destruct (t =? 0);
    eexists; (split; [simpl; rewrite <- ?app_assoc; reflexivity|]); simpl;
    first [by apply Hidle | destruct db; by apply balanced_pair].
Qed.

(** What the emitter appends is balanced, for every sequence of calls: the
    fills undo the spills one for one and in the same order (same VTCM and DDR
    address, size, buffering and token, strides swapped), and no fill is
    emitted before its spill. *)
Theorem emitted_spills_are_filled cs :
  let ops := emitted_ops_ (emit_all cs) in
  spills_of ops = fills_of ops /\
  forall k, (countb is_fill (take k ops) <= countb is_spill (take k ops))%nat.
Proof.
  simpl. change (balanced (emitted_ops_ (emit_all cs))).
  induction cs as [|c cs IH] using rev_ind; [split; [done|by intros []]|].
  unfold emit_all in *. rewrite foldl_snoc.
  destruct (emit_call_app (foldl emit_call empty_emitter cs) c) as (l & -> & Hl).
  by apply balanced_app.
Qed.

(** * The pressure estimates *)

(** [SpillFillScheduler::VtcmPressurePoint]. *)
Record PressurePoint := mkPoint { op_index : Z; current_usage : Z; peak_usage : Z }.

(** The loop body; every op counts as 1024 bytes, half of which it frees. *)
Definition pressure_step (acc : list PressurePoint * Z * Z) (i : nat) : list PressurePoint * Z * Z :=
  let '(curve, cur, peak) := acc in
  let op_vtcm := 1024 in
  let cur := u64 (cur + op_vtcm) in
  let peak := Z.max peak cur in
  (curve ++ [mkPoint (Z.of_nat i) cur peak], Z.max 0 (u64 (cur - op_vtcm / 2)), peak).

(** The run list is only counted. *)
Definition compute_pressure_curve {Op} (runlist : list Op) : list PressurePoint :=
  (foldl pressure_step ([], 0, 0) (seq 0 (length runlist))).1.1.

Definition concurrent_step (acc : Z * Z) (pp : PressurePoint) : Z * Z :=
  let '(most, cur) := acc in
  let cur := if peak_usage pp / 2 <? current_usage pp then u64 (cur + 1024)
             else Z.max 0 (u64 (cur - 1024)) in
  (Z.max most cur, cur).

Definition min_buffer_size {Op} (runlist : list Op) : Z :=
  let '(most, _) := foldl concurrent_step (0, 0) (compute_pressure_curve runlist) in
  Z.land (u64 (most + 127)) (u64 (Z.lnot 127)).

Record TensorLocation := mkLoc {
  tl_vtcm_offset : Z;
  tl_ddr_offset : Z;
  tl_first_use : Z;
  tl_last_use : Z;
  tl_size : Z;
  tl_in_vtcm : bool
}.

Record SpillFillPlan := mkSpillFill {
  spill_position : Z;
  fill_position : Z;
  sf_vtcm_offset : Z;
  sf_ddr_offset : Z;
  sf_size : Z;
  sf_double_buffered : bool
}.

(** The tensor in VTCM with the furthest last use: (index, distance). *)
Definition furthest (i : Z) (locs : list TensorLocation) : nat * Z :=
  foldl (fun '(best, most) '(j, l) =>
           if tl_in_vtcm l && (most <? u64 (tl_last_use l - i)) then (j, u64 (tl_last_use l - i))
           else (best, most)) (0%nat, 0) (zip (seq 0 (length locs)) locs).

Definition evict (l : TensorLocation) : TensorLocation :=
  mkLoc (tl_vtcm_offset l) (tl_ddr_offset l) (tl_first_use l) (tl_last_use l) (tl_size l) false.

Definition plan_step (usable : Z) (acc : list SpillFillPlan * list TensorLocation)
    (ip : nat * PressurePoint) : list SpillFillPlan * list TensorLocation :=
  let '(plans, locs) := acc in
  let '(i, pp) := ip in
  if usable <? current_usage pp then
    let '(best, most) := furthest (Z.of_nat i) locs in
    if 0 <? most then
      match locs !! best with
      | Some l =>
          (plans ++ [mkSpillFill (Z.of_nat i) (tl_last_use l) (tl_vtcm_offset l) (tl_ddr_offset l)
                       (tl_size l) false], alter evict best locs)
      | None => acc
      end
    else acc
  else acc.

(** [tensor_locs] starts empty and nothing adds to it. *)
Definition plan_spills {Op} (runlist : list Op) (vtcm_size : Z) : list SpillFillPlan :=
  let curve := compute_pressure_curve runlist in
  let usable := u64 (vtcm_size * 8) / 10 in
  (foldl (plan_step usable) ([], []) (zip (seq 0 (length curve)) curve)).1.

Lemma pressure_prefix k :
  Z.of_nat k < 2 ^ 50 ->
  foldl pressure_step ([], 0, 0) (seq 0 k) =
  (map (fun i => let u := 512 * Z.of_nat i + 1024 in mkPoint (Z.of_nat i) u u) (seq 0 k),
   512 * Z.of_nat k, if (k =? 0)%nat then 0 else 512 * Z.of_nat k + 512).
Proof.
  induction k as [|k IH]; intros Hk; [done|].
  rewrite seq_S, foldl_snoc, IH, map_app by lia. simpl. unwrap.
  change (1024 / 2) with 512. unwrap. destruct k; simpl; repeat f_equal; lia.
Qed.

Lemma pressure_curve {Op} (runlist : list Op) :
  Z.of_nat (length runlist) < 2 ^ 50 ->
  compute_pressure_curve runlist =
  map (fun i => let u := 512 * Z.of_nat i + 1024 in mkPoint (Z.of_nat i) u u) (seq 0 (length runlist)).
Proof. intros H. unfold compute_pressure_curve. by rewrite pressure_prefix. Qed.

Lemma plan_step_idle usable ips : (foldl (plan_step usable) ([], []) ips) = ([], []).
Proof.
  induction ips as [|[i pp] ips IH]; [done|]. simpl. case_bool; apply IH.
Qed.

(** What the pressure estimates amount to: the usage at op [i] is
    [1024 + 512 i] whatever the ops are, the buffer estimate is 1024 bytes per
    op, and [plan] never plans a spill, because its table of tensor locations
    is never filled. *)
Theorem spill_plan_is_empty {Op} (runlist : list Op) vtcm_size :
  Z.of_nat (length runlist) < 2 ^ 50 ->
  (forall i, (i < length runlist)%nat ->
     compute_pressure_curve runlist !! i =
     Some (mkPoint (Z.of_nat i) (512 * Z.of_nat i + 1024) (512 * Z.of_nat i + 1024))) /\
  min_buffer_size runlist = 1024 * Z.of_nat (length runlist) /\
  plan_spills runlist vtcm_size = [].
Proof.
  intros Hn. unfold min_buffer_size, plan_spills. rewrite pressure_curve by done. split_and!.
  - intros i Hi. change (map ?f ?l) with (f <$> l). rewrite list_lookup_fmap.
    by rewrite lookup_seq_lt by done.
  - assert (H : forall k, Z.of_nat k < 2 ^ 50 ->
      foldl concurrent_step (0, 0)
        (map (fun i => let u := 512 * Z.of_nat i + 1024 in mkPoint (Z.of_nat i) u u) (seq 0 k))
      = (1024 * Z.of_nat k, 1024 * Z.of_nat k)).
    { induction k as [|k IH]; intros Hk; [done|]. rewrite seq_S, map_app, foldl_app, IH by lia.
      simpl. pose proof (Z.div_lt_upper_bound (512 * Z.of_nat k + 1024) 2 (512 * Z.of_nat k + 1024)).
      case_bool; [|lia]. unwrap. f_equal; lia. }
    rewrite H by done. unwrap. change (Z.lnot 127) with (Z.lnot (Z.ones 7)).
    rewrite land_high_u64 by lia. change (2 ^ 7) with 128.
    replace (1024 * Z.of_nat (length runlist) + 127)
      with (127 + (8 * Z.of_nat (length runlist)) * 128) by lia.
    rewrite Z.div_add by lia. change (127 / 128) with 0. lia.
  - by rewrite plan_step_idle.
Qed.

Lemma spill_plan_is_empty_witness :
  min_buffer_size [1; 2; 3] = 1024 * 3 /\ plan_spills [1; 2; 3] 100 = [].
Proof. apply (spill_plan_is_empty [1; 2; 3] 100). reflexivity. Defined.
