(* ===== verification/Mcast.v ===== *)
(** Multicast merging ([compiler/src/mcast/mcast_optimizer.cpp],
    [compiler/include/hnnx/mcast/mcast_optimizer.hpp]): the greedy grouping of
    sends with common channels into supercasts, its acceptance by the placeholder
    solver, and the rewriting of the send list.  The MPS dump, the statistics
    and [max_mcsend_tag], which nothing reads, are left out. *)
From S2P Require Import Prelude Ir.

Record McSend := mkMcSend {
  tag : Z;
  sender_nsp : Z;
  num_mcids : Z;
  payload_size : Z;
  mcids : list Z;
  receivers : list Z
}.

#[export] Instance McSend_inhabited : Inhabited McSend := populate (mkMcSend 0 0 0 0 [] []).
#[export] Instance McSend_eq_dec : EqDecision McSend.
Proof. solve_decision. Defined.

Record SuperCast := mkSuperCast {
  mcsend_tags : list Z;
  sc_mcids : list Z;
  sc_sender_nsp : Z;
  total_payload : Z
}.

(** [push_back] of what [std::find] does not find. *)
Definition add_new (l : list Z) (x : Z) : list Z := if bool_decide (x ∈ l) then l else l ++ [x].
Definition union_new (l xs : list Z) : list Z := foldl add_new l xs.

Definition receivers_conflict (ra rb : list Z) : bool :=
  let set_a : gset Z := list_to_set ra in
  let common := countb (fun r => bool_decide (r ∈ set_a)) rb in
  if (common =? 0)%nat then false
  else if (common =? length rb)%nat then false
  else if (common =? size set_a)%nat then false
  else true.

Section optimizer.
(** [max_mcast_buffer_size_], 0 for no limit, and the sends to optimize. *)
Context (max_mcast_buffer_size : Z) (mcsends : list McSend).

Definition can_merge (a b : McSend) (merged_payload : Z) : bool :=
  (sender_nsp a =? sender_nsp b) &&
  negb ((0 <? max_mcast_buffer_size) && (max_mcast_buffer_size <? merged_payload)) &&
  negb (receivers_conflict (receivers a) (receivers b)).

Definition start_supercast (a : McSend) : SuperCast :=
  mkSuperCast [tag a] (mcids a) (sender_nsp a) (payload_size a).

Definition mcid_overlap (sc : SuperCast) (b : McSend) : bool :=
  existsb (fun mj => existsb (fun mi => mi =? mj) (sc_mcids sc)) (mcids b).

Definition absorb (sc : SuperCast) (b : McSend) : SuperCast :=
  mkSuperCast (mcsend_tags sc ++ [tag b]) (union_new (sc_mcids sc) (mcids b)) (sc_sender_nsp sc)
    (u64 (total_payload sc + payload_size b)).

(** The inner loop, for the sends after [i]. *)
Definition join_step (i : nat) (acc : list bool * SuperCast) (j : nat) : list bool * SuperCast :=
  let '(merged, sc) := acc in
  let b := mcsends !!! j in
  if (merged !!! j : bool) then acc
  else if negb (mcid_overlap sc b) then acc
  else if negb (can_merge (mcsends !!! i) b (u64 (total_payload sc + payload_size b))) then acc
  else (<[j := true]> merged, absorb sc b).

Definition build_step (acc : list bool * list SuperCast) (i : nat) : list bool * list SuperCast :=
  let '(merged, supercasts) := acc in
  if (merged !!! i : bool) then acc
  else
    let '(merged, sc) :=
      foldl (join_step i) (merged, start_supercast (mcsends !!! i))
        (seq (S i) (length mcsends - S i)) in
    (merged, if (1 <? length (mcsend_tags sc))%nat then supercasts ++ [sc] else supercasts).

Definition build_lp_input : list SuperCast :=
  (foldl build_step (replicate (length mcsends) false, []) (seq 0 (length mcsends))).2.

(** [apply_results]: the first send of the tag that is not taken yet. *)
Definition find_unmerged (t : Z) (merged : list bool) : option nat :=
  head (filter (fun i => (tag (mcsends !!! i) =? t) && negb (merged !!! i) = true) (seq 0 (length mcsends))).

Definition collect_step (acc : list bool * list Z) (t : Z) : list bool * list Z :=
  let '(merged, recv) := acc in
  match find_unmerged t merged with
  | Some i => (<[i := true]> merged, union_new recv (receivers (mcsends !!! i)))
  | None => acc
  end.

Definition merge_supercast (acc : list bool * list McSend) (sc : SuperCast) : list bool * list McSend :=
  let '(merged, result) := acc in
  let '(merged, recv) := foldl collect_step (merged, []) (mcsend_tags sc) in
  (merged, result ++ [mkMcSend (hd 0 (mcsend_tags sc)) (sc_sender_nsp sc)
                        (u32 (Z.of_nat (length (sc_mcids sc)))) (total_payload sc)
                        (sc_mcids sc) recv]).

Definition apply_results (supercasts : list SuperCast) : list McSend :=
  let '(merged, result) := foldl merge_supercast (replicate (length mcsends) false, []) supercasts in
  result ++ map (fun i => mcsends !!! i)
              (filter (fun i => merged !!! i = false) (seq 0 (length mcsends))).

(** [SimplexSolver]: accepts the greedy supercasts as they are. *)
Definition solve_ilp (supercasts : list SuperCast) : bool := true.

Definition optimize : list McSend :=
  let supercasts := build_lp_input in
  if solve_ilp supercasts then apply_results supercasts else mcsends.

End optimizer.

(** ** Unions and conflicts *)

Lemma elem_of_union_new l xs x : x ∈ union_new l xs <-> x ∈ l \/ x ∈ xs.
Proof.
  unfold union_new. revert l. induction xs as [|y xs IH]; intros l; simpl; [set_solver|].
  rewrite IH. unfold add_new. case_bool_decide; set_solver.
Qed.

Lemma NoDup_union_new l xs : NoDup l -> NoDup (union_new l xs).
Proof.
  unfold union_new. revert l. induction xs as [|y xs IH]; intros l Hl; simpl; [done|].
  apply IH. unfold add_new. case_bool_decide; [done|]. apply NoDup_app.
  split_and!; [done|set_solver|by apply NoDup_singleton].
Qed.

Lemma common_size ra rb :
  NoDup rb ->
  countb (fun r => bool_decide (r ∈ (list_to_set ra : gset Z))) rb
  = size (list_to_set ra ∩ list_to_set rb : gset Z).
Proof.
  intros Hnd. unfold countb.
  rewrite <- (size_list_to_set (C := gset Z)) by (by apply NoDup_filter).
  f_equal. apply set_eq. intros x.
  rewrite elem_of_list_to_set, list_elem_of_filter, bool_decide_eq_true, elem_of_intersection.
  set_solver.
Qed.

(** The receiver check of two sends without repeated receivers: it reports a
    conflict exactly when the receiver sets overlap and neither contains the
    other. *)
Theorem receivers_conflict_spec ra rb :
  NoDup ra -> NoDup rb ->
  receivers_conflict ra rb = false <->
  (forall x, x ∈ ra -> x ∉ rb) \/ (forall x, x ∈ rb -> x ∈ ra) \/ (forall x, x ∈ ra -> x ∈ rb).
Proof.
  intros Ha Hb. unfold receivers_conflict. cbv zeta. rewrite common_size by done.
  rewrite <- (size_list_to_set (C := gset Z) rb) by done.
  set (A := list_to_set ra : gset Z). set (B := list_to_set rb : gset Z).
  assert (HA : forall x, x ∈ A <-> x ∈ ra) by (intros; apply elem_of_list_to_set).
  assert (HB : forall x, x ∈ B <-> x ∈ rb) by (intros; apply elem_of_list_to_set).
  clearbody A B. setoid_rewrite <- HA. setoid_rewrite <- HB.
  assert (E1 : size (A ∩ B) = 0%nat <-> forall x, x ∈ A -> x ∉ B)
    by (rewrite size_empty_iff; set_solver).
  assert (E2 : size (A ∩ B) = size B <-> forall x, x ∈ B -> x ∈ A).
  { split; [|intros H; f_equal; set_solver]. intros H x Hx.
    assert (E : A ∩ B = B) by (apply leibniz_equiv, set_subseteq_size_equiv; [set_solver|lia]).
    set_solver. }
  assert (E3 : size (A ∩ B) = size A <-> forall x, x ∈ A -> x ∈ B).
  { split; [|intros H; f_equal; set_solver]. intros H x Hx.
    assert (E : A ∩ B = A) by (apply leibniz_equiv, set_subseteq_size_equiv; [set_solver|lia]).
    set_solver. }
  rewrite <- E1, <- E2, <- E3. clear.
  destruct (Nat.eqb_spec (size (A ∩ B)) 0), (Nat.eqb_spec (size (A ∩ B)) (size B)),
    (Nat.eqb_spec (size (A ∩ B)) (size A)); intuition congruence.
Qed.

Lemma receivers_conflict_spec_witness : receivers_conflict [1; 2] [2; 3; 1] = false.
Proof.
  apply receivers_conflict_spec.
  - by apply (bool_decide_unpack _); vm_compute.
  - by apply (bool_decide_unpack _); vm_compute.
  - right. right. intros x. rewrite !elem_of_cons. tauto.
Defined.

(** * The greedy merge *)

Section merge.
Context (mx : Z) (S : list McSend).

Definition absorb_all (sc : SuperCast) (js : list nat) : SuperCast :=
  foldl (fun sc j => absorb sc (S !!! j)) sc js.

(** The supercast of a group of sends, first member first. *)
Definition group_sc (g : list nat) : SuperCast :=
  match g with
  | [] => mkSuperCast [] [] 0 0
  | h :: js => absorb_all (start_supercast (S !!! h)) js
  end.

(** The send [j] may join the supercast that [i] starts. *)
Definition joins (i j : nat) : Prop :=
  sender_nsp (S !!! j) = sender_nsp (S !!! i) /\ receivers_conflict (receivers (S !!! i)) (receivers (S !!! j)) = false.

(** Each send shares a channel with the supercast it joins. *)
Definition linked (sc : SuperCast) (js : list nat) : Prop :=
  forall k j, js !! k = Some j -> exists x, x ∈ sc_mcids (absorb_all sc (take k js)) /\ x ∈ mcids (S !!! j).

Lemma linked_cons sc j js :
  (exists x, x ∈ sc_mcids sc /\ x ∈ mcids (S !!! j)) -> linked (absorb sc (S !!! j)) js -> linked sc (j :: js).
Proof. intros Hx Hl [|k] j' Hk; cbn in *; [by injection Hk as <-|by apply Hl]. Qed.

Lemma mcid_overlap_spec sc b : mcid_overlap sc b = true -> exists x, x ∈ sc_mcids sc /\ x ∈ mcids b.
Proof.
  unfold mcid_overlap. intros (x & Hx & (y & Hy & ->%Z.eqb_eq)%existsb_exists)%existsb_exists.
  exists x. split; by apply list_elem_of_In.
Qed.

Definition group_ok (g : list nat) : Prop :=
  exists h js, g = h :: js /\
    (forall j, j ∈ js -> joins h j) /\ linked (start_supercast (S !!! h)) js /\
    (js = [] \/ mx <= 0 \/ total_payload (group_sc g) <= mx).

Lemma absorb_all_spec sc js :
  let r := absorb_all sc js in
  mcsend_tags r = mcsend_tags sc ++ map (fun j => tag (S !!! j)) js /\
  sc_sender_nsp r = sc_sender_nsp sc /\
  (forall x, x ∈ sc_mcids r <-> x ∈ sc_mcids sc \/ exists j, j ∈ js /\ x ∈ mcids (S !!! j)) /\
  (js <> [] -> total_payload r = u64 (total_payload sc + sum_by (fun j => payload_size (S !!! j)) js)).
Proof.
  unfold absorb_all. revert sc. induction js as [|j js IH]; intros sc; simpl.
  - rewrite app_nil_r. split_and!; [done|done| |done]. intros x. split; [by left|].
    intros [|(? & ?%elem_of_nil & _)]; done.
  - destruct (IH (absorb sc (S !!! j))) as (-> & -> & Hm & Ht). simpl in *.
    split_and!; [by rewrite <- app_assoc|done|..].
    + intros x. rewrite Hm, elem_of_union_new. setoid_rewrite elem_of_cons. split.
      * intros [[?|?]|(k & ? & ?)]; [by left|right; by exists j; auto|right; by exists k; auto].
      * intros [?|(k & [->|?] & ?)]; [by left; left|by left; right|right; by exists k].
    + intros _. destruct (decide (js = [])) as [->|Hne].
      * simpl. by rewrite Z.add_0_r.
      * rewrite (Ht Hne). unfold wrap. rewrite Z.add_mod_idemp_l by lia. f_equal. lia.
Qed.

Lemma group_sc_spec h js :
  let r := group_sc (h :: js) in
  mcsend_tags r = map (fun j => tag (S !!! j)) (h :: js) /\
  sc_sender_nsp r = sender_nsp (S !!! h) /\
  (forall x, x ∈ sc_mcids r <-> exists j, j ∈ h :: js /\ x ∈ mcids (S !!! j)) /\
  (js <> [] -> total_payload r = u64 (sum_by (fun j => payload_size (S !!! j)) (h :: js))).
Proof.
  simpl. destruct (absorb_all_spec (start_supercast (S !!! h)) js) as (-> & -> & Hm & Ht).
  simpl in *. split_and!; [done|done| |done].
  intros x. rewrite Hm. setoid_rewrite elem_of_cons. split.
  - intros [?|(k & ? & ?)]; [by exists h; auto|by exists k; auto].
  - intros (k & [->|?] & ?); [by left|right; by exists k].
Qed.

(** [merged] marks the sends of [ks]. *)
Definition marks (merged : list bool) (P : nat -> Prop) : Prop :=
  length merged = length S /\ forall k, (k < length S)%nat -> merged !!! k = true <-> P k.

Lemma marks_set merged P j :
  marks merged P -> (j < length S)%nat -> marks (<[j := true]> merged) (fun k => P k \/ k = j).
Proof.
  intros [Hl Hm] Hj. split; [by rewrite length_insert|]. intros k Hk.
  destruct (decide (k = j)) as [->|Hne].
  - rewrite list_lookup_total_insert_eq by lia. naive_solver.
  - rewrite list_lookup_total_insert_ne, Hm by done. naive_solver.
Qed.

Lemma marks_iff merged P Q : (forall k, P k <-> Q k) -> marks merged P -> marks merged Q.
Proof. intros H [? Hm]. split; [done|]. intros k Hk. by rewrite Hm, H. Qed.

Lemma marks_false merged P k :
  marks merged P -> (k < length S)%nat -> merged !!! k = false <-> ~ P k.
Proof. intros [_ Hm] Hk. rewrite <- (Hm k Hk). by destruct (merged !!! k). Qed.

Lemma join_loop i l : forall merged P sc,
  marks merged P -> NoDup l -> (forall j, j ∈ l -> (j < length S)%nat) ->
  exists js merged', foldl (join_step mx S i) (merged, sc) l = (merged', absorb_all sc js) /\
    marks merged' (fun k => P k \/ k ∈ js) /\ NoDup js /\
    (forall j, j ∈ js -> j ∈ l /\ ~ P j /\ joins i j) /\ linked sc js /\
    (js = [] \/ mx <= 0 \/ total_payload (absorb_all sc js) <= mx).
Proof.
  induction l as [|j l IH]; intros merged P sc Hm Hnd Hl.
  { exists [], merged. split_and!; [done| |constructor| |done|by left].
    - eapply marks_iff; [|done]. intros k. rewrite elem_of_nil. tauto.
    - by intros j ?%elem_of_nil. }
  apply NoDup_cons in Hnd as [Hjl Hnd].
  assert (Hskip : exists js merged', foldl (join_step mx S i) (merged, sc) l = (merged', absorb_all sc js) /\
    marks merged' (fun k => P k \/ k ∈ js) /\ NoDup js /\
    (forall k, k ∈ js -> k ∈ j :: l /\ ~ P k /\ joins i k) /\ linked sc js /\
    (js = [] \/ mx <= 0 \/ total_payload (absorb_all sc js) <= mx)).
  { destruct (IH merged P sc Hm Hnd) as (js & m' & E & Hm' & Hn & Hjs & Hlk & Ht);
      [intros; apply Hl; set_solver|].
    exists js, m'. split_and!; [done..| |done|done]. intros k Hk. destruct (Hjs k Hk) as (? & ? & ?). set_solver. }
  simpl. destruct (merged !!! j) eqn:Ej; [done|].
  destruct (negb (mcid_overlap _ _)) eqn:Eo; [done|]. apply negb_false_iff, mcid_overlap_spec in Eo.
  destruct (negb (can_merge _ _ _ _)) eqn:Ec; [done|]. clear Hskip.
  apply negb_false_iff in Ec. unfold can_merge in Ec. rewrite !andb_true_iff, !negb_true_iff in Ec.
  destruct Ec as [[Es Ecap] Econ]. apply Z.eqb_eq in Es.
  assert (Hj : (j < length S)%nat) by (apply Hl; set_solver).
  apply (marks_false _ _ _ Hm) in Ej; [|done].
  destruct (IH (<[j := true]> merged) (fun k => P k \/ k = j) (absorb sc (S !!! j)))
    as (js & m' & E & Hm' & Hn & Hjs & Hlk & Ht); [by apply marks_set|done|intros; apply Hl; set_solver|].
  exists (j :: js), m'. split_and!.
  - done.
  - eapply marks_iff; [|done]. intros k. rewrite elem_of_cons. tauto.
  - apply NoDup_cons. split; [|done]. intros Hin. destruct (Hjs j Hin) as (? & ? & _). tauto.
  - intros k [->|Hk]%elem_of_cons; [split_and!; [set_solver|done|by split]|].
    destruct (Hjs k Hk) as (? & Hnot & ?). split_and!; [set_solver|tauto|done].
  - by apply linked_cons.
  - right. destruct Ht as [->|[?|?]]; [|by left|by right].
    simpl. destruct (decide (mx <= 0)); [by left|right].
    apply andb_false_iff in Ecap as [?|?]; bool_prop; lia.
Qed.

Definition big (g : list nat) : bool := (1 <? length g)%nat.

(** The state after the sends before [i]: groups of sends. *)
Definition build_inv (i : nat) (merged : list bool) (scs : list SuperCast) (gs : list (list nat)) : Prop :=
  scs = map group_sc (filter (fun g => big g = true) gs) /\
  Forall group_ok gs /\ NoDup (concat gs) /\
  length merged = length S /\
  forall k, (k < length S)%nat -> k ∈ concat gs <-> (k < i)%nat \/ merged !!! k = true.

Lemma build_step_inv i merged scs gs :
  (i < length S)%nat -> (forall k, k ∈ concat gs -> (k < length S)%nat) ->
  build_inv i merged scs gs ->
  exists merged' scs' gs', build_step mx S (merged, scs) i = (merged', scs') /\
    build_inv (i + 1) merged' scs' gs' /\ (forall k, k ∈ concat gs' -> (k < length S)%nat).
Proof.
  intros Hi Hlt (-> & Hok & Hnd & Hlen & Hin). unfold build_step.
  destruct (merged !!! i) eqn:Ei.
  { exists merged, (map group_sc (filter (fun g => big g = true) gs)), gs. split_and!; [done| |done].
    split_and!; try done. intros k Hk. rewrite Hin by done. split; [intuition lia|].
    intros [?|?]; [|by right]. destruct (decide (k = i)) as [->|]; [by right|left; lia]. }
  destruct (join_loop i (seq (Datatypes.S i) (length S - Datatypes.S i)) merged
              (fun k => merged !!! k = true) (start_supercast (S !!! i)))
    as (js & m' & E & Hm' & Hn & Hjs & Hlk & Ht).
  { by split. } { apply NoDup_seq. } { intros j. rewrite elem_of_seq. lia. }
  rewrite E. change (absorb_all (start_supercast (S !!! i)) js) with (group_sc (i :: js)) in *.
  destruct (group_sc_spec i js) as (Etags & _).
  exists m', (map group_sc (filter (fun g => big g = true) (gs ++ [i :: js]))), (gs ++ [i :: js]).
  assert (Hnew : forall k, k ∈ js -> (i < k < length S)%nat /\ merged !!! k = false).
  { intros k Hk. destruct (Hjs k Hk) as (Hs%elem_of_seq & Hf & _).
    split; [lia|]. by destruct (merged !!! k). }
  split_and!.
  - rewrite Etags, length_map, filter_app, map_app.
    change (1 <? length (i :: js))%nat with (big (i :: js)).
    destruct (big (i :: js)) eqn:Eb; [rewrite filter_cons_True by done|rewrite filter_cons_False by congruence];
      simpl; by rewrite ?app_nil_r.
  - split_and!; [done|..].
    + apply Forall_app. split; [done|]. apply Forall_singleton. exists i, js.
      split_and!; [done| |done|done]. intros j Hj. by apply Hjs.
    + rewrite concat_app. simpl. rewrite app_nil_r. apply NoDup_app. split_and!; [done| |].
      * intros k Hk. pose proof (Hlt k Hk) as Hkl. apply Hin in Hk; [|done].
        intros [->|Hkj]%elem_of_cons; [destruct Hk; [lia|congruence]|].
        destruct (Hnew k Hkj). destruct Hk; [lia|congruence].
      * apply NoDup_cons. split; [|done]. intros Hk. destruct (Hnew i Hk). lia.
    + apply Hm'.
    + intros k Hk. rewrite concat_app. simpl. rewrite app_nil_r, elem_of_app, elem_of_cons, Hin by done.
      destruct Hm' as [_ Hm']. rewrite (Hm' k Hk). split; [intuition lia|].
      intros [?|[?|?]]; [|tauto|tauto]. destruct (decide (k = i)); [tauto|left; left; lia].
  - intros k. rewrite concat_app. simpl. rewrite app_nil_r, elem_of_app, elem_of_cons.
    intros [?|[->|Hk]]; [by apply Hlt|done|]. destruct (Hnew k Hk). lia.
Qed.

Lemma build_groups :
  exists gs, build_lp_input mx S = map group_sc (filter (fun g => big g = true) gs) /\
    Forall group_ok gs /\ concat gs ≡ₚ seq 0 (length S).
Proof.
  assert (H : forall i, (i <= length S)%nat -> exists merged scs gs,
    foldl (build_step mx S) (replicate (length S) false, []) (seq 0 i) = (merged, scs) /\
    build_inv i merged scs gs /\ (forall k, k ∈ concat gs -> (k < length S)%nat)).
  { induction i as [|i IH]; intros Hi.
    - exists (replicate (length S) false), [], []. split_and!; [done| |by intros k ?%elem_of_nil].
      split_and!; [done|constructor|constructor|apply length_replicate|].
      intros k Hk. simpl. rewrite elem_of_nil, lookup_total_replicate_2 by done. intuition (lia || done).
    - destruct IH as (merged & scs & gs & E & Hinv & Hlt); [lia|].
      rewrite seq_S, foldl_snoc, E. simpl.
      destruct (build_step_inv i merged scs gs) as (m' & s' & g' & E' & Hinv' & Hlt'); [lia|done|done|].
      exists m', s', g'. by rewrite Nat.add_1_r in Hinv'. }
  destruct (H (length S)) as (merged & scs & gs & E & (-> & Hok & Hnd & _ & Hin) & Hlt); [lia|].
  exists gs. unfold build_lp_input. rewrite E. split_and!; [done|done|].
  apply NoDup_Permutation; [done|apply NoDup_seq|]. intros k. rewrite elem_of_seq. split.
  - intros Hk. specialize (Hlt k Hk). lia.
  - intros Hk. apply Hin; [lia|left; lia].
Qed.

(** ** Applying the groups *)

Lemma head_filter_unique (f : nat -> bool) l k :
  k ∈ l -> f k = true -> (forall i, i ∈ l -> f i = true -> i = k) ->
  head (filter (fun i => f i = true) l) = Some k.
Proof.
  intros Hk Hf Hu. destruct (filter (fun i => f i = true) l) as [|x r] eqn:E.
  - exfalso. assert (Hin : k ∈ filter (fun i => f i = true) l) by (by apply list_elem_of_filter).
    rewrite E in Hin. by apply elem_of_nil in Hin.
  - assert (Hin : x ∈ filter (fun i => f i = true) l) by (rewrite E; set_solver).
    apply list_elem_of_filter in Hin as [? ?]. simpl. f_equal. by apply Hu.
Qed.

Context (Htags : NoDup (map tag S)).

Lemma tag_inj i j :
  (i < length S)%nat -> (j < length S)%nat -> tag (S !!! i) = tag (S !!! j) -> i = j.
Proof.
  intros Hi Hj Heq. apply (NoDup_lookup _ _ _ (tag (S !!! i)) Htags);
    change (map tag S) with (tag <$> S); rewrite list_lookup_fmap;
    rewrite list_lookup_lookup_total_lt by done; simpl; by rewrite ?Heq.
Qed.

Lemma find_unmerged_spec merged P k :
  marks merged P -> (k < length S)%nat -> ~ P k ->
  find_unmerged S (tag (S !!! k)) merged = Some k.
Proof.
  intros Hm Hk HP. unfold find_unmerged.
  apply (head_filter_unique (fun i => (tag (S !!! i) =? tag (S !!! k)) && negb (merged !!! i))).
  - rewrite elem_of_seq. lia.
  - rewrite Z.eqb_refl. simpl. apply negb_true_iff. by apply (marks_false _ _ _ Hm).
  - intros i Hi%elem_of_seq [Ht _]%andb_true_iff. apply Z.eqb_eq in Ht. apply tag_inj; [lia|done|done].
Qed.

Definition group_receivers (recv : list Z) (g : list nat) : list Z :=
  foldl (fun r k => union_new r (receivers (S !!! k))) recv g.

Lemma elem_of_group_receivers recv g x :
  x ∈ group_receivers recv g <-> x ∈ recv \/ exists k, k ∈ g /\ x ∈ receivers (S !!! k).
Proof.
  unfold group_receivers. revert recv. induction g as [|k g IH]; intros recv; simpl.
  - split; [by left|]. intros [|(? & ?%elem_of_nil & _)]; done.
  - rewrite IH, elem_of_union_new. setoid_rewrite elem_of_cons. split.
    + intros [[?|?]|(j & ? & ?)]; [by left|right; by exists k; auto|right; by exists j; auto].
    + intros [?|(j & [->|?] & ?)]; [by left; left|by left; right|right; by exists j].
Qed.

Lemma collect_loop g : forall merged P recv,
  marks merged P -> NoDup g -> (forall k, k ∈ g -> (k < length S)%nat /\ ~ P k) ->
  exists merged', foldl (collect_step S) (merged, recv) (map (fun j => tag (S !!! j)) g)
      = (merged', group_receivers recv g) /\
    marks merged' (fun k => P k \/ k ∈ g).
Proof.
  induction g as [|k g IH]; intros merged P recv Hm Hnd Hg; simpl.
  { exists merged. split; [done|]. eapply marks_iff; [|done]. intros k. rewrite elem_of_nil. tauto. }
  apply NoDup_cons in Hnd as [Hkg Hnd]. destruct (Hg k) as [Hk HP]; [set_solver|].
  rewrite (find_unmerged_spec _ _ _ Hm Hk HP).
  destruct (IH (<[k := true]> merged) (fun j => P j \/ j = k) (union_new recv (receivers (S !!! k))))
    as (m' & E & Hm').
  - by apply marks_set.
  - done.
  - intros j Hj. destruct (Hg j) as [? ?]; [set_solver|]. split; [done|]. intros [?| ->]; done.
  - exists m'. split; [done|]. eapply marks_iff; [|done]. intros j. rewrite elem_of_cons. tauto.
Qed.

(** The send that a group becomes. *)
Definition merged_send (g : list nat) : McSend :=
  let sc := group_sc g in
  mkMcSend (hd 0 (mcsend_tags sc)) (sc_sender_nsp sc) (u32 (Z.of_nat (length (sc_mcids sc))))
    (total_payload sc) (sc_mcids sc) (group_receivers [] g).

Lemma merge_loop bs : forall merged P result,
  marks merged P -> NoDup (concat bs) -> Forall group_ok bs ->
  (forall k, k ∈ concat bs -> (k < length S)%nat /\ ~ P k) ->
  exists merged', foldl (merge_supercast S) (merged, result) (map group_sc bs)
      = (merged', result ++ map merged_send bs) /\
    marks merged' (fun k => P k \/ k ∈ concat bs).
Proof.
  induction bs as [|g bs IH]; intros merged P result Hm Hnd Hok Hbs; cbn [map foldl].
  { exists merged. rewrite app_nil_r. split; [done|]. eapply marks_iff; [|done].
    intros k. rewrite elem_of_nil. tauto. }
  simpl in Hnd. apply NoDup_app in Hnd as (Hg & Hdis & Hnd).
  apply Forall_cons in Hok as [Hgok Hok]. pose proof Hgok as (h & js & -> & _).
  destruct (collect_loop (h :: js) merged P [] Hm Hg) as (m' & E & Hm').
  { intros k Hk. apply Hbs. simpl. set_solver. }
  destruct (group_sc_spec h js) as (Etags & _).
  assert (Estep : merge_supercast S (merged, result) (group_sc (h :: js))
                  = (m', result ++ [merged_send (h :: js)])).
  { unfold merge_supercast, merged_send. by rewrite Etags, E. }
  rewrite Estep.
  destruct (IH m' (fun k => P k \/ k ∈ h :: js) (result ++ [merged_send (h :: js)])) as (m2 & E2 & Hm2);
    [done|done|done| |].
  - intros k Hk. destruct (Hbs k) as [? ?]; [simpl; set_solver|]. split; [done|].
    intros [?|Hkg]; [done|]. by apply (Hdis k).
  - exists m2. split.
    + rewrite E2, <- app_assoc. done.
    + eapply marks_iff; [|exact Hm2]. intros k.
      change (concat ((h :: js) :: bs)) with ((h :: js) ++ concat bs). rewrite elem_of_app. tauto.
Qed.

(** What [optimize] returns: one send per group of two or more, then the sends
    of no such group. *)
Lemma optimize_groups :
  exists bs rest, optimize mx S = map merged_send bs ++ map (fun i => S !!! i) rest /\
    Forall group_ok bs /\ Forall (fun g => big g = true) bs /\
    concat bs ++ rest ≡ₚ seq 0 (length S).
Proof.
  destruct build_groups as (gs & E & Hok & Hperm).
  set (bs := filter (fun g => big g = true) gs) in *.
  assert (Hnd : NoDup (concat gs)) by (rewrite Hperm; apply NoDup_seq).
  assert (Hsub : NoDup (concat bs) /\ forall k, k ∈ concat bs -> k ∈ concat gs).
  { unfold bs. clear -Hnd. induction gs as [|g gs IH]; [by split|]. simpl in Hnd.
    apply NoDup_app in Hnd as (Hg & Hdis & Hnd). destruct (IH Hnd) as [IH1 IH2].
    rewrite filter_cons. case_decide; simpl.
    - split; [apply NoDup_app; split_and!; [done| |done]|].
      + intros k Hk Hkb. by apply (Hdis k Hk), IH2.
      + intros k. rewrite !elem_of_app. intuition auto.
    - split; [done|]. intros k Hk. rewrite elem_of_app. right. by apply IH2. }
  destruct Hsub as [Hndb Hsub].
  assert (Hokb : Forall group_ok bs) by (rewrite Forall_forall in *; intros g [_ Hg]%list_elem_of_filter; by apply Hok).
  destruct (merge_loop bs (replicate (length S) false) (fun _ => False) []) as (m' & E' & Hm').
  - split; [apply length_replicate|]. intros k Hk. by rewrite lookup_total_replicate_2.
  - done.
  - done.
  - intros k Hk. split; [|tauto]. apply Hsub in Hk. rewrite Hperm, elem_of_seq in Hk. lia.
  - exists bs, (filter (fun i => m' !!! i = false) (seq 0 (length S))).
    split_and!; [|done| |].
    + unfold optimize, solve_ilp, apply_results. by rewrite E, E'.
    + apply Forall_forall. by intros g [? _]%list_elem_of_filter.
    + apply NoDup_Permutation.
      * apply NoDup_app. split_and!; [done| |apply NoDup_filter, NoDup_seq].
        intros k Hk [Hf Hk2%elem_of_seq]%list_elem_of_filter.
        apply (marks_false _ _ _ Hm') in Hf; [|lia]. tauto.
      * apply NoDup_seq.
      * intros k. rewrite elem_of_app, list_elem_of_filter, elem_of_seq. split.
        { intros [Hk|[_ ?]]; [|done]. apply Hsub in Hk. rewrite Hperm, elem_of_seq in Hk. lia. }
        intros Hk. destruct (decide (k ∈ concat bs)); [by left|right]. split; [|done].
        apply (marks_false _ _ _ Hm'); [lia|tauto].
Qed.

End merge.

Lemma sum_by_concat {A} (f : A -> Z) ls : sum_by f (concat ls) = sum_by (fun l => sum_by f l) ls.
Proof. induction ls as [|l ls IH]; [done|]. simpl. by rewrite sum_by_app, IH. Qed.

Lemma NoDup_hd_concat {A} (ls : list (list A)) x0 rest :
  Forall (fun l => l <> []) ls -> NoDup (concat ls ++ rest) -> NoDup (map (hd x0) ls ++ rest).
Proof.
  induction ls as [|l ls IH]; intros Hne Hnd; [done|].
  apply Forall_cons in Hne as [Hl Hne]. destruct l as [|x l]; [done|]. simpl in *.
  apply NoDup_cons in Hnd as [Hx Hnd]. rewrite <- app_assoc in Hnd. apply NoDup_app in Hnd as (_ & _ & Hnd).
  apply NoDup_cons. split; [|by apply IH].
  intros Hin. apply Hx. rewrite <- app_assoc. apply elem_of_app. right. apply elem_of_app.
  apply elem_of_app in Hin as [(k & -> & Hk)%elem_of_map|]; [left|by right].
  rewrite Forall_forall in Hne. specialize (Hne k Hk). destruct k as [|y k]; [done|].
  apply elem_of_concat. exists (y :: k). split; [done|]. simpl. set_solver.
Qed.

Lemma length_concat_ge {A} (ls : list (list A)) :
  Forall (fun l => l <> []) ls -> (length ls <= length (concat ls))%nat.
Proof.
  induction 1 as [|l ls Hl _ IH]; [done|]. simpl. rewrite length_app. destruct l; [done|]. simpl. lia.
Qed.

(** The sends as their indices. *)
Lemma seq_sends (S : list McSend) : map (fun i => S !!! i) (seq 0 (length S)) = S.
Proof.
  change (map ?f ?l) with (f <$> l). apply list_eq. intros i. rewrite list_lookup_fmap.
  destruct (decide (i < length S)%nat).
  - rewrite lookup_seq_lt by done. simpl. by rewrite list_lookup_lookup_total_lt.
  - rewrite lookup_seq_ge by lia. simpl. symmetry. apply lookup_ge_None_2. lia.
Qed.

Lemma merged_send_spec mx S g :
  group_ok mx S g -> big g = true ->
  (forall k, k ∈ g -> 0 <= payload_size (S !!! k)) ->
  sum_by (fun k => payload_size (S !!! k)) g < 2 ^ 64 ->
  let m := merged_send S g in
  tag m = tag (S !!! hd 0%nat g) /\
  payload_size m = sum_by (fun k => payload_size (S !!! k)) g /\
  (mx <= 0 \/ payload_size m <= mx) /\
  (forall k, k ∈ g -> sender_nsp m = sender_nsp (S !!! k)) /\
  (forall x, x ∈ mcids m <-> exists k, k ∈ g /\ x ∈ mcids (S !!! k)) /\
  (forall x, x ∈ receivers m <-> exists k, k ∈ g /\ x ∈ receivers (S !!! k)).
Proof.
  intros (h & js & -> & Hs & _ & Hcap) Hb Hp Hsum.
  destruct (group_sc_spec S h js) as (Etags & Es & Hm & Ht).
  assert (Hne : js <> []) by (by intros ->). unfold merged_send. cbv zeta. cbn [tag payload_size sender_nsp mcids receivers].
  rewrite Etags, Es, (Ht Hne) in *. simpl hd. split_and!.
  - done.
  - apply wrap_id. split; [|done]. apply sum_by_nonneg. intros k Hk. by apply Hp.
  - destruct Hcap as [?|[?|?]]; [done|by left|by right].
  - intros k [->|Hk]%elem_of_cons; [done|]. by rewrite (proj1 (Hs k Hk)).
  - done.
  - intros x. rewrite elem_of_group_receivers. split; [|by right]. by intros [?%elem_of_nil|].
Qed.

(** ** The result of [optimize], by groups *)
Section optimized.
Context (mx : Z) (sends : list McSend) (bs : list (list nat)) (rest : list nat).
Context (Htags : NoDup (map tag sends)) (Hpos : forall s, s ∈ sends -> 0 <= payload_size s)
  (Hsum : sum_by payload_size sends < 2 ^ 64).
Context (Hok : Forall (group_ok mx sends) bs) (Hbig : Forall (fun g => big g = true) bs)
  (Hperm : concat bs ++ rest ≡ₚ seq 0 (length sends)).

Let pay (k : nat) : Z := payload_size (sends !!! k).

Lemma index_in k : k ∈ concat bs ++ rest -> (k < length sends)%nat /\ sends !!! k ∈ sends.
Proof. rewrite Hperm, elem_of_seq. intros ?. split; [lia|]. apply list_elem_of_lookup_total_2. lia. Qed.

Lemma member_in g k : g ∈ bs -> k ∈ g -> k ∈ concat bs ++ rest.
Proof. intros. apply elem_of_app. left. apply elem_of_concat. by exists g. Qed.

Lemma pay_nonneg k : k ∈ concat bs ++ rest -> 0 <= pay k.
Proof. intros Hk. apply Hpos. by apply index_in. Qed.

Lemma pay_total : sum_by (fun g => sum_by pay g) bs + sum_by pay rest = sum_by payload_size sends.
Proof.
  rewrite <- sum_by_concat, <- sum_by_app, (sum_by_perm _ _ _ Hperm).
  transitivity (sum_by payload_size (map (fun i => sends !!! i) (seq 0 (length sends)))).
  - by rewrite sum_by_map.
  - by rewrite seq_sends.
Qed.

Lemma groups_nonempty : Forall (fun g : list nat => g <> []) bs.
Proof. eapply Forall_impl; [exact Hbig|]. by intros []. Qed.

Lemma pay_group g : g ∈ bs -> sum_by pay g < 2 ^ 64.
Proof.
  intros Hg.
  assert (H0 : forall g, g ∈ bs -> 0 <= sum_by pay g)
    by (intros g' Hg'; apply sum_by_nonneg; intros k Hk; by apply pay_nonneg, (member_in g')).
  pose proof (sum_by_elem_le (fun g => sum_by pay g) bs g H0 Hg).
  assert (0 <= sum_by pay rest) by (apply sum_by_nonneg; intros; apply pay_nonneg; set_solver).
  pose proof pay_total. simpl in *. lia.
Qed.

Lemma group_send g : g ∈ bs ->
  let m := merged_send sends g in
  tag m = tag (sends !!! hd 0%nat g) /\
  payload_size m = sum_by pay g /\
  (mx <= 0 \/ payload_size m <= mx) /\
  (forall k, k ∈ g -> sender_nsp m = sender_nsp (sends !!! k)) /\
  (forall x, x ∈ mcids m <-> exists k, k ∈ g /\ x ∈ mcids (sends !!! k)) /\
  (forall x, x ∈ receivers m <-> exists k, k ∈ g /\ x ∈ receivers (sends !!! k)).
Proof.
  intros Hg. apply merged_send_spec;
    [by apply (proj1 (Forall_forall _ _) Hok)|by apply (proj1 (Forall_forall _ _) Hbig)| |by apply pay_group].
  intros k Hk. by apply pay_nonneg, (member_in g).
Qed.

Lemma heads_in i : i ∈ map (hd 0%nat) bs ++ rest -> i ∈ concat bs ++ rest.
Proof.
  intros [(g & -> & Hg)%elem_of_map|?]%elem_of_app; [|by apply elem_of_app; right].
  apply (member_in g _ Hg). pose proof groups_nonempty as Hne. rewrite Forall_forall in Hne.
  specialize (Hne g Hg). destruct g; [done|]. simpl. set_solver.
Qed.

Lemma result_tags :
  NoDup (map tag (map (merged_send sends) bs ++ map (fun i => sends !!! i) rest)).
Proof.
  rewrite map_app, !map_map.
  rewrite (map_ext_in _ (fun g => tag (sends !!! hd 0%nat g)) bs)
    by (intros g Hg%list_elem_of_In; by apply group_send).
  rewrite <- (map_map (hd 0%nat) (fun i => tag (sends !!! i))), <- map_app.
  apply (NoDup_fmap_2_strong (fun i => tag (sends !!! i))).
  - intros i j Hi Hj. apply tag_inj; [done|by apply index_in, heads_in|by apply index_in, heads_in].
  - apply NoDup_hd_concat; [apply groups_nonempty|]. rewrite Hperm. apply NoDup_seq.
Qed.

Lemma result_carries s :
  s ∈ sends ->
  exists m, m ∈ map (merged_send sends) bs ++ map (fun i => sends !!! i) rest /\
    sender_nsp m = sender_nsp s /\
    (forall x, x ∈ receivers s -> x ∈ receivers m) /\ (forall x, x ∈ mcids s -> x ∈ mcids m).
Proof.
  intros [k Hk]%list_elem_of_lookup. pose proof (lookup_lt_Some _ _ _ Hk).
  apply list_lookup_total_correct in Hk as Hs.
  assert (Hin : k ∈ concat bs ++ rest) by (rewrite Hperm, elem_of_seq; lia).
  apply elem_of_app in Hin as [(g & Hg & Hkg)%elem_of_concat|Hkr].
  - exists (merged_send sends g). destruct (group_send g Hg) as (_ & _ & _ & Hse & Hmc & Hre).
    rewrite <- Hs. split_and!.
    + apply elem_of_app. left. apply elem_of_map. by exists g.
    + by apply Hse.
    + intros x Hx. apply Hre. by exists k.
    + intros x Hx. apply Hmc. by exists k.
  - exists s. split_and!; [|done..]. apply elem_of_app. right. apply elem_of_map. by exists k.
Qed.

End optimized.

(** What a result made of the sends [g] is: the send itself when it is alone;
    otherwise one send with the tag of the first, the common sender, the
    payloads, channels and receivers of all of them and of no other send,
    within the buffer limit.  Each of them shares a channel with one before
    it, and its receivers do not conflict with those of the first. *)
Definition merge_of (mx : Z) (g : list McSend) (m : McSend) : Prop :=
  match g with
  | [] => False
  | [s] => m = s
  | s0 :: ss =>
      tag m = tag s0 /\ payload_size m = sum_by payload_size g /\ (mx <= 0 \/ payload_size m <= mx) /\
      num_mcids m = u32 (Z.of_nat (length (mcids m))) /\
      (forall s, s ∈ g -> sender_nsp s = sender_nsp m) /\
      (forall x, x ∈ mcids m <-> exists s, s ∈ g /\ x ∈ mcids s) /\
      (forall x, x ∈ receivers m <-> exists s, s ∈ g /\ x ∈ receivers s) /\
      (forall s, s ∈ ss -> receivers_conflict (receivers s0) (receivers s) = false) /\
      (forall k s, ss !! k = Some s -> exists s' x, s' ∈ s0 :: take k ss /\ x ∈ mcids s' /\ x ∈ mcids s)
  end.

Lemma merged_group mx sends bs rest g :
  NoDup (map tag sends) -> (forall s, s ∈ sends -> 0 <= payload_size s) -> sum_by payload_size sends < 2 ^ 64 ->
  Forall (group_ok mx sends) bs -> Forall (fun g => big g = true) bs -> concat bs ++ rest ≡ₚ seq 0 (length sends) ->
  g ∈ bs -> merge_of mx (map (fun i => sends !!! i) g) (merged_send sends g).
Proof.
  intros Htags Hpos Hsum Hok Hbig Hperm Hg.
  destruct (group_send mx sends bs rest Htags Hpos Hsum Hok Hbig Hperm g Hg) as (Ht & Hpay & Hcap & Hse & Hmc & Hre).
  rewrite Forall_forall in Hok, Hbig. specialize (Hbig g Hg). destruct (Hok g Hg) as (h & js & -> & Hj & Hl & _).
  destruct js as [|j js]; [done|]. change (map ?f (h :: j :: js)) with (f h :: map f (j :: js)). cbn [hd] in Ht.
  assert (forall P : McSend -> Prop, (exists s, s ∈ map (fun i => sends !!! i) (h :: j :: js) /\ P s) <->
    exists k, k ∈ h :: j :: js /\ P (sends !!! k)) as Hex.
  { intros P. split; [intros (s & (k & -> & Hk)%elem_of_map & HP); by exists k|].
    intros (k & Hk & HP). exists (sends !!! k). split; [|done]. apply elem_of_map. by exists k. }
  cbn [map merge_of]. change (_ :: _ :: map ?f js) with (map f (h :: j :: js)). split_and!.
  - done.
  - by rewrite Hpay, sum_by_map.
  - done.
  - done.
  - intros s (k & -> & Hk)%elem_of_map. symmetry. by apply Hse.
  - intros x. rewrite (Hex (fun s => x ∈ mcids s)). apply Hmc.
  - intros x. rewrite (Hex (fun s => x ∈ receivers s)). apply Hre.
  - change (_ :: map ?f js) with (map f (j :: js)). intros s (k & -> & Hk)%elem_of_map. by apply Hj.
  - change (_ :: map ?f js) with (map f (j :: js)). intros k s Hk.
    change (map ?f ?l) with (f <$> l) in Hk. rewrite list_lookup_fmap in Hk.
    destruct ((j :: js) !! k) as [i|] eqn:Ei; [|done]. injection Hk as <-.
    destruct (Hl k i Ei) as (x & Hx & Hxi).
    destruct (absorb_all_spec sends (start_supercast (sends !!! h)) (take k (j :: js))) as (_ & _ & Hm & _).
    apply Hm in Hx as [Hx|(i' & Hi' & Hx)].
    + exists (sends !!! h), x. split_and!; [by left|done|done].
    + exists (sends !!! i'), x. split_and!; [|done|done]. right. change (map ?f ?l) with (f <$> l).
      rewrite <- fmap_take. apply list_elem_of_fmap. by exists i'.
Qed.

(** C34: What [McastOptimizer::optimize] may do to the sends (with distinct
    tags, and a total below 2^64 bytes).  It splits them into groups, each
    send in one, and returns one send per group: the send itself, or a merge
    ([merge_of]) that has the sender of its members and the channels and
    receivers of its members and of no other send, and stays within the
    buffer limit.  So the payload bytes are conserved, every send is carried
    by a result of the same sender that reaches all its receivers on all its
    channels, tags stay distinct and the sends do not grow in number. *)
Theorem optimize_delivers mx sends :
  NoDup (map tag sends) -> (forall s, s ∈ sends -> 0 <= payload_size s) ->
  sum_by payload_size sends < 2 ^ 64 ->
  let r := optimize mx sends in
  (exists groups, concat groups ≡ₚ sends /\ Forall2 (merge_of mx) groups r) /\
  sum_by payload_size r = sum_by payload_size sends /\
  NoDup (map tag r) /\ (length r <= length sends)%nat /\
  (forall s, s ∈ sends -> exists m, m ∈ r /\ sender_nsp m = sender_nsp s /\
     (forall x, x ∈ receivers s -> x ∈ receivers m) /\ (forall x, x ∈ mcids s -> x ∈ mcids m)).
Proof.
  intros Htags Hpos Hsum r. subst r.
  destruct (optimize_groups mx sends Htags) as (bs & rest & -> & Hok & Hbig & Hperm).
  split_and!.
  - exists (map (map (fun i => sends !!! i)) bs ++ map (fun i => [sends !!! i]) rest). split.
    + transitivity (map (fun i => sends !!! i) (seq 0 (length sends))); [|by rewrite seq_sends].
      rewrite concat_app, <- concat_map.
      assert (forall l, concat (map (fun i => [sends !!! i]) l) = map (fun i => sends !!! i) l) as ->
        by (induction l as [|i l IH]; [done|]; cbn; by rewrite IH).
      rewrite <- map_app. change (map ?f ?l) with (f <$> l). by rewrite Hperm.
    + apply Forall2_app; [|apply Forall2_fmap_2, Forall_Forall2_diag, Forall_forall; done].
      apply Forall2_fmap_2, Forall_Forall2_diag, Forall_forall. intros g Hg.
      by apply (merged_group mx sends bs rest).
  - rewrite sum_by_app, !sum_by_map, <- (pay_total sends bs rest Hperm). f_equal.
    apply sum_by_ext. intros g Hg. by apply (group_send mx sends bs rest).
  - by apply (result_tags mx).
  - rewrite length_app, !length_map. apply Permutation_length in Hperm.
    rewrite length_app, length_seq in Hperm. pose proof (length_concat_ge bs (groups_nonempty bs Hbig)). lia.
  - intros s Hs. by apply (result_carries mx).
Qed.

Definition sample_sends : list McSend :=
  [mkMcSend 1 0 1 100 [7] [1; 2; 3]; mkMcSend 2 1 1 50 [7] [1]; mkMcSend 3 0 1 60 [7] [1; 2];
   mkMcSend 4 0 1 70 [7] [2; 3]].

Lemma optimize_delivers_witness :
  sum_by payload_size (optimize 0 sample_sends) = 280.
Proof.
  apply (optimize_delivers 0 sample_sends).
  - by apply (bool_decide_unpack _); vm_compute.
  - intros s. unfold sample_sends. rewrite !elem_of_cons, elem_of_nil.
    intros [->|[->|[->|[->|[]]]]]; simpl; lia.
  - reflexivity.
Defined.

(** [can_merge] compares a candidate with the first send of the supercast
    only, so one supercast can hold sends whose receiver sets partially
    overlap, which the rule stated for it excludes: here the sends with tags 3
    and 4 conflict, and both join the send with tag 1. *)
Theorem supercast_members_conflict :
  map mcsend_tags (build_lp_input 0 sample_sends) = [[1; 3; 4]] /\
  receivers_conflict [1; 2] [2; 3] = true.
Proof. split; vm_compute; reflexivity. Qed.
