(* ===== verification/Sequencer.v ===== *)
(** The data-parallel sequencer ([compiler/src/scheduler/dp_sequencer.cpp],
    [compiler/src/scheduler/mlh_model.cpp],
    [compiler/include/hnnx/scheduler/dp_sequencer.hpp]): Kahn's loop [run_svf],
    the features and the decision-tree ensemble that select a level, and the
    sequencing of the groups.  Floating-point numbers are an abstract type whose
    operations are arguments.  The feature dump to a CSV file is left out; the
    external sequencer returns nothing in the source. *)
From S2P Require Import Prelude Ir.

(** * The graph *)

(** [DPOpNode]; its neighbours, pointers in the code, by their op ids. *)
Record DPOpNode := mkNode {
  op_id : Z;
  predecessors : list Z;
  successors : list Z;
  vtcm_requirement : Z;
  ddr_requirement : Z
}.

Record DPOpGraph := mkGraph {
  nodes : list DPOpNode;
  groups : list (list DPOpNode)
}.

Inductive SequencerLevel := SVF0 | SVF1 | SVF2 | LVF.

Record MLHDecision := mkDecision {
  level : SequencerLevel;
  dma_config : string;
  parallelism : Z
}.

Definition is_nil {A} (l : list A) : bool := match l with [] => true | _ => false end.

(** * Kahn's algorithm: [run_svf] *)

Definition scan_node (acc : gmap Z Z * gmap Z (list Z)) (node : DPOpNode)
    : gmap Z Z * gmap Z (list Z) :=
  let '(in_degree, succs) := acc in
  (<[op_id node := Z.of_nat (length (predecessors node))]> in_degree,
   foldl (fun m s => <[op_id node := default [] (m !! op_id node) ++ [s]]> m) succs (successors node)).

Definition relax (acc : gmap Z Z * list Z) (succ : Z) : gmap Z Z * list Z :=
  let '(in_degree, q) := acc in
  let d := default 0 (in_degree !! succ) - 1 in
  (<[succ := d]> in_degree, if d =? 0 then q ++ [succ] else q).

(** The [while (!q.empty())] loop. *)
Fixpoint kahn (fuel : nat) (succs : gmap Z (list Z)) (in_degree : gmap Z Z) (q result : list Z)
    : option (list Z) :=
  match q with
  | [] => Some result
  | id :: q =>
      match fuel with
      | O => None
      | S fuel =>
          let '(in_degree, q) := foldl relax (in_degree, q) (default [] (succs !! id)) in
          kahn fuel succs in_degree q (result ++ [id])
      end
  end.

Definition initial_queue (ns : list DPOpNode) (in_degree : gmap Z Z) : list Z :=
  map op_id (filter (fun n => default 0 (in_degree !! op_id n) = 0) ns).

Definition run_svf (graph : DPOpGraph) (level : SequencerLevel) (parallelism : Z) (dma_cfg : string)
    : option (list Z) :=
  let '(in_degree, succs) := foldl scan_node (∅, ∅) (nodes graph) in
  kahn (2 * length (nodes graph)) succs in_degree (initial_queue (nodes graph) in_degree) [].

Definition run_lvf (graph : DPOpGraph) (parallelism : Z) (dma_cfg : string) : list Z :=
  map op_id (nodes graph).

(** * The level heuristic, over an abstract type of [float]s *)
Section sequencer.
Context {F : Type} (of_u64 : Z -> F) (f_add f_div f_max : F -> F -> F) (f_le f_lt : F -> F -> bool).
(** 0.0f, 1.0f, 0.25f, 0.5f and 0.75f. *)
Context (f0 f1 f_quarter f_half f_three_quarters : F).

(** [DPOpGraph::get_op_stats]. *)
Definition get_op_stats (ns : list DPOpNode) : list F :=
  let total_vtcm := foldl (fun acc n => f_add acc (of_u64 (vtcm_requirement n))) f0 ns in
  let total_ddr := foldl (fun acc n => f_add acc (of_u64 (ddr_requirement n))) f0 ns in
  let max_depth :=
    foldl (fun acc n => f_max acc (of_u64 (Z.of_nat (length (predecessors n))))) f0 ns in
  [of_u64 (Z.of_nat (length ns)); total_vtcm; total_ddr; max_depth;
   f_div total_vtcm (f_add total_ddr f1)].

(** [XGBDecisionTreeNode]; indices are [int]. *)
Record TreeNode := mkTreeNode {
  feature_index : Z;
  threshold : F;
  left_child : Z;
  right_child : Z;
  leaf_value : F;
  is_leaf : bool
}.

Definition goes_left (node : TreeNode) (features : list F) : bool :=
  (0 <=? feature_index node) &&
  match features !! Z.to_nat (feature_index node) with
  | Some x => f_le x (threshold node)
  | None => false
  end.

(** The descent from [current]; [None] when the fuel does not suffice. *)
Fixpoint descend_tree (fuel : nat) (tree : list TreeNode) (features : list F) (current : Z) : option F :=
  if current <? 0 then Some f0
  else
    match tree !! Z.to_nat current with
    | None => Some f0
    | Some node =>
        match fuel with
        | O => None
        | S fuel =>
            if is_leaf node then Some (leaf_value node)
            else descend_tree fuel tree features
                   (if goes_left node features then left_child node else right_child node)
        end
    end.

Definition predict (tree : list TreeNode) (features : list F) : option F :=
  if is_nil tree || is_nil features then Some f0
  else descend_tree (length tree) tree features 0.

(** [MLHModel::select] on the ensemble [trees]. *)
Definition select (trees : list (list TreeNode)) (features : list F) : option MLHDecision :=
  if is_nil trees then Some (mkDecision SVF0 "default" 1)
  else
    sum ← foldl (fun acc tree => a ← acc; x ← predict tree features; Some (f_add a x)) (Some f0) trees;
    Some (if f_lt sum f_quarter then mkDecision SVF0 "mlh_selected" 1
          else if f_lt sum f_half then mkDecision SVF1 "mlh_selected" 2
          else if f_lt sum f_three_quarters then mkDecision SVF2 "mlh_selected" 4
          else mkDecision LVF "mlh_selected" 8).

Definition greedy_fallback (graph : DPOpGraph) (threshold : Z) : MLHDecision :=
  if Z.of_nat (length (nodes graph)) <? threshold then mkDecision SVF0 "greedy" 1
  else mkDecision LVF "greedy" 4.
(** [sequence]; an external sequencer returns nothing and ends the loop. *)
Definition run_level (graph : DPOpGraph) (d : MLHDecision) : option (list Z) :=
  match level d with
  | LVF => Some (run_lvf graph (parallelism d) (dma_config d))
  | l => run_svf graph l (parallelism d) (dma_config d)
  end.

Fixpoint sequence_groups (trees : list (list TreeNode)) (graph : DPOpGraph) (external : bool)
    (gs : list (list DPOpNode)) (result : list Z) : option (list Z) :=
  match gs with
  | [] => Some result
  | group :: gs =>
      if external then Some (result ++ [])
      else
        d ← select trees (get_op_stats group);
        seq ← run_level graph d;
        sequence_groups trees graph external gs (result ++ seq)
  end.

Definition sequence (trees : list (list TreeNode)) (graph : DPOpGraph) (external : bool)
    : option (list Z) :=
  if is_nil (groups graph) && negb (is_nil (nodes graph)) then
    d ← select trees (get_op_stats (nodes graph)); run_level graph d
  else sequence_groups trees graph external (groups graph) [].
End sequencer.

(** * What Kahn's loop computes *)
Section kahn.
Context (ns : list DPOpNode).

Definition node_ids : list Z := map op_id ns.
Definition preds_of (v : Z) : list Z :=
  concat (map predecessors (filter (fun n => op_id n = v) ns)).
Definition succs_of (u : Z) : list Z :=
  concat (map successors (filter (fun n => op_id n = u) ns)).

Definition count (x : Z) (l : list Z) : nat := countb (fun y => y =? x) l.

(** Distinct ids, and the two neighbour lists agree. *)
Definition graph_ok : Prop :=
  NoDup node_ids /\ forall u v, count v (succs_of u) = count u (preds_of v).

(** The nodes that no cycle precedes. *)
Inductive ready : Z -> Prop :=
  | ready_intro v : v ∈ node_ids -> (forall u, u ∈ preds_of v -> ready u) -> ready v.

(** Predecessors that are not sequenced yet. *)
Definition open_preds (result : list Z) (v : Z) : nat :=
  countb (fun u => bool_decide (u ∉ result)) (preds_of v).

Record kahn_inv (deg : gmap Z Z) (q result : list Z) : Prop := {
  k_nodup : NoDup (result ++ q);
  k_deg : forall v, v ∈ node_ids -> default 0 (deg !! v) = Z.of_nat (open_preds result v);
  k_in : forall v, v ∈ result ++ q <-> v ∈ node_ids /\ forall u, u ∈ preds_of v -> u ∈ result;
  k_ready : forall v, v ∈ result ++ q -> ready v;
  k_order : forall r1 v r2, result = r1 ++ v :: r2 -> forall u, u ∈ preds_of v -> u ∈ r1
}.

End kahn.

Lemma count_elem x l : (0 < count x l)%nat <-> x ∈ l.
Proof.
  unfold count. induction l as [|y l IH]; [rewrite elem_of_nil; simpl; unfold countb; simpl; lia|].
  rewrite countb_cons, elem_of_cons, <- IH. destruct (Z.eqb_spec y x) as [->|Hne].
  - split; [by left|lia].
  - split; [right; lia|]. intros [->|?]; [done|lia].
Qed.

Lemma elem_of_preds ns u v :
  u ∈ preds_of ns v <-> exists n, n ∈ ns /\ op_id n = v /\ u ∈ predecessors n.
Proof.
  unfold preds_of. rewrite elem_of_concat. split.
  - intros (l & (n & -> & [? ?]%list_elem_of_filter)%elem_of_map & Hu). by exists n.
  - intros (n & ? & ? & ?). exists (predecessors n). split; [|done]. apply elem_of_map. exists n.
    by rewrite list_elem_of_filter.
Qed.

Lemma elem_of_succs ns u v :
  v ∈ succs_of ns u <-> exists n, n ∈ ns /\ op_id n = u /\ v ∈ successors n.
Proof.
  unfold succs_of. rewrite elem_of_concat. split.
  - intros (l & (n & -> & [? ?]%list_elem_of_filter)%elem_of_map & Hu). by exists n.
  - intros (n & ? & ? & ?). exists (successors n). split; [|done]. apply elem_of_map. exists n.
    by rewrite list_elem_of_filter.
Qed.

(** In a consistent graph neighbours are nodes. *)
Lemma preds_node ns u v : graph_ok ns -> u ∈ preds_of ns v -> u ∈ node_ids ns.
Proof.
  intros [_ H] Hu%count_elem. rewrite <- H in Hu.
  apply count_elem, elem_of_succs in Hu as (n & ? & <- & _). apply elem_of_map. by exists n.
Qed.

Lemma scan_succs ns : forall deg succs u,
  default [] ((foldl scan_node (deg, succs) ns).2 !! u) = default [] (succs !! u) ++ succs_of ns u.
Proof.
  assert (Happ : forall (i : Z) (l : list Z) (m : gmap Z (list Z)) (u : Z),
    default [] (foldl (fun m s => <[i := default [] (m !! i) ++ [s]]> m) m l !! u)
    = default [] (m !! u) ++ (if decide (i = u) then l else [])).
  { intros i l. induction l as [|s l IH]; intros m u; simpl.
    - destruct (decide (i = u)); by rewrite app_nil_r.
    - rewrite IH. case_decide as E; [subst|].
      + rewrite lookup_insert_eq. simpl. by rewrite <- app_assoc.
      + by rewrite lookup_insert_ne. }
  induction ns as [|n ns IH]; intros deg succs u; simpl; [by rewrite app_nil_r|].
  rewrite IH, Happ. unfold succs_of. rewrite filter_cons.
  destruct (decide (op_id n = u)); simpl; by rewrite <- app_assoc.
Qed.

Lemma scan_degree ns : forall deg succs v,
  NoDup (node_ids ns) ->
  (foldl scan_node (deg, succs) ns).1 !! v =
  if decide (v ∈ node_ids ns) then Some (Z.of_nat (length (preds_of ns v))) else deg !! v.
Proof.
  induction ns as [|n ns IH]; intros deg succs v Hnd.
  - case_decide as H; [by apply elem_of_nil in H|done].
  - unfold node_ids in *. cbn [map] in *. apply NoDup_cons in Hnd as [Hn Hnd].
    cbn [foldl scan_node]. rewrite IH by done.
    unfold preds_of. rewrite filter_cons. destruct (decide (op_id n = v)) as [<-|Hne].
    + rewrite (decide_False (P := op_id n ∈ map op_id ns)) by done.
      rewrite decide_True by set_solver. rewrite lookup_insert_eq. do 2 f_equal.
      simpl. rewrite length_app.
      assert (E : filter (fun m => op_id m = op_id n) ns = []).
      { destruct (filter _ ns) as [|m l] eqn:E; [done|].
        assert (Hm : m ∈ filter (fun m => op_id m = op_id n) ns) by (rewrite E; set_solver).
        apply list_elem_of_filter in Hm as [Hm ?]. exfalso. apply Hn, elem_of_map. by exists m. }
      rewrite E. simpl. lia.
    + rewrite lookup_insert_ne by done. destruct (decide (v ∈ map op_id ns)).
      * by rewrite decide_True by set_solver.
      * by rewrite decide_False by set_solver.
Qed.

(** Relaxing a list of successors: what is pushed is what reaches zero. *)
Lemma relax_fold ss : forall deg q,
  exists deg' news, foldl relax (deg, q) ss = (deg', q ++ news) /\ NoDup news /\
    (forall v, default 0 (deg' !! v) = default 0 (deg !! v) - Z.of_nat (count v ss)) /\
    (forall v, v ∈ news <-> 1 <= default 0 (deg !! v) <= Z.of_nat (count v ss)).
Proof.
  induction ss as [|s ss IH]; intros deg q.
  { exists deg, []. split_and!; [by rewrite app_nil_r|constructor|intros; unfold count, countb; simpl; lia|].
    intros v. rewrite elem_of_nil. unfold count, countb. simpl. lia. }
  cbn [foldl relax]. set (d := default 0 (deg !! s) - 1).
  assert (Hd : forall v, default 0 (<[s := d]> deg !! v) = default 0 (deg !! v) - (if s =? v then 1 else 0)).
  { intros v. destruct (Z.eqb_spec s v) as [->|]; [by rewrite lookup_insert_eq|].
    rewrite lookup_insert_ne by done. lia. }
  assert (Hc : forall v, Z.of_nat (count v (s :: ss)) = (if s =? v then 1 else 0) + Z.of_nat (count v ss)).
  { intros v. unfold count. rewrite countb_cons. destruct (s =? v); lia. }
  destruct (IH (<[s := d]> deg) (if d =? 0 then q ++ [s] else q)) as (deg' & news & E & Hnd & Hdeg & Hin).
  rewrite E. destruct (Z.eqb_spec d 0) as [Hz|Hnz].
  - exists deg', (s :: news). split_and!.
    + by rewrite <- app_assoc.
    + apply NoDup_cons. split; [|done]. rewrite Hin, Hd, Z.eqb_refl. lia.
    + intros v. rewrite Hdeg, Hd, Hc. lia.
    + intros v. rewrite elem_of_cons, Hin, Hd, Hc. destruct (Z.eqb_spec s v) as [->|]; [|naive_solver lia].
      split; [lia|by left].
  - exists deg', news. split_and!; [done|done|..]; intros v.
    + rewrite Hdeg, Hd, Hc. lia.
    + rewrite Hin, Hd, Hc. destruct (Z.eqb_spec s v) as [->|]; lia.
Qed.

Section loop.
Context (ns : list DPOpNode) (Hok : graph_ok ns).

Lemma open_preds_zero result v :
  open_preds ns result v = 0%nat <-> forall u, u ∈ preds_of ns v -> u ∈ result.
Proof.
  unfold open_preds. split.
  - intros H u Hu. destruct (decide (u ∈ result)) as [|Hn]; [done|exfalso].
    apply list_elem_of_split in Hu as (l1 & l2 & Hl).
    rewrite Hl, countb_app, countb_cons, bool_decide_eq_true_2 in H by done. lia.
  - intros H. apply countb_false. intros u Hu. apply bool_decide_eq_false_2. intros Hn. by apply Hn, H.
Qed.

Lemma open_preds_snoc result id v :
  id ∉ result ->
  (open_preds ns (result ++ [id]) v + count id (preds_of ns v) = open_preds ns result v)%nat.
Proof.
  intros Hid. unfold open_preds, count. induction (preds_of ns v) as [|u l IH]; [done|].
  rewrite !countb_cons. destruct (Z.eqb_spec u id) as [->|Hne].
  - rewrite (bool_decide_eq_false_2 (id ∉ result ++ [id])) by set_solver.
    rewrite bool_decide_eq_true_2 by done. lia.
  - rewrite (bool_decide_ext (u ∉ result ++ [id]) (u ∉ result)) by set_solver. lia.
Qed.

(** The initial queue. *)
Lemma initial_inv :
  let '(deg, succs) := foldl scan_node (∅, ∅) ns in
  kahn_inv ns deg (initial_queue ns deg) [] /\
  forall u, default [] (succs !! u) = succs_of ns u.
Proof.
  destruct (foldl scan_node (∅, ∅) ns) as [deg succs] eqn:E. destruct Hok as [Hnd _].
  assert (Hs : forall u, default [] (succs !! u) = succs_of ns u).
  { intros u. pose proof (scan_succs ns ∅ ∅ u) as H. by rewrite E, lookup_empty in H. }
  assert (Hd : forall v, v ∈ node_ids ns -> default 0 (deg !! v) = Z.of_nat (open_preds ns [] v)).
  { intros v Hv. pose proof (scan_degree ns ∅ ∅ v Hnd) as H. rewrite E, decide_True in H by done.
    simpl in H. rewrite H. simpl. unfold open_preds. apply (f_equal Z.of_nat). clear.
    induction (preds_of ns v) as [|u l IH]; [done|]. rewrite countb_cons, <- IH.
    rewrite bool_decide_eq_true_2 by apply not_elem_of_nil. done. }
  assert (Hq : forall v, v ∈ initial_queue ns deg <-> v ∈ node_ids ns /\ preds_of ns v = []).
  { intros v. unfold initial_queue. rewrite elem_of_map.
    assert (Hz : v ∈ node_ids ns -> default 0 (deg !! v) = 0 <-> preds_of ns v = []).
    { intros Hv. rewrite Hd by done. pose proof (open_preds_zero [] v) as Ho. split.
      - intros Hz. destruct (preds_of ns v) as [|u l] eqn:El; [done|].
        assert (H : u ∈ []); [|by apply elem_of_nil in H]. apply Ho; [lia|set_solver].
      - intros El. assert (open_preds ns [] v = 0%nat); [|lia]. apply Ho. rewrite El.
        by intros u Hu%elem_of_nil. }
    split.
    - intros (n & -> & [Hn Hin]%list_elem_of_filter).
      assert (Hv : op_id n ∈ node_ids ns) by (apply elem_of_map; by exists n).
      split; [done|by apply Hz].
    - intros [Hv El]. apply elem_of_map in Hv as Hv2. destruct Hv2 as (n & -> & Hn).
      exists n. split; [done|]. apply list_elem_of_filter. split; [by apply Hz|done]. }
  split; [|done]. split; simpl.
  - unfold initial_queue. clear -Hnd. unfold node_ids in Hnd.
    induction ns as [|n l IH]; [constructor|]. simpl in Hnd. apply NoDup_cons in Hnd as [Hn Hnd].
    rewrite filter_cons. case_decide; [|by apply IH]. simpl. apply NoDup_cons. split; [|by apply IH].
    intros (m & Hm & [_ ?]%list_elem_of_filter)%elem_of_map. apply Hn, elem_of_map. by exists m.
  - done.
  - intros v. rewrite Hq. split.
    + intros [? ->]. split; [done|]. by intros u Hu%elem_of_nil.
    + intros [? H]. split; [done|]. destruct (preds_of ns v) as [|u l]; [done|].
      exfalso. by apply (not_elem_of_nil u), H, elem_of_cons; left.
  - intros v [Hv E0]%Hq. constructor; [done|]. rewrite E0. by intros u Hu%elem_of_nil.
  - by intros [].
Qed.

(** One round of the loop. *)
Lemma kahn_step deg id q result (succs : gmap Z (list Z)) :
  (forall u, default [] (succs !! u) = succs_of ns u) ->
  kahn_inv ns deg (id :: q) result ->
  exists deg' q', foldl relax (deg, q) (default [] (succs !! id)) = (deg', q') /\
    kahn_inv ns deg' q' (result ++ [id]).
Proof.
  intros Hs [Hnd Hdeg Hin Hready Hord]. rewrite Hs.
  destruct (relax_fold (succs_of ns id) deg q) as (deg' & news & E & Hnews & Hdeg' & Hn).
  exists deg', (q ++ news). split; [done|].
  assert (Hid : id ∉ result) by (intros H; apply NoDup_app in Hnd as (_ & Hdis & _); apply (Hdis id H); set_solver).
  destruct Hok as [_ Hmirror].
  assert (Hnew : forall v, v ∈ news <-> v ∈ node_ids ns /\ (0 < open_preds ns result v)%nat /\
                            open_preds ns (result ++ [id]) v = 0%nat).
  { intros v. rewrite Hn, Hmirror. pose proof (open_preds_snoc result id v Hid) as Ho. split.
    - intros [H1 H2].
      assert (Hv : v ∈ node_ids ns).
      { assert (Hc : (0 < count id (preds_of ns v))%nat) by lia.
        apply count_elem, elem_of_preds in Hc as (n & ? & <- & _). apply elem_of_map. by exists n. }
      rewrite Hdeg in H1, H2 by done. split; [done|lia].
    - intros (Hv & ? & ?). rewrite Hdeg by done. lia. }
  assert (Hall : forall v, v ∈ (result ++ [id]) ++ q ++ news <-> v ∈ result ++ id :: q \/ v ∈ news)
    by (intros v; rewrite !elem_of_app, !elem_of_cons, elem_of_nil; tauto).
  assert (Hold : forall v, v ∈ result ++ id :: q -> open_preds ns result v = 0%nat)
    by (intros v Hv; by apply open_preds_zero, Hin).
  split.
  - replace ((result ++ [id]) ++ q ++ news) with ((result ++ id :: q) ++ news)
      by (by rewrite <- !app_assoc).
    apply NoDup_app. split_and!; [done| |done]. intros v Hv (_ & Hpos & _)%Hnew.
    rewrite (Hold v Hv) in Hpos. lia.
  - intros v Hv. rewrite Hdeg', Hdeg, Hmirror by done.
    pose proof (open_preds_snoc result id v Hid). lia.
  - intros v. rewrite Hall. split.
    + intros [Hv|(Hv & _ & Hz)%Hnew]; [|by split; [|apply open_preds_zero]].
      apply Hin in Hv as [? Hp]. split; [done|]. intros u Hu. apply elem_of_app. left. by apply Hp.
    + intros [Hv Hp]. destruct (decide (open_preds ns result v = 0%nat)) as [Hz|Hz].
      * left. apply Hin. split; [done|by apply open_preds_zero].
      * right. apply Hnew. split_and!; [done|lia|by apply open_preds_zero].
  - intros v [Hv|(Hv & _ & Hz)%Hnew]%Hall; [by apply Hready|].
    constructor; [done|]. intros u Hu. apply Hready.
    rewrite open_preds_zero in Hz. specialize (Hz u Hu). set_solver.
  - intros r1 v r2 Hr u Hu. destruct r2 as [|y r2 _] using rev_ind.
    + apply app_inj_tail in Hr as [-> ->]. apply (Hin v); [set_solver|done].
    + rewrite app_comm_cons, app_assoc in Hr. apply app_inj_tail in Hr as [-> ->].
      by apply (Hord r1 v r2).
Qed.

Lemma kahn_runs (succs : gmap Z (list Z)) fuel : forall deg q result,
  (forall u, default [] (succs !! u) = succs_of ns u) ->
  kahn_inv ns deg q result -> (length ns <= fuel + length result)%nat ->
  exists deg' r, kahn fuel succs deg q result = Some r /\ kahn_inv ns deg' [] r.
Proof.
  induction fuel as [|fuel IH]; intros deg q result Hs Hinv Hf;
    (destruct q as [|id q]; [exists deg, result; split; [reflexivity|exact Hinv]|]).
  - exfalso. assert (H : (length (result ++ id :: q) <= length (node_ids ns))%nat).
    { apply NoDup_incl_length; [apply NoDup_ListNoDup, (k_nodup _ _ _ _ Hinv)|].
      intros v Hv%list_elem_of_In. apply list_elem_of_In. by apply (k_in _ _ _ _ Hinv). }
    unfold node_ids in H. rewrite length_app, length_map in H. simpl in H. lia.
  - destruct (kahn_step deg id q result succs Hs Hinv) as (deg' & q' & E & Hinv').
    simpl. rewrite E. apply IH; [done|done|]. rewrite length_app. simpl. lia.
Qed.

Lemma svf_order l par cfg groups :
  exists r, run_svf (mkGraph ns groups) l par cfg = Some r /\ NoDup r /\
    (forall v, v ∈ r <-> ready ns v) /\
    (forall r1 v r2, r = r1 ++ v :: r2 -> forall u, u ∈ preds_of ns v -> u ∈ r1).
Proof.
  unfold run_svf. simpl nodes. pose proof initial_inv as Hi.
  destruct (foldl scan_node (∅, ∅) ns) as [deg succs]. destruct Hi as [Hinv Hs].
  destruct (kahn_runs succs (2 * length ns) deg (initial_queue ns deg) [] Hs Hinv) as (deg' & r & E & [H1 H2 H3 H4 H5]);
    [simpl; lia|].
  rewrite app_nil_r in H1. setoid_rewrite app_nil_r in H3. setoid_rewrite app_nil_r in H4.
  exists r. split_and!; [done|done| |done]. intros v. split; [apply H4|].
  induction 1 as [v Hv _ IH]. by apply H3.
Qed.

End loop.

(** C33: Kahn's loop of [DPSequencer::run_svf] ends on every graph whose ids are
    distinct and whose neighbour lists agree.  Its result has no duplicates,
    places every node after all its predecessors, and holds exactly the nodes
    that no cycle precedes: an acyclic graph is sequenced completely, and the
    nodes on or behind a cycle are left out. *)
Theorem run_svf_sequences ns groups l par cfg :
  graph_ok ns ->
  exists r, run_svf (mkGraph ns groups) l par cfg = Some r /\ NoDup r /\
    (forall v, v ∈ r <-> ready ns v) /\
    (forall r1 v r2, r = r1 ++ v :: r2 -> forall u, u ∈ preds_of ns v -> u ∈ r1).
Proof. intros H. by apply svf_order. Qed.

Definition diamond : list DPOpNode :=
  [mkNode 4 [2; 3] [] 0 0; mkNode 2 [1] [4] 0 0; mkNode 3 [1] [4] 0 0; mkNode 1 [] [2; 3] 0 0].

Lemma diamond_ok : graph_ok diamond.
Proof.
  split; [by apply (bool_decide_unpack _); vm_compute|].
  intros u v. unfold succs_of, preds_of, diamond. rewrite !filter_cons, filter_nil. cbn [op_id].
  repeat case_decide; subst; try lia; simpl; unfold count, countb;
    repeat (rewrite ?filter_cons, ?filter_nil; repeat case_decide; bool_prop; subst; simpl; try lia).
Qed.

Lemma run_svf_sequences_witness : exists r, run_svf (mkGraph diamond []) SVF0 1 "" = Some r /\ NoDup r.
Proof.
  destruct (run_svf_sequences diamond [] SVF0 1 "" diamond_ok) as (r & E & Hnd & _).
  by exists r.
Defined.

#[local] Arguments run_svf : simpl never.

(** * The level heuristic and [sequence] *)
Section sequence.
Context {F : Type} (of_u64 : Z -> F) (f_add f_div f_max : F -> F -> F) (f_le f_lt : F -> F -> bool).
Context (f0 f1 f_quarter f_half f_three_quarters : F).

(** The children of every inner node come after it (or end the descent). *)
Definition forward (tree : list (@TreeNode F)) : Prop :=
  forall i node, tree !! i = Some node -> is_leaf node = false ->
    (left_child node < 0 \/ Z.of_nat i < left_child node) /\
    (right_child node < 0 \/ Z.of_nat i < right_child node).

Lemma descend_total tree features fuel : forall current,
  forward tree -> (current < 0 \/ Z.of_nat (length tree) <= Z.of_nat fuel + current) ->
  is_Some (descend_tree f_le f0 fuel tree features current).
Proof.
  induction fuel as [|fuel IH]; intros current Hf Hc; simpl;
    (destruct (Z.ltb_spec current 0) as [|Hge]; [done|]);
    destruct (tree !! Z.to_nat current) as [node|] eqn:E; try done;
    pose proof (lookup_lt_Some _ _ _ E).
  - lia.
  - destruct (is_leaf node) eqn:El; [done|]. destruct (Hf _ _ E El) as [Hl Hr].
    apply IH; [done|]. destruct (goes_left _ _ _); lia.
Qed.

(** The descent of a decision tree ends within one step per node when the
    children of every inner node lie behind it, whatever the features are; so
    the level selection of an ensemble of such trees always answers. *)
Theorem select_total trees features :
  Forall forward trees ->
  is_Some (select f_add f_le f_lt f0 f_quarter f_half f_three_quarters trees features).
Proof.
  intros Hf. unfold select. destruct (is_nil trees); [done|].
  assert (H : forall acc, is_Some acc ->
            is_Some (foldl (fun acc tree => a ← acc; x ← predict f_le f0 tree features; Some (f_add a x))
                       acc trees)).
  { induction Hf as [|tree trees Hf _ IH]; intros acc [a ->]; [done|]. simpl. apply IH.
    assert (Hp : is_Some (predict f_le f0 tree features)).
    { unfold predict. destruct (_ || _); [done|]. apply descend_total; [done|lia]. }
    by destruct Hp as [x ->]. }
  destruct (H (Some f0)) as [sum ->]; done.
Qed.

Lemma run_level_svf0 g cfg par : run_level g (mkDecision SVF0 cfg par) = run_svf g SVF0 par cfg.
Proof. done. Qed.

Lemma sequence_groups_repeat ns all r gs : forall result,
  run_svf (mkGraph ns all) SVF0 1 "default" = Some r ->
  sequence_groups of_u64 f_add f_div f_max f_le f_lt f0 f1 f_quarter f_half f_three_quarters
    [] (mkGraph ns all) false gs result = Some (result ++ concat (replicate (length gs) r)).
Proof.
  intros result Hr. revert result. induction gs as [|g gs IH]; intros result; simpl.
  - by rewrite app_nil_r.
  - rewrite run_level_svf0, Hr. simpl. by rewrite IH, <- app_assoc.
Qed.

(** [sequence] over op groups (with no trained model, which is the only case
    the class can be in) runs Kahn's loop on the whole graph once per group:
    each op appears as many times as there are groups. *)
Theorem sequence_repeats_graph ns gs :
  graph_ok ns -> gs <> [] ->
  exists r, run_svf (mkGraph ns gs) SVF0 1 "default" = Some r /\
    sequence of_u64 f_add f_div f_max f_le f_lt f0 f1 f_quarter f_half f_three_quarters
      [] (mkGraph ns gs) false = Some (concat (replicate (length gs) r)).
Proof.
  intros Hok Hne. destruct (svf_order ns Hok SVF0 1 "default" gs) as (r & E & _).
  exists r. split; [done|]. unfold sequence. simpl groups.
  destruct gs as [|g gs]; [done|]. simpl. rewrite run_level_svf0, E. simpl.
  by rewrite (sequence_groups_repeat ns (g :: gs) r gs r E).
Qed.
End sequence.

Lemma sequence_repeats_graph_witness :
  exists r, run_svf (mkGraph diamond [diamond; diamond]) SVF0 1 "default" = Some r /\
    sequence id Z.add Z.div Z.max Z.leb Z.ltb 0 100 25 50 75 [] (mkGraph diamond [diamond; diamond]) false
    = Some (concat (replicate 2 r)).
Proof.
  apply (sequence_repeats_graph id Z.add Z.div Z.max Z.leb Z.ltb 0 100 25 50 75 diamond [diamond; diamond]).
  - apply diamond_ok.
  - discriminate.
Defined.

(** A stump: two leaves behind one test. *)
Definition stump : list (@TreeNode Z) :=
  [mkTreeNode 0 3 1 2 0 false; mkTreeNode 0 0 0 0 10 true; mkTreeNode 0 0 0 0 60 true].

Lemma select_total_witness : is_Some (select Z.add Z.leb Z.ltb 0 25 50 75 [stump] [4]).
Proof.
  apply (select_total Z.add Z.leb Z.ltb 0 25 50 75). apply Forall_singleton.
  intros [|[|[|i]]] node E; simpl in E; simplify_eq; try done. simpl. lia.
Defined.
