(* ===== verification/Wire.v ===== *)
(** Binary layouts of the serialized container
    ([compiler/src/serialize/bin_format.cpp], [compiler/src/serialize/barrel.cpp],
    [compiler/include/hnnx/serialize/barrel.hpp],
    [compiler/src/serialize/class_index_record.cpp],
    [compiler/src/serialize/co_aux_record.cpp]): record tags, the little-endian
    byte writer with its patching, the barrel and pickle headers, the class-index
    and CO_AUX records, each with a reader of its documented layout. *)
From S2P Require Import Prelude Ir.

(** Bytes and words are [Z] in [0, 2^8) and [0, 2^32); a [std::string] is its
    list of bytes. *)

(** * Little-endian words *)

Definition le32 (v : Z) : list Z :=
  [u8 v; u8 (Z.shiftr v 8); u8 (Z.shiftr v 16); u8 (Z.shiftr v 24)].

Definition bytes_of (ws : list Z) : list Z := concat (map le32 ws).

(** The view of a byte array as [uint32_t] (whole words only). *)
Fixpoint words_of (bs : list Z) : list Z :=
  match bs with
  | b0 :: b1 :: b2 :: b3 :: bs => b0 + 2 ^ 8 * b1 + 2 ^ 16 * b2 + 2 ^ 24 * b3 :: words_of bs
  | _ => []
  end.

Definition is_word (v : Z) : Prop := 0 <= v < 2 ^ 32.
Definition is_byte (b : Z) : Prop := 0 <= b < 2 ^ 8.

#[export] Instance is_word_dec v : Decision (is_word v).
Proof. unfold is_word. apply _. Defined.
#[export] Instance is_byte_dec v : Decision (is_byte v).
Proof. unfold is_byte. apply _. Defined.

Lemma le32_app v bs : is_word v -> words_of (le32 v ++ bs) = v :: words_of bs.
Proof.
  unfold is_word. intros Hv. unfold le32. rewrite !Z.shiftr_div_pow2 by lia. unfold wrap. cbn [app words_of].
  f_equal. Z.to_euclidean_division_equations. lia.
Qed.

Lemma words_of_bytes_app ws bs : Forall is_word ws -> words_of (bytes_of ws ++ bs) = ws ++ words_of bs.
Proof.
  unfold bytes_of. induction 1 as [|v ws Hv _ IH]; [done|]. cbn [map concat].
  by rewrite <- app_assoc, le32_app, IH.
Qed.

Lemma words_of_bytes ws : Forall is_word ws -> words_of (bytes_of ws) = ws.
Proof. intros H. rewrite <- (app_nil_r (bytes_of ws)), words_of_bytes_app by done. by rewrite app_nil_r. Qed.

Lemma le32_bytes v : Forall is_byte (le32 v).
Proof. unfold le32. repeat constructor; apply wrap_range; lia. Qed.

Lemma bytes_of_length ws : length (bytes_of ws) = (4 * length ws)%nat.
Proof. unfold bytes_of. induction ws as [|w ws IH]; [done|]. cbn [map concat]. rewrite length_app, IH. simpl. lia. Qed.

Lemma bytes_of_app ws vs : bytes_of (ws ++ vs) = bytes_of ws ++ bytes_of vs.
Proof. unfold bytes_of. by rewrite map_app, concat_app. Qed.

Lemma le32_of_bytes b0 b1 b2 b3 :
  is_byte b0 -> is_byte b1 -> is_byte b2 -> is_byte b3 ->
  le32 (b0 + 2 ^ 8 * b1 + 2 ^ 16 * b2 + 2 ^ 24 * b3) = [b0; b1; b2; b3].
Proof.
  unfold is_byte, le32. intros. rewrite !Z.shiftr_div_pow2 by lia. unfold wrap.
  repeat f_equal; Z.to_euclidean_division_equations; lia.
Qed.

(** Whole words of bytes are exactly the bytes of those words. *)
Lemma bytes_of_words bs :
  Forall is_byte bs -> (4 | Z.of_nat (length bs)) -> bytes_of (words_of bs) = bs.
Proof.
  remember (length bs) as n eqn:En. revert bs En.
  induction n as [n IH] using lt_wf_ind. intros bs -> Hb [k Hk].
  destruct bs as [|b0 [|b1 [|b2 [|b3 bs]]]]; [done|simpl in Hk; lia..|].
  repeat match goal with H : Forall _ (_ :: _) |- _ => apply Forall_cons in H as [? H] end.
  cbn [words_of]. unfold bytes_of in *. cbn [map concat]. rewrite le32_of_bytes by done. simpl. do 4 f_equal.
  apply (IH (length bs)); [simpl; lia|done|done|]. exists (k - 1). simpl in Hk. lia.
Qed.

(** * Record tags *)

(** [encode_bin_tag] and [decode_bin_tag]. *)
Definition encode_bin_tag (tag : Z) : Z :=
  Z.lxor (Z.lor (Z.land tag 0xFFFF) (u32 (Z.shiftl tag 16))) 0xFFFF.
Definition decode_bin_tag (encoded : Z) : Z := Z.land (Z.lxor encoded 0xFFFF) 0xFFFF.

(** [aux_tag_word]. *)
Definition aux_tag_word (tag : Z) : Z :=
  Z.lxor (Z.lor (u32 (Z.shiftl tag 16)) (Z.land tag 0xFFFF)) 0xFFFF.

Definition SEPARATOR_NORMAL : Z := 0xFA0000FA.
Definition SEPARATOR_AUX : Z := 0xFA0000FE.
Definition SEPARATOR_END : Z := 0xBEEFF00D.

Lemma land_ffff z : Z.land z 0xFFFF = u16 z.
Proof. change 0xFFFF with (Z.ones 16). by rewrite Z.land_ones. Qed.

Lemma encode_low tag : 0 <= tag < 2 ^ 32 -> decode_bin_tag (encode_bin_tag tag) = u16 tag.
Proof.
  intros Ht. unfold decode_bin_tag, encode_bin_tag.
  rewrite Z.lxor_assoc, Z.lxor_nilpotent, Z.lxor_0_r, Z.land_lor_distr_l.
  rewrite <- Z.land_assoc, Z.land_diag, !land_ffff, Z.shiftl_mul_pow2 by lia.
  unfold wrap. replace ((tag * 2 ^ 16) mod 2 ^ 32 mod 2 ^ 16) with 0; [by rewrite Z.lor_0_r|].
  Z.to_euclidean_division_equations. lia.
Qed.

Lemma encode_high tag : 0 <= tag < 2 ^ 16 -> Z.shiftr (encode_bin_tag tag) 16 = tag.
Proof.
  intros Ht. unfold encode_bin_tag. rewrite Z.shiftr_lxor, Z.shiftr_lor, land_ffff.
  rewrite Z.shiftl_mul_pow2, !Z.shiftr_div_pow2 by lia. change (0xFFFF / 2 ^ 16) with 0.
  rewrite Z.lxor_0_r. unfold wrap.
  replace (tag mod 2 ^ 16 / 2 ^ 16) with 0 by (Z.to_euclidean_division_equations; lia).
  rewrite Z.lor_0_l. Z.to_euclidean_division_equations. lia.
Qed.

Lemma encode_word tag : 0 <= tag < 2 ^ 16 -> is_word (encode_bin_tag tag).
Proof.
  intros Ht. pose proof (encode_high tag Ht) as H.
  rewrite Z.shiftr_div_pow2 in H by lia.
  unfold is_word. Z.to_euclidean_division_equations. lia.
Qed.

(** Record tags.  Decoding an encoded 16-bit tag gives it back, the two
    encoders of the code base agree, and no encoded tag is one of the separators
    of the stream. *)
Theorem tag_roundtrip tag :
  0 <= tag < 2 ^ 16 ->
  decode_bin_tag (encode_bin_tag tag) = tag /\ is_word (encode_bin_tag tag) /\
  aux_tag_word tag = encode_bin_tag tag /\
  encode_bin_tag tag ∉ [SEPARATOR_NORMAL; SEPARATOR_AUX; SEPARATOR_END].
Proof.
  intros Ht. assert (Hd : decode_bin_tag (encode_bin_tag tag) = tag)
    by (rewrite encode_low by lia; by apply wrap_id).
  split_and!; [done|by apply encode_word| |].
  - unfold aux_tag_word, encode_bin_tag. by rewrite (Z.lor_comm (u32 _)).
  - pose proof (encode_high tag Ht) as Hh. rewrite !elem_of_cons, elem_of_nil.
    intros [E|[E|[E|[]]]]; rewrite E in Hd, Hh; vm_compute in Hd, Hh; lia.
Qed.

Lemma tag_roundtrip_witness : decode_bin_tag (encode_bin_tag 0x4F50) = 0x4F50.
Proof. apply (tag_roundtrip 0x4F50). lia. Defined.

(** * The byte writer and its records *)

(** [ByteWriter]: the state is [buf_]. *)
Definition bw_u32 (v : Z) (w : list Z) : list Z := w ++ le32 v.
Definition bw_bytes (bs : list Z) (w : list Z) : list Z := w ++ bs.
Definition bw_zeros (n : nat) (w : list Z) : list Z := w ++ replicate n 0.

Definition patch_u32 (pos : nat) (v : Z) (w : list Z) : list Z :=
  if (pos + 4 <=? length w)%nat then
    <[(pos + 3)%nat := u8 (Z.shiftr v 24)]>
      (<[(pos + 2)%nat := u8 (Z.shiftr v 16)]>
        (<[(pos + 1)%nat := u8 (Z.shiftr v 8)]> (<[pos := u8 v]> w)))
  else w.

(** [record]: the descriptor word holds the tag and the length in words. *)
Definition recdesc (tag : Z) (words : list Z) : Z :=
  Z.lor (u32 (Z.shiftl tag 16)) (u32 (Z.of_nat (length words + 1))).
Definition bw_record (tag : Z) (words : list Z) (w : list Z) : list Z :=
  foldl (fun w v => bw_u32 v w) (bw_u32 (recdesc tag words) w) words.

Definition kBarrelMagic : Z := 0x3790FA5C.
Definition kPickleMagic : Z := 0x7309F72B.
Definition kBarrelVerLo : Z := 0x8001.
Definition kPickleVerLo : Z := 0x0001.
Definition kSize0Align : Z := 64.

Definition IDENT : Z := 0x6449.
Definition SIZE : Z := 0x7a53.
Definition VERSION : Z := 0x7256.
Definition OPTIONS : Z := 0x704f.
Definition MEMORY : Z := 0x6d4d.
Definition CONTENTS : Z := 0x6354.
Definition MULTI : Z := 0x754d.
Definition ENDHDR : Z := 0x7a5a.

Fixpoint string_bytes (s : string) : list Z :=
  match s with
  | EmptyString => []
  | String c s => Z.of_N (Ascii.N_of_ascii c) :: string_bytes s
  end.

(** The version string, copied into six zero words. *)
Definition version_words : list Z :=
  let ver := string_bytes "v2.48.40.260702151143." in
  let bs := take (min (length ver) 22) ver in
  words_of (bs ++ replicate (24 - length bs) 0).

(** Returns the writer and the positions of SIZE[0] and SIZE[1]. *)
Definition write_barrel_header (options_words : list Z) (num_pickles : Z) (w : list Z)
    : list Z * (nat * nat) :=
  let w := bw_u32 kBarrelMagic w in
  let hwords_pos := length w in
  let w := bw_u32 0 w in
  let w := bw_record IDENT (replicate 50 0) w in
  let size0_pos := (length w + 4)%nat in
  let w := bw_record SIZE [0; 0; 0; 0x44] w in
  let size1_pos := (size0_pos + 4)%nat in
  let w := bw_record VERSION version_words w in
  let w := bw_record OPTIONS options_words w in
  let w := bw_record MEMORY (replicate 13 0) w in
  let w := bw_record CONTENTS [0x1; 0x300; 0x10001; 0x500; 0x00fffff0; 0x100] w in
  let w := bw_record MULTI [num_pickles; 0] w in
  let w := bw_record ENDHDR [] w in
  let end_pos := Z.of_nat (length w) in
  let hwords := u32 (end_pos / 4) in
  let w := patch_u32 hwords_pos (Z.lor (u32 (Z.shiftl kBarrelVerLo 16)) (Z.land hwords 0xffff)) w in
  let size0 := u32 (Z.land (u64 (end_pos + kSize0Align - 1)) (u64 (Z.lnot (kSize0Align - 1)))) in
  (patch_u32 size0_pos size0 w, (size0_pos, size1_pos)).

(** Returns the writer and the position of SIZE[1]. *)
Definition write_pickle_header (options_words : list Z) (w : list Z) : list Z * nat :=
  let w := bw_u32 kPickleMagic w in
  let hwords_pos := length w in
  let w := bw_u32 0 w in
  let w := bw_record IDENT (replicate 50 0) w in
  let size0_pos := (length w + 4)%nat in
  let w := bw_record SIZE [0x00000c00; 0; 0; 0x44; 0x80; 0x11] w in
  let size1_pos := (size0_pos + 4)%nat in
  let w := bw_record VERSION version_words w in
  let w := bw_record OPTIONS options_words w in
  let w := bw_record MEMORY [0x0a; 0; 0; 0x20; 0; 0x45; 0x40; 0; 0; 0; 0; 0; 0] w in
  let w := bw_record ENDHDR [] w in
  let end_pos := length w in
  let bytes_from_magic := Z.of_nat (end_pos - (hwords_pos - 4)) in
  let hwords := u32 (bytes_from_magic / 4) in
  (patch_u32 hwords_pos (Z.lor (u32 (Z.shiftl kPickleVerLo 16)) (Z.land hwords 0xffff)) w, size1_pos).

(** ** A reader of the header format *)

(** Reads records up to and including [ENDHDR], whose descriptor says how many
    words each one has; returns them with the words that follow. *)
Fixpoint parse_records (fuel : nat) (ws : list Z) : option (list (Z * list Z) * list Z) :=
  match fuel, ws with
  | S fuel, d :: ws =>
      let tag := Z.shiftr d 16 in
      let rlen := Z.to_nat (Z.land d 0xFFFF) in
      if (rlen =? 0)%nat || (length ws <? rlen - 1)%nat then None
      else
        let payload := take (rlen - 1) ws in
        let ws := drop (rlen - 1) ws in
        if tag =? ENDHDR then Some ([(tag, payload)], ws)
        else '(rs, ws) ← parse_records fuel ws; Some ((tag, payload) :: rs, ws)
  | _, _ => None
  end.

Definition parse_header (ws : list Z) : option (Z * Z * list (Z * list Z) * list Z) :=
  match ws with
  | magic :: hv :: ws => '(rs, ws) ← parse_records (length ws) ws; Some (magic, hv, rs, ws)
  | _ => None
  end.

(** ** Layout of what the writer produces *)

Definition record_words (r : Z * list Z) : list Z := recdesc r.1 r.2 :: r.2.
Definition records_words (rs : list (Z * list Z)) : list Z := concat (map record_words rs).

Definition record_ok (r : Z * list Z) : Prop :=
  0 <= r.1 < 2 ^ 16 /\ Z.of_nat (length r.2) < 2 ^ 16 - 1 /\ Forall is_word r.2.

Lemma record_bytes tag ws w : bw_record tag ws w = w ++ bytes_of (record_words (tag, ws)).
Proof.
  unfold bw_record, bw_u32, bytes_of, record_words. cbn [map concat fst snd].
  rewrite app_assoc. generalize (w ++ le32 (recdesc tag ws)) as u.
  induction ws as [|v ws IH]; intros u; simpl; [by rewrite app_nil_r|].
  rewrite IH. by rewrite <- app_assoc.
Qed.

Lemma recdesc_fields tag ws :
  record_ok (tag, ws) ->
  Z.shiftr (recdesc tag ws) 16 = tag /\ Z.land (recdesc tag ws) 0xFFFF = Z.of_nat (length ws + 1) /\
  is_word (recdesc tag ws).
Proof.
  intros ([Ht0 Ht] & Hl & _). simpl in *. unfold recdesc.
  set (n := Z.of_nat (length ws + 1)). assert (Hn : 0 <= n < 2 ^ 16) by lia.
  rewrite Z.shiftl_mul_pow2 by lia. unwrap.
  assert (Hlow : Z.land (Z.lor (tag * 2 ^ 16) n) 0xFFFF = n).
  { rewrite Z.land_lor_distr_l, !land_ffff. unfold wrap. rewrite Z.mod_mul by lia.
    rewrite Z.lor_0_l. by apply Z.mod_small. }
  assert (Hhigh : Z.shiftr (Z.lor (tag * 2 ^ 16) n) 16 = tag).
  { rewrite Z.shiftr_lor, !Z.shiftr_div_pow2, Z.div_mul by lia.
    rewrite (Z.div_small n) by lia. apply Z.lor_0_r. }
  split_and!; [done|done|].
  rewrite Z.shiftr_div_pow2 in Hhigh by lia. unfold is_word. Z.to_euclidean_division_equations. lia.
Qed.

Lemma records_are_words rs : Forall record_ok rs -> Forall is_word (records_words rs).
Proof.
  unfold records_words. induction 1 as [|[tag ws] rs Hr _ IH]; [constructor|].
  cbn [map concat]. apply Forall_app. split; [|done]. constructor; [by apply recdesc_fields|apply Hr].
Qed.

(** Reading back what was written: the records up to [ENDHDR]. *)
Lemma parse_written rs rest fuel :
  Forall record_ok rs -> Forall (fun r => r.1 <> ENDHDR) rs -> (length rs < fuel)%nat ->
  parse_records fuel (records_words (rs ++ [(ENDHDR, [])]) ++ rest) = Some (rs ++ [(ENDHDR, [])], rest).
Proof.
  intros Hok Hend. revert fuel. induction rs as [|[tag ws] rs IH]; intros [|fuel] Hf; try (simpl in Hf; lia).
  - done.
  - apply Forall_cons in Hok as [Hr Hok]. apply Forall_cons in Hend as [He Hend].
    destruct (recdesc_fields tag ws Hr) as (Hs & Hl & _).
    unfold records_words. cbn [app map concat record_words fst snd parse_records].
    rewrite Hs, Hl, Nat2Z.id. change (concat (map record_words (rs ++ [(ENDHDR, [])])))
      with (records_words (rs ++ [(ENDHDR, [])])).
    replace (length ws + 1 - 1)%nat with (length ws) by lia.
    rewrite <- app_assoc, take_app_length, drop_app_length.
    rewrite (proj2 (Nat.eqb_neq (length ws + 1) 0)) by lia.
    rewrite (proj2 (Nat.ltb_ge (length (ws ++ records_words (rs ++ [(ENDHDR, [])]) ++ rest)) (length ws)))
      by (rewrite length_app; lia).
    simpl. rewrite (proj2 (Z.eqb_neq tag ENDHDR)) by done.
    rewrite IH by (done || simpl in Hf; lia). done.
Qed.

Lemma parse_header_written magic hv rs :
  Forall record_ok rs -> Forall (fun r => r.1 <> ENDHDR) rs ->
  parse_header (magic :: hv :: records_words (rs ++ [(ENDHDR, [])])) =
  Some (magic, hv, rs ++ [(ENDHDR, [])], []).
Proof.
  intros Hok He. unfold parse_header.
  rewrite <- (app_nil_r (records_words _)), parse_written; [done|done|done|].
  rewrite app_nil_r. unfold records_words. rewrite map_app, concat_app, length_app. simpl.
  clear. induction rs as [|[tag ws] rs IH]; simpl; [lia|]. rewrite length_app. lia.
Qed.

(** Patching a word in place. *)
Lemma patch_at A x B v pos :
  pos = length A -> patch_u32 pos v (A ++ le32 x ++ B) = A ++ le32 v ++ B.
Proof.
  intros ->. unfold patch_u32, le32. cbn [app].
  rewrite (proj2 (Nat.leb_le _ _)) by (rewrite length_app; simpl; lia).
  apply list_eq. intros i.
  destruct (decide (i < length A)%nat) as [Hi|Hi].
  - rewrite !list_lookup_insert_ne, !lookup_app_l by lia. done.
  - assert (E : exists j, i = (length A + j)%nat) by (exists (i - length A)%nat; lia).
    destruct E as [j ->]. rewrite (lookup_app_r A) by lia.
    replace (length A + j - length A)%nat with j by lia.
    destruct j as [|[|[|[|j]]]]; rewrite ?Nat.add_0_r;
      rewrite ?list_lookup_insert_ne by lia;
      try (rewrite list_lookup_insert_eq; [done|rewrite ?length_insert, length_app; simpl; lia]).
    rewrite lookup_app_r by lia. replace (length A + S (S (S (S j))) - length A)%nat with (S (S (S (S j)))) by lia.
    done.
Qed.

Lemma patch_word w a x b v pos :
  pos = length (w ++ bytes_of a) ->
  patch_u32 pos v (w ++ bytes_of (a ++ x :: b)) = w ++ bytes_of (a ++ v :: b).
Proof.
  intros Hp. rewrite !bytes_of_app. change (bytes_of (x :: b)) with (le32 x ++ bytes_of b).
  change (bytes_of (v :: b)) with (le32 v ++ bytes_of b). rewrite !app_assoc, <- !(app_assoc (w ++ _)).
  by apply patch_at.
Qed.

Lemma bw_u32_word v w : bw_u32 v w = w ++ bytes_of [v].
Proof. unfold bw_u32, bytes_of. simpl. done. Qed.

(** The records of the two headers. *)
Definition barrel_records (s0 s1 : Z) (options_words : list Z) (num_pickles : Z) : list (Z * list Z) :=
  [(IDENT, replicate 50 0); (SIZE, [s0; s1; 0; 0x44]); (VERSION, version_words);
   (OPTIONS, options_words); (MEMORY, replicate 13 0);
   (CONTENTS, [0x1; 0x300; 0x10001; 0x500; 0x00fffff0; 0x100]); (MULTI, [num_pickles; 0])].

Definition pickle_records (s1 : Z) (options_words : list Z) : list (Z * list Z) :=
  [(IDENT, replicate 50 0); (SIZE, [0x00000c00; s1; 0; 0x44; 0x80; 0x11]); (VERSION, version_words);
   (OPTIONS, options_words); (MEMORY, [0x0a; 0; 0; 0x20; 0; 0x45; 0x40; 0; 0; 0; 0; 0; 0])].

Definition header_words (magic hv : Z) (rs : list (Z * list Z)) : list Z :=
  magic :: hv :: records_words (rs ++ [(ENDHDR, [])]).

Lemma barrel_layout opts np w :
  let '(w', (p0, p1)) := write_barrel_header opts np w in
  let hv := Z.lor (u32 (Z.shiftl kBarrelVerLo 16)) (Z.land (u32 (Z.of_nat (length w') / 4)) 0xffff) in
  let s0 := u32 (Z.land (u64 (Z.of_nat (length w') + kSize0Align - 1)) (u64 (Z.lnot (kSize0Align - 1)))) in
  w' = w ++ bytes_of (header_words kBarrelMagic hv (barrel_records s0 0 opts np)) /\
  forall v, patch_u32 p1 v w' = w ++ bytes_of (header_words kBarrelMagic hv (barrel_records s0 v opts np)).
Proof.
  unfold write_barrel_header. rewrite !record_bytes, !bw_u32_word, <- !app_assoc, <- !bytes_of_app.
  set (full := fun hv s0 s1 => w ++ bytes_of (header_words kBarrelMagic hv (barrel_records s0 s1 opts np))).
  match goal with |- context [Z.of_nat (length ?x)] => assert (E : x = full 0 0 0) end.
  { unfold full, header_words, records_words, barrel_records. cbn [map concat app].
    by rewrite <- ?app_assoc. }
  rewrite E. clear E.
  assert (Hlen : forall a b c, length (full a b c) = length (full 0 0 0)).
  { intros. unfold full. rewrite !length_app, !bytes_of_length. done. }
  set (n := length (full 0 0 0)) in *.
  set (pre := kBarrelMagic :: 0 :: record_words (IDENT, replicate 50 0) ++ [recdesc SIZE [0; 0; 0; 0x44]]).
  assert (P1 : forall x v s0 s1, patch_u32 (length (w ++ bytes_of [kBarrelMagic])) v (full x s0 s1) = full v s0 s1).
  { intros. unfold full, header_words. exact (patch_word w [kBarrelMagic] x _ v _ eq_refl). }
  assert (P2 : forall p x v hv s1, p = (length w + length (bytes_of pre))%nat ->
             patch_u32 p v (full hv x s1) = full hv v s1).
  { intros p x v hv s1 Hp. unfold full, header_words.
    refine (patch_word w (kBarrelMagic :: hv :: record_words (IDENT, replicate 50 0)
             ++ [recdesc SIZE [0; 0; 0; 0x44]]) x _ v p _).
    rewrite Hp, length_app, !bytes_of_length. done. }
  assert (P3 : forall p x v hv s0, p = (length w + length (bytes_of pre) + 4)%nat ->
             patch_u32 p v (full hv s0 x) = full hv s0 v).
  { intros p x v hv s0 Hp. unfold full, header_words.
    refine (patch_word w (kBarrelMagic :: hv :: record_words (IDENT, replicate 50 0)
             ++ [recdesc SIZE [0; 0; 0; 0x44]; s0]) x _ v p _).
    rewrite Hp, length_app, !bytes_of_length. unfold pre. simpl. lia. }
  rewrite P1. rewrite P2.
  2:{ rewrite !length_app, !bytes_of_length. unfold pre. simpl. lia. }
  rewrite Hlen. split; [done|]. intros v. apply P3.
  rewrite !length_app, !bytes_of_length. unfold pre. simpl. lia.
Qed.

Lemma pickle_layout opts w :
  let '(w', p1) := write_pickle_header opts w in
  let hv := Z.lor (u32 (Z.shiftl kPickleVerLo 16))
              (Z.land (u32 (Z.of_nat (length w' - length w) / 4)) 0xffff) in
  forall v, patch_u32 p1 v w' = w ++ bytes_of (header_words kPickleMagic hv (pickle_records v opts)).
Proof.
  unfold write_pickle_header. rewrite !record_bytes, !bw_u32_word, <- !app_assoc, <- !bytes_of_app.
  set (full := fun hv s1 => w ++ bytes_of (header_words kPickleMagic hv (pickle_records s1 opts))).
  match goal with |- context [(length ?x - (length (w ++ bytes_of [kPickleMagic]) - 4))%nat] =>
    assert (E : x = full 0 0) end.
  { unfold full, header_words, records_words, pickle_records. cbn [map concat app].
    by rewrite <- ?app_assoc. }
  rewrite E. clear E.
  assert (P1 : forall x v s1, patch_u32 (length (w ++ bytes_of [kPickleMagic])) v (full x s1) = full v s1).
  { intros. unfold full, header_words. exact (patch_word w [kPickleMagic] x _ v _ eq_refl). }
  set (pre := kPickleMagic :: 0 :: record_words (IDENT, replicate 50 0)
                ++ [recdesc SIZE [0x00000c00; 0; 0; 0x44; 0x80; 0x11]; 0xc00]).
  assert (P3 : forall p x v hv, p = (length w + length (bytes_of pre))%nat ->
             patch_u32 p v (full hv x) = full hv v).
  { intros p x v hv Hp. unfold full, header_words.
    refine (patch_word w (kPickleMagic :: hv :: record_words (IDENT, replicate 50 0)
             ++ [recdesc SIZE [0x00000c00; 0; 0; 0x44; 0x80; 0x11]; 0xc00]) x _ v p _).
    rewrite Hp, length_app, !bytes_of_length. done. }
  assert (Hn : forall h, (length (full h 0%Z) - length w
                          = length (full 0%Z 0%Z) - (length (w ++ bytes_of [kPickleMagic]) - 4))%nat).
  { intros h. unfold full. rewrite !length_app, !bytes_of_length. simpl. lia. }
  rewrite P1, Hn. intros v.
  apply P3. rewrite !length_app, !bytes_of_length. unfold pre. simpl. lia.
Qed.

(** The second header word: version and length. *)
Lemma hv_fields ver x :
  0 <= ver < 2 ^ 16 ->
  let hv := Z.lor (u32 (Z.shiftl ver 16)) (Z.land (u32 x) 0xffff) in
  is_word hv /\ Z.shiftr hv 16 = ver /\ Z.land hv 0xFFFF = u16 x.
Proof.
  intros Hv hv. subst hv. rewrite land_ffff, Z.shiftl_mul_pow2 by lia. unwrap.
  replace (u16 (u32 x)) with (u16 x)
    by (unfold wrap; apply (Znumtheory.Zmod_div_mod (2 ^ 16) (2 ^ 32)); [lia..|by exists (2 ^ 16)]).
  pose proof (wrap_range 16 x ltac:(lia)) as Hx. set (y := u16 x) in *. clearbody y.
  assert (Hlow : Z.land (Z.lor (ver * 2 ^ 16) y) 0xFFFF = y).
  { rewrite Z.land_lor_distr_l, !land_ffff. unfold wrap. rewrite Z.mod_mul by lia.
    rewrite Z.lor_0_l. by apply Z.mod_small. }
  assert (Hhigh : Z.shiftr (Z.lor (ver * 2 ^ 16) y) 16 = ver).
  { rewrite Z.shiftr_lor, !Z.shiftr_div_pow2, Z.div_mul by lia.
    rewrite (Z.div_small y) by lia. apply Z.lor_0_r. }
  split_and!; [|done|done].
  rewrite Z.shiftr_div_pow2 in Hhigh by lia. unfold is_word. Z.to_euclidean_division_equations. lia.
Qed.

Lemma header_parses magic hv rs w :
  is_word magic -> is_word hv -> Forall record_ok rs -> Forall (fun r => r.1 <> ENDHDR) rs ->
  parse_header (words_of (drop (length w) (w ++ bytes_of (header_words magic hv rs)))) =
  Some (magic, hv, rs ++ [(ENDHDR, [])], []).
Proof.
  intros Hm Hh Hok He. rewrite drop_app_length, words_of_bytes; [by apply parse_header_written|].
  unfold header_words. constructor; [done|]. constructor; [done|]. apply records_are_words.
  apply Forall_app. split; [done|]. apply Forall_singleton. unfold record_ok, ENDHDR. simpl.
  split_and!; [lia..|constructor].
Qed.

(** Checking a concrete record by evaluation. *)
Definition record_okb (r : Z * list Z) : bool :=
  (0 <=? r.1) && (r.1 <? 2 ^ 16) && (Z.of_nat (length r.2) <? 2 ^ 16 - 1) &&
  forallb (fun v => (0 <=? v) && (v <? 2 ^ 32)) r.2.

Lemma record_okb_ok r : record_okb r = true -> record_ok r.
Proof.
  unfold record_okb, record_ok. rewrite !andb_true_iff, forallb_forall. intros [[[? ?] ?] Hws].
  bool_prop. split_and!; [lia..|]. apply Forall_forall. intros v Hv%list_elem_of_In.
  specialize (Hws v Hv). rewrite andb_true_iff in Hws. destruct Hws. bool_prop. done.
Qed.

Lemma variable_record_ok tag ws :
  0 <= tag < 2 ^ 16 -> Z.of_nat (length ws) < 2 ^ 16 - 1 -> Forall is_word ws -> record_ok (tag, ws).
Proof. by intros. Qed.

Lemma words4 a b c d : is_word a -> is_word b -> is_word c -> is_word d -> Forall is_word [a; b; c; d].
Proof. intros. rewrite !Forall_cons, Forall_nil. done. Qed.

Lemma barrel_records_ok s0 s1 opts np :
  is_word s0 -> is_word s1 -> is_word np -> Forall is_word opts -> Z.of_nat (length opts) < 2 ^ 16 - 1 ->
  Forall record_ok (barrel_records s0 s1 opts np) /\
  Forall (fun r => r.1 <> ENDHDR) (barrel_records s0 s1 opts np).
Proof.
  intros. split; [|by repeat constructor].
  apply Forall_cons. split; [by apply record_okb_ok|].
  apply Forall_cons. split.
  { apply variable_record_ok; [done|done|]. by apply words4. }
  apply Forall_cons. split; [by apply record_okb_ok|].
  apply Forall_cons. split; [by apply variable_record_ok|].
  apply Forall_cons. split; [by apply record_okb_ok|].
  apply Forall_cons. split; [by apply record_okb_ok|].
  apply Forall_singleton. apply variable_record_ok; [done|done|].
  apply Forall_cons. split; [done|]. by apply Forall_singleton.
Qed.

Lemma pickle_records_ok s1 opts :
  is_word s1 -> Forall is_word opts -> Z.of_nat (length opts) < 2 ^ 16 - 1 ->
  Forall record_ok (pickle_records s1 opts) /\
  Forall (fun r => r.1 <> ENDHDR) (pickle_records s1 opts).
Proof.
  intros. split; [|by repeat constructor].
  apply Forall_cons. split; [by apply record_okb_ok|].
  apply Forall_cons. split.
  { apply variable_record_ok; [done|done|].
    apply Forall_cons. split; [done|]. apply Forall_cons. split; [done|]. by apply words4. }
  apply Forall_cons. split; [by apply record_okb_ok|].
  apply Forall_cons. split; [by apply variable_record_ok|].
  apply Forall_singleton. by apply record_okb_ok.
Qed.

(** The barrel header reads back.  Whatever the writer held before is kept;
    after it a reader of the record format finds the magic, the version, the
    length of the whole file in words (16 bits), and the records in order with
    their payload: SIZE[0] is the end of the header rounded up to 64, and
    patching the returned position sets SIZE[1] and nothing else. *)
Theorem barrel_header_roundtrip opts np w v :
  Forall is_word opts -> Z.of_nat (length opts) < 2 ^ 16 - 1 -> is_word np -> is_word v ->
  Z.of_nat (length w) < 2 ^ 31 ->
  let '(w', (p0, p1)) := write_barrel_header opts np w in
  let out := patch_u32 p1 v w' in
  exists hv, Z.shiftr hv 16 = kBarrelVerLo /\ Z.land hv 0xFFFF = u16 (Z.of_nat (length w') / 4) /\
    take (length w) out = w /\
    parse_header (words_of (drop (length w) out)) =
    Some (kBarrelMagic, hv,
          barrel_records (round_up (Z.of_nat (length w')) 64) v opts np ++ [(ENDHDR, [])], []).
Proof.
  intros Ho Hl Hnp Hv Hw. pose proof (barrel_layout opts np w) as H.
  destruct (write_barrel_header opts np w) as [w' [p0 p1]]. destruct H as [E H].
  assert (Hlen : Z.of_nat (length w') < 2 ^ 32 - 64).
  { rewrite E, length_app, bytes_of_length. simpl. rewrite length_app. simpl. lia. }
  clear E. cbv zeta. rewrite H.
  assert (Es : u32 (Z.land (u64 (Z.of_nat (length w') + kSize0Align - 1)) (u64 (Z.lnot (kSize0Align - 1))))
               = round_up (Z.of_nat (length w')) 64).
  { unfold kSize0Align. rewrite (wrap_id 64 (_ + 64 - 1)) by lia. change (64 - 1) with (Z.ones 6).
    rewrite land_high_u64 by lia. change (2 ^ 6) with 64. unfold round_up.
    apply wrap_id. Z.to_euclidean_division_equations. lia. }
  rewrite Es in *.
  assert (Hs : is_word (round_up (Z.of_nat (length w')) 64)).
  { unfold is_word. pose proof (round_up_spec (Z.of_nat (length w')) 64 ltac:(lia)) as [_ ?]. lia. }
  destruct (hv_fields kBarrelVerLo (Z.of_nat (length w') / 4)) as (Hh & Hver & Hlow); [done|].
  destruct (barrel_records_ok (round_up (Z.of_nat (length w')) 64) v opts np Hs Hv Hnp Ho Hl) as [Hok He].
  eexists. split_and!; [exact Hver|exact Hlow|apply take_app_length|]. by apply header_parses.
Qed.

Lemma barrel_header_roundtrip_witness :
  exists hv, parse_header (words_of (write_barrel_header [7; 8] 1 []).1) =
    Some (kBarrelMagic, hv, barrel_records 384 0 [7; 8] 1 ++ [(ENDHDR, [])], []).
Proof.
  destruct (barrel_header_roundtrip [7; 8] 1 [] 0) as (hv & _ & _ & _ & E).
  - by apply (bool_decide_unpack _).
  - done.
  - done.
  - done.
  - done.
  - exists hv. exact E.
Defined.

(** The pickle header reads back in the same way, its length counted from
    its own magic. *)
Theorem pickle_header_roundtrip opts w v :
  Forall is_word opts -> Z.of_nat (length opts) < 2 ^ 16 - 1 -> is_word v ->
  let '(w', p1) := write_pickle_header opts w in
  let out := patch_u32 p1 v w' in
  exists hv, Z.shiftr hv 16 = kPickleVerLo /\
    Z.land hv 0xFFFF = u16 (Z.of_nat (length w' - length w) / 4) /\
    take (length w) out = w /\
    parse_header (words_of (drop (length w) out)) =
    Some (kPickleMagic, hv, pickle_records v opts ++ [(ENDHDR, [])], []).
Proof.
  intros Ho Hl Hv. pose proof (pickle_layout opts w) as H.
  destruct (write_pickle_header opts w) as [w' p1]. cbv zeta in *. rewrite H.
  destruct (hv_fields kPickleVerLo (Z.of_nat (length w' - length w) / 4)) as (Hh & Hver & Hlow); [done|].
  destruct (pickle_records_ok v opts Hv Ho Hl) as [Hok He].
  eexists. split_and!; [exact Hver|exact Hlow|apply take_app_length|]. by apply header_parses.
Qed.

Lemma pickle_header_roundtrip_witness :
  exists hv, parse_header (words_of (write_pickle_header [7; 8] []).1) =
    Some (kPickleMagic, hv, pickle_records 0 [7; 8] ++ [(ENDHDR, [])], []).
Proof.
  destruct (pickle_header_roundtrip [7; 8] [] 0) as (hv & _ & _ & _ & E).
  - by apply (bool_decide_unpack _).
  - done.
  - done.
  - exists hv. exact E.
Defined.

(** * Class-index and CO_AUX records *)

(** [memcpy] into a byte array; out of bounds is undefined. *)
Definition blit (pos : nat) (bs mem : list Z) : option (list Z) :=
  if (pos + length bs <=? length mem)%nat
  then Some (take pos mem ++ bs ++ drop (pos + length bs) mem) else None.

Definition strtab_words_of (n total_len : nat) : Z := u32 (Z.shiftr (Z.of_nat (n + total_len + 3)) 2).

(** The copying loop: the byte offset of [strtab], the word offset of
    [counters], and the record's memory. *)
Fixpoint copy_classes (classes : list (list Z * Z)) (strtab counters : nat) (mem : list Z)
    : option (list Z) :=
  match classes with
  | [] => Some mem
  | (name, idx) :: classes =>
      mem ← blit strtab name mem;
      let strtab := (strtab + length name)%nat in
      mem ← blit strtab [0] mem;
      mem ← blit (4 * counters) (le32 idx) mem;
      copy_classes classes (S strtab) (S counters) mem
  end.

Definition make_class_index_record (classes : list (list Z * Z)) : option (list Z) :=
  let n := length classes in
  let total_len := length (concat (map fst classes)) in
  let strtab_words := strtab_words_of n total_len in
  let total_words := (n + Z.to_nat strtab_words + 2)%nat in
  let mem := replicate (4 * total_words) 0 in
  mem ← blit 0 (le32 (u32 (Z.of_nat n))) mem;
  mem ← blit 4 (le32 strtab_words) mem;
  mem ← copy_classes classes 8 (2 + Z.to_nat strtab_words) mem;
  Some (words_of mem).

(** [make_co_aux_record]: the padding loop stops at a multiple of 4. *)
Definition pad4 (bs : list Z) : list Z := bs ++ replicate ((4 - length bs mod 4) mod 4) 0.

Definition make_co_aux_record (names : list (list Z)) (n_op : Z) (trailer : list Z) : list Z :=
  let n_names := u32 (Z.of_nat (length names)) in
  let strtab := pad4 (concat (map (fun nm => nm ++ [0]) names)) in
  let strtab_words := u32 (Z.of_nat (length strtab / 4)) in
  let nquads := u32 (1 + 1 + 1 + strtab_words + 5) in
  [nquads; n_names; n_op] ++ take (Z.to_nat strtab_words) (words_of strtab) ++ take 5 trailer.

(** ** Readers of the two formats *)

(** The bytes up to the first NUL, and what follows it. *)
Fixpoint cut_nul (bs : list Z) : option (list Z * list Z) :=
  match bs with
  | [] => None
  | b :: bs => if b =? 0 then Some ([], bs) else '(nm, bs) ← cut_nul bs; Some (b :: nm, bs)
  end.

Fixpoint read_names (n : nat) (bs : list Z) : option (list (list Z)) :=
  match n with
  | O => Some []
  | S n => '(nm, bs) ← cut_nul bs; nms ← read_names n bs; Some (nm :: nms)
  end.

Definition read_class_index (ws : list Z) : option (list (list Z * Z)) :=
  match ws with
  | n :: sw :: ws =>
      let counters := drop (Z.to_nat sw) ws in
      nms ← read_names (Z.to_nat n) (bytes_of (take (Z.to_nat sw) ws));
      if (length counters =? Z.to_nat n)%nat then Some (zip nms counters) else None
  | _ => None
  end.

Definition read_co_aux (ws : list Z) : option (list (list Z) * Z * list Z) :=
  match ws with
  | nquads :: n :: n_op :: ws =>
      let sw := Z.to_nat (nquads - 8) in
      nms ← read_names (Z.to_nat n) (bytes_of (take sw ws));
      Some (nms, n_op, drop sw ws)
  | _ => None
  end.

Definition name_ok (nm : list Z) : Prop := Forall (fun b => is_byte b /\ b <> 0) nm.

Lemma cut_nul_name nm bs : name_ok nm -> cut_nul (nm ++ 0 :: bs) = Some (nm, bs).
Proof.
  induction 1 as [|b nm [_ Hb] _ IH]; [done|]. simpl.
  rewrite (proj2 (Z.eqb_neq b 0)) by done. by rewrite IH.
Qed.

Lemma read_names_strtab nms bs :
  Forall name_ok nms -> read_names (length nms) (concat (map (fun nm => nm ++ [0]) nms) ++ bs) = Some nms.
Proof.
  induction 1 as [|nm nms Hn _ IH]; [done|]. cbn [length map concat read_names].
  rewrite <- !app_assoc. cbn [app]. rewrite cut_nul_name by done. simpl. by rewrite IH.
Qed.

Lemma strtab_bytes nms : Forall name_ok nms -> Forall is_byte (concat (map (fun nm => nm ++ [0]) nms)).
Proof.
  induction 1 as [|nm nms Hn _ IH]; [constructor|]. cbn [map concat]. rewrite !Forall_app.
  split_and!; [eapply Forall_impl; [exact Hn|]; by intros ? [? _]|by apply Forall_singleton|done].
Qed.

Lemma pad4_length bs : (4 | Z.of_nat (length (pad4 bs))).
Proof.
  unfold pad4. rewrite length_app, length_replicate. pose proof (Nat.mod_upper_bound (length bs) 4 ltac:(lia)).
  pose proof (Nat.div_mod_eq (length bs) 4). set (m := (length bs mod 4)%nat) in *.
  assert (Hp : ((4 - m) mod 4 = if (m =? 0)%nat then 0 else 4 - m)%nat).
  { clearbody m. assert (m = 0 \/ m = 1 \/ m = 2 \/ m = 3)%nat as [E|[E|[E|E]]] by lia; by rewrite E. }
  rewrite Hp. exists (Z.of_nat (length bs / 4) + (if (m =? 0)%nat then 0 else 1)).
  destruct (Nat.eqb_spec m 0); lia.
Qed.

Lemma pad4_bytes bs : Forall is_byte bs -> Forall is_byte (pad4 bs).
Proof. intros. unfold pad4. apply Forall_app. split; [done|]. by apply Forall_replicate. Qed.

Lemma words_length bs k : length bs = (4 * k)%nat -> length (words_of bs) = k.
Proof.
  revert bs. induction k as [|k IH]; intros bs Hl.
  - by destruct bs.
  - destruct bs as [|b0 [|b1 [|b2 [|b3 bs]]]]; simpl in Hl; try lia. simpl. f_equal. apply IH. lia.
Qed.

(** The CO_AUX record reads back: for names without NUL bytes and fewer than
    2^32 bytes of them, a reader of the layout recovers the names, the number of
    ops and the trailer; the first word counts the words of the record. *)
Theorem co_aux_roundtrip names n_op trailer :
  Forall name_ok names -> length trailer = 5%nat ->
  Z.of_nat (length (concat (map (fun nm => nm ++ [0]) names))) < 2 ^ 32 ->
  let r := make_co_aux_record names n_op trailer in
  read_co_aux r = Some (names, n_op, trailer) /\ hd 0 r = Z.of_nat (length r).
Proof.
  intros Hn Ht Hlen. unfold make_co_aux_record. cbv zeta.
  set (st := concat (map (fun nm => nm ++ [0]) names)) in *.
  destruct (pad4_length st) as [k Hk].
  assert (Hk0 : 0 <= k) by lia.
  assert (Hps : (length (pad4 st) <= length st + 3)%nat).
  { unfold pad4. rewrite length_app, length_replicate.
    pose proof (Nat.mod_upper_bound (4 - length st mod 4) 4 ltac:(lia)). lia. }
  assert (E4 : length (pad4 st) = (4 * Z.to_nat k)%nat) by lia.
  assert (Hdiv : (length (pad4 st) / 4)%nat = Z.to_nat k) by (rewrite E4, Nat.mul_comm; by apply Nat.div_mul).
  assert (Hcount : Z.of_nat (length names) <= Z.of_nat (length st)).
  { subst st. clear. induction names as [|nm nms IH]; [done|]. cbn [map concat length].
    rewrite !length_app. simpl. lia. }
  rewrite Hdiv, Z2Nat.id by done. unwrap.
  rewrite (take_ge (words_of (pad4 st))) by (rewrite (words_length _ (Z.to_nat k)) by done; lia).
  rewrite (take_ge trailer) by lia. cbn [app read_co_aux]. split.
  - replace (1 + 1 + 1 + k + 5 - 8) with k by lia.
    rewrite take_app_length', drop_app_length' by (symmetry; by apply words_length).
    rewrite bytes_of_words by (first [by apply pad4_bytes, strtab_bytes|exists k; lia]).
    rewrite Nat2Z.id. unfold pad4. unfold st at 1. rewrite read_names_strtab by done. done.
  - simpl. rewrite length_app, (words_length _ (Z.to_nat k)), Ht by done. lia.
Qed.

Lemma co_aux_roundtrip_witness :
  read_co_aux (make_co_aux_record [[65; 100; 100]; [77; 117]] 3 [1; 2; 3; 4; 5])
  = Some ([[65; 100; 100]; [77; 117]], 3, [1; 2; 3; 4; 5]).
Proof.
  apply (co_aux_roundtrip [[65; 100; 100]; [77; 117]] 3 [1; 2; 3; 4; 5]).
  - unfold name_ok. apply (bool_decide_unpack _). vm_compute. done.
  - reflexivity.
  - reflexivity.
Defined.

Lemma blit_at A X B bs pos :
  pos = length A -> length X = length bs -> blit pos bs (A ++ X ++ B) = Some (A ++ bs ++ B).
Proof.
  intros -> Hl. unfold blit. rewrite (proj2 (Nat.leb_le _ _)) by (rewrite !length_app; lia).
  rewrite take_app_length, <- Hl. do 3 f_equal.
  rewrite app_assoc. apply drop_app_length'. by rewrite length_app.
Qed.

Definition strtab_of (classes : list (list Z * Z)) : list Z :=
  concat (map (fun nm => nm ++ [0]) (map fst classes)).

(** The copying loop fills the name bytes and the counters and nothing else. *)
Lemma copy_classes_layout classes : forall pre zs gap zc strtab counters,
  strtab = length pre -> length zs = length (strtab_of classes) ->
  (4 * counters = length pre + length zs + length gap)%nat -> length zc = (4 * length classes)%nat ->
  copy_classes classes strtab counters (pre ++ zs ++ gap ++ zc) =
  Some (pre ++ strtab_of classes ++ gap ++ bytes_of (map snd classes)).
Proof.
  induction classes as [|[name idx] classes IH]; intros pre zs gap zc strtab counters -> Hzs Hc Hzc.
  { destruct zs; [|done]. destruct zc; [|done]. done. }
  unfold strtab_of in *. cbn [map concat fst snd copy_classes] in *. rewrite !length_app in Hzs. simpl in Hzs, Hzc.
  rewrite <- (take_drop (length name) zs).
  destruct (drop (length name) zs) as [|z zs'] eqn:Ed.
  { apply (f_equal length) in Ed. rewrite length_drop in Ed. simpl in Ed. lia. }
  assert (Hz' : length zs' = length (concat (map (fun nm => nm ++ [0]) (map fst classes)))).
  { apply (f_equal length) in Ed. rewrite length_drop in Ed. simpl in Ed. lia. }
  rewrite <- !app_assoc. rewrite (blit_at pre (take (length name) zs)); [|done|rewrite length_take; lia].
  cbn [mbind option_bind].
  replace (pre ++ name ++ (z :: zs') ++ gap ++ zc) with ((pre ++ name) ++ [z] ++ zs' ++ gap ++ zc)
    by (by rewrite <- !app_assoc).
  rewrite blit_at; [|by rewrite length_app|done].
  cbn [mbind option_bind].
  destruct zc as [|z0 [|z1 [|z2 [|z3 zc]]]]; simpl in Hzc; try lia.
  change (z0 :: z1 :: z2 :: z3 :: zc) with ([z0; z1; z2; z3] ++ zc).
  replace ((pre ++ name) ++ [0] ++ zs' ++ gap ++ [z0; z1; z2; z3] ++ zc)
    with (((pre ++ name ++ [0]) ++ zs' ++ gap) ++ [z0; z1; z2; z3] ++ zc) by (by rewrite <- !app_assoc).
  rewrite blit_at; [|rewrite !length_app; simpl; rewrite Hz'; lia|done]. cbn [mbind option_bind].
  replace (((pre ++ name ++ [0]) ++ zs' ++ gap) ++ le32 idx ++ zc)
    with ((pre ++ name ++ [0]) ++ zs' ++ (gap ++ le32 idx) ++ zc) by (by rewrite <- !app_assoc).
  rewrite IH.
  - f_equal. unfold bytes_of. by rewrite <- !app_assoc.
  - rewrite !length_app. simpl. lia.
  - done.
  - rewrite !length_app. simpl. lia.
  - lia.
Qed.

Lemma zeros_split a b : replicate (a + b) 0 = replicate a 0 ++ replicate b (0 : Z).
Proof. by rewrite replicate_add. Qed.

Lemma strtab_length classes :
  length (strtab_of classes) = (length classes + length (concat (map fst classes)))%nat.
Proof.
  unfold strtab_of. induction classes as [|[nm i] cs IH]; [done|].
  cbn [map concat fst length]. rewrite !length_app, IH. simpl. lia.
Qed.

Lemma words_of_is_word bs : Forall is_byte bs -> Forall is_word (words_of bs).
Proof.
  remember (length bs) as n eqn:En. revert bs En.
  induction n as [n IH] using lt_wf_ind. intros bs -> Hb.
  destruct bs as [|b0 [|b1 [|b2 [|b3 bs]]]]; try apply Forall_nil_2.
  repeat match goal with H : Forall _ (_ :: _) |- _ => apply Forall_cons in H as [? H] end.
  cbn [words_of]. apply Forall_cons. unfold is_byte, is_word in *. split; [lia|].
  apply (IH (length bs)); [simpl; lia|done|done].
Qed.

(** C35: The class-index record reads back.  For names without NUL bytes (and
    less than 2^32 bytes of them) the copying never leaves the record, the
    record is exactly as long as its header says, and a reader of the layout
    recovers the (name, index) list. *)
Theorem class_index_roundtrip classes :
  Forall name_ok (map fst classes) -> Forall is_word (map snd classes) ->
  Z.of_nat (length (strtab_of classes)) < 2 ^ 32 ->
  exists r, make_class_index_record classes = Some r /\ read_class_index r = Some classes /\
    Z.of_nat (length r) = 2 + Z.of_nat (length classes) + round_up (Z.of_nat (length (strtab_of classes))) 4 / 4.
Proof.
  intros Hn Hw Hlen. unfold make_class_index_record. cbv zeta.
  rewrite strtab_length in Hlen. set (n := length classes) in *. set (tl := length (concat (map fst classes))) in *.
  assert (Esw : strtab_words_of n tl = (Z.of_nat (n + tl) + 3) / 4).
  { unfold strtab_words_of. rewrite Z.shiftr_div_pow2 by lia. change (2 ^ 2) with 4.
    rewrite wrap_id; [f_equal; lia|]. Z.to_euclidean_division_equations. lia. }
  rewrite Esw. set (sw := (Z.of_nat (n + tl) + 3) / 4) in *.
  assert (Hsw : 0 <= sw < 2 ^ 31 /\ Z.of_nat (n + tl) <= 4 * sw).
  { unfold sw. Z.to_euclidean_division_equations. lia. }
  set (pad := (4 * Z.to_nat sw - (n + tl))%nat).
  replace (4 * (n + Z.to_nat sw + 2))%nat with (4 + (4 + ((n + tl) + (pad + 4 * n))))%nat by (unfold pad; lia).
  assert (Emem : replicate (4 + (4 + (n + tl + (pad + 4 * n)))) 0
    = replicate 4 0 ++ replicate 4 0 ++ replicate (n + tl) 0 ++ replicate pad 0 ++ replicate (4 * n) 0)
    by (by rewrite !zeros_split).
  rewrite Emem. unwrap.
  pose proof (fun B bs => blit_at [] (replicate 4 0) B bs 0 eq_refl) as B0. cbn [app] in B0.
  rewrite B0 by done. cbn [mbind option_bind].
  rewrite (blit_at (le32 (Z.of_nat n)) (replicate 4 0)) by done. cbn [mbind option_bind].
  rewrite app_assoc, copy_classes_layout;
    [|done|by rewrite length_replicate, strtab_length
     |rewrite !length_replicate; unfold pad; simpl; lia|by rewrite length_replicate].
  cbn [mbind option_bind]. eexists. split; [done|].
  assert (Epad : bytes_of (words_of (strtab_of classes ++ replicate pad 0)) = strtab_of classes ++ replicate pad 0).
  { apply bytes_of_words.
    - apply Forall_app. split; [by apply strtab_bytes|by apply Forall_replicate].
    - exists sw. rewrite length_app, length_replicate, strtab_length. unfold pad. lia. }
  assert (Ew : length (words_of (strtab_of classes ++ replicate pad 0)) = Z.to_nat sw).
  { apply words_length. rewrite length_app, length_replicate, strtab_length. unfold pad. lia. }
  rewrite <- app_assoc, !le32_app by (unfold is_word; lia).
  rewrite (app_assoc (strtab_of classes)), <- Epad, words_of_bytes_app.
  2:{ apply words_of_is_word, Forall_app. split; [by apply strtab_bytes|by apply Forall_replicate]. }
  rewrite words_of_bytes by done. split.
  - cbn [read_class_index]. rewrite take_app_length', drop_app_length' by done. rewrite Epad, Nat2Z.id.
    unfold strtab_of at 1. replace n with (length (map fst classes)) by apply length_map.
    rewrite read_names_strtab by done. cbn [mbind option_bind]. rewrite !length_map, Nat.eqb_refl.
    f_equal. clear. induction classes as [|[? ?] cs IH]; [done|]. simpl. by rewrite IH.
  - cbn [length]. rewrite length_app, Ew, length_map, strtab_length. unfold round_up, sw.
    rewrite Z.div_mul by lia. fold n tl. unfold sw in Hsw. replace (Z.of_nat (n + tl) + 4 - 1) with (Z.of_nat (n + tl) + 3) by lia. lia.
Qed.

Lemma class_index_roundtrip_witness :
  exists r, make_class_index_record [([65; 100; 100], 4); ([77; 117], 9)] = Some r /\
    read_class_index r = Some [([65; 100; 100], 4); ([77; 117], 9)].
Proof.
  destruct (class_index_roundtrip [([65; 100; 100], 4); ([77; 117], 9)]) as (r & E & Hr & _).
  - unfold name_ok. apply (bool_decide_unpack _). vm_compute. done.
  - apply (bool_decide_unpack _). vm_compute. done.
  - reflexivity.
  - by exists r.
Defined.
