(* ===== verification/StCutGraph.v ===== *)
(** The graph tables of the cut-based scheduler, after
    [src/compiler/src/scheduler/st_cut.cpp] (and its header): nodes, weight
    slots, add and subtract lists, the trial ledger and its replay, the
    construction from the input graph, and the invariant that keeps the two
    halves of an edge together.  Node and slot numbers are naturals: the
    tables are assumed shorter than 2^32, so the casts of their sizes to
    [uint32_t] do nothing.  The counters of elapsed time are left out.  An
    access outside a table is [None]. *)
From S2P Require Import Prelude.

(** * Data of the scheduler's context *)

Definition STCUT_MAX_WEIGHT : Z := 99999999.

(** One half of an edge; [idx] is the slot of the other half. *)
Record StCutSlot := mkSlot { canon : nat; idx : nat; weight : Z; flags : Z }.

Record StCutReplayRec := mkReplay { rp_op : nat; rp_value : Z; rp_type : Z }.

Record StCutRec := mkRec {
  link_fwd : nat;
  link_back : nat;
  sub_entry : nat;
  add_entry : nat;
  span_len : nat;
  field20 : Z;
  field24 : Z;
  range_start : nat;
  counter : Z;
  rec_id : Z
}.

(** [threshold_mult] enters only through the threshold of the scoring loop,
    which is an argument of that loop. *)
Record StCutConfig := mkConfig {
  emit_terminal : bool;
  restart_gate : Z;
  jitter : Z;
  deep_copy_gate : bool
}.

Definition default_config : StCutConfig := mkConfig true 0 0 false.

(** The five working tables, which are snapshot and restored together. *)
Record Tables := mkTables {
  node_slots : list Z;
  group_flags : list Z;
  weight_table : list StCutSlot;
  add_set : list (list nat);
  subtract_set : list (list nat)
}.

Definition put_node_slots (v : list Z) (t : Tables) : Tables :=
  mkTables v (group_flags t) (weight_table t) (add_set t) (subtract_set t).
Definition put_group_flags (v : list Z) (t : Tables) : Tables :=
  mkTables (node_slots t) v (weight_table t) (add_set t) (subtract_set t).
Definition put_weight_table (v : list StCutSlot) (t : Tables) : Tables :=
  mkTables (node_slots t) (group_flags t) v (add_set t) (subtract_set t).
Definition put_add_set (v : list (list nat)) (t : Tables) : Tables :=
  mkTables (node_slots t) (group_flags t) (weight_table t) v (subtract_set t).
Definition put_subtract_set (v : list (list nat)) (t : Tables) : Tables :=
  mkTables (node_slots t) (group_flags t) (weight_table t) (add_set t) v.

Definition put_weight (s : nat) (w : Z) (t : Tables) : Tables :=
  put_weight_table (alter (fun sl => mkSlot (canon sl) (idx sl) w (flags sl)) s (weight_table t)) t.
Definition put_canon (s : nat) (n : nat) (t : Tables) : Tables :=
  put_weight_table (alter (fun sl => mkSlot n (idx sl) (weight sl) (flags sl)) s (weight_table t)) t.

Definition empty_tables : Tables := mkTables [] [] [] [] [].

Record StCutContext := mkCtx {
  next_rec_id : Z;
  call_count : Z;
  mode : Z;
  tree_built : bool;
  grain_tree : gmap nat Z;
  work : Tables;
  snap : Tables;
  snapshot_taken : bool;
  threshold_ledger : list Z;
  bitmap : list Z;
  mark_table : list Z;
  net_weight : list Z;
  ownership : list Z;
  working_order : list nat;
  free_node_slots : list nat;
  free_weight_slots : list nat;
  config : StCutConfig;
  inner_loop_count : Z;
  rng_state : Z;
  journal : list StCutRec;
  replay_ledger : list StCutReplayRec;
  relation_groups : list (Z * list nat);
  cand_tables : list (list nat);
  group_list_keys : list Z
}.

Definition set_next_rec_id (v : Z) (c : StCutContext) : StCutContext :=
  mkCtx v (call_count c) (mode c) (tree_built c) (grain_tree c) (work c) (snap c)
    (snapshot_taken c) (threshold_ledger c) (bitmap c) (mark_table c) (net_weight c) (ownership
    c) (working_order c) (free_node_slots c) (free_weight_slots c) (config c) (inner_loop_count
    c) (rng_state c) (journal c) (replay_ledger c) (relation_groups c) (cand_tables c)
    (group_list_keys c).
Definition set_call_count (v : Z) (c : StCutContext) : StCutContext :=
  mkCtx (next_rec_id c) v (mode c) (tree_built c) (grain_tree c) (work c) (snap c)
    (snapshot_taken c) (threshold_ledger c) (bitmap c) (mark_table c) (net_weight c) (ownership
    c) (working_order c) (free_node_slots c) (free_weight_slots c) (config c) (inner_loop_count
    c) (rng_state c) (journal c) (replay_ledger c) (relation_groups c) (cand_tables c)
    (group_list_keys c).
Definition set_mode (v : Z) (c : StCutContext) : StCutContext :=
  mkCtx (next_rec_id c) (call_count c) v (tree_built c) (grain_tree c) (work c) (snap c)
    (snapshot_taken c) (threshold_ledger c) (bitmap c) (mark_table c) (net_weight c) (ownership
    c) (working_order c) (free_node_slots c) (free_weight_slots c) (config c) (inner_loop_count
    c) (rng_state c) (journal c) (replay_ledger c) (relation_groups c) (cand_tables c)
    (group_list_keys c).
Definition set_tree_built (v : bool) (c : StCutContext) : StCutContext :=
  mkCtx (next_rec_id c) (call_count c) (mode c) v (grain_tree c) (work c) (snap c)
    (snapshot_taken c) (threshold_ledger c) (bitmap c) (mark_table c) (net_weight c) (ownership
    c) (working_order c) (free_node_slots c) (free_weight_slots c) (config c) (inner_loop_count
    c) (rng_state c) (journal c) (replay_ledger c) (relation_groups c) (cand_tables c)
    (group_list_keys c).
Definition set_grain_tree (v : gmap nat Z) (c : StCutContext) : StCutContext :=
  mkCtx (next_rec_id c) (call_count c) (mode c) (tree_built c) v (work c) (snap c)
    (snapshot_taken c) (threshold_ledger c) (bitmap c) (mark_table c) (net_weight c) (ownership
    c) (working_order c) (free_node_slots c) (free_weight_slots c) (config c) (inner_loop_count
    c) (rng_state c) (journal c) (replay_ledger c) (relation_groups c) (cand_tables c)
    (group_list_keys c).
Definition set_work (v : Tables) (c : StCutContext) : StCutContext :=
  mkCtx (next_rec_id c) (call_count c) (mode c) (tree_built c) (grain_tree c) v (snap c)
    (snapshot_taken c) (threshold_ledger c) (bitmap c) (mark_table c) (net_weight c) (ownership
    c) (working_order c) (free_node_slots c) (free_weight_slots c) (config c) (inner_loop_count
    c) (rng_state c) (journal c) (replay_ledger c) (relation_groups c) (cand_tables c)
    (group_list_keys c).
Definition set_snap (v : Tables) (c : StCutContext) : StCutContext :=
  mkCtx (next_rec_id c) (call_count c) (mode c) (tree_built c) (grain_tree c) (work c) v
    (snapshot_taken c) (threshold_ledger c) (bitmap c) (mark_table c) (net_weight c) (ownership
    c) (working_order c) (free_node_slots c) (free_weight_slots c) (config c) (inner_loop_count
    c) (rng_state c) (journal c) (replay_ledger c) (relation_groups c) (cand_tables c)
    (group_list_keys c).
Definition set_snapshot_taken (v : bool) (c : StCutContext) : StCutContext :=
  mkCtx (next_rec_id c) (call_count c) (mode c) (tree_built c) (grain_tree c) (work c) (snap
    c) v (threshold_ledger c) (bitmap c) (mark_table c) (net_weight c) (ownership c)
    (working_order c) (free_node_slots c) (free_weight_slots c) (config c) (inner_loop_count c)
    (rng_state c) (journal c) (replay_ledger c) (relation_groups c) (cand_tables c)
    (group_list_keys c).
Definition set_threshold_ledger (v : list Z) (c : StCutContext) : StCutContext :=
  mkCtx (next_rec_id c) (call_count c) (mode c) (tree_built c) (grain_tree c) (work c) (snap
    c) (snapshot_taken c) v (bitmap c) (mark_table c) (net_weight c) (ownership c)
    (working_order c) (free_node_slots c) (free_weight_slots c) (config c) (inner_loop_count c)
    (rng_state c) (journal c) (replay_ledger c) (relation_groups c) (cand_tables c)
    (group_list_keys c).
Definition set_bitmap (v : list Z) (c : StCutContext) : StCutContext :=
  mkCtx (next_rec_id c) (call_count c) (mode c) (tree_built c) (grain_tree c) (work c) (snap
    c) (snapshot_taken c) (threshold_ledger c) v (mark_table c) (net_weight c) (ownership c)
    (working_order c) (free_node_slots c) (free_weight_slots c) (config c) (inner_loop_count c)
    (rng_state c) (journal c) (replay_ledger c) (relation_groups c) (cand_tables c)
    (group_list_keys c).
Definition set_mark_table (v : list Z) (c : StCutContext) : StCutContext :=
  mkCtx (next_rec_id c) (call_count c) (mode c) (tree_built c) (grain_tree c) (work c) (snap
    c) (snapshot_taken c) (threshold_ledger c) (bitmap c) v (net_weight c) (ownership c)
    (working_order c) (free_node_slots c) (free_weight_slots c) (config c) (inner_loop_count c)
    (rng_state c) (journal c) (replay_ledger c) (relation_groups c) (cand_tables c)
    (group_list_keys c).
Definition set_net_weight (v : list Z) (c : StCutContext) : StCutContext :=
  mkCtx (next_rec_id c) (call_count c) (mode c) (tree_built c) (grain_tree c) (work c) (snap
    c) (snapshot_taken c) (threshold_ledger c) (bitmap c) (mark_table c) v (ownership c)
    (working_order c) (free_node_slots c) (free_weight_slots c) (config c) (inner_loop_count c)
    (rng_state c) (journal c) (replay_ledger c) (relation_groups c) (cand_tables c)
    (group_list_keys c).
Definition set_ownership (v : list Z) (c : StCutContext) : StCutContext :=
  mkCtx (next_rec_id c) (call_count c) (mode c) (tree_built c) (grain_tree c) (work c) (snap
    c) (snapshot_taken c) (threshold_ledger c) (bitmap c) (mark_table c) (net_weight c) v
    (working_order c) (free_node_slots c) (free_weight_slots c) (config c) (inner_loop_count c)
    (rng_state c) (journal c) (replay_ledger c) (relation_groups c) (cand_tables c)
    (group_list_keys c).
Definition set_working_order (v : list nat) (c : StCutContext) : StCutContext :=
  mkCtx (next_rec_id c) (call_count c) (mode c) (tree_built c) (grain_tree c) (work c) (snap
    c) (snapshot_taken c) (threshold_ledger c) (bitmap c) (mark_table c) (net_weight c)
    (ownership c) v (free_node_slots c) (free_weight_slots c) (config c) (inner_loop_count c)
    (rng_state c) (journal c) (replay_ledger c) (relation_groups c) (cand_tables c)
    (group_list_keys c).
Definition set_free_node_slots (v : list nat) (c : StCutContext) : StCutContext :=
  mkCtx (next_rec_id c) (call_count c) (mode c) (tree_built c) (grain_tree c) (work c) (snap
    c) (snapshot_taken c) (threshold_ledger c) (bitmap c) (mark_table c) (net_weight c)
    (ownership c) (working_order c) v (free_weight_slots c) (config c) (inner_loop_count c)
    (rng_state c) (journal c) (replay_ledger c) (relation_groups c) (cand_tables c)
    (group_list_keys c).
Definition set_free_weight_slots (v : list nat) (c : StCutContext) : StCutContext :=
  mkCtx (next_rec_id c) (call_count c) (mode c) (tree_built c) (grain_tree c) (work c) (snap
    c) (snapshot_taken c) (threshold_ledger c) (bitmap c) (mark_table c) (net_weight c)
    (ownership c) (working_order c) (free_node_slots c) v (config c) (inner_loop_count c)
    (rng_state c) (journal c) (replay_ledger c) (relation_groups c) (cand_tables c)
    (group_list_keys c).
Definition set_config (v : StCutConfig) (c : StCutContext) : StCutContext :=
  mkCtx (next_rec_id c) (call_count c) (mode c) (tree_built c) (grain_tree c) (work c) (snap
    c) (snapshot_taken c) (threshold_ledger c) (bitmap c) (mark_table c) (net_weight c)
    (ownership c) (working_order c) (free_node_slots c) (free_weight_slots c) v
    (inner_loop_count c) (rng_state c) (journal c) (replay_ledger c) (relation_groups c)
    (cand_tables c) (group_list_keys c).
Definition set_inner_loop_count (v : Z) (c : StCutContext) : StCutContext :=
  mkCtx (next_rec_id c) (call_count c) (mode c) (tree_built c) (grain_tree c) (work c) (snap
    c) (snapshot_taken c) (threshold_ledger c) (bitmap c) (mark_table c) (net_weight c)
    (ownership c) (working_order c) (free_node_slots c) (free_weight_slots c) (config c) v
    (rng_state c) (journal c) (replay_ledger c) (relation_groups c) (cand_tables c)
    (group_list_keys c).
Definition set_rng_state (v : Z) (c : StCutContext) : StCutContext :=
  mkCtx (next_rec_id c) (call_count c) (mode c) (tree_built c) (grain_tree c) (work c) (snap
    c) (snapshot_taken c) (threshold_ledger c) (bitmap c) (mark_table c) (net_weight c)
    (ownership c) (working_order c) (free_node_slots c) (free_weight_slots c) (config c)
    (inner_loop_count c) v (journal c) (replay_ledger c) (relation_groups c) (cand_tables c)
    (group_list_keys c).
Definition set_journal (v : list StCutRec) (c : StCutContext) : StCutContext :=
  mkCtx (next_rec_id c) (call_count c) (mode c) (tree_built c) (grain_tree c) (work c) (snap
    c) (snapshot_taken c) (threshold_ledger c) (bitmap c) (mark_table c) (net_weight c)
    (ownership c) (working_order c) (free_node_slots c) (free_weight_slots c) (config c)
    (inner_loop_count c) (rng_state c) v (replay_ledger c) (relation_groups c) (cand_tables c)
    (group_list_keys c).
Definition set_replay_ledger (v : list StCutReplayRec) (c : StCutContext) : StCutContext :=
  mkCtx (next_rec_id c) (call_count c) (mode c) (tree_built c) (grain_tree c) (work c) (snap
    c) (snapshot_taken c) (threshold_ledger c) (bitmap c) (mark_table c) (net_weight c)
    (ownership c) (working_order c) (free_node_slots c) (free_weight_slots c) (config c)
    (inner_loop_count c) (rng_state c) (journal c) v (relation_groups c) (cand_tables c)
    (group_list_keys c).
Definition set_relation_groups (v : list (Z * list nat)) (c : StCutContext) : StCutContext :=
  mkCtx (next_rec_id c) (call_count c) (mode c) (tree_built c) (grain_tree c) (work c) (snap
    c) (snapshot_taken c) (threshold_ledger c) (bitmap c) (mark_table c) (net_weight c)
    (ownership c) (working_order c) (free_node_slots c) (free_weight_slots c) (config c)
    (inner_loop_count c) (rng_state c) (journal c) (replay_ledger c) v (cand_tables c)
    (group_list_keys c).
Definition set_cand_tables (v : list (list nat)) (c : StCutContext) : StCutContext :=
  mkCtx (next_rec_id c) (call_count c) (mode c) (tree_built c) (grain_tree c) (work c) (snap
    c) (snapshot_taken c) (threshold_ledger c) (bitmap c) (mark_table c) (net_weight c)
    (ownership c) (working_order c) (free_node_slots c) (free_weight_slots c) (config c)
    (inner_loop_count c) (rng_state c) (journal c) (replay_ledger c) (relation_groups c) v
    (group_list_keys c).
Definition set_group_list_keys (v : list Z) (c : StCutContext) : StCutContext :=
  mkCtx (next_rec_id c) (call_count c) (mode c) (tree_built c) (grain_tree c) (work c) (snap
    c) (snapshot_taken c) (threshold_ledger c) (bitmap c) (mark_table c) (net_weight c)
    (ownership c) (working_order c) (free_node_slots c) (free_weight_slots c) (config c)
    (inner_loop_count c) (rng_state c) (journal c) (replay_ledger c) (relation_groups c)
    (cand_tables c) v.

Definition fresh_ctx : StCutContext :=
  mkCtx 0 0 0 false ∅ empty_tables empty_tables false [] [] [] [] [] [] [] [] default_config
    0 0 [] [] [] [] [].

Definition node_count (c : StCutContext) : nat := length (node_slots (work c)).

(** * Snapshot, grains *)

Definition snapshot_five (c : StCutContext) : StCutContext :=
  set_snapshot_taken true (set_mode 0 (set_snap (work c) c)).

Definition restore_five (c : StCutContext) : StCutContext := set_work (snap c) c.

Definition slot_weights (t : Tables) (l : list nat) (acc : Z) : option Z :=
  foldM (fun acc rel => sl ← weight_table t !! rel; Some (u64 (acc + weight sl))) l acc.

Definition grain_tree_build (c : StCutContext) : option StCutContext :=
  if tree_built c then Some c
  else
    tree ← foldM (fun tree id =>
                    l ← add_set (work c) !! id;
                    count ← slot_weights (work c) l 0;
                    Some (<[id := count]> tree))
             (seq 0 (node_count c)) (grain_tree c);
    Some (set_grain_tree tree (set_tree_built true c)).

Definition grain_of (id : nat) (c : StCutContext) : option (Z * StCutContext) :=
  c ← grain_tree_build c;
  match grain_tree c !! id with
  | Some g => Some (g, c)
  | None => Some (0, set_grain_tree (<[id := 0]> (grain_tree c)) c)
  end.

(** [rand_next]: a linear congruential step on the state word. *)
Definition rand_next (c : StCutContext) : Z * StCutContext :=
  let s := u64 (rng_state c * 6364136223846793005 + 1442695040888963407) in
  (Z.land (Z.shiftr s 33) 0x7fffffff, set_rng_state s c).

(** * Adjacency lists and edges *)

(** [v[node].push_back(x)] after growing the table to hold [node]. *)
Definition push_at (node x : nat) (v : list (list nat)) : list (list nat) :=
  let v := if (length v <=? node)%nat then resize (S node) [] v else v in
  alter (fun l => l ++ [x]) node v.

Definition add_push (node s : nat) (t : Tables) : Tables := put_add_set (push_at node s (add_set t)) t.
Definition sub_push (node s : nat) (t : Tables) : Tables :=
  put_subtract_set (push_at node s (subtract_set t)) t.

(** [stcut_replay_push] on a ledger that may be absent. *)
Definition replay_push (r : StCutReplayRec) (cb : option (list StCutReplayRec))
    : option (list StCutReplayRec) := (fun l => l ++ [r]) <$> cb.

(** The appending path of [stcut_register_node]: the per-node tables follow
    the number of nodes. *)
Definition register_fresh (node fl : Z) (c : StCutContext) : nat * StCutContext :=
  let t := work c in
  let n := S (length (node_slots t)) in
  (length (node_slots t),
   set_cand_tables (resize n [] (cand_tables c))
     (set_mark_table (resize n 0 (mark_table c))
        (set_work (mkTables (node_slots t ++ [node]) (group_flags t ++ [u8 (Z.lor fl (mode c))])
                     (weight_table t) (resize n [] (add_set t)) (resize n [] (subtract_set t))) c))).

(** The reusing path: the slot is the top of the free stack. *)
Definition register_reused (node fl : Z) (c : StCutContext) : option (nat * StCutContext) :=
  let t := work c in
  slot ← last (free_node_slots c);
  _ ← node_slots t !! slot;
  _ ← group_flags t !! slot;
  _ ← mark_table c !! slot;
  Some (slot,
    set_mark_table (<[slot := 0]> (mark_table c))
      (set_free_node_slots (removelast (free_node_slots c))
         (set_work (put_group_flags (<[slot := u8 fl]> (group_flags t))
                      (put_node_slots (<[slot := node]> (node_slots t)) t)) c))).

Definition register_node (node fl : Z) (c : StCutContext) : option (nat * StCutContext) :=
  if negb (mode c =? 0) || bool_decide (free_node_slots c = [])
  then Some (register_fresh node fl c)
  else register_reused node fl c.

Definition retire_node (slot : nat) (c : StCutContext) : option StCutContext :=
  let t := work c in
  _ ← add_set t !! slot;
  _ ← subtract_set t !! slot;
  _ ← node_slots t !! slot;
  _ ← group_flags t !! slot;
  Some (set_free_node_slots (free_node_slots c ++ [slot])
          (set_work (mkTables (<[slot := 0]> (node_slots t)) (<[slot := 0x83]> (group_flags t))
                       (weight_table t) (<[slot := []]> (add_set t)) (<[slot := []]> (subtract_set t))) c)).

Definition repoint_a (s partner : nat) (t : Tables) : option Tables :=
  _ ← weight_table t !! s; Some (put_canon s partner t).

Definition repoint_b (s partner : nat) (t : Tables) : option Tables :=
  sl ← weight_table t !! s;
  _ ← weight_table t !! idx sl;
  Some (put_canon (idx sl) partner t).

(** The first slot of a list whose [canon] is [dst]. *)
Fixpoint find_pair (w : list StCutSlot) (l : list nat) (dst : nat) : option (option nat) :=
  match l with
  | [] => Some None
  | e :: l =>
      sl ← w !! e;
      if (canon sl =? dst)%nat then Some (Some e) else find_pair w l dst
  end.

Definition words_for (n : nat) : nat := (n + 31) / 32.

Definition sync_bitmap (c : StCutContext) : StCutContext :=
  let n := length (weight_table (work c)) in
  if (length (bitmap c) * 32 <? n)%nat then set_bitmap (resize (words_for n) 0 (bitmap c)) c
  else if (words_for n <? length (bitmap c))%nat then set_bitmap (resize (words_for n) 0 (bitmap c)) c
  else c.

(** A new pair: two slots from the free stack while it has two and the tables
    are in use, else two slots at the end. *)
Definition new_pair (src dst : nat) (thr : Z) (c : StCutContext)
    : option (nat * nat * StCutContext) :=
  let t := work c in
  let k := length (free_weight_slots c) in
  if (mode c =? 0) && (2 <=? k)%nat then
    b ← free_weight_slots c !! (k - 2)%nat;
    a ← free_weight_slots c !! (k - 1)%nat;
    _ ← weight_table t !! a; _ ← weight_table t !! b;
    _ ← threshold_ledger c !! a; _ ← threshold_ledger c !! b;
    Some (a, b,
      set_free_weight_slots (take (k - 2) (free_weight_slots c))
        (set_threshold_ledger (<[b := 0]> (<[a := 0]> (threshold_ledger c)))
           (set_work (put_weight_table
                        (<[b := mkSlot src a STCUT_MAX_WEIGHT (Z.lor (mode c) 4)]>
                           (<[a := mkSlot dst b thr 0]> (weight_table t))) t) c)))
  else
    let a := length (weight_table t) in
    let b := S a in
    Some (a, b,
      set_threshold_ledger (threshold_ledger c ++ [0; 0])
        (set_work (put_weight_table
                     (weight_table t ++ [mkSlot dst b thr (mode c);
                                         mkSlot src a STCUT_MAX_WEIGHT (Z.lor (mode c) 4)]) t) c)).

(** The four pushes that link the slots [a] and [b] of an edge. *)
Definition link_pair (src dst a b : nat) (t : Tables) : Tables :=
  sub_push dst a (sub_push src b (add_push dst b (add_push src a t))).

Definition connect_nodes (src dst : nat) (thr : Z) (cb : option (list StCutReplayRec))
    (c : StCutContext) : option (nat * StCutContext * option (list StCutReplayRec)) :=
  l ← add_set (work c) !! src;
  r ← find_pair (weight_table (work c)) l dst;
  match r with
  | Some e =>
      sl ← weight_table (work c) !! e;
      let cb := if negb (thr =? 0) then replay_push (mkReplay e (weight sl) 0) cb else cb in
      let w := u64 (thr + weight sl) in
      let w := if STCUT_MAX_WEIGHT <? w then STCUT_MAX_WEIGHT else w in
      Some (e, set_work (put_weight e w (work c)) c, cb)
  | None =>
      '(a, b, c) ← new_pair src dst thr c;
      let c := sync_bitmap (set_work (link_pair src dst a b (work c)) c) in
      Some (a, c, replay_push (mkReplay a 0 2) cb)
  end.

(** * Undoing and removing edges *)

(** Removal by swapping with the last element; the first occurrence goes. *)
Definition list_remove (x : nat) (v : list nat) : list nat :=
  match list_find (eq x) v, last v with
  | Some (j, _), Some y => removelast (<[j := y]> v)
  | _, _ => v
  end.

(** One record of the replay. *)
Definition replay_one (t : Tables) (r : StCutReplayRec) : option Tables :=
  match weight_table t !! rp_op r with
  | None => Some t
  | Some sl =>
      let a := rp_op r in
      let b := idx sl in
      let host_b := canon sl in
      slb ← weight_table t !! b;
      let host_a := canon slb in
      Some (if rp_type r =? 0 then put_weight a (rp_value r) t
            else if rp_type r =? 2 then
              let adds := alter (list_remove b) host_b (alter (list_remove a) host_a (add_set t)) in
              let subs := alter (list_remove a) host_a (alter (list_remove b) host_b (subtract_set t)) in
              put_subtract_set subs (put_add_set adds t)
            else if rp_type r =? 3 then
              put_group_flags (removelast (group_flags t))
                (put_node_slots (removelast (node_slots t)) t)
            else if rp_type r =? 4 then
              let adds := alter (fun l => l ++ [b]) host_b (alter (fun l => l ++ [a]) host_a (add_set t)) in
              let subs := alter (fun l => l ++ [a]) host_a (alter (fun l => l ++ [b]) host_b (subtract_set t)) in
              put_subtract_set subs (put_add_set adds t)
            else t)
  end.

Definition replay_apply (log : list StCutReplayRec) (t : Tables) : option Tables :=
  foldM replay_one (reverse log) t.

Definition remove_edge (slot : nat) (replay : option (list StCutReplayRec)) (t : Tables)
    : option (Tables * option (list StCutReplayRec)) :=
  sl ← weight_table t !! slot;
  let p1 := canon sl in
  let pslot := idx sl in
  psl ← weight_table t !! pslot;
  let p2 := canon psl in
  _ ← add_set t !! p2; _ ← add_set t !! p1; _ ← subtract_set t !! p2; _ ← subtract_set t !! p1;
  let adds := alter (list_remove pslot) p1 (alter (list_remove slot) p2 (add_set t)) in
  let subs := alter (list_remove slot) p1 (alter (list_remove pslot) p2 (subtract_set t)) in
  Some (put_subtract_set subs (put_add_set adds t), replay_push (mkReplay slot 0 4) replay).

(** * Building the tables from the input graph *)

Record Relation := mkRelation { r_src : nat; r_dst : nat; r_weight : Z; r_hard : bool }.

Record StCutGraphInput := mkInput {
  in_node_count : nat;
  relations : list Relation;
  initial_order : list nat;
  groups : list (Z * list nat)
}.

(** One group of [stcut_read_nodes]: members out of range are dropped, the
    rest are sorted, and every member gets the group as its candidates. *)
Definition read_group (n : nat) (c : StCutContext) (kv : Z * list nat) : option StCutContext :=
  let members := merge_sort le (filter (fun id => (id < n)%nat) kv.2) in
  cands ← foldM (fun v id => _ ← v !! id; Some (<[id := members]> v)) members (cand_tables c);
  Some (set_group_list_keys (group_list_keys c ++ [kv.1])
          (set_relation_groups (relation_groups c ++ [(kv.1, members)]) (set_cand_tables cands c))).

Definition read_nodes (c : StCutContext) : option StCutContext :=
  let n := node_count c in
  if (n =? 0)%nat then Some c
  else foldM (read_group n) (relation_groups c) (set_relation_groups [] c).

Definition add_relation (c : StCutContext) (r : Relation) : StCutContext :=
  let t := work c in
  let a := length (weight_table t) in
  let b := S a in
  set_threshold_ledger (threshold_ledger c ++ [0; 0])
    (set_work (link_pair (r_src r) (r_dst r) a b
                 (put_weight_table (weight_table t ++ [mkSlot (r_dst r) b (r_weight r) 0x40;
                                                       mkSlot (r_src r) a (r_weight r) (Z.lor 0x40 4)]) t)) c).

Definition register_all (n : nat) (c : StCutContext) : option StCutContext :=
  foldM (fun c i => '(_, c) ← register_node (Z.of_nat i) 0 c; Some c) (seq 0 n) c.

Definition build_initial_state (input : StCutGraphInput) : option StCutContext :=
  c ← register_all (in_node_count input) (set_mode 0x40 fresh_ctx);
  let c := foldl add_relation c (relations input) in
  let c := set_bitmap (resize (words_for (length (weight_table (work c)))) 0 (bitmap c)) c in
  let c := set_relation_groups (groups input) (set_working_order (initial_order input) c) in
  c ← read_nodes c;
  Some (set_mode 0 c).
(** * The edge invariant *)

(** The two tests [flags & 4] and its absence. *)
Definition bit4 (sl : StCutSlot) : bool := negb (Z.land (flags sl) 4 =? 0).

(** [s] is listed at node [n] in a table of adjacency lists. *)
Definition listed (v : list (list nat)) (n s : nat) : Prop := exists l, v !! n = Some l /\ s ∈ l.

(** An edge is two slots that name each other.  Each is listed once at the
    node the other one names and, in the subtract table, at the node it
    names itself; exactly one of the two carries bit 4. *)
Record graph_inv (c : StCutContext) : Prop := {
  gi_nodes : length (node_slots (work c)) = length (add_set (work c));
  gi_lens : length (subtract_set (work c)) = length (add_set (work c));
  gi_free : free_weight_slots c = [];
  gi_mode : Z.land (mode c) 4 = 0;
  gi_ledger : (length (weight_table (work c)) <= length (threshold_ledger c))%nat;
  gi_partner s sl : weight_table (work c) !! s = Some sl ->
    (canon sl < length (add_set (work c)))%nat /\
    exists pl, weight_table (work c) !! idx sl = Some pl /\
      idx pl = s /\ idx sl <> s /\ bit4 pl = negb (bit4 sl);
  gi_nodup n l : add_set (work c) !! n = Some l \/ subtract_set (work c) !! n = Some l -> NoDup l;
  gi_add n s : listed (add_set (work c)) n s ->
    exists sl pl, weight_table (work c) !! s = Some sl /\
      weight_table (work c) !! idx sl = Some pl /\ canon pl = n /\
      listed (add_set (work c)) (canon sl) (idx sl) /\ listed (subtract_set (work c)) (canon sl) s;
  gi_sub n s : listed (subtract_set (work c)) n s ->
    exists sl, weight_table (work c) !! s = Some sl /\ canon sl = n
}.

(** ** Lists *)

Lemma listed_lookup v n l s : v !! n = Some l -> listed v n s <-> s ∈ l.
Proof. intros H. split; [intros (? & ? & ?); by simplify_eq|by exists l]. Qed.

Lemma listed_alter v f m n s :
  listed (alter f m v) n s <->
  (n = m /\ exists l, v !! n = Some l /\ s ∈ f l) \/ (n <> m /\ listed v n s).
Proof.
  unfold listed. destruct (decide (n = m)) as [->|Hn].
  - rewrite list_lookup_alter_eq. split.
    + intros (l & (l' & ? & Hl)%fmap_Some & ?). simplify_eq. left. eauto.
    + intros [[_ (l & -> & ?)]|[? _]]; [cbn; eauto|done].
  - rewrite list_lookup_alter_ne by done. split; [by right|intros [[? _]|[_ ?]]; done].
Qed.

Lemma push_at_length v n x : (n < length v)%nat -> length (push_at n x v) = length v.
Proof. intros. unfold push_at. destruct (Nat.leb_spec (length v) n); [lia|]. by rewrite length_alter. Qed.

Lemma push_at_in v n x : (n < length v)%nat -> push_at n x v = alter (fun l => l ++ [x]) n v.
Proof. intros. unfold push_at. by destruct (Nat.leb_spec (length v) n); [lia|]. Qed.

Lemma listed_push v n x m s :
  (n < length v)%nat -> listed (push_at n x v) m s <-> (m = n /\ s = x) \/ listed v m s.
Proof.
  intros Hn. rewrite push_at_in, listed_alter by done. split.
  - intros [ [-> (l & Hl & [ ? | ->%list_elem_of_singleton ]%elem_of_app)] | [? ?] ]; [|by left|by right].
    right. by exists l.
  - intros [[-> ->]|(l & Hl & Hs)].
    + destruct (lookup_lt_is_Some_2 v n Hn) as [l Hl]. left. split; [done|]. exists l. set_solver.
    + destruct (decide (m = n)) as [->|?]; [left|right; split; [done|by exists l]].
      split; [done|]. exists l. set_solver.
Qed.

Lemma removelast_snoc {A} (l : list A) x : removelast (l ++ [x]) = l.
Proof. rewrite removelast_app by done. cbn. by rewrite app_nil_r. Qed.

Lemma list_remove_absent x v : x ∉ v -> list_remove x v = v.
Proof.
  intros Hx. unfold list_remove.
  destruct (list_find (eq x) v) as [[j y]|] eqn:E; [|done].
  apply list_find_Some in E as (Hj & <- & _). destruct Hx. by eapply list_elem_of_lookup_2.
Qed.

(** The element that was pushed last is removed without moving another. *)
Lemma list_remove_snoc x v : x ∉ v -> list_remove x (v ++ [x]) = v.
Proof.
  intros Hx. unfold list_remove. rewrite last_snoc.
  assert (list_find (eq x) (v ++ [x]) = Some (length v, x)) as ->.
  { apply list_find_Some. split_and!; [by apply list_lookup_middle|done|].
    intros j y Hj ? ->. rewrite lookup_app_l in Hj by done. by eapply Hx, list_elem_of_lookup_2. }
  rewrite list_insert_id by (by apply list_lookup_middle). apply removelast_snoc.
Qed.

Lemma list_remove_perm x v : x ∈ v -> v ≡ₚ x :: list_remove x v.
Proof.
  intros Hx. unfold list_remove.
  destruct (list_find (eq x) v) as [[j y]|] eqn:E.
  2: { by eapply list_find_None, Forall_forall in E. }
  apply list_find_Some in E as (Hj & <- & _).
  destruct (exists_last (l := v)) as (u & z & ->); [by intros ->|].
  rewrite last_snoc. destruct (decide (j < length u)%nat) as [Hlt|Hge].
  - rewrite insert_app_l by done. rewrite removelast_snoc.
    rewrite lookup_app_l in Hj by done.
    rewrite <-(take_drop_middle u j x) at 1 by done.
    rewrite insert_take_drop by done. solve_Permutation.
  - assert (j = length u) as ->.
    { apply lookup_lt_Some in Hj. rewrite length_app in Hj. cbn in Hj. lia. }
    rewrite list_lookup_middle in Hj by done. simplify_eq.
    rewrite list_insert_id by (by apply list_lookup_middle). rewrite removelast_snoc. solve_Permutation.
Qed.
Lemma list_remove_cons x v :
  x ∈ v -> (forall y, y ∈ v <-> y ∈ x :: list_remove x v) /\
           (NoDup v -> NoDup (x :: list_remove x v)).
Proof.
  intros Hp%list_remove_perm. split; [|by rewrite <-Hp].
  intros y. split; intros; [by rewrite <-Hp|by rewrite Hp].
Qed.

Lemma list_remove_elem x s v : NoDup v -> s ∈ list_remove x v <-> s ∈ v /\ s <> x.
Proof.
  intros Hv. destruct (decide (x ∈ v)) as [Hx|Hx].
  - destruct (list_remove_cons x v Hx) as [Hin Hnd].
    apply Hnd, NoDup_cons in Hv as [? ?]. rewrite Hin. set_solver.
  - rewrite list_remove_absent by done. set_solver.
Qed.

Lemma list_remove_subset x s v : s ∈ list_remove x v -> s ∈ v.
Proof.
  destruct (decide (x ∈ v)) as [Hx|Hx]; [|by rewrite list_remove_absent].
  destruct (list_remove_cons x v Hx) as [-> _]. set_solver.
Qed.

Lemma list_remove_nodup x v : NoDup v -> NoDup (list_remove x v).
Proof.
  intros Hv. destruct (decide (x ∈ v)) as [Hx|Hx]; [|by rewrite list_remove_absent].
  by apply (list_remove_cons x v Hx), NoDup_cons in Hv as [_ ?].
Qed.

(** ** The tables that [connect_nodes] leaves *)

Lemma find_pair_some w l dst e :
  find_pair w l dst = Some (Some e) -> e ∈ l /\ exists sl, w !! e = Some sl /\ canon sl = dst.
Proof.
  induction l as [|e' l IH]; cbn; [done|]. destruct (w !! e') as [sl|] eqn:E; [|done]. cbn.
  destruct (Nat.eqb_spec (canon sl) dst); intros; simplify_eq; [set_solver|].
  destruct IH as [? ?]; [done|]. set_solver.
Qed.

Lemma find_pair_total w l dst : Forall (fun e => is_Some (w !! e)) l -> is_Some (find_pair w l dst).
Proof.
  induction 1 as [|e l [sl Hsl] _ IH]; cbn; [by eauto|]. rewrite Hsl. cbn.
  destruct (canon sl =? dst)%nat; eauto.
Qed.

Lemma new_pair_fresh src dst thr c :
  free_weight_slots c = [] ->
  new_pair src dst thr c =
    let t := work c in
    let a := length (weight_table t) in
    Some (a, S a,
      set_threshold_ledger (threshold_ledger c ++ [0; 0])
        (set_work (put_weight_table
           (weight_table t ++ [mkSlot dst (S a) thr (mode c);
                               mkSlot src a STCUT_MAX_WEIGHT (Z.lor (mode c) 4)]) t) c)).
Proof. intros Hf. unfold new_pair. rewrite Hf. cbn. by rewrite andb_false_r. Qed.

(** The state after a miss, up to the bit map. *)
Definition with_pair (src dst : nat) (thr : Z) (c : StCutContext) : StCutContext :=
  let t := work c in
  let a := length (weight_table t) in
  set_threshold_ledger (threshold_ledger c ++ [0; 0])
    (set_work (link_pair src dst a (S a)
       (put_weight_table (weight_table t ++ [mkSlot dst (S a) thr (mode c);
                                             mkSlot src a STCUT_MAX_WEIGHT (Z.lor (mode c) 4)]) t)) c).

Definition hit_weight (thr w : Z) : Z :=
  let w := u64 (thr + w) in if STCUT_MAX_WEIGHT <? w then STCUT_MAX_WEIGHT else w.

Lemma connect_unfold src dst thr cb c l r :
  free_weight_slots c = [] ->
  add_set (work c) !! src = Some l -> find_pair (weight_table (work c)) l dst = Some r ->
  connect_nodes src dst thr cb c =
    match r with
    | Some e =>
        sl ← weight_table (work c) !! e;
        Some (e, set_work (put_weight e (hit_weight thr (weight sl)) (work c)) c,
              if negb (thr =? 0) then replay_push (mkReplay e (weight sl) 0) cb else cb)
    | None => Some (length (weight_table (work c)), sync_bitmap (with_pair src dst thr c),
                    replay_push (mkReplay (length (weight_table (work c))) 0 2) cb)
    end.
Proof.
  intros Hf Hl Hr. unfold connect_nodes. rewrite Hl. cbn [mbind option_bind]. rewrite Hr. cbn [mbind option_bind].
  destruct r as [e|]; [done|]. rewrite new_pair_fresh by done. done.
Qed.

Lemma sync_bitmap_fields c :
  work (sync_bitmap c) = work c /\ free_weight_slots (sync_bitmap c) = free_weight_slots c /\
  mode (sync_bitmap c) = mode c /\ threshold_ledger (sync_bitmap c) = threshold_ledger c.
Proof. unfold sync_bitmap. repeat case_match; done. Qed.

Lemma sync_bitmap_length c :
  length (bitmap (sync_bitmap c)) = words_for (length (weight_table (work c))) \/
  (length (bitmap (sync_bitmap c)) = length (bitmap c) /\
   (length (weight_table (work c)) <= length (bitmap c) * 32)%nat).
Proof.
  unfold sync_bitmap. destruct (Nat.ltb_spec (length (bitmap c) * 32) (length (weight_table (work c)))).
  - left. cbn. by rewrite length_resize.
  - destruct (Nat.ltb_spec (words_for (length (weight_table (work c)))) (length (bitmap c))).
    + left. cbn. by rewrite length_resize.
    + by right.
Qed.

Lemma graph_inv_sync c : graph_inv c <-> graph_inv (sync_bitmap c).
Proof.
  destruct (sync_bitmap_fields c) as (Hw & Hf & Hm & Hl).
  split; intros [? ? ? ? ? ? ? ? ?]; split; rewrite ?Hw, ?Hf, ?Hm, ?Hl in *; done.
Qed.

Lemma bit4_lor m sl : flags sl = Z.lor m 4 -> bit4 sl = true.
Proof.
  intros E. unfold bit4. rewrite E. apply negb_true_iff, Z.eqb_neq. intros H.
  assert (Z.testbit (Z.land (Z.lor m 4) 4) 2 = true) as Ht; [|by rewrite H in Ht].
  rewrite Z.land_spec, Z.lor_spec. by rewrite orb_true_r.
Qed.

Lemma bit4_mode m sl : Z.land m 4 = 0 -> flags sl = m -> bit4 sl = false.
Proof. intros Hm E. unfold bit4. by rewrite E, Hm. Qed.
(** ** The invariant is kept *)

Definition shape (sl : StCutSlot) : nat * nat * Z := (canon sl, idx sl, flags sl).

Lemma shape_lookup (w w' : list StCutSlot) s sl :
  (forall s, shape <$> w !! s = shape <$> w' !! s) -> w' !! s = Some sl ->
  exists sl', w !! s = Some sl' /\ canon sl' = canon sl /\ idx sl' = idx sl /\ bit4 sl' = bit4 sl.
Proof.
  intros Hw Hs. specialize (Hw s). rewrite Hs in Hw.
  destruct (w !! s) as [sl'|]; [|done]. injection Hw as ? ? Hf. exists sl'.
  split_and!; try done. unfold bit4. by rewrite Hf.
Qed.

Lemma fmap_lookup_length {A B} (f : A -> B) (l k : list A) :
  (forall i, f <$> l !! i = f <$> k !! i) -> length l = length k.
Proof.
  intros H. rewrite <-(length_fmap f l), <-(length_fmap f k). f_equal.
  apply list_eq. intros i. by rewrite !list_lookup_fmap.
Qed.

(** The invariant does not read the weights. *)
Lemma graph_inv_shape c c' :
  node_slots (work c') = node_slots (work c) ->
  add_set (work c') = add_set (work c) -> subtract_set (work c') = subtract_set (work c) ->
  free_weight_slots c' = free_weight_slots c -> mode c' = mode c ->
  length (threshold_ledger c') = length (threshold_ledger c) ->
  (forall s, shape <$> weight_table (work c) !! s = shape <$> weight_table (work c') !! s) ->
  graph_inv c -> graph_inv c'.
Proof.
  intros Hns Ha Hs Hf Hm Hl Hw [Inodes Ilen Ifree Imode Iled Ipart Ind Iadd Isub].
  split; rewrite ?Hns, ?Ha, ?Hs, ?Hf, ?Hm, ?Hl; try done.
  - by rewrite <-(fmap_lookup_length shape _ _ Hw).
  - intros s sl Hsl. destruct (shape_lookup _ _ s sl Hw Hsl) as (sl' & Hsl' & <- & <- & Hb).
    destruct (Ipart s sl' Hsl') as (? & pl & Hpl & ? & ? & ?). split; [done|].
    destruct (shape_lookup _ _ (idx sl') pl (fun x => eq_sym (Hw x)) Hpl) as (pl' & ? & ? & ? & Hb').
    exists pl'. split_and!; [done|congruence|done|congruence].
  - intros n s Hls. destruct (Iadd n s Hls) as (sl & pl & Hsl & Hpl & ? & ? & ?).
    destruct (shape_lookup _ _ s sl (fun x => eq_sym (Hw x)) Hsl) as (sl' & ? & Hc & Hi & _).
    destruct (shape_lookup _ _ _ pl (fun x => eq_sym (Hw x)) Hpl) as (pl' & ? & ? & ? & _).
    exists sl', pl'. rewrite Hc, Hi. split_and!; try done. congruence.
  - intros n s Hls. destruct (Isub n s Hls) as (sl & Hsl & ?).
    destruct (shape_lookup _ _ s sl (fun x => eq_sym (Hw x)) Hsl) as (sl' & ? & Hc & _).
    exists sl'. split; [done|congruence].
Qed.

Lemma put_weight_shape s w (t : Tables) s' :
  shape <$> weight_table t !! s' = shape <$> weight_table (put_weight s w t) !! s'.
Proof.
  cbn. destruct (decide (s' = s)) as [->|].
  - rewrite list_lookup_alter_eq. by destruct (weight_table t !! s).
  - by rewrite list_lookup_alter_ne.
Qed.

Lemma connect_hit_inv c e w : graph_inv c -> graph_inv (set_work (put_weight e w (work c)) c).
Proof. apply graph_inv_shape; try done. intros s. apply put_weight_shape. Qed.

Lemma listed_lt v n s : listed v n s -> (n < length v)%nat.
Proof. intros (l & Hl & _). by eapply lookup_lt_Some. Qed.

(** The adjacency after the four pushes. *)
Lemma link_pair_listed src dst a b t :
  (src < length (add_set t))%nat -> (dst < length (add_set t))%nat ->
  length (subtract_set t) = length (add_set t) ->
  length (add_set (link_pair src dst a b t)) = length (add_set t) /\
  length (subtract_set (link_pair src dst a b t)) = length (add_set t) /\
  weight_table (link_pair src dst a b t) = weight_table t /\
  (forall n s, listed (add_set (link_pair src dst a b t)) n s <->
     (n = src /\ s = a) \/ (n = dst /\ s = b) \/ listed (add_set t) n s) /\
  (forall n s, listed (subtract_set (link_pair src dst a b t)) n s <->
     (n = dst /\ s = a) \/ (n = src /\ s = b) \/ listed (subtract_set t) n s).
Proof.
  intros Hs Hd Hl. unfold link_pair, sub_push, add_push. cbn.
  rewrite !push_at_length by (rewrite ?push_at_length; lia).
  split_and!; try done.
  - intros n s. rewrite listed_push by (rewrite push_at_length; lia). rewrite listed_push by lia. naive_solver.
  - intros n s. rewrite listed_push by (rewrite push_at_length; lia). rewrite listed_push by lia. naive_solver.
Qed.

Lemma push_at_nodup v k x :
  (k < length v)%nat -> ~ listed v k x ->
  (forall n l, v !! n = Some l -> NoDup l) -> (forall n l, push_at k x v !! n = Some l -> NoDup l).
Proof.
  intros Hk Hx Hv n l. rewrite push_at_in by done. destruct (decide (n = k)) as [->|].
  - rewrite list_lookup_alter_eq. intros (l' & Hl' & ->)%fmap_Some. apply NoDup_app.
    split_and!; [by eapply Hv| |apply NoDup_singleton].
    intros y Hy ->%list_elem_of_singleton. apply Hx. by exists l'.
  - rewrite list_lookup_alter_ne by done. apply Hv.
Qed.

Lemma link_pair_nodup src dst a b t :
  (src < length (add_set t))%nat -> (dst < length (add_set t))%nat ->
  length (subtract_set t) = length (add_set t) -> a <> b ->
  (forall n, ~ listed (add_set t) n a) -> (forall n, ~ listed (add_set t) n b) ->
  (forall n, ~ listed (subtract_set t) n a) -> (forall n, ~ listed (subtract_set t) n b) ->
  (forall n l, add_set t !! n = Some l \/ subtract_set t !! n = Some l -> NoDup l) ->
  forall n l, add_set (link_pair src dst a b t) !! n = Some l \/
              subtract_set (link_pair src dst a b t) !! n = Some l -> NoDup l.
Proof.
  intros Hs Hd Hl Hab Ha Hb Ha' Hb' Hnd n l. unfold link_pair, sub_push, add_push. cbn.
  assert (forall v k m x y, (k < length v)%nat -> x <> y -> ~ listed v m y -> ~ listed (push_at k x v) m y) as Hne.
  { intros v k m x y Hk Hxy Hy. rewrite listed_push by done. intros [[_ ?]|?]; congruence. }
  intros [Hn|Hn]; revert Hn; apply push_at_nodup; rewrite ?push_at_length; try lia;
    try (apply Hne; [lia|congruence|done]);
    apply push_at_nodup; try lia; try done; naive_solver.
Qed.
Lemma lookup_snoc2 {A} (l : list A) x y s z :
  (l ++ [x; y]) !! s = Some z <->
  l !! s = Some z \/ (s = length l /\ z = x) \/ (s = S (length l) /\ z = y).
Proof.
  rewrite lookup_app_Some. split.
  - intros [?|[Hs Hz]]; [by left|right].
    destruct (s - length l)%nat as [|[|k]] eqn:E; cbn in Hz; simplify_eq; [left|right]; split; try done; lia.
  - intros [?|[[-> ->]|[-> ->]]]; [by left|right..].
    + split; [done|]. by rewrite Nat.sub_diag.
    + split; [lia|]. by replace (S (length l) - length l)%nat with 1%nat by lia.
Qed.

Section with_pair.
Context (c : StCutContext) (src dst : nat) (thr : Z).
Context (Hinv : graph_inv c).
Context (Hsrc : (src < length (add_set (work c)))%nat) (Hdst : (dst < length (add_set (work c)))%nat).

Lemma slot_bound_add n s : listed (add_set (work c)) n s -> (s < length (weight_table (work c)))%nat.
Proof. intros H. destruct (gi_add c Hinv n s H) as (sl & _ & Hsl & _). by eapply lookup_lt_Some. Qed.

Lemma slot_bound_sub n s :
  listed (subtract_set (work c)) n s -> (s < length (weight_table (work c)))%nat.
Proof. intros H. destruct (gi_sub c Hinv n s H) as (sl & Hsl & _). by eapply lookup_lt_Some. Qed.

Lemma with_pair_weights :
  weight_table (work (with_pair src dst thr c)) =
    weight_table (work c) ++
      [mkSlot dst (S (length (weight_table (work c)))) thr (mode c);
       mkSlot src (length (weight_table (work c))) STCUT_MAX_WEIGHT (Z.lor (mode c) 4)].
Proof. done. Qed.

Lemma with_pair_length : length (add_set (work (with_pair src dst thr c))) = length (add_set (work c)).
Proof. unfold with_pair, link_pair, sub_push, add_push. cbn. rewrite !push_at_length; rewrite ?push_at_length; lia. Qed.

Lemma with_pair_inv : graph_inv (with_pair src dst thr c).
Proof.
  destruct Hinv as [Inodes Ilen Ifree Imode Iled Ipart Ind Iadd Isub].
  set (t := put_weight_table (weight_table (work c) ++
              [mkSlot dst (S (length (weight_table (work c)))) thr (mode c);
               mkSlot src (length (weight_table (work c))) STCUT_MAX_WEIGHT (Z.lor (mode c) 4)]) (work c)).
  set (a := length (weight_table (work c))).
  destruct (link_pair_listed src dst a (S a) t) as (La & Ls & Lw & Ladd & Lsub); [done..|].
  change (work (with_pair src dst thr c)) with (link_pair src dst a (S a) t) in *.
  assert (forall n, ~ listed (add_set (work c)) n a /\ ~ listed (add_set (work c)) n (S a) /\
                    ~ listed (subtract_set (work c)) n a /\ ~ listed (subtract_set (work c)) n (S a)) as Hnew.
  { intros n. unfold a. split_and!; intros H;
      first [apply slot_bound_add in H|apply slot_bound_sub in H]; lia. }
  split; change (work (with_pair src dst thr c)) with (link_pair src dst a (S a) t); rewrite ?Lw, ?La, ?Ls.
  - done.
  - done.
  - done.
  - done.
  - cbn. rewrite !length_app. cbn. lia.
  - intros s sl [Hsl|[[-> ->]|[-> ->]]]%lookup_snoc2; cbn.
    + destruct (Ipart s sl Hsl) as (? & pl & Hpl & ?). split; [done|]. exists pl.
      split; [|done]. apply lookup_snoc2. by left.
    + split; [done|]. exists (mkSlot src a STCUT_MAX_WEIGHT (Z.lor (mode c) 4)).
      split_and!; [apply lookup_snoc2; by right; right|done|fold a; lia|].
      by erewrite bit4_lor, bit4_mode.
    + split; [done|]. exists (mkSlot dst (S a) thr (mode c)).
      split_and!; [apply lookup_snoc2; by right; left|done|fold a; lia|].
      by erewrite bit4_mode, bit4_lor.
  - apply link_pair_nodup; try done; try lia; naive_solver.
  - intros n s. rewrite Ladd. intros Hl.
    assert (forall u sl, weight_table (work c) !! u = Some sl -> weight_table t !! u = Some sl) as Hold.
    { intros u sl Hu. apply lookup_snoc2. by left. }
    assert (weight_table t !! a = Some (mkSlot dst (S a) thr (mode c))) as HA by (apply lookup_snoc2; by right; left).
    assert (weight_table t !! S a = Some (mkSlot src a STCUT_MAX_WEIGHT (Z.lor (mode c) 4))) as HB
      by (apply lookup_snoc2; by right; right).
    destruct Hl as [[-> ->]|[[-> ->]|Hl]].
    + eexists _, _. split; [exact HA|]. split; [exact HB|]. cbn [canon idx]. rewrite Ladd, Lsub. naive_solver.
    + eexists _, _. split; [exact HB|]. split; [exact HA|]. cbn [canon idx]. rewrite Ladd, Lsub. naive_solver.
    + destruct (Iadd n s Hl) as (sl & pl & H1 & H2 & H3 & H4 & H5).
      exists sl, pl. rewrite Ladd, Lsub. split_and!; auto.
  - intros n s. rewrite Lsub. intros [[-> ->]|[[-> ->]|Hl]].
    + eexists. split; [apply lookup_snoc2; by right; left|done].
    + eexists. split; [apply lookup_snoc2; by right; right|done].
    + destruct (Isub n s Hl) as (sl & ? & ?). exists sl. split; [apply lookup_snoc2; by left|done].
Qed.
End with_pair.

(** [connect_nodes] on nodes of the graph: it never leaves the tables, keeps
    the invariant and the nodes, and only ever adds slots. *)
Lemma connect_spec c src dst thr cb :
  graph_inv c -> (src < length (add_set (work c)))%nat -> (dst < length (add_set (work c)))%nat ->
  exists e c' cb', connect_nodes src dst thr cb c = Some (e, c', cb') /\ graph_inv c' /\
    length (add_set (work c')) = length (add_set (work c)) /\
    (e < length (weight_table (work c')))%nat.
Proof.
  intros Hinv Hs Hd. destruct (lookup_lt_is_Some_2 _ _ Hs) as [l Hl].
  assert (is_Some (find_pair (weight_table (work c)) l dst)) as [r Hr].
  { apply find_pair_total, Forall_forall. intros e He.
    apply lookup_lt_is_Some. apply (slot_bound_add c Hinv src). by exists l. }
  erewrite connect_unfold; [|apply Hinv|done|done]. destruct r as [e|].
  - apply find_pair_some in Hr as (_ & sl & Hsl & _). rewrite Hsl. cbn.
    eexists _, _, _. split; [done|]. split; [by apply connect_hit_inv|]. split; [done|].
    cbn. rewrite length_alter. by eapply lookup_lt_Some.
  - eexists _, _, _. split; [done|]. split; [apply (proj1 (graph_inv_sync _)); by apply with_pair_inv|].
    destruct (sync_bitmap_fields (with_pair src dst thr c)) as (-> & _).
    split; [|rewrite with_pair_weights, length_app; cbn; lia].
    by apply with_pair_length.
Qed.

(** ** Removing an edge *)

Lemma alter_remove_listed (v : list (list nat)) n x m s :
  (forall k l, v !! k = Some l -> NoDup l) ->
  listed (alter (list_remove x) n v) m s <-> listed v m s /\ ~ (m = n /\ s = x).
Proof.
  intros Hv. rewrite listed_alter. split.
  - intros [[-> (l & Hl & Hs)]|[? ?]]; [|naive_solver].
    apply list_remove_elem in Hs as [? ?]; [|by eapply Hv]. split; [by exists l|naive_solver].
  - intros [(l & Hl & Hs) Hne]. destruct (decide (m = n)) as [->|]; [left|right; split; [done|by exists l]].
    split; [done|]. exists l. split; [done|]. apply list_remove_elem; [by eapply Hv|]. naive_solver.
Qed.

Lemma alter_remove_nodup (v : list (list nat)) n x :
  (forall k l, v !! k = Some l -> NoDup l) ->
  forall k l, alter (list_remove x) n v !! k = Some l -> NoDup l.
Proof.
  intros Hv k l. destruct (decide (k = n)) as [->|].
  - rewrite list_lookup_alter_eq. intros (l' & Hl' & ->)%fmap_Some. by eapply list_remove_nodup, Hv.
  - rewrite list_lookup_alter_ne by done. apply Hv.
Qed.

(** Unlinking both halves of an edge keeps the invariant, whatever happens to
    the two slots in the subtract table. *)
Lemma unlink_inv c t s sl :
  graph_inv c -> weight_table (work c) !! s = Some sl ->
  node_slots t = node_slots (work c) -> weight_table t = weight_table (work c) ->
  length (add_set t) = length (add_set (work c)) ->
  length (subtract_set t) = length (subtract_set (work c)) ->
  (forall n l, add_set t !! n = Some l \/ subtract_set t !! n = Some l -> NoDup l) ->
  (forall n x, listed (add_set t) n x <-> listed (add_set (work c)) n x /\ x <> s /\ x <> idx sl) ->
  (forall n x, listed (subtract_set t) n x -> listed (subtract_set (work c)) n x) ->
  (forall n x, x <> s -> x <> idx sl -> listed (subtract_set (work c)) n x -> listed (subtract_set t) n x) ->
  graph_inv (set_work t c).
Proof.
  intros [Inodes Ilen Ifree Imode Iled Ipart Ind Iadd Isub] Hsl Hns Hw La Ls Hnd Ladd Lsub Lsub'.
  destruct (Ipart s sl Hsl) as (Hc & pl & Hpl & Hps & Hne & Hb).
  split; cbn; rewrite ?Hns, ?Hw, ?La, ?Ls; try done.
  - intros n x. rewrite Ladd. intros (Hn & ? & ?).
    destruct (Iadd n x Hn) as (xl & yl & ? & Hy & ? & ? & ?). exists xl, yl. rewrite Ladd.
    destruct (Ipart x xl) as (_ & y' & ? & ? & _); [done|].
    split_and!; try done; [intros Heq..|by apply Lsub'].
    + assert (yl = sl) as -> by congruence. congruence.
    + assert (yl = pl) as -> by congruence. congruence.
  - intros n x Hn%Lsub. by apply Isub.
Qed.

(** Where the two halves are listed. *)
Lemma listed_at c s sl pl :
  graph_inv c -> weight_table (work c) !! s = Some sl -> weight_table (work c) !! idx sl = Some pl ->
  (forall n x, listed (add_set (work c)) n x -> x = s -> n = canon pl) /\
  (forall n x, listed (add_set (work c)) n x -> x = idx sl -> n = canon sl) /\
  (forall n x, listed (subtract_set (work c)) n x -> x = s -> n = canon sl) /\
  (forall n x, listed (subtract_set (work c)) n x -> x = idx sl -> n = canon pl).
Proof.
  intros Hinv Hsl Hpl. destruct (gi_partner c Hinv s sl Hsl) as (_ & pl' & Hpl' & Hps & _).
  assert (pl' = pl) as -> by congruence.
  split_and!; intros n x Hn ->.
  - destruct (gi_add c Hinv n s Hn) as (? & ? & ? & ? & ? & _). congruence.
  - destruct (gi_add c Hinv n _ Hn) as (? & ? & ? & ? & ? & _). congruence.
  - destruct (gi_sub c Hinv n s Hn) as (? & ? & ?). congruence.
  - destruct (gi_sub c Hinv n _ Hn) as (? & ? & ?). congruence.
Qed.

Lemma unlink_adds_listed c s sl pl n x :
  graph_inv c -> weight_table (work c) !! s = Some sl -> weight_table (work c) !! idx sl = Some pl ->
  listed (alter (list_remove (idx sl)) (canon sl) (alter (list_remove s) (canon pl) (add_set (work c)))) n x <->
  listed (add_set (work c)) n x /\ x <> s /\ x <> idx sl.
Proof.
  intros Hinv Hsl Hpl. destruct (listed_at c s sl pl) as (Hat & Hat' & _); [done..|].
  pose proof (gi_nodup c Hinv) as Hnd.
  rewrite !alter_remove_listed by (try apply alter_remove_nodup; naive_solver). naive_solver.
Qed.

(** Both halves go, from both tables; nothing else moves to another node. *)
Lemma remove_edge_spec c s replay sl :
  graph_inv c -> weight_table (work c) !! s = Some sl ->
  exists t, remove_edge s replay (work c) = Some (t, replay_push (mkReplay s 0 4) replay) /\
    graph_inv (set_work t c) /\
    (forall n x, listed (add_set t) n x <-> listed (add_set (work c)) n x /\ x <> s /\ x <> idx sl) /\
    length (add_set t) = length (add_set (work c)) /\ weight_table t = weight_table (work c).
Proof.
  intros Hinv Hsl. pose proof (gi_nodup c Hinv) as Hnd. pose proof (gi_lens c Hinv) as Ilen.
  destruct (gi_partner c Hinv s sl Hsl) as (Hc & pl & Hpl & Hps & Hne & Hb).
  destruct (gi_partner c Hinv _ pl Hpl) as (Hc' & _).
  unfold remove_edge. rewrite Hsl. cbn [mbind option_bind]. rewrite Hpl. cbn [mbind option_bind].
  destruct (lookup_lt_is_Some_2 _ _ Hc) as [l1 H1]. destruct (lookup_lt_is_Some_2 _ _ Hc') as [l2 H2].
  rewrite <-Ilen in Hc, Hc'.
  destruct (lookup_lt_is_Some_2 _ _ Hc) as [k1 K1]. destruct (lookup_lt_is_Some_2 _ _ Hc') as [k2 K2].
  rewrite H1, H2, K1, K2. cbn [mbind option_bind]. eexists. split; [done|].
  destruct (listed_at c s sl pl) as (_ & _ & Hst & Hst'); [done..|].
  split; [|split; [intros; by apply unlink_adds_listed|cbn; by rewrite !length_alter]].
  apply (unlink_inv c _ s sl); cbn; rewrite ?length_alter; try done.
  - intros n l [Hn|Hn]; revert Hn; do 2 apply alter_remove_nodup; naive_solver.
  - intros. by apply unlink_adds_listed.
  - intros n x. rewrite !alter_remove_listed by (try apply alter_remove_nodup; naive_solver). tauto.
  - intros n x ? ?. rewrite !alter_remove_listed by (try apply alter_remove_nodup; naive_solver). tauto.
Qed.

(** The records that a trial writes keep the invariant when replayed. *)
Lemma replay_one_inv c r :
  graph_inv c -> rp_type r = 0 \/ rp_type r = 2 ->
  exists t, replay_one (work c) r = Some t /\ graph_inv (set_work t c) /\
    length (add_set t) = length (add_set (work c)).
Proof.
  intros Hinv Hty. unfold replay_one. destruct (weight_table (work c) !! rp_op r) as [sl|] eqn:Hsl.
  2: { exists (work c). split; [done|]. split; [|done]. by destruct c. }
  destruct (gi_partner c Hinv _ sl Hsl) as (Hc & pl & Hpl & Hps & Hne & Hb). rewrite Hpl. cbn.
  pose proof (gi_nodup c Hinv) as Hnd.
  eexists. split; [done|]. destruct Hty as [-> | ->]; cbn.
  - split; [by apply connect_hit_inv|done].
  - split; [|by rewrite !length_alter]. apply (unlink_inv c _ (rp_op r) sl); cbn; rewrite ?length_alter; try done.
    + intros n l [Hn|Hn]; revert Hn; do 2 apply alter_remove_nodup; naive_solver.
    + intros. by apply unlink_adds_listed.
    + intros n x. rewrite !alter_remove_listed by (try apply alter_remove_nodup; naive_solver). tauto.
    + intros n x ? ?. rewrite !alter_remove_listed by (try apply alter_remove_nodup; naive_solver). tauto.
Qed.
(** * Trial edges are taken back by the replay

    The ledger of a trial, replayed against any later state of the tables
    that still has the trial's edges, gives back the adjacency lists and the
    slots from before the trial; slots that were added stay as garbage. *)

Record extends (t u : Tables) : Prop := {
  ext_nodes : node_slots u = node_slots t;
  ext_flags : group_flags u = group_flags t;
  ext_add : add_set u = add_set t;
  ext_weights : weight_table t `prefix_of` weight_table u
}.

Definition undone_by (t t' : Tables) (log : list StCutReplayRec) : Prop :=
  forall u, extends t' u -> exists u', replay_apply log u = Some u' /\ extends t u'.

Lemma extends_refl t : extends t t.
Proof. by split. Qed.

Lemma undone_nil t : undone_by t t [].
Proof. intros u Hu. by exists u. Qed.

Lemma undone_app t t1 t2 n1 n2 : undone_by t t1 n1 -> undone_by t1 t2 n2 -> undone_by t t2 (n1 ++ n2).
Proof.
  intros H1 H2 u Hu. destruct (H2 u Hu) as (u1 & E1 & Hu1). destruct (H1 u1 Hu1) as (u2 & E2 & Hu2).
  exists u2. split; [|done]. unfold replay_apply in *. rewrite reverse_app, foldM_app, E1. done.
Qed.

Lemma extends_slot t u s sl : extends t u -> weight_table t !! s = Some sl -> weight_table u !! s = Some sl.
Proof. intros He Hs. eapply prefix_lookup_Some; [done|apply He]. Qed.

Lemma put_weight_undo (w k : list StCutSlot) e sl v :
  w !! e = Some sl ->
  alter (fun sl' => mkSlot (canon sl') (idx sl') (weight sl) (flags sl')) e
    (alter (fun sl' => mkSlot (canon sl') (idx sl') v (flags sl')) e w ++ k) = w ++ k.
Proof.
  intros He. pose proof (lookup_lt_Some _ _ _ He).
  rewrite alter_app_l by (by rewrite length_alter). f_equal.
  apply list_eq. intros i. destruct (decide (i = e)) as [->|].
  - rewrite !list_lookup_alter_eq, He. by destruct sl.
  - by rewrite !list_lookup_alter_ne.
Qed.

Lemma hit_undone c e sl w :
  graph_inv c -> weight_table (work c) !! e = Some sl ->
  undone_by (work c) (put_weight e w (work c)) [mkReplay e (weight sl) 0].
Proof.
  intros Hinv He u Hu. destruct (gi_partner c Hinv e sl He) as (_ & pl & Hpl & _ & Hne & _).
  assert (weight_table (put_weight e w (work c)) !! e = Some (mkSlot (canon sl) (idx sl) w (flags sl))) as He'.
  { cbn. by rewrite list_lookup_alter_eq, He. }
  assert (weight_table (put_weight e w (work c)) !! idx sl = Some pl) as Hp'.
  { cbn. by rewrite list_lookup_alter_ne. }
  eapply extends_slot in He' as Eu; [|done]. eapply extends_slot in Hp' as Pu; [|done].
  unfold replay_apply. cbn -[weight_table]. unfold replay_one. cbn -[weight_table]. rewrite Eu. cbn -[weight_table].
  rewrite Pu. cbn -[weight_table]. eexists. split; [done|].
  destruct Hu as [Hn Hf Ha [k Hk]]. split; cbn; try done.
  exists k. rewrite Hk. cbn. by apply put_weight_undo.
Qed.

Lemma alter_alter_id (v : list (list nat)) n f g :
  (forall l, v !! n = Some l -> g (f l) = l) -> alter g n (alter f n v) = v.
Proof.
  intros H. apply list_eq. intros i. destruct (decide (i = n)) as [->|].
  - rewrite !list_lookup_alter_eq. destruct (v !! n) as [l|] eqn:E; [|done]. cbn. by rewrite H.
  - by rewrite !list_lookup_alter_ne.
Qed.

Lemma alter_swap (v : list (list nat)) m n f g :
  m <> n -> alter f m (alter g n v) = alter g n (alter f m v).
Proof.
  intros Hmn. apply list_eq. intros i. destruct (decide (i = m)) as [->|].
  - rewrite list_lookup_alter_eq, !list_lookup_alter_ne, list_lookup_alter_eq by done. done.
  - rewrite (list_lookup_alter_ne f) by done. destruct (decide (i = n)) as [->|].
    + by rewrite !list_lookup_alter_eq, list_lookup_alter_ne.
    + by rewrite !list_lookup_alter_ne.
Qed.

(** Two pushes taken back in the order in which they were made. *)
Lemma unlink_adds (v : list (list nat)) src dst a b :
  (forall n, ~ listed v n a) -> (forall n, ~ listed v n b) -> a <> b ->
  alter (list_remove b) dst (alter (list_remove a) src
    (alter (fun l => l ++ [b]) dst (alter (fun l => l ++ [a]) src v))) = v.
Proof.
  intros Ha Hb Hab. destruct (decide (src = dst)) as [<-|Hne].
  - apply list_eq. intros i. destruct (decide (i = src)) as [->|].
    + rewrite !list_lookup_alter_eq. destruct (v !! src) as [l|] eqn:E; [|done]. cbn. f_equal.
      assert (a ∉ l) as Hal by (intros ?; apply (Ha src); by exists l).
      assert (b ∉ l) as Hbl by (intros ?; apply (Hb src); by exists l).
      enough (list_remove a ((l ++ [a]) ++ [b]) = l ++ [b]) as -> by (by apply list_remove_snoc).
      unfold list_remove. rewrite last_snoc.
      assert (list_find (eq a) ((l ++ [a]) ++ [b]) = Some (length l, a)) as ->.
      { apply list_find_Some. rewrite <-app_assoc. split_and!; [by apply list_lookup_middle|done|].
        intros j y Hj ? ->. rewrite lookup_app_l in Hj by done. by eapply Hal, list_elem_of_lookup_2. }
      rewrite <-app_assoc. cbn. rewrite insert_app_r_alt, Nat.sub_diag by done. cbn.
      change ([b; b]) with ([b] ++ [b]). by rewrite app_assoc, removelast_snoc.
    + by rewrite !list_lookup_alter_ne.
  - rewrite (alter_swap (alter _ src v) src dst) by done.
    rewrite (alter_alter_id v src).
    + apply alter_alter_id. intros l Hl. apply list_remove_snoc. intros ?. apply (Hb dst). by exists l.
    + intros l Hl. apply list_remove_snoc. intros ?. apply (Ha src). by exists l.
Qed.

Lemma miss_undone c src dst thr :
  graph_inv c -> (src < length (add_set (work c)))%nat -> (dst < length (add_set (work c)))%nat ->
  undone_by (work c) (work (with_pair src dst thr c)) [mkReplay (length (weight_table (work c))) 0 2].
Proof.
  intros Hinv Hs Hd u Hu. set (a := length (weight_table (work c))) in *.
  assert (weight_table u !! a = Some (mkSlot dst (S a) thr (mode c))) as Ea.
  { eapply extends_slot; [done|]. apply lookup_snoc2. by right; left. }
  assert (weight_table u !! S a = Some (mkSlot src a STCUT_MAX_WEIGHT (Z.lor (mode c) 4))) as Eb.
  { eapply extends_slot; [done|]. apply lookup_snoc2. by right; right. }
  unfold replay_apply. cbn. unfold replay_one. cbn. rewrite Ea. cbn. rewrite Eb. cbn.
  eexists. split; [done|]. destruct Hu as [Hn Hf Ha Hw]. split; cbn; try done.
  - rewrite Ha. cbn. rewrite !push_at_in by (rewrite ?push_at_length; lia). apply unlink_adds; [..|lia].
    + intros n Hl. apply slot_bound_add in Hl; [|done]. unfold a in *. lia.
    + intros n Hl. apply slot_bound_add in Hl; [|done]. unfold a in *. lia.
  - etrans; [|apply Hw]. by eexists.
Qed.

Lemma connect_undone c src dst thr log :
  graph_inv c -> (src < length (add_set (work c)))%nat -> (dst < length (add_set (work c)))%nat ->
  thr <> 0 ->
  exists e c' new, connect_nodes src dst thr (Some log) c = Some (e, c', Some (log ++ new)) /\
    graph_inv c' /\ length (add_set (work c')) = length (add_set (work c)) /\
    undone_by (work c) (work c') new.
Proof.
  intros Hinv Hs Hd Hthr.
  destruct (connect_spec c src dst thr (Some log)) as (e & c' & cb' & E & Hinv' & Hlen & _); [done..|].
  rewrite E. pose proof E as E'.
  destruct (lookup_lt_is_Some_2 _ _ Hs) as [l Hl].
  assert (exists r, find_pair (weight_table (work c)) l dst = Some r) as [r Hr].
  { unfold connect_nodes in E. rewrite Hl in E. cbn in E.
    destruct (find_pair (weight_table (work c)) l dst); [by eexists|done]. }
  erewrite connect_unfold in E'; [|apply Hinv|done|done].
  destruct (Z.eqb_spec thr 0); [done|]. cbn [negb] in E'. destruct r as [e'|].
  - apply find_pair_some in Hr as (_ & sl & Hsl & _). rewrite Hsl in E'. cbn in E'. simplify_eq.
    eexists _, _, _. split_and!; try done. by apply hit_undone.
  - cbn in E'. simplify_eq. eexists _, _, _. split_and!; try done.
    destruct (sync_bitmap_fields (with_pair src dst thr c)) as (-> & _). by apply miss_undone.
Qed.
(** * The tables of the input graph *)

(** What the registration of [n] nodes leaves. *)
Definition registered (n : nat) (c : StCutContext) : Prop :=
  work c = mkTables (Z.of_nat <$> seq 0 n) (replicate n 0x40) [] (replicate n []) (replicate n []) /\
  mode c = 0x40 /\ free_node_slots c = [] /\ free_weight_slots c = [] /\
  mark_table c = replicate n 0 /\ cand_tables c = replicate n [] /\
  threshold_ledger c = [] /\ snapshot_taken c = false.

Lemma resize_replicate {A} n (x : A) : resize (S n) x (replicate n x) = replicate (S n) x.
Proof.
  rewrite resize_ge by (rewrite length_replicate; lia).
  rewrite length_replicate. replace (S n - n)%nat with 1%nat by lia.
  change (replicate 1 x) with [x]. by rewrite <-replicate_cons_app.
Qed.

Lemma register_all_ok n : exists c, register_all n (set_mode 0x40 fresh_ctx) = Some c /\ registered n c.
Proof.
  induction n as [|n (c & E & Hw & Hm & Hf & Hf' & Hmk & Hcd & Hl & Hs)]; [by eexists|].
  unfold register_all in *. rewrite seq_S, foldM_app, E. cbn -[foldM].
  cbn [foldM]. unfold register_node. rewrite Hm. cbn.
  eexists. split; [done|]. unfold registered. cbn -[seq replicate resize fmap list_fmap].
  rewrite Hw, Hm, Hf, Hf', Hmk, Hcd, Hl, Hs. cbn -[seq replicate resize fmap list_fmap].
  rewrite !length_fmap, !length_seq. split_and!; try done; try apply resize_replicate.
  f_equal; try apply resize_replicate.
  - by rewrite seq_S, fmap_app.
  - change [u8 (Z.lor 0 64)] with (replicate 1 64). rewrite <-replicate_add. by rewrite Nat.add_1_r.
Qed.

Lemma registered_inv n c : registered n c -> graph_inv c.
Proof.
  intros (Hw & Hm & Hf & Hf' & Hmk & Hcd & Hl & Hs).
  assert (forall m s, ~ listed (replicate n []) m s) as Hno.
  { intros m s (l & Hl' & Hin). apply lookup_replicate in Hl' as [-> _]. set_solver. }
  split; rewrite ?Hw, ?Hm, ?Hf', ?Hl; cbn; try done.
  - by rewrite length_fmap, length_seq, length_replicate.
  - intros m l [H|H]; apply lookup_replicate in H as [-> _]; constructor.
  - intros m s []%Hno.
  - intros m s []%Hno.
Qed.

(** The slots of the [k]-th relation. *)
Definition relation_slots (k : nat) (r : Relation) : list StCutSlot :=
  [mkSlot (r_dst r) (S (2 * k)) (r_weight r) 0x40; mkSlot (r_src r) (2 * k) (r_weight r) 0x44].

Definition relations_ok (n : nat) (rs : list Relation) : Prop :=
  Forall (fun r => (r_src r < n)%nat /\ (r_dst r < n)%nat) rs.

(** The adjacency of a list of relations: relation [k] puts slot [2k] at its
    source and slot [2k + 1] at its destination. *)
Definition built_from (rs : list Relation) (c : StCutContext) : Prop :=
  weight_table (work c) = concat (imap relation_slots rs) /\
  length (threshold_ledger c) = length (weight_table (work c)) /\
  (forall n s, listed (add_set (work c)) n s <->
     exists k r, rs !! k = Some r /\ ((s = 2 * k /\ n = r_src r) \/ (s = S (2 * k) /\ n = r_dst r))%nat).

Lemma concat_slots_length rs : length (concat (imap relation_slots rs)) = (2 * length rs)%nat.
Proof.
  induction rs as [|r rs IH] using rev_ind; [done|].
  rewrite imap_app, concat_app, !length_app, IH. cbn. lia.
Qed.

Lemma add_relation_shape c r s :
  mode c = 0x40 ->
  shape <$> weight_table (work (with_pair (r_src r) (r_dst r) (r_weight r) c)) !! s =
  shape <$> weight_table (work (add_relation c r)) !! s.
Proof.
  intros Hm. cbn. rewrite !lookup_app. destruct (weight_table (work c) !! s); [done|].
  destruct (s - length (weight_table (work c)))%nat as [|[|k]]; cbn; by rewrite ?Hm.
Qed.

Lemma add_relation_keeps c r n :
  graph_inv c -> mode c = 0x40 -> length (add_set (work c)) = n ->
  (r_src r < n)%nat -> (r_dst r < n)%nat ->
  graph_inv (add_relation c r) /\ mode (add_relation c r) = 0x40 /\
  length (add_set (work (add_relation c r))) = n.
Proof.
  intros Hinv Hm Hn Hs Hd. subst n. split; [|split; [done|]].
  - apply (graph_inv_shape (with_pair (r_src r) (r_dst r) (r_weight r) c)); try done.
    + intros s. by apply add_relation_shape.
    + by apply with_pair_inv.
  - unfold add_relation, link_pair, sub_push, add_push. cbn.
    rewrite !push_at_length; rewrite ?push_at_length; lia.
Qed.

Lemma add_relations_ok rs n c0 :
  registered n c0 -> relations_ok n rs ->
  let c := foldl add_relation c0 rs in
  graph_inv c /\ mode c = 0x40 /\ length (add_set (work c)) = n /\ built_from rs c /\
  free_node_slots c = free_node_slots c0 /\ mark_table c = mark_table c0 /\
  cand_tables c = cand_tables c0 /\ node_slots (work c) = node_slots (work c0) /\
  group_flags (work c) = group_flags (work c0) /\ snapshot_taken c = snapshot_taken c0.
Proof.
  intros Hreg. induction rs as [|r rs IH] using rev_ind; intros Hok c.
  - cbn in c. subst c. pose proof (registered_inv n c0 Hreg) as Hinv.
    destruct Hreg as (Hw & Hm & _ & _ & _ & _ & Hl & _).
    split; [done|]. split; [done|]. split; [cbn; by rewrite Hw; cbn; rewrite length_replicate|].
    split; [|done]. split; [cbn; by rewrite Hw|]. split; [cbn; by rewrite Hw, Hl|].
    intros m s. cbn. rewrite Hw. cbn. split.
    + intros (l & [-> _]%lookup_replicate & ?). set_solver.
    + intros (k & r & ? & _). done.
  - apply Forall_app in Hok as [Hok Hr]. apply Forall_cons in Hr as [[Hsrc Hdst] _].
    destruct (IH Hok) as (Hinv & Hm & Hn & (Hw & Hl & Hadd) & Hrest). clear IH.
    subst c. rewrite foldl_app. cbn [foldl]. set (c := foldl add_relation c0 rs) in *.
    destruct (add_relation_keeps c r n) as (Hinv' & Hm' & Hn'); [done..|].
    split; [done|]. split; [done|]. split; [done|]. split; [|done].
    assert (length (weight_table (work c)) = 2 * length rs)%nat as Hlen.
    { rewrite Hw. apply concat_slots_length. }
    split_and!.
    + assert (weight_table (work (add_relation c r)) =
              weight_table (work c) ++ relation_slots (length rs) r) as ->
        by (unfold relation_slots; by rewrite <-Hlen).
      rewrite Hw, imap_app, concat_app. cbn -[relation_slots]. by rewrite Nat.add_0_r, app_nil_r.
    + cbn. rewrite !length_app, Hl. done.
    + intros m s. unfold add_relation. rewrite Hlen. cbn [work set_threshold_ledger set_work].
      edestruct (link_pair_listed (r_src r) (r_dst r) (2 * length rs) (S (2 * length rs)))
        as (_ & _ & _ & -> & _); cbn; rewrite ?Hn; try done; [by rewrite (gi_lens c Hinv), Hn|].
      rewrite Hadd. split.
      * intros [[-> ->]|[[-> ->]|(k & r' & Hk & Hcase)]].
        -- exists (length rs), r. split; [by apply list_lookup_middle|by left].
        -- exists (length rs), r. split; [by apply list_lookup_middle|by right].
        -- exists k, r'. split; [by apply lookup_app_l_Some|done].
      * intros (k & r' & [Hk|[Hge Hk]]%lookup_app_Some & Hcase); [right; right; by exists k, r'|].
        apply list_lookup_singleton_Some in Hk as [Hk ->].
        assert (k = length rs) as -> by lia. naive_solver.
Qed.
(** [stcut_read_nodes] touches the candidate tables and the groups only. *)
Definition only_groups (c c' : StCutContext) : Prop :=
  exists rg ct gk, length ct = length (cand_tables c) /\
    c' = set_group_list_keys gk (set_relation_groups rg (set_cand_tables ct c)).

Lemma only_groups_trans c1 c2 c3 : only_groups c1 c2 -> only_groups c2 c3 -> only_groups c1 c3.
Proof.
  intros (rg & ct & gk & Hl & ->) (rg' & ct' & gk' & Hl' & ->). exists rg', ct', gk'.
  split; [by rewrite Hl'|done].
Qed.

Lemma read_group_ok n c kv :
  length (cand_tables c) = n -> exists c', read_group n c kv = Some c' /\ only_groups c c'.
Proof.
  intros Hn. unfold read_group. set (members := merge_sort le (filter (fun id => (id < n)%nat) kv.2)).
  destruct (foldM_total (fun (v : list (list nat)) (id : nat) => _ ← v !! id; Some (<[id := members]> v))
              (fun v => length v = n) members (cand_tables c)) as (v & Hv & Hlv); [|done|].
  - intros v id Hid Hv. assert (id < length v)%nat as [l Hl]%lookup_lt_is_Some_2.
    { unfold members in Hid. rewrite merge_sort_Permutation in Hid.
      apply list_elem_of_filter in Hid as [? _]. lia. }
    rewrite Hl. cbn. eexists. split; [done|]. by rewrite length_insert.
  - rewrite Hv. cbn. eexists. split; [done|]. eexists _, _, _. split; [|done]. congruence.
Qed.

Lemma read_nodes_ok c :
  length (cand_tables c) = node_count c -> exists c', read_nodes c = Some c' /\ only_groups c c'.
Proof.
  intros Hc. unfold read_nodes. case_match.
  - exists c. split; [done|]. exists (relation_groups c), (cand_tables c), (group_list_keys c). by destruct c.
  - destruct (foldM_total (read_group (node_count c))
      (fun c' => length (cand_tables c') = node_count c /\ only_groups c c')
      (relation_groups c) (set_relation_groups [] c)) as (c' & -> & _ & Hc'); [| |by exists c'].
    + intros x kv _ [Hx Hg]. destruct (read_group_ok _ x kv Hx) as (y & Hy & Hxy).
      exists y. split; [done|]. split; [|by eapply only_groups_trans].
      destruct Hxy as (? & ? & ? & Hl & ->). cbn. congruence.
    + split; [done|]. exists [], (cand_tables c), (group_list_keys c). by destruct c.
Qed.

(** [stcut_build_initial_state] accepts every graph whose relations name
    nodes of the graph.  It registers the nodes 0 to n - 1 in order, turns
    relation [k] into the slots [2k] and [2k + 1], lists them at its source
    and at its destination and nowhere else, and the result satisfies the
    edge invariant: the two halves of an edge name each other, exactly one
    carries bit 4, and each is listed once where the other one points. *)
Theorem build_initial_state_ok input :
  relations_ok (in_node_count input) (relations input) ->
  exists c, build_initial_state input = Some c /\ graph_inv c /\ built_from (relations input) c /\
    node_slots (work c) = Z.of_nat <$> seq 0 (in_node_count input) /\
    group_flags (work c) = replicate (in_node_count input) 0x40 /\
    mark_table c = replicate (in_node_count input) 0 /\
    length (cand_tables c) = in_node_count input /\
    bitmap c = replicate (words_for (length (weight_table (work c)))) 0 /\
    working_order c = initial_order input /\ mode c = 0 /\ free_node_slots c = [] /\
    snapshot_taken c = false.
Proof.
  intros Hok. unfold build_initial_state.
  destruct (register_all_ok (in_node_count input)) as (c0 & E & Hreg). rewrite E. cbn [mbind option_bind].
  assert (bitmap c0 = []) as Hbm0.
  { apply (foldM_keeps (fun c i => '(_, c) ← register_node (Z.of_nat i) 0 c; Some c)
             (fun c => bitmap c = []) (seq 0 (in_node_count input)) (set_mode 0x40 fresh_ctx) c0); [|done|done].
    intros x b y _ Hx. unfold register_node, register_reused. case_match; cbn; [by intros; simplify_eq|].
    intros H'. repeat (case_match; cbn in H'; try done). simplify_option_eq. done. }
  destruct (add_relations_ok (relations input) _ c0 Hreg Hok)
    as (Hinv & Hm & Hn & Hb & Hf & Hmk & Hcd & Hns & Hgf & Hsn).
  set (c := foldl add_relation c0 (relations input)) in *.
  assert (bitmap c = []) as Hbm.
  { unfold c. rewrite <-Hbm0. clear. generalize dependent c0. induction (relations input) as [|r rs IH]; [done|].
    intros c0. cbn [foldl]. by rewrite IH. }
  destruct Hreg as (Hw & Hm0 & Hf0 & _ & Hmk0 & Hcd0 & _ & Hsn0).
  edestruct (read_nodes_ok (set_relation_groups (groups input) (set_working_order (initial_order input)
    (set_bitmap (resize (words_for (length (weight_table (work c)))) 0 (bitmap c)) c)))) as (c' & E' & Hg).
  { unfold node_count. cbn. rewrite Hcd, Hcd0, Hns, Hw. cbn. by rewrite length_replicate, length_fmap, length_seq. }
  rewrite E'. cbn [mbind option_bind]. eexists. split; [done|].
  destruct Hg as (rg & ct & gk & Hlct & ->). cbn in Hlct |- *.
  split; [destruct Hinv as [? ? ? ? ? ? ? ? ?]; by split|].
  split; [done|]. rewrite Hns, Hgf, Hmk, Hf, Hw, Hsn, Hbm, Hlct, Hcd. cbn.
  rewrite resize_nil, Hcd0, length_replicate. done.
Qed.

Definition sample_graph : StCutGraphInput :=
  mkInput 3 [mkRelation 0 1 5 false; mkRelation 0 2 7 false; mkRelation 1 2 1 false] [0; 1; 2]%nat
    [(9, [2; 0; 7]%nat)].

Lemma build_initial_state_ok_witness :
  relations_ok 3 (relations sample_graph) /\
  exists c, build_initial_state sample_graph = Some c /\ graph_inv c /\ cand_tables c = [[0; 2]; []; [0; 2]]%nat.
Proof.
  assert (relations_ok 3 (relations sample_graph)) as H by (repeat constructor; cbn; lia).
  split; [exact H|]. destruct (build_initial_state_ok sample_graph H) as (c & E & Hinv & _).
  exists c. split; [exact E|]. split; [exact Hinv|]. vm_compute in E. injection E as <-. reflexivity.
Defined.
(** * Every operation keeps the edge invariant *)

Lemma resize_snoc {A} n (x : A) l : length l = n -> resize (S n) x l = l ++ [x].
Proof.
  intros Hl. rewrite resize_ge by lia. f_equal. by replace (S n - length l)%nat with 1%nat by lia.
Qed.

Lemma listed_snoc_nil v n s : listed (v ++ [[]]) n s <-> listed v n s.
Proof.
  split; intros (l & Hl & Hs).
  - apply lookup_app_Some in Hl as [Hl|[_ Hl]]; [by exists l|].
    apply list_lookup_singleton_Some in Hl as [_ <-]. set_solver.
  - exists l. split; [by apply lookup_app_l_Some|done].
Qed.

Lemma register_fresh_inv node fl c : graph_inv c -> graph_inv (register_fresh node fl c).2.
Proof.
  intros [Inodes Ilen Ifree Imode Iled Ipart Ind Iadd Isub].
  unfold register_fresh. split; cbn; rewrite ?length_app, ?length_resize; cbn; try done; try lia.
  - intros s sl Hsl. destruct (Ipart s sl Hsl) as [? ?]. split; [lia|done].
  - intros n l. rewrite !resize_snoc by congruence.
    intros [Hl|Hl]; apply lookup_app_Some in Hl as [Hl|[_ Hl]]; try (by eapply Ind; eauto);
      apply list_lookup_singleton_Some in Hl as [_ <-]; constructor.
  - intros n s. rewrite !resize_snoc by congruence. rewrite listed_snoc_nil. intros Hn.
    destruct (Iadd n s Hn) as (sl & pl & ? & ? & ? & ? & ?). exists sl, pl.
    by rewrite !listed_snoc_nil.
  - intros n s. rewrite !resize_snoc by congruence. rewrite listed_snoc_nil. apply Isub.
Qed.

Lemma replay_apply_inv log c :
  graph_inv c -> Forall (fun r => rp_type r = 0 \/ rp_type r = 2) log ->
  exists t, replay_apply log (work c) = Some t /\ graph_inv (set_work t c) /\
    length (add_set t) = length (add_set (work c)).
Proof.
  intros Hinv Hlog. unfold replay_apply.
  apply (foldM_total replay_one (fun t => graph_inv (set_work t c) /\ length (add_set t) = length (add_set (work c)))).
  - intros t r Hr [Ht Hl]. destruct (replay_one_inv (set_work t c) r Ht) as (t' & E & Ht' & Hl').
    + rewrite Forall_forall in Hlog. apply Hlog. by rewrite <-elem_of_reverse.
    + exists t'. split; [done|]. split; [done|]. cbn in Hl'. congruence.
  - split; [by destruct c|done].
Qed.

(** The operations that change the edges, as steps. *)
Inductive graph_step (c : StCutContext) : StCutContext -> Prop :=
| step_connect src dst thr cb e c' cb' :
    (src < length (add_set (work c)))%nat -> (dst < length (add_set (work c)))%nat ->
    connect_nodes src dst thr cb c = Some (e, c', cb') -> graph_step c c'
| step_remove s replay t cb' :
    remove_edge s replay (work c) = Some (t, cb') -> graph_step c (set_work t c)
| step_replay log t :
    Forall (fun r => rp_type r = 0 \/ rp_type r = 2) log ->
    replay_apply log (work c) = Some t -> graph_step c (set_work t c)
| step_register node fl s c' :
    free_node_slots c = [] -> register_node node fl c = Some (s, c') -> graph_step c c'.

Lemma graph_step_inv c c' : graph_inv c -> graph_step c c' -> graph_inv c'.
Proof.
  intros Hinv [src dst thr cb e c1 cb' Hs Hd E|s replay t cb' E|log t Hlog E|node fl s c1 Hf E].
  - destruct (connect_spec c src dst thr cb) as (? & ? & ? & E' & ? & _); [done..|]. congruence.
  - unfold remove_edge in E. destruct (weight_table (work c) !! s) as [sl|] eqn:Hsl; [|done].
    destruct (remove_edge_spec c s replay sl Hinv Hsl) as (t' & E' & ? & _).
    unfold remove_edge in E'. rewrite Hsl in E'. congruence.
  - destruct (replay_apply_inv log c Hinv Hlog) as (t' & E' & ? & _). congruence.
  - unfold register_node in E. rewrite Hf, bool_decide_true, orb_true_r in E by done.
    injection E as _ <-. by apply register_fresh_inv.
Qed.

(** The edge invariant holds after building the tables and after any
    sequence of connecting nodes, removing edges, replaying the ledger of a
    trial and registering nodes: no operation leaves one half of an edge
    without the other, lists a slot twice or lists it at a foreign node. *)
Theorem edges_stay_paired input c c' :
  relations_ok (in_node_count input) (relations input) ->
  build_initial_state input = Some c -> rtc graph_step c c' -> graph_inv c'.
Proof.
  intros Hok E Hsteps. destruct (build_initial_state_ok input Hok) as (c0 & E' & Hinv & _).
  assert (c0 = c) as -> by congruence. clear E E'. revert Hinv.
  induction Hsteps as [|c1 c2 c3 Hstep _ IH]; [done|]. intros Hinv. by eapply IH, graph_step_inv.
Qed.

Definition run_connects (es : list (nat * nat)) (c : StCutContext)
    : option (StCutContext * option (list StCutReplayRec)) :=
  foldM (fun '(c, cb) '(s, d) => '(_, c, cb) ← connect_nodes s d STCUT_MAX_WEIGHT cb c; Some (c, cb))
    es (c, Some []).

Lemma edges_stay_paired_witness :
  exists c e c' cb', build_initial_state sample_graph = Some c /\
    connect_nodes 2 1 4 None c = Some (e, c', cb') /\ graph_inv c'.
Proof.
  destruct (build_initial_state sample_graph) as [c|] eqn:E; [|by vm_compute in E].
  destruct (connect_nodes 2 1 4 None c) as [[[e c'] cb']|] eqn:E'.
  - exists c, e, c', cb'. split; [reflexivity|]. split; [exact E'|].
    assert (relations_ok 3 (relations sample_graph)) as H by (repeat constructor; cbn; lia).
    apply (edges_stay_paired sample_graph c c' H E). apply rtc_once.
    apply (step_connect c 2 1 4 None e c' cb'); [| |exact E'];
      vm_compute in E; injection E as <-; cbn; lia.
  - exfalso. vm_compute in E. injection E as <-. by vm_compute in E'.
Defined.

(** The ledger of a trial does not reach the subtract lists: record type 2
    looks for each half at the node where the other half is listed. *)
Definition chain_graph : StCutGraphInput := mkInput 3 [mkRelation 0 1 5 false] [0; 1; 2]%nat [].

Definition subtract_around_trial : option (list (list nat) * list (list nat)) :=
  c ← build_initial_state chain_graph;
  '(c', cb) ← run_connects [(1, 2)]%nat c;
  t ← replay_apply (default [] cb) (work c');
  Some (subtract_set (work c), subtract_set t).

(** A trial edge that is undone leaves its two slots in the subtract
    lists: after connecting node 1 to node 2 and replaying the trial's
    ledger, both nodes list one slot more than before the trial. *)
Theorem replay_keeps_subtract_entries :
  subtract_around_trial = Some ([[1]; [0]; []], [[1]; [0; 3]; [2]])%nat.
Proof. vm_compute. reflexivity. Qed.
