(* ===== verification/StCutFlow.v ===== *)
(** The flow part of [src/compiler/src/scheduler/st_cut.cpp]: the flood that
    collects slots with room, the pull that moves weight along them, the
    driver that alternates both, the batch of trial edges around it and the
    migration walk of one cut.  The ledger of the code is an array of
    unsigned words; the theorems read it as a flow.  [stcut_iterate] carries
    its own bound on the number of rounds, which is the fuel used here; the
    flood, the pull and the walk discover a node in every round, so the
    number of nodes is enough. *)
From S2P Require Import Prelude StCutGraph.

Definition STCUT_BATCH_CAP : Z := 100000000.
Definition STCUT_SMALL_STEP : Z := 10000.

(** * The bit map over the slots, in words of 32 bits *)

Definition bit_test (bm : list Z) (s : nat) : bool :=
  match bm !! (s / 32)%nat with
  | Some w => Z.testbit w (Z.of_nat (s mod 32))
  | None => false
  end.

Definition bit_mark (s : nat) (bm : list Z) : option (list Z) :=
  w ← bm !! (s / 32)%nat;
  Some (<[(s / 32)%nat := Z.lor w (Z.shiftl 1 (Z.of_nat (s mod 32)))]> bm).

Definition bit_clear (s : nat) (bm : list Z) : list Z :=
  alter (fun w => Z.ldiff w (Z.shiftl 1 (Z.of_nat (s mod 32)))) (s / 32)%nat bm.

(** * The flood *)

(** What the flood writes: marks, bits, the counter of inner loops, the next
    frontier, the number of slots it collected, whether it met the target. *)
Record Flood := mkFlood {
  fl_marks : list Z;
  fl_bits : list Z;
  fl_loops : Z;
  fl_result : list nat;
  fl_count : Z;
  fl_touched : bool
}.

Section flood.
Context (t : Tables) (ledger : list Z) (target : nat).

Definition flood_edge (f : Flood) (e : nat) : option Flood :=
  let f := mkFlood (fl_marks f) (fl_bits f) (u64 (fl_loops f + 1)) (fl_result f) (fl_count f) (fl_touched f) in
  sl ← weight_table t !! e;
  let n := canon sl in
  m ← fl_marks f !! n;
  if negb (m =? 0) then Some f
  else
    led ← ledger !! e;
    if weight sl <=? led then Some f
    else
      g ← group_flags t !! n;
      if negb (Z.land g 2 =? 0) && negb (n =? target)%nat then Some f
      else
        bits ← bit_mark e (fl_bits f);
        Some (mkFlood (<[n := 1]> (fl_marks f)) bits (fl_loops f) (fl_result f ++ [n])
                (u64 (fl_count f + 1)) (fl_touched f || (n =? target)%nat)).

Definition flood_node (generation : Z) (f : Flood) (n : nat) : option Flood :=
  m ← fl_marks f !! n;
  if negb (m =? 1) then Some f
  else
    let f := mkFlood (<[n := u16 generation]> (fl_marks f)) (fl_bits f) (fl_loops f)
               (fl_result f) (fl_count f) (fl_touched f) in
    l ← add_set t !! n;
    foldM flood_edge l f.

Definition clear_result (f : Flood) : Flood :=
  mkFlood (fl_marks f) (fl_bits f) (fl_loops f) [] (fl_count f) (fl_touched f).

Fixpoint flood_generations (fuel : nat) (generation : Z) (frontier : list nat) (f : Flood)
    : option Flood :=
  match frontier with
  | [] => Some f
  | _ =>
      match fuel with
      | O => None
      | S fuel =>
          f ← foldM (flood_node generation) frontier (clear_result f);
          if fl_touched f then Some f
          else flood_generations fuel (u32 (generation + 1)) (fl_result f) f
      end
  end.
End flood.

Definition flood_collect (seed target : nat) (c : StCutContext) : option (Z * StCutContext) :=
  let marks := replicate (length (mark_table c)) 0 in
  let bits := replicate (length (bitmap c)) 0 in
  _ ← marks !! seed;
  f ← flood_generations (work c) (threshold_ledger c) target (S (length marks)) 2 [seed]
        (mkFlood (<[seed := 1]> marks) bits (inner_loop_count c) [] 0 false);
  Some (fl_count f,
        set_mark_table (fl_marks f) (set_bitmap (fl_bits f) (set_inner_loop_count (fl_loops f) c))).

(** * Moving weight along the flooded slots *)

Section pull.
Context (t : Tables) (target : nat).

(** The loop of [stcut_weight_pull] over the slots of one node; [pull] is
    the recursive call. *)
Fixpoint pull_members (pull : nat -> Z -> list Z * list Z -> option (Z * (list Z * list Z)))
    (l : list nat) (acc cap : Z) (lb : list Z * list Z) : option (Z * (list Z * list Z)) :=
  match l with
  | [] => Some (acc, lb)
  | e :: l =>
      if negb (bit_test lb.2 e) then pull_members pull l acc cap lb
      else
        sl ← weight_table t !! e;
        led ← lb.1 !! e;
        let avail := u64 (weight sl - led) in
        let step := if cap <=? avail then cap else avail in
        '(got, lb) ← pull (canon sl) step lb;
        if got =? 0 then pull_members pull l acc cap (lb.1, bit_clear e lb.2)
        else
          _ ← lb.1 !! idx sl;
          let ledger := alter (fun x => u64 (x + got)) e lb.1 in
          let ledger := alter (fun x => u64 (x - got)) (idx sl) ledger in
          let acc := u64 (acc + got) in
          if step <? STCUT_SMALL_STEP then Some (acc, (ledger, lb.2))
          else
            let cap := u64 (cap - got) in
            if cap =? 0 then Some (acc, (ledger, lb.2))
            else pull_members pull l acc cap (ledger, lb.2)
  end.

Fixpoint weight_pull (fuel : nat) (seed : nat) (cap : Z) (lb : list Z * list Z)
    : option (Z * (list Z * list Z)) :=
  match fuel with
  | O => None
  | S fuel =>
      if (seed =? target)%nat then Some (cap, lb)
      else
        match add_set t !! seed with
        | None | Some [] => Some (0, lb)
        | Some l => pull_members (weight_pull fuel) l 0 cap lb
        end
  end.
End pull.

Definition pull_once (seed target : nat) (c : StCutContext) : option (Z * StCutContext) :=
  '(n, (ledger, bits)) ← weight_pull (work c) target (S (length (mark_table c))) seed STCUT_MAX_WEIGHT
                           (threshold_ledger c, bitmap c);
  Some (n, set_bitmap bits (set_threshold_ledger ledger c)).

(** Loop A of [stcut_iterate]; [guard] is the code's own bound. *)
Fixpoint pull_loop (fuel : nat) (seed target guard_cap guard : nat) (total : Z) (c : StCutContext)
    : option (nat * Z * StCutContext) :=
  match fuel with
  | O => None
  | S fuel =>
      let guard := S guard in
      if (guard_cap <? guard)%nat then Some (guard, total, c)
      else
        '(n, c) ← pull_once seed target c;
        let total := u64 (total + n) in
        if n =? 0 then Some (guard, total, c)
        else pull_loop fuel seed target guard_cap guard total c
  end.

Fixpoint iterate_loop (fuel : nat) (seed target guard_cap guard : nat) (total : Z) (c : StCutContext)
    : option (Z * StCutContext) :=
  match fuel with
  | O => None
  | S fuel =>
      '(guard, total, c) ← pull_loop (S guard_cap) seed target guard_cap guard total c;
      if (guard_cap <? guard)%nat then Some (total, c)
      else
        '(r, c) ← flood_collect seed target c;
        if r =? 0 then Some (total, c)
        else iterate_loop fuel seed target guard_cap guard total c
  end.

Definition iterate (seed target : nat) (c : StCutContext) : option (Z * StCutContext) :=
  let c := set_call_count (u64 (call_count c + 1)) c in
  let c := set_threshold_ledger (replicate (length (threshold_ledger c)) 0) c in
  '(r, c) ← flood_collect seed target c;
  if r =? 0 then Some (0, c)
  else
    let guard_cap := (4 * length (weight_table (work c)) + 64)%nat in
    iterate_loop (S guard_cap) seed target guard_cap 0 0 c.

(** * One trial cut *)

Definition Trial : Type := StCutContext * list StCutReplayRec.

(** [stcut_connect_nodes] with the sentinel weight and the trial's ledger. *)
Definition trial_connect (src dst : nat) (tr : Trial) : option Trial :=
  '(_, c, cb) ← connect_nodes src dst STCUT_MAX_WEIGHT (Some tr.2) tr.1;
  log ← cb;
  Some (c, log).

Definition batch_edges (arg2 arg3 arg4 : nat) (v5 v6 : list nat) (tr : Trial) : option Trial :=
  tr ← trial_connect arg2 arg4 tr;
  snapshot ← add_set (work tr.1) !! arg4;
  tr ← foldM (fun tr rel =>
                sl ← weight_table (work tr.1) !! rel;
                if negb (Z.land (flags sl) 4 =? 0) then Some tr
                else if (canon sl =? arg3)%nat then Some tr
                else trial_connect (canon sl) arg3 tr) snapshot tr;
  tr ← foldM (fun tr e => trial_connect arg2 e tr) v5 tr;
  foldM (fun tr e => trial_connect e arg3 tr) v6 tr.

Definition batch_accounting (arg2 arg3 arg4 : nat) (v5 v6 : list nat) (tr : Trial)
    : option (Z * Trial) :=
  tr ← batch_edges arg2 arg3 arg4 v5 v6 tr;
  '(total, c) ← iterate arg2 arg3 tr.1;
  Some (total, (c, tr.2)).

(** The state of the migration walk: marks, owners, the migrated nodes, the
    next layer. *)
Record Walk := mkWalk { w_marks : list Z; w_owner : list Z; w_out : list nat; w_next : list nat }.

Section walk.
Context (t : Tables) (ledger : list Z) (seed : nat) (new_id : Z).

Definition walk_edge (w : Walk) (rel : nat) : option Walk :=
  sl ← weight_table t !! rel;
  let push :=
    g ← group_flags t !! canon sl;
    if negb (Z.land g 3 =? 0) then Some w
    else
      m ← w_marks w !! canon sl;
      if negb (m =? 0) then Some w
      else Some (mkWalk (<[canon sl := 1]> (w_marks w)) (w_owner w) (w_out w) (w_next w ++ [canon sl])) in
  if negb (Z.land (flags sl) 4 =? 0) then
    psl ← weight_table t !! idx sl;
    led ← ledger !! idx sl;
    if negb (led <? weight psl) then Some w else push
  else push.

Definition take_over (n : nat) (w : Walk) : Walk :=
  if negb (n =? seed)%nat && (n <? length (w_owner w))%nat
  then mkWalk (w_marks w) (<[n := new_id]> (w_owner w)) (w_out w ++ [n]) (w_next w)
  else w.

Definition walk_node (w : Walk) (n : nat) : option Walk :=
  l ← add_set t !! n;
  foldM walk_edge l (take_over n w).

Fixpoint walk_layers (fuel : nat) (worklist : list nat) (w : Walk) : option Walk :=
  match worklist with
  | [] => Some w
  | _ =>
      match fuel with
      | O => None
      | S fuel =>
          w ← foldM walk_node worklist (mkWalk (w_marks w) (w_owner w) (w_out w) []);
          walk_layers fuel (w_next w) w
      end
  end.
End walk.

(** The partner slots of the edges with bit 4 that leave the new record. *)
Definition export_rels (t : Tables) (owner : list Z) (new_id : Z) (l : list nat) (acc : list nat)
    : option (list nat) :=
  foldM (fun acc rel =>
           sl ← weight_table t !! rel;
           if Z.land (flags sl) 4 =? 0 then Some acc
           else if match owner !! canon sl with Some o => negb (o =? new_id) | None => true end
                then Some (acc ++ [idx sl]) else Some acc) l acc.

(** The outcome of a cut: the estimate, the migrated nodes, the exported
    slots and the context. *)
Definition cut_execute (add_entry seed cursor : nat) (new_id : Z) (before after : list nat)
    (c : StCutContext) : option (Z * list nat * list nat * StCutContext) :=
  '(est, (c, log)) ← batch_accounting add_entry seed cursor before after (c, []);
  '(est, (c, log)) ←
    (if STCUT_BATCH_CAP <=? est then
       t ← replay_apply log (work c);
       batch_accounting add_entry seed cursor [] [] (set_work t c, [])
     else Some (est, (c, log)));
  let marks := replicate (length (mark_table c)) 0 in
  w ← walk_layers (work c) (threshold_ledger c) seed new_id (S (length marks)) [seed]
        (mkWalk marks (ownership c) [] []);
  t ← replay_apply log (work c);
  let c := set_work t (set_mark_table (w_marks w) (set_ownership (w_owner w) c)) in
  l ← add_set (work c) !! seed;
  ex ← export_rels (work c) (w_owner w) new_id l [];
  ex ← foldM (fun acc n => l ← add_set (work c) !! n; export_rels (work c) (w_owner w) new_id l acc)
         (w_out w) ex;
  Some (est, w_out w, ex, c).
(** * The bit map *)

Lemma bit_mark_ok s bm :
  (s / 32 < length bm)%nat -> exists bm', bit_mark s bm = Some bm' /\ length bm' = length bm /\
    forall s', bit_test bm' s' = bit_test bm s' || bool_decide (s' = s).
Proof.
  intros [w Hw]%lookup_lt_is_Some_2. unfold bit_mark. rewrite Hw. cbn. eexists. split; [done|].
  split; [by rewrite length_insert|]. intros s'. unfold bit_test.
  destruct (decide (s' / 32 = s / 32)%nat) as [E|E].
  - rewrite E, list_lookup_insert_eq by (by eapply lookup_lt_Some). rewrite Hw.
    rewrite Z.lor_spec, Z.shiftl_1_l. f_equal. rewrite Z.pow2_bits_eqb by lia.
    pose proof (Nat.div_mod_eq s 32). pose proof (Nat.div_mod_eq s' 32).
    case_bool_decide as Hs; [subst; by apply Z.eqb_refl|]. apply Z.eqb_neq. intros Hm%Nat2Z.inj. change (s mod 32 = s' mod 32)%nat in Hm. congruence.
  - rewrite list_lookup_insert_ne by done.
    rewrite bool_decide_false by (by intros ->). by rewrite orb_false_r.
Qed.

Lemma bit_clear_test s bm s' : bit_test (bit_clear s bm) s' = true -> bit_test bm s' = true.
Proof.
  unfold bit_test, bit_clear. destruct (decide (s' / 32 = s / 32)%nat) as [E|E].
  - rewrite E, list_lookup_alter_eq. destruct (bm !! (s / 32)%nat) as [w|]; [|done]. cbn.
    rewrite Z.ldiff_spec. by intros [? _]%andb_true_iff.
  - by rewrite list_lookup_alter_ne.
Qed.

Lemma bit_test_zeros n s : bit_test (replicate n 0) s = false.
Proof.
  unfold bit_test. destruct (replicate n 0 !! (s / 32)%nat) eqn:E; [|done].
  apply lookup_replicate in E as [-> _]. by rewrite Z.testbit_0_l.
Qed.

Lemma word_bound s n b : (s < n)%nat -> (n <= 32 * b)%nat -> (s / 32 < b)%nat.
Proof. intros. apply Nat.Div0.div_lt_upper_bound; lia. Qed.

(** * What the flood finds *)

(** [x] was discovered before [y]. *)
Definition before (disc : list nat) (x y : nat) : Prop :=
  exists i j, disc !! i = Some x /\ disc !! j = Some y /\ (i < j)%nat.

Lemma before_app disc k x y : before disc x y -> before (disc ++ k) x y.
Proof. intros (i & j & ? & ? & ?). exists i, j. split_and!; try done; by apply lookup_app_l_Some. Qed.

(** The tables that a flood needs: every listed slot exists and points to a
    node, and all per-node and per-slot tables are long enough. *)
Record floodable (t : Tables) (ledger : list Z) (nbits : nat) : Prop := {
  fb_slot n s : listed (add_set t) n s ->
    exists sl, weight_table t !! s = Some sl /\ (canon sl < length (add_set t))%nat;
  fb_flags : length (group_flags t) = length (add_set t);
  fb_ledger : (length (weight_table t) <= length ledger)%nat;
  fb_bits : (length (weight_table t) <= 32 * nbits)%nat;
  fb_host n m s : listed (add_set t) n s -> listed (add_set t) m s -> n = m
}.

Definition layered (t : Tables) (bits : list Z) (disc : list nat) : Prop :=
  forall n s sl, listed (add_set t) n s -> weight_table t !! s = Some sl -> bit_test bits s = true ->
    before disc n (canon sl).

Section flood.
Context (t : Tables) (ledger : list Z) (target nbits nmarks : nat).
Context (Hfb : floodable t ledger nbits).
Context (Hmarks : (length (add_set t) <= nmarks)%nat) (Hsmall : Z.of_nat nmarks + 4 < 2 ^ 16).
#[local] Notation N := (length (add_set t)).

Record flood_inv (f : Flood) (disc : list nat) : Prop := {
  fi_nodup : NoDup disc;
  fi_marks : length (fl_marks f) = nmarks;
  fi_node n : n ∈ disc -> (n < N)%nat;
  fi_disc n : n ∈ disc <-> exists m, fl_marks f !! n = Some m /\ m <> 0;
  fi_bits : length (fl_bits f) = nbits;
  fi_layered : layered t (fl_bits f) disc;
  fi_count : fl_count f = Z.of_nat (length disc) - 1
}.

Lemma disc_bound f disc : flood_inv f disc -> (length disc <= nmarks)%nat.
Proof.
  intros Hi. rewrite <-(length_seq nmarks 0). apply submseteq_length, NoDup_submseteq; [apply Hi|].
  intros n (m & Hm & _)%(fi_disc f disc Hi). apply elem_of_seq. apply lookup_lt_Some in Hm.
  rewrite (fi_marks f disc Hi) in Hm. lia.
Qed.

Lemma flood_edge_ok f disc r n e :
  flood_inv f (disc ++ r) -> fl_result f = r -> listed (add_set t) n e -> n ∈ disc ++ r ->
  exists f' r', flood_edge t ledger target f e = Some f' /\ flood_inv f' (disc ++ r') /\
    fl_result f' = r' /\ r `prefix_of` r'.
Proof.
  intros Hi Hr He Hn. destruct (fb_slot _ _ _ Hfb n e He) as (sl & Hsl & Hc).
  pose proof (lookup_lt_Some _ _ _ Hsl) as Hlt.
  unfold flood_edge. rewrite Hsl. cbn [mbind option_bind fl_marks fl_bits fl_result].
  destruct (lookup_lt_is_Some_2 (fl_marks f) (canon sl)) as [m Hm]; [rewrite (fi_marks _ _ Hi); lia|].
  rewrite Hm. cbn [mbind option_bind].
  assert (forall loops, exists f' r', Some (mkFlood (fl_marks f) (fl_bits f) loops (fl_result f) (fl_count f) (fl_touched f)) = Some f' /\
            flood_inv f' (disc ++ r') /\ fl_result f' = r' /\ r `prefix_of` r') as Hsame.
  { intros loops. eexists _, r. split; [done|]. split; [by destruct Hi|]. done. }
  destruct (Z.eqb_spec m 0) as [->|Hm0]; cbn [negb]; [|apply Hsame].
  destruct (lookup_lt_is_Some_2 ledger e) as [led Hled]; [pose proof (fb_ledger _ _ _ Hfb); lia|].
  rewrite Hled. cbn [mbind option_bind]. destruct (weight sl <=? led); [apply Hsame|].
  destruct (lookup_lt_is_Some_2 (group_flags t) (canon sl)) as [g Hg]; [by rewrite (fb_flags _ _ _ Hfb)|].
  rewrite Hg. cbn [mbind option_bind]. case_match; [apply Hsame|].
  destruct (bit_mark_ok e (fl_bits f)) as (bm & Hbm & Hlbm & Htest).
  { rewrite (fi_bits _ _ Hi). eapply word_bound; [done|apply Hfb]. }
  rewrite Hbm. cbn [mbind option_bind]. eexists _, (r ++ [canon sl]). split; [done|].
  assert (canon sl ∉ disc ++ r) as Hnew.
  { intros (m & Hm' & ?)%(fi_disc _ _ Hi). congruence. }
  split; [|split; [cbn; by rewrite Hr|by eexists]].
  rewrite app_assoc. split; cbn.
  - apply NoDup_app. split_and!; [apply Hi| |apply NoDup_singleton].
    intros x Hx ->%list_elem_of_singleton. done.
  - by rewrite length_insert, (fi_marks _ _ Hi).
  - intros x [Hx| ->%list_elem_of_singleton]%elem_of_app; [by eapply fi_node|done].
  - intros x. rewrite elem_of_app, (fi_disc _ _ Hi), list_elem_of_singleton.
    destruct (decide (x = canon sl)) as [->|].
    + split; [intros _|by right]. exists 1. by rewrite list_lookup_insert_eq by (rewrite (fi_marks _ _ Hi); lia).
    + rewrite list_lookup_insert_ne by done. naive_solver.
  - by rewrite Hlbm, (fi_bits _ _ Hi).
  - intros x s sl' Hls Hs. rewrite Htest. intros [Hb|Hb]%orb_true_iff.
    + by eapply before_app, (fi_layered _ _ Hi).
    + apply bool_decide_eq_true in Hb as ->. assert (x = n) as -> by (by eapply (fb_host _ _ _ Hfb)).
      assert (sl' = sl) as -> by congruence.
      apply list_elem_of_lookup in Hn as [i Hi']. exists i, (length (disc ++ r)).
      split_and!; [by apply lookup_app_l_Some|by apply list_lookup_middle|by eapply lookup_lt_Some].
  - rewrite (fi_count _ _ Hi). pose proof (disc_bound _ _ Hi).
    rewrite (length_app (disc ++ r)). cbn [length]. unwrap. lia.
Qed.

Lemma flood_node_ok gen f disc r n :
  flood_inv f (disc ++ r) -> fl_result f = r -> n ∈ disc ++ r -> u16 gen <> 0 ->
  exists f' r', flood_node t ledger target gen f n = Some f' /\ flood_inv f' (disc ++ r') /\
    fl_result f' = r' /\ r `prefix_of` r'.
Proof.
  intros Hi Hr Hn Hgen. unfold flood_node.
  pose proof Hn as (m & Hm & Hm0)%(fi_disc _ _ Hi). rewrite Hm. cbn [mbind option_bind].
  case_match; [by exists f, r|].
  assert (n < N)%nat as HnN by (by eapply fi_node).
  destruct (lookup_lt_is_Some_2 (add_set t) n HnN) as [l Hl]. rewrite Hl. cbn [mbind option_bind].
  destruct (foldM_total (flood_edge t ledger target)
    (fun f => exists r', flood_inv f (disc ++ r') /\ fl_result f = r' /\ r `prefix_of` r') l
    (mkFlood (<[n:=u16 gen]> (fl_marks f)) (fl_bits f) (fl_loops f) (fl_result f) (fl_count f) (fl_touched f)))
    as (f' & Hf' & r' & ? & ? & ?); [| |by exists f', r'].
  - intros x e He (r' & Hx & Hxr & Hpre). destruct (flood_edge_ok x disc r' n e) as (y & r'' & ? & ? & ? & ?);
      try done; [by exists l| |].
    + destruct Hpre as [k ->]. rewrite app_assoc. apply elem_of_app. by left.
    + exists y. split; [done|]. exists r''. split_and!; try done. by etrans.
  - exists r. split; [|by rewrite <-Hr]. destruct Hi as [? Hlm Hnode Hd ? ? ?]. split; cbn; try done.
    + by rewrite length_insert.
    + intros x. rewrite Hd. destruct (decide (x = n)) as [->|]; [|by rewrite list_lookup_insert_ne].
      rewrite list_lookup_insert_eq by lia. split; [by eexists|]. intros _. by exists m.
Qed.

(** Every generation that does not end the flood discovers a node. *)
Lemma flood_generations_ok fuel gen frontier f disc :
  flood_inv f disc -> (forall n, n ∈ frontier -> n ∈ disc) ->
  (nmarks < fuel + length disc)%nat -> 2 <= gen <= 1 + Z.of_nat (length disc) ->
  exists f' disc', flood_generations t ledger target fuel gen frontier f = Some f' /\
    flood_inv f' disc' /\ disc `prefix_of` disc'.
Proof.
  revert gen frontier f disc. induction fuel as [|fuel IH]; intros gen frontier f disc Hi Hfr Hfuel Hgen.
  { pose proof (disc_bound _ _ Hi). lia. }
  cbn. destruct frontier as [|n0 fr]; [by exists f, disc|].
  pose proof (disc_bound _ _ Hi) as Hb.
  assert (u16 gen <> 0) as Hg0 by (unwrap; lia).
  destruct (foldM_total (flood_node t ledger target gen)
    (fun f => exists r', flood_inv f (disc ++ r') /\ fl_result f = r') (n0 :: fr) (clear_result f))
    as (f1 & -> & r & Hi1 & Hr).
  - intros x n Hn (r & Hx & Hxr).
    destruct (flood_node_ok gen x disc r n) as (y & r' & ? & ? & ? & _); try done.
    + apply elem_of_app. left. by apply Hfr.
    + exists y. split; [done|]. by exists r'.
  - exists []. rewrite app_nil_r. split; [by destruct Hi|done].
  - cbn [mbind option_bind]. case_match; [exists f1, (disc ++ r); split_and!; [done..|by eexists]|].
    destruct r as [|x r].
    { rewrite Hr. destruct fuel; cbn; exists f1, (disc ++ []); split_and!; try done; by eexists. }
    destruct (IH (u32 (gen + 1)) (fl_result f1) f1 (disc ++ x :: r)) as (f2 & disc2 & ? & ? & Hpre); [done| | | |].
    + rewrite Hr. intros n Hn. apply elem_of_app. by right.
    + rewrite length_app. cbn. lia.
    + rewrite length_app. cbn [length]. unwrap. lia.
    + exists f2, disc2. split_and!; try done. etrans; [|done]. by eexists.
Qed.
End flood.
(** * The ledger as a flow *)

(** A ledger entry read as a signed number. *)
Definition sv (f : Z) : Z := if f <? 2 ^ 63 then f else f - 2 ^ 64.

Definition val (ledger : list Z) (s : nat) : Z := sv (default 0 (ledger !! s)).

(** The two halves of an edge carry opposite amounts, and none more than its
    weight. *)
Definition flow_ok (t : Tables) (ledger : list Z) : Prop :=
  forall s sl, weight_table t !! s = Some sl ->
    exists f g, ledger !! s = Some f /\ ledger !! idx sl = Some g /\ in_u64 f /\
      sv f + sv g = 0 /\ sv f <= weight sl.

(** What leaves a node. *)
Definition excess (t : Tables) (ledger : list Z) (n : nat) : Z :=
  sum_by (val ledger) (default [] (add_set t !! n)).

Lemma sum_by_update {A} `{EqDecision A} (f g : A -> Z) l e d :
  NoDup l -> (forall x, x <> e -> g x = f x) -> g e = f e + d ->
  sum_by g l = sum_by f l + (if decide (e ∈ l) then d else 0).
Proof.
  intros Hnd Hne He. induction l as [|x l IH]; [done|].
  apply NoDup_cons in Hnd as [Hx Hnd]. specialize (IH Hnd). unfold sum_by in *. cbn [foldr]. rewrite IH.
  destruct (decide (x = e)) as [->|Hxe].
  - rewrite He, (decide_False (P := e ∈ l)), decide_True by (done || by left). lia.
  - rewrite Hne by done.
    destruct (decide (e ∈ l)); [rewrite decide_True by (by right)|rewrite decide_False by set_solver]; lia.
Qed.

Lemma sv_add f d : in_u64 f -> - 2 ^ 63 <= sv f + d < 2 ^ 63 -> sv (u64 (f + d)) = sv f + d.
Proof.
  unfold sv. intros Hf Hd. destruct (Z.ltb_spec f (2 ^ 63)).
  - destruct (Z.le_gt_cases 0 (f + d)).
    + unfold wrap. rewrite Z.mod_small by lia. rewrite (proj2 (Z.ltb_lt _ _)) by lia. done.
    + assert (u64 (f + d) = f + d + 2 ^ 64) as ->.
      { unfold wrap. symmetry. apply (Z.mod_unique_pos _ _ (-1)); lia. }
      rewrite (proj2 (Z.ltb_ge _ _)) by lia. lia.
  - destruct (Z.lt_ge_cases (f + d) (2 ^ 64)).
    + unfold wrap. rewrite Z.mod_small by lia. rewrite (proj2 (Z.ltb_ge _ _)) by lia. lia.
    + assert (u64 (f + d) = f + d - 2 ^ 64) as ->.
      { unfold wrap. symmetry. apply (Z.mod_unique_pos _ _ 1); lia. }
      rewrite (proj2 (Z.ltb_lt _ _)) by lia. lia.
Qed.

Lemma sv_range f : in_u64 f -> - 2 ^ 63 <= sv f < 2 ^ 63.
Proof. unfold sv. intros. destruct (Z.ltb_spec f (2 ^ 63)); lia. Qed.

(** The subtraction [weight - ledger] of the code is the residual capacity,
    also where the ledger has wrapped below zero. *)
Lemma residual_u64 w f : in_u64 f -> 0 <= w < 2 ^ 62 -> - 2 ^ 62 < sv f <= w -> u64 (w - f) = w - sv f.
Proof.
  unfold sv. intros Hf Hw Hs. destruct (Z.ltb_spec f (2 ^ 63)); unfold wrap.
  - rewrite Z.mod_small; lia.
  - symmetry. apply (Z.mod_unique_pos _ _ (-1)); lia.
Qed.

Lemma val_alter_ne ledger e d s : s <> e -> val (alter (fun x => u64 (x + d)) e ledger) s = val ledger s.
Proof. intros. unfold val. by rewrite list_lookup_alter_ne. Qed.

Lemma val_alter_eq ledger e d f :
  ledger !! e = Some f -> in_u64 f -> - 2 ^ 63 <= sv f + d < 2 ^ 63 ->
  val (alter (fun x => u64 (x + d)) e ledger) e = val ledger e + d.
Proof. intros He Hf Hd. unfold val. rewrite list_lookup_alter_eq, He. cbn. by apply sv_add. Qed.

(** What is moved over an edge leaves the node of one half and enters the
    node of the other. *)
Definition move (ledger : list Z) (e p : nat) (got : Z) : list Z :=
  alter (fun x => u64 (x - got)) p (alter (fun x => u64 (x + got)) e ledger).

Lemma move_lookup ledger e p got s :
  s <> e -> s <> p -> move ledger e p got !! s = ledger !! s.
Proof. intros. unfold move. by rewrite !list_lookup_alter_ne. Qed.

Record flow_graph (t : Tables) : Prop := {
  fg_partner s sl : weight_table t !! s = Some sl ->
    0 <= weight sl < 2 ^ 62 /\
    exists pl, weight_table t !! idx sl = Some pl /\ idx pl = s /\ idx sl <> s;
  fg_nodup n l : add_set t !! n = Some l -> NoDup l;
  fg_add n s : listed (add_set t) n s ->
    exists sl pl, weight_table t !! s = Some sl /\ weight_table t !! idx sl = Some pl /\
      canon pl = n /\ listed (add_set t) (canon sl) (idx sl)
}.

Section flow.
Context (t : Tables) (Hfg : flow_graph t).

Lemma listed_once n m s : listed (add_set t) n s -> listed (add_set t) m s -> n = m.
Proof.
  intros Hn Hm. destruct (fg_add t Hfg n s Hn) as (? & ? & ? & ? & ? & _).
  destruct (fg_add t Hfg m s Hm) as (? & ? & ? & ? & ? & _). congruence.
Qed.

Lemma excess_update ledger ledger' e d n m :
  listed (add_set t) m e -> (forall s, s <> e -> val ledger' s = val ledger s) ->
  val ledger' e = val ledger e + d ->
  excess t ledger' n = excess t ledger n + (if decide (n = m) then d else 0).
Proof.
  intros Hm Hne He. unfold excess. destruct (add_set t !! n) as [l|] eqn:El; cbn [from_option id].
  - rewrite (sum_by_update (val ledger) (val ledger') l e d) by (by eapply fg_nodup || done). f_equal.
    destruct (decide (n = m)) as [->|Hnm].
    + rewrite decide_True; [done|]. destruct Hm as (l' & ? & ?). by simplify_eq.
    + rewrite decide_False; [done|]. intros Hin. apply Hnm. apply (listed_once n m e); [by exists l|done].
  - rewrite decide_False; [done|]. intros ->. destruct Hm as (l' & ? & _). congruence.
Qed.

Lemma flow_bounds ledger s sl f :
  flow_ok t ledger -> weight_table t !! s = Some sl -> ledger !! s = Some f ->
  in_u64 f /\ - 2 ^ 62 < sv f <= weight sl.
Proof.
  intros Hfl Hs Hf. destruct (fg_partner t Hfg s sl Hs) as (Hw & pl & Hp & Hps & Hne).
  destruct (Hfl s sl Hs) as (f' & g & Hf' & Hg & Hr & Hsum & Hle).
  destruct (Hfl _ pl Hp) as (g' & f'' & Hg' & Hf'' & _ & _ & Hle').
  destruct (fg_partner t Hfg _ pl Hp) as ([? ?] & _). simplify_eq. lia.
Qed.

Lemma move_ok ledger e sl n got :
  flow_ok t ledger -> listed (add_set t) n e -> weight_table t !! e = Some sl ->
  0 <= got -> val ledger e + got <= weight sl ->
  flow_ok t (move ledger e (idx sl) got) /\
  (forall m, excess t (move ledger e (idx sl) got) m =
     excess t ledger m + (if decide (m = n) then got else 0) - (if decide (m = canon sl) then got else 0)).
Proof.
  intros Hfl Hn He Hgot Hle. destruct (fg_partner t Hfg e sl He) as (Hw & pl & Hp & Hpe & Hne).
  destruct (Hfl e sl He) as (f & g & Hf & Hg & Hfr & Hsum & Hfle).
  destruct (flow_bounds _ _ _ _ Hfl He Hf) as [_ Hfb].
  destruct (flow_bounds _ _ _ _ Hfl Hp Hg) as [Hgr Hgb].
  destruct (fg_partner t Hfg _ pl Hp) as ([? ?] & _).
  assert (val ledger e = sv f) as Hve by (unfold val; by rewrite Hf).
  assert (val ledger (idx sl) = sv g) as Hvg by (unfold val; by rewrite Hg).
  rewrite Hve in Hle.
  assert (alter (fun x => u64 (x + got)) e ledger !! idx sl = Some g) as Hg1
    by (by rewrite list_lookup_alter_ne).
  assert (val (alter (fun x => u64 (x + got)) e ledger) e = val ledger e + got) as V1.
  { eapply val_alter_eq; [done..|]. lia. }
  assert (val (move ledger e (idx sl) got) (idx sl) = val ledger (idx sl) - got) as V2.
  { unfold move. rewrite <-(val_alter_ne ledger e got (idx sl)) by done.
    change (fun x => u64 (x - got)) with (fun x => u64 (x + (- got))).
    erewrite val_alter_eq; [lia|done..|]. lia. }
  assert (val (move ledger e (idx sl) got) e = val ledger e + got) as V3.
  { rewrite <-V1. unfold move. change (fun x => u64 (x - got)) with (fun x => u64 (x + (- got))).
    by apply val_alter_ne. }
  split.
  - intros s sl' Hs. destruct (decide (s = e)) as [->|Hse]; [|destruct (decide (s = idx sl)) as [->|Hsp]].
    + simplify_eq. exists (u64 (f + got)), (u64 (g - got)).
      unfold move. split_and!.
      * by rewrite list_lookup_alter_ne, list_lookup_alter_eq, Hf.
      * by rewrite list_lookup_alter_eq, Hg1.
      * apply u64_range.
      * apply u64_range.
      * replace (g - got) with (g + - got) by lia. rewrite !sv_add by (done || lia). lia.
      * rewrite sv_add by (done || lia). lia.
    + simplify_eq. exists (u64 (g - got)), (u64 (f + got)). unfold move. split_and!.
      * by rewrite list_lookup_alter_eq, Hg1.
      * by rewrite list_lookup_alter_ne, list_lookup_alter_eq, Hf.
      * apply u64_range.
      * apply u64_range.
      * replace (g - got) with (g + - got) by lia. rewrite !sv_add by (done || lia). lia.
      * replace (g - got) with (g + - got) by lia. rewrite sv_add by (done || lia). lia.
    + destruct (Hfl s sl' Hs) as (f' & g' & ? & ? & ?). exists f', g'.
      destruct (fg_partner t Hfg s sl' Hs) as (_ & pl' & Hp' & Hps & _).
      rewrite !move_lookup; [done|..]; [|congruence|done|done].
      intros <-. congruence.
  - intros m. unfold move.
    erewrite (excess_update (alter (fun x => u64 (x + got)) e ledger) _ (idx sl) (- got) m (canon sl));
      [|by destruct (fg_add t Hfg n e Hn) as (? & ? & ? & ? & ? & ?); simplify_eq|..].
    + erewrite (excess_update ledger _ e got m n); [|done|by intros; apply val_alter_ne|done].
      repeat case_decide; lia.
    + intros s Hs. change (fun x => u64 (x - got)) with (fun x => u64 (x + (- got))). by apply val_alter_ne.
    + rewrite (val_alter_ne ledger e got (idx sl)) by done. unfold move in V2. rewrite V2. lia.
Qed.
End flow.
(** * What one pull moves *)

Section pull.
Context (t : Tables) (Hfg : flow_graph t) (target : nat) (disc : list nat) (Hnd : NoDup disc).

(** Slots of nodes before position [k] of the discovery order, and of
    nodes that were not discovered, are not written. *)
Definition untouched (k : nat) (led led' : list Z) : Prop :=
  forall n s, listed (add_set t) n s -> (forall i, disc !! i = Some n -> (i < k)%nat) -> led' !! s = led !! s.

Record pulled (k seed : nat) (got : Z) (lb lb' : list Z * list Z) : Prop := {
  pd_flow : flow_ok t lb'.1;
  pd_bits s : bit_test lb'.2 s = true -> bit_test lb.2 s = true;
  pd_untouched : untouched k lb.1 lb'.1;
  pd_excess n : excess t lb'.1 n = excess t lb.1 n + (if decide (n = seed) then got else 0)
                  - (if decide (n = target) then got else 0);
  pd_length : length lb'.1 = length lb.1 /\ length lb'.2 = length lb.2
}.

Lemma pulled_refl k seed lb : flow_ok t lb.1 -> pulled k seed 0 lb lb.
Proof. intros. split; try done. intros n. repeat case_decide; lia. Qed.

Lemma pulled_trans k seed g1 g2 lb lb1 lb2 :
  pulled k seed g1 lb lb1 -> pulled k seed g2 lb1 lb2 -> pulled k seed (g1 + g2) lb lb2.
Proof.
  intros [F1 B1 U1 E1 [L1 M1]] [F2 B2 U2 E2 [L2 M2]]. split; try done; eauto.
  - intros n s Hn Hi. by rewrite (U2 n s Hn Hi), (U1 n s Hn Hi).
  - intros n. rewrite E2, E1. repeat case_decide; lia.
  - split; congruence.
Qed.

Lemma layered_sub bits bits' :
  layered t bits disc -> (forall s, bit_test bits' s = true -> bit_test bits s = true) -> layered t bits' disc.
Proof. intros Hl Hb n s sl Hn Hs Ht. by apply (Hl n s sl), Hb. Qed.

Definition pull_spec (k : nat) (pull : nat -> Z -> list Z * list Z -> option (Z * (list Z * list Z))) : Prop :=
  forall j seed cap lb, disc !! j = Some seed -> (k < j)%nat -> flow_ok t lb.1 -> layered t lb.2 disc ->
    0 <= cap <= STCUT_MAX_WEIGHT ->
    exists got lb', pull seed cap lb = Some (got, lb') /\ 0 <= got <= cap /\ pulled j seed got lb lb'.

(** Moving [got] over slot [e] after the recursive call has moved it on. *)
Lemma pulled_move k seed j e sl got lb lb1 :
  disc !! k = Some seed -> disc !! j = Some (canon sl) -> (k < j)%nat ->
  listed (add_set t) seed e -> weight_table t !! e = Some sl ->
  flow_ok t lb.1 -> pulled j (canon sl) got lb lb1 -> 0 <= got -> val lb.1 e + got <= weight sl ->
  pulled k seed got lb (move lb1.1 e (idx sl) got, lb1.2).
Proof.
  intros Hk Hj Hkj He Hsl Hfl [F1 B1 U1 E1 [L1 M1]] Hg Hle.
  assert (lb1.1 !! e = lb.1 !! e) as Heq.
  { apply (U1 seed e He). intros i Hi. assert (i = k) as -> by (by eapply NoDup_lookup). done. }
  assert (val lb1.1 e = val lb.1 e) as Hve by (unfold val; by rewrite Heq).
  destruct (move_ok t Hfg lb1.1 e sl seed got F1 He Hsl Hg) as [Fm Em]; [by rewrite Hve|].
  split; cbn; try done.
  - intros n s Hn Hi. rewrite move_lookup.
    + apply (U1 n s Hn). intros i Hin. specialize (Hi i Hin). lia.
    + intros ->. assert (n = seed) as -> by (by eapply listed_once). specialize (Hi k Hk). lia.
    + intros ->. destruct (fg_add t Hfg seed e He) as (sl' & pl & ? & ? & ? & Hl). simplify_eq.
      assert (n = canon sl) as -> by (by eapply listed_once). specialize (Hi j Hj). lia.
  - intros n. rewrite Em, E1. repeat case_decide; lia.
  - unfold move. rewrite !length_alter. done.
Qed.

Lemma pull_members_ok pull k seed l acc cap lb :
  pull_spec k pull -> disc !! k = Some seed ->
  Forall (fun e => listed (add_set t) seed e) l -> flow_ok t lb.1 -> layered t lb.2 disc ->
  0 <= acc -> 0 <= cap -> acc + cap <= STCUT_MAX_WEIGHT ->
  exists got lb', pull_members t pull l acc cap lb = Some (acc + got, lb') /\ 0 <= got <= cap /\
    pulled k seed got lb lb'.
Proof.
  intros Hpull Hk Hall. revert acc cap lb.
  induction Hall as [|e l He _ IH]; intros acc cap lb Hfl Hlay Hacc Hcap Hmax.
  { exists 0, lb. cbn. rewrite Z.add_0_r. split; [done|]. split; [lia|by apply pulled_refl]. }
  cbn. destruct (bit_test lb.2 e) eqn:Hbit; cbn [negb]; [|by apply IH].
  destruct (fg_add t Hfg seed e He) as (sl & pl & Hsl & Hpl & _ & _).
  destruct (fg_partner t Hfg e sl Hsl) as (Hw & _).
  destruct (Hfl e sl Hsl) as (f & g & Hf & Hg & _). pose proof (flow_bounds t Hfg _ _ _ _ Hfl Hsl Hf) as [Hfr Hfb].
  rewrite Hsl. cbn [mbind option_bind]. rewrite Hf. cbn [mbind option_bind].
  rewrite residual_u64 by done.
  set (step := if cap <=? weight sl - sv f then cap else weight sl - sv f).
  assert (0 <= step <= cap /\ step <= weight sl - sv f) as Hstep.
  { unfold step. destruct (Z.leb_spec cap (weight sl - sv f)); lia. }
  destruct (Hlay seed e sl He Hsl Hbit) as (i & j & Hi & Hj & Hij).
  assert (i = k) as -> by (by eapply NoDup_lookup).
  destruct (Hpull j (canon sl) step lb Hj Hij Hfl Hlay ltac:(lia)) as (got & lb1 & -> & Hgot & Hpd).
  cbn [mbind option_bind]. pose proof Hpd as [F1 B1 U1 E1 [L1 M1]].
  assert (pulled k seed got lb (move lb1.1 e (idx sl) got, lb1.2)) as Hmv.
  { eapply pulled_move; try done; [lia|]. unfold val. rewrite Hf. cbn. lia. }
  destruct (Z.eqb_spec got 0) as [->|Hg0].
  - destruct (IH acc cap (lb1.1, bit_clear e lb1.2)) as (got' & lb' & E' & ? & Hpd'); try done.
    { eapply layered_sub; [done|]. intros s Hs. by apply B1, (bit_clear_test e). }
    exists got', lb'. split; [done|]. split; [done|]. rewrite <-(Z.add_0_l got').
    eapply pulled_trans; [|done]. split; cbn; try done.
    + intros s Hs. by apply B1, (bit_clear_test e).
    + intros n s Hn Hlt. apply (U1 n s Hn). intros i' Hi'. specialize (Hlt i' Hi'). lia.
    + intros n. rewrite E1. repeat case_decide; lia.
    + split; [done|]. unfold bit_clear. by rewrite length_alter.
  - destruct (lookup_lt_is_Some_2 lb1.1 (idx sl)) as [g1 Hg1]; [rewrite L1; by eapply lookup_lt_Some|].
    rewrite Hg1. cbn [mbind option_bind].
    change (alter (fun x => u64 (x - got)) (idx sl) (alter (fun x => u64 (x + got)) e lb1.1))
      with (move lb1.1 e (idx sl) got).
    assert (u64 (acc + got) = acc + got) as -> by (unfold STCUT_MAX_WEIGHT in *; unwrap; lia).
    assert (u64 (cap - got) = cap - got) as -> by (unfold STCUT_MAX_WEIGHT in *; unwrap; lia).
    destruct (step <? STCUT_SMALL_STEP).
    { exists got, (move lb1.1 e (idx sl) got, lb1.2). split_and!; try done; lia. }
    destruct (Z.eqb_spec (cap - got) 0).
    { exists got, (move lb1.1 e (idx sl) got, lb1.2). split_and!; try done; lia. }
    destruct (IH (acc + got) (cap - got) (move lb1.1 e (idx sl) got, lb1.2)) as (got' & lb' & E' & ? & Hpd');
      try lia; [apply Hmv|by eapply layered_sub|].
    exists (got + got'), lb'. split; [by rewrite E', Z.add_assoc|]. split; [lia|]. by eapply pulled_trans.
Qed.

Lemma weight_pull_ok fuel k seed cap lb :
  disc !! k = Some seed -> (length disc <= fuel + k)%nat -> flow_ok t lb.1 -> layered t lb.2 disc ->
  0 <= cap <= STCUT_MAX_WEIGHT ->
  exists got lb', weight_pull t target fuel seed cap lb = Some (got, lb') /\ 0 <= got <= cap /\
    pulled k seed got lb lb'.
Proof.
  revert k seed cap lb. induction fuel as [|fuel IH]; intros k seed cap lb Hk Hfuel Hfl Hlay Hcap.
  { apply lookup_lt_Some in Hk. lia. }
  cbn [weight_pull]. destruct (Nat.eqb_spec seed target) as [->|Hne].
  { exists cap, lb. split; [done|]. split; [lia|]. split; try done. intros n. repeat case_decide; lia. }
  destruct (add_set t !! seed) as [[|e l]|] eqn:El.
  - exists 0, lb. split; [done|]. split; [lia|by apply pulled_refl].
  - destruct (pull_members_ok (weight_pull t target fuel) k seed (e :: l) 0 cap lb) as (got & lb' & E & Hg & Hp);
      try done; try lia.
    + intros j seed' cap' lb1 Hj Hkj ? ? ?. apply IH; try done. lia.
    + apply Forall_forall. intros x Hx. by exists (e :: l).
    + exists got, lb'. by rewrite E.
  - exists 0, lb. split; [done|]. split; [lia|by apply pulled_refl].
Qed.
End pull.
(** * Iteration *)

(** The tables agree in length, and the graph is small enough for the 16-bit
    marks. *)
Record aligned (c : StCutContext) : Prop := {
  al_inv : graph_inv c;
  al_marks : (length (add_set (work c)) <= length (mark_table c))%nat;
  al_flags : length (group_flags (work c)) = length (add_set (work c));
  al_bits : (length (weight_table (work c)) <= 32 * length (bitmap c))%nat;
  al_small : Z.of_nat (length (mark_table c)) + 4 < 2 ^ 16;
  al_weights s sl : weight_table (work c) !! s = Some sl -> 0 <= weight sl < 2 ^ 62
}.

Lemma aligned_flow_graph c : aligned c -> flow_graph (work c).
Proof.
  intros [Hi _ _ _ _ Hw]. split.
  - intros s sl Hs. split; [by eapply Hw|]. destruct (gi_partner c Hi s sl Hs) as (_ & pl & ? & ? & ? & _).
    by exists pl.
  - intros n l Hl. apply (gi_nodup c Hi n). by left.
  - intros n s Hn. destruct (gi_add c Hi n s Hn) as (sl & pl & ? & ? & ? & ? & _). by exists sl, pl.
Qed.

Lemma aligned_floodable c led :
  aligned c -> (length (weight_table (work c)) <= length led)%nat ->
  floodable (work c) led (length (bitmap c)).
Proof.
  intros Ha Hled. pose proof (al_inv c Ha) as Hi. split; try apply Ha; [|done|].
  - intros n s Hn. destruct (gi_add c Hi n s Hn) as (sl & _ & Hs & _). exists sl. split; [done|].
    by eapply gi_partner.
  - intros n m s. apply (listed_once _ (aligned_flow_graph c Ha)).
Qed.

(** What the flood and the pulls may change. *)
Definition only_flow (c c' : StCutContext) : Prop :=
  exists led marks bits loops calls,
    length led = length (threshold_ledger c) /\ length marks = length (mark_table c) /\
    length bits = length (bitmap c) /\
    c' = set_threshold_ledger led (set_mark_table marks (set_bitmap bits
           (set_inner_loop_count loops (set_call_count calls c)))).

Lemma only_flow_trans c1 c2 c3 : only_flow c1 c2 -> only_flow c2 c3 -> only_flow c1 c3.
Proof.
  intros (? & ? & ? & ? & ? & H1 & H2 & H3 & ->) (l & m & b & i & k & H4 & H5 & H6 & ->).
  cbn in *. exists l, m, b, i, k. split_and!; congruence || done.
Qed.

Lemma only_flow_refl c : only_flow c c.
Proof. exists (threshold_ledger c), (mark_table c), (bitmap c), (inner_loop_count c), (call_count c). by destruct c. Qed.

Lemma only_flow_work c c' : only_flow c c' -> work c' = work c.
Proof. by intros (? & ? & ? & ? & ? & ? & ? & ? & ->). Qed.

Lemma only_flow_inv c c' : only_flow c c' -> graph_inv c -> graph_inv c'.
Proof.
  intros (l & ? & ? & ? & ? & Hl & _ & _ & ->) [? ? ? ? ? ? ? ? ?]. split; cbn; try done. by rewrite Hl.
Qed.

Lemma only_flow_aligned c c' : only_flow c c' -> aligned c -> aligned c'.
Proof.
  intros Hof Ha. pose proof (only_flow_inv c c' Hof (al_inv c Ha)).
  destruct Hof as (l & m & b & i & k & Hl & Hm & Hb & ->), Ha.
  split; cbn; rewrite ?Hm, ?Hb; done.
Qed.

Lemma flood_collect_ok c seed target :
  aligned c -> (seed < length (add_set (work c)))%nat ->
  exists n c' disc, flood_collect seed target c = Some (n, c') /\ only_flow c c' /\
    threshold_ledger c' = threshold_ledger c /\
    NoDup disc /\ disc !! 0%nat = Some seed /\ (length disc <= length (mark_table c'))%nat /\
    layered (work c) (bitmap c') disc.
Proof.
  intros Ha Hseed. pose proof (al_inv c Ha) as Hi. pose proof (gi_ledger c Hi) as Hled.
  pose proof (aligned_floodable c _ Ha Hled) as Hfb. pose proof (al_marks c Ha) as HN.
  unfold flood_collect. rewrite lookup_replicate_2 by lia.
  cbn [mbind option_bind]. rewrite length_replicate.
  destruct (flood_generations_ok (work c) (threshold_ledger c) target (length (bitmap c)) (length (mark_table c))
    Hfb HN (al_small c Ha) (S (length (mark_table c))) 2 [seed]
    (mkFlood (<[seed:=1]> (replicate (length (mark_table c)) 0)) (replicate (length (bitmap c)) 0)
       (inner_loop_count c) [] 0 false) [seed]) as (f & disc & E & Hf & Hpre).
  - split; cbn.
    + apply NoDup_singleton.
    + by rewrite length_insert, length_replicate.
    + by intros n ->%list_elem_of_singleton.
    + intros n. rewrite list_elem_of_singleton. split.
      * intros ->. exists 1. by rewrite list_lookup_insert_eq by (rewrite length_replicate; lia).
      * intros (m & Hm & Hm0). destruct (decide (n = seed)); [done|].
        rewrite list_lookup_insert_ne in Hm by done. by apply lookup_replicate in Hm as [-> _].
    + by rewrite length_replicate.
    + intros n s sl _ _. by rewrite bit_test_zeros.
    + done.
  - done.
  - cbn. lia.
  - cbn. lia.
  - rewrite E. cbn [mbind option_bind]. eexists _, _, disc. split; [done|].
    assert (length disc <= length (mark_table c))%nat as Hdb by (eapply disc_bound; eauto). destruct Hf as [Hnd Hlm _ _ Hlb Hlay _].
    split_and!; try done; cbn.
    + exists (threshold_ledger c), (fl_marks f), (fl_bits f), (fl_loops f), (call_count c).
      rewrite Hlm, Hlb. by split_and!.
    + destruct Hpre as [k ->]. done.
    + by rewrite Hlm.
Qed.

(** The ledger carries [T] from the seed to the target. *)
Definition carries (t : Tables) (led : list Z) (seed target : nat) (T : Z) : Prop :=
  flow_ok t led /\ 0 <= T /\
  forall n, excess t led n = (if decide (n = seed) then T else 0) - (if decide (n = target) then T else 0).

Definition flooded (c : StCutContext) (seed : nat) : Prop :=
  exists disc, NoDup disc /\ disc !! 0%nat = Some seed /\ (length disc <= length (mark_table c))%nat /\
    layered (work c) (bitmap c) disc.

Lemma pull_once_ok c seed target T :
  aligned c -> flooded c seed -> carries (work c) (threshold_ledger c) seed target T ->
  exists n c', pull_once seed target c = Some (n, c') /\ only_flow c c' /\ flooded c' seed /\
    0 <= n /\ carries (work c) (threshold_ledger c') seed target (T + n).
Proof.
  intros Ha (disc & Hnd & H0 & Hlen & Hlay) (Hfl & HT & Hex). pose proof (aligned_flow_graph c Ha) as Hfg.
  unfold pull_once.
  destruct (weight_pull_ok (work c) Hfg target disc Hnd (S (length (mark_table c))) 0 seed STCUT_MAX_WEIGHT
    (threshold_ledger c, bitmap c)) as (got & [led bits] & E & Hgot & [F B U X [L1 L2]]); try done; [lia|].
  rewrite E. cbn [mbind option_bind]. exists got. eexists. split; [done|]. cbn in *. split_and!; try lia.
  - exists led, (mark_table c), bits, (inner_loop_count c), (call_count c). by destruct c.
  - exists disc. split_and!; try done. cbn. by eapply layered_sub.
  - split; [done|]. split; [lia|]. intros n. rewrite X, Hex. repeat case_decide; lia.
Qed.

Lemma u64_add_l a b : u64 (u64 a + b) = u64 (a + b).
Proof. unfold wrap. by rewrite Zplus_mod_idemp_l. Qed.

Lemma pull_loop_ok fuel seed target gcap guard total c T :
  aligned c -> flooded c seed -> carries (work c) (threshold_ledger c) seed target T ->
  total = u64 T -> (1 <= fuel)%nat -> (gcap < fuel + guard)%nat ->
  exists guard' total' c' T', pull_loop fuel seed target gcap guard total c = Some (guard', total', c') /\
    only_flow c c' /\ (guard < guard')%nat /\ total' = u64 T' /\
    carries (work c) (threshold_ledger c') seed target T'.
Proof.
  revert guard total c T. induction fuel as [|fuel IH]; intros guard total c T Ha Hf Hc -> Hfuel1 Hfuel; [lia|].
  cbn [pull_loop]. destruct (Nat.ltb_spec gcap (S guard)).
  { exists (S guard), (u64 T), c, T. split_and!; try done; [apply only_flow_refl|lia]. }
  destruct (pull_once_ok c seed target T Ha Hf Hc) as (n & c1 & -> & Hof & Hf1 & Hn & Hc1).
  cbn [mbind option_bind]. rewrite u64_add_l. destruct (n =? 0).
  { exists (S guard), (u64 (T + n)), c1, (T + n). split_and!; try done. lia. }
  destruct (IH (S guard) (u64 (T + n)) c1 (T + n)) as (g' & t' & c' & T' & E & Hof' & ? & ? & Hc');
    [by eapply only_flow_aligned|done|by rewrite (only_flow_work _ _ Hof)|done|lia|lia|].
  exists g', t', c', T'. split_and!; try done; [by eapply only_flow_trans|lia|].
  by rewrite (only_flow_work _ _ Hof) in Hc'.
Qed.

Lemma flood_again c seed target T :
  aligned c -> (seed < length (add_set (work c)))%nat ->
  carries (work c) (threshold_ledger c) seed target T ->
  exists r c', flood_collect seed target c = Some (r, c') /\ only_flow c c' /\ flooded c' seed /\
    carries (work c) (threshold_ledger c') seed target T.
Proof.
  intros Ha Hs Hc. destruct (flood_collect_ok c seed target Ha Hs) as (r & c' & disc & E & Hof & Hled & Hd).
  exists r, c'. split_and!; try done; [|by rewrite Hled].
  exists disc. by rewrite (only_flow_work _ _ Hof).
Qed.

Lemma iterate_loop_ok fuel seed target gcap guard total c T :
  aligned c -> (seed < length (add_set (work c)))%nat -> flooded c seed ->
  carries (work c) (threshold_ledger c) seed target T ->
  total = u64 T -> (1 <= fuel)%nat -> (gcap < fuel + guard)%nat ->
  exists total' c' T', iterate_loop fuel seed target gcap guard total c = Some (total', c') /\
    only_flow c c' /\ total' = u64 T' /\ carries (work c) (threshold_ledger c') seed target T'.
Proof.
  revert guard total c T.
  induction fuel as [|fuel IH]; intros guard total c T Ha Hs Hf Hc HT Hfuel1 Hfuel; [lia|].
  cbn [iterate_loop].
  destruct (pull_loop_ok (S gcap) seed target gcap guard total c T) as (g1 & t1 & c1 & T1 & -> & Hof1 & Hg & Ht1 & Hc1);
    try done; [lia..|]. cbn [mbind option_bind].
  destruct (Nat.ltb_spec gcap g1); [by exists t1, c1, T1|].
  pose proof (only_flow_work _ _ Hof1) as Hw1.
  destruct (flood_again c1 seed target T1) as (r & c2 & -> & Hof2 & Hf2 & Hc2);
    [by eapply only_flow_aligned|by rewrite Hw1|by rewrite Hw1|]. cbn [mbind option_bind].
  pose proof (only_flow_trans _ _ _ Hof1 Hof2) as Hof. pose proof (only_flow_work _ _ Hof) as Hw.
  rewrite Hw1 in Hc2. case_match; [by exists t1, c2, T1|].
  destruct (IH g1 t1 c2 T1) as (t3 & c3 & T3 & E & Hof3 & Ht3 & Hc3);
    [by eapply only_flow_aligned|by rewrite Hw|done|by rewrite Hw|done|lia|lia|].
  exists t3, c3, T3. split_and!; try done; [by eapply only_flow_trans|]. by rewrite Hw in Hc3.
Qed.

Lemma zero_carries c seed target n :
  aligned c -> (length (weight_table (work c)) <= n)%nat -> carries (work c) (replicate n 0) seed target 0.
Proof.
  intros Ha Hn. pose proof (aligned_flow_graph c Ha) as Hfg. split; [|split; [lia|]].
  - intros s sl Hs. destruct (fg_partner _ Hfg s sl Hs) as ([? _] & pl & Hp & _).
    exists 0, 0. rewrite !lookup_replicate_2 by (apply lookup_lt_Some in Hs, Hp; lia). done.
  - intros m. unfold excess. assert (forall l, sum_by (val (replicate n 0)) l = 0) as Hz.
    { induction l as [|x l IH]; [done|]. unfold sum_by in *. cbn. rewrite IH.
      unfold val. destruct (replicate n 0 !! x) eqn:E; [apply lookup_replicate in E as [-> _]|]; done. }
    rewrite Hz. repeat case_decide; lia.
Qed.

(** [stcut_iterate] returns, writes only flow fields and leaves a flow. *)
Lemma iterate_ok c seed target :
  aligned c -> (seed < length (add_set (work c)))%nat ->
  exists total c' T, iterate seed target c = Some (total, c') /\ only_flow c c' /\
    total = u64 T /\ carries (work c) (threshold_ledger c') seed target T.
Proof.
  intros Ha Hs. pose proof (gi_ledger c (al_inv c Ha)) as Hled. unfold iterate.
  set (c0 := set_threshold_ledger (replicate (length (threshold_ledger c)) 0)
               (set_call_count (u64 (call_count c + 1)) c)).
  assert (only_flow c c0) as Hof0.
  { exists (replicate (length (threshold_ledger c)) 0), (mark_table c), (bitmap c), (inner_loop_count c),
      (u64 (call_count c + 1)). rewrite length_replicate. by destruct c. }
  change (threshold_ledger (set_call_count (u64 (call_count c + 1)) c)) with (threshold_ledger c). fold c0.
  assert (aligned c0) as Ha0 by (by eapply only_flow_aligned).
  destruct (flood_again c0 seed target 0 Ha0) as (r & c1 & -> & Hof1 & Hf1 & Hc1); [done|by apply zero_carries|].
  cbn [mbind option_bind]. pose proof (only_flow_trans _ _ _ Hof0 Hof1) as Hof.
  case_match; [by exists 0, c1, 0|].
  destruct (iterate_loop_ok (S (4 * length (weight_table (work c1)) + 64)) seed target
    (4 * length (weight_table (work c1)) + 64) 0 0 c1 0) as (t2 & c2 & T2 & -> & Hof2 & Ht2 & Hc2);
    try rewrite (only_flow_work _ _ Hof); try done; [by eapply only_flow_aligned|lia|lia|].
  exists t2, c2, T2. split_and!; try done; [by eapply only_flow_trans|].
  by rewrite (only_flow_work _ _ Hof) in Hc2.
Qed.
(** * The value of the flow *)

(** The weights that leave a node. *)
Definition out_weight (t : Tables) (n : nat) : Z :=
  sum_by (fun s => match weight_table t !! s with Some sl => weight sl | None => 0 end)
    (default [] (add_set t !! n)).

(** The slots listed at the nodes of [S]. *)
Definition slots_of (t : Tables) (S : list nat) : list nat :=
  concat (map (fun n => default [] (add_set t !! n)) S).

Definition leaves (t : Tables) (S : list nat) (s : nat) : Prop :=
  match weight_table t !! s with Some sl => canon sl ∉ S | None => False end.

#[export] Instance leaves_dec t S s : Decision (leaves t S s).
Proof. unfold leaves. destruct (weight_table t !! s); apply _. Defined.

Definition cut_weight (t : Tables) (S : list nat) : Z :=
  sum_by (fun s => match weight_table t !! s with Some sl => weight sl | None => 0 end)
    (filter (leaves t S) (slots_of t S)).

Section cut.
Context (t : Tables) (Hfg : flow_graph t) (led : list Z) (Hfl : flow_ok t led).

Lemma elem_slots_of S s : s ∈ slots_of t S <-> exists n, n ∈ S /\ listed (add_set t) n s.
Proof.
  unfold slots_of. rewrite elem_of_concat. split.
  - intros (l & (n & -> & Hn)%elem_of_map & Hs). exists n. split; [done|].
    destruct (add_set t !! n) as [l|] eqn:E; [by exists l|by apply not_elem_of_nil in Hs].
  - intros (n & Hn & l & Hl & Hs). exists l. split; [|done]. apply elem_of_map. exists n. by rewrite Hl.
Qed.

Lemma slots_of_nodup S : NoDup S -> NoDup (slots_of t S).
Proof.
  induction 1 as [|n S Hn HS IH]; [constructor|]. cbn. apply NoDup_app. split_and!; [| |done].
  - destruct (add_set t !! n) as [l|] eqn:E; [by eapply fg_nodup|constructor].
  - intros s Hs (m & Hm & Hl)%elem_slots_of. destruct (add_set t !! n) as [l|] eqn:E; [|by apply not_elem_of_nil in Hs].
    apply Hn. rewrite (listed_once t Hfg n m s); [done|by exists l|done].
Qed.

Lemma sum_slots_of S : sum_by (val led) (slots_of t S) = sum_by (excess t led) S.
Proof.
  induction S as [|n S IH]; [done|]. unfold slots_of in *. cbn [map concat].
  rewrite sum_by_app, IH. done.
Qed.

Definition partner (s : nat) : nat := match weight_table t !! s with Some sl => idx sl | None => s end.

Lemma val_bound s sl : weight_table t !! s = Some sl -> val led s <= weight sl.
Proof. intros Hs. destruct (Hfl s sl Hs) as (f & g & Hf & _ & _ & _ & Hle). unfold val. by rewrite Hf. Qed.

Lemma val_partner s : s ∈ concat (add_set t) -> val led (partner s) = - val led s.
Proof.
  intros (l & Hl & Hs)%elem_of_concat. apply list_elem_of_lookup in Hl as [n Hl].
  destruct (fg_add t Hfg n s) as (sl & _ & Hsl & _); [by exists l|].
  destruct (Hfl s sl Hsl) as (f & g & Hf & Hg & _ & Hsum & _).
  unfold val, partner. rewrite Hsl, Hf, Hg. cbn. lia.
Qed.

(** Inside a set of nodes the two halves of every edge cancel. *)
Lemma inner_sum_zero S : NoDup S -> sum_by (val led) (filter (fun s => ~ leaves t S s) (slots_of t S)) = 0.
Proof.
  intros HS. set (I := filter _ _).
  assert (forall s, s ∈ I -> exists sl, weight_table t !! s = Some sl /\ partner s ∈ I /\ partner (partner s) = s) as HI.
  { intros s [Hnl (n & Hn & Hl)%elem_slots_of]%list_elem_of_filter.
    destruct (fg_add t Hfg n s Hl) as (sl & pl & Hsl & Hpl & Hc & Hpn).
    destruct (fg_partner t Hfg s sl Hsl) as (_ & pl' & Hpl' & Hps & _). simplify_eq.
    exists sl. split; [done|]. unfold partner at 1 3. rewrite Hsl. split.
    - apply list_elem_of_filter. split.
      + unfold leaves. rewrite Hpl. by intros [].
      + apply elem_slots_of. exists (canon sl). split; [|done].
        unfold leaves in Hnl. rewrite Hsl in Hnl. by apply dec_stable.
    - unfold partner. by rewrite Hpl. }
  assert (map partner I ≡ₚ I) as Hperm.
  { assert (NoDup I) as HndI by (by apply NoDup_filter, slots_of_nodup).
    apply NoDup_Permutation; [|done|].
    - apply NoDup_fmap_2_strong; [|done]. intros x y Hx Hy E.
      destruct (HI x Hx) as (_ & _ & _ & <-). destruct (HI y Hy) as (_ & _ & _ & <-). by rewrite E.
    - intros s. rewrite elem_of_map. split.
      + intros (x & -> & Hx). by destruct (HI x Hx) as (_ & _ & ? & _).
      + intros Hs. destruct (HI s Hs) as (_ & _ & Hp & Hpp). exists (partner s). by rewrite Hpp. }
  assert (sum_by (val led) I = - sum_by (val led) I); [|lia].
  rewrite <-(sum_by_perm (val led) _ _ Hperm) at 1. rewrite sum_by_map.
  rewrite (sum_by_ext _ (fun s => (-1) * val led s)); [rewrite sum_by_scale; lia|].
  intros s Hs. apply list_elem_of_filter in Hs as [_ (n & _ & l & Hl & Hs)%elem_slots_of].
  rewrite val_partner; [lia|]. apply elem_of_concat. exists l. split; [by eapply list_elem_of_lookup_2|done].
Qed.

Lemma sum_by_filter_split {A} (f : A -> Z) (P : A -> Prop) `{!forall x, Decision (P x)} l :
  sum_by f l = sum_by f (filter P l) + sum_by f (filter (fun x => ~ P x) l).
Proof.
  induction l as [|x l IH]; [done|]. rewrite !filter_cons. unfold sum_by in *. cbn [foldr]. rewrite IH.
  destruct (decide (P x)); [rewrite (decide_False (P := ~ P x)) by naive_solver
                           |rewrite (decide_True (P := ~ P x)) by done]; cbn [foldr]; lia.
Qed.

Lemma cut_bound S seed target T :
  carries t led seed target T -> NoDup S -> seed ∈ S -> target ∉ S -> T <= cut_weight t S.
Proof.
  intros (_ & _ & Hex) HS Hs Ht.
  assert (sum_by (excess t led) S = T) as <-.
  { rewrite (sum_by_ext _ (fun n => 0 + (if decide (n = seed) then T else 0))).
    2: { intros n Hn. rewrite Hex. rewrite (decide_False (P := n = target)) by set_solver. lia. }
    rewrite (sum_by_update (fun _ => 0) _ S seed T);
      [|done|by intros; rewrite decide_False|by rewrite decide_True].
    rewrite decide_True by done. rewrite sum_by_const. lia. }
  rewrite <-sum_slots_of, (sum_by_filter_split _ (leaves t S)), inner_sum_zero by done.
  rewrite Z.add_0_r. unfold cut_weight. apply sum_by_le. intros s [Hl _]%list_elem_of_filter.
  unfold leaves in Hl. destruct (weight_table t !! s) as [sl|] eqn:E; [|done]. by apply val_bound.
Qed.

Lemma excess_le n : excess t led n <= out_weight t n.
Proof.
  unfold excess, out_weight. destruct (add_set t !! n) as [l|] eqn:E; cbn [from_option id]; [|done].
  apply sum_by_le. intros s Hs. destruct (fg_add t Hfg n s) as (sl & _ & Hsl & _); [by exists l|].
  rewrite Hsl. by apply val_bound.
Qed.
End cut.

(** [stcut_iterate] always returns, and what it moves is a flow.  On
    tables that satisfy the edge invariant it changes no table but the flow
    ones; in the ledger it leaves, the two halves of an edge carry opposite
    amounts and neither more than its weight; the returned total leaves the
    seed, arrives at the target, and at every other node nothing is lost or
    gained.  In particular the total is at most the weight of any set of
    slots that separates the seed from the target. *)
Theorem iterate_is_flow c seed target :
  aligned c -> (seed < length (add_set (work c)))%nat -> seed <> target ->
  out_weight (work c) seed < 2 ^ 64 ->
  exists total c', iterate seed target c = Some (total, c') /\ only_flow c c' /\
    flow_ok (work c) (threshold_ledger c') /\
    (forall n, excess (work c) (threshold_ledger c') n =
       if decide (n = seed) then total else if decide (n = target) then - total else 0) /\
    (forall S, NoDup S -> seed ∈ S -> target ∉ S -> 0 <= total <= cut_weight (work c) S).
Proof.
  intros Ha Hs Hne Hout. destruct (iterate_ok c seed target Ha Hs) as (total & c' & T & E & Hof & -> & Hc).
  pose proof Hc as (Hfl & HT & Hex). pose proof (aligned_flow_graph c Ha) as Hfg.
  assert (T <= out_weight (work c) seed) as Hle.
  { etrans; [|by apply (excess_le _ Hfg _ Hfl)]. rewrite Hex, decide_True, decide_False by done. lia. }
  assert (u64 T = T) as HT64 by (unwrap; lia).
  rewrite HT64 in E. exists T, c'. split_and!; try done.
  - intros n. rewrite Hex. repeat case_decide; lia.
  - intros S HS Hin Hout'. split; [done|]. by apply (cut_bound _ Hfg _ Hfl S seed target).
Qed.
(** * A trial cut leaves the graph as it was *)

Lemma connect_aligned c src dst thr cb e c' cb' :
  aligned c -> (src < length (add_set (work c)))%nat -> (dst < length (add_set (work c)))%nat ->
  0 <= thr < 2 ^ 62 -> connect_nodes src dst thr cb c = Some (e, c', cb') -> aligned c'.
Proof.
  intros Ha Hs Hd Hthr E. pose proof (al_inv c Ha) as Hi.
  destruct (connect_spec c src dst thr cb Hi Hs Hd) as (e1 & c1 & cb1 & E1 & Hi1 & Hlen & _).
  assert (c1 = c') as -> by congruence. destruct (lookup_lt_is_Some_2 _ _ Hs) as [l Hl].
  assert (exists r, find_pair (weight_table (work c)) l dst = Some r) as [r Hr].
  { unfold connect_nodes in E. rewrite Hl in E. cbn in E.
    destruct (find_pair (weight_table (work c)) l dst); [by eexists|done]. }
  erewrite connect_unfold in E; [|apply Hi|done|done]. destruct Ha as [_ Hm Hf Hb Hsm Hw].
  destruct r as [x|].
  - destruct (weight_table (work c) !! x) as [sl|] eqn:Hsl; [|done]. cbn in E. simplify_eq.
    split; cbn; try done; [by rewrite length_alter|].
    intros s sl'. destruct (decide (s = e)) as [->|].
    + rewrite list_lookup_alter_eq, Hsl. intros [= <-]. cbn. unfold hit_weight, STCUT_MAX_WEIGHT.
      destruct (Hw e sl Hsl). destruct (Z.ltb_spec 99999999 (u64 (thr + weight sl))); [lia|].
      pose proof (u64_range (thr + weight sl)). lia.
    + rewrite list_lookup_alter_ne by done. apply Hw.
  - cbn in E. simplify_eq. destruct (sync_bitmap_fields (with_pair src dst thr c)) as (Hsw & _).
    assert (forall x, mark_table (sync_bitmap x) = mark_table x) as Hsm'
      by (intros x; unfold sync_bitmap; repeat case_match; done).
    split; try done; rewrite ?Hsm', ?Hsw in *; try (rewrite Hlen; done || exact Hm); try exact Hsm.
    + destruct (sync_bitmap_length (with_pair src dst thr c)) as [->|[-> ?]]; [|lia].
      unfold words_for. pose proof (Nat.div_mod_eq (length (weight_table (work (with_pair src dst thr c))) + 31) 32).
      pose proof (Nat.mod_upper_bound (length (weight_table (work (with_pair src dst thr c))) + 31) 32). lia.
    + intros s sl. rewrite with_pair_weights, lookup_snoc2.
      intros [?|[[-> ->]|[-> ->]]]; [by eapply Hw|cbn; unfold STCUT_MAX_WEIGHT; lia..].
Qed.

(** The records that a trial writes. *)
Definition rec_ok (r : StCutReplayRec) : Prop :=
  (rp_type r = 0 /\ 0 <= rp_value r < 2 ^ 62) \/ rp_type r = 2.

Lemma replay_one_aligned c r :
  aligned c -> rec_ok r -> exists t, replay_one (work c) r = Some t /\ aligned (set_work t c).
Proof.
  intros Ha Hr. destruct (replay_one_inv c r (al_inv c Ha)) as (t & E & Hi & Hlen); [destruct Hr as [[? _]|?]; auto|].
  exists t. split; [done|]. unfold replay_one in E.
  destruct (weight_table (work c) !! rp_op r) as [sl|] eqn:Hsl; [|injection E as <-; by destruct c].
  destruct (weight_table (work c) !! idx sl) as [pl|]; [|done]. cbn in E.
  destruct Ha as [_ Hm Hf Hb Hs Hw]. destruct Hr as [[Hty Hv]|Hty]; rewrite Hty in E; cbn in E; simplify_eq;
    split; cbn in *; rewrite ?length_alter in *; try done.
  intros s sl'. destruct (decide (s = rp_op r)) as [->|].
  - rewrite list_lookup_alter_eq, Hsl. by intros [= <-].
  - rewrite list_lookup_alter_ne by done. apply Hw.
Qed.

Lemma replay_aligned log c :
  aligned c -> Forall rec_ok log -> exists t, replay_apply log (work c) = Some t /\ aligned (set_work t c).
Proof.
  intros Ha Hlog. unfold replay_apply. apply (foldM_total replay_one (fun t => aligned (set_work t c))).
  - intros t r Hr Ht. destruct (replay_one_aligned (set_work t c) r Ht) as (t' & E & Ht'); [|by exists t'].
    rewrite Forall_forall in Hlog. apply Hlog. by rewrite <-elem_of_reverse.
  - by destruct c.
Qed.

(** What the operations on the graph and its flow leave alone. *)
Definition outside (c : StCutContext) :=
  (working_order c, journal c, (snap c, snapshot_taken c), free_node_slots c, config c, cand_tables c,
   next_rec_id c, rng_state c, (tree_built c, grain_tree c)).

Definition kept (c c' : StCutContext) : Prop := outside c' = outside c.

Lemma kept_trans c1 c2 c3 : kept c1 c2 -> kept c2 c3 -> kept c1 c3.
Proof. unfold kept. congruence. Qed.

Lemma connect_kept src dst thr cb c e c' cb' :
  connect_nodes src dst thr cb c = Some (e, c', cb') -> kept c c'.
Proof.
  assert (forall x, outside (sync_bitmap x) = outside x) as Hsync
    by (intros x; unfold sync_bitmap; repeat case_match; done).
  unfold connect_nodes. intros E. destruct (add_set (work c) !! src) as [l|]; [|done]. cbn in E.
  destruct (find_pair (weight_table (work c)) l dst) as [[x|]|]; cbn in E; [| |done].
  - destruct (weight_table (work c) !! x); [|done]. cbn in E. by simplify_eq.
  - destruct (new_pair src dst thr c) as [[[a b] c1]|] eqn:En; [|done]. cbn in E. simplify_eq.
    unfold kept. rewrite Hsync. unfold new_pair in En. case_match; [|by simplify_eq].
    repeat (match type of En with (_ ← ?x; _) = Some _ => destruct x; [|done]; cbn [mbind option_bind] in En end).
    by simplify_eq.
Qed.

Lemma trial_connect_kept src dst tr tr' : trial_connect src dst tr = Some tr' -> kept tr.1 tr'.1.
Proof.
  unfold trial_connect. intros E.
  destruct (connect_nodes src dst STCUT_MAX_WEIGHT (Some tr.2) tr.1) as [[[e c'] cb']|] eqn:Ec; [|done].
  cbn in E. destruct cb'; [|done]. cbn in E. simplify_eq. by eapply connect_kept.
Qed.

Lemma batch_edges_kept arg2 arg3 arg4 v5 v6 tr tr' :
  batch_edges arg2 arg3 arg4 v5 v6 tr = Some tr' -> kept tr.1 tr'.1.
Proof.
  unfold batch_edges. intros E.
  destruct (trial_connect arg2 arg4 tr) as [tr1|] eqn:E1; [|done]. cbn [mbind option_bind] in E.
  destruct (add_set (work tr1.1) !! arg4) as [l|]; [|done]. cbn [mbind option_bind] in E.
  match type of E with (x ← ?f; _) = _ => destruct f as [tr2|] eqn:E2; [|done] end. cbn [mbind option_bind] in E.
  match type of E with (x ← ?f; _) = _ => destruct f as [tr3|] eqn:E3; [|done] end. cbn [mbind option_bind] in E.
  apply trial_connect_kept in E1.
  apply (foldM_keeps _ (fun x => kept tr.1 x.1)) in E2; [|intros x rel y _ Hx Hy|exact E1].
  - apply (foldM_keeps _ (fun x => kept tr.1 x.1)) in E3; [|intros x b y _ Hx Hy|exact E2].
    + apply (foldM_keeps _ (fun x => kept tr.1 x.1)) in E; [done|intros x b y _ Hx Hy|exact E3].
      eapply kept_trans; [exact Hx|by eapply trial_connect_kept].
    + eapply kept_trans; [exact Hx|by eapply trial_connect_kept].
  - destruct (weight_table (work x.1) !! rel); [|done]. cbn in Hy. repeat case_match; simplify_eq; try done.
    eapply kept_trans; [exact Hx|by eapply trial_connect_kept].
Qed.

Lemma only_flow_kept c c' : only_flow c c' -> kept c c'.
Proof. by intros (? & ? & ? & ? & ? & ? & ? & ? & ->). Qed.

(** The state of a trial: what it did so far can be taken back. *)
Definition on_trial (c0 : StCutContext) (log0 : list StCutReplayRec) (tr : Trial) : Prop :=
  aligned tr.1 /\ length (add_set (work tr.1)) = length (add_set (work c0)) /\
  mark_table tr.1 = mark_table c0 /\ ownership tr.1 = ownership c0 /\
  Forall rec_ok tr.2 /\
  exists new, tr.2 = log0 ++ new /\ undone_by (work c0) (work tr.1) new.

Lemma connect_fields src dst thr cb c e c' cb' :
  aligned c -> connect_nodes src dst thr cb c = Some (e, c', cb') ->
  mark_table c' = mark_table c /\ ownership c' = ownership c /\
  (forall log, cb = Some log -> Forall rec_ok log -> forall log', cb' = Some log' -> Forall rec_ok log').
Proof.
  intros Ha E. unfold connect_nodes in E. destruct (add_set (work c) !! src) as [l|]; [|done]. cbn in E.
  assert (forall x, mark_table (sync_bitmap x) = mark_table x /\ ownership (sync_bitmap x) = ownership x) as Hsync
    by (intros x; unfold sync_bitmap; repeat case_match; done).
  assert (forall log r, Forall rec_ok log -> rec_ok r -> Forall rec_ok (log ++ [r])) as Hsnoc.
  { intros log r ? ?. apply Forall_app. split; [done|]. by apply Forall_singleton. }
  destruct (find_pair (weight_table (work c)) l dst) as [[x|]|]; cbn in E; [| |done].
  - destruct (weight_table (work c) !! x) as [sl|] eqn:Hsl; [|done]. cbn in E. simplify_eq. split_and!; try done.
    intros log -> Hlog log'. destruct (negb (thr =? 0)); cbn; intros [= <-]; [|done].
    apply Hsnoc; [done|]. left. split; [done|]. by eapply al_weights.
  - destruct (new_pair src dst thr c) as [[[a b] c1]|] eqn:En; [|done]. cbn in E. simplify_eq.
    rewrite (proj1 (Hsync _)), (proj2 (Hsync _)). cbn.
    rewrite new_pair_fresh in En by apply Ha. cbn in En. simplify_eq.
    split_and!; try done. intros log -> Hlog log' [= <-]. apply Hsnoc; [done|by right].
Qed.

Lemma trial_connect_ok c0 log0 src dst tr :
  on_trial c0 log0 tr -> (src < length (add_set (work c0)))%nat -> (dst < length (add_set (work c0)))%nat ->
  exists tr', trial_connect src dst tr = Some tr' /\ on_trial c0 log0 tr'.
Proof.
  destruct tr as [c log]. intros (Ha & Hlen & Hm & Ho & Hty & new & Hlog & Hund) Hs Hd. cbn in *.
  destruct (connect_undone c src dst STCUT_MAX_WEIGHT log) as (e & c' & k & E & Hi' & Hlen' & Hund');
    [apply Ha|lia|lia|done|]. unfold trial_connect. cbn. rewrite E. cbn [mbind option_bind].
  destruct (connect_fields _ _ _ _ _ _ _ _ Ha E) as (Hm' & Ho' & Hty').
  eexists. split; [done|]. unfold on_trial. cbn. split_and!; try congruence.
  - eapply (connect_aligned c src dst STCUT_MAX_WEIGHT); [done|lia|lia|done|done].
  - by eapply Hty'.
  - exists (new ++ k). split; [by rewrite Hlog, app_assoc|]. by eapply undone_app.
Qed.

Lemma connect_grows src dst thr cb c e c' cb' :
  graph_inv c -> connect_nodes src dst thr cb c = Some (e, c', cb') ->
  (length (weight_table (work c)) <= length (weight_table (work c')))%nat.
Proof.
  intros Hi Ec. unfold connect_nodes in Ec. destruct (add_set (work c) !! src) as [l|]; [|done].
  cbn in Ec. destruct (find_pair (weight_table (work c)) l dst) as [[x|]|]; cbn in Ec; [| |done].
  - destruct (weight_table (work c) !! x); [|done]. cbn in Ec. simplify_eq. cbn. by rewrite length_alter.
  - rewrite new_pair_fresh in Ec by apply Hi. cbn in Ec. simplify_eq.
    rewrite (proj1 (sync_bitmap_fields _)). cbn. rewrite length_app. lia.
Qed.

Lemma batch_edges_ok arg2 arg3 arg4 v5 v6 c log0 :
  aligned c -> Forall rec_ok log0 ->
  (arg2 < length (add_set (work c)))%nat -> (arg3 < length (add_set (work c)))%nat ->
  (arg4 < length (add_set (work c)))%nat ->
  Forall (fun n => n < length (add_set (work c)))%nat v5 ->
  Forall (fun n => n < length (add_set (work c)))%nat v6 ->
  exists tr, batch_edges arg2 arg3 arg4 v5 v6 (c, log0) = Some tr /\ on_trial c log0 tr.
Proof.
  intros Ha Hty H2 H3 H4 H5 H6.
  assert (on_trial c log0 (c, log0)) as H0.
  { split_and!; try done. exists []. rewrite app_nil_r. split; [done|apply undone_nil]. }
  unfold batch_edges. destruct (trial_connect_ok c log0 arg2 arg4 _ H0 H2 H4) as (tr1 & -> & Htr1).
  cbn [mbind option_bind]. pose proof Htr1 as (Ha1 & Hlen1 & _).
  rewrite <-Hlen1 in H4. destruct (lookup_lt_is_Some_2 _ _ H4) as [l Hl]. rewrite Hl. cbn [mbind option_bind].
  destruct (foldM_total (fun tr rel =>
                sl ← weight_table (work tr.1) !! rel;
                if negb (Z.land (flags sl) 4 =? 0) then Some tr
                else if (canon sl =? arg3)%nat then Some tr
                else trial_connect (canon sl) arg3 tr)
    (fun tr => on_trial c log0 tr /\ (length (weight_table (work tr1.1)) <= length (weight_table (work tr.1)))%nat)
    l tr1) as (tr2 & -> & Htr2 & _).
  - intros tr rel Hrel [Htr Hgrow]. pose proof Htr as (Hat & Hlent & _).
    assert (rel < length (weight_table (work tr1.1)))%nat.
    { apply (slot_bound_add tr1.1 (al_inv _ Ha1) arg4). by exists l. }
    destruct (lookup_lt_is_Some_2 (weight_table (work tr.1)) rel) as [sl Hsl]; [lia|]. rewrite Hsl. cbn [mbind option_bind].
    destruct (gi_partner _ (al_inv _ Hat) rel sl Hsl) as [Hc _].
    repeat case_match; try by eexists.
    destruct (trial_connect_ok c log0 (canon sl) arg3 tr Htr) as (tr' & E & Htr'); [lia|done|].
    exists tr'. split; [done|]. split; [done|].
    unfold trial_connect in E.
    destruct (connect_nodes (canon sl) arg3 STCUT_MAX_WEIGHT (Some tr.2) tr.1) as [[[e c'] cb']|] eqn:Ec; [|done].
    cbn in E. destruct cb' as [k|]; [|done]. cbn in E. simplify_eq. cbn.
    apply connect_grows in Ec; [lia|apply Hat].
  - done.
  - cbn [mbind option_bind].
    destruct (foldM_total (fun tr e => trial_connect arg2 e tr) (on_trial c log0) v5 tr2) as (tr3 & -> & Htr3);
      [|done|].
    { intros tr e He Htr. rewrite Forall_forall in H5. apply trial_connect_ok; auto. }
    cbn [mbind option_bind]. apply foldM_total; [|done].
    intros tr e He Htr. rewrite Forall_forall in H6. apply trial_connect_ok; auto.
Qed.
(** * The migration walk *)

(** A slot the walk may cross: its node is neither frozen nor an anchor, and
    a slot with bit 4 has room on its partner. *)
Definition open_slot (t : Tables) (led : list Z) (s : nat) : bool :=
  match weight_table t !! s with
  | None => false
  | Some sl =>
      match group_flags t !! canon sl with Some g => Z.land g 3 =? 0 | None => false end &&
      ((Z.land (flags sl) 4 =? 0) ||
       match weight_table t !! idx sl, led !! idx sl with Some pl, Some l => l <? weight pl | _, _ => false end)
  end.

Definition crosses (t : Tables) (led : list Z) (u v : nat) : Prop :=
  exists s sl, listed (add_set t) u s /\ weight_table t !! s = Some sl /\ canon sl = v /\ open_slot t led s = true.

Section walk.
Context (c : StCutContext) (Ha : aligned c) (led : list Z) (seed : nat) (new_id : Z) (owner0 : list Z).
Context (Hled : (length (weight_table (work c)) <= length led)%nat).
#[local] Notation t := (work c).
#[local] Notation N := (length (add_set (work c))).
#[local] Notation M := (length (mark_table c)).

Definition mark_node (v : nat) (w : Walk) : Walk :=
  if decide (w_marks w !! v = Some 0)
  then mkWalk (<[v := 1]> (w_marks w)) (w_owner w) (w_out w) (w_next w ++ [v]) else w.

Lemma walk_edge_eq w u e sl :
  length (w_marks w) = M -> listed (add_set t) u e -> weight_table t !! e = Some sl ->
  walk_edge t led w e = Some (if open_slot t led e then mark_node (canon sl) w else w).
Proof.
  intros Hlm He Hsl. destruct (gi_add c (al_inv c Ha) u e He) as (sl' & pl & Hsl' & Hpl & _ & _). simplify_eq.
  destruct (gi_partner c (al_inv c Ha) e sl Hsl) as [Hc _].
  destruct (lookup_lt_is_Some_2 (group_flags t) (canon sl)) as [g Hg]; [by rewrite (al_flags c Ha)|].
  destruct (lookup_lt_is_Some_2 (w_marks w) (canon sl)) as [m Hm]; [pose proof (al_marks c Ha); lia|].
  destruct (lookup_lt_is_Some_2 led (idx sl)) as [l Hl]; [apply lookup_lt_Some in Hpl; lia|].
  unfold walk_edge, open_slot, mark_node. rewrite Hsl. cbn [mbind option_bind]. rewrite Hpl, Hl, Hg, Hm.
  cbn [mbind option_bind].
  assert ((if negb (m =? 0) then Some w
           else Some (mkWalk (<[canon sl := 1]> (w_marks w)) (w_owner w) (w_out w) (w_next w ++ [canon sl]))) =
          Some (if decide (Some m = Some 0)
                then mkWalk (<[canon sl := 1]> (w_marks w)) (w_owner w) (w_out w) (w_next w ++ [canon sl]) else w)) as ->.
  { destruct (Z.eqb_spec m 0) as [->|]; [by rewrite decide_True|by rewrite decide_False by congruence]. }
  destruct (Z.land (flags sl) 4 =? 0), (Z.land g 3 =? 0), (l <? weight pl); done.
Qed.

Record walk_inv (w : Walk) (disc : list nat) : Prop := {
  wi_nodup : NoDup disc;
  wi_marks : length (w_marks w) = M;
  wi_node n : n ∈ disc -> (n < N)%nat;
  wi_disc n : n ∈ disc <-> exists m, w_marks w !! n = Some m /\ m <> 0;
  wi_reach n : n ∈ disc -> rtc (crosses t led) seed n
}.

(** Everything an expanded node leads to has been marked. *)
Definition expanded (disc dn : list nat) : Prop :=
  forall u v, u ∈ dn -> crosses t led u v -> v ∈ disc.

Definition walk_out (w : Walk) (dn : list nat) : Prop :=
  w_out w = filter (fun n => n <> seed /\ (n < length owner0)%nat) dn /\
  length (w_owner w) = length owner0 /\
  forall n, w_owner w !! n = if decide (n ∈ w_out w) then Some new_id else owner0 !! n.

Lemma walk_bound w disc : walk_inv w disc -> (length disc <= M)%nat.
Proof.
  intros Hi. rewrite <-(length_seq M 0). apply submseteq_length, NoDup_submseteq; [apply Hi|].
  intros n (m & Hm & _)%(wi_disc w disc Hi). apply elem_of_seq. apply lookup_lt_Some in Hm.
  rewrite (wi_marks w disc Hi) in Hm. lia.
Qed.

Lemma mark_node_ok w d r u v :
  walk_inv w (d ++ r) -> w_next w = r -> (v < N)%nat -> rtc (crosses t led) seed u -> crosses t led u v ->
  exists r', walk_inv (mark_node v w) (d ++ r') /\ w_next (mark_node v w) = r' /\ r `prefix_of` r' /\
    v ∈ d ++ r'.
Proof.
  intros Hi Hr Hv Hu Huv. unfold mark_node. destruct (decide (w_marks w !! v = Some 0)) as [H0|H0].
  - exists (r ++ [v]). cbn. split; [|split; [by rewrite Hr|split; [by eexists|set_solver]]].
    rewrite app_assoc. split; cbn.
    + apply NoDup_app. split_and!; [apply Hi| |apply NoDup_singleton].
      intros x Hx ->%list_elem_of_singleton. apply (wi_disc _ _ Hi) in Hx as (m & ? & ?). congruence.
    + by rewrite length_insert, (wi_marks _ _ Hi).
    + intros x [Hx| ->%list_elem_of_singleton]%elem_of_app; [by eapply wi_node|done].
    + intros x. rewrite elem_of_app, (wi_disc _ _ Hi), list_elem_of_singleton.
      destruct (decide (x = v)) as [->|].
      * split; [intros _|by right]. exists 1.
        by rewrite list_lookup_insert_eq by (rewrite (wi_marks _ _ Hi); pose proof (al_marks c Ha); lia).
      * rewrite list_lookup_insert_ne by done. naive_solver.
    + intros x [Hx| ->%list_elem_of_singleton]%elem_of_app; [by apply (wi_reach _ _ Hi)|by eapply rtc_r].
  - exists r. split_and!; try done. apply (wi_disc _ _ Hi).
    destruct (lookup_lt_is_Some_2 (w_marks w) v) as [m Hm]; [rewrite (wi_marks _ _ Hi); pose proof (al_marks c Ha); lia|].
    exists m. split; [done|]. intros ->. done.
Qed.

Lemma mark_node_out v w : w_out (mark_node v w) = w_out w /\ w_owner (mark_node v w) = w_owner w.
Proof. unfold mark_node. by destruct (decide _). Qed.

Lemma walk_edges_ok w d r u l :
  walk_inv w (d ++ r) -> w_next w = r -> rtc (crosses t led) seed u ->
  Forall (fun e => listed (add_set t) u e) l ->
  exists w' r', foldM (walk_edge t led) l w = Some w' /\ walk_inv w' (d ++ r') /\ w_next w' = r' /\
    r `prefix_of` r' /\ w_out w' = w_out w /\ w_owner w' = w_owner w /\
    forall e sl, e ∈ l -> weight_table t !! e = Some sl -> open_slot t led e = true -> canon sl ∈ d ++ r'.
Proof.
  intros Hi Hr Hu Hl. revert w r Hi Hr. induction Hl as [|e l He _ IH]; intros w r Hi Hr.
  { exists w, r. split_and!; try done. intros e sl []%not_elem_of_nil. }
  destruct (gi_add c (al_inv c Ha) u e He) as (sl & _ & Hsl & _).
  destruct (gi_partner c (al_inv c Ha) e sl Hsl) as [Hc _].
  cbn [foldM]. rewrite (walk_edge_eq w u e sl (wi_marks _ _ Hi) He Hsl). cbn [mbind option_bind].
  destruct (open_slot t led e) eqn:Eo.
  - destruct (mark_node_ok w d r u (canon sl) Hi Hr Hc Hu) as (r1 & Hi1 & Hr1 & Hp1 & Hin); [by exists e, sl|].
    destruct (IH _ r1 Hi1 Hr1) as (w' & r' & -> & Hi' & Hr' & Hp' & Ho1 & Hw1 & Hall).
    destruct (mark_node_out (canon sl) w) as [Ho2 Hw2].
    exists w', r'. split_and!; try done; [by etrans|congruence..|]. intros e' sl' [-> |He']%elem_of_cons Hs' Ho'.
    + simplify_eq. destruct Hp' as [k ->]. rewrite app_assoc. apply elem_of_app. by left.
    + by eapply Hall.
  - destruct (IH _ r Hi Hr) as (w' & r' & -> & Hi' & Hr' & Hp' & Ho1 & Hw1 & Hall).
    exists w', r'. split_and!; try done. intros e' sl' [-> |He']%elem_of_cons Hs' Ho'; [congruence|by eapply Hall].
Qed.
Lemma expanded_mono disc disc' dn : disc `prefix_of` disc' -> expanded disc dn -> expanded disc' dn.
Proof. intros [k ->] He u v Hu Huv. apply elem_of_app. left. by eapply He. Qed.

Lemma walk_node_ok w d r dn u :
  walk_inv w (d ++ r) -> w_next w = r -> walk_out w dn -> expanded (d ++ r) dn ->
  (u < N)%nat -> rtc (crosses t led) seed u ->
  exists w' r', walk_node t led seed new_id w u = Some w' /\ walk_inv w' (d ++ r') /\ w_next w' = r' /\
    r `prefix_of` r' /\ walk_out w' (dn ++ [u]) /\ expanded (d ++ r') (dn ++ [u]).
Proof.
  intros Hi Hr (Ho & Hlo & How) Hex HuN Hu. unfold walk_node.
  set (w1 := take_over seed new_id u w).
  assert (walk_inv w1 (d ++ r) /\ w_next w1 = r /\ walk_out w1 (dn ++ [u])) as (Hi1 & Hr1 & Hw1).
  { unfold w1, take_over, walk_out. rewrite Hlo, filter_app, filter_cons, filter_nil.
    destruct (Nat.eqb_spec u seed), (Nat.ltb_spec u (length owner0)); cbn [negb andb].
    1,2: rewrite decide_False by naive_solver; rewrite app_nil_r; done.
    - rewrite decide_True by done. cbn. rewrite length_insert. split; [by destruct Hi|]. split; [done|].
      split; [by rewrite Ho|]. split; [done|]. intros x. destruct (decide (x = u)) as [->|].
      + rewrite list_lookup_insert_eq by lia. rewrite decide_True by set_solver. done.
      + rewrite list_lookup_insert_ne by done. rewrite How. apply decide_ext. set_solver.
    - rewrite decide_False by (intros [? ?]; lia). rewrite app_nil_r. done. }
  destruct (lookup_lt_is_Some_2 (add_set t) u HuN) as [l Hl]. rewrite Hl. cbn [mbind option_bind].
  destruct (walk_edges_ok w1 d r u l Hi1 Hr1 Hu) as (w' & r' & E & Hi' & Hr' & Hp & Ho' & Hw' & Hall).
  { apply Forall_forall. intros e He. by exists l. }
  exists w', r'. split_and!; try done.
  - unfold walk_out. rewrite Ho', Hw'. done.
  - intros x v [Hx| ->%list_elem_of_singleton]%elem_of_app Hxv.
    + by eapply (expanded_mono (d ++ r)); [apply prefix_app|..].
    + destruct Hxv as (s & sl & (l' & Hl' & Hs) & Hsl & <- & Hop). simplify_eq. by eapply Hall.
Qed.

Lemma walk_layer_ok wl w d r dn :
  walk_inv w (d ++ r) -> w_next w = r -> walk_out w dn -> expanded (d ++ r) dn ->
  Forall (fun u => (u < N)%nat /\ rtc (crosses t led) seed u) wl ->
  exists w' r', foldM (walk_node t led seed new_id) wl w = Some w' /\ walk_inv w' (d ++ r') /\
    w_next w' = r' /\ walk_out w' (dn ++ wl) /\ expanded (d ++ r') (dn ++ wl).
Proof.
  intros Hi Hr Ho Hex Hwl. revert w r dn Hi Hr Ho Hex.
  induction Hwl as [|u wl [HuN Hu] _ IH]; intros w r dn Hi Hr Ho Hex.
  { exists w, r. rewrite app_nil_r. done. }
  cbn [foldM]. destruct (walk_node_ok w d r dn u) as (w1 & r1 & -> & Hi1 & Hr1 & _ & Ho1 & Hex1); try done.
  cbn [mbind option_bind]. destruct (IH w1 r1 (dn ++ [u])) as (w2 & r2 & ? & ? & ? & ? & ?); try done.
  exists w2, r2. rewrite cons_middle, app_assoc. done.
Qed.

Lemma walk_layers_ok fuel wl w disc dn :
  walk_inv w disc -> walk_out w dn -> expanded disc dn -> dn ++ wl = seed :: disc ->
  (seed < N)%nat -> (M < fuel + length disc)%nat ->
  exists w' disc', walk_layers t led seed new_id fuel wl w = Some w' /\ walk_inv w' disc' /\
    walk_out w' (seed :: disc') /\ expanded disc' (seed :: disc').
Proof.
  revert wl w disc dn. induction fuel as [|fuel IH]; intros wl w disc dn Hi Ho Hex Hdn Hseed Hfuel.
  { pose proof (walk_bound _ _ Hi). lia. }
  destruct wl as [|u wl]; cbn [walk_layers].
  { rewrite app_nil_r in Hdn. subst dn. by exists w, disc. }
  destruct (walk_layer_ok (u :: wl) (mkWalk (w_marks w) (w_owner w) (w_out w) []) disc [] dn)
    as (w1 & r1 & -> & Hi1 & Hr1 & Ho1 & Hex1).
  - rewrite app_nil_r. by destruct Hi.
  - done.
  - done.
  - by rewrite app_nil_r.
  - apply Forall_forall. intros x Hx. assert (x ∈ seed :: disc) as [-> |Hxd]%elem_of_cons.
    { rewrite <-Hdn. apply elem_of_app. by right. }
    + split; [done|apply rtc_refl].
    + split; [by eapply wi_node|by apply (wi_reach _ _ Hi)].
  - cbn [mbind option_bind]. destruct r1 as [|x r1].
    + rewrite Hr1, app_nil_r in *. destruct fuel; cbn; exists w1, disc; split_and!; try done; by rewrite <-Hdn.
    + apply (IH (w_next w1) w1 (disc ++ x :: r1) (dn ++ u :: wl)); try done.
      * by rewrite Hdn, Hr1.
      * rewrite length_app. cbn. lia.
Qed.
End walk.

(** The walk ends; it gives the new owner to exactly the nodes other than the
    seed that can be reached from the seed over open slots. *)
Lemma walk_ok c led seed new_id owner0 :
  aligned c -> (length (weight_table (work c)) <= length led)%nat ->
  (seed < length (add_set (work c)))%nat ->
  exists w, walk_layers (work c) led seed new_id (S (length (mark_table c))) [seed]
      (mkWalk (replicate (length (mark_table c)) 0) owner0 [] []) = Some w /\
    length (w_marks w) = length (mark_table c) /\ length (w_owner w) = length owner0 /\ NoDup (w_out w) /\
    (forall n, n ∈ w_out w <->
       n <> seed /\ (n < length owner0)%nat /\ rtc (crosses (work c) led) seed n) /\
    (forall n, n ∈ w_out w -> (n < length (add_set (work c)))%nat) /\
    (forall n, w_owner w !! n = if decide (n ∈ w_out w) then Some new_id else owner0 !! n).
Proof.
  intros Ha Hled Hseed.
  destruct (walk_layers_ok c Ha led seed new_id owner0 Hled (S (length (mark_table c))) [seed]
    (mkWalk (replicate (length (mark_table c)) 0) owner0 [] []) [] []) as (w & disc & E & Hi & (Ho & Hlo & How) & Hex);
    [..|done|done|cbn; lia|].
  - split; cbn; [constructor|by rewrite length_replicate|by intros ? []%not_elem_of_nil| |by intros ? []%not_elem_of_nil].
    intros n. split; [by intros []%not_elem_of_nil|]. intros (m & [-> _]%lookup_replicate & ?). done.
  - split_and!; [done..|]. intros n. cbn. by rewrite decide_False by (by intros []%not_elem_of_nil).
  - by intros u v []%not_elem_of_nil.
  - exists w. split; [done|]. split; [by rewrite (wi_marks _ _ _ _ _ Hi)|]. split; [done|].
    assert (forall n, n ∈ w_out w <-> n <> seed /\ (n < length owner0)%nat /\ n ∈ disc) as Hout.
    { intros n. rewrite Ho, list_elem_of_filter, elem_of_cons. naive_solver. }
    split_and!; try done.
    + rewrite Ho, filter_cons, decide_False by naive_solver. by apply NoDup_filter, (wi_nodup _ _ _ _ _ Hi).
    + intros n. rewrite Hout. split; [intros (? & ? & Hd); split_and!; [done..|by apply (wi_reach _ _ _ _ _ Hi)]|].
      intros (Hne & ? & Hr). split_and!; try done.
      assert (n ∈ seed :: disc) as [?|?]%elem_of_cons; [|done..].
      refine (rtc_ind_r (fun n => n ∈ seed :: disc) seed _ _ n Hr); [by left|].
      intros u v _ Huv Hu. right. by eapply Hex.
    + intros n (_ & _ & Hd)%Hout. by eapply wi_node.
Qed.
(** * The cut *)

Lemma extends_trans t u v : extends t u -> extends u v -> extends t v.
Proof. intros [? ? ? ?] [? ? ? ?]. split; try congruence. by etrans. Qed.

(** A batch runs a trial on the tables and a flow over them. *)
Lemma batch_accounting_ok arg2 arg3 arg4 v5 v6 c :
  aligned c ->
  (arg2 < length (add_set (work c)))%nat -> (arg3 < length (add_set (work c)))%nat ->
  (arg4 < length (add_set (work c)))%nat ->
  Forall (fun n => n < length (add_set (work c)))%nat v5 ->
  Forall (fun n => n < length (add_set (work c)))%nat v6 ->
  exists est c' log, batch_accounting arg2 arg3 arg4 v5 v6 (c, []) = Some (est, (c', log)) /\
    aligned c' /\ length (add_set (work c')) = length (add_set (work c)) /\
    length (mark_table c') = length (mark_table c) /\
    ownership c' = ownership c /\ Forall rec_ok log /\ undone_by (work c) (work c') log /\ kept c c'.
Proof.
  intros Ha H2 H3 H4 H5 H6. unfold batch_accounting.
  destruct (batch_edges_ok arg2 arg3 arg4 v5 v6 c []) as ([c1 log] & E & Ha1 & Hlen & Hm & Ho & Hty & new & Hlog & Hund);
    try done. rewrite E. apply batch_edges_kept in E. cbn in *. subst log.
  destruct (iterate_ok c1 arg2 arg3 Ha1) as (total & c2 & T & -> & Hof & _); [lia|]. cbn.
  exists total, c2, new. pose proof (only_flow_work _ _ Hof) as Hw.
  split; [done|]. split; [by eapply only_flow_aligned|]. rewrite Hw.
  apply only_flow_kept in Hof as Hk. destruct Hof as (? & ? & ? & ? & ? & ? & Hlm & ? & ->). cbn.
  split_and!; try done; congruence.
Qed.

Lemma export_rels_ok c owner new_id l acc :
  aligned c -> Forall (fun s => s < length (weight_table (work c)))%nat l ->
  Forall (fun s => s < length (weight_table (work c)))%nat acc ->
  exists acc', export_rels (work c) owner new_id l acc = Some acc' /\
    Forall (fun s => s < length (weight_table (work c)))%nat acc'.
Proof.
  intros Ha Hl. unfold export_rels. revert acc.
  induction Hl as [|s l Hs _ IH]; intros acc Hacc; [by exists acc|]. cbn [foldM].
  destruct (lookup_lt_is_Some_2 _ _ Hs) as [sl Hsl]. rewrite Hsl. cbn [mbind option_bind].
  destruct (gi_partner c (al_inv c Ha) s sl Hsl) as (_ & pl & Hp & _). apply lookup_lt_Some in Hp.
  repeat case_match; cbn [mbind option_bind]; apply IH; try done; apply Forall_app; split; try done;
    by apply Forall_singleton.
Qed.

(** [stcut_cut_execute] on anchors, cursor and candidates that are nodes. *)
Lemma cut_execute_ok c add_entry seed cursor new_id bef aft :
  aligned c ->
  Forall (fun n => n < length (add_set (work c)))%nat ([add_entry; seed; cursor] ++ bef ++ aft) ->
  exists est out ex c', cut_execute add_entry seed cursor new_id bef aft c = Some (est, out, ex, c') /\
    aligned c' /\ extends (work c) (work c') /\
    NoDup out /\ seed ∉ out /\ (forall n, n ∈ out -> (n < length (add_set (work c)))%nat) /\
    length (ownership c') = length (ownership c) /\
    (forall n, ownership c' !! n = if decide (n ∈ out) then Some new_id else ownership c !! n) /\
    Forall (fun s => s < length (weight_table (work c')))%nat ex /\ kept c c' /\
    length (mark_table c') = length (mark_table c).
Proof.
  intros Ha [Hanch [Hb Hf]%Forall_app]%Forall_app.
  apply Forall_cons in Hanch as [H2 [H3 [H4 _]%Forall_cons]%Forall_cons]. unfold cut_execute.
  destruct (batch_accounting_ok add_entry seed cursor bef aft c) as
    (est & c1 & log & -> & Ha1 & Hl1 & Hm1 & Ho1 & Hty1 & Hu1 & Hk1); try done. cbn [mbind option_bind].
  assert (exists est' c2 log2 base,
    (if STCUT_BATCH_CAP <=? est then
       t ← replay_apply log (work c1);
       batch_accounting add_entry seed cursor [] [] (set_work t c1, [])
     else Some (est, (c1, log))) = Some (est', (c2, log2)) /\
    aligned c2 /\ length (add_set (work c2)) = length (add_set (work c)) /\
    ownership c2 = ownership c /\ Forall rec_ok log2 /\
    extends (work c) base /\ undone_by base (work c2) log2 /\ kept c c2 /\
    length (mark_table c2) = length (mark_table c)) as
    (est' & c2 & log2 & base & -> & Ha2 & Hl2 & Ho2 & Hty2 & Hext & Hu2 & Hk2 & Hm2).
  { destruct (STCUT_BATCH_CAP <=? est).
    - destruct (replay_aligned log c1 Ha1 Hty1) as (t & Et & Hat).
      destruct (Hu1 (work c1) (extends_refl _)) as (t' & Et' & Hext). assert (t' = t) as -> by congruence.
      rewrite Et. cbn [mbind option_bind].
      destruct (batch_accounting_ok add_entry seed cursor [] [] (set_work t c1)) as
        (est2 & c2 & log2 & E2 & ? & Hl2 & Hm2 & Ho2 & ? & ? & Hk2); try done; cbn; rewrite ?(ext_add _ _ Hext); try done.
      cbn in *. rewrite (ext_add _ _ Hext) in Hl2.
      exists est2, c2, log2, t. split_and!; try done; try congruence. exact (kept_trans c c1 c2 Hk1 Hk2).
    - exists est, c1, log, (work c). by split_and!. }
  cbn [mbind option_bind].
  destruct (walk_ok c2 (threshold_ledger c2) seed new_id (ownership c2) Ha2) as
    (w & Ew & Hwm & Hwo & Hnd & Hout & Hbound & Hown); [apply (gi_ledger c2 (al_inv c2 Ha2))|lia|].
  rewrite length_replicate, Ew. cbn [mbind option_bind].
  destruct (replay_aligned log2 c2 Ha2 Hty2) as (t & Et & Hat).
  destruct (Hu2 (work c2) (extends_refl _)) as (t' & Et' & Hext2). assert (t' = t) as -> by congruence.
  rewrite Et. cbn [mbind option_bind].
  pose proof (extends_trans _ _ _ Hext Hext2) as Hex.
  set (c3 := set_work t (set_mark_table (w_marks w) (set_ownership (w_owner w) c2))).
  assert (aligned c3) as Ha3.
  { destruct Hat as [[? ? ? ? ? ? ? ? ?] Hm ? ? ? ?]. split; cbn in *; [by split|by rewrite Hwm|done|done|by rewrite Hwm|done]. }
  assert (forall n l, add_set (work c3) !! n = Some l ->
            Forall (fun s => s < length (weight_table (work c3)))%nat l) as Hsl.
  { intros n l Hl. apply Forall_forall. intros s Hs. apply (slot_bound_add c3 (al_inv c3 Ha3) n). by exists l. }
  assert (length (add_set (work c3)) = length (add_set (work c))) as Hl3 by (cbn; by rewrite (ext_add _ _ Hex)).
  destruct (lookup_lt_is_Some_2 (add_set (work c3)) seed) as [l Hl]; [by rewrite Hl3|]. rewrite Hl. cbn [mbind option_bind].
  destruct (export_rels_ok c3 (w_owner w) new_id l [] Ha3 (Hsl _ _ Hl) (Forall_nil_2 _)) as (ex & -> & Hexv). cbn [mbind option_bind].
  destruct (foldM_total (fun acc n => l ← add_set (work c3) !! n; export_rels (work c3) (w_owner w) new_id l acc)
    (Forall (fun s => s < length (weight_table (work c3)))%nat) (w_out w) ex) as (ex' & -> & Hexv'); [|done|].
  { intros acc n Hn Hacc. destruct (lookup_lt_is_Some_2 (add_set (work c3)) n) as [l' Hl'].
    { rewrite Hl3, <-Hl2. by apply Hbound. }
    rewrite Hl'. cbn [mbind option_bind].
    by apply export_rels_ok; [|eapply Hsl|]. }
  cbn [mbind option_bind]. eexists _, _, _, _. split; [done|]. split; [done|]. split; [done|]. split; [done|].
  split; [by intros (? & _)%Hout|]. split; [intros n Hn; rewrite <-Hl2; by apply Hbound|].
  split; [cbn; by rewrite Hwo, Ho2|]. split; [intros n; cbn; by rewrite Hown, Ho2|].
  split; [done|]. split; [done|]. cbn. by rewrite Hwm.
Qed.

(** C29: A trial cut ends inside the tables and takes its edges back.  On
    aligned tables, for anchors, cursor and candidates that are nodes,
    [stcut_cut_execute] returns; nodes, group flags and the add lists are the
    ones from before, every slot has its old weight and partner, and the edge
    invariant holds; the migrated nodes are distinct, none is the seed, and
    they, and only they, now belong to the new record. *)
Theorem cut_execute_restores c add_entry seed cursor new_id bef aft :
  aligned c ->
  Forall (fun n => n < length (add_set (work c)))%nat ([add_entry; seed; cursor] ++ bef ++ aft) ->
  exists est out ex c', cut_execute add_entry seed cursor new_id bef aft c = Some (est, out, ex, c') /\
    aligned c' /\ extends (work c) (work c') /\
    NoDup out /\ seed ∉ out /\ (forall n, n ∈ out -> (n < length (add_set (work c)))%nat) /\
    length (ownership c') = length (ownership c) /\
    (forall n, ownership c' !! n = if decide (n ∈ out) then Some new_id else ownership c !! n).
Proof.
  intros Ha Hn. destruct (cut_execute_ok c add_entry seed cursor new_id bef aft Ha Hn) as
    (est & out & ex & c' & ? & ? & ? & ? & ? & ? & ? & ? & _). by exists est, out, ex, c'.
Qed.

(** * From the input graph *)

Definition weights_ok (rs : list Relation) : Prop := Forall (fun r => 0 <= r_weight r < 2 ^ 62) rs.

Lemma built_weights rs s sl :
  weights_ok rs -> concat (imap relation_slots rs) !! s = Some sl -> 0 <= weight sl < 2 ^ 62.
Proof.
  intros Hw Hs. apply list_elem_of_lookup_2, elem_of_concat in Hs as (l & Hl & Hs).
  apply list_elem_of_lookup in Hl as [i Hl]. rewrite list_lookup_imap in Hl.
  apply fmap_Some in Hl as (r & Hr & ->). unfold weights_ok in Hw. rewrite Forall_lookup in Hw.
  specialize (Hw i r Hr). unfold relation_slots in Hs.
  apply elem_of_cons in Hs as [->|[->|[]%not_elem_of_nil]%elem_of_cons]; done.
Qed.

Lemma words_for_covers n : (n <= 32 * words_for n)%nat.
Proof.
  unfold words_for. pose proof (Nat.div_mod_eq (n + 31) 32). pose proof (Nat.mod_upper_bound (n + 31) 32). lia.
Qed.

(** What is built from a small graph is aligned. *)
Lemma build_aligned input c :
  relations_ok (in_node_count input) (relations input) -> weights_ok (relations input) ->
  Z.of_nat (in_node_count input) + 4 < 2 ^ 16 -> build_initial_state input = Some c ->
  aligned c /\ length (add_set (work c)) = in_node_count input.
Proof.
  intros Hok Hw Hn E. destruct (build_initial_state_ok input Hok) as
    (c' & E' & Hi & (Hwt & _) & Hns & Hgf & Hmk & _ & Hbm & _). assert (c' = c) as -> by congruence.
  assert (length (add_set (work c)) = in_node_count input) as Hlen.
  { by rewrite <-(gi_nodes c Hi), Hns, length_fmap, length_seq. }
  split; [|done]. split; try done; rewrite ?Hlen.
  - by rewrite Hmk, length_replicate.
  - by rewrite Hgf, length_replicate.
  - rewrite Hbm, length_replicate. apply words_for_covers.
  - by rewrite Hmk, length_replicate.
  - intros s sl. rewrite Hwt. by apply built_weights.
Qed.

(** Six nodes on which the flow stops below the smallest cut. *)
Definition stuck_graph : StCutGraphInput :=
  mkInput 6
    [mkRelation 5 3 1 false; mkRelation 2 0 2 false; mkRelation 3 5 2 false; mkRelation 5 1 2 false;
     mkRelation 3 4 2 false; mkRelation 0 4 2 false; mkRelation 2 3 2 false; mkRelation 2 1 2 false]
    (seq 0 6) [].

Lemma stuck_graph_ok :
  relations_ok 6 (relations stuck_graph) /\ weights_ok (relations stuck_graph).
Proof. split; repeat constructor; cbn; lia. Qed.

Lemma iterate_is_flow_witness :
  exists c total c', build_initial_state stuck_graph = Some c /\ aligned c /\
    iterate 0 5 c = Some (total, c') /\ 0 <= total <= cut_weight (work c) [0; 2]%nat.
Proof.
  destruct (build_initial_state stuck_graph) as [c|] eqn:E; [|by vm_compute in E].
  destruct (build_aligned stuck_graph c) as [Ha Hlen];
    [apply stuck_graph_ok|apply stuck_graph_ok|cbn; lia|exact E|].
  destruct (iterate_is_flow c 0 5 Ha) as (total & c' & Ei & _ & _ & _ & Hcut).
  - rewrite Hlen. cbn. lia.
  - lia.
  - vm_compute in E. injection E as <-. vm_compute. reflexivity.
  - exists c, total, c'. split; [reflexivity|]. split; [exact Ha|]. split; [exact Ei|].
    apply Hcut; [|left|intros [H|[H|[]%not_elem_of_nil]%elem_of_cons]%elem_of_cons; discriminate].
    constructor; [intros [H|[]%not_elem_of_nil]%elem_of_cons; discriminate|].
    constructor; [apply not_elem_of_nil|constructor].
Defined.

(** A ledger that carries four units from node 0 to node 5 of that graph. *)
Definition better_ledger : list Z :=
  map u64 [-1; 1; -2; 2; 2; -2; -1; 1; -2; 2; 2; -2; 1; -1; 1; -1].

Definition flow_okb (t : Tables) (led : list Z) : bool :=
  forallb (fun s => match weight_table t !! s with
                    | Some sl =>
                        match led !! s, led !! idx sl with
                        | Some f, Some g =>
                            (0 <=? f) && (f <? 2 ^ 64) && (sv f + sv g =? 0) && (sv f <=? weight sl)
                        | _, _ => false
                        end
                    | None => true
                    end) (seq 0 (length (weight_table t))).

Lemma flow_okb_ok t led : flow_okb t led = true -> flow_ok t led.
Proof.
  intros H s sl Hs. unfold flow_okb in H. rewrite forallb_forall in H.
  specialize (H s). rewrite Hs in H. assert (In s (seq 0 (length (weight_table t)))) as Hin.
  { apply list_elem_of_In, elem_of_seq. apply lookup_lt_Some in Hs. lia. }
  specialize (H Hin). destruct (led !! s) as [f|]; [|done]. destruct (led !! idx sl) as [g|]; [|done].
  exists f, g. bool_prop. split_and!; try done; lia.
Qed.

(** The flow that [stcut_iterate] finds need not be a largest one.  A
    ledger entry that was decreased wraps below zero and is then compared as
    an unsigned number, so it counts as saturated and no flow is ever taken
    back; and the flood stops in the generation that meets the target.  On
    six nodes and eight relations the function returns 3 while a flow of 4
    exists. *)
Theorem iterate_not_maximal :
  exists c c', build_initial_state stuck_graph = Some c /\ iterate 0 5 c = Some (3, c') /\
    flow_ok (work c) better_ledger /\ excess (work c) better_ledger 0 = 4 /\
    excess (work c) better_ledger 5 = -4 /\
    Forall (fun n => excess (work c) better_ledger n = 0) [1; 2; 3; 4]%nat.
Proof.
  destruct (build_initial_state stuck_graph) as [c|] eqn:E; [|by vm_compute in E].
  destruct (iterate 0 5 c) as [[total c']|] eqn:Ei; [|vm_compute in E; injection E as <-; by vm_compute in Ei].
  exists c, c'. split; [done|]. vm_compute in E. injection E as <-.
  split; [|split; [apply flow_okb_ok; by vm_compute|split; [by vm_compute|split; [by vm_compute|]]]].
  - f_equal. assert (total = 3) as ->; [|done]. by vm_compute in Ei; injection Ei.
  - repeat constructor; by vm_compute.
Qed.

Lemma cut_execute_restores_witness :
  exists c est out ex c', build_initial_state stuck_graph = Some c /\
    cut_execute 0 5 3 7 [1]%nat [2]%nat c = Some (est, out, ex, c') /\ extends (work c) (work c').
Proof.
  destruct (build_initial_state stuck_graph) as [c|] eqn:E; [|by vm_compute in E].
  destruct (build_aligned stuck_graph c) as [Ha Hlen];
    [apply stuck_graph_ok|apply stuck_graph_ok|cbn; lia|exact E|].
  destruct (cut_execute_restores c 0 5 3 7 [1]%nat [2]%nat Ha) as (est & out & ex & c' & Ec & _ & Hext & _).
  - rewrite Hlen. cbn. repeat constructor; lia.
  - exists c, est, out, ex, c'. split; [reflexivity|]. split; [exact Ec|exact Hext].
Defined.
