(* ===== verification/StCutLevels.v ===== *)
(** Levels, cut proposals, verdicts and the check of an order, after
    [src/compiler/src/scheduler/st_cut.cpp]: the wave numbering of the nodes
    over the edges without and with bit 4, the choice of the node a record is
    cut at, the verdict on a cut set, the memory measures of an order and the
    closure that decides whether an order respects its producers. *)
From S2P Require Import Prelude StCutGraph StCutFlow.

Definition STCUT_MIN_BUCKETS : Z := 8.
Definition STCUT_VERDICT_FIX : Z := 0x2AAAAAAA.
Definition STCUT_VERDICT_THR : Z := 0x340000000.

(** * Levels *)

(** One wave: the queue, the marks, and the positions that were ready. *)
Record Wave := mkWave { wv_queue : list nat; wv_marks : list Z; wv_ready : list nat }.

Section levels.
Context (t : Tables).

(** [stcut_mark_levels]: a slot of the subtract list holds a node back unless
  its other end is outside the table or already has a level, or the slot
  carries bit 4. *)
Definition soft_slot_ready (marks : list Z) (s : nat) : option bool :=
sl ← weight_table t !! s;
psl ← weight_table t !! idx sl;
match marks !! canon psl with
| None => Some true
| Some m => Some ((1 <? m) || bit4 sl)
end.

(** [stcut_level_mark_bfs]: the same with the opposite reading of bit 4. *)
Definition hard_slot_ready (marks : list Z) (s : nat) : option bool :=
sl ← weight_table t !! s;
if negb (bit4 sl) then Some true
else
  psl ← weight_table t !! idx sl;
  match marks !! canon psl with
  | None => Some true
  | Some m => Some (1 <? m)
  end.

Section wave.
Context (slot_ready : list Z -> nat -> option bool) (spreads : StCutSlot -> bool).

(** The test loop stops at the first slot that holds the node back. *)
Fixpoint node_ready (marks : list Z) (l : list nat) : option bool :=
match l with
| [] => Some true
| s :: l => r ← slot_ready marks s; if (r : bool) then node_ready marks l else Some false
end.

Definition spread_slot (w : Wave) (s : nat) : option Wave :=
sl ← weight_table t !! s;
if negb (spreads sl) then Some w
else
  match wv_marks w !! canon sl with
  | Some m =>
      if negb (m =? 0) then Some w
      else Some (mkWave (wv_queue w ++ [canon sl]) (<[canon sl := 1]> (wv_marks w)) (wv_ready w))
  | None => Some w
  end.

Definition wave_step (w : Wave) (i : nat) : option Wave :=
node ← wv_queue w !! i;
subs ← subtract_set t !! node;
r ← node_ready (wv_marks w) subs;
if negb r then Some w
else
  adds ← add_set t !! node;
  foldM spread_slot adds (mkWave (wv_queue w) (wv_marks w) (wv_ready w ++ [i])).

(** The ready nodes, last first, get the level and leave the queue: each is
  replaced by the last element. *)
Definition settle (level : Z) (qm : list nat * list Z) (i : nat) : option (list nat * list Z) :=
node ← qm.1 !! i;
_ ← qm.2 !! node;
x ← last qm.1;
Some (removelast (<[i := x]> qm.1), <[node := u16 level]> qm.2).

Fixpoint level_loop (max_levels : nat) (level : Z) (queue : list nat) (marks : list Z)
  : option (list Z) :=
match queue, max_levels with
| [], _ => Some marks
| _, O => Some marks
| _, S max_levels =>
    w ← foldM wave_step (seq 0 (length queue)) (mkWave queue marks []);
    '(queue, marks) ← foldM (settle level) (reverse (wv_ready w)) (wv_queue w, wv_marks w);
    level_loop max_levels (u32 (level + 1)) queue marks
end.
End wave.

Definition levels_from (slot_ready : list Z -> nat -> option bool) (spreads : StCutSlot -> bool)
  (seed max_levels : nat) (marks : list Z) : option (list Z) :=
let marks := replicate (length marks) 0 in
if (length (add_set t) <=? seed)%nat then Some marks
else level_loop slot_ready spreads max_levels 2 [seed] marks.
End levels.

Definition mark_levels (seed max_levels : nat) (c : StCutContext) : option StCutContext :=
  marks ← levels_from (work c) (soft_slot_ready (work c)) (fun sl => negb (bit4 sl)) seed max_levels (mark_table c);
  Some (set_mark_table marks c).

Definition level_mark_bfs (seed : nat) (marks : list Z) (max_levels : nat) (c : StCutContext)
    : option (list Z) :=
  levels_from (work c) (hard_slot_ready (work c)) bit4 seed max_levels marks.

(** * Proposing a cut *)

Definition local_weight (c : StCutContext) (new_marks : list Z) (tree : gmap nat Z) (n : nat)
    : option (gmap nat Z) :=
  let m_new := default 0 (new_marks !! n) in
  let m_old := default 0 (mark_table c !! n) in
  if negb (m_new =? 0) && negb (m_old =? 0) then
    g ← group_flags (work c) !! n;
    Some (if Z.land g 3 =? 0 then <[n := u64 ((m_new - 1) * m_old)]> tree else tree)
  else Some tree.

Definition build_local_tree (arg2 arg3 : nat) (c : StCutContext) : option (gmap nat Z * StCutContext) :=
  let wave_cap := (node_count c + 2)%nat in
  c ← mark_levels arg2 wave_cap c;
  new_marks ← level_mark_bfs arg3 (mark_table c) wave_cap c;
  tree ← foldM (local_weight c new_marks) (seq 0 (node_count c)) ∅;
  Some (tree, c).

(** The candidates of a table that belong to the record being cut. *)
Definition table_gate (c : StCutContext) (filter_id : Z) (i : nat) : list nat :=
  match cand_tables c !! i with
  | None => []
  | Some tbl =>
      if bool_decide (tbl = []) || (0xef <? Z.of_nat (length tbl) * 4) then []
      else filter (fun n => ownership c !! n = Some filter_id) tbl
  end.

Definition random_fallback (r : StCutRec) (c : StCutContext) : Z * StCutContext :=
  if (span_len r =? 0)%nat then (0, c)
  else
    let '(x, c) := rand_next c in
    match working_order c !! (range_start r + Z.to_nat (x mod Z.of_nat (span_len r)))%nat with
    | Some n => (Z.of_nat n, c)
    | None => (0, c)
    end.

(** One position of the scan over the record's range. *)
Definition scan_pos (tree : gmap nat Z) (exclusion : gset nat) (acc : Z * nat * StCutContext) (node : nat)
    : option (Z * nat * StCutContext) :=
  let '(best_w, best_node, c) := acc in
  g ← group_flags (work c) !! node;
  if negb (Z.land g 4 =? 0) then Some acc
  else
    let tv := default 0 (tree !! node) in
    let w := match cand_tables c !! node with
             | Some tbl => if Z.of_nat (length tbl) * 4 <? 0xf1 then u64 (Z.of_nat (length tbl) * tv) else 0
             | None => 0
             end in
    '(w, c) ← (if jitter (config c) =? 0 then Some (w, c)
               else
                 let m := u32 (jitter (config c) + 1) in
                 if m =? 0 then None
                 else
                   let '(x, c) := rand_next c in
                   Some (u64 (w + Z.shiftr (u64 ((x mod m) * w)) 6), c));
    if (best_w <? w) && bool_decide (node ∉ exclusion) then Some (w, node, c) else Some (best_w, best_node, c).

(** The hit that lies furthest from the nearer end, each new one at least one
    further than the last. *)
Definition furthest_step (exclusion : gset nat) (n : nat) (acc : nat * nat) (ih : nat * nat) : nat * nat :=
  let '(best_d, cand) := acc in
  let '(i, h) := ih in
  let d := Nat.max (n - 1 - i) i in
  if (best_d <=? d)%nat && bool_decide (h ∉ exclusion) then (S d, h) else acc.

Definition furthest_hit (exclusion : gset nat) (pivot : nat) (hits : list nat) : nat :=
  (foldl (furthest_step exclusion (length hits)) (0%nat, pivot) (imap pair hits)).2.

(** The hits before and after the cut point. *)
Definition split_step (pivot : nat) (acc : bool * list nat * list nat) (h : nat) : bool * list nat * list nat :=
  let '(past, b, a) := acc in
  if (h =? pivot)%nat then (true, b, a)
  else if past : bool then (past, b, a ++ [h]) else (past, b ++ [h], a).

Definition split_hits (pivot : nat) (hits : list nat) : list nat * list nat :=
  let '(_, b, a) := foldl (split_step pivot) (false, [], []) hits in (b, a).

Definition propose_general (r : StCutRec) (fwd : nat) (exclusion : gset nat) (c : StCutContext)
    : option (Z * StCutContext) :=
  let far_sub := match journal c !! fwd with Some f => sub_entry f | None => sub_entry r end in
  '(tree, c) ← build_local_tree (add_entry r) far_sub c;
  '(_, best_node, c) ← foldM (scan_pos tree exclusion)
      (take (span_len r) (drop (range_start r) (working_order c))) (0, 0%nat, c);
  Some (Z.of_nat best_node, c).

(** The cut point, the two halves of the cut set, the exclusion set. *)
Definition cut_propose (best : nat) (exclusion : gset nat) (c : StCutContext)
    : option (Z * list nat * list nat * gset nat * StCutContext) :=
  r ← journal c !! best;
  let fwd := link_fwd r in
  let '(filter_id, picked) :=
    match journal c !! fwd with
    | None => (0, best)
    | Some f =>
        let back := link_back f in
        let back_id := match journal c !! back with Some b => rec_id b | None => 0 end in
        (back_id, if rec_id f <? back_id then back else fwd)
    end in
  let '(verdict, f24) :=
    match journal c !! picked with Some p => (u8 (field20 p), field24 p) | None => (0, 0) end in
  let pivot :=
    if verdict =? 0 then -1
    else
      let hits := table_gate c filter_id (Z.to_nat f24) in
      match hits !! (length hits / 2)%nat with Some h => Z.of_nat h | None => -1 end in
  '(pivot, c) ← (if pivot <=? 0 then propose_general r fwd exclusion c else Some (pivot, c));
  let '(pivot, c) := if pivot <=? 0 then random_fallback r c else (pivot, c) in
  let '(pivot, bef, aft) :=
    if 0 <? pivot then
      let hits := table_gate c filter_id (Z.to_nat pivot) in
      match hits !! (length hits / 2)%nat with
      | None => (pivot, [], [])
      | Some mid =>
          let cand := if verdict =? 0 then mid else furthest_hit exclusion (Z.to_nat pivot) hits in
          let '(b, a) := split_hits cand hits in
          (Z.of_nat cand, b, a)
      end
    else (pivot, [], []) in
  let '(pivot, c) :=
    if (pivot <=? 0) || bool_decide (Z.to_nat pivot ∈ exclusion) then random_fallback r c else (pivot, c) in
  let exclusion := if 0 <? pivot then {[ Z.to_nat pivot ]} ∪ exclusion else exclusion in
  Some (u32 pivot, bef, aft, exclusion, c).

(** * The verdict on a cut set *)

(** A count per level, in the order of the levels. *)
Fixpoint bump (k : Z) (hist : list (Z * Z)) : list (Z * Z) :=
  match hist with
  | [] => [(k, 1)]
  | (k', n) :: hist' =>
      if k <? k' then (k, 1) :: hist
      else if k =? k' then (k', u64 (n + 1)) :: hist'
      else (k', n) :: bump k hist'
  end.

Definition histogram (c : StCutContext) (cut_set : list nat) : option (list (Z * Z)) :=
  foldM (fun hist rel =>
           sl ← weight_table (work c) !! rel;
           if bit4 sl then Some hist
           else
             fsl ← weight_table (work c) !! idx sl;
             match mark_table c !! canon fsl with
             | None => Some hist
             | Some m => Some (bump m hist)
             end) cut_set [].

Definition prefix_step (acc : Z * Z * Z) (kv : Z * Z) : Z * Z * Z :=
  let '(max_prefix, total, prefix) := acc in
  let prefix := u64 (prefix + u64 (kv.2 * STCUT_VERDICT_FIX)) in
  (Z.max max_prefix prefix, u64 (total + kv.2), prefix).

Definition verdict_of (hist : list (Z * Z)) : bool :=
  if Z.of_nat (length hist) <? STCUT_MIN_BUCKETS then false
  else
    let '(max_prefix, total, _) := foldl prefix_step (0, 0, 0) hist in
    if total =? 0 then false
    else u64 (Z.of_nat (length hist) * max_prefix) / total <? STCUT_VERDICT_THR.

Definition cut_verdict (best : nat) (cut_set : list nat) (c : StCutContext)
    : option (bool * StCutContext) :=
  r ← journal c !! best;
  c ← mark_levels (add_entry r) (node_count c + 2) c;
  hist ← histogram c cut_set;
  Some (verdict_of hist, c).

(** * Measures of the order *)

(** What a node adds to and takes from memory, over its edges without bit 4. *)
Definition soft_weights (t : Tables) (l : list nat) (f : Z -> Z -> Z) (acc : Z) : option Z :=
  foldM (fun acc rel => sl ← weight_table t !! rel; Some (if bit4 sl then acc else u64 (f acc (weight sl)))) l acc.

Definition net_weight_of (t : Tables) (n : nat) : option Z :=
  adds ← add_set t !! n;
  subs ← subtract_set t !! n;
  w ← soft_weights t adds Z.add 0;
  soft_weights t subs Z.sub w.

Definition compute_net_weight (c : StCutContext) : option StCutContext :=
  l ← mapM (net_weight_of (work c)) (seq 0 (node_count c));
  Some (set_net_weight l c).

Definition aux_step (acc : Z * list Z * StCutContext) (k : nat) : option (Z * list Z * StCutContext) :=
  let '(sum, aux, c) := acc in
  id ← working_order c !! k;
  '(g, c) ← grain_of id c;
  let sum := u64 (sum + g) in
  let aux := if (length aux <=? k)%nat then resize (S k) 0 aux else aux in
  Some (sum, <[k := sum]> aux, c).

Definition aux_fill (start len : nat) (aux : list Z) (c : StCutContext) : option (list Z * StCutContext) :=
  c ← grain_tree_build c;
  acc ← (match start with O => Some 0 | S p => aux !! p end);
  '(_, aux, c) ← foldM aux_step (seq start len) (acc, aux, c);
  Some (aux, c).

Definition measure_peak (c : StCutContext) : option (Z * StCutContext) :=
  c ← grain_tree_build c;
  '(_, peak, c) ← foldM (fun '(acc, peak, c) id =>
      '(g, c) ← grain_of id c;
      let acc := u64 (acc + g) in
      Some (acc, Z.max peak acc, c)) (working_order c) (0, 0, c);
  Some (peak, c).

(** * The check of an order *)

Section validate.
Context (s : Tables) (n : nat).

(** The neighbours the closure pushes, in the order of the list. *)
Definition closure_push (vis : list bool) (stack : list nat) (rel : nat) : option (list nat) :=
sl ← weight_table s !! rel;
if bit4 sl then Some stack
else if (n <=? canon sl)%nat then Some stack
else
  g ← group_flags s !! canon sl;
  if negb (Z.land g 2 =? 0) then Some stack
  else if default false (vis !! canon sl) then Some stack
  else Some (stack ++ [canon sl]).

(** The closure of the nodes on the stack; its last element is the top. *)
Fixpoint closure (fuel : nat) (stack : list nat) (vis : list bool) : option (list bool) :=
match last stack with
| None => Some vis
| Some u =>
    match fuel with
    | O => None
    | S fuel =>
        let stack := removelast stack in
        v ← vis !! u;
        if v : bool then closure fuel stack vis
        else
          let vis := <[u := true]> vis in
          match add_set s !! u with
          | None => closure fuel stack vis
          | Some l => stack ← foldM (closure_push vis) l stack; closure fuel stack vis
          end
    end
end.

Definition closure_fuel : nat := S (length (concat (add_set s)) + 1).

(** From the last node of the order to the first. *)
Fixpoint validate_rev (order : list nat) (vis : list bool) : option bool :=
match order with
| [] => Some true
| id :: order =>
    match vis !! id with
    | None => validate_rev order vis
    | Some true => Some false
    | Some false => vis ← closure closure_fuel [id] vis; validate_rev order vis
    end
end.
End validate.

Definition validate_order (c : StCutContext) : option bool :=
  validate_rev (snap c) (node_count c) (reverse (working_order c)) (replicate (node_count c) false).
(** * The levels are topological *)

Lemma foldM_seq_ind {A} (f : A -> nat -> option A) (P : nat -> A -> Prop) k n a :
  (forall i x, (k <= i < k + n)%nat -> P i x -> exists y, f x i = Some y /\ P (S i) y) ->
  P k a -> exists a', foldM f (seq k n) a = Some a' /\ P (k + n)%nat a'.
Proof.
  revert k a. induction n as [|n IH]; intros k a Hstep Ha; cbn.
  { exists a. by rewrite Nat.add_0_r. }
  destruct (Hstep k a) as (y & -> & Hy); [lia|done|]. cbn.
  destruct (IH (S k) y) as (a' & -> & Ha'); [|done|].
  - intros i x Hi. apply Hstep. lia.
  - exists a'. by rewrite Nat.add_succ_comm in Ha'.
Qed.

(** A loop each of whose steps establishes something that later steps keep. *)
Lemma foldM_each {A B} (f : A -> B -> option A) (P : A -> Prop) (Q : B -> A -> Prop) l : forall a,
  (forall x b, b ∈ l -> P x -> exists y, f x b = Some y /\ P y /\ Q b y /\ forall b', Q b' x -> Q b' y) ->
  P a -> exists a', foldM f l a = Some a' /\ P a' /\ (forall b, b ∈ l -> Q b a') /\ forall b, Q b a -> Q b a'.
Proof.
  induction l as [|b l IH]; intros a Hstep Ha; cbn.
  { exists a. split_and!; try done. by intros b []%not_elem_of_nil. }
  destruct (Hstep a b) as (y & -> & Hy & Hq & Hk); [by left|done|]. cbn.
  destruct (IH y) as (a' & -> & Ha' & Hall & Hk'); [|done|].
  - intros x b' Hb'. apply Hstep. by right.
  - exists a'. split_and!; try done; [|by eauto].
    intros b' [->|Hb']%elem_of_cons; [by apply Hk'|by apply Hall].
Qed.

Lemma pairwise_snoc {A} (R : A -> A -> Prop) l x :
  StronglySorted R l -> (forall y, y ∈ l -> R y x) -> StronglySorted R (l ++ [x]).
Proof.
  intros Hl Hx. apply pairwise_app. split_and!; [|done|repeat constructor].
  intros y z Hy ->%list_elem_of_singleton. by apply Hx.
Qed.

Lemma pairwise_reverse {A} (R : A -> A -> Prop) l :
  StronglySorted R l -> StronglySorted (flip R) (reverse l).
Proof.
  induction l as [|x l IH]; intros Hs; [constructor|].
  apply StronglySorted_inv in Hs as [Hs Hx]. rewrite reverse_cons. apply pairwise_snoc; [by apply IH|].
  intros y Hy. rewrite elem_of_reverse in Hy. exact (proj1 (Forall_forall _ _) Hx y Hy).
Qed.

Lemma in_reverse {A} (x : A) l : x ∈ reverse l -> x ∈ l.
Proof. by rewrite elem_of_reverse. Qed.

Lemma removelast_lookup {A} (l : list A) i : (S i < length l)%nat -> removelast l !! i = l !! i.
Proof.
  intros Hi. destruct (exists_last (l := l)) as (u & z & ->); [by intros ->; cbn in Hi; lia|].
  rewrite length_app in Hi. cbn in Hi. rewrite removelast_snoc, lookup_app_l by lia. done.
Qed.

(** Settling one position takes its node out of the queue and leaves the
    smaller positions alone. *)
Lemma settle_queue (q : list nat) i node x :
  q !! i = Some node -> last q = Some x ->
  q ≡ₚ node :: removelast (<[i := x]> q) /\
  (forall j, (j < i)%nat -> removelast (<[i := x]> q) !! j = q !! j).
Proof.
  intros Hi Hx. destruct (exists_last (l := q)) as (u & z & ->); [by intros ->|].
  rewrite last_snoc in Hx. simplify_eq. split.
  - destruct (decide (i < length u)%nat) as [Hlt|Hge].
    + rewrite insert_app_l by done. rewrite removelast_snoc. rewrite lookup_app_l in Hi by done.
      rewrite <-(take_drop_middle u i node) at 1 by done. rewrite insert_take_drop by done. solve_Permutation.
    + assert (i = length u) as ->.
      { apply lookup_lt_Some in Hi. rewrite length_app in Hi. cbn in Hi. lia. }
      rewrite list_lookup_middle in Hi by done. simplify_eq.
      rewrite list_insert_id by (by apply list_lookup_middle). rewrite removelast_snoc. solve_Permutation.
  - intros j Hj. apply lookup_lt_Some in Hi.
    rewrite removelast_lookup by (rewrite length_insert; lia). by rewrite list_lookup_insert_ne by lia.
Qed.

(** Settling a strictly decreasing list of positions. *)
Lemma settle_all level is_ : forall q m,
  StronglySorted gt is_ -> (forall i, i ∈ is_ -> exists node, q !! i = Some node /\ is_Some (m !! node)) ->
  exists q' m' nodes, foldM (settle level) is_ (q, m) = Some (q', m') /\
    q ≡ₚ nodes ++ q' /\ length m' = length m /\
    (forall n, n ∈ nodes <-> exists i, i ∈ is_ /\ q !! i = Some n) /\
    (forall n, m' !! n = if decide (n ∈ nodes) then Some (u16 level) else m !! n).
Proof.
  induction is_ as [|i is_ IH]; intros q m Hs Hq; cbn [foldM].
  { exists q, m, []. split_and!; try done. set_solver. }
  apply StronglySorted_inv in Hs as [Hs Hi].
  destruct (Hq i) as (node & Hn & [v Hv]); [by left|].
  destruct (last q) as [x|] eqn:Hx; [|apply last_None in Hx; by subst].
  destruct (settle_queue q i node x Hn Hx) as [Hperm Hlow].
  assert (settle level (q, m) i = Some (removelast (<[i := x]> q), <[node := u16 level]> m)) as ->.
  { unfold settle. cbn [fst snd]. rewrite Hn. cbn [mbind option_bind]. rewrite Hv. cbn [mbind option_bind].
    by rewrite Hx. }
  cbn [mbind option_bind].
  destruct (IH (removelast (<[i := x]> q)) (<[node := u16 level]> m)) as (q' & m' & nodes & -> & Hp & Hlm & Hnodes & Hm).
  - done.
  - intros j Hj. rewrite Forall_forall in Hi. specialize (Hi j Hj).
    destruct (Hq j) as (nj & Hnj & Hmj); [by right|]. exists nj. rewrite Hlow by lia. split; [done|].
    destruct (decide (nj = node)) as [->|]; [rewrite list_lookup_insert_eq; [by eexists|by eapply lookup_lt_Some]|].
    by rewrite list_lookup_insert_ne.
  - exists q', m', (node :: nodes). split; [done|]. split; [by rewrite Hperm, Hp|].
    split; [by rewrite Hlm, length_insert|]. split.
    + intros n. rewrite elem_of_cons, Hnodes. split.
      * intros [->|(j & Hj & Hnj)]; [exists i; split; [by left|done]|].
        exists j. split; [by right|]. rewrite Forall_forall in Hi. specialize (Hi j Hj). by rewrite Hlow in Hnj by lia.
      * intros (j & [->|Hj]%elem_of_cons & Hnj); [left; congruence|right].
        exists j. split; [done|]. rewrite Forall_forall in Hi. specialize (Hi j Hj). by rewrite Hlow by lia.
    + intros n. rewrite Hm. destruct (decide (n ∈ nodes)); [by rewrite decide_True by (by right)|].
      destruct (decide (n = node)) as [->|].
      * rewrite decide_True by (by left). by rewrite list_lookup_insert_eq by (by eapply lookup_lt_Some).
      * rewrite decide_False by set_solver. by rewrite list_lookup_insert_ne.
Qed.

Section levels.
Context (c : StCutContext) (Hi : graph_inv c) (nmarks : nat).
Context (HN : (length (add_set (work c)) <= nmarks)%nat).
Context (slot_ready : list Z -> nat -> option bool) (dep : StCutSlot -> bool).
#[local] Notation t := (work c).
#[local] Notation N := (length (add_set (work c))).

(** Both functions read a slot the same way. *)
Context (Hready : forall marks s sl psl,
weight_table t !! s = Some sl -> weight_table t !! idx sl = Some psl ->
slot_ready marks s = Some (match marks !! canon psl with Some m => (1 <? m) || negb (dep sl) | None => true end)).

(** [p] has to be settled before [n]. *)
Definition pred (p n : nat) : Prop :=
exists s sl psl, listed (subtract_set t) n s /\ weight_table t !! s = Some sl /\
  weight_table t !! idx sl = Some psl /\ dep sl = true /\ canon psl = p.

(** [n] spreads to [q]. *)
Definition succ (n q : nat) : Prop :=
exists s sl, listed (add_set t) n s /\ weight_table t !! s = Some sl /\ dep sl = true /\ canon sl = q.

(** [n] waits for a node that has no level. *)
Definition blocked (marks : list Z) (n : nat) : Prop :=
exists p m, pred p n /\ marks !! p = Some m /\ m < 2.

Definition spread_all (marks : list Z) (n : nat) : Prop :=
forall q, succ n q -> marks !! q <> Some 0.

Definition settled_before (marks : list Z) (p : nat) (m : Z) : Prop :=
forall mp, marks !! p = Some mp -> 2 <= mp < m.

(** Every settled node comes after what it waits for. *)
Definition topological (level : Z) (marks : list Z) : Prop :=
forall n m, marks !! n = Some m -> 2 <= m -> m < level /\ forall p, pred p n -> settled_before marks p m.

Record level_inv (seed : nat) (level : Z) (queue : list nat) (marks : list Z) : Prop := {
li_marks : length marks = nmarks;
li_nodup : NoDup queue;
li_node n : n ∈ queue -> (n < N)%nat;
li_queued : (forall n, n ∈ queue -> marks !! n = Some 1) \/ (queue = [seed] /\ marks = replicate nmarks 0);
li_topo : topological level marks
}.

(** The slot that holds a node back. *)
Definition holds_back (marks : list Z) (s : nat) : Prop :=
exists sl psl m, weight_table t !! s = Some sl /\ weight_table t !! idx sl = Some psl /\
  dep sl = true /\ marks !! canon psl = Some m /\ m < 2.

Lemma node_ready_list marks n l :
(forall s, s ∈ l -> listed (subtract_set t) n s) ->
exists b, node_ready slot_ready marks l = Some b /\
  (b = false -> exists s, s ∈ l /\ holds_back marks s) /\
  (b = true -> forall s, s ∈ l -> ~ holds_back marks s).
Proof.
induction l as [|s l IH]; intros Hsub; cbn.
{ exists true. split_and!; try done. by intros _ s []%not_elem_of_nil. }
destruct IH as (b & Hb & Hf & Ht); [intros; apply Hsub; by right|].
destruct (gi_sub c Hi n s) as (sl & Hsl & _); [apply Hsub; by left|].
destruct (gi_partner c Hi s sl Hsl) as (_ & psl & Hp & _).
rewrite (Hready marks s sl psl Hsl Hp). cbn [mbind option_bind].
destruct (match marks !! canon psl with Some m => (1 <? m) || negb (dep sl) | None => true end) eqn:E.
- exists b. split; [done|]. split.
  + intros Hb'. destruct (Hf Hb') as (s' & ? & ?). exists s'. split; [by right|done].
  + intros Hb' s' [->|Hs']%elem_of_cons; [|by apply Ht].
    intros (sl' & psl' & m & ? & ? & Hd & Hm & Hlt). simplify_eq. rewrite Hm, Hd in E. cbn in E.
    destruct (Z.ltb_spec 1 m); [lia|done].
- exists false. split; [done|]. split; [|done]. intros _. exists s. split; [by left|].
  destruct (marks !! canon psl) as [m|] eqn:Em; [|done]. apply orb_false_iff in E as [E Hd].
  exists sl, psl, m. split_and!; try done; [by apply negb_false_iff|by apply Z.ltb_ge in E; lia].
Qed.

Lemma node_ready_ok marks n :
(n < N)%nat ->
exists subs b, subtract_set t !! n = Some subs /\ node_ready slot_ready marks subs = Some b /\
  (b = true -> forall p m, pred p n -> marks !! p = Some m -> 2 <= m) /\ (b = false -> blocked marks n).
Proof.
intros Hn. rewrite <-(gi_lens c Hi) in Hn. destruct (lookup_lt_is_Some_2 _ _ Hn) as [subs Hs].
exists subs. destruct (node_ready_list marks n subs) as (b & Hb & Hf & Ht); [by exists subs|].
exists b. split_and!; try done.
- intros Hb' p m (s & sl & psl & (l & Hl & Hin) & ? & ? & ? & <-) Hm. simplify_eq.
  destruct (Z.le_gt_cases 2 m); [done|]. destruct (Ht eq_refl s Hin).
  exists sl, psl, m. split_and!; try done; lia.
- intros Hb'. destruct (Hf Hb') as (s & Hin & sl & psl & m & ? & ? & ? & ? & ?).
  exists (canon psl), m. split; [|done]. exists s, sl, psl. split; [by exists subs|done].
Qed.

(** A node that spreads to another is one that the other waits for. *)
Lemma spread_pred u s sl :
listed (add_set t) u s -> weight_table t !! s = Some sl -> dep sl = true -> pred u (canon sl).
Proof.
intros Hu Hsl Hd. destruct (gi_add c Hi u s Hu) as (sl' & psl & ? & ? & ? & _ & Hsub). simplify_eq.
by exists s, sl, psl.
Qed.

(** What a wave keeps: the old queue is a prefix, marks only go from 0 to 1,
  and only on nodes that are appended. *)
Record wave_inv (queue : list nat) (marks : list Z) (k : nat) (w : Wave) : Prop := {
wv_len : length (wv_marks w) = nmarks;
wv_pre : exists new, wv_queue w = queue ++ new /\ NoDup (queue ++ new) /\
  (forall n, n ∈ new -> (n < N)%nat /\ wv_marks w !! n = Some 1 /\ marks !! n = Some 0) /\
  (forall n, n ∉ new -> wv_marks w !! n = marks !! n);
wv_sorted : StronglySorted lt (wv_ready w);
wv_idle : wv_ready w = [] -> wv_queue w = queue;
wv_ready_ok i : i ∈ wv_ready w -> (i < k)%nat /\ exists n, queue !! i = Some n /\
  forall p m, pred p n -> marks !! p = Some m -> 2 <= m;
wv_blocked i n : (i < k)%nat -> i ∉ wv_ready w -> queue !! i = Some n -> blocked marks n
}.

Definition wave_spread (queue : list nat) (w : Wave) : Prop :=
forall i n, i ∈ wv_ready w -> queue !! i = Some n -> spread_all (wv_marks w) n.

Lemma wave_len_new queue marks k w :
wave_inv queue marks k w -> forall n m, marks !! n = Some m -> wv_marks w !! n = Some m \/ wv_marks w !! n = Some 1 /\ m = 0.
Proof.
intros [Hlen (new & Hq & Hnd & Hnew & Hold) _ _ _ _] n m Hm.
destruct (decide (n ∈ new)) as [Hn|Hn]; [|left; by rewrite Hold].
right. destruct (Hnew n Hn) as (_ & ? & ?). by simplify_eq.
Qed.

(** Spreading along one slot marks its node and unmarks none. *)
Lemma spread_ok queue marks k w u s :
wave_inv queue marks k w -> listed (add_set t) u s ->
(forall sl, weight_table t !! s = Some sl -> dep sl = true -> marks !! canon sl = Some 0 -> canon sl ∉ queue) ->
wv_ready w <> [] ->
exists w', spread_slot t dep w s = Some w' /\ wave_inv queue marks k w' /\ wv_ready w' = wv_ready w /\
  (forall q, wv_marks w !! q <> Some 0 -> wv_marks w' !! q <> Some 0) /\
  (forall sl, weight_table t !! s = Some sl -> dep sl = true -> wv_marks w' !! canon sl <> Some 0).
Proof.
intros HW Hu Hfresh Hne. pose proof HW as [Hlen (new & Hq & Hnd & Hnew & Hold) Hs Hid Hr Hbl].
destruct (gi_add c Hi u s Hu) as (sl & _ & Hsl & _). destruct (gi_partner c Hi s sl Hsl) as [Hc _].
unfold spread_slot. rewrite Hsl. cbn [mbind option_bind].
destruct (dep sl) eqn:Ed; cbn [negb]; [|exists w; split_and!; try done; intros; congruence].
destruct (lookup_lt_is_Some_2 (wv_marks w) (canon sl)) as [m Hm]; [lia|]. rewrite Hm.
destruct (Z.eqb_spec m 0) as [->|Hm0]; cbn [negb];
  [|exists w; split_and!; try done; intros; simplify_eq; congruence].
assert (canon sl ∉ new) as Hnn by (intros Hin; destruct (Hnew _ Hin) as (_ & ? & _); congruence).
assert (marks !! canon sl = Some 0) as Hm' by (by rewrite <-Hold).
assert (forall q, wv_marks w !! q <> Some 0 -> <[canon sl := 1]> (wv_marks w) !! q <> Some 0) as Hmono.
{ intros q Hqm. destruct (decide (q = canon sl)) as [->|]; [done|]. by rewrite list_lookup_insert_ne. }
eexists. split; [done|]. split; [|split; [done|split; [done|]]]; cbn [wv_queue wv_marks wv_ready].
- split; cbn [wv_queue wv_marks wv_ready]; try done; [by rewrite length_insert|].
  exists (new ++ [canon sl]). split; [by rewrite Hq, app_assoc|]. split; [|split].
  + rewrite app_assoc. apply NoDup_app. split_and!; [done| |apply NoDup_singleton].
      intros x Hx ->%list_elem_of_singleton. apply elem_of_app in Hx as [Hx|Hx]; [by eapply Hfresh|done].
  + intros n [Hn| ->%list_elem_of_singleton]%elem_of_app.
    * destruct (Hnew n Hn) as (? & ? & ?). by rewrite list_lookup_insert_ne by (by intros <-).
    * by rewrite list_lookup_insert_eq by lia.
  + intros n Hn. rewrite list_lookup_insert_ne by set_solver. apply Hold. set_solver.
- intros sl' Hsl' _. simplify_eq. rewrite list_lookup_insert_eq by lia. done.
Qed.
Lemma wave_step_ok seed level queue marks k w :
level_inv seed level queue marks -> (k < length queue)%nat -> wave_inv queue marks k w -> wave_spread queue w ->
exists w', wave_step t slot_ready dep w k = Some w' /\ wave_inv queue marks (S k) w' /\ wave_spread queue w'.
Proof.
intros HL Hk HW Hsp. pose proof HW as [Hlen (new & Hq & Hnd & Hnew & Hold) Hs Hid Hr Hbl].
destruct (lookup_lt_is_Some_2 queue k Hk) as [u Hu]. unfold wave_step.
rewrite Hq, (lookup_app_l_Some _ _ _ _ Hu). cbn [mbind option_bind].
assert (u ∈ queue) as Huq by (by eapply list_elem_of_lookup_2).
destruct (node_ready_ok (wv_marks w) u) as (subs & b & -> & Hb & Hbt & Hbf); [by eapply li_node|].
cbn [mbind option_bind]. rewrite Hb. cbn [mbind option_bind].
destruct b; cbn [negb].
2:{ exists w. split; [done|]. split; [|done]. split; try done.
  - by exists new.
  - intros i Hin. destruct (Hr i Hin). split; [lia|done].
  - intros i n Hlt Hin Hn. destruct (decide (i = k)) as [->|]; [|eapply Hbl; [|done..]; lia].
    simplify_eq. destruct (Hbf eq_refl) as (p & m & Hp & Hm & Hlt').
    destruct (decide (p ∈ new)) as [Hin'|Hin'].
    + destruct (Hnew p Hin') as (_ & _ & H0). by exists p, 0.
    + rewrite Hold in Hm by done. by exists p, m. }
assert (forall p m, pred p u -> marks !! p = Some m -> 2 <= m) as Hpreds.
{ intros p m Hp Hm. destruct (wave_len_new _ _ _ _ HW p m Hm) as [H1|[H1 ->]].
  - by apply (Hbt eq_refl p m Hp).
  - apply (Hbt eq_refl p 1 Hp) in H1. lia. }
destruct (lookup_lt_is_Some_2 (add_set t) u) as [adds Ha]; [by eapply li_node|]. rewrite Ha. cbn [mbind option_bind].
rewrite <-Hq.
destruct (foldM_each (spread_slot t dep)
  (fun w' => wave_inv queue marks (S k) w' /\ wv_ready w' = wv_ready w ++ [k] /\
             forall q, wv_marks w !! q <> Some 0 -> wv_marks w' !! q <> Some 0)
  (fun s w' => forall sl, weight_table t !! s = Some sl -> dep sl = true -> wv_marks w' !! canon sl <> Some 0) adds
  (mkWave (wv_queue w) (wv_marks w) (wv_ready w ++ [k]))) as (w' & -> & (HW' & Hr' & Hmono) & Hall & _).
- intros x s Hin (Hx & Hxr & Hxm). destruct (spread_ok queue marks (S k) x u s Hx) as (y & Hy & HWy & Hyr & Hym & Hyd);
    [by exists adds| |by rewrite Hxr; destruct (wv_ready w)|].
  + intros sl Hsl Hd Hm0 Hcq. destruct (li_queued _ _ _ _ HL) as [H1|[-> Hz]].
    * rewrite (H1 _ Hcq) in Hm0. done.
    * apply list_elem_of_singleton in Hcq as Hc. apply list_lookup_singleton_Some in Hu as [_ <-].
      assert (pred seed (canon sl)) as Hp by (eapply spread_pred; [by exists adds|done..]).
      rewrite Hc in Hp, Hm0. specialize (Hpreds seed 0 Hp Hm0). lia.
  + exists y. split_and!; try done; [by rewrite Hyr|by eauto|]. intros s' Hs' sl Hsl Hd. by apply Hym, (Hs' sl).
- split; [|done]. split; cbn; try done.
  + by exists new.
  + apply pairwise_snoc; [done|]. intros i Hin. by apply Hr.
  + intros Hnil. by destruct (wv_ready w).
  + intros i [Hin| ->%list_elem_of_singleton]%elem_of_app; [|split; [lia|]; by exists u].
    destruct (Hr i Hin). split; [lia|done].
  + intros i n Hlt [Hin1 Hin2]%not_elem_of_app Hn. eapply Hbl; [|done..].
    assert (i <> k) by (intros ->; by apply Hin2, list_elem_of_singleton). lia.
- exists w'. split; [done|]. split; [done|]. intros i n Hin Hn. rewrite Hr' in Hin.
  apply elem_of_app in Hin as [Hin| ->%list_elem_of_singleton].
  + intros q Hq'. by apply Hmono, (Hsp i n).
  + simplify_eq. intros q (s & sl & (l & Hl & Hs') & Hsl & Hd & <-). simplify_eq. by eapply Hall.
Qed.

(** What one round does: the nodes it settles, the nodes it marks. *)
Record round_of (queue : list nat) (marks : list Z) (level : Z) (q' : list nat) (m' : list Z)
  (nodes new : list nat) : Prop := {
rd_queue : queue ++ new ≡ₚ nodes ++ q';
rd_nodup : NoDup (queue ++ new);
rd_len : length m' = nmarks;
rd_new n : n ∈ new -> (n < N)%nat /\ marks !! n = Some 0;
rd_ready n : n ∈ nodes -> n ∈ queue /\ forall p m, pred p n -> marks !! p = Some m -> 2 <= m;
rd_marks n : m' !! n = if decide (n ∈ nodes) then Some level else if decide (n ∈ new) then Some 1 else marks !! n;
rd_idle : nodes = [] -> new = [];
rd_blocked n : n ∈ queue -> n ∉ nodes -> blocked marks n;
rd_spread n : n ∈ nodes -> spread_all m' n
}.

Lemma round_runs seed level queue marks :
level_inv seed level queue marks -> 2 <= level < 2 ^ 16 ->
exists w q' m' nodes new,
  foldM (wave_step t slot_ready dep) (seq 0 (length queue)) (mkWave queue marks []) = Some w /\
  foldM (settle level) (reverse (wv_ready w)) (wv_queue w, wv_marks w) = Some (q', m') /\
  round_of queue marks level q' m' nodes new.
Proof.
intros HL Hlev. pose proof HL as [Hlm Hnq Hnode Hqd Htopo].
destruct (foldM_seq_ind (wave_step t slot_ready dep)
  (fun k w => wave_inv queue marks k w /\ wave_spread queue w) 0 (length queue)
  (mkWave queue marks [])) as (w & Ew & HW & Hsp).
{ intros i x Hi' [Hx Hxs]. eapply wave_step_ok; [done|lia|done..]. }
{ split; [|by intros i n []%not_elem_of_nil]. split; cbn; try done; [|constructor|by intros i []%not_elem_of_nil|lia].
  exists []. rewrite app_nil_r. split_and!; try done. by intros n []%not_elem_of_nil. }
destruct HW as [Hlen (new & Hq & Hnd & Hnew & Hold) Hs Hid Hr Hbl].
destruct (settle_all level (reverse (wv_ready w)) (wv_queue w) (wv_marks w)) as
  (q' & m' & nodes & Es & Hperm & Hlm' & Hnodes & Hm').
{ by apply (pairwise_reverse lt). }
{ intros i Hi'%in_reverse. destruct (Hr i Hi') as (_ & n & Hn & _). exists n.
  rewrite Hq. split; [by apply lookup_app_l_Some|]. apply lookup_lt_is_Some. rewrite Hlen.
  pose proof (Hnode n ltac:(by eapply list_elem_of_lookup_2)). lia. }
assert (forall n, n ∈ nodes <-> exists i, i ∈ wv_ready w /\ queue !! i = Some n) as Hnodes'.
{ intros n. rewrite Hnodes. split; intros (i & Hin & Hn); exists i.
  - apply in_reverse in Hin. split; [done|]. destruct (Hr i Hin) as (_ & n' & Hn' & _).
    rewrite Hq, (lookup_app_l_Some _ _ _ _ Hn') in Hn. by simplify_eq.
  - split; [by rewrite elem_of_reverse|]. rewrite Hq. by apply lookup_app_l_Some. }
exists w, q', m', nodes, new. split; [done|]. split; [done|].
assert (forall n, m' !! n = if decide (n ∈ nodes) then Some level else if decide (n ∈ new) then Some 1 else marks !! n) as Hmm.
{ intros n. rewrite Hm'. replace (u16 level) with level by (unwrap; lia). destruct (decide (n ∈ nodes)); [done|].
  destruct (decide (n ∈ new)); [by apply Hnew|by apply Hold]. }
split; try done.
- by rewrite <-Hq.
- by rewrite Hlm'.
- intros n Hn. by destruct (Hnew n Hn) as (? & _ & ?).
- intros n (i & Hin & Hn)%Hnodes'. destruct (Hr i Hin) as (_ & n' & Hn' & Hp). simplify_eq.
  split; [by eapply list_elem_of_lookup_2|done].
- intros ->. assert (wv_ready w = []) as Hnil.
  { destruct (wv_ready w) as [|i is_]; [done|]. destruct (Hr i) as (_ & n & Hn & _); [by left|].
    exfalso. apply (not_elem_of_nil n), Hnodes'. exists i. split; [by left|done]. }
  specialize (Hid Hnil). rewrite Hid in Hq. destruct new; [done|].
  apply (f_equal length) in Hq. rewrite length_app in Hq. cbn in Hq. lia.
- intros n [i Hn]%list_elem_of_lookup Hnn. eapply Hbl; [by eapply lookup_lt_Some| |done].
  intros Hin. apply Hnn, Hnodes'. by exists i.
- intros n (i & Hin & Hn)%Hnodes' q Hq' H0. rewrite Hm' in H0. destruct (decide (q ∈ nodes)).
  + simplify_eq. unfold u16, wrap in *. rewrite Z.mod_small in H0 by lia. lia.
  + by apply (Hsp i n Hin Hn q Hq').
Qed.

(** One round keeps the levels topological. *)
Lemma round_inv seed level queue marks q' m' nodes new :
level_inv seed level queue marks -> 2 <= level -> round_of queue marks level q' m' nodes new ->
level_inv seed (level + 1) q' m'.
Proof.
intros [Hlm Hnq Hnode Hqd Htopo] Hlev [Hperm Hnd Hlen Hnew Hready' Hm Hidle _ _].
assert (forall n m, n ∈ queue -> marks !! n = Some m -> m <= 1) as Hlow.
{ intros n m Hn Hmn. destruct Hqd as [H1|[-> ->]]; [rewrite (H1 n Hn) in Hmn; by simplify_eq|].
  apply lookup_replicate in Hmn as [-> _]. lia. }
assert (forall p mp, marks !! p = Some mp -> 2 <= mp -> m' !! p = Some mp) as Hkeep.
{ intros p mp Hp Hmp. rewrite Hm, decide_False, decide_False; [done| |].
  - intros Hin. destruct (Hnew p Hin) as [_ ?]. simplify_eq. lia.
  - intros Hin. destruct (Hready' p Hin) as [Hpq _]. specialize (Hlow p mp Hpq Hp). lia. }
assert (forall p mp, m' !! p = Some mp -> is_Some (marks !! p)) as Hdom.
{ intros p mp Hp. apply lookup_lt_is_Some. rewrite Hlm, <-Hlen. by eapply lookup_lt_Some. }
assert (NoDup (nodes ++ q')) as Hnd' by (by rewrite <-Hperm).
apply NoDup_app in Hnd' as (_ & Hdisj & Hnq').
assert (forall n, n ∈ q' -> n ∈ queue \/ n ∈ new) as Hin.
{ intros n Hn. apply elem_of_app. rewrite Hperm. apply elem_of_app. by right. }
split; try done.
- intros n Hn. destruct (Hin n Hn); [by apply Hnode|by apply Hnew].
- destruct Hqd as [H1|[-> ->]].
  + left. intros n Hn. rewrite Hm, decide_False by (by intros ?; eapply Hdisj).
    destruct (decide (n ∈ new)); [done|]. destruct (Hin n Hn); [by apply H1|done].
  + destruct nodes as [|x nodes].
    * right. rewrite (Hidle eq_refl) in Hperm. cbn in Hperm. split; [by apply Permutation_length_1_inv in Hperm|].
      apply list_eq. intros n. rewrite Hm, (Hidle eq_refl). by rewrite !decide_False by apply not_elem_of_nil.
    * left. intros n Hn. rewrite Hm, decide_False by (by intros ?; eapply Hdisj).
      destruct (decide (n ∈ new)); [done|]. exfalso. destruct (Hin n Hn) as [->%list_elem_of_singleton|]; [|done].
      apply (Hdisj seed); [|done]. destruct (Hready' x) as [->%list_elem_of_singleton _]; by left.
- intros n m Hn Hm2. rewrite Hm in Hn. destruct (decide (n ∈ nodes)) as [Hin'|Hin'].
  + simplify_eq. split; [lia|]. intros p Hp mp Hmp.
    destruct (Hready' n Hin') as [_ Hpn].
    destruct (Hdom p mp Hmp) as [mp0 Hmp0].
    specialize (Hpn p mp0 Hp Hmp0). rewrite (Hkeep p mp0 Hmp0 Hpn) in Hmp. simplify_eq.
    by destruct (Htopo p mp Hmp0 Hpn).
  + destruct (decide (n ∈ new)); [by simplify_eq|].
    destruct (Htopo n m Hn Hm2) as [? Hp]. split; [lia|]. intros p Hpn mp Hmp.
    destruct (Hdom p mp Hmp) as [mp0 Hmp0].
    specialize (Hp p Hpn mp0 Hmp0). rewrite (Hkeep p mp0 Hmp0 ltac:(lia)) in Hmp. by simplify_eq.
Qed.

(** What has a level has passed it on; what is marked waits in the queue;
  and each round settles a node until all that is left is blocked. *)
Record level_max (seed : nat) (level : Z) (queue : list nat) (marks : list Z) : Prop := {
lm_spread n m : marks !! n = Some m -> 2 <= m -> spread_all marks n;
lm_one n : marks !! n = Some 1 -> n ∈ queue;
lm_nonneg n m : marks !! n = Some m -> 0 <= m;
lm_seed : seed ∈ queue \/ exists m, marks !! seed = Some m /\ 2 <= m;
lm_done : exists dn, NoDup (dn ++ queue) /\
  (forall n, n ∈ dn -> (n < N)%nat /\ exists m, marks !! n = Some m /\ 2 <= m) /\
  (level - 2 <= Z.of_nat (length dn) \/ forall n, n ∈ queue -> blocked marks n)
}.

Lemma round_max seed level queue marks q' m' nodes new :
level_inv seed level queue marks -> level_max seed level queue marks -> 2 <= level ->
round_of queue marks level q' m' nodes new -> level_max seed (level + 1) q' m'.
Proof.
intros [Hlm Hnq Hnode Hqd _] [Hs H1 H0m Hseed (dn & Hdn & Hdone & Hprog)] Hlev
  [Hperm Hnd Hlen Hnew Hready' Hm Hidle Hbl Hsp].
assert (forall n, n ∈ queue ++ new -> n ∈ nodes \/ n ∈ q') as Hin.
{ intros n Hn. apply elem_of_app. by rewrite <-Hperm. }
assert (forall n m, marks !! n = Some m -> 2 <= m -> n ∉ new) as Hold.
{ intros n m Hn Hm2 Hn'. destruct (Hnew n Hn') as [_ ?]. simplify_eq. lia. }
assert (forall n m, marks !! n = Some m -> 2 <= m -> exists m1, m' !! n = Some m1 /\ 2 <= m1) as Hup.
{ intros n m Hn Hm2. rewrite Hm. destruct (decide (n ∈ nodes)); [by exists level|].
  rewrite decide_False by (by eapply Hold). by exists m. }
split.
- intros n m Hn Hm2. rewrite Hm in Hn. destruct (decide (n ∈ nodes)) as [Hn'|Hn']; [by apply Hsp|].
  destruct (decide (n ∈ new)); [by simplify_eq|]. intros q Hq H0. rewrite Hm in H0.
  destruct (decide (q ∈ nodes)); [simplify_eq; lia|]. destruct (decide (q ∈ new)); [done|].
  by apply (Hs n m Hn Hm2 q Hq).
- intros n Hn. rewrite Hm in Hn. destruct (decide (n ∈ nodes)); [simplify_eq; lia|].
  destruct (Hin n) as [?|?]; [|done..]. apply elem_of_app. destruct (decide (n ∈ new)); [by right|left; by apply H1].
- intros n m Hn. rewrite Hm in Hn. destruct (decide (n ∈ nodes)); [simplify_eq; lia|].
  destruct (decide (n ∈ new)); [by simplify_eq|by eapply H0m].
- destruct Hseed as [Hseed|(m & Hseed & Hm2)]; [|right; by eapply Hup].
  destruct (Hin seed) as [Hn|]; [apply elem_of_app; by left| |by left].
  right. exists level. by rewrite Hm, decide_True.
- exists (nodes ++ dn). split; [|split].
  + assert (dn ++ queue ++ new ≡ₚ (nodes ++ dn) ++ q') as <- by (rewrite Hperm; solve_Permutation).
    rewrite app_assoc. apply NoDup_app in Hdn as Hdn'. apply NoDup_app in Hnd as (_ & Hd & Hnn).
    apply NoDup_app. split_and!; [done| |done]. intros x [Hx|Hx]%elem_of_app; [|by apply Hd].
    destruct (Hdone x Hx) as (_ & m & ? & ?). by eapply Hold.
  + intros n [Hn|Hn]%elem_of_app.
    * split; [apply Hnode; by apply Hready'|]. exists level. by rewrite Hm, decide_True.
    * destruct (Hdone n Hn) as (? & m & ? & ?). split; [done|]. by eapply Hup.
  + destruct nodes as [|x nodes].
    * right. rewrite (Hidle eq_refl) in *. rewrite app_nil_r in Hperm. cbn in Hperm.
      intros n Hn. rewrite <-Hperm in Hn. destruct (Hbl n Hn (not_elem_of_nil _)) as (p & m & ? & Hp & ?).
      exists p, m. split_and!; try done. rewrite Hm. by rewrite !decide_False by apply not_elem_of_nil.
    * left. destruct Hprog as [?|Hb]; [rewrite length_app; cbn; lia|].
      destruct (Hready' x) as [Hx Hpx]; [by left|]. destruct (Hb x Hx) as (p & m & Hp & Hmp & ?).
      specialize (Hpx p m Hp Hmp). lia.
Qed.

(** The levels of a finished run from [seed]: every node with a level comes
  after all it waits for, and the seed and every node that a node with a
  level spreads to has one too unless something it waits for has none. *)
Record levelled (seed : nat) (marks : list Z) : Prop := {
lv_len : length marks = nmarks;
lv_topo n m : marks !! n = Some m -> 2 <= m -> forall p, pred p n -> settled_before marks p m;
lv_all n : n = seed \/ (exists u mu, succ u n /\ marks !! u = Some mu /\ 2 <= mu) ->
  (exists m, marks !! n = Some m /\ 2 <= m) \/ blocked marks n
}.

Lemma settled_levelled seed level queue marks :
level_inv seed level queue marks -> level_max seed level queue marks ->
(forall n, n ∈ queue -> blocked marks n) -> levelled seed marks.
Proof.
intros [Hlm _ _ _ Htopo] [Hs H1 H0 Hseed _] Hb. split; [done| |].
- intros n m Hn Hm. by apply (Htopo n m Hn Hm).
- intros n [->|(u & mu & Hu & Hmu & Hge)]; [destruct Hseed as [?|?]; [right; by apply Hb|by left]|].
  pose proof Hu as (s & sl & Hls & Hsl & Hd & Hc).
  destruct (gi_partner c Hi s sl Hsl) as [Hlt _]. rewrite Hc in Hlt.
  destruct (lookup_lt_is_Some_2 marks n) as [m Hm]; [rewrite Hlm; lia|].
  specialize (H0 n m Hm). destruct (Z.le_gt_cases 2 m); [left; by exists m|].
  right. apply Hb, H1. rewrite Hm. f_equal. assert (m <> 0); [|lia].
  intros ->. by apply (Hs u mu Hmu Hge n Hu).
Qed.

Lemma level_loop_ok seed fuel : forall level queue marks,
level_inv seed level queue marks -> level_max seed level queue marks -> 2 <= level ->
level + Z.of_nat fuel < 2 ^ 16 -> Z.of_nat N + 2 < level + Z.of_nat fuel ->
exists marks', level_loop t slot_ready dep fuel level queue marks = Some marks' /\ levelled seed marks'.
Proof.
induction fuel as [|fuel IH]; intros level queue marks HL HM Hlev Hmax Hfuel.
- exists marks. split; [by destruct queue|]. eapply settled_levelled; [done..|].
  destruct (lm_done _ _ _ _ HM) as (dn & Hnd & Hdn & [Hp|Hb]); [|done].
  apply NoDup_app in Hnd as [Hnd _]. exfalso.
  assert (length dn <= length (seq 0 N))%nat as Hle; [|rewrite length_seq in Hle; lia].
  apply submseteq_length, NoDup_submseteq; [done|]. intros x Hx. apply elem_of_seq.
  destruct (Hdn x Hx). lia.
- cbn [level_loop]. destruct queue as [|q0 queue].
  + exists marks. split; [done|]. eapply settled_levelled; [done..|]. by intros n []%not_elem_of_nil.
  + destruct (round_runs seed level (q0 :: queue) marks HL) as (w & q' & m' & nodes & new & -> & E & HR); [lia|].
    cbn [mbind option_bind]. rewrite E. cbn [mbind option_bind].
    replace (u32 (level + 1)) with (level + 1) by (unwrap; lia).
    apply IH; [by eapply round_inv|by eapply round_max|lia..].
Qed.

Lemma levels_from_ok seed marks :
(seed < N)%nat -> length marks = nmarks -> Z.of_nat N + 4 < 2 ^ 16 ->
exists marks', levels_from t slot_ready dep seed (N + 2) marks = Some marks' /\ levelled seed marks'.
Proof.
intros Hs Hlen Hsmall. unfold levels_from. destruct (Nat.leb_spec N seed); [lia|]. rewrite Hlen.
apply level_loop_ok; try lia; split.
- by rewrite length_replicate.
- apply NoDup_singleton.
- by intros n ->%list_elem_of_singleton.
- right. done.
- intros n m [-> _]%lookup_replicate. lia.
- intros n m [-> _]%lookup_replicate. lia.
- intros n [? _]%lookup_replicate. lia.
- intros n m [-> _]%lookup_replicate. lia.
- left. by apply list_elem_of_singleton.
- exists []. split; [apply NoDup_singleton|]. split; [by intros n []%not_elem_of_nil|]. left. cbn. lia.
Qed.
End levels.

Definition soft (sl : StCutSlot) : bool := negb (bit4 sl).

Lemma soft_reads c : graph_inv c -> forall marks s sl psl,
  weight_table (work c) !! s = Some sl -> weight_table (work c) !! idx sl = Some psl ->
  soft_slot_ready (work c) marks s =
    Some (match marks !! canon psl with Some m => (1 <? m) || negb (soft sl) | None => true end).
Proof.
  intros _ marks s sl psl Hs Hp. unfold soft_slot_ready, soft. rewrite Hs. cbn [mbind option_bind]. rewrite Hp.
  cbn [mbind option_bind]. rewrite negb_involutive. by destruct (marks !! canon psl).
Qed.

Lemma hard_reads c : graph_inv c -> forall marks s sl psl,
  weight_table (work c) !! s = Some sl -> weight_table (work c) !! idx sl = Some psl ->
  hard_slot_ready (work c) marks s =
    Some (match marks !! canon psl with Some m => (1 <? m) || negb (bit4 sl) | None => true end).
Proof.
  intros _ marks s sl psl Hs Hp. unfold hard_slot_ready. rewrite Hs. cbn [mbind option_bind].
  destruct (bit4 sl); cbn [negb].
  - rewrite Hp. cbn [mbind option_bind]. destruct (marks !! canon psl); [by rewrite orb_false_r|done].
  - destruct (marks !! canon psl); [by rewrite orb_true_r|done].
Qed.

Lemma soft_levels_ok seed c :
  aligned c -> (seed < length (add_set (work c)))%nat ->
  exists m, mark_levels seed (node_count c + 2) c = Some (set_mark_table m c) /\
            levelled c (length (mark_table c)) soft seed m.
Proof.
  intros Ha Hs. pose proof (al_inv c Ha) as Hi. pose proof (al_small c Ha). pose proof (al_marks c Ha) as HN.
  unfold mark_levels, node_count. rewrite (gi_nodes c Hi).
  destruct (levels_from_ok c Hi (length (mark_table c)) HN (soft_slot_ready (work c)) soft (soft_reads c Hi) seed (mark_table c))
    as (m & Em & Hok); [done|done|lia|].
  exists m. split; [|done]. unfold soft in Em. by rewrite Em.
Qed.

Lemma hard_levels_ok seed marks c :
  aligned c -> (seed < length (add_set (work c)))%nat -> (length (add_set (work c)) <= length marks)%nat ->
  exists m, level_mark_bfs seed marks (node_count c + 2) c = Some m /\ levelled c (length marks) bit4 seed m.
Proof.
  intros Ha Hs Hm. pose proof (al_inv c Ha) as Hi. pose proof (al_small c Ha). pose proof (al_marks c Ha).
  unfold level_mark_bfs, node_count. rewrite (gi_nodes c Hi).
  apply (levels_from_ok c Hi (length marks) Hm (hard_slot_ready (work c)) bit4 (hard_reads c Hi)); [done|done|lia].
Qed.

(** [stcut_mark_levels] and [stcut_level_mark_bfs] with the wave bound
    their callers pass return on every graph kept by the scheduler; a node
    with a level has a larger one than all it waits for (over the edges
    without bit 4, over those with it), and the seed and what the levels
    reach have a level unless something they wait for has none. *)
Theorem mark_levels_ok seed marks c :
  aligned c -> (seed < length (add_set (work c)))%nat -> (length (add_set (work c)) <= length marks)%nat ->
  (exists m, mark_levels seed (node_count c + 2) c = Some (set_mark_table m c) /\
             levelled c (length (mark_table c)) soft seed m) /\
  (exists m, level_mark_bfs seed marks (node_count c + 2) c = Some m /\ levelled c (length marks) bit4 seed m).
Proof. intros Ha Hs Hm. split; [by apply soft_levels_ok|by apply hard_levels_ok]. Qed.

(** * The check of an order *)

(** What is still unseen and its out-edges bound the pops to come. *)
Fixpoint work_left (vis : list bool) (lists : list (list nat)) : nat :=
  match vis, lists with
  | b :: vis, l :: lists => (if b : bool then 0 else length l)%nat + work_left vis lists
  | _, _ => 0%nat
  end.

Lemma work_left_visit vis lists u :
  vis !! u = Some false ->
  (work_left (<[u := true]> vis) lists + length (default [] (lists !! u)) = work_left vis lists)%nat.
Proof.
  revert lists u. induction vis as [|b vis IH]; intros [|l lists] [|u] Hu; cbn in *; simplify_eq; try done.
  - lia.
  - rewrite <-Nat.add_assoc. f_equal. exact (IH lists u Hu).
Qed.

Lemma work_left_bound vis lists : (work_left vis lists <= length (concat lists))%nat.
Proof.
  revert lists. induction vis as [|b vis IH]; intros [|l lists]; cbn; try lia.
  rewrite length_app. specialize (IH lists). destruct b; lia.
Qed.

Section validation.
Context (s : Tables) (n : nat).
Context (Hslots : forall u rel, listed (add_set s) u rel -> exists sl, weight_table s !! rel = Some sl /\
((canon sl < n)%nat -> is_Some (group_flags s !! canon sl))).

(** The node on the far side of a soft slot of [u], unless it is out of
  range or carries flag 2. *)
Definition edge (u v : nat) : Prop :=
exists rel sl g, listed (add_set s) u rel /\ weight_table s !! rel = Some sl /\ bit4 sl = false /\
  canon sl = v /\ (v < n)%nat /\ group_flags s !! v = Some g /\ Z.land g 2 = 0.

Definition seen (vis : list bool) (u : nat) : Prop := vis !! u = Some true.

(** The pushes of a slot: edges only, and each edge to an unseen node. *)
Definition pushes (vis : list bool) (u : nat) (sl : StCutSlot) (new : list nat) : Prop :=
(length new <= 1)%nat /\ (forall v, v ∈ new -> edge u v) /\
forall g, bit4 sl = false -> (canon sl < n)%nat -> group_flags s !! canon sl = Some g -> Z.land g 2 = 0 ->
  seen vis (canon sl) \/ canon sl ∈ new.

Lemma pushes_none vis u sl (stack : list nat) :
(forall g, bit4 sl = false -> (canon sl < n)%nat -> group_flags s !! canon sl = Some g -> Z.land g 2 = 0 ->
   seen vis (canon sl)) ->
exists new, Some stack = Some (stack ++ new) /\ pushes vis u sl new.
Proof.
intros H. exists []. rewrite app_nil_r. split; [done|]. split; [cbn; lia|].
split; [by intros v []%not_elem_of_nil|]. intros. left. eauto.
Qed.

Lemma closure_push_one vis u rel stack :
listed (add_set s) u rel ->
exists sl new, weight_table s !! rel = Some sl /\
  closure_push s n vis stack rel = Some (stack ++ new) /\ pushes vis u sl new.
Proof.
intros Hl. destruct (Hslots u rel Hl) as (sl & Hsl & Hfl). exists sl. unfold closure_push. rewrite Hsl. cbn [mbind option_bind].
destruct (bit4 sl) eqn:Eb; [destruct (pushes_none vis u sl stack) as (new & E & Hnew); [|by exists new]; by intros; congruence|].
destruct (Nat.leb_spec n (canon sl)); [destruct (pushes_none vis u sl stack) as (new & E & Hnew); [|by exists new]; intros; lia|].
destruct Hfl as [g Hg]; [lia|]. rewrite Hg. cbn [mbind option_bind].
destruct (Z.eqb_spec (Z.land g 2) 0) as [Hz|Hz]; cbn [negb];
  [|destruct (pushes_none vis u sl stack) as (new & E & Hnew); [|by exists new]; intros; congruence].
destruct (decide (vis !! canon sl = Some true)) as [Hv|Hv].
- rewrite Hv. cbn. destruct (pushes_none vis u sl stack) as (new & E & Hnew); [|by exists new]. by intros.
- assert (default false (vis !! canon sl) = false) as ->.
  { destruct (vis !! canon sl) as [[]|]; done. }
  exists [canon sl]. split; [done|]. split; [done|]. split; [done|]. split; [|intros; right; by left].
  intros v ->%list_elem_of_singleton. by exists rel, sl, g.
Qed.

Lemma closure_push_ok vis u l : forall stack,
(forall rel, rel ∈ l -> listed (add_set s) u rel) ->
exists new, foldM (closure_push s n vis) l stack = Some (stack ++ new) /\ (length new <= length l)%nat /\
  (forall v, v ∈ new -> edge u v) /\
  (forall rel sl g, rel ∈ l -> weight_table s !! rel = Some sl -> bit4 sl = false ->
     (canon sl < n)%nat -> group_flags s !! canon sl = Some g -> Z.land g 2 = 0 ->
     seen vis (canon sl) \/ canon sl ∈ new).
Proof.
induction l as [|rel l IH]; intros stack Hl; cbn [foldM].
{ exists []. rewrite app_nil_r. split_and!; try done; [by intros v []%not_elem_of_nil|].
  by intros rel sl g []%not_elem_of_nil. }
destruct (closure_push_one vis u rel stack) as (sl & new1 & Hsl & -> & Hlen1 & Hedge1 & Hall1); [apply Hl; by left|].
cbn [mbind option_bind]. destruct (IH (stack ++ new1)) as (new2 & -> & Hlen2 & Hedge2 & Hall2); [intros; apply Hl; by right|].
exists (new1 ++ new2). rewrite <-app_assoc. split; [done|]. split; [rewrite length_app; cbn; lia|]. split.
- intros v [Hv|Hv]%elem_of_app; [by apply Hedge1|by apply Hedge2].
- intros rel' sl' g [->|Hr]%elem_of_cons Hsl' Hb Hc Hg Hz.
  + simplify_eq. destruct (Hall1 g Hb Hc Hg Hz); [by left|right; apply elem_of_app; by left].
  + destruct (Hall2 rel' sl' g Hr Hsl' Hb Hc Hg Hz); [by left|right; apply elem_of_app; by right].
Qed.

(** The closure marks what was marked and what the stack reaches, no more. *)
Lemma closure_ok fuel : forall stack vis,
length vis = n -> (forall u, u ∈ stack -> (u < n)%nat) ->
(length stack + work_left vis (add_set s) < fuel)%nat ->
(forall u v, seen vis u -> edge u v -> seen vis v \/ v ∈ stack) ->
exists vis', closure s n fuel stack vis = Some vis' /\ length vis' = n /\
  (forall u, seen vis u -> seen vis' u) /\ (forall u, u ∈ stack -> seen vis' u) /\
  (forall u v, seen vis' u -> edge u v -> seen vis' v) /\
  (forall v, seen vis' v -> seen vis v \/ exists u, u ∈ stack /\ rtc edge u v).
Proof.
induction fuel as [|fuel IH]; intros stack vis Hlen Hin Hfuel Hcl; [lia|]. cbn [closure].
destruct (last stack) as [u|] eqn:El.
2:{ apply last_None in El as ->. exists vis. split_and!; try done; [by intros u []%not_elem_of_nil| |by left].
  intros u v Hu He. by destruct (Hcl u v Hu He) as [?|[]%not_elem_of_nil]. }
destruct (exists_last (l := stack)) as (rest & x & ->); [by intros ->|].
rewrite last_snoc in El. simplify_eq. rewrite removelast_snoc.
rewrite length_app in Hfuel. cbn in Hfuel.
assert (u < n)%nat as Hu by (apply Hin, elem_of_app; right; by left).
assert (forall w, w ∈ rest -> (w < n)%nat) as Hrest by (intros; apply Hin, elem_of_app; by left).
destruct (lookup_lt_is_Some_2 vis u) as [b Hb]; [lia|]. rewrite Hb. cbn [mbind option_bind]. destruct b.
- destruct (IH rest vis) as (vis' & E & Hl' & Hk & Hs & Hc & Hr); [done|done|lia| |].
  { intros a v Ha He. destruct (Hcl a v Ha He) as [?|[?| ->%list_elem_of_singleton]%elem_of_app]; [by left|by right|by left]. }
  exists vis'. split_and!; try done.
  + intros w [?| ->%list_elem_of_singleton]%elem_of_app; [by apply Hs|by apply Hk].
  + intros v Hv. destruct (Hr v Hv) as [?|(w & ? & ?)]; [by left|right]. exists w. split; [|done]. apply elem_of_app. by left.
- set (vis1 := <[u := true]> vis).
  assert (seen vis1 u) as Hu1 by (unfold seen, vis1; rewrite list_lookup_insert_eq by lia; done).
  assert (forall a, seen vis a -> seen vis1 a) as Hk1.
  { intros a Ha. destruct (decide (a = u)) as [->|]; [done|]. unfold seen, vis1. by rewrite list_lookup_insert_ne. }
  assert (forall a, seen vis1 a -> a = u \/ seen vis a) as Hk2.
  { intros a Ha. destruct (decide (a = u)) as [->|]; [by left|right]. unfold seen, vis1 in Ha. by rewrite list_lookup_insert_ne in Ha. }
  pose proof (work_left_visit vis (add_set s) u Hb) as Hw. fold vis1 in Hw.
  assert (exists new, (length new <= length (default [] (add_set s !! u)))%nat /\ (forall v, v ∈ new -> edge u v) /\
    (forall v, edge u v -> seen vis1 v \/ v ∈ new) /\
    (match add_set s !! u with
     | Some l => stack ← foldM (closure_push s n vis1) l rest; closure s n fuel stack vis1
     | None => closure s n fuel rest vis1
     end) = closure s n fuel (rest ++ new) vis1) as (new & Hnl & Hne & Hna & ->).
  { destruct (add_set s !! u) as [l|] eqn:Ea.
    - destruct (closure_push_ok vis1 u l rest) as (new & -> & Hnl & Hne & Hna); [intros rel Hr; by exists l|].
      exists new. split_and!; try done. intros v (rel & sl & g & (l' & ? & ?) & ? & ? & <- & ? & ? & ?). simplify_eq.
      by eapply Hna.
    - exists []. rewrite app_nil_r. split_and!; try done; [by intros v []%not_elem_of_nil|].
      intros v (rel & sl & g & (l' & ? & ?) & _). congruence. }
  destruct (IH (rest ++ new) vis1) as (vis' & E & Hl' & Hk & Hs & Hc & Hr).
  + by unfold vis1; rewrite length_insert.
  + intros w [?|Hw']%elem_of_app; [by apply Hrest|]. by destruct (Hne w Hw') as (? & ? & ? & _ & _ & _ & _ & ? & _).
  + rewrite length_app. lia.
  + intros a v Ha He. destruct (Hk2 a Ha) as [->|Ha'].
    * destruct (Hna v He); [by left|right; apply elem_of_app; by right].
    * destruct (Hcl a v Ha' He) as [?|[?| ->%list_elem_of_singleton]%elem_of_app]; [left; by apply Hk1| |by left].
      right. apply elem_of_app. by left.
  + exists vis'. split_and!; try done.
    * intros a Ha. by apply Hk, Hk1.
    * intros a [?| ->%list_elem_of_singleton]%elem_of_app; [|by apply Hk]. apply Hs, elem_of_app. by left.
    * intros v Hv. destruct (Hr v Hv) as [[->|?]%Hk2|(w & [?|Hw']%elem_of_app & Hr')].
      -- right. exists u. split; [apply elem_of_app; right; by left|constructor].
      -- by left.
      -- right. exists w. split; [|done]. apply elem_of_app. by left.
      -- right. exists u. split; [apply elem_of_app; right; by left|]. eapply rtc_l; [by apply Hne|done].
Qed.
End validation.
Section validation.
Context (s : Tables) (n : nat).
Context (Hslots : forall u rel, listed (add_set s) u rel -> exists sl, weight_table s !! rel = Some sl /\
((canon sl < n)%nat -> is_Some (group_flags s !! canon sl))).

(** [y] may stand after [x]: it does not reach it. *)
Definition may_follow (x y : nat) : Prop := (x < n)%nat -> (y < n)%nat -> ~ rtc (edge s n) y x.

Lemma validate_rev_ok rev : forall vis,
length vis = n -> (forall u v, seen vis u -> edge s n u v -> seen vis v) ->
exists b, validate_rev s n rev vis = Some b /\
  (b = true <-> (forall x, x ∈ rev -> ~ seen vis x) /\ StronglySorted (flip may_follow) rev).
Proof.
induction rev as [|id rev IH]; intros vis Hlen Hcl; cbn [validate_rev].
{ exists true. split; [done|]. split; [|done]. intros _. split; [by intros x []%not_elem_of_nil|constructor]. }
destruct (vis !! id) as [b|] eqn:Ev.
- assert (id < n)%nat as Hid by (rewrite <-Hlen; by eapply lookup_lt_Some).
  destruct b.
  { exists false. split; [done|]. split; [done|]. intros [Hns _]. exfalso. apply (Hns id); [by left|done]. }
  destruct (closure_ok s n Hslots (closure_fuel s) [id] vis) as (vis' & E & Hl' & Hk & Hs & Hc & Hr).
  + done.
  + by intros u ->%list_elem_of_singleton.
  + pose proof (work_left_bound vis (add_set s)). unfold closure_fuel. cbn [length]. lia.
  + intros u v Hu He. left. by eapply Hcl.
  + rewrite E. cbn [mbind option_bind]. destruct (IH vis' Hl' Hc) as (b & -> & Hb). exists b. split; [done|].
    rewrite Hb.
    assert (forall x, seen vis' x <-> seen vis x \/ rtc (edge s n) id x) as Hseen.
    { intros x. split.
      - intros Hx. destruct (Hr x Hx) as [?|(u & ->%list_elem_of_singleton & ?)]; [by left|by right].
      - intros [?|Hx]; [by apply Hk|]. assert (seen vis' id) as Hi by (apply Hs; by left).
        clear -Hx Hi Hc. induction Hx; [done|]. apply IHHx. by eapply Hc. }
    split.
    * intros [Hns Hss]. split.
      -- intros x [->|Hx]%elem_of_cons; [unfold seen; congruence|]. intros Hv. apply (Hns x Hx), Hseen. by left.
      -- constructor; [done|]. apply Forall_forall. intros x Hx _ _ Hreach. apply (Hns x Hx), Hseen. by right.
    * intros [Hns Hss]. apply StronglySorted_inv in Hss as [Hss Hid']. split; [|done].
      intros x Hx [Hv|Hreach]%Hseen; [apply (Hns x); [by right|done]|].
      assert (seen vis' x) as Hv by (apply Hseen; by right). apply lookup_lt_Some in Hv. rewrite Hl' in Hv.
      exact (proj1 (Forall_forall _ _) Hid' x Hx Hv Hid Hreach).
- destruct (IH vis Hlen Hcl) as (b & -> & Hb). exists b. split; [done|]. rewrite Hb.
  assert (n <= id)%nat as Hid by (rewrite <-Hlen; by apply lookup_ge_None).
  split.
  + intros [Hns Hss]. split; [intros x [->|Hx]%elem_of_cons; [unfold seen; congruence|by apply Hns]|].
    constructor; [done|]. apply Forall_forall. intros x Hx Hxn Hyn. lia.
  + intros [Hns Hss]. apply StronglySorted_inv in Hss as [Hss _]. split; [|done]. intros x Hx. apply Hns. by right.
Qed.
End validation.

(** The snapshot: its slots exist, and the nodes they name have flags. *)
Definition snapped (c : StCutContext) : Prop :=
  forall u rel, listed (add_set (snap c)) u rel -> exists sl, weight_table (snap c) !! rel = Some sl /\
    ((canon sl < node_count c)%nat -> is_Some (group_flags (snap c) !! canon sl)).

Lemma snapped_aligned c c' : aligned c -> snap c' = work c -> snapped c'.
Proof.
  intros Ha Hs u rel Hu. rewrite Hs in *. destruct (gi_add c (al_inv c Ha) u rel Hu) as (sl & _ & Hsl & _).
  exists sl. split; [done|]. intros _. destruct (gi_partner c (al_inv c Ha) rel sl Hsl) as [Hc _].
  apply lookup_lt_is_Some_2. by rewrite (al_flags c Ha).
Qed.

(** The edges of a graph do not depend on a bound above its nodes. *)
Lemma edge_bound c n u v :
  aligned c -> (length (add_set (work c)) <= n)%nat ->
  edge (work c) n u v <-> edge (work c) (length (add_set (work c))) u v.
Proof.
  intros Ha Hn. split; intros (rel & sl & g & Hl & Hsl & Hb & Hc & Hlt & Hg & Hz); exists rel, sl, g; split_and!; try done.
  - destruct (gi_partner c (al_inv c Ha) rel sl Hsl) as [? _]. lia.
  - lia.
Qed.

Lemma validate_order_spec c :
  snapped c ->
  exists b, validate_order c = Some b /\
    (b = true <-> StronglySorted (may_follow (snap c) (node_count c)) (working_order c)).
Proof.
  intros Hslots. unfold validate_order.
  destruct (validate_rev_ok (snap c) (node_count c) Hslots (reverse (working_order c))
    (replicate (node_count c) false)) as (b & -> & Hb).
  - by rewrite length_replicate.
  - intros u v [? _]%lookup_replicate. done.
  - exists b. split; [done|]. rewrite Hb. split.
    + intros [_ H]. apply pairwise_reverse in H. by rewrite reverse_involutive in H.
    + intros H. split; [|by apply pairwise_reverse].
      intros x _ [? _]%lookup_replicate. done.
Qed.

(** C30: [stcut_validate_order] returns, and answers true exactly for the
    orders in which no node reaches an earlier one in the snapshot (over
    edges without bit 4, through nodes without flag 2); an order that holds
    a node twice is refused. *)
Theorem validate_order_correct c :
  snapped c ->
  exists b, validate_order c = Some b /\
    (b = true <-> StronglySorted (may_follow (snap c) (node_count c)) (working_order c)).
Proof. apply validate_order_spec. Qed.

(** * The verdict *)

(** The level at the far end of a slot, when the slot has no bit 4. *)
Definition far_level (t : Tables) (marks : list Z) (rel : nat) : option Z :=
  sl ← weight_table t !! rel;
  if bit4 sl then None else fsl ← weight_table t !! idx sl; marks !! canon fsl.

Definition hist_ok (hist : list (Z * Z)) (levels : list Z) : Prop :=
  StronglySorted Z.lt hist.*1 /\ (forall k, k ∈ hist.*1 <-> k ∈ levels) /\
  (forall kn : Z * Z, kn ∈ hist -> 0 < kn.2) /\ foldr Z.add 0 hist.*2 = Z.of_nat (length levels).

Lemma hist_small (hist : list (Z * Z)) (kn : Z * Z) :
  (forall kn : Z * Z, kn ∈ hist -> 0 < kn.2) -> kn ∈ hist -> kn.2 <= foldr Z.add 0 hist.*2.
Proof.
  induction hist as [|a hist IH]; intros Hpos; [by intros []%not_elem_of_nil|]. cbn.
  assert (0 < a.2) by (apply Hpos; by left).
  assert (0 <= foldr Z.add 0 hist.*2) as Hge.
  { assert (forall kn : Z * Z, kn ∈ hist -> 0 < kn.2) as Hp by (intros; apply Hpos; by right). clear -Hp.
    induction hist as [|b hist IH]; cbn; [done|]. assert (0 < b.2) by (apply Hp; by left).
    assert (0 <= foldr Z.add 0 hist.*2) by (apply IH; intros; apply Hp; by right). lia. }
  intros [->|Hin]%elem_of_cons; [lia|]. assert (kn.2 <= foldr Z.add 0 hist.*2); [|lia].
  apply IH; [|done]. intros. apply Hpos. by right.
Qed.

Lemma bump_keys k hist x : x ∈ (bump k hist).*1 <-> x = k \/ x ∈ hist.*1.
Proof.
  induction hist as [|[k' m] hist IH]; cbn; [set_solver|].
  destruct (k <? k'); cbn; [set_solver|]. destruct (Z.eqb_spec k k') as [->|]; cbn; [set_solver|].
  rewrite !elem_of_cons, IH. tauto.
Qed.

Lemma bump_ok k hist levels :
  hist_ok hist levels -> Z.of_nat (length levels) + 1 < 2 ^ 64 -> hist_ok (bump k hist) (levels ++ [k]).
Proof.
  intros (Hs & Hk & Hp & Hsum) Hlen.
  assert (forall kn : Z * Z, kn ∈ hist -> kn.2 + 1 < 2 ^ 64) as Hb.
  { intros kn Hin. pose proof (hist_small hist kn Hp Hin). lia. }
  split; [|split; [|split]].
  - clear -Hs. induction hist as [|[k' m] hist IH]; cbn; [repeat constructor|].
    cbn in Hs. apply StronglySorted_inv in Hs as Hs'. destruct Hs' as [Ht Hh].
    case_bool; cbn; [constructor; [done|]|].
    + constructor; [done|]. eapply Forall_impl; [done|]. cbn. lia.
    + destruct (Z.eqb_spec k k'); cbn; [done|]. constructor; [by apply IH|].
      apply Forall_forall. intros x [->|Hx]%bump_keys; [lia|]. exact (proj1 (Forall_forall _ _) Hh x Hx).
  - intros x. rewrite bump_keys, elem_of_app, list_elem_of_singleton, Hk. tauto.
  - clear -Hp Hb. induction hist as [|[k' m] hist IH]; cbn; [by intros kn ->%list_elem_of_singleton|].
    assert (0 < m) by (apply (Hp (k', m)); by left). assert (m + 1 < 2 ^ 64) by (apply (Hb (k', m)); by left).
    case_bool; [intros kn [->|?]%elem_of_cons; [done|by apply Hp]|].
    destruct (Z.eqb_spec k k').
    + intros kn [->|?]%elem_of_cons; [|apply Hp; by right]. cbn. unwrap; lia.
    + intros kn [->|Hin]%elem_of_cons; [done|]. revert kn Hin. apply IH; intros; [apply Hp|apply Hb]; by right.
  - rewrite length_app. cbn. rewrite Nat2Z.inj_add, <-Hsum. cbn. clear -Hp Hb.
    induction hist as [|[k' m] hist IH]; cbn; [done|].
    assert (0 < m) by (apply (Hp (k', m)); by left). assert (m + 1 < 2 ^ 64) by (apply (Hb (k', m)); by left).
    case_bool; cbn; [lia|]. destruct (Z.eqb_spec k k'); cbn; [unwrap; lia|].
    rewrite IH; [lia|..]; intros; [apply Hp|apply Hb]; by right.
Qed.

Lemma histogram_ok c : forall cut,
  graph_inv c -> (forall rel, rel ∈ cut -> is_Some (weight_table (work c) !! rel)) ->
  Z.of_nat (length cut) < 2 ^ 64 ->
  exists hist, histogram c cut = Some hist /\ hist_ok hist (omap (far_level (work c) (mark_table c)) cut).
Proof.
  intros cut Hi. unfold histogram. induction cut as [|rel cut IH] using rev_ind; intros Hin Hlen.
  { exists []. split; [done|]. split; [constructor|]. split; [done|]. split; [by intros kn ?%not_elem_of_nil|done]. }
  rewrite length_app in Hlen. cbn in Hlen.
  destruct IH as (hist & E & Hok); [intros; apply Hin, elem_of_app; by left|lia|].
  rewrite foldM_app, E. cbn [mbind option_bind foldM]. rewrite omap_app. cbn [omap list_omap].
  destruct (Hin rel) as [sl Hsl]; [apply elem_of_app; right; by left|].
  unfold far_level at 2. rewrite Hsl. cbn [mbind option_bind].
  destruct (bit4 sl); [exists hist; split; [done|by rewrite app_nil_r]|].
  destruct (gi_partner c Hi rel sl Hsl) as (_ & fsl & Hf & _). rewrite Hf. cbn [mbind option_bind].
  destruct (mark_table c !! canon fsl) as [m|]; [|exists hist; split; [done|by rewrite app_nil_r]].
  eexists. split; [done|]. apply bump_ok; [done|].
  assert (length (omap (far_level (work c) (mark_table c)) cut) <= length cut)%nat; [|lia].
  clear. induction cut as [|a cut IH]; cbn; [lia|]. destruct (far_level _ _ a); cbn; lia.
Qed.

Lemma prefix_ok (hist : list (Z * Z)) : forall S,
  0 <= S -> (forall kn : Z * Z, kn ∈ hist -> 0 < kn.2) -> S + foldr Z.add 0 hist.*2 < 2 ^ 17 ->
  foldl prefix_step (STCUT_VERDICT_FIX * S, S, STCUT_VERDICT_FIX * S) hist =
    (STCUT_VERDICT_FIX * (S + foldr Z.add 0 hist.*2), S + foldr Z.add 0 hist.*2,
     STCUT_VERDICT_FIX * (S + foldr Z.add 0 hist.*2)).
Proof.
  induction hist as [|[k m] hist IH]; intros S HS Hp Hlt; cbn [foldl]; [cbn; by rewrite Z.add_0_r|].
  assert (0 < m) by (apply (Hp (k, m)); by left). cbn in Hlt.
  assert (forall kn : Z * Z, kn ∈ hist -> 0 < kn.2) as Hp' by (intros; apply Hp; by right).
  assert (0 <= foldr Z.add 0 hist.*2).
  { clear -Hp'. induction hist as [|[k m] hist IH]; [done|]. cbn. assert (0 < m) by (apply (Hp' (k, m)); by left).
    assert (0 <= foldr Z.add 0 hist.*2) by (apply IH; intros; apply Hp'; by right). lia. }
  assert (prefix_step (STCUT_VERDICT_FIX * S, S, STCUT_VERDICT_FIX * S) (k, m) =
    (STCUT_VERDICT_FIX * (S + m), S + m, STCUT_VERDICT_FIX * (S + m))) as ->.
  { unfold prefix_step, STCUT_VERDICT_FIX. cbn [snd]. unfold wrap.
    rewrite (Z.mod_small (m * 715827882)) by lia. rewrite (Z.mod_small (715827882 * S + _)) by lia.
    rewrite (Z.mod_small (S + m)) by lia.
    f_equal; [f_equal|]; lia. }
  rewrite IH by (done || lia). cbn. by rewrite Z.add_assoc.
Qed.

Lemma verdict_of_ok hist levels :
  hist_ok hist levels -> Z.of_nat (length levels) < 2 ^ 17 ->
  verdict_of hist = (8 <=? length hist)%nat && (length hist <=? 19)%nat.
Proof.
  intros (_ & _ & Hp & Hsum) Hlen. unfold verdict_of, STCUT_MIN_BUCKETS.
  destruct (Nat.leb_spec 8 (length hist)) as [H8|H8]; [|by destruct (Z.ltb_spec (Z.of_nat (length hist)) 8); [|lia]].
  destruct (Z.ltb_spec (Z.of_nat (length hist)) 8); [lia|]. cbn [andb].
  assert (Z.of_nat (length hist) <= foldr Z.add 0 hist.*2) as Hle.
  { clear -Hp. induction hist as [|[k m] hist IH]; [done|]. cbn. assert (0 < m) by (apply (Hp (k, m)); by left).
    assert (Z.of_nat (length hist) <= foldr Z.add 0 hist.*2) by (apply IH; intros; apply Hp; by right). lia. }
  pose proof (prefix_ok hist 0 ltac:(lia) Hp ltac:(lia)) as E. rewrite Z.mul_0_r, !Z.add_0_l in E. rewrite E, Hsum.
  rewrite Hsum in Hle. set (T := Z.of_nat (length levels)) in *. set (B := Z.of_nat (length hist)) in *.
  destruct (Z.eqb_spec T 0); [lia|]. unfold STCUT_VERDICT_FIX, STCUT_VERDICT_THR, wrap.
  assert (0 <= B * (715827882 * T) < 2 ^ 64) by nia.
  rewrite Z.mod_small by done. replace (B * (715827882 * T)) with (B * 715827882 * T) by lia.
  rewrite Z.div_mul by done. destruct (Nat.leb_spec (length hist) 19); [apply Z.ltb_lt|apply Z.ltb_ge]; lia.
Qed.

Lemma hist_distinct hist levels : hist_ok hist levels -> length hist = length (remove_dups levels).
Proof.
  intros (Hs & Hk & _). rewrite <-(length_fmap fst hist).
  assert (hist.*1 ≡ₚ remove_dups levels) as ->; [|done].
  apply NoDup_Permutation; [|apply NoDup_remove_dups|].
  - clear -Hs. induction hist as [|[k m] hist IH]; cbn in *; [constructor|].
    apply StronglySorted_inv in Hs as [Hs Hh]. constructor; [|by apply IH].
    intros Hin. pose proof (proj1 (Forall_forall _ _) Hh k Hin). cbn in *. lia.
  - intros k. by rewrite Hk, elem_of_remove_dups.
Qed.

(** [stcut_cut_verdict] returns after numbering the levels from the
    record's entry, and its fixed-point test says no more than this: the
    slots of the cut set that have no bit 4 end on at least eight and at
    most nineteen different levels. *)
Theorem cut_verdict_counts_levels best r cut c :
  aligned c -> journal c !! best = Some r -> (add_entry r < length (add_set (work c)))%nat ->
  (forall rel, rel ∈ cut -> is_Some (weight_table (work c) !! rel)) -> Z.of_nat (length cut) < 2 ^ 17 ->
  exists m b, cut_verdict best cut c = Some (b, set_mark_table m c) /\
    levelled c (length (mark_table c)) soft (add_entry r) m /\
    let distinct := length (remove_dups (omap (far_level (work c) m) cut)) in
    b = (8 <=? distinct)%nat && (distinct <=? 19)%nat.
Proof.
  intros Ha Hr He Hcut Hlen. unfold cut_verdict. rewrite Hr. cbn [mbind option_bind].
  destruct (soft_levels_ok (add_entry r) c Ha He) as (m & -> & Hm). cbn [mbind option_bind].
  assert (graph_inv (set_mark_table m c)) as Hi' by (destruct (al_inv c Ha); by split).
  destruct (histogram_ok (set_mark_table m c) cut Hi' Hcut ltac:(lia)) as (hist & -> & Hh).
  cbn [work mark_table set_mark_table] in Hh. cbn [mbind option_bind]. exists m, (verdict_of hist). split; [done|]. split; [done|]. cbn zeta.
  rewrite <-(hist_distinct _ _ Hh). eapply verdict_of_ok; [done|].
  assert (length (omap (far_level (work c) m) cut) <= length cut)%nat; [|cbn [work mark_table set_mark_table] in *; lia].
  clear. induction cut as [|a cut IH]; cbn; [lia|]. destruct (far_level _ _ a); cbn; lia.
Qed.

(** * The proposal returns *)

(** Only the marks and the random state move. *)
Definition only_marks (c c' : StCutContext) : Prop :=
  exists m r, length m = length (mark_table c) /\ c' = set_mark_table m (set_rng_state r c).

Lemma only_marks_refl c : only_marks c c.
Proof. exists (mark_table c), (rng_state c). by destruct c. Qed.

Lemma only_marks_trans c1 c2 c3 : only_marks c1 c2 -> only_marks c2 c3 -> only_marks c1 c3.
Proof. intros (m & r & Hm & ->) (m' & r' & Hm' & ->). exists m', r'. cbn in *. split; [congruence|done]. Qed.

(** What [aligned] reads. *)
Definition core (c : StCutContext) :=
  (work c, free_weight_slots c, mode c, threshold_ledger c, mark_table c, bitmap c).

Lemma aligned_core c c' : core c' = core c -> aligned c -> aligned c'.
Proof.
  unfold core. intros E [[? ? ? ? ? ? ? ? ?] ? ? ? ? ?]. injection E as Ew Ef Em El Ek Eb.
  split; rewrite ?Ew, ?Ek, ?Eb; try assumption. split; rewrite ?Ew, ?Ef, ?Em, ?El; assumption.
Qed.

Lemma only_marks_aligned c c' : only_marks c c' -> aligned c -> aligned c'.
Proof.
  intros (m & r & Hm & ->) [[? ? ? ? ? ? ? ? ?] ? ? ? ? ?]. split; cbn; rewrite ?Hm; try done.
Qed.

Lemma rand_next_marks c : only_marks c (rand_next c).2.
Proof.
  exists (mark_table c), (u64 (rng_state c * 6364136223846793005 + 1442695040888963407)). split; [done|].
  by destruct c.
Qed.

Lemma random_fallback_marks r c : only_marks c (random_fallback r c).2.
Proof.
  unfold random_fallback. case_match; [apply only_marks_refl|].
  pose proof (rand_next_marks c) as H'. destruct (rand_next c) as [x c']. cbn in H'. by case_match.
Qed.

Lemma build_local_tree_ok a b c :
  aligned c -> (a < length (add_set (work c)))%nat -> (b < length (add_set (work c)))%nat ->
  exists tree c', build_local_tree a b c = Some (tree, c') /\ only_marks c c'.
Proof.
  intros Ha H1 H2. unfold build_local_tree. destruct (soft_levels_ok a c Ha H1) as (m & -> & Hm).
  cbn [mbind option_bind]. assert (only_marks c (set_mark_table m c)) as Hof.
  { exists m, (rng_state c). split; [by rewrite (lv_len _ _ _ _ _ Hm)|by destruct c]. }
  pose proof (only_marks_aligned _ _ Hof Ha) as Ha'.
  destruct (hard_levels_ok b m (set_mark_table m c) Ha' H2) as (m' & E & _).
  { rewrite (lv_len _ _ _ _ _ Hm). apply (al_marks c Ha). }
  change (node_count (set_mark_table m c)) with (node_count c) in E.
  change (mark_table (set_mark_table m c)) with m. rewrite E. cbn [mbind option_bind].
  edestruct (foldM_total (local_weight (set_mark_table m c) m') (fun _ => True)) as (tree & -> & _); [|done|by eauto].
  intros tree n Hn%elem_of_seq _. unfold local_weight. case_match; [|by eauto].
  unfold node_count in Hn. cbn in Hn. rewrite (gi_nodes c (al_inv c Ha)), <-(al_flags c Ha) in Hn.
  destruct (lookup_lt_is_Some_2 (group_flags (work c)) n) as [g Hg]; [lia|]. cbn [work set_mark_table].
  rewrite Hg. cbn. by eauto.
Qed.

Definition jitter_ok (c : StCutContext) : Prop := u32 (jitter (config c) + 1) <> 0.

Lemma scan_pos_ok tree excl c0 w n c node :
  aligned c -> jitter_ok c -> (node < length (add_set (work c)))%nat -> only_marks c0 c ->
  exists w' n' c', scan_pos tree excl (w, n, c) node = Some (w', n', c') /\ only_marks c0 c'.
Proof.
  intros Ha Hj Hn Hof. unfold scan_pos. rewrite <-(al_flags c Ha) in Hn.
  destruct (lookup_lt_is_Some_2 _ _ Hn) as [g ->]. cbn [mbind option_bind].
  destruct (negb (Z.land g 4 =? 0)); [by eauto|]. set (wt := match cand_tables c !! node with Some _ => _ | None => _ end).
  destruct (jitter (config c) =? 0); cbn [mbind option_bind]; [case_match; by eauto|].
  destruct (Z.eqb_spec (u32 (jitter (config c) + 1)) 0) as [|_]; [done|].
  pose proof (rand_next_marks c) as Hr. destruct (rand_next c) as [x c']. cbn [mbind option_bind].
  pose proof (only_marks_trans _ _ _ Hof Hr). case_match; by eauto.
Qed.

Lemma propose_general_ok r fwd excl c :
  aligned c -> jitter_ok c -> (add_entry r < length (add_set (work c)))%nat ->
  (sub_entry r < length (add_set (work c)))%nat ->
  (forall f, journal c !! fwd = Some f -> sub_entry f < length (add_set (work c)))%nat ->
  (forall n, n ∈ working_order c -> n < length (add_set (work c)))%nat ->
  exists p c', propose_general r fwd excl c = Some (p, c') /\ only_marks c c'.
Proof.
  intros Ha Hj H1 H2 H3 Hord. unfold propose_general.
  destruct (build_local_tree_ok (add_entry r) (match journal c !! fwd with Some f => sub_entry f | None => sub_entry r end) c)
    as (tree & c1 & -> & Hof); [done|done|by case_match; eauto|]. cbn [mbind option_bind].
  destruct (foldM_total (scan_pos tree excl) (fun acc => only_marks c acc.2)
    (take (span_len r) (drop (range_start r) (working_order c1))) (0, 0%nat, c1)) as ([[w n] c2] & -> & Hof2);
    [|done|cbn; by eauto].
  intros [[w n] x] node Hn Hx. cbn in Hx.
  assert (node ∈ working_order c) as Hin.
  { destruct Hof as (? & ? & ? & ->). cbn in Hn.
    apply elem_of_take in Hn as (i & Hi & _). rewrite lookup_drop in Hi. by eapply list_elem_of_lookup_2. }
  destruct (scan_pos_ok tree excl c w n x node) as (w' & n' & c' & E & Hk).
  - by eapply only_marks_aligned.
  - destruct Hx as (? & ? & ? & ->). done.
  - destruct Hx as (? & ? & ? & ->). by apply Hord.
  - done.
  - by eexists.
Qed.

Lemma table_gate_ok c id i n :
  n ∈ table_gate c id i -> exists tbl, cand_tables c !! i = Some tbl /\ n ∈ tbl.
Proof.
  unfold table_gate. destruct (cand_tables c !! i) as [tbl|]; [|by intros ?%not_elem_of_nil].
  case_match; [by intros ?%not_elem_of_nil|]. intros [_ Hn]%list_elem_of_filter. by exists tbl.
Qed.

Lemma split_hits_ok pivot hits n :
  n ∈ (split_hits pivot hits).1 ++ (split_hits pivot hits).2 -> n ∈ hits.
Proof.
  unfold split_hits. set (step := split_step pivot).
  assert (forall l acc, let '(_, b, a) := foldl step acc l in forall x, x ∈ b ++ a -> x ∈ (acc.1.2 ++ acc.2) \/ x ∈ l) as H.
  { induction l as [|h l IH]; intros [[p b] a]; cbn [foldl]; [by left|].
    specialize (IH (step (p, b, a) h)). destruct (foldl step (step (p, b, a) h) l) as [[p' b'] a']. intros x Hx.
    destruct (IH x Hx) as [Hs|Hs]; [|right; by right]. unfold step, split_step in Hs.
    revert Hs. case_match; cbn; [by left|]. destruct p; cbn; rewrite !elem_of_app, list_elem_of_singleton, ?elem_of_cons; tauto. }
  specialize (H hits (false, [], [])). destruct (foldl step (false, [], []) hits) as [[p b] a]. cbn. intros Hn.
  destruct (H n Hn) as [?%not_elem_of_nil|?]; done.
Qed.

(** The candidates name nodes. *)
Definition cands_ok (c : StCutContext) : Prop :=
  forall i tbl n, cand_tables c !! i = Some tbl -> n ∈ tbl -> (n < length (add_set (work c)))%nat.

Lemma only_marks_cands c c' : only_marks c c' -> cands_ok c -> cands_ok c'.
Proof. by intros (m & r & _ & ->). Qed.

(** [stcut_cut_propose] on a record whose ends are nodes. *)
Lemma cut_propose_ok best r excl c :
  aligned c -> jitter_ok c -> cands_ok c -> journal c !! best = Some r ->
  (add_entry r < length (add_set (work c)))%nat ->
  (forall i x, journal c !! i = Some x -> sub_entry x < length (add_set (work c)))%nat ->
  (forall n, n ∈ working_order c -> n < length (add_set (work c)))%nat ->
  exists p bef aft excl' c', cut_propose best excl c = Some (p, bef, aft, excl', c') /\ only_marks c c' /\
    Forall (fun n => n < length (add_set (work c)))%nat (bef ++ aft).
Proof.
  intros Ha Hj Hca Hr H1 H2 Hord. unfold cut_propose. rewrite Hr. cbn [mbind option_bind].
  destruct (match journal c !! link_fwd r with Some f => _ | None => _ end) as [filter_id picked].
  destruct (match journal c !! picked with Some p => _ | None => _ end) as [verdict f24].
  set (pivot0 := if verdict =? 0 then -1 else _).
  assert (exists p c1, (if pivot0 <=? 0 then propose_general r (link_fwd r) excl c else Some (pivot0, c)) = Some (p, c1) /\
    only_marks c c1) as (p1 & c1 & -> & Hof1).
  { case_match; [|exists pivot0, c; split; [done|apply only_marks_refl]].
    apply propose_general_ok; eauto. }
  cbn [mbind option_bind].
  assert (only_marks c (if p1 <=? 0 then random_fallback r c1 else (p1, c1)).2) as Hof2.
  { case_match; [|done]. eapply only_marks_trans; [exact Hof1|apply random_fallback_marks]. }
  destruct (if p1 <=? 0 then random_fallback r c1 else (p1, c1)) as [p2 c2]. cbn [snd] in Hof2.
  pose proof (only_marks_cands _ _ Hof2 Hca) as Hca2.
  assert (work c2 = work c) as Hw2 by (by destruct Hof2 as (? & ? & _ & ->)).
  set (cut := if 0 <? p2 then _ else _).
  assert (Forall (fun n => n < length (add_set (work c)))%nat (cut.1.2 ++ cut.2)) as Hcut.
  { unfold cut. case_match; [|constructor]. cbn zeta. case_match; [|constructor].
    match goal with |- context [split_hits ?a ?b] => pose proof (split_hits_ok a b) as Hs; destruct (split_hits a b) as [b0 a0] end.
    cbn in *. apply Forall_forall. intros x Hx. destruct (table_gate_ok _ _ _ _ (Hs x Hx)) as (tbl & Ht & Hin).
    rewrite <-Hw2. by eapply Hca2. }
  destruct cut as [[p3 bef] aft]. cbn [fst snd] in Hcut.
  assert (only_marks c (if (p3 <=? 0) || bool_decide (Z.to_nat p3 ∈ excl) then random_fallback r c2 else (p3, c2)).2) as Hof3.
  { case_match; [|done]. eapply only_marks_trans; [exact Hof2|apply random_fallback_marks]. }
  destruct (if (p3 <=? 0) || bool_decide (Z.to_nat p3 ∈ excl) then random_fallback r c2 else (p3, c2)) as [p4 c4].
  eexists _, _, _, _, _. split; [done|]. by split.
Qed.

Lemma cut_verdict_ok best r cut c :
  aligned c -> journal c !! best = Some r -> (add_entry r < length (add_set (work c)))%nat ->
  (forall rel, rel ∈ cut -> is_Some (weight_table (work c) !! rel)) ->
  exists b c', cut_verdict best cut c = Some (b, c') /\ only_marks c c'.
Proof.
  intros Ha Hr He Hcut. unfold cut_verdict. rewrite Hr. cbn [mbind option_bind].
  destruct (soft_levels_ok (add_entry r) c Ha He) as (m & -> & Hm). cbn [mbind option_bind].
  unfold histogram. edestruct (foldM_total (fun hist rel =>
           sl ← weight_table (work (set_mark_table m c)) !! rel;
           if bit4 sl then Some hist
           else
             fsl ← weight_table (work (set_mark_table m c)) !! idx sl;
             match mark_table (set_mark_table m c) !! canon fsl with
             | None => Some hist
             | Some m => Some (bump m hist)
             end) (fun _ => True) cut []) as (hist & -> & _); [|done|].
  - intros hist rel Hrel _. destruct (Hcut rel Hrel) as [sl Hsl]. cbn [work set_mark_table]. rewrite Hsl.
    cbn [mbind option_bind]. case_match; [by eauto|].
    destruct (gi_partner c (al_inv c Ha) rel sl Hsl) as (_ & fsl & -> & _). cbn [mbind option_bind]. case_match; by eauto.
  - cbn [mbind option_bind]. eexists _, _. split; [done|]. exists m, (rng_state c).
    split; [by rewrite (lv_len _ _ _ _ _ Hm)|by destruct c].
Qed.

(** * Witnesses *)

Definition long_chain : StCutGraphInput :=
  mkInput 9 ((fun k => mkRelation k (S k) 1 false) <$> seq 0 8) (seq 0 9) [].

Lemma long_chain_aligned c :
  build_initial_state long_chain = Some c -> aligned c /\ length (add_set (work c)) = 9%nat.
Proof. apply build_aligned; [repeat constructor; cbn; lia..|cbn; lia]. Qed.

Lemma mark_levels_ok_witness :
  exists c m m', build_initial_state long_chain = Some c /\
    mark_levels 0 (node_count c + 2) c = Some (set_mark_table m c) /\
    level_mark_bfs 8 (mark_table c) (node_count c + 2) c = Some m' /\ m !! 8%nat = Some 10 /\ m' !! 0%nat = Some 10.
Proof.
  destruct (build_initial_state long_chain) as [c|] eqn:E; [|by vm_compute in E].
  destruct (long_chain_aligned c E) as [Ha Hlen].
  destruct (mark_levels_ok 0 (mark_table c) c Ha) as [(m & Em & _) _]; [lia|apply (al_marks c Ha)|].
  destruct (mark_levels_ok 8 (mark_table c) c Ha) as [_ (m' & Em' & _)]; [lia|apply (al_marks c Ha)|].
  exists c, m, m'. split; [reflexivity|]. split; [exact Em|]. split; [exact Em'|].
  vm_compute in E. injection E as <-. vm_compute in Em, Em'. injection Em as <-. injection Em' as <-.
  split; reflexivity.
Defined.

Lemma validate_order_correct_witness :
  exists c, build_initial_state long_chain = Some c /\ snapped (snapshot_five c) /\
    StronglySorted (may_follow (work c) 9) [0; 1; 2; 3; 4; 5; 6; 7; 8]%nat /\
    ~ StronglySorted (may_follow (work c) 9) [0; 2; 1]%nat.
Proof.
  destruct (build_initial_state long_chain) as [c|] eqn:E; [|by vm_compute in E].
  destruct (long_chain_aligned c E) as [Ha _].
  assert (snapped (snapshot_five c)) as Hs by (apply (snapped_aligned c); [exact Ha|reflexivity]).
  exists c. split; [reflexivity|]. split; [exact Hs|].
  assert (node_count c = 9%nat) as Hn by (vm_compute in E; injection E as <-; reflexivity).
  assert (working_order c = [0; 1; 2; 3; 4; 5; 6; 7; 8]%nat) as Ho by (vm_compute in E; injection E as <-; reflexivity).
  destruct (validate_order_correct (snapshot_five c) Hs) as (b & Eb & Hb).
  destruct (validate_order_correct (set_working_order [0; 2; 1]%nat (snapshot_five c)) Hs) as (b' & Eb' & Hb').
  cbn [working_order snapshot_five set_working_order snap node_count work] in Hb, Hb'. split.
  - rewrite <-Hn, <-Ho. apply Hb. clear -E Eb. vm_compute in E. injection E as <-. vm_compute in Eb.
    injection Eb as <-. reflexivity.
  - intros Hsort. rewrite <-Hn in Hsort. apply Hb' in Hsort. clear -E Eb' Hsort. vm_compute in E. injection E as <-.
    vm_compute in Eb'. injection Eb' as <-. discriminate.
Defined.

Lemma cut_verdict_counts_levels_witness :
  exists c m, build_initial_state long_chain = Some c /\
    let c' := set_journal [mkRec 2 0 0 0 9 0 0 0 0 1] c in
    cut_verdict 0 [0; 2; 4; 6; 8; 10; 12; 14]%nat c' = Some (true, set_mark_table m c') /\
    cut_verdict 0 [0; 2; 4; 6; 8; 10; 12]%nat c' = Some (false, set_mark_table m c').
Proof.
  destruct (build_initial_state long_chain) as [c|] eqn:E; [|by vm_compute in E].
  destruct (long_chain_aligned c E) as [Ha Hlen]. set (c' := set_journal [mkRec 2 0 0 0 9 0 0 0 0 1] c).
  assert (aligned c') as Ha' by (apply (aligned_core c); [reflexivity|exact Ha]).
  destruct (cut_verdict_counts_levels 0 (mkRec 2 0 0 0 9 0 0 0 0 1) [0; 2; 4; 6; 8; 10; 12; 14]%nat c' Ha')
    as (m & b & Ev & _); [reflexivity|cbn; lia| |cbn; lia|].
  { intros rel Hr. vm_compute in E. injection E as <-. cbn [work c' set_journal].
    repeat (apply elem_of_cons in Hr as [->|Hr]; [eexists; reflexivity|]). by apply not_elem_of_nil in Hr. }
  exists c, m. split; [reflexivity|]. cbn zeta. fold c'. unfold c' in *. clear -E Ev.
  vm_compute in E. injection E as <-. vm_compute in Ev. injection Ev as <- <-. split; reflexivity.
Defined.
