(* ===== verification/StCutSchedule.v ===== *)
(** The cut-based scheduler's main loops, after
    [src/compiler/src/scheduler/st_cut.cpp]: splitting a record in two, the
    random restart, the scoring and cutting of [stcut_develop_schedule] with
    the final writing of the order, the retry loop [stcut_full_schedule] and
    its iteration budget.  The threshold of the scoring loop and the flow cap
    are computed in floating point and are parameters; the clock and what is
    derived from it (the cycle counts, the elapsed times) are left out. *)
From S2P Require Import Prelude StCutGraph StCutFlow StCutLevels.

Definition STCUT_GRAIN_BYTES : Z := 2048.
Definition STCUT_PREFIX_SENTINEL : Z := 0x5f5e0ff.

(** * The range of a record *)

Definition put_link_fwd (v : nat) (r : StCutRec) : StCutRec :=
  mkRec v (link_back r) (sub_entry r) (add_entry r) (span_len r) (field20 r) (field24 r)
    (range_start r) (counter r) (rec_id r).
Definition put_link_back (v : nat) (r : StCutRec) : StCutRec :=
  mkRec (link_fwd r) v (sub_entry r) (add_entry r) (span_len r) (field20 r) (field24 r)
    (range_start r) (counter r) (rec_id r).
Definition put_span_len (v : nat) (r : StCutRec) : StCutRec :=
  mkRec (link_fwd r) (link_back r) (sub_entry r) (add_entry r) v (field20 r) (field24 r)
    (range_start r) (counter r) (rec_id r).
Definition put_counter (v : Z) (r : StCutRec) : StCutRec :=
  mkRec (link_fwd r) (link_back r) (sub_entry r) (add_entry r) (span_len r) (field20 r) (field24 r)
    (range_start r) v (rec_id r).

(** The nodes at the positions of a range. *)
Definition range_ids (start len : nat) (order : list nat) : option (list nat) :=
  mapM (fun k => order !! k) (seq start len).

(** [working_order[w++] = id], node by node. *)
Definition write_at (w : nat) (ids : list nat) (order : list nat) : list nat :=
  (foldl (fun '(w, order) id => (S w, <[w := id]> order)) (w, order) ids).2.

Definition owned_by (owner : list Z) (id : Z) (n : nat) : Prop := owner !! n = Some id.
#[export] Instance owned_by_dec owner id n : Decision (owned_by owner id n).
Proof. unfold owned_by. apply _. Defined.

Definition cut_fix_range (best : nat) (id : Z) (c : StCutContext) : option StCutContext :=
  r ← journal c !! best;
  ids ← range_ids (range_start r) (span_len r) (working_order c);
  let keep := filter (fun n => ~ owned_by (ownership c) id n) ids in
  let move := filter (owned_by (ownership c) id) ids in
  Some (set_working_order (write_at (range_start r) (keep ++ move) (working_order c)) c).

(** * Splitting a record *)

(** One cut slot: its far node is led to [a], [b] leads to its near node, and
    the edge itself goes. *)
Definition rewire (a b : nat) (acc : Z * StCutContext) (e : nat) : option (Z * StCutContext) :=
  let '(wsum, c) := acc in
  sl ← weight_table (work c) !! e;
  fsl ← weight_table (work c) !! idx sl;
  '(_, c, _) ← connect_nodes (canon fsl) a (weight sl) None c;
  '(_, c, _) ← connect_nodes b (canon sl) (weight sl) None c;
  '(t, _) ← remove_edge e None (work c);
  Some (u64 (wsum + weight sl), set_work t c).

Definition cut_split_record (best : nat) (cut_ids : list nat) (cut_count : nat) (verdict : Z)
    (c : StCutContext) : option StCutContext :=
  let v1 := next_rec_id c in
  '(a, c) ← register_node v1 2 (set_next_rec_id (u16 (v1 + 1)) c);
  let v2 := next_rec_id c in
  '(b, c) ← register_node v2 1 (set_next_rec_id (u16 (v2 + 1)) c);
  parent ← journal c !! best;
  let old_fwd := link_fwd parent in
  let child_idx := length (journal c) in
  let cut_count := Nat.min cut_count (span_len parent) in
  let parent := put_span_len (span_len parent - cut_count) parent in
  let child := mkRec old_fwd best a b cut_count verdict 0 (range_start parent + span_len parent) 0 v1 in
  let j := <[best := put_link_fwd child_idx parent]> (journal c ++ [child]) in
  let j := alter (put_link_back child_idx) old_fwd j in
  '(wsum, c) ← foldM (rewire a b) cut_ids (0, set_journal j c);
  Some (set_journal (alter (put_counter wsum) child_idx (journal c)) c).

(** * Random restart *)

Definition count_live (t : Tables) (l : list nat) : option nat :=
  flags ← mapM (fun s => sl ← weight_table t !! s; Some (bit4 sl)) l;
  Some (length (filter (fun b => b = false) flags)).

Definition take_weight (s : nat) (w : Z) (t : Tables) : option Tables :=
  sl ← weight_table t !! s; Some (put_weight s (u64 (weight sl - w)) t).

Section restart.
Context (fwd : StCutRec) (rel_tree : gmap nat nat) (aslot0 : nat) (sn : Tables).

(** One snapshot slot of the far node. *)
Definition remerge_slot (rel far : nat) (acc : Tables * list nat) (srel : nat) : option (Tables * list nat) :=
let '(t, B) := acc in
ssl ← weight_table sn !! srel;
if bit4 ssl then Some acc
else
  psl ← weight_table sn !! idx ssl;
  let aslot := default 0%nat (rel_tree !! canon psl) in
  t ← take_weight aslot (weight ssl) t;
  t ← take_weight rel (weight ssl) t;
  t ← replay_apply [mkReplay srel 0 4] t;
  match add_set t !! far, add_set sn !! far with
  | Some l, Some sl0 =>
      n ← count_live t l;
      m ← count_live sn sl0;
      if (n <=? m)%nat then Some (t, B)
      else '(t, _) ← remove_edge aslot None t; Some (t, list_remove aslot B)
  | _, _ => Some (t, B)
  end.

Definition remerge_rel (acc : Tables * list nat) (rel : nat) : option (Tables * list nat) :=
let '(t, B) := acc in
sl ← weight_table t !! rel;
if bit4 sl then Some acc
else
  let far := canon sl in
  if (far =? sub_entry fwd)%nat then Some acc
  else
    '(t, B) ← foldM (remerge_slot rel far) (default [] (subtract_set sn !! far)) (t, B);
    t ← (if (aslot0 =? 0)%nat then Some t
         else rsl ← weight_table t !! rel; take_weight aslot0 (weight rsl) t);
    match subtract_set t !! far, subtract_set sn !! far with
    | Some l, Some l0 =>
        n ← count_live t l;
        m ← count_live sn l0;
        if (m <? n)%nat then '(t, _) ← remove_edge rel None t; Some (t, B)
        else t ← repoint_b rel (add_entry fwd) t; Some (t, B)
    | _, _ => Some (t, B)
    end.

(** The members of [B] that are left. *)
Definition relink_rest (r15d : nat) (t : Tables) (s : nat) : option Tables :=
sl ← weight_table t !! s;
if bit4 sl then Some t
else
  t ← (if (r15d =? 0)%nat then Some t else take_weight r15d (weight sl) t);
  repoint_a s (sub_entry fwd) t.
End restart.

Definition clear_residue (t : Tables) (s : nat) : option Tables :=
  sl ← weight_table t !! s;
  if Z.land (flags sl) 0x84 =? 0 then '(t, _) ← remove_edge s None t; Some t else Some t.

Definition random_restart (rec_idx : nat) (c : StCutContext) : option StCutContext :=
  r ← journal c !! rec_idx;
  let fwd_idx := link_fwd r in
  _ ← journal c !! fwd_idx;
  _ ← journal c !! link_back r;
  let j := alter (put_link_fwd fwd_idx) (link_back r) (journal c) in
  let j := alter (put_link_back (link_back r)) fwd_idx j in
  let j := alter (fun r => put_link_back 0 (put_link_fwd 0 r)) rec_idx j in
  fwd ← j !! fwd_idx;
  B ← subtract_set (work c) !! sub_entry r;
  add_c ← add_set (work c) !! add_entry r;
  rel_tree ← foldM (fun tree s =>
      sl ← weight_table (work c) !! s;
      if bit4 sl then Some tree
      else psl ← weight_table (work c) !! idx sl; Some (<[canon psl := s]> tree)) B (∅ : gmap nat nat);
  let aslot0 := default 0%nat (rel_tree !! add_entry fwd) in
  f ← find_pair (weight_table (work c)) add_c (sub_entry fwd);
  let r15d := default 0%nat f in
  let B := if (aslot0 =? 0)%nat then B else list_remove aslot0 B in
  let add_c := if (r15d =? 0)%nat then add_c else list_remove r15d add_c in
  '(t, B) ← foldM (remerge_rel fwd rel_tree aslot0 (snap c)) add_c (work c, B);
  t ← foldM (relink_rest fwd r15d) B t;
  t ← (if (aslot0 =? 0)%nat then Some t
       else asl ← weight_table t !! aslot0;
            if Z.land (flags asl) 0x80 =? 0 then repoint_a aslot0 (sub_entry fwd) t else Some t);
  t ← (if (r15d =? 0)%nat then Some t else '(t, _) ← remove_edge r15d None t; Some t);
  ids ← range_ids (range_start r) (span_len r) (working_order c);
  owner ← foldM (fun o n => _ ← o !! n; Some (<[n := rec_id fwd]> o)) ids (ownership c);
  let j := alter (fun f => put_span_len (span_len f + span_len r) f) fwd_idx j in
  let j := alter (put_span_len 0) rec_idx j in
  C ← add_set t !! add_entry r;
  t ← foldM clear_residue C t;
  D ← subtract_set t !! sub_entry r;
  t ← foldM clear_residue D t;
  c ← retire_node (add_entry r) (set_work t (set_ownership owner (set_journal j c)));
  c ← retire_node (sub_entry r) c;
  Some (set_journal (alter (fun r => mkRec (link_fwd r) (link_back r) 0 0 (span_len r) (field20 r) 0
                                        (range_start r) (counter r) (rec_id r)) rec_idx (journal c)) c).

(** * Developing a schedule *)

Section scoring.
Context (aux : list Z) (thr : Z).

(** A position above the threshold counts four times. *)
Definition score_of (r : StCutRec) : option Z :=
foldM (fun score k => a ← aux !! k;
                      Some (u64 (score + u64 (a + (if thr <? sv a then u64 (3 * a) else 0)))))
  (seq (range_start r) (span_len r)) 0.

Definition best_step (acc : option (nat * Z)) (ir : nat * StCutRec) : option (option (nat * Z)) :=
let '(i, r) := ir in
if (link_fwd r =? 0)%nat then Some acc
else
  s ← score_of r;
  Some (match acc with
        | None => Some (i, s)
        | Some (b, bs) => if sv bs <? sv s then Some (i, s) else acc
        end).

Definition best_record (j : list StCutRec) : option (option nat) :=
acc ← foldM best_step (imap pair j) None;
Some (match acc with Some (i, _) => Some i | None => None end).
End scoring.

(** The chain of records from [best], up to the one that bears the number,
    or the last one. *)
Fixpoint chain_find (fuel : nat) (j : list StCutRec) (id : Z) (best : nat) : option nat :=
  match j !! best with
  | None => Some best
  | Some r =>
      if rec_id r =? id then Some best
      else if (link_fwd r =? 2)%nat then Some 2%nat
      else match fuel with O => None | S fuel => chain_find fuel j id (link_fwd r) end
  end.

(** The state of the main loop. *)
Record Dev := mkDev {
  d_ctx : StCutContext;
  d_aux : list Z;
  d_out : list Z;
  d_excl : gset nat;
  d_prop : Z
}.

(** The record to cut, the record's contents as read, the two halves. *)
Definition choose_cut (best : nat) (cursor : nat) (d : Dev) : option (nat * list nat * list nat * Dev) :=
  if negb (length (d_out d) =? cursor)%nat then
    node ← d_out d !! cursor;
    rid ← ownership (d_ctx d) !! Z.to_nat node;
    best' ← chain_find (length (journal (d_ctx d))) (journal (d_ctx d)) rid 1;
    b ← journal (d_ctx d) !! best';
    Some (best', [], [],
          mkDev (set_journal (<[best := b]> (journal (d_ctx d))) (d_ctx d)) (d_aux d) (d_out d) (d_excl d) (d_prop d))
  else
    '(p, bef, aft, excl, c) ← cut_propose best (d_excl d) (d_ctx d);
    Some (best, bef, aft, mkDev c (d_aux d) (d_out d) excl p).

Definition own_all (id : Z) (ids : list nat) (owner : list Z) : option (list Z) :=
  foldM (fun o n => _ ← o !! n; Some (<[n := id]> o)) ids owner.

(** The last position of the non-decreasing prefix of a range. *)
Fixpoint prefix_end (fuel : nat) (aux : list Z) (last p : nat) : option nat :=
  match fuel with
  | O => Some p
  | S fuel =>
      if (S p <? last)%nat then
        a ← aux !! p; b ← aux !! S p;
        if a <=? b then prefix_end fuel aux last (S p) else Some p
      else Some p
  end.

Definition deep_copy (r : StCutRec) (aux : list Z) (new_id : Z) (c : StCutContext) : option StCutContext :=
  if negb (deep_copy_gate (config c)) then Some c
  else
    let last := (range_start r + span_len r)%nat in
    p ← prefix_end (span_len r) aux last (range_start r);
    a ← aux !! p;
    if STCUT_PREFIX_SENTINEL <? a then
      ids ← range_ids (range_start r) (Nat.min (S p) last - range_start r) (working_order c);
      owner ← own_all new_id ids (ownership c);
      Some (set_ownership owner c)
    else Some c.

Definition maybe_restart (c : StCutContext) : option StCutContext :=
  let gate := restart_gate (config c) in
  if gate <? 2 then Some c
  else
    let '(x, c) := rand_next c in
    if negb (x mod gate =? 0) then Some c
    else
      let '(y, c) := rand_next c in
      let pick := (Z.to_nat y mod length (journal c))%nat in
      match journal c !! pick with
      | Some r => if (link_fwd r =? 0)%nat then Some c else random_restart pick c
      | None => None
      end.

(** One turn of the main loop, from the record that scored best. *)
Definition develop_step (thr : Z) (cursor : nat) (best : nat) (d : Dev) : option Dev :=
  '(best', bef, aft, d) ← choose_cut best cursor d;
  let c := d_ctx d in
  brec ← journal c !! best;
  let new_id := u16 (next_rec_id c + 1) in
  let c := set_next_rec_id new_id c in
  f ← journal c !! link_fwd brec;
  '(_, out, exported, c) ← cut_execute (add_entry brec) (sub_entry f) cursor new_id bef aft c;
  c ← (if (length out =? span_len brec)%nat then Some c else cut_fix_range best' new_id c);
  owner ← own_all new_id out (ownership c);
  let c := set_ownership owner c in
  '(aux, c) ← aux_fill (range_start brec) (span_len brec) (d_aux d) c;
  c ← deep_copy brec aux new_id c;
  '(verdict, c) ← cut_verdict best' exported c;
  c ← cut_split_record best' exported (length out) (if verdict : bool then 1 else 0) c;
  let outs := if (length (d_out d) =? cursor)%nat then d_out d ++ [d_prop d] else d_out d in
  c ← maybe_restart c;
  Some (mkDev c aux outs (d_excl d) (d_prop d)).

Fixpoint develop_loop (thr budget : Z) (iters : nat) (cursor : nat) (d : Dev) : option Dev :=
  if budget <=? inner_loop_count (d_ctx d) then Some d
  else
    match iters with
    | O => Some d
    | S iters =>
        best ← best_record (d_aux d) thr (journal (d_ctx d));
        match best with
        | None => Some d
        | Some best => d ← develop_step thr cursor best d; develop_loop thr budget iters (S cursor) d
        end
    end.

(** * Writing out the order *)

Section emission.
Context (t : Tables).

(** A slot with bit 4 that leads to a node not yet written holds back. *)
Fixpoint item_blocked (live : gset nat) (l : list nat) : option bool :=
match l with
| [] => Some false
| s :: l =>
    sl ← weight_table t !! s;
    if bit4 sl && bool_decide (canon sl ∈ live) then Some true else item_blocked live l
end.

Definition emit_item (acc : gset nat * list nat) (id : nat) : option (gset nat * list nat) :=
let '(live, done) := acc in
if negb (bool_decide (id ∈ live)) then Some acc
else
  l ← add_set t !! id;
  b ← item_blocked live l;
  Some (if b : bool then acc else (live ∖ {[id]}, done ++ [id])).

(** One more pass over what is left, in order, when a pass wrote nothing. *)
Definition emit_rest (acc : gset nat * list nat) (id : nat) : gset nat * list nat :=
let '(live, done) := acc in
if bool_decide (id ∈ live) then (live ∖ {[id]}, done ++ [id]) else acc.

Fixpoint emit_passes (fuel : nat) (batch : list nat) (live : gset nat) (done : list nat) : option (list nat) :=
if bool_decide (live = ∅) then Some done
else
  match fuel with
  | O => None
  | S fuel =>
      '(live', done') ← foldM emit_item batch (live, done);
      if (length done' =? length done)%nat && negb (bool_decide (live' = ∅))
      then Some (foldl emit_rest (live', done') batch).2
      else emit_passes fuel batch live' done'
  end.
End emission.

Definition net_le (net : list Z) (a b : nat) : Prop :=
  let x := default 0 (net !! a) in let y := default 0 (net !! b) in
  x < y \/ (x = y /\ (a <= b)%nat).
#[export] Instance net_le_dec net a b : Decision (net_le net a b).
Proof. unfold net_le. apply _. Defined.

Definition emit_record (c : StCutContext) (r : StCutRec) : option StCutContext :=
  if (span_len r =? 0)%nat then Some c
  else
    ids ← range_ids (range_start r) (span_len r) (working_order c);
    let batch := merge_sort (net_le (net_weight c)) ids in
    done ← emit_passes (work c) (length batch) batch (list_to_set ids) [];
    Some (set_working_order (write_at (range_start r) done (working_order c)) c).

Definition emit_terminal_order (c : StCutContext) : option StCutContext :=
  c ← compute_net_weight c;
  foldM emit_record (journal c) c.

Definition init_journal (arg2 arg3 : nat) (c : StCutContext) : StCutContext :=
  let id2 := u16 (next_rec_id c + 1) in
  let n := length (working_order c) in
  set_ownership (replicate (node_count c) id2)
    (set_journal [mkRec 0 0 0 0 0 0 0 0 0 0; mkRec 2 0 0 arg2 n 0 0 0 0 id2; mkRec 0 0 arg3 0 0 0 0 0 (Z.of_nat n) 0]
       (set_next_rec_id id2 c)).

Definition develop_schedule (thr : Z) (arg2 arg3 : nat) (out : list Z) (aux : list Z) (budget max_iters : Z)
    (c : StCutContext) : option (list Z * list Z * StCutContext) :=
  d ← develop_loop thr budget (Z.to_nat max_iters) 0
        (mkDev (init_journal arg2 arg3 c) aux out ∅ 0xfffffffc);
  c ← (if emit_terminal (config (d_ctx d)) then emit_terminal_order (d_ctx d) else Some (d_ctx d));
  Some (d_out d, d_aux d, c).

(** * The retry loop *)

Record StCutOptions := mkOptions { opt_it : Z; opt_rg : Z; opt_rt : Z; opt_am : bool }.

Definition iteration_budget (opt : Z) (n : nat) : Z :=
  let n := Z.of_nat n in
  let denom := u64 (Z.shiftr (u64 (n * 0x1450f0)) 32 + 26) in
  let numer := opt * 1000000 + 3000000000 - n * 530000 in
  Z.max numer 0 / denom.

Definition prep_round (thr : Z) (arg2 arg3 : nat) (aux : list Z) (budget opt1 : Z) (c : StCutContext)
    : option (list Z * StCutContext) :=
  let c := if snapshot_taken c then c else snapshot_five c in
  '(aux, c) ← aux_fill 0 (length (working_order c)) aux c;
  '(_, aux, c) ← develop_schedule thr arg2 arg3 [] aux budget opt1 c;
  Some (aux, c).

(** The state of the retry loop. *)
Record Retry := mkRetry {
  rt_ctx : StCutContext;
  rt_aux : list Z;
  rt_best : list nat;
  rt_flow : Z;
  rt_flows : list Z;
  rt_used : Z
}.

(** One round: the new state, and whether the loop ends with it. *)
Definition retry_round (thr flow_cap : Z) (opt : StCutOptions) (original : list nat) (s_seed t_seed : nat)
    (round : Z) (s : Retry) : option (Retry * bool) :=
  let n := node_count (rt_ctx s) in
  let budget := u64 (iteration_budget (opt_it opt) n + rt_used s) in
  '(aux, c) ← prep_round thr s_seed t_seed (rt_aux s) budget (opt_rg opt) (rt_ctx s);
  ok ← validate_order c;
  let c := if ok : bool then c else set_working_order original c in
  if negb ok && opt_am opt then Some (mkRetry c aux (rt_best s) (rt_flow s) (rt_flows s) (rt_used s), true)
  else
    '(flow, c) ← measure_peak c;
    let better := flow <? rt_flow s in
    let best := if better then working_order c else rt_best s in
    let best_flow := if better then flow else rt_flow s in
    let over := flow_cap <? u64 (flow * STCUT_GRAIN_BYTES) in
    let used := inner_loop_count c in
    let timeout := iteration_budget (opt_rt opt) n <? used in
    let retry := over && negb timeout in
    let c := restore_five (set_working_order original c) in
    Some (mkRetry c aux best best_flow (rt_flows s ++ [flow]) used,
          (opt_rt opt <=? round) || negb retry || timeout).

Fixpoint retry_loop (fuel : nat) (thr flow_cap : Z) (opt : StCutOptions) (original : list nat)
    (s_seed t_seed : nat) (round : Z) (s : Retry) : option Retry :=
  match fuel with
  | O => None
  | S fuel =>
      '(s, stop) ← retry_round thr flow_cap opt original s_seed t_seed round s;
      if stop : bool then Some s
      else retry_loop fuel thr flow_cap opt original s_seed t_seed (round + 1) s
  end.

Definition full_schedule (thr flow_cap : Z) (opt : StCutOptions) (original : list nat) (s_seed t_seed : nat)
    (c : StCutContext) : option (list nat * list Z * StCutContext) :=
  let c := set_working_order original c in
  s ← retry_loop (S (Z.to_nat (opt_rt opt))) thr flow_cap opt original s_seed t_seed 1
        (mkRetry c (replicate (node_count c + 1) 0) [] (2 ^ 64 - 1) [] 0);
  Some (if bool_decide (rt_best s = []) then original else rt_best s, rt_flows s, rt_ctx s).

(** * Ranges *)

Lemma range_ids_ok start len order :
  (start + len <= length order)%nat -> range_ids start len order = Some (take len (drop start order)).
Proof.
  intros Hl. unfold range_ids. apply mapM_Some_2, Forall2_same_length_lookup_2.
  { rewrite length_seq, length_take, length_drop. lia. }
  intros i x y [-> Hi]%lookup_seq Hy. rewrite lookup_take_lt, lookup_drop in Hy by done. done.
Qed.

Lemma write_at_ok ids : forall w order,
  (w + length ids <= length order)%nat ->
  write_at w ids order = take w order ++ ids ++ drop (w + length ids) order.
Proof.
  unfold write_at. induction ids as [|x ids IH]; intros w order Hl; cbn [foldl length snd app] in *.
  { by rewrite Nat.add_0_r, take_drop. }
  rewrite IH by (rewrite length_insert; lia).
  rewrite (take_S_r _ _ x) by (rewrite list_lookup_insert_eq by lia; done).
  rewrite take_insert_ge by lia. rewrite drop_insert_lt by lia. rewrite <-app_assoc. cbn [app].
  by replace (S w + length ids)%nat with (w + S (length ids))%nat by lia.
Qed.

(** Writing a rearrangement of a range over it. *)
Lemma write_range_perm start len ids (order : list nat) :
  (start + len <= length order)%nat -> ids ≡ₚ take len (drop start order) ->
  write_at start ids order ≡ₚ order /\
  forall k, (k < start \/ start + len <= k)%nat -> write_at start ids order !! k = order !! k.
Proof.
  intros Hl Hp. assert (length ids = len) as Hlen.
  { rewrite Hp, length_take, length_drop. lia. }
  rewrite write_at_ok by lia. rewrite Hlen. split.
  - rewrite Hp. rewrite <-(take_drop start order) at 4. f_equiv.
    rewrite <-(take_drop len (drop start order)) at 2. by rewrite drop_drop.
  - intros k [Hk|Hk].
    + rewrite lookup_app_l by (rewrite length_take; lia). by rewrite lookup_take_lt.
    + rewrite lookup_app_r by (rewrite length_take; lia). rewrite length_take, Nat.min_l by lia.
      rewrite lookup_app_r by lia. rewrite lookup_drop, Hlen. f_equal. lia.
Qed.

Lemma filter_split_perm {A} (P : A -> Prop) `{!forall x, Decision (P x)} (l : list A) :
  filter (fun x => ~ P x) l ++ filter P l ≡ₚ l.
Proof.
  induction l as [|x l IH]; [done|]. rewrite !filter_cons. destruct (decide (P x)).
  - rewrite decide_False by tauto. rewrite <-Permutation_middle. by rewrite IH.
  - rewrite decide_True by done. cbn. by rewrite IH.
Qed.

(** [stcut_cut_fix_range] moves the nodes of the new record to the end of
    the range, both parts in their old order, and touches nothing else. *)
Lemma cut_fix_range_ok best r id c :
  journal c !! best = Some r -> (range_start r + span_len r <= length (working_order c))%nat ->
  exists order, cut_fix_range best id c = Some (set_working_order order c) /\
    order ≡ₚ working_order c /\
    order = take (range_start r) (working_order c) ++
            filter (fun n => ~ owned_by (ownership c) id n) (take (span_len r) (drop (range_start r) (working_order c))) ++
            filter (owned_by (ownership c) id) (take (span_len r) (drop (range_start r) (working_order c))) ++
            drop (range_start r + span_len r) (working_order c).
Proof.
  intros Hr Hl. unfold cut_fix_range. rewrite Hr. cbn [mbind option_bind].
  rewrite range_ids_ok by done. cbn [mbind option_bind]. eexists. split; [done|].
  set (ids := take _ _).
  pose proof (filter_split_perm (owned_by (ownership c) id) ids) as Hp.
  split; [by apply (write_range_perm _ (span_len r))|].
  assert (length (filter (fun n => ~ owned_by (ownership c) id n) ids ++ filter (owned_by (ownership c) id) ids) = span_len r) as Hlen.
  { rewrite Hp. unfold ids. rewrite length_take, length_drop. lia. }
  rewrite write_at_ok by (rewrite Hlen; done). rewrite Hlen. by rewrite <-app_assoc.
Qed.

Lemma own_all_ok id ids : forall owner,
  (forall n, n ∈ ids -> (n < length owner)%nat) ->
  exists owner', own_all id ids owner = Some owner' /\ length owner' = length owner.
Proof.
  unfold own_all. induction ids as [|n ids IH]; intros owner Hin; cbn [foldM]; [by exists owner|].
  destruct (lookup_lt_is_Some_2 owner n) as [x Hx]; [apply Hin; by left|]. rewrite Hx. cbn [mbind option_bind].
  destruct (IH (<[n := id]> owner)) as (o & -> & Ho); [|exists o; split; [done|by rewrite Ho, length_insert]].
  intros m Hm. rewrite length_insert. apply Hin. by right.
Qed.

(** * Grains *)

Definition grain (c : StCutContext) (id : nat) : Z := default 0 (grain_tree c !! id).

(** Only the lazily built tree moves, and its meaning does not. *)
Definition same_grains (c c' : StCutContext) : Prop :=
  exists tree, c' = set_grain_tree tree (set_tree_built true c) /\ forall id, grain c' id = grain c id.

Lemma grain_of_ok id c :
  tree_built c = true -> exists c', grain_of id c = Some (grain c id, c') /\ same_grains c c'.
Proof.
  intros Hb. unfold grain_of, grain_tree_build. rewrite Hb. cbn [mbind option_bind]. unfold grain.
  destruct (grain_tree c !! id) as [g|] eqn:E.
  - exists c. split; [done|]. exists (grain_tree c). split; [rewrite <-Hb; by destruct c|done].
  - eexists. split; [done|]. exists (<[id := 0]> (grain_tree c)). split; [rewrite <-Hb; by destruct c|].
    intros n. unfold grain. cbn. destruct (decide (n = id)) as [->|]; [by rewrite lookup_insert_eq, E|by rewrite lookup_insert_ne].
Qed.

Lemma same_grains_trans c1 c2 c3 : same_grains c1 c2 -> same_grains c2 c3 -> same_grains c1 c3.
Proof.
  intros (t & -> & H1) (t' & -> & H2). exists t'. split; [done|]. intros id. by rewrite H2, H1.
Qed.

Lemma same_grains_refl c : tree_built c = true -> same_grains c c.
Proof. intros Hb. exists (grain_tree c). split; [rewrite <-Hb; by destruct c|done]. Qed.

Lemma grain_tree_build_ok c :
  aligned c -> exists tree, grain_tree_build c = Some (set_grain_tree tree (set_tree_built true c)) /\
    (tree_built c = true -> tree = grain_tree c).
Proof.
  intros Ha. unfold grain_tree_build. destruct (tree_built c) eqn:Hb.
  { exists (grain_tree c). split; [rewrite <-Hb; by destruct c|done]. }
  edestruct (foldM_total (fun (tree : gmap nat Z) id => l ← add_set (work c) !! id;
    count ← slot_weights (work c) l 0; Some (<[id := count]> tree)) (fun _ => True)) as (tree & -> & _); [|done|by exists tree].
  intros tree id Hid%elem_of_seq _. unfold node_count in Hid. rewrite (gi_nodes c (al_inv c Ha)) in Hid.
  destruct (lookup_lt_is_Some_2 (add_set (work c)) id) as [l Hl]; [lia|]. rewrite Hl. cbn [mbind option_bind].
  unfold slot_weights. edestruct (foldM_total (fun acc rel => sl ← weight_table (work c) !! rel; Some (u64 (acc + weight sl)))
    (fun _ => True) l 0) as (count & -> & _); [|done|by eauto].
  intros acc rel Hrel _. destruct (gi_add c (al_inv c Ha) id rel) as (sl & _ & -> & _); [by exists l|]. by eexists.
Qed.

(** [stcut_aux_fill] over a range inside the order. *)
Lemma aux_fill_ok start len aux c :
  aligned c -> (start + len <= length (working_order c))%nat -> (start <= length aux)%nat ->
  exists aux' tree, aux_fill start len aux c = Some (aux', set_grain_tree tree (set_tree_built true c)) /\
    (length aux <= length aux')%nat /\ (start + len <= length aux')%nat /\
    (tree_built c = true -> forall id, default 0 (tree !! id) = grain c id).
Proof.
  intros Ha Hl Haux. unfold aux_fill.
  destruct (grain_tree_build_ok c Ha) as (tree & -> & Htree). cbn [mbind option_bind].
  set (c1 := set_grain_tree tree (set_tree_built true c)).
  assert (exists acc, match start with O => Some 0 | S p => aux !! p end = Some acc) as [acc ->].
  { destruct start; [by eexists|]. apply lookup_lt_is_Some_2. lia. }
  cbn [mbind option_bind].
  destruct (foldM_seq_ind aux_step (fun k x => (length aux <= length x.1.2)%nat /\ (k <= length x.1.2)%nat /\ same_grains c1 x.2)
    start len (acc, aux, c1)) as ([[sum aux'] c'] & -> & H1 & H2 & tree' & Hc' & H3).
  - intros k [[sum x] y] Hk (Hx1 & Hx2 & Hy). cbn [fst snd] in *. unfold aux_step.
    assert (working_order y = working_order c) as -> by (by destruct Hy as (? & -> & _)).
    destruct (lookup_lt_is_Some_2 (working_order c) k) as [id ->]; [lia|]. cbn [mbind option_bind].
    destruct (grain_of_ok id y) as (y' & -> & Hy'); [by destruct Hy as (? & -> & _)|]. cbn [mbind option_bind].
    eexists. split; [done|]. cbn. rewrite length_insert. pose proof (same_grains_trans _ _ _ Hy Hy').
    destruct (Nat.leb_spec (length x) k); [rewrite length_resize|]; split_and!; try done; lia.
  - cbn. split; [lia|]. split; [lia|]. by apply same_grains_refl.
  - cbn [fst snd] in *. subst c'. exists aux', tree'. split; [reflexivity|]. split; [done|]. split; [done|].
    intros Hb id. specialize (H3 id). unfold grain in *. cbn in H3. by rewrite H3, (Htree Hb).
Qed.

(** * Splitting *)

Lemma register_fresh_ok node fl c :
  aligned c -> free_node_slots c = [] -> Z.of_nat (S (length (add_set (work c)))) + 4 < 2 ^ 16 ->
  exists c', register_node node fl c = Some (length (add_set (work c)), c') /\ aligned c' /\
    length (add_set (work c')) = S (length (add_set (work c))) /\
    length (mark_table c') = S (length (add_set (work c))) /\
    weight_table (work c') = weight_table (work c) /\
    c' = set_cand_tables (resize (S (length (add_set (work c)))) [] (cand_tables c))
           (set_mark_table (mark_table c') (set_work (work c') c)).
Proof.
  intros Ha Hf Hs. pose proof (register_fresh_inv node fl c (al_inv c Ha)) as Hi'.
  unfold register_node. rewrite Hf, bool_decide_true, orb_true_r by done.
  exists (register_fresh node fl c).2. pose proof (gi_nodes c (al_inv c Ha)) as Hn. pose proof (al_flags c Ha) as Hg.
  split; [unfold register_fresh; by rewrite Hn|].
  assert (length (add_set (work (register_fresh node fl c).2)) = S (length (add_set (work c)))) as Hl
    by (cbn; by rewrite length_resize, Hn).
  assert (length (mark_table (register_fresh node fl c).2) = S (length (add_set (work c)))) as Hl'
    by (cbn; by rewrite length_resize, Hn).
  split; [|split; [done|split; [done|split; [done|]]]].
  - split; try done.
    + by rewrite Hl, Hl'.
    + rewrite Hl. cbn. rewrite length_app. cbn. lia.
    + exact (al_bits c Ha).
    + by rewrite Hl'.
    + exact (al_weights c Ha).
  - cbn. by rewrite Hn.
Qed.

Lemma remove_edge_same s replay t t' replay' :
  remove_edge s replay t = Some (t', replay') ->
  weight_table t' = weight_table t /\ group_flags t' = group_flags t /\ node_slots t' = node_slots t.
Proof.
  unfold remove_edge. intros E.
  repeat (match type of E with (_ ← ?x; _) = Some _ => destruct x; [|done]; cbn [mbind option_bind] in E end).
  by simplify_eq.
Qed.

Lemma remove_edge_aligned s sl c :
  aligned c -> weight_table (work c) !! s = Some sl ->
  exists t replay', remove_edge s None (work c) = Some (t, replay') /\ aligned (set_work t c) /\
    length (add_set t) = length (add_set (work c)) /\ weight_table t = weight_table (work c).
Proof.
  intros Ha Hsl. destruct (remove_edge_spec c s None sl (al_inv c Ha) Hsl) as (t & E & Hi & _ & Hl & Hw).
  exists t, (replay_push (mkReplay s 0 4) None). split; [done|]. destruct (remove_edge_same _ _ _ _ _ E) as (_ & Hg & Hn).
  split; [|done]. destruct Ha. split; cbn; rewrite ?Hl, ?Hw, ?Hg; done.
Qed.

(** What the rewiring leaves alone. *)
Definition rewired (c c' : StCutContext) : Prop :=
  aligned c' /\ kept c c' /\ length (add_set (work c')) = length (add_set (work c)) /\
  mark_table c' = mark_table c /\ ownership c' = ownership c /\
  (length (weight_table (work c)) <= length (weight_table (work c')))%nat.

Lemma rewired_refl c : aligned c -> rewired c c.
Proof. intros Ha. unfold rewired. split_and!; done. Qed.

Lemma rewired_trans c1 c2 c3 : rewired c1 c2 -> rewired c2 c3 -> rewired c1 c3.
Proof.
  intros (? & ? & ? & ? & ? & ?) (? & ? & ? & ? & ? & ?). split_and!; try done; congruence || lia.
Qed.

Lemma connect_rewired src dst w c :
  aligned c -> (src < length (add_set (work c)))%nat -> (dst < length (add_set (work c)))%nat -> 0 <= w < 2 ^ 62 ->
  exists e c' cb, connect_nodes src dst w None c = Some (e, c', cb) /\ rewired c c'.
Proof.
  intros Ha Hs Hd Hw. destruct (connect_spec c src dst w None (al_inv c Ha) Hs Hd) as (e & c' & cb & E & _ & Hl & _).
  exists e, c', cb. split; [done|]. destruct (connect_fields _ _ _ _ _ _ _ _ Ha E) as (? & ? & _).
  split; [exact (connect_aligned _ _ _ _ _ _ _ _ Ha Hs Hd Hw E)|].
  split; [exact (connect_kept _ _ _ _ _ _ _ _ E)|].
  split_and!; try done. exact (connect_grows _ _ _ _ _ _ _ _ (al_inv c Ha) E).
Qed.

Lemma rewire_ok a b wsum c e :
  aligned c -> (a < length (add_set (work c)))%nat -> (b < length (add_set (work c)))%nat ->
  (e < length (weight_table (work c)))%nat ->
  exists wsum' c', rewire a b (wsum, c) e = Some (wsum', c') /\ rewired c c'.
Proof.
  intros Ha H1 H2 He. unfold rewire. destruct (lookup_lt_is_Some_2 _ _ He) as [sl Hsl]. rewrite Hsl. cbn [mbind option_bind].
  destruct (gi_partner c (al_inv c Ha) e sl Hsl) as (Hc & fsl & Hf & _). rewrite Hf. cbn [mbind option_bind].
  destruct (gi_partner c (al_inv c Ha) _ fsl Hf) as (Hc' & _). pose proof (al_weights c Ha e sl Hsl) as Hw.
  destruct (connect_rewired (canon fsl) a (weight sl) c) as (e1 & c1 & cb1 & -> & Hr1); try done.
  cbn [mbind option_bind]. pose proof Hr1 as (Ha1 & _ & Hl1 & _ & _ & Hg1).
  destruct (connect_rewired b (canon sl) (weight sl) c1) as (e2 & c2 & cb2 & -> & Hr2); try (rewrite ?Hl1; done).
  cbn [mbind option_bind]. pose proof Hr2 as (Ha2 & _ & Hl2 & _ & _ & Hg2).
  destruct (lookup_lt_is_Some_2 (weight_table (work c2)) e) as [sl2 Hsl2]; [lia|].
  destruct (remove_edge_aligned e sl2 c2 Ha2 Hsl2) as (t & rp & -> & Ha3 & Hl3 & Hw3). cbn [mbind option_bind].
  eexists _, _. split; [done|]. eapply rewired_trans; [exact Hr1|]. eapply rewired_trans; [exact Hr2|].
  split_and!; try done. cbn. by rewrite Hw3.
Qed.

(** The journal after a split. *)
Definition split_journal (best : nat) (parent : StCutRec) (a b cut : nat) (verdict id w : Z) (j : list StCutRec)
    : list StCutRec :=
  let k := length j in
  let cut := Nat.min cut (span_len parent) in
  let parent' := put_span_len (span_len parent - cut) parent in
  alter (put_counter w) k
    (alter (put_link_back k) (link_fwd parent)
       (<[best := put_link_fwd k parent']>
          (j ++ [mkRec (link_fwd parent) best a b cut verdict 0 (range_start parent + span_len parent') 0 id]))).

(** [stcut_cut_split_record] on slots of the table: two new nodes, the new
    record behind its parent. *)
Lemma cut_split_ok best parent cut_ids cut verdict c :
  aligned c -> free_node_slots c = [] -> Z.of_nat (length (add_set (work c)) + 2) + 4 < 2 ^ 16 ->
  journal c !! best = Some parent ->
  Forall (fun s => s < length (weight_table (work c)))%nat cut_ids ->
  let n := length (add_set (work c)) in
  exists c' w, cut_split_record best cut_ids cut verdict c = Some c' /\ aligned c' /\
    length (add_set (work c')) = (n + 2)%nat /\ length (mark_table c') = (n + 2)%nat /\
    (length (weight_table (work c)) <= length (weight_table (work c')))%nat /\
    ownership c' = ownership c /\
    journal c' = split_journal best parent n (S n) cut verdict (next_rec_id c) w (journal c) /\
    (working_order c', (snap c', snapshot_taken c'), free_node_slots c', config c', (tree_built c', grain_tree c')) =
    (working_order c, (snap c, snapshot_taken c), free_node_slots c, config c, (tree_built c, grain_tree c)) /\
    cand_tables c' = resize (S (S n)) [] (resize (S n) [] (cand_tables c)).
Proof.
  intros Ha Hf Hs Hb Hcut n. unfold cut_split_record.
  assert (forall v x, aligned x -> aligned (set_next_rec_id v x)) as Hid by (intros v x; by apply aligned_core).
  destruct (register_fresh_ok (next_rec_id c) 2 (set_next_rec_id (u16 (next_rec_id c + 1)) c)) as
    (c1 & -> & Ha1 & Hl1 & Hm1 & Hw1 & Hc1); [by apply Hid|done|cbn; lia|]. cbn [mbind option_bind].
  change (work (set_next_rec_id _ c)) with (work c) in *. fold n in Hl1, Hm1, Hc1 |- *.
  set (v2 := next_rec_id c1).
  destruct (register_fresh_ok v2 1 (set_next_rec_id (u16 (v2 + 1)) c1)) as
    (c2 & -> & Ha2 & Hl2 & Hm2 & Hw2 & Hc2); [by apply Hid|by rewrite Hc1|change (work (set_next_rec_id _ c1)) with (work c1); rewrite Hl1; lia|].
  cbn [mbind option_bind].
  change (work (set_next_rec_id _ c1)) with (work c1) in *. rewrite Hl1 in *.
  assert (journal c2 = journal c) as Hj by (rewrite Hc2, Hc1; done).
  rewrite Hj, Hb. cbn [mbind option_bind].
  match goal with |- context [foldM (rewire n (S n)) cut_ids (0, ?x)] => set (c3 := x) end.
  assert (aligned c3) as Ha3 by (by apply (aligned_core c2)).
  destruct (foldM_total (rewire n (S n)) (fun x => rewired c3 x.2) cut_ids (0, c3)) as ([w c4] & -> & Hr).
  { intros [ws x] e He Hx. cbn [snd] in Hx. pose proof Hx as (Hxa & _ & Hxl & _ & _ & Hxg).
    assert (length (add_set (work c3)) = S (S n)) as Hl3 by done.
    destruct (rewire_ok n (S n) ws x e Hxa) as (ws' & x' & E & Hx'); [lia|lia| |].
    - rewrite Forall_forall in Hcut. specialize (Hcut e He).
      change (weight_table (work c3)) with (weight_table (work c2)) in Hxg. rewrite Hw2, Hw1 in Hxg. lia.
    - eexists. split; [done|]. by eapply rewired_trans. }
  { by apply rewired_refl. }
  cbn [mbind option_bind]. cbn [snd] in Hr. destruct Hr as (Ha4 & Hk & Hl4 & Hm4 & Ho4 & Hg4).
  eexists _, w. split; [done|].
  assert (length (add_set (work c3)) = S (S n)) as Hl3 by done.
  split; [by apply (aligned_core c4)|]. cbn [work mark_table ownership set_journal].
  split; [lia|]. split; [rewrite Hm4; change (mark_table c3) with (mark_table c2); lia|].
  change (weight_table (work c3)) with (weight_table (work c2)) in Hg4. rewrite Hw2, Hw1 in Hg4.
  split; [done|]. unfold kept, outside in Hk.
  injection Hk as Hko Hkj Hks Hkst Hkf Hkc Hkd _ _ Hkt Hkg.
  split; [rewrite Ho4; unfold c3; cbn; rewrite Hc2, Hc1; done|].
  split; [cbn; rewrite Hkj; done|].
  split; [cbn; rewrite Hko, Hks, Hkst, Hkf, Hkc, Hkt, Hkg; unfold c3; cbn; rewrite Hc2; cbn; rewrite Hc1; done|].
  cbn. rewrite Hkd. unfold c3. cbn. rewrite Hc2. cbn. rewrite Hc1. done.
Qed.

(** * The journal *)

Definition positions (r : StCutRec) : list nat := seq (range_start r) (span_len r).

(** Over [n] positions and [nodes] nodes: the ranges cut the positions up
    into disjoint pieces, links lead to records and ends are nodes. *)
Record journal_ok (n nodes : nat) (j : list StCutRec) : Prop := {
  jo_link i r : j !! i = Some r -> link_fwd r <> 0%nat -> (link_fwd r < length j)%nat;
  jo_ends i r : j !! i = Some r -> (add_entry r < nodes)%nat /\ (sub_entry r < nodes)%nat;
  jo_bound i r : j !! i = Some r -> (range_start r + span_len r <= n)%nat;
  jo_tiles : concat (positions <$> j) ≡ₚ seq 0 n
}.

Lemma alter_lookup_inv {A} (f : A -> A) i (l : list A) k y :
  alter f i l !! k = Some y -> exists x, l !! k = Some x /\ (y = x \/ y = f x).
Proof.
  destruct (decide (k = i)) as [->|Hk].
  - rewrite list_lookup_alter_eq. intros (x & -> & ->)%fmap_Some. exists x. auto.
  - rewrite list_lookup_alter_ne by done. intros ->. exists y. auto.
Qed.

Lemma positions_alter f i (j : list StCutRec) :
  (forall r, positions (f r) = positions r) -> positions <$> alter f i j = positions <$> j.
Proof.
  intros Hf. apply list_eq. intros k. rewrite !list_lookup_fmap. destruct (decide (k = i)) as [->|Hk].
  - rewrite list_lookup_alter_eq. destruct (j !! i); cbn; [by rewrite Hf|done].
  - by rewrite list_lookup_alter_ne.
Qed.

Lemma positions_insert i (j : list StCutRec) r r' rest :
  j !! i = Some r -> positions r ≡ₚ positions r' ++ rest ->
  concat (positions <$> <[i := r']> j) ++ rest ≡ₚ concat (positions <$> j).
Proof.
  intros Hi Hp. assert (i < length j)%nat as Hlt by (by eapply lookup_lt_Some).
  rewrite insert_take_drop by done. rewrite <-(take_drop_middle j i r) at 3 by done.
  rewrite !fmap_app, !concat_app. cbn [fmap list_fmap concat]. rewrite Hp. solve_Permutation.
Qed.

Lemma split_journal_ok n nodes best parent a b cut verdict id w j nodes' :
  journal_ok n nodes j -> j !! best = Some parent -> (nodes <= nodes')%nat -> (a < nodes')%nat -> (b < nodes')%nat ->
  journal_ok n nodes' (split_journal best parent a b cut verdict id w j).
Proof.
  intros [Hl He Hb Ht] Hp Hn Ha Hb'. unfold split_journal. set (k := length j).
  set (m := Nat.min cut (span_len parent)). set (p' := put_span_len (span_len parent - m) parent).
  set (ch := mkRec _ _ _ _ _ _ _ _ _ _). set (j0 := <[best := put_link_fwd k p']> (j ++ [ch])).
  assert (best < length j)%nat as Hlt by (by eapply lookup_lt_Some).
  assert (length j0 = S k) as Hlen by (unfold j0; rewrite length_insert, length_app; cbn; lia).
  assert (forall i r, j0 !! i = Some r -> (j !! i = Some r) \/ r = put_link_fwd k p' \/ r = ch) as Hj0.
  { intros i r. unfold j0. destruct (decide (i = best)) as [->|].
    - rewrite list_lookup_insert_eq by (rewrite length_app; lia). intros [= <-]. auto.
    - rewrite list_lookup_insert_ne by done. intros [?|[_ Hi]]%lookup_app_Some; [auto|].
      apply list_lookup_singleton_Some in Hi as [_ <-]. auto. }
  assert (forall i r, alter (put_counter w) k (alter (put_link_back k) (link_fwd parent) j0) !! i = Some r ->
    exists r0, j0 !! i = Some r0 /\ link_fwd r = link_fwd r0 /\ add_entry r = add_entry r0 /\ sub_entry r = sub_entry r0 /\
      range_start r = range_start r0 /\ span_len r = span_len r0) as Hal.
  { intros i r (r1 & (r0 & Hr0 & Hr1)%alter_lookup_inv & Hr)%alter_lookup_inv. exists r0. split; [done|].
    destruct Hr1 as [-> | ->], Hr as [-> | ->]; done. }
  destruct (He best parent Hp) as [He1 He2]. pose proof (Hb best parent Hp) as Hbp.
  split.
  - intros i r Hi Hne. rewrite !length_alter, Hlen. destruct (Hal i r Hi) as (r0 & Hi0 & Hf & _). rewrite Hf in *.
    destruct (Hj0 i r0 Hi0) as [Hi'|[-> | ->]].
    + specialize (Hl i r0 Hi' Hne). lia.
    + cbn. lia.
    + cbn in *. specialize (Hl best parent Hp Hne). lia.
  - intros i r Hi. destruct (Hal i r Hi) as (r0 & Hi0 & _ & -> & -> & _).
    destruct (Hj0 i r0 Hi0) as [Hi'|[-> | ->]]; [|cbn; lia..]. destruct (He i r0 Hi'). lia.
  - intros i r Hi. destruct (Hal i r Hi) as (r0 & Hi0 & _ & _ & _ & -> & ->).
    destruct (Hj0 i r0 Hi0) as [Hi'|[-> | ->]]; [by eapply Hb|cbn in *; lia..].
  - rewrite !positions_alter by done. rewrite <-Ht.
    assert (positions parent ≡ₚ positions (put_link_fwd k p') ++ positions ch) as Hpp.
    { unfold positions. cbn. assert (span_len parent = (span_len parent - m) + m)%nat as E by lia.
      rewrite E at 1. by rewrite seq_app. }
    rewrite <-(positions_insert best j parent (put_link_fwd k p') (positions ch)) by done.
    unfold j0. rewrite insert_app_l by done. rewrite fmap_app, concat_app. cbn. by rewrite app_nil_r.
Qed.

Lemma init_journal_ok n nodes arg2 arg3 id2 :
  (arg2 < nodes)%nat -> (arg3 < nodes)%nat ->
  journal_ok n nodes [mkRec 0 0 0 0 0 0 0 0 0 0; mkRec 2 0 0 arg2 n 0 0 0 0 id2; mkRec 0 0 arg3 0 0 0 0 0 (Z.of_nat n) 0].
Proof.
  intros H2 H3. split.
  - intros [|[|[|i]]] r Hi; cbn in Hi; simplify_eq; cbn; lia.
  - intros [|[|[|i]]] r Hi; cbn in Hi; simplify_eq; cbn; lia.
  - intros [|[|[|i]]] r Hi; cbn in Hi; simplify_eq; cbn; lia.
  - cbn. by rewrite app_nil_r.
Qed.

(** A range that is not empty shares no position with another one. *)
Lemma positions_disjoint n nodes j i k r r' x :
  journal_ok n nodes j -> j !! i = Some r -> j !! k = Some r' -> i <> k ->
  x ∈ positions r -> x ∉ positions r'.
Proof.
  intros Hj Hi Hk Hik Hx Hx'. assert (NoDup (concat (positions <$> j))) as Hnd.
  { rewrite (jo_tiles _ _ _ Hj). apply NoDup_seq. }
  revert i k Hi Hk Hik. clear Hj. induction j as [|y j IH]; intros i k Hi Hk Hik; [done|].
  cbn in Hnd. apply NoDup_app in Hnd as (_ & Hd & Hnd).
  assert (forall m z, j !! m = Some z -> x ∈ positions z -> x ∈ concat (positions <$> j)) as Hin.
  { intros m z Hm Hz. apply elem_of_concat. exists (positions z). split; [|done].
    apply list_elem_of_fmap. exists z. split; [done|]. by eapply list_elem_of_lookup_2. }
  destruct i as [|i], k as [|k]; cbn in Hi, Hk; simplify_eq.
  - by eapply Hd, Hin.
  - by eapply (Hd x), Hin.
  - eapply (IH Hnd i k); [done|done|lia].
Qed.

(** The record that scores best exists and is live. *)
Lemma score_of_ok aux thr r :
  (range_start r + span_len r <= length aux)%nat -> exists s, score_of aux thr r = Some s.
Proof.
  intros Hl. unfold score_of. edestruct (foldM_total (fun score k => a ← aux !! k;
    Some (u64 (score + u64 (a + (if thr <? sv a then u64 (3 * a) else 0))))) (fun _ => True)
    (seq (range_start r) (span_len r)) 0) as (s & -> & _); [|done|by eauto].
  intros score k Hk%elem_of_seq _. destruct (lookup_lt_is_Some_2 aux k) as [a ->]; [lia|]. cbn. by eauto.
Qed.

Lemma best_record_ok aux thr n nodes j :
  journal_ok n nodes j -> (n <= length aux)%nat ->
  exists b, best_record aux thr j = Some b /\
    forall i, b = Some i -> exists r, j !! i = Some r /\ link_fwd r <> 0%nat.
Proof.
  intros Hj Hn. unfold best_record.
  destruct (foldM_total (best_step aux thr) (fun acc => forall i s, acc = Some (i, s) -> exists r, j !! i = Some r /\ link_fwd r <> 0%nat)
    (imap pair j) None) as (acc & -> & Hacc); [| by intros ? ? [=]|].
  - intros acc [i r] Hir Hacc. apply elem_of_lookup_imap in Hir as (i' & r' & [= -> ->] & Hi).
    unfold best_step. destruct (Nat.eqb_spec (link_fwd r') 0) as [|Hl]; [by exists acc|].
    destruct (score_of_ok aux thr r') as [s ->]; [pose proof (jo_bound _ _ _ Hj i' r' Hi); lia|]. cbn [mbind option_bind].
    eexists. split; [done|]. intros k s' E. destruct acc as [[b bs]|]; [|simplify_eq; by exists r'].
    case_match; simplify_eq; [by exists r'|by eapply Hacc].
  - cbn [mbind option_bind]. eexists. split; [done|]. intros i Hi. destruct acc as [[k s]|]; simplify_eq. by eapply Hacc.
Qed.

(** * The main loop *)

Section develop.
Context (N0 M W0 : nat) (order0 : list nat) (c0 : StCutContext) (g0 : nat -> Z).
Context (Horder : forall n, n ∈ order0 -> (n < N0)%nat).
Context (Hpos : (0 < N0)%nat) (HM : Z.of_nat M + 4 < 2 ^ 16).
Context (Hjit : jitter_ok c0) (Hgate : restart_gate (config c0) < 2).

(** What holds of the context between the operations of the loop. *)
Record ctx_ok (c : StCutContext) : Prop := {
cx_aligned : aligned c;
cx_free : free_node_slots c = [];
cx_order : working_order c ≡ₚ order0;
cx_owner : length (ownership c) = N0;
cx_cands i tbl n : cand_tables c !! i = Some tbl -> n ∈ tbl -> (n < N0)%nat;
cx_marks : (length (mark_table c) <= M)%nat;
cx_nodes : (N0 <= length (add_set (work c)))%nat;
cx_weights : (W0 <= length (weight_table (work c)))%nat;
cx_frame : (snap c, snapshot_taken c, config c) = (snap c0, snapshot_taken c0, config c0);
cx_built : tree_built c = true;
cx_grain id : grain c id = g0 id
}.

(** The parts of the context that [ctx_ok] reads. *)
Definition view (c : StCutContext) :=
(core c, free_node_slots c, working_order c, ownership c, cand_tables c,
 (snap c, snapshot_taken c, config c), (tree_built c, grain_tree c)).

Lemma ctx_ok_view c c' : view c' = view c -> ctx_ok c -> ctx_ok c'.
Proof.
intros E [Ha ? ? ? Hc ? ? ? Hf ? Hg]. unfold view in E.
injection E as Ew1 Ew2 Ew3 Ew4 Ew5 Ew6 Ef Eo Eow Ec Es Est Ecf Eb Eg.
assert (aligned c') as Ha' by (apply (aligned_core c); [unfold core; congruence|done]).
split; rewrite ?Eo, ?Ec, ?Ew5, ?Ew1; try done; try congruence.
intros id. unfold grain in *. by rewrite Eg.
Qed.

Lemma ctx_ok_marks c c' : only_marks c c' -> ctx_ok c -> ctx_ok c'.
Proof.
intros Hof [Ha ? ? ? ? ? ? ? ? ? ?]. pose proof (only_marks_aligned _ _ Hof Ha).
destruct Hof as (m & r & Hm & ->). split; cbn; try done. by rewrite Hm.
Qed.

Lemma ctx_ok_owner c owner : length owner = N0 -> ctx_ok c -> ctx_ok (set_ownership owner c).
Proof.
intros Hl [Ha ? ? ? ? ? ? ? ? ? ?]. split; cbn; try done. by apply (aligned_core c).
Qed.

Lemma ctx_ok_order c order : order ≡ₚ order0 -> ctx_ok c -> ctx_ok (set_working_order order c).
Proof.
intros Hl [Ha ? ? ? ? ? ? ? ? ? ?]. split; cbn; try done. by apply (aligned_core c).
Qed.

Lemma ctx_ok_grains c tree :
(forall id, default 0 (tree !! id) = grain c id) -> ctx_ok c ->
ctx_ok (set_grain_tree tree (set_tree_built true c)).
Proof.
intros Ht [Ha ? ? ? ? ? ? ? ? ? Hg]. split; cbn; try done; [by apply (aligned_core c)|].
intros id. rewrite <-Hg, <-Ht. done.
Qed.

Lemma ctx_order_node c n : ctx_ok c -> n ∈ working_order c -> (n < length (add_set (work c)))%nat.
Proof. intros Hc Hn. rewrite (cx_order c Hc) in Hn. apply Horder in Hn. pose proof (cx_nodes c Hc). lia. Qed.

Lemma order_ids_owned c start len n :
ctx_ok c -> n ∈ take len (drop start (working_order c)) -> (n < length (ownership c))%nat.
Proof.
intros Hc (i & Hi & _)%elem_of_take. rewrite lookup_drop in Hi. rewrite (cx_owner c Hc). apply Horder.
rewrite <-(cx_order c Hc). by eapply list_elem_of_lookup_2.
Qed.

Lemma prefix_end_ok fuel aux last : forall p,
(p < length aux)%nat -> (last <= length aux)%nat -> exists p', prefix_end fuel aux last p = Some p' /\ (p' < length aux)%nat.
Proof.
induction fuel as [|fuel IH]; intros p Hp Hl; cbn [prefix_end]; [by exists p|].
destruct (Nat.ltb_spec (S p) last); [|by exists p].
destruct (lookup_lt_is_Some_2 aux p) as [a ->]; [lia|]. destruct (lookup_lt_is_Some_2 aux (S p)) as [b ->]; [lia|].
cbn [mbind option_bind]. case_match; [apply IH; lia|by exists p].
Qed.

Lemma deep_copy_ok r aux id c :
ctx_ok c -> (range_start r + span_len r <= length order0)%nat -> (length order0 < length aux)%nat ->
exists owner, deep_copy r aux id c = Some (set_ownership owner c) /\ length owner = N0.
Proof.
intros Hc Hb Hl. unfold deep_copy. pose proof (cx_owner c Hc) as Ho.
destruct (negb (deep_copy_gate (config c))); [exists (ownership c); split; [by destruct c|done]|].
destruct (prefix_end_ok (span_len r) aux (range_start r + span_len r) (range_start r)) as (p & -> & Hp); [lia|lia|].
cbn [mbind option_bind]. destruct (lookup_lt_is_Some_2 aux p Hp) as [a ->]. cbn [mbind option_bind].
case_match; [|exists (ownership c); split; [by destruct c|done]].
assert (length (working_order c) = length order0) as Hlo by (by rewrite (cx_order c Hc)).
rewrite range_ids_ok by lia. cbn [mbind option_bind].
match goal with |- context [own_all id ?ids _] => destruct (own_all_ok id ids (ownership c)) as (o & -> & Hlen) end.
{ intros n Hn. by eapply order_ids_owned. }
exists o. split; [done|lia].
Qed.

(** The state of the loop before the step with this cursor. *)
Record dev_ok (cursor : nat) (d : Dev) : Prop := {
dv_ctx : ctx_ok (d_ctx d);
dv_journal : journal_ok (length order0) (length (add_set (work (d_ctx d)))) (journal (d_ctx d));
dv_grown : length (add_set (work (d_ctx d))) = (N0 + 2 * cursor)%nat;
dv_aux : (length order0 < length (d_aux d))%nat;
dv_out : length (d_out d) = cursor
}.

Lemma choose_cut_ok cursor best r d :
dev_ok cursor d -> journal (d_ctx d) !! best = Some r ->
exists bef aft d', choose_cut best cursor d = Some (best, bef, aft, d') /\ dev_ok cursor d' /\
  journal (d_ctx d') = journal (d_ctx d) /\
  Forall (fun n => n < length (add_set (work (d_ctx d'))))%nat (bef ++ aft).
Proof.
intros [Hc Hj Hg Ha Ho] Hr. unfold choose_cut. rewrite Ho, Nat.eqb_refl. cbn [negb].
destruct (cut_propose_ok best r (d_excl d) (d_ctx d)) as (p & bef & aft & ex & c' & -> & Hof & Hba).
- by apply cx_aligned.
- unfold jitter_ok. pose proof (cx_frame _ Hc) as [= _ _ ->]. exact Hjit.
- intros i tbl n Hi Hn. pose proof (cx_cands _ Hc i tbl n Hi Hn). pose proof (cx_nodes _ Hc). lia.
- done.
- by eapply jo_ends.
- intros i x Hx. by eapply jo_ends.
- intros n. by apply ctx_order_node.
- cbn [mbind option_bind]. eexists _, _, _. split; [done|].
  pose proof (ctx_ok_marks _ _ Hof Hc). destruct Hof as (m & s & Hm & ->). by split.
Qed.

(** The part of a step up to the verdict. *)
Lemma cut_execute_ctx c add_entry seed cursor id bef aft :
ctx_ok c ->
Forall (fun n => n < length (add_set (work c)))%nat ([add_entry; seed; cursor] ++ bef ++ aft) ->
exists est out ex c', cut_execute add_entry seed cursor id bef aft c = Some (est, out, ex, c') /\ ctx_ok c' /\
  length (add_set (work c')) = length (add_set (work c)) /\ journal c' = journal c /\
  (forall n, n ∈ out -> (n < N0)%nat) /\
  Forall (fun s => s < length (weight_table (work c')))%nat ex.
Proof.
intros Hc Hn. destruct (cut_execute_ok c add_entry seed cursor id bef aft (cx_aligned c Hc) Hn) as
  (est & out & ex & c' & E & Ha & Hext & _ & _ & _ & Hlo & Hown & Hex & Hk & Hm).
exists est, out, ex, c'. split; [done|]. unfold kept, outside in Hk.
injection Hk as Ko Kj Ks Kst Kf Kc Kd _ _ Kt Kg. destruct Hc as [_ Cf Co Cw Cc Cm Cn Cg Cfr Cb Cgr].
split; [|split; [by rewrite (ext_add _ _ Hext)|split; [done|split; [|done]]]].
- pose proof (prefix_length _ _ (ext_weights _ _ Hext)).
  split; rewrite ?Ko, ?Kd, ?(ext_add _ _ Hext); try done; try congruence; try lia.
  intros i. unfold grain in *. by rewrite Kg.
- intros n Hin. rewrite <-Cw, <-Hlo. specialize (Hown n). rewrite decide_True in Hown by done. by eapply lookup_lt_Some.
Qed.

Lemma maybe_restart_off c : restart_gate (config c) < 2 -> maybe_restart c = Some c.
Proof. intros Hg. unfold maybe_restart. by destruct (Z.ltb_spec (restart_gate (config c)) 2); [|lia]. Qed.

Lemma cands_resize (n : nat) (v : list (list nat)) :
(forall i tbl x, v !! i = Some tbl -> x ∈ tbl -> (x < N0)%nat) ->
forall i tbl x, resize n [] v !! i = Some tbl -> x ∈ tbl -> (x < N0)%nat.
Proof.
intros Hv i tbl x Hi Hx. destruct (decide (i < length v)%nat) as [Hl|Hl].
- destruct (decide (i < n)%nat) as [Hn|Hn].
  + rewrite lookup_resize in Hi by done. by eapply Hv.
  + apply lookup_lt_Some in Hi. rewrite length_resize in Hi. lia.
- destruct (decide (i < n)%nat) as [Hn|Hn].
  + rewrite lookup_resize_new in Hi by lia. simplify_eq. by apply not_elem_of_nil in Hx.
  + apply lookup_lt_Some in Hi. rewrite length_resize in Hi. lia.
Qed.

Lemma cut_split_ctx best parent cut_ids cut verdict c cursor :
ctx_ok c -> journal_ok (length order0) (length (add_set (work c))) (journal c) ->
length (add_set (work c)) = (N0 + 2 * cursor)%nat -> (N0 + 2 * S cursor <= M)%nat ->
journal c !! best = Some parent ->
Forall (fun s => s < length (weight_table (work c)))%nat cut_ids ->
exists c', cut_split_record best cut_ids cut verdict c = Some c' /\ ctx_ok c' /\
  journal_ok (length order0) (length (add_set (work c'))) (journal c') /\
  length (add_set (work c')) = (N0 + 2 * S cursor)%nat.
Proof.
intros Hc Hj Hg HMc Hp Hcut. destruct (cut_split_ok best parent cut_ids cut verdict c) as
  (c' & w & E & Ha & Hl & Hm & Hw & Ho & Hjr & Hfr & Hcd); try done; [apply Hc|apply Hc|lia|].
exists c'. split; [done|]. injection Hfr as Ko Ks Kst Kf Kc Kt Kg.
destruct Hc as [_ Cf Co Cw Cc Cm Cn Cg Cfr Cb Cgr]. split; [|split; [|lia]].
- split; rewrite ?Ko; try done; try congruence; try lia.
  + rewrite Hcd. do 2 apply cands_resize. exact Cc.
  + intros id. unfold grain in *. by rewrite Kg.
- rewrite Hjr, Hl. eapply split_journal_ok; [done|done|lia..].
Qed.

Lemma develop_step_ok thr cursor best r d :
dev_ok cursor d -> (N0 + 2 * S cursor <= M)%nat ->
journal (d_ctx d) !! best = Some r -> link_fwd r <> 0%nat ->
exists d', develop_step thr cursor best d = Some d' /\ dev_ok (S cursor) d'.
Proof.
intros Hd HMc Hr Hlive. unfold develop_step.
destruct (choose_cut_ok cursor best r d Hd Hr) as (bef & aft & d1 & -> & Hd1 & Hj1 & Hba).
destruct Hd1 as [Hc1 Hjo1 Hg1 Haux1 Hout1]. cbn [mbind option_bind]. rewrite Hj1, Hr. cbn [mbind option_bind].
rewrite <-Hj1 in Hr. set (id := u16 (next_rec_id (d_ctx d1) + 1)). set (c1 := set_next_rec_id id (d_ctx d1)).
assert (ctx_ok c1) as Hc1' by (by apply (ctx_ok_view (d_ctx d1))).
destruct (lookup_lt_is_Some_2 (journal (d_ctx d1)) (link_fwd r)) as [f Hf]; [by eapply jo_link|].
change (journal c1) with (journal (d_ctx d1)). rewrite Hf. cbn [mbind option_bind].
destruct (jo_ends _ _ _ Hjo1 best r Hr) as [Hra _]. destruct (jo_ends _ _ _ Hjo1 _ f Hf) as [_ Hfs].
destruct (cut_execute_ctx c1 (add_entry r) (sub_entry f) cursor id bef aft) as
  (est & out & ex & c2 & -> & Hc2 & Hl2 & Hj2 & Hout & Hex); [done| |].
{ change (work c1) with (work (d_ctx d1)). apply Forall_app. split; [|done]. repeat constructor; try done. lia. }
cbn [mbind option_bind]. change (journal c1) with (journal (d_ctx d1)) in Hj2.
change (work c1) with (work (d_ctx d1)) in Hl2.
pose proof (jo_bound _ _ _ Hjo1 best r Hr) as Hbd.
assert (exists c3 order, (if (length out =? span_len r)%nat then Some c2 else cut_fix_range best id c2) = Some c3 /\
  c3 = set_working_order order c2 /\ ctx_ok c3) as (c3 & order & -> & -> & Hc3).
{ case_match; [exists c2, (working_order c2); split_and!; try done; by destruct c2|].
  destruct (cut_fix_range_ok best r id c2) as (order & E & Hp & _); [by rewrite Hj2|rewrite (cx_order _ Hc2); done|].
  exists (set_working_order order c2), order. split_and!; try done. apply ctx_ok_order; [|done].
  by rewrite Hp, (cx_order _ Hc2). }
cbn [mbind option_bind]. set (c3 := set_working_order order c2) in *.
destruct (own_all_ok id out (ownership c3)) as (owner & -> & Hlo).
{ intros n Hn. rewrite (cx_owner _ Hc3). by apply Hout. }
cbn [mbind option_bind]. rewrite (cx_owner _ Hc3) in Hlo.
pose proof (ctx_ok_owner c3 owner Hlo Hc3) as Hc4. set (c4 := set_ownership owner c3) in *.
destruct (aux_fill_ok (range_start r) (span_len r) (d_aux d1) c4) as (aux & tree & -> & Hal & _ & Htr);
  [apply Hc4|rewrite (cx_order _ Hc4); done|lia|]. cbn [mbind option_bind].
specialize (Htr (cx_built _ Hc4)).
pose proof (ctx_ok_grains c4 tree Htr Hc4) as Hc5. set (c5 := set_grain_tree tree (set_tree_built true c4)) in *.
destruct (deep_copy_ok r aux id c5 Hc5 Hbd) as (owner' & -> & Hlo'); [lia|]. cbn [mbind option_bind].
pose proof (ctx_ok_owner c5 owner' Hlo' Hc5) as Hc6. set (c6 := set_ownership owner' c5) in *.
assert (journal c6 = journal (d_ctx d1)) as Hj6 by done.
assert (work c6 = work c2) as Hw6 by done.
destruct (cut_verdict_ok best r ex c6) as (v & c7 & -> & Hof7);
  [apply Hc6|by rewrite Hj6|by rewrite Hw6, Hl2| |].
{ intros s Hs. rewrite Hw6. apply lookup_lt_is_Some_2. rewrite Forall_forall in Hex. by apply Hex. }
cbn [mbind option_bind]. pose proof (ctx_ok_marks _ _ Hof7 Hc6) as Hc7.
assert (journal c7 = journal (d_ctx d1)) as Hj7 by (destruct Hof7 as (? & ? & _ & ->); done).
assert (work c7 = work c2) as Hw7 by (destruct Hof7 as (? & ? & _ & ->); done).
destruct (cut_split_ctx best r ex (length out) (if v then 1 else 0) c7 cursor) as (c8 & -> & Hc8 & Hj8 & Hg8); try done.
{ rewrite Hj7, Hw7, Hl2. exact Hjo1. }
{ by rewrite Hw7, Hl2. }
{ by rewrite Hj7. }
{ by rewrite Hw7. }
cbn [mbind option_bind]. rewrite maybe_restart_off by (pose proof (cx_frame _ Hc8) as [= _ _ ->]; done).
cbn [mbind option_bind]. eexists. split; [done|]. split; cbn [d_ctx d_aux d_out]; try done; [lia|].
rewrite Hout1, Nat.eqb_refl, length_app. cbn. lia.
Qed.

Lemma develop_loop_ok thr budget iters : forall cursor d,
dev_ok cursor d -> (N0 + 2 * (cursor + iters) <= M)%nat ->
exists d' cursor', develop_loop thr budget iters cursor d = Some d' /\ dev_ok cursor' d' /\ (cursor' <= cursor + iters)%nat.
Proof.
induction iters as [|iters IH]; intros cursor d Hd Hm; cbn [develop_loop].
{ exists d, cursor. case_match; (split; [done|]; split; [done|lia]). }
case_match; [exists d, cursor; split; [done|]; split; [done|lia]|].
destruct (best_record_ok (d_aux d) thr _ _ _ (dv_journal _ _ Hd)) as (b & -> & Hb); [pose proof (dv_aux _ _ Hd); lia|].
cbn [mbind option_bind]. destruct b as [best|]; [|exists d, cursor; split; [done|]; split; [done|lia]].
destruct (Hb best eq_refl) as (r & Hr & Hlive).
destruct (develop_step_ok thr cursor best r d Hd) as (d' & -> & Hd'); [lia|done|done|]. cbn [mbind option_bind].
destruct (IH (S cursor) d' Hd') as (d2 & k & E & Hd2 & Hk); [lia|]. exists d2, k. split; [done|]. split; [done|lia].
Qed.
End develop.

(** * The order that is written out *)

Section emission.
Context (t : Tables).
Context (Hslots : forall u s, listed (add_set t) u s -> is_Some (weight_table t !! s)).

(** [u] has a slot with bit 4 that leads to [v]. *)
Definition waits (u v : nat) : Prop :=
exists s sl, listed (add_set t) u s /\ weight_table t !! s = Some sl /\ bit4 sl = true /\ canon sl = v.

Lemma item_blocked_ok live u l :
(forall s, s ∈ l -> listed (add_set t) u s) ->
exists b, item_blocked t live l = Some b /\
  (b = true <-> exists s sl, s ∈ l /\ weight_table t !! s = Some sl /\ bit4 sl = true /\ canon sl ∈ live).
Proof.
induction l as [|s l IH]; intros Hl; cbn [item_blocked].
{ exists false. split; [done|]. split; [done|]. intros (s & sl & Hs & _). by apply not_elem_of_nil in Hs. }
destruct (Hslots u s) as [sl Hsl]; [apply Hl; by left|]. rewrite Hsl. cbn [mbind option_bind].
destruct IH as (b & Hb & Hbt); [intros; apply Hl; by right|].
destruct (bit4 sl && bool_decide (canon sl ∈ live)) eqn:E.
- exists true. split; [done|]. split; [|done]. intros _. bool_prop. exists s, sl. split_and!; try done; [by left].
- exists b. split; [done|]. rewrite Hbt. split.
  + intros (x & xl & ? & ? & ? & ?). exists x, xl. split_and!; try done. by right.
  + intros (x & xl & [->|Hx]%elem_of_cons & Hxl & H4 & Hin); [|by exists x, xl].
    simplify_eq. rewrite H4 in E. cbn in E. by apply bool_decide_eq_false in E.
Qed.

Lemma blocked_ok live u :
(u < length (add_set t))%nat ->
exists l b, add_set t !! u = Some l /\ item_blocked t live l = Some b /\
  (b = true <-> exists v, waits u v /\ v ∈ live).
Proof.
intros Hu. destruct (lookup_lt_is_Some_2 _ _ Hu) as [l Hl]. exists l.
destruct (item_blocked_ok live u l) as (b & Hb & Hbt); [intros s Hs; by exists l|].
exists b. split; [done|]. split; [done|]. rewrite Hbt. split.
- intros (s & sl & ? & ? & ? & ?). exists (canon sl). split; [|done]. exists s, sl. split; [by exists l|done].
- intros (v & (s & sl & (l' & ? & ?) & ? & ? & <-) & ?). simplify_eq. by exists s, sl.
Qed.

Context (ids : list nat) (Hnd : NoDup ids) (Hids : forall u, u ∈ ids -> (u < length (add_set t))%nat).

(** Each node stands after those of the range that it waits for. *)
Definition ordered (done : list nat) : Prop :=
forall i u, done !! i = Some u -> forall v, waits u v -> v ∈ ids -> v ∈ take i done.

Record emit_inv (live : gset nat) (done : list nat) : Prop := {
em_live x : x ∈ live <-> x ∈ ids /\ x ∉ done;
em_nodup : NoDup done;
em_in x : x ∈ done -> x ∈ ids;
em_ordered : ordered done
}.

Lemma ordered_snoc done u :
ordered done -> (forall v, waits u v -> v ∈ ids -> v ∈ done) -> ordered (done ++ [u]).
Proof.
intros Ho Hu i x Hi v Hv Hin. apply lookup_app_Some in Hi as [Hi|[Hge Hi]].
- rewrite take_app_le by (apply lookup_lt_Some in Hi; lia). by eapply Ho.
- apply list_lookup_singleton_Some in Hi as [Hz <-]. rewrite take_app_ge by done.
  apply elem_of_app. left. by apply Hu.
Qed.

(** One item: it is written unless it waits for a live one. *)
Lemma emit_item_ok live done u :
emit_inv live done -> u ∈ ids ->
exists live' done', emit_item t (live, done) u = Some (live', done') /\ emit_inv live' done' /\
  ((live' = live /\ done' = done /\ (u ∈ live -> exists v, waits u v /\ v ∈ live)) \/
   (done' = done ++ [u])).
Proof.
intros [Hl Hn Hi Ho] Hu. unfold emit_item. destruct (bool_decide (u ∈ live)) eqn:E; cbn [negb].
2:{ apply bool_decide_eq_false in E. exists live, done. split; [done|]. split; [done|]. left. done. }
apply bool_decide_eq_true in E. destruct (blocked_ok live u (Hids u Hu)) as (l & b & -> & Eb & Hb).
cbn [mbind option_bind]. rewrite Eb. cbn [mbind option_bind]. destruct b.
{ exists live, done. split; [done|]. split; [done|]. left. split; [done|]. split; [done|]. intros _. by apply Hb. }
exists (live ∖ {[u]}), (done ++ [u]). split; [done|]. split; [|by right].
apply Hl in E as [_ Hud]. split.
- intros x. rewrite elem_of_difference, elem_of_singleton, not_elem_of_app, list_elem_of_singleton, Hl. tauto.
- apply NoDup_app. split_and!; [done| |apply NoDup_singleton]. by intros x Hx ->%list_elem_of_singleton.
- intros x [?| ->%list_elem_of_singleton]%elem_of_app; [by apply Hi|done].
- apply ordered_snoc; [done|]. intros v Hv Hvi. destruct (decide (v ∈ done)) as [|Hvd]; [done|].
  exfalso. assert (false = true) as [=]. apply Hb. exists v. split; [done|]. apply Hl. done.
Qed.

Lemma emit_pass_ok batch : forall live done,
emit_inv live done -> (forall u, u ∈ batch -> u ∈ ids) ->
exists live' done', foldM (emit_item t) batch (live, done) = Some (live', done') /\ emit_inv live' done' /\
  (length done <= length done')%nat /\
  (length done' = length done -> live' = live /\ done' = done /\
     forall u, u ∈ batch -> u ∈ live -> exists v, waits u v /\ v ∈ live).
Proof.
induction batch as [|u batch IH]; intros live done Hinv Hb; cbn [foldM].
{ exists live, done. split_and!; try done. intros _. split_and!; try done. by intros u ?%not_elem_of_nil. }
destruct (emit_item_ok live done u Hinv) as (l1 & d1 & -> & Hinv1 & Hcase); [apply Hb; by left|]. cbn [mbind option_bind].
destruct (IH l1 d1 Hinv1) as (l2 & d2 & -> & Hinv2 & Hlen & Hsame); [intros; apply Hb; by right|].
exists l2, d2. split; [done|]. split; [done|]. destruct Hcase as [(-> & -> & Hu)| ->].
- split; [done|]. intros E. destruct (Hsame E) as (-> & -> & Hall). split; [done|]. split; [done|].
  intros x [->|Hx]%elem_of_cons; [done|by apply Hall].
- rewrite length_app in Hlen. cbn in Hlen. split; [lia|]. lia.
Qed.

Lemma emit_rest_ok batch : forall (live : gset nat) done,
NoDup batch -> exists rest, (foldl emit_rest (live, done) batch).2 = done ++ rest /\ NoDup rest /\
  forall x, x ∈ rest <-> x ∈ batch /\ x ∈ live.
Proof.
induction batch as [|u batch IH]; intros live done Hn; cbn [foldl].
{ exists []. rewrite app_nil_r. split_and!; [done|constructor|]. intros x. rewrite elem_of_nil. tauto. }
apply NoDup_cons in Hn as [Hu Hn]. unfold emit_rest at 2. destruct (decide (u ∈ live)) as [Hl|Hl].
- rewrite bool_decide_true by done. destruct (IH (live ∖ {[u]}) (done ++ [u]) Hn) as (rest & -> & Hr & Hin).
  exists (u :: rest). split; [by rewrite <-app_assoc|]. split; [constructor; [|done]; rewrite Hin; tauto|].
  intros x. rewrite !elem_of_cons, Hin, elem_of_difference, elem_of_singleton.
  destruct (decide (x = u)) as [->|]; tauto.
- rewrite bool_decide_false by done. destruct (IH live done Hn) as (rest & -> & Hr & Hin).
  exists rest. split; [done|]. split; [done|]. intros x. rewrite elem_of_cons, Hin.
  destruct (decide (x = u)) as [->|]; tauto.
Qed.

(** The passes write every node of the range once.  What they write in turn
  is ordered; what is written at the end without regard to the order is
  a set each member of which waits for a member. *)
Definition emitted (out : list nat) : Prop :=
exists d1 d2, out = d1 ++ d2 /\ ordered d1 /\ forall u, u ∈ d2 -> exists v, waits u v /\ v ∈ d2.

Lemma emit_passes_ok fuel batch : forall live done,
emit_inv live done -> batch ≡ₚ ids -> (length ids <= length done + fuel)%nat ->
exists out, emit_passes t fuel batch live done = Some out /\ out ≡ₚ ids /\ emitted out.
Proof.
assert (forall live done, emit_inv live done -> live = ∅ -> done ≡ₚ ids) as Hdone.
{ intros live done [Hl Hn Hi _] ->. apply NoDup_Permutation; [done|done|]. intros x. split; [apply Hi|].
  intros Hx. destruct (decide (x ∈ done)); [done|]. assert (x ∈ (∅ : gset nat)) as Hx0 by (by apply Hl).
  by apply elem_of_empty in Hx0. }
induction fuel as [|fuel IH]; intros live done Hinv Hb Hf; cbn [emit_passes].
{ assert (live = ∅) as ->.
  { apply set_eq. intros x. rewrite elem_of_empty, (em_live _ _ Hinv). split; [|done]. intros [Hx Hxd].
    assert (length (x :: done) <= length ids)%nat as Hle; [|cbn in Hle; lia].
    apply submseteq_length, NoDup_submseteq; [constructor; [done|by apply em_nodup in Hinv]|].
    intros y [->|Hy]%elem_of_cons; [done|by eapply em_in]. }
  rewrite bool_decide_true by done. exists done. split; [done|]. split; [by eapply Hdone|].
  exists done, []. rewrite app_nil_r. split; [done|]. split; [by apply em_ordered in Hinv|].
  by intros u ?%not_elem_of_nil. }
destruct (decide (live = ∅)) as [E|E].
{ rewrite bool_decide_true by done. exists done. split; [done|]. split; [by eapply Hdone|].
  exists done, []. rewrite app_nil_r. split; [done|]. split; [by apply em_ordered in Hinv|].
  by intros u ?%not_elem_of_nil. }
rewrite bool_decide_false by done.
destruct (emit_pass_ok batch live done Hinv) as (l1 & d1 & -> & Hinv1 & Hlen & Hsame); [intros u; by rewrite Hb|].
cbn [mbind option_bind].
destruct (Nat.eqb_spec (length d1) (length done)) as [Heq|Hne]; cbn [andb]; [|apply IH; [done|done|lia]].
destruct (Hsame Heq) as (-> & -> & Hall). rewrite bool_decide_false by done. cbn [negb].
destruct (emit_rest_ok batch live done) as (rest & -> & Hr & Hin); [by rewrite Hb|].
exists (done ++ rest). split; [done|]. split; [|].
- apply NoDup_Permutation; [|done|].
  + apply NoDup_app. split_and!; [by apply em_nodup in Hinv| |done].
    intros x Hx [_ Hxl]%Hin. apply (em_live _ _ Hinv) in Hxl as [_ ?]. done.
  + intros x. rewrite elem_of_app, Hin, Hb. split.
    * intros [?|[? _]]; [by eapply em_in|done].
    * intros Hx. destruct (decide (x ∈ done)); [by left|right]. split; [done|]. by apply (em_live _ _ Hinv).
- exists done, rest. split; [done|]. split; [by apply em_ordered in Hinv|].
  intros u [Hu Hul]%Hin. destruct (Hall u Hu Hul) as (v & Hv & Hvl). exists v. split; [done|].
  apply Hin. split; [|done]. rewrite Hb. by apply (em_live _ _ Hinv) in Hvl as [? _].
Qed.
End emission.

Lemma emitted_perm t ids ids' out : ids ≡ₚ ids' -> emitted t ids out -> emitted t ids' out.
Proof.
  intros Hp (d1 & d2 & -> & Ho & Hd). exists d1, d2. split; [done|]. split; [|done].
  intros i u Hi v Hv Hin. eapply Ho; [done|done|by rewrite Hp].
Qed.

Definition window {A} (start len : nat) (l : list A) : list A := take len (drop start l).

Lemma window_ext {A} start len (l l' : list A) :
  (forall k, (start <= k < start + len)%nat -> l !! k = l' !! k) -> window start len l = window start len l'.
Proof.
  intros H. unfold window. apply list_eq. intros i. destruct (decide (i < len)%nat).
  - rewrite !lookup_take_lt by done. rewrite !lookup_drop. apply H. lia.
  - by rewrite !lookup_take_ge by lia.
Qed.

Lemma window_sublist {A} start len (l : list A) : window start len l `sublist_of` l.
Proof. unfold window. etrans; [apply sublist_take|apply sublist_drop]. Qed.

Lemma length_window {A} start len (l : list A) : (start + len <= length l)%nat -> length (window start len l) = len.
Proof. intros. unfold window. rewrite length_take, length_drop. lia. Qed.

Lemma write_at_window start ids (order : list nat) :
  (start + length ids <= length order)%nat -> window start (length ids) (write_at start ids order) = ids.
Proof.
  intros Hl. unfold window. rewrite write_at_ok by done.
  rewrite drop_app_length' by (rewrite length_take; lia). by rewrite take_app_length.
Qed.

(** One record's range, written out. *)
Lemma emit_record_ok c r :
  aligned c -> NoDup (working_order c) ->
  (forall n, n ∈ working_order c -> n < length (add_set (work c)))%nat ->
  (range_start r + span_len r <= length (working_order c))%nat ->
  exists order, emit_record c r = Some (set_working_order order c) /\ order ≡ₚ working_order c /\
    emitted (work c) (window (range_start r) (span_len r) order) (window (range_start r) (span_len r) order) /\
    forall k, k ∉ positions r -> order !! k = working_order c !! k.
Proof.
  intros Ha Hnd Hn Hl. unfold emit_record. destruct (Nat.eqb_spec (span_len r) 0) as [Hz|Hz].
  { exists (working_order c). split; [by destruct c|]. split; [done|]. split; [|done]. rewrite Hz.
    exists [], []. split; [done|]. split; [by intros i u|by intros u ?%not_elem_of_nil]. }
  rewrite range_ids_ok by done. cbn [mbind option_bind]. fold (window (range_start r) (span_len r) (working_order c)).
  set (ids := window (range_start r) (span_len r) (working_order c)).
  assert (length ids = span_len r) as Hlen by (by apply length_window).
  assert (NoDup ids) as Hndi by (eapply sublist_NoDup; [exact Hnd|apply window_sublist]).
  assert (merge_sort (net_le (net_weight c)) ids ≡ₚ ids) as Hms by apply merge_sort_Permutation.
  destruct (emit_passes_ok (work c)) with (ids := ids) (fuel := length (merge_sort (net_le (net_weight c)) ids))
    (batch := merge_sort (net_le (net_weight c)) ids) (live := list_to_set ids : gset nat) (done := @nil nat)
    as (out & -> & Hout & Hem).
  - intros u s Hu. destruct (gi_add c (al_inv c Ha) u s Hu) as (sl & _ & ? & _). by exists sl.
  - done.
  - intros u Hu. apply Hn. eapply elem_of_sublist; [exact Hu|apply window_sublist].
  - split; [|constructor|by intros x ?%not_elem_of_nil|by intros i u].
    intros x. rewrite elem_of_list_to_set. split; [intros ?; split; [done|by apply not_elem_of_nil]|tauto].
  - done.
  - rewrite Hms. cbn. lia.
  - cbn [mbind option_bind]. eexists. split; [done|].
    assert (length out = span_len r) as Hlo by (by rewrite Hout).
    destruct (write_range_perm (range_start r) (span_len r) out (working_order c) Hl Hout) as [Hp Hk].
    split; [done|]. split.
    + rewrite <-Hlo, write_at_window by (rewrite Hlo; done). by eapply emitted_perm.
    + intros k Hkp. apply Hk. unfold positions in Hkp. rewrite elem_of_seq in Hkp. lia.
Qed.

Lemma net_weight_total c : aligned c -> exists l, compute_net_weight c = Some (set_net_weight l c).
Proof.
  intros Ha. unfold compute_net_weight. assert (exists l, mapM (net_weight_of (work c)) (seq 0 (node_count c)) = Some l) as [l ->];
    [|by exists l].
  apply mapM_is_Some. apply Forall_forall. intros n Hn%elem_of_seq. unfold node_count in Hn.
  rewrite (gi_nodes c (al_inv c Ha)) in Hn. change (is_Some (net_weight_of (work c) n)). unfold net_weight_of.
  destruct (lookup_lt_is_Some_2 (add_set (work c)) n) as [adds Hadd]; [lia|].
  destruct (lookup_lt_is_Some_2 (subtract_set (work c)) n) as [subs Hsub]; [rewrite (gi_lens c (al_inv c Ha)); lia|].
  rewrite Hadd, Hsub. cbn [mbind option_bind]. unfold soft_weights.
  assert (forall f l acc, (forall rel, rel ∈ l -> is_Some (weight_table (work c) !! rel)) ->
    exists w, foldM (fun acc rel => sl ← weight_table (work c) !! rel; Some (if bit4 sl then acc else u64 (f acc (weight sl)))) l acc = Some w) as Htot.
  { intros f l acc Hl. edestruct (foldM_total (fun acc rel => sl ← weight_table (work c) !! rel;
      Some (if bit4 sl then acc else u64 (f acc (weight sl)))) (fun _ => True) l acc) as (w & -> & _); [|done|by eauto].
    intros x rel Hrel _. destruct (Hl rel Hrel) as [sl ->]. cbn. by eauto. }
  destruct (Htot Z.add adds 0) as [w ->].
  { intros rel Hrel. destruct (gi_add c (al_inv c Ha) n rel) as (sl & _ & ? & _); [by exists adds|by exists sl]. }
  cbn [mbind option_bind]. destruct (Htot Z.sub subs w) as [w' ->]; [|by eexists].
  intros rel Hrel. destruct (gi_sub c (al_inv c Ha) n rel) as (sl & ? & _); [by exists subs|by exists sl].
Qed.

(** Every record's range is written out; the ranges do not disturb each
    other. *)
Lemma emit_all_ok n nodes j l : forall pre c,
  j = pre ++ l -> journal_ok n nodes j -> aligned c -> NoDup (working_order c) -> length (working_order c) = n ->
  (forall x, x ∈ working_order c -> x < length (add_set (work c)))%nat ->
  exists order, foldM emit_record l c = Some (set_working_order order c) /\ order ≡ₚ working_order c /\
    (forall r, r ∈ l -> emitted (work c) (window (range_start r) (span_len r) order) (window (range_start r) (span_len r) order)) /\
    (forall r, r ∈ pre -> window (range_start r) (span_len r) order = window (range_start r) (span_len r) (working_order c)).
Proof.
  induction l as [|r l IH]; intros pre c Hpre Hj Ha Hnd Hlen Hn; cbn [foldM].
  { exists (working_order c). split; [by destruct c|]. split; [done|]. split; [by intros r ?%not_elem_of_nil|done]. }
  assert (j !! length pre = Some r) as Hr by (rewrite Hpre; by apply list_lookup_middle).
  destruct (emit_record_ok c r Ha Hnd Hn) as (o1 & -> & Hp1 & Hem1 & Hk1); [rewrite Hlen; by eapply jo_bound|].
  cbn [mbind option_bind].
  destruct (IH (pre ++ [r]) (set_working_order o1 c)) as (o2 & E & Hp2 & Hem2 & Hpre2); cbn [working_order set_working_order work];
    try done.
  - by rewrite Hpre, <-app_assoc.
  - by apply (aligned_core c).
  - by rewrite Hp1.
  - by rewrite Hp1.
  - intros x. rewrite Hp1. apply Hn.
  - exists o2. split; [by rewrite E|]. split; [cbn in Hp2; by rewrite Hp2|]. split.
    + intros r' [->|Hr']%elem_of_cons; [|by apply Hem2].
      rewrite (Hpre2 r); [done|]. apply elem_of_app. right. by left.
    + intros r' Hr'. rewrite (Hpre2 r') by (apply elem_of_app; by left). cbn.
      apply window_ext. intros k Hk. apply Hk1. apply list_elem_of_lookup in Hr' as [i Hi].
      assert (i < length pre)%nat as Hil by (by eapply lookup_lt_Some).
      eapply (positions_disjoint n nodes j i (length pre) r' r k Hj); [|done|lia|].
      * rewrite Hpre. by apply lookup_app_l_Some.
      * unfold positions. apply elem_of_seq. lia.
Qed.

Lemma emit_terminal_ok n nodes c :
  journal_ok n nodes (journal c) -> aligned c -> NoDup (working_order c) -> length (working_order c) = n ->
  (forall x, x ∈ working_order c -> x < length (add_set (work c)))%nat ->
  exists order net, emit_terminal_order c = Some (set_working_order order (set_net_weight net c)) /\
    order ≡ₚ working_order c /\
    forall r, r ∈ journal c ->
      emitted (work c) (window (range_start r) (span_len r) order) (window (range_start r) (span_len r) order).
Proof.
  intros Hj Ha Hnd Hlen Hn. unfold emit_terminal_order. destruct (net_weight_total c Ha) as [net ->].
  cbn [mbind option_bind]. change (journal (set_net_weight net c)) with (journal c).
  destruct (emit_all_ok n nodes (journal c) (journal c) [] (set_net_weight net c)) as (order & -> & Hp & Hem & _); try done.
  - by apply (aligned_core c).
  - by exists order, net.
Qed.

(** * Developing a schedule returns *)

(** What [stcut_develop_schedule] is called on. *)
Record ready (M : nat) (iters : nat) (aux : list Z) (c : StCutContext) : Prop := {
  rd_aligned : aligned c;
  rd_free : free_node_slots c = [];
  rd_jitter : jitter_ok c;
  rd_gate : restart_gate (config c) < 2;
  rd_nodup : NoDup (working_order c);
  rd_order n : n ∈ working_order c -> (n < length (add_set (work c)))%nat;
  rd_cands i tbl n : cand_tables c !! i = Some tbl -> n ∈ tbl -> (n < length (add_set (work c)))%nat;
  rd_marks : (length (mark_table c) <= M)%nat;
  rd_room : (length (add_set (work c)) + 2 * iters <= M)%nat;
  rd_small : Z.of_nat M + 4 < 2 ^ 16;
  rd_aux : (length (working_order c) < length aux)%nat;
  rd_built : tree_built c = true
}.

Lemma develop_schedule_ok M thr arg2 arg3 aux budget max_iters c :
  ready M (Z.to_nat max_iters) aux c ->
  (arg2 < length (add_set (work c)))%nat -> (arg3 < length (add_set (work c)))%nat ->
  exists out aux' c', develop_schedule thr arg2 arg3 [] aux budget max_iters c = Some (out, aux', c') /\
    ctx_ok (length (add_set (work c))) M (length (weight_table (work c))) (working_order c) c (grain c) c' /\
    (length (working_order c) < length aux')%nat /\
    journal_ok (length (working_order c)) (length (add_set (work c'))) (journal c') /\
    (emit_terminal (config c) = true -> forall r, r ∈ journal c' ->
      emitted (work c') (window (range_start r) (span_len r) (working_order c'))
        (window (range_start r) (span_len r) (working_order c'))).
Proof.
  intros [Ha Hf Hj Hg Hnd Ho Hc Hm Hr Hs Hx Hb] H2 H3. unfold develop_schedule.
  set (N0 := length (add_set (work c))) in *. set (c1 := init_journal arg2 arg3 c).
  assert (ctx_ok N0 M (length (weight_table (work c))) (working_order c) c (grain c) c1) as Hc1.
  { split; try done; [by apply (aligned_core c)|]. cbn. rewrite length_replicate. unfold node_count. apply (gi_nodes c (al_inv c Ha)). }
  destruct (develop_loop_ok N0 M (length (weight_table (work c))) (working_order c) c (grain c) Ho ltac:(lia) Hs Hj Hg
    thr budget (Z.to_nat max_iters) 0 (mkDev c1 aux [] ∅ 0xfffffffc)) as (d & k & -> & Hd & _).
  { split; cbn [d_ctx d_aux d_out]; try done. by apply init_journal_ok. }
  { lia. }
  cbn [mbind option_bind]. destruct Hd as [Hdc Hdj Hdg Hda Hdo].
  pose proof (cx_frame _ _ _ _ _ _ _ Hdc) as [= _ _ Ecfg]. rewrite Ecfg.
  destruct (emit_terminal (config c)) eqn:Et.
  - destruct (emit_terminal_ok _ _ (d_ctx d) Hdj (cx_aligned _ _ _ _ _ _ _ Hdc)) as (order & net & -> & Hp & Hem).
    + by rewrite (cx_order _ _ _ _ _ _ _ Hdc).
    + by rewrite (cx_order _ _ _ _ _ _ _ Hdc).
    + intros x. rewrite (cx_order _ _ _ _ _ _ _ Hdc). intros Hx'%Ho. pose proof (cx_nodes _ _ _ _ _ _ _ Hdc). lia.
    + cbn [mbind option_bind]. eexists _, _, _. split; [done|]. split; [|split; [done|split; [done|by intros _]]].
      apply (ctx_ok_view _ _ _ _ _ _ (set_working_order order (d_ctx d))); [done|].
      apply ctx_ok_order; [|done]. by rewrite Hp, (cx_order _ _ _ _ _ _ _ Hdc).
  - cbn [mbind option_bind]. by eexists _, _, _.
Qed.

(** * The retry loop *)

Lemma iteration_budget_small opt n :
  Z.of_nat n < 19355 ->
  iteration_budget opt n =
    Z.max (opt * 1000000 + 3000000000 - Z.of_nat n * 530000) 0 / (Z.of_nat n / 3226 + 26).
Proof.
  intros Hn. unfold iteration_budget. do 2 f_equal. rewrite Z.shiftr_div_pow2 by done. unfold wrap.
  rewrite (Z.mod_small (Z.of_nat n * 0x1450f0)) by lia.
  assert (Z.of_nat n * 0x1450f0 / 2 ^ 32 = Z.of_nat n / 3226) as ->.
  { pose proof (Z.div_mod (Z.of_nat n) 3226 ltac:(lia)) as E. pose proof (Z.mod_pos_bound (Z.of_nat n) 3226 ltac:(lia)).
    set (q := Z.of_nat n / 3226) in *. set (r := Z.of_nat n mod 3226) in *.
    symmetry. apply (Z.div_unique _ _ _ (q * 258144 + r * 0x1450f0)); [|lia]. left.
    assert (0 <= q <= 5) by lia. lia. }
  apply Z.mod_small. pose proof (Z.div_mod (Z.of_nat n) 3226 ltac:(lia)).
  pose proof (Z.mod_pos_bound (Z.of_nat n) 3226 ltac:(lia)). lia.
Qed.

(** The weight of a node's add list: what the lazily built tree holds. *)
Definition weight_grain (t : Tables) (id : nat) : Z :=
  match add_set t !! id with Some l => default 0 (slot_weights t l 0) | None => 0 end.

(** The largest prefix sum along an order. *)
Definition peak_step (g : nat -> Z) (acc : Z * Z) (id : nat) : Z * Z :=
  let sum := u64 (acc.1 + g id) in (sum, Z.max acc.2 sum).
Definition peak (g : nat -> Z) (order : list nat) : Z := (foldl (peak_step g) (0, 0) order).2.

Lemma peak_range g order : 0 <= peak g order < 2 ^ 64.
Proof.
  unfold peak. assert (forall l acc, 0 <= acc.2 < 2 ^ 64 -> 0 <= (foldl (peak_step g) acc l).2 < 2 ^ 64) as H.
  { induction l as [|x l IH]; intros acc Ha; [done|]. cbn [foldl]. apply IH. unfold peak_step. cbn.
    pose proof (u64_range (acc.1 + g x)). lia. }
  by apply H.
Qed.

Lemma peak_ext g g' order : (forall id, g id = g' id) -> peak g order = peak g' order.
Proof.
  intros H. unfold peak. f_equal. generalize (0, 0). induction order as [|x l IH]; intros acc; [done|].
  cbn [foldl]. unfold peak_step at 2 4. by rewrite H.
Qed.

Lemma fresh_tree_ok c :
  aligned c -> tree_built c = false -> grain_tree c = ∅ ->
  exists tree, grain_tree_build c = Some (set_grain_tree tree (set_tree_built true c)) /\
    forall id, default 0 (tree !! id) = weight_grain (work c) id.
Proof.
  intros Ha Hb He. unfold grain_tree_build. rewrite Hb, He.
  destruct (foldM_seq_ind (fun (tree : gmap nat Z) id => l ← add_set (work c) !! id;
    count ← slot_weights (work c) l 0; Some (<[id := count]> tree))
    (fun k tree => forall id, default 0 (tree !! id) = if decide (id < k)%nat then weight_grain (work c) id else 0)
    0 (node_count c) ∅) as (tree & -> & Ht).
  - intros k tree Hk Htree. unfold node_count in Hk. rewrite (gi_nodes c (al_inv c Ha)) in Hk.
    destruct (lookup_lt_is_Some_2 (add_set (work c)) k) as [l Hl]; [lia|]. rewrite Hl. cbn [mbind option_bind].
    assert (exists w, slot_weights (work c) l 0 = Some w) as [w Hw].
    { unfold slot_weights. edestruct (foldM_total (fun acc rel => sl ← weight_table (work c) !! rel; Some (u64 (acc + weight sl)))
        (fun _ => True) l 0) as (count & -> & _); [|done|by eauto].
      intros acc rel Hrel _. destruct (gi_add c (al_inv c Ha) k rel) as (sl & _ & -> & _); [by exists l|]. by eexists. }
    rewrite Hw. cbn [mbind option_bind]. eexists. split; [done|]. intros id. destruct (decide (id = k)) as [->|Hne].
    + rewrite lookup_insert_eq, decide_True by lia. unfold weight_grain. by rewrite Hl, Hw.
    + rewrite lookup_insert_ne by done. rewrite Htree. repeat case_decide; try done; lia.
  - intros id. by rewrite lookup_empty, decide_False by lia.
  - cbn [mbind option_bind]. exists tree. split; [done|]. intros id. rewrite Ht. case_decide; [done|].
    unfold weight_grain. rewrite lookup_ge_None_2; [done|]. unfold node_count in *.
    rewrite (gi_nodes c (al_inv c Ha)) in *. lia.
Qed.

Lemma measure_peak_ok c :
  aligned c -> tree_built c = true ->
  exists tree, measure_peak c = Some (peak (grain c) (working_order c), set_grain_tree tree (set_tree_built true c)) /\
    forall id, default 0 (tree !! id) = grain c id.
Proof.
  intros Ha Hb. unfold measure_peak. destruct (grain_tree_build_ok c Ha) as (tree & -> & Ht). rewrite (Ht Hb).
  cbn [mbind option_bind]. set (c1 := set_grain_tree (grain_tree c) (set_tree_built true c)).
  assert (forall l acc x, same_grains c1 x -> exists y, foldM (fun '(acc, peak, c) id =>
      '(g, c) ← grain_of id c; let acc := u64 (acc + g) in Some (acc, Z.max peak acc, c)) l (acc.1, acc.2, x) =
      Some ((foldl (peak_step (grain c)) acc l).1, (foldl (peak_step (grain c)) acc l).2, y) /\ same_grains c1 y) as Hloop.
  { induction l as [|id l IH]; intros acc x Hx; cbn [foldM foldl]; [by exists x|].
    destruct (grain_of_ok id x) as (y & -> & Hy); [by destruct Hx as (? & -> & _)|]. cbn [mbind option_bind].
    assert (grain x id = grain c id) as -> by (destruct Hx as (? & _ & Hg); by rewrite Hg).
    apply (IH (peak_step (grain c) acc id)). by eapply same_grains_trans. }
  destruct (Hloop (working_order c) (0, 0) c1) as (y & E & t & -> & Hg); [by apply same_grains_refl|].
  cbn [fst snd] in E. change (working_order c1) with (working_order c). rewrite E. cbn [mbind option_bind].
  exists t. split; [done|]. intros id. specialize (Hg id). done.
Qed.

(** The tables are put back; what grew around them still fits. *)
Lemma restored_aligned c0 c :
  aligned c0 -> aligned c -> (length (add_set (work c0)) <= length (mark_table c))%nat ->
  (length (weight_table (work c0)) <= length (weight_table (work c)))%nat -> snap c = work c0 ->
  aligned (restore_five c).
Proof.
  intros [[Hn Hl _ _ _ Hp Hd Ha Hs] _ Hf _ _ Hw] [[_ _ Cf Cm Cl _ _ _ _] _ _ Cb Cs _] Hm Hg Hsn.
  split; unfold restore_five; cbn; rewrite ?Hsn; try done; [|lia].
  split; cbn; rewrite ?Hsn; try done. lia.
Qed.

Lemma may_follow_bound c n x y :
  aligned c -> (length (add_set (work c)) <= n)%nat ->
  may_follow (work c) n x y -> may_follow (work c) (length (add_set (work c))) x y.
Proof.
  intros Ha Hn Hm Hx Hy Hr. apply (Hm ltac:(lia) ltac:(lia)). clear -Ha Hn Hr.
  induction Hr as [|u v w Huv _ IH]; [constructor|]. eapply rtc_l; [|exact IH]. by apply edge_bound.
Qed.

(** The rounds of a run of the loop: what each is to measure (nothing, when
    its order is bad and that is fatal), computed from the state it starts in
    alone, and how each ends. *)
Section rounds.
Context (thr flow_cap : Z) (opt : StCutOptions) (original : list nat) (s_seed t_seed : nat).

Definition measured_orders (s : Retry) : option (list (list nat)) :=
  let budget := u64 (iteration_budget (opt_it opt) (node_count (rt_ctx s)) + rt_used s) in
  '(_, c) ← prep_round thr s_seed t_seed (rt_aux s) budget (opt_rg opt) (rt_ctx s);
  ok ← validate_order c;
  Some (if ok : bool then [working_order c] else if opt_am opt then [] else [original]).

Inductive rounds : Z -> Retry -> list (list nat) -> Retry -> Prop :=
  | rounds_last round s os s' :
      measured_orders s = Some os -> retry_round thr flow_cap opt original s_seed t_seed round s = Some (s', true) ->
      rounds round s os s'
  | rounds_more round s os s1 orders s' :
      measured_orders s = Some os -> retry_round thr flow_cap opt original s_seed t_seed round s = Some (s1, false) ->
      rounds (round + 1) s1 orders s' -> rounds round s (os ++ orders) s'.

Definition over_cap (w : Tables) (order : list nat) : Prop :=
  flow_cap < u64 (peak (weight_grain w) order * STCUT_GRAIN_BYTES).
(** The state before the first round. *)
Definition first_round (c : StCutContext) : Retry :=
  mkRetry (set_working_order original c) (replicate (node_count c + 1) 0) [] (2 ^ 64 - 1) [] 0.
End rounds.

Section retry.
Context (thr flow_cap : Z) (opt : StCutOptions) (original : list nat) (s_seed t_seed : nat).
Context (cb : StCutContext) (M : nat).
#[local] Notation w0 := (work cb).
#[local] Notation N0 := (length (add_set (work cb))).
Context (Hb : aligned cb) (Hnd : NoDup original) (Horder : forall n, n ∈ original -> (n < N0)%nat).
Context (Hs : (s_seed < N0)%nat) (Ht : (t_seed < N0)%nat).
Context (Hroom : (N0 + 2 * Z.to_nat (opt_rg opt) <= M)%nat) (Hsmall : Z.of_nat M + 4 < 2 ^ 16).
Context (Hjit : jitter_ok cb) (Hgate : restart_gate (config cb) < 2).

(** An order in which no node reaches an earlier one. *)
Definition valid_order (order : list nat) : Prop := StronglySorted (may_follow w0 N0) order.

(** The context between two rounds. *)
Record round_ok (c : StCutContext) : Prop := {
ro_aligned : aligned c;
ro_free : free_node_slots c = [];
ro_work : work c = w0;
ro_order : working_order c = original;
ro_cands i tbl n : cand_tables c !! i = Some tbl -> n ∈ tbl -> (n < N0)%nat;
ro_marks : (length (mark_table c) <= M)%nat;
ro_config : config c = config cb;
ro_snap : snapshot_taken c = true -> snap c = w0;
ro_built : tree_built c = true -> forall id, grain c id = weight_grain w0 id;
ro_fresh : tree_built c = false -> grain_tree c = ∅
}.

(** The context after the round's snapshot and its first curve. *)
Lemma round_start c aux :
round_ok c -> (length original < length aux)%nat ->
exists aux' c', aux_fill 0 (length (working_order c)) aux (if snapshot_taken c then c else snapshot_five c) = Some (aux', c') /\
  ready M (Z.to_nat (opt_rg opt)) aux' c' /\ work c' = w0 /\ working_order c' = original /\
  snap c' = w0 /\ snapshot_taken c' = true /\ config c' = config cb /\
  forall id, grain c' id = weight_grain w0 id.
Proof.
intros [Ha Hf Hw Ho Hc Hm Hcf Hsn Hbt Hfr] Hx.
set (c1 := if snapshot_taken c then c else snapshot_five c).
assert (aligned c1) as Ha1.
{ unfold c1. case_match; [done|]. destruct Ha as [[? ? ? ? ? ? ? ? ?] ? ? ? ? ?]. split; done. }
assert (work c1 = w0 /\ working_order c1 = original /\ snap c1 = w0 /\ snapshot_taken c1 = true /\
  config c1 = config cb /\ free_node_slots c1 = [] /\ cand_tables c1 = cand_tables c /\ mark_table c1 = mark_table c /\
  tree_built c1 = tree_built c /\ grain_tree c1 = grain_tree c) as
  (Ew & Eo & Es & Est & Ecf & Efr & Ecd & Em & Etb & Egt).
{ unfold c1. destruct (snapshot_taken c) eqn:E; [|cbn]; split_and!; try done. by apply Hsn. }
assert (exists tree, grain_tree_build c1 = Some (set_grain_tree tree (set_tree_built true c1)) /\
  forall id, default 0 (tree !! id) = weight_grain w0 id) as (tree & Eb & Htree).
{ destruct (tree_built c) eqn:E.
  - destruct (grain_tree_build_ok c1 Ha1) as (tree & -> & Ht'). exists tree. split; [done|]. intros id.
    rewrite Ht' by done. rewrite Egt. by apply Hbt.
  - rewrite <-Ew. apply fresh_tree_ok; [done|done|]. rewrite Egt. by apply Hfr. }
set (c2 := set_grain_tree tree (set_tree_built true c1)) in *.
destruct (aux_fill_ok 0 (length (working_order c)) aux c2) as (aux' & tree' & E & Hl1 & Hl2 & Hg);
  [by apply (aligned_core c1)|cbn; rewrite Eo, Ho; lia|lia|].
exists aux', (set_grain_tree tree' (set_tree_built true c2)). split.
{ unfold aux_fill in *. rewrite Eb. cbn [mbind option_bind]. change (grain_tree_build c2) with (Some c2) in E. exact E. }
specialize (Hg eq_refl). split; [|split_and!; try done; intros id; unfold grain; cbn; by rewrite Hg, <-Htree].
split; cbn; rewrite ?Ew, ?Eo, ?Em, ?Ecd, ?Ecf; try done; [by apply (aligned_core c1)|by unfold jitter_ok; cbn; rewrite Ecf|lia].
Qed.

(** What has been chosen so far, among the orders measured. *)
Record chosen (best : list nat) (least : Z) (orders : list (list nat)) : Prop := {
ch_best : (best = [] /\ least = 2 ^ 64 - 1) \/ (best ∈ orders /\ peak (weight_grain w0) best = least);
ch_orders o : o ∈ orders -> o ≡ₚ original /\ (o = original \/ valid_order o) /\ least <= peak (weight_grain w0) o
}.

Lemma chosen_add best least orders order :
chosen best least orders -> order ≡ₚ original -> (order = original \/ valid_order order) ->
let flow := peak (weight_grain w0) order in
chosen (if flow <? least then order else best) (if flow <? least then flow else least) (orders ++ [order]).
Proof.
intros [Hbest Hl] Hp Hv flow. destruct (Z.ltb_spec flow least).
- split; [right; split; [set_solver|done]|]. intros o [Ho| ->%list_elem_of_singleton]%elem_of_app; [|by split_and!].
  destruct (Hl o Ho) as (? & ? & ?). split_and!; [done..|lia].
- split; [destruct Hbest as [?|[? ?]]; [by left|right; split; [set_solver|done]]|].
  intros o [Ho| ->%list_elem_of_singleton]%elem_of_app; [by apply Hl|by split_and!].
Qed.

Lemma retry_round_ok round s :
round_ok (rt_ctx s) -> (length original < length (rt_aux s))%nat ->
exists s' stop os, retry_round thr flow_cap opt original s_seed t_seed round s = Some (s', stop) /\
  measured_orders thr opt original s_seed t_seed s = Some os /\
  rt_flows s' = rt_flows s ++ map (peak (weight_grain w0)) os /\
  (forall before, chosen (rt_best s) (rt_flow s) before -> chosen (rt_best s') (rt_flow s') (before ++ os)) /\
  (stop = false -> round_ok (rt_ctx s') /\ (length original < length (rt_aux s'))%nat /\ Forall (over_cap flow_cap w0) os) /\
  (opt_rt opt <= round -> stop = true) /\
  (length os <= 1)%nat /\ (opt_am opt = false -> os <> []).
Proof.
intros Hc Hx. unfold retry_round, measured_orders, prep_round.
destruct (round_start (rt_ctx s) (rt_aux s) Hc Hx) as (aux1 & c1 & E1 & Hrd & Ew1 & Eo1 & Es1 & Est1 & Ecf1 & Hg1).
assert (working_order (if snapshot_taken (rt_ctx s) then rt_ctx s else snapshot_five (rt_ctx s)) = working_order (rt_ctx s)) as Ewo
  by (by case_match).
cbv zeta. rewrite Ewo, E1. cbn [mbind option_bind].
destruct (develop_schedule_ok M thr s_seed t_seed aux1 (u64 (iteration_budget (opt_it opt) (node_count (rt_ctx s)) + rt_used s))
  (opt_rg opt) c1 Hrd) as (out & aux2 & c2 & -> & Hc2 & Hx2 & _ & _); [by rewrite Ew1..|].
cbn [mbind option_bind]. destruct Hc2 as [Ha2 Hf2 Ho2 _ Hcd2 Hm2 Hn2 Hw2 Hfr2 Hb2 Hg2]. rewrite ?Ew1, ?Eo1 in *.
injection Hfr2 as Es2 Est2 Ecf2. rewrite Es1 in Es2. rewrite Est1 in Est2. rewrite Ecf1 in Ecf2.
destruct (validate_order_spec c2) as (ok & -> & Hok); [by apply (snapped_aligned cb)|]. cbn [mbind option_bind].
set (c3 := if ok then c2 else set_working_order original c2).
assert (working_order c3 ≡ₚ original /\ (working_order c3 = original \/ valid_order (working_order c3))) as [Hp3 Hv3].
{ unfold c3. destruct ok; [|by auto]. split; [done|]. right. pose proof (proj1 Hok eq_refl) as Hsort.
  eapply StronglySorted_weaken; [|exact Hsort]. intros x y. rewrite Es2. apply may_follow_bound; [done|].
  unfold node_count. by rewrite (gi_nodes c2 (al_inv c2 Ha2)). }
assert (aligned c3 /\ tree_built c3 = true /\ work c3 = work c2 /\ mark_table c3 = mark_table c2 /\ grain_tree c3 = grain_tree c2 /\
  free_node_slots c3 = [] /\ cand_tables c3 = cand_tables c2 /\ config c3 = config c2 /\ snap c3 = snap c2 /\
  snapshot_taken c3 = snapshot_taken c2) as (Ha3 & Hb3 & Ew3 & Em3 & Eg3 & Ef3 & Ecd3 & Ecf3 & Es3 & Est3).
{ unfold c3. destruct ok; split_and!; try done. by apply (aligned_core c2). }
assert (Some (if ok then [working_order c2] else if opt_am opt then [] else [original]) =
  Some (if negb ok && opt_am opt then [] else [working_order c3])) as -> by (unfold c3; destruct ok; [done|by destruct (opt_am opt)]).
destruct (negb ok && opt_am opt) eqn:Eam.
{ eexists _, _, []. split; [done|]. split; [done|]. cbn [rt_flows rt_best rt_flow map app]. rewrite app_nil_r.
  split_and!; [done|by intros ?; rewrite app_nil_r|done|done|cbn; lia|]. intros Ham. by rewrite Ham, andb_false_r in Eam. }
fold c3.
destruct (measure_peak_ok c3 Ha3 Hb3) as (tree & -> & Htree). cbn [mbind option_bind].
assert (forall id, grain c3 id = weight_grain w0 id) as Hg3.
{ intros id. unfold grain. rewrite Eg3. fold (grain c2 id). by rewrite Hg2, Hg1. }
rewrite (peak_ext _ _ (working_order c3) Hg3). eexists _, _, _. split; [done|]. split; [done|].
cbn [rt_best rt_flow rt_flows rt_ctx rt_aux]. split; [done|]. split; [by intros; apply chosen_add|]. split; [|split; [|done]].
- intros Hstop. split; [|split; [done|]]; cycle 1.
  { constructor; [|done]. unfold over_cap. apply orb_false_iff in Hstop as [[_ Hsr]%orb_false_iff _].
    apply negb_false_iff, andb_true_iff in Hsr as [Hsr _]. by apply Z.ltb_lt. }
  set (c4 := set_grain_tree tree (set_tree_built true c3)).
  assert (aligned (set_working_order original c4)) as Ha4 by (by apply (aligned_core c3)).
  pose proof (al_marks c2 Ha2) as Hmk2.
  split; cbn; rewrite ?Es3, ?Es2, ?Ecd3, ?Em3, ?Ecf3; try done.
  + apply (restored_aligned cb); [done|done| | |].
    * cbn. rewrite Em3. lia.
    * cbn. rewrite Ew3. lia.
    * cbn. by rewrite Es3, Es2.
  + intros _ id. unfold grain. cbn. by rewrite Htree.
- intros Hr. destruct (Z.leb_spec (opt_rt opt) round); [done|lia].
Qed.

Lemma retry_loop_ok fuel : forall round s,
round_ok (rt_ctx s) -> (length original < length (rt_aux s))%nat ->
(0 < fuel)%nat -> opt_rt opt < round + Z.of_nat fuel ->
exists s' orders, retry_loop fuel thr flow_cap opt original s_seed t_seed round s = Some s' /\
  rounds thr flow_cap opt original s_seed t_seed round s orders s' /\
  rt_flows s' = rt_flows s ++ map (peak (weight_grain w0)) orders /\
  (forall before, chosen (rt_best s) (rt_flow s) before -> chosen (rt_best s') (rt_flow s') (before ++ orders)) /\
  (forall i o, orders !! i = Some o -> (S i < length orders)%nat -> over_cap flow_cap w0 o) /\
  Z.of_nat (length orders) <= Z.max 1 (opt_rt opt - round + 1) /\
  (opt_am opt = false -> orders <> []).
Proof.
induction fuel as [|fuel IH]; intros round s Hc Hx Hpos Hf; [lia|]. cbn [retry_loop].
destruct (retry_round_ok round s Hc Hx) as (s' & stop & os & E & Eo & Hfl & Hch & Hgo & Hend & Hone & Hsome).
rewrite E. cbn [mbind option_bind]. destruct stop.
{ exists s', os. split_and!; try done; [by apply rounds_last|intros; lia|lia]. }
destruct (Hgo eq_refl) as (Hc' & Hx' & Hover).
assert (round < opt_rt opt) as Hlt by (destruct (Z.lt_ge_cases round (opt_rt opt)) as [|Hge]; [done|by specialize (Hend Hge)]).
destruct (IH (round + 1) s' Hc' Hx') as (s2 & orders & E2 & Hrs & Hfl2 & Hch2 & Hov & Hlen & Hsome2); [lia|lia|].
exists s2, (os ++ orders). split_and!.
- done.
- by eapply rounds_more.
- rewrite Hfl2, Hfl, map_app. by rewrite app_assoc.
- intros before Hbf. rewrite app_assoc. by apply Hch2, Hch.
- intros i o Hi. rewrite length_app. intros Hl. apply lookup_app_Some in Hi as [Hi|[Hge Hi]].
  + rewrite Forall_lookup in Hover. by eapply Hover.
  + eapply Hov; [exact Hi|lia].
- rewrite length_app. lia.
- intros Ham Hnil. apply app_nil in Hnil as [Hnil _]. by apply (Hsome Ham).
Qed.
End retry.

(** * The results *)

(** C24: [stcut_develop_schedule] returns on every graph kept by the
    scheduler whose candidates and order name nodes, when random restarts
    are off and the node numbers, which grow by two with every cut, stay
    within the 16-bit marks.  Its working order is a rearrangement of the
    one before; the ranges of the records cut the positions into disjoint
    pieces that cover all of them; and within each range the order written
    out puts a node after those its slots with bit 4 lead to, but for a
    trailing set each member of which waits for another member. *)
Theorem develop_schedule_correct M thr arg2 arg3 aux budget max_iters c :
  ready M (Z.to_nat max_iters) aux c ->
  (arg2 < length (add_set (work c)))%nat -> (arg3 < length (add_set (work c)))%nat ->
  exists out aux' c', develop_schedule thr arg2 arg3 [] aux budget max_iters c = Some (out, aux', c') /\
    aligned c' /\ working_order c' ≡ₚ working_order c /\
    concat (positions <$> journal c') ≡ₚ seq 0 (length (working_order c)) /\
    (emit_terminal (config c) = true -> forall r, r ∈ journal c' ->
      let range := window (range_start r) (span_len r) (working_order c') in
      exists d1 d2, range = d1 ++ d2 /\
        (forall i u v, d1 !! i = Some u -> waits (work c') u v -> v ∈ range -> v ∈ take i d1) /\
        (forall u, u ∈ d2 -> exists v, waits (work c') u v /\ v ∈ d2)).
Proof.
  intros Hr H2 H3. destruct (develop_schedule_ok M thr arg2 arg3 aux budget max_iters c Hr H2 H3) as
    (out & aux' & c' & E & Hc & _ & Hj & Hem). exists out, aux', c'. split; [done|].
  split; [by eapply cx_aligned|]. split; [by eapply cx_order|]. split; [by eapply jo_tiles|].
  intros He r Hin. destruct (Hem He r Hin) as (d1 & d2 & Hd & Ho & Hw). exists d1, d2. split; [done|]. split; [|done].
  intros i u v Hi Hv Hin'. by eapply Ho.
Qed.

(** The order a run of the loop ends with. *)
Lemma chosen_best (w : Tables) original best least (orders : list (list nat)) :
  (forall o, o ∈ orders -> o ≡ₚ original) ->
  (best = [] /\ least = 2 ^ 64 - 1) \/ (best ∈ orders /\ peak (weight_grain w) best = least) ->
  let res := if bool_decide (best = []) then original else best in
  (res = original \/ res ∈ orders) /\ peak (weight_grain w) res <= least.
Proof.
  intros Hp Hbest res. unfold res. pose proof (peak_range (weight_grain w) original).
  destruct Hbest as [[-> ->]|[Hin <-]]; [rewrite bool_decide_true by done; split; [by left|lia]|].
  case_bool_decide as E; [|split; [by right|lia]]. subst best. apply Hp, Permutation_nil_l in Hin as ->. split; [by left|lia].
Qed.

(** What [stcut_full_schedule] is called on: a graph just built. *)
Record schedulable (opt : StCutOptions) (original : list nat) (c : StCutContext) : Prop := {
  sc_aligned : aligned c;
  sc_free : free_node_slots c = [];
  sc_jitter : jitter_ok c;
  sc_gate : restart_gate (config c) < 2;
  sc_nodup : NoDup original;
  sc_order n : n ∈ original -> (n < length (add_set (work c)))%nat;
  sc_cands i tbl n : cand_tables c !! i = Some tbl -> n ∈ tbl -> (n < length (add_set (work c)))%nat;
  sc_small : Z.of_nat (length (mark_table c) + length (add_set (work c)) + 2 * Z.to_nat (opt_rg opt)) + 4 < 2 ^ 16;
  sc_snap : snapshot_taken c = false;
  sc_built : tree_built c = false;
  sc_tree : grain_tree c = ∅
}.

Lemma full_schedule_ok thr cap opt original s t c :
  schedulable opt original c ->
  (s < length (add_set (work c)))%nat -> (t < length (add_set (work c)))%nat ->
  exists best s' orders, full_schedule thr cap opt original s t c = Some (best, rt_flows s', rt_ctx s') /\
    rounds thr cap opt original s t 1 (first_round original c) orders s' /\
    rt_flows s' = map (peak (weight_grain (work c))) orders /\
    best ≡ₚ original /\ (best = original \/ valid_order c best) /\ (best = original \/ best ∈ orders) /\
    (forall o, o ∈ orders -> o ≡ₚ original /\ (o = original \/ valid_order c o) /\
      peak (weight_grain (work c)) best <= peak (weight_grain (work c)) o) /\
    (forall i o, orders !! i = Some o -> (S i < length orders)%nat -> over_cap cap (work c) o) /\
    Z.of_nat (length orders) <= Z.max 1 (opt_rt opt) /\
    (opt_am opt = false -> orders <> []).
Proof.
  intros [Ha Hf Hj Hg Hnd Ho Hc Hsm Hsn Hb Ht] Hs Htt. unfold full_schedule.
  set (M := (length (mark_table c) + length (add_set (work c)) + 2 * Z.to_nat (opt_rg opt))%nat) in *.
  destruct (retry_loop_ok thr cap opt original s t c M Ha Hnd Ho Hs Htt ltac:(unfold M; lia) Hsm Hj Hg
    (S (Z.to_nat (opt_rt opt))) 1 (first_round original c)) as (s' & orders & E & Hrs & Hfl & Hch & Hov & Hlen & Hsome).
  - split; cbn; try done; [by apply (aligned_core c)|unfold M; lia|by rewrite Hsn|by rewrite Hb].
  - cbn. rewrite length_replicate. unfold node_count. rewrite (gi_nodes c (al_inv c Ha)).
    assert (length original <= length (seq 0 (length (add_set (work c)))))%nat as Hle; [|rewrite length_seq in Hle; lia].
    apply submseteq_length, NoDup_submseteq; [done|]. intros x Hx%Ho. apply elem_of_seq. lia.
  - lia.
  - lia.
  - change (node_count (set_working_order original c)) with (node_count c). fold (first_round original c). rewrite E.
    cbn [mbind option_bind].
    destruct (Hch []) as [Hbest Hall]; [split; [by left|by intros o ?%not_elem_of_nil]|]. cbn [app] in *.
    eexists _, _, _. split; [done|]. split; [done|]. split; [done|].
    destruct (chosen_best _ original _ _ orders ltac:(intros; by apply Hall) Hbest) as [Hin Hpk]. split_and!; try done; [| | |lia].
    + destruct Hin as [->|Hin]; [done|by apply Hall].
    + destruct Hin as [?|Hin]; [by left|by apply Hall].
    + intros o Hoo. destruct (Hall o Hoo) as (? & ? & ?). split_and!; [done..|lia].
Qed.

(** C6: [stcut_full_schedule] returns on a graph just built, for every option
    set that [schedulable] admits: random restarts off, a jitter within its
    bound, and node numbers, which grow by two with each of the cuts
    [opt_rg] allows, within the 16-bit marks.  The rounds it goes through
    each measure an order: the one the round developed when no node in it
    reaches an earlier one, else the original (none when a bad order is
    fatal).  Those orders rearrange the original; the flows recorded are
    their memory peaks, over the weights of the nodes' add lists; the order
    chosen is one of them, or the original, and its peak is at most that of
    each.  Another round is run only when the peak exceeds the cap, and never
    more rounds than [opt_rt] (but one at least, which is recorded unless a
    bad order is fatal). *)
Theorem full_schedule_correct thr cap opt original s t c :
  schedulable opt original c ->
  (s < length (add_set (work c)))%nat -> (t < length (add_set (work c)))%nat ->
  exists best s' orders, full_schedule thr cap opt original s t c = Some (best, rt_flows s', rt_ctx s') /\
    rounds thr cap opt original s t 1 (first_round original c) orders s' /\
    rt_flows s' = map (peak (weight_grain (work c))) orders /\
    best ≡ₚ original /\ (best = original \/ valid_order c best) /\ (best = original \/ best ∈ orders) /\
    (forall o, o ∈ orders -> o ≡ₚ original /\ (o = original \/ valid_order c o) /\
      peak (weight_grain (work c)) best <= peak (weight_grain (work c)) o) /\
    (forall i o, orders !! i = Some o -> (S i < length orders)%nat -> over_cap cap (work c) o) /\
    Z.of_nat (length orders) <= Z.max 1 (opt_rt opt) /\
    (opt_am opt = false -> orders <> []).
Proof. intros Hsc Hs Ht. by apply full_schedule_ok. Qed.

(** The budget formula computes its divisor [n / 3226 + 26] by a
    multiplication and a shift.  That is the division for all graphs of
    fewer than 19355 nodes. *)
Theorem iteration_budget_exact opt n :
  Z.of_nat n < 19355 ->
  iteration_budget opt n =
    Z.max (opt * 1000000 + 3000000000 - Z.of_nat n * 530000) 0 / (Z.of_nat n / 3226 + 26).
Proof. apply iteration_budget_small. Qed.

Lemma iteration_budget_exact_witness :
  iteration_budget 1 19354 = Z.max (1 * 1000000 + 3000000000 - 19354 * 530000) 0 / (19354 / 3226 + 26) /\
  iteration_budget 1 3000 = 1411000000 / 26.
Proof.
  split; [exact (iteration_budget_exact 1 (Z.to_nat 19354) ltac:(lia))|exact (iteration_budget_exact 1 (Z.to_nat 3000) ltac:(lia))].
Defined.

(** At 19355 nodes the multiplication gives 6 where the division gives 5. *)
Example budget_first_mismatch :
  iteration_budget 20000 (Z.to_nat 19355) = 12741850000 / 32 /\ 12741850000 / 32 <> 12741850000 / (19355 / 3226 + 26).
Proof. by vm_compute. Qed.

(** * Random restarts *)

(** The context after [k] cuts of a graph, from the seeds 0 and [t]. *)
Definition after_cuts (k : Z) (t : nat) (g : StCutGraphInput) : option StCutContext :=
  c ← build_initial_state g;
  '(_, c) ← prep_round 0 0 t (replicate (in_node_count g + 1) 0) 1000000 k (set_working_order (initial_order g) c);
  Some c.

Definition chain_cut_twice : option StCutContext := after_cuts 2 8 long_chain.

(** A random restart gives a record's length to its successor but leaves the
    successor's start where it is.  After two cuts of a chain of nine nodes
    the ranges cover the positions 0 to 8 once; undoing the record at
    position 2 leaves no record there and one that runs past the end of the
    order.  And undoing the first record, whose ends are the seed node,
    retires the seed node of the graph, twice. *)
Theorem restart_breaks_ranges :
  match chain_cut_twice with
  | Some c =>
      (positions <$> journal c) = [[]; [0; 1]; []; [2]; [3; 4; 5; 6; 7; 8]]%nat /\
      ((fun c' => positions <$> journal c') <$> random_restart 3 c) = Some [[]; [0; 1]; []; []; [3; 4; 5; 6; 7; 8; 9]]%nat /\
      (free_node_slots <$> random_restart 1 c) = Some [0; 0]%nat
  | None => False
  end.
Proof. by vm_compute. Qed.

(** * Witnesses *)

Definition round_options : StCutOptions := mkOptions 10 2 2 false.

Lemma long_chain_facts c :
  build_initial_state long_chain = Some c ->
  free_node_slots c = [] /\ config c = default_config /\ cand_tables c = replicate 9 [] /\ length (mark_table c) = 9%nat /\
  snapshot_taken c = false /\ tree_built c = false /\ grain_tree c = ∅ /\ working_order c = seq 0 9.
Proof. intros E. vm_compute in E. injection E as <-. by vm_compute. Qed.

Lemma long_chain_schedulable c :
  build_initial_state long_chain = Some c -> schedulable round_options (seq 0 9) c.
Proof.
  intros E. destruct (long_chain_aligned c E) as [Ha Hl].
  destruct (long_chain_facts c E) as (Hf & Hc & Hcd & Hm & Hs & Hb & Ht & _). clear E.
  split; rewrite ?Hl, ?Hc, ?Hm; try done.
  - unfold jitter_ok. by rewrite Hc.
  - apply NoDup_seq.
  - intros n Hn%elem_of_seq. lia.
  - intros i tbl n. rewrite Hcd. intros [-> _]%lookup_replicate ?%not_elem_of_nil. done.
Qed.

Lemma full_schedule_correct_witness :
  exists c best s' (orders : list (list nat)), build_initial_state long_chain = Some c /\
    full_schedule 0 0 round_options (seq 0 9) 0 8 c = Some (best, rt_flows s', rt_ctx s') /\ best ≡ₚ seq 0 9 /\
    rt_flows s' = [16; 16] /\ length orders = 2%nat.
Proof.
  destruct (build_initial_state long_chain) as [c|] eqn:E; [|by vm_compute in E].
  destruct (long_chain_aligned c E) as [_ Hl].
  destruct (full_schedule_correct 0 0 round_options (seq 0 9) 0 8 c (long_chain_schedulable c E))
    as (best & s' & orders & Ef & _ & Hfl & Hp & _); [lia|lia|].
  exists c, best, s', orders. split; [reflexivity|]. split; [exact Ef|]. split; [exact Hp|].
  assert ((fun r => r.1.2) <$> full_schedule 0 0 round_options (seq 0 9) 0 8 c = Some [16; 16]) as Hv.
  { clear -E. vm_compute in E. injection E as <-. by vm_compute. }
  rewrite Ef in Hv. injection Hv as Hv. split; [exact Hv|]. rewrite Hfl in Hv.
  apply (f_equal length) in Hv. by rewrite length_map in Hv.
Defined.

Lemma develop_schedule_correct_witness :
  exists c out aux c', build_initial_state long_chain = Some c /\
    develop_schedule 0 0 8 [] (replicate 10 0) 1000 2 (set_tree_built true c) = Some (out, aux, c') /\
    working_order c' ≡ₚ seq 0 9.
Proof.
  destruct (build_initial_state long_chain) as [c|] eqn:E; [|by vm_compute in E].
  destruct (long_chain_aligned c E) as [Ha Hl].
  destruct (long_chain_facts c E) as (Hf & Hc & Hcd & Hm & Hs & Hb & Ht & Ho).
  destruct (develop_schedule_correct 20 0 0 8 (replicate 10 0) 1000 2 (set_tree_built true c)) as
    (out & aux & c' & Ed & _ & Hp & _).
  - clear E. split; cbn; rewrite ?Hl, ?Hc, ?Hm, ?Ho; try done; try lia.
    + by apply (aligned_core c).
    + unfold jitter_ok. cbn. by rewrite Hc.
    + apply NoDup_seq.
    + intros n Hn%(elem_of_seq 0 9). lia.
    + intros i tbl n. rewrite Hcd. intros [-> _]%lookup_replicate ?%not_elem_of_nil. done.
    + cbn. lia.
  - cbn. lia.
  - cbn. lia.
  - exists c, out, aux, c'. split; [reflexivity|]. split; [exact Ed|]. cbn in Hp. rewrite Ho in Hp. exact Hp.
Defined.
