(* ===== verification/Scheduler.v ===== *)
(** The execution plan ([compiler/src/schedule/scheduler.cpp]): kernel
    selection, the step generators, the expansion of a model descriptor into
    steps, the frozen plan of the simple linear model, and the insertion of
    spill and fill transfers.  [compute_record_id] is from
    [serialize/context_binary_writer.hpp], the shape hash from
    [ir/types.hpp]. *)
From S2P Require Import Prelude Ir CpSolution.

(** * Hashes and record numbers *)

Definition HTP_HASH_INIT : Z := 0x51BE1035.
Definition HTP_HASH_MULT : Z := 0x01003123.

(** The hash of a non-empty shape; at most eight dimensions count. *)
Definition htp_shape_hash (dims : list Z) : Z :=
  match dims with
  | [] => HTP_HASH_INIT
  | d :: rest => foldl (fun h x => u32 (u32 (h * HTP_HASH_MULT) + x)) (u32 (HTP_HASH_INIT + d)) (take 7 rest)
  end.

Definition compute_record_id (step_index : Z) : Z :=
  let pair := step_index / 2 in
  let base := Z.land (u32 (0x11 + u32 (2 * pair))) 0x1F in
  if step_index mod 2 =? 0 then Z.lor base 0x60 else Z.lor (Z.land (u32 (base - 1)) 0x1F) 0x60.

(** * Kernel selection *)

Module KernelSelector.

Record KernelResult := mkKernel { kernel_name : string; kr_f2 : Z }.

Definition dtype_suffix (dt : DType) : string :=
  match dt with
  | Float32 => "ff" | Float16 => "ff16" | Int8 => "i8" | Int16 => "i16" | Int32 => "i32"
  | _ => "ff"
  end%string.

Definition named (op : string) (names : list string) : bool := existsb (String.eqb op) names.

Definition select (op_name : string) (dtype : DType) (is_input_side is_output_side : bool) : KernelResult :=
  let suffix := dtype_suffix dtype in
  if named op_name ["Transpose"; "transpose"]%string then
    if is_input_side then mkKernel "*InputSlice@Ff.s4*6." 0x02
    else mkKernel ("Transpose_impl@" ++ suffix ++ "*2.fi.t") 0x03
  else if named op_name ["Reshape"; "reshape"]%string then
    mkKernel ("flat_from_vtcm@" ++ suffix ++ ".Ff.") 0x11
  else if named op_name ["FullyConnected"; "MatMul"; "MatMul_bias"; "FCElementwiseAdd"]%string then
    mkKernel ("MatMul_bias@" ++ suffix ++ "*4") 0x14
  else if named op_name ["Input"; "InputNodeSetup"]%string then mkKernel "" 0
  else if named op_name ["Output"; "OutputNodeSetup"]%string then mkKernel "" 0
  else if named op_name ["Const"]%string then mkKernel "Const" 0
  else mkKernel op_name 0.

Definition get_kernel_table : list string :=
  ["Shape"; "*InputSlice@Ff.s4*6."; "@DmaCheckpointSet"; "@DmaCheckpointWait"; "Const";
   "Transpose_impl@Ff*2.fi.t"; "flat_from_vtcm@ff.Ff."; "MatMul_bias@ff*4";
   "Transpose_impl@ff*2.fi.t"; "*OutputSlice@ff.s4*3."; "@SyncOp"]%string.

End KernelSelector.

(** * Plans *)

Inductive OpRecordType := OP_TYPE_COMPUTE | OP_TYPE_MEMORY | OP_TYPE_SYNC | OP_TYPE_DMA.

#[export] Instance OpRecordType_eq_dec : EqDecision OpRecordType.
Proof. solve_decision. Defined.

Record ScheduledOp := mkOp {
  record_id : Z; so_tensor : Z; so_type : OpRecordType; f2 : Z; block_ref : Z;
  extras : list Z; so_kernel : string; step_name : string
}.

Definition put_record_id (v : Z) (o : ScheduledOp) : ScheduledOp :=
  mkOp v (so_tensor o) (so_type o) (f2 o) (block_ref o) (extras o) (so_kernel o) (step_name o).

Record TensorInfo := mkTensorInfo {
  ti_id : Z; ti_name : string; ti_rank : Z; ti_dims : list Z; ti_dtype : Z;
  ti_const : bool; ti_graph_io : bool
}.

(** [dims] has five entries. *)
Definition ti_dim (t : TensorInfo) (i : nat) : Z := nth i (ti_dims t) 0.

Record Plan := mkPlan {
  ops : list ScheduledOp;
  kernel_names : list string;
  op_names : list string;
  tensor_names : list string;
  tensors : list TensorInfo;
  op_order : list Z
}.

Definition empty_plan : Plan := mkPlan [] [] [] [] [] [].
Definition set_ops (l : list ScheduledOp) (p : Plan) : Plan :=
  mkPlan l (kernel_names p) (op_names p) (tensor_names p) (tensors p) (op_order p).
Definition push_op (o : ScheduledOp) (p : Plan) : Plan := set_ops (ops p ++ [o]) p.

(** The counters of a [Scheduler]. *)
Record Counters := mkCounters {
  next_step : Z; next_dma_tag : Z; next_vtcm_block : Z; tensor_block_map : gmap Z Z
}.

Definition fresh_counters : Counters := mkCounters 0 0x11 0x19 ∅.

Definition make_op (tid : Z) (ty : OpRecordType) (f2 block_ref : Z) (extras : list Z)
    (kernel step : string) (s : Counters) : ScheduledOp * Counters :=
  (mkOp (compute_record_id (next_step s)) tid ty f2 block_ref extras kernel step,
   mkCounters (u32 (next_step s + 1)) (next_dma_tag s) (next_vtcm_block s) (tensor_block_map s)).

Definition alloc_vtcm_block (tid : Z) (s : Counters) : Z * Counters :=
  match tensor_block_map s !! tid with
  | Some b => (b, s)
  | None =>
      let block := next_vtcm_block s in
      (block, mkCounters (next_step s) (next_dma_tag s) (u32 (block + 1)) (<[tid := block]> (tensor_block_map s)))
  end.

(** * Step generators *)

Section generators.
Context (plan : Plan) (s : Counters).

(** Allocate a block for [tid], then push an op that refers to it. *)
Definition gen_step (alloc tid : Z) (ty : OpRecordType) (f2 : Z) (ex : list Z) (kernel step : string)
    : Plan * Counters :=
let '(block, s) := alloc_vtcm_block alloc s in
let '(o, s) := make_op tid ty f2 (Z.lor 0x1000 block) ex kernel step s in
(push_op o plan, s).

(** Five extras of which the first is 1; a tensor of rank five or more writes
    past the end. *)
Definition node_extras (t : TensorInfo) : option (list Z) :=
if 5 <=? ti_rank t then None
else Some (1 :: ((fun i => if Z.of_nat i <? ti_rank t then u32 (ti_dim t i) else 0) <$> seq 0 4)).

Definition gen_input_node_setup (input : TensorInfo) (is_first : bool) : option (Plan * Counters) :=
ex ← (if is_first then Some [1; 0; 0; 0; 0] else node_extras input);
let hash := if is_first then 0x82D28377 else 0x9DCAC54A in
let '(o, s) := make_op 0 OP_TYPE_COMPUTE hash 0x1003 ex "" "InputNodeSetup" s in
Some (push_op o plan, s).

Definition gen_input_slice (input output : TensorInfo) : Plan * Counters :=
let ex := [ti_rank output; ti_rank input]
  ++ concat ((fun i => if Z.of_nat i <? ti_rank output then [u32 (ti_dim output i); u32 (ti_dim input i)] else [])
               <$> seq 0 3)
  ++ [0x10020] in
gen_step (ti_id input) (ti_id input) OP_TYPE_COMPUTE 0x02 ex "*InputSlice@Ff.s4*6." "InputSlice".

(** The phase is read after the block has been allocated. *)
Definition gen_perm_load (perm : TensorInfo) : Plan * Counters :=
gen_step (ti_id perm) (ti_id perm) OP_TYPE_MEMORY (if next_step s <? 10 then 0x02 else 0x03) [0; 1] "" "perm_load".

Definition gen_layout_convert (input output : TensorInfo) : Plan * Counters :=
gen_step (ti_id output) (ti_id output) OP_TYPE_MEMORY 0x02 [2; 1] "" "layout_convert".

Definition gen_flat_from_vtcm (t : TensorInfo) (phase : Z) : Plan * Counters :=
let ex :=
  if phase =? 0x11 then
    [3; Z.lor 0x80000000 (ti_id t); 0xCCCC0001; 0x40001000; u32 (u64 (u64 (ti_dim t 0 * ti_dim t 1) * 0x19));
     Z.lor 0x30000 (u32 (u64 (ti_dim t 1 * 3)))]
  else if phase =? 0x1A then [3; 3; 0x30010] else [] in
gen_step (ti_id t) (ti_id t) OP_TYPE_COMPUTE phase ex "flat_from_vtcm@ff.Ff." "flat_from_vtcm".

Definition gen_fc_prep (t : TensorInfo) (phase : Z) : Plan * Counters :=
gen_step (ti_id t) (ti_id t) OP_TYPE_COMPUTE phase
  [3; Z.lor 0x80000000 (u32 (ti_id t + 1)); 0xCCCC0001; 0x40001000; 4; 0x30008] "" "fc_prep".

Definition gen_dma_set (weight : TensorInfo) (tag : Z) (ex : list Z) : Plan * Counters :=
gen_step (ti_id weight) (ti_id weight) OP_TYPE_DMA tag ex "@DmaCheckpointSet" "DmaCheckpointSet".

Definition gen_matmul (out : TensorInfo) (phase : Z) (with_bias : bool) : Plan * Counters :=
let ex :=
  if with_bias then [0; Z.lor 0x80000000 (ti_id out); 0xCCCC0001; 0x40001000; 2; 0x30004]
  else [0; Z.lor 0x80000000 (ti_id out); 0xCCCC0001; 0x40001100; 2; 4; 0x30000] in
let '(o, s) := make_op (ti_id out) OP_TYPE_COMPUTE phase 0 ex "MatMul_bias@ff*4"
                 (if with_bias then "MatMul_bias(+b)" else "MatMul_bias(xW)") s in
(push_op o plan, s).

Definition gen_output_node_setup (output : TensorInfo) : option (Plan * Counters) :=
ex ← node_extras output;
let '(o, s) := make_op 0 OP_TYPE_COMPUTE 0x9BCA6304 0x1003 ex "" "OutputNodeSetup" s in
Some (push_op o plan, s).

Definition gen_sync (sync : TensorInfo) (ex : list Z) : Plan * Counters :=
gen_step (ti_id sync) (ti_id sync) OP_TYPE_SYNC 0x03 ex "@SyncOp" "SyncOp".

Definition gen_transpose_impl (input output : TensorInfo) : Plan * Counters :=
gen_step (ti_id input) (ti_id input) OP_TYPE_COMPUTE 0x03 [1] "Transpose_impl@ff*2.fi.t" "Transpose_impl".

Definition gen_output_slice (output : TensorInfo) : Plan * Counters :=
gen_step (ti_id output) (ti_id output) OP_TYPE_COMPUTE 0x00 [0] "*OutputSlice@ff.s4*3." "OutputSlice".
End generators.

(** * Model descriptors *)

Inductive HtpOpType := Transpose | Reshape | FullyConnected.

Record OpDesc := mkOpDesc {
  d_type : HtpOpType; d_name : string; d_input : Z; d_output : Z; d_weight : Z; d_bias : Z; d_perm : Z;
  d_weight_m : Z; d_weight_k : Z; d_act_ref : Z
}.

Record ModelDesc := mkModel {
  m_input : Z; m_input_batch : Z; m_input_dim0 : Z; m_input_dim1 : Z; m_input_dim2 : Z;
  m_output : Z; m_output_batch : Z; m_output_dim0 : Z; m_output_dim1 : Z; m_output_dim2 : Z;
  m_perm_in : Z; m_perm_out : Z; m_sync : Z; m_input_ncf : Z;
  m_ops : list OpDesc; m_op_names : list string; m_tensor_names : list string
}.

Definition is_type (ty : HtpOpType) (o : OpDesc) : bool :=
  match ty, d_type o with
  | Transpose, Transpose | Reshape, Reshape | FullyConnected, FullyConnected => true
  | _, _ => false
  end.
Definition is_fc : OpDesc -> bool := is_type FullyConnected.

(** The type of the op that follows, in a list that starts with it. *)
Definition next_is (ty : HtpOpType) (rest : list OpDesc) : bool :=
  match rest with [] => false | o :: _ => is_type ty o end.

(** * Expansion of a model into steps *)

(** The steps pushed so far; the next one has the number of steps as its
    index. *)
Definition mk (tid : Z) (ty : OpRecordType) (f2 block : Z) (ex : list Z) (kernel step : string)
    (l : list ScheduledOp) : list ScheduledOp :=
  l ++ [mkOp (compute_record_id (Z.of_nat (length l))) tid ty f2 block ex kernel step].

Section general.
Context (model : ModelDesc).

Definition standalone (ty : HtpOpType) : bool :=
match m_ops model with [o] => is_type ty o | _ => false end.

Definition fc_count : Z := Z.of_nat (length (filter (fun o => is_fc o = true) (m_ops model))).

(** A transpose with a fully connected op somewhere after it. *)
Fixpoint transpose_then_fc (l : list OpDesc) : bool :=
match l with
| [] => false
| o :: l => (is_type Transpose o && existsb is_fc l) || transpose_then_fc l
end.

Definition has_transpose_before_fc : bool :=
transpose_then_fc (m_ops model) && negb (standalone Transpose).

(** The transfers announced for an op, from its neighbours. *)
Definition dma_of (prev_was_fc : bool) (o : OpDesc) (rest : list OpDesc) : Z :=
match d_type o with
| FullyConnected =>
    (if prev_was_fc then 0 else 1)
    + (if next_is Reshape rest then 2 else 1)
    + (if has_transpose_before_fc && negb prev_was_fc then 1 else 0)
| Transpose => if standalone Transpose then 1 else 0
| Reshape => 0
end.

Fixpoint count_dma (prev_was_fc : bool) (l : list OpDesc) (n : Z) : Z :=
match l with
| [] => n
| o :: l => count_dma (is_fc o) l (u32 (n + dma_of prev_was_fc o l))
end.

Definition n_dma : Z := count_dma false (m_ops model) 0.

Definition is_base : Z :=
u32 (u32 (0x15 + u32 (5 * (u32 (n_dma + 1) / 2))) + (if has_transpose_before_fc then 2 else 0)).

Definition perm_in_delta : Z :=
6 + (if 0 <? n_dma then 3 else 0) + (if 3 <=? n_dma then 1 else 0) + (if 4 <=? n_dma then 5 else 0).

Definition blk_off (offset : Z) : Z := Z.lor 0x1000 (u32 (i32 is_base + offset)).

Definition compute_base : Z := if has_transpose_before_fc then 0x14 else 0x10.
Definition dma_base : Z := u32 (compute_base + u32 (fc_count * 2)).

Definition layout_off : Z :=
if standalone Transpose then 5 else if has_transpose_before_fc then 8 else 4.

(** The steps, the counter of the transfers and the index of the next fully
    connected op. *)
Record Gen := mkGen { g_ops : list ScheduledOp; dma_counter : Z; fc_index : Z }.

Definition emit (f : list ScheduledOp -> list ScheduledOp) (g : Gen) : Gen :=
mkGen (f (g_ops g)) (dma_counter g) (fc_index g).

(** A transfer, whose extras start with the counter. *)
Definition emit_dma (tid tag block : Z) (ex : list Z) (step : string) (g : Gen) : Gen :=
let dc := dma_counter g in
mkGen (mk tid OP_TYPE_DMA tag block (dc :: u32 (dc + 1) :: ex) "@DmaCheckpointSet" step (g_ops g))
  (u32 (dc + 1)) (fc_index g).

Definition general_reshape (o : OpDesc) (rest : list OpDesc) (g : Gen) : Gen :=
if standalone Reshape then
  emit (mk (d_output o) OP_TYPE_COMPUTE 0x03 (blk_off 1) [m_output model; 4; 3; 3] "" "reshape_compute")
    (emit (mk (d_input o) OP_TYPE_COMPUTE 0x02 (blk_off 3) [1] "" "reshape_prep") g)
else if next_is FullyConnected rest then
  emit (mk (d_output o) OP_TYPE_COMPUTE 0x12 (blk_off (if has_transpose_before_fc then -7 else -5))
          [3; Z.lor 0x80000000 (d_output o); 0xCCCC0001; 0x40001000; 4; 0x00030008] "" "fc_prep")
    (emit (mk (d_output o) OP_TYPE_COMPUTE 0x11 (blk_off 2)
            [3; Z.lor 0x80000000 (u32 (d_output o - 1)); 0xCCCC0001; 0x40001000; 0x19; 0x0003000C]
            "flat_from_vtcm@ff.Ff." "flat_from_vtcm") g)
else
  let mot := m_output model in
  emit_dma (d_output o) 0x1A (blk_off 5)
    [u32 (mot + 2); u32 (mot + 3); u32 (mot - 3); 0; 2; 0x00020004] "DmaCheckpointSet(out_ncf)"
    (emit (mk (d_input o) OP_TYPE_COMPUTE 0x1A (blk_off 4) [3; 3; 0x00030010]
            "flat_from_vtcm@ff.Ff." "flat_from_vtcm") g).

Definition general_transpose (o : OpDesc) (g : Gen) : Gen :=
if standalone Transpose then
  let tid := u32 (d_output o + 1) in
  emit_dma tid 0x11 (blk_off 3) [tid; u32 (tid + 1); u32 (tid + 2); 2; 2; 0x00010000] "DmaCheckpointSet"
    (emit (mk (d_output o) OP_TYPE_COMPUTE 0x12 (blk_off (-5))
            [3; Z.lor 0x80000000 (d_output o); 0xCCCC0001; 0x40001000; 4; 0x00020000] "" "fc_prep")
      (emit (mk (d_output o) OP_TYPE_COMPUTE 0x11 (blk_off 2)
              [3; Z.lor 0x80000000 (m_input_ncf model); 0xCCCC0001; 0x40001000; 0x19; 0x00020004]
              "flat_from_vtcm@ff.Ff." "flat_from_vtcm") g))
else g.

(** The transfers of the weights, unless the op before has loaded them. *)
Definition fc_weights (prev_is_fc : bool) (o : OpDesc) (g : Gen) : Gen :=
let w := d_weight o in
let b := d_bias o in
if prev_is_fc then g
else if has_transpose_before_fc then
  emit_dma b 0x11 (blk_off 6) [u32 (b + 2); 0; 5; 0x00020004] "DmaCheckpointSet(b)"
    (emit_dma w 0x11 (blk_off 3)
       [w; b; d_output o; 2; Z.lor 0x80000000 w; 0x40001100; m_input_dim1 model; m_input_dim0 model; 0x00010000]
       "DmaCheckpointSet(W)" g)
else emit_dma w 0x02 (blk_off 2) [u32 (w + 1); 0; 1; 0x00020004] "DmaCheckpointSet(W)" g.

(** The two multiplications. *)
Definition fc_matmuls (prev_is_fc : bool) (o : OpDesc) (g : Gen) : Gen :=
let phase := u32 (compute_base + u32 (fc_index g * 2)) in
let act := if negb (d_act_ref o =? 0) then d_act_ref o
           else if has_transpose_before_fc then u32 (d_output o - 1) else m_input_ncf model in
let k_dim := if has_transpose_before_fc then m_input_dim0 model else d_weight_k o in
let bias := if has_transpose_before_fc then d_output o
            else if prev_is_fc then u32 (d_output o + 1) else d_weight o in
emit (mk (d_input o) OP_TYPE_COMPUTE (u32 (phase + 1)) 0
        [0; Z.lor 0x80000000 bias; 0xCCCC0001; 0x40001000; d_weight_m o;
         if prev_is_fc then 0x0003000C else 0x00030004] "MatMul_bias@ff*4" "MatMul_bias(+b)")
  (emit (mk (d_input o) OP_TYPE_COMPUTE phase 0
          [0; Z.lor 0x80000000 act; 0xCCCC0001; 0x40001100; d_weight_m o; k_dim;
           if prev_is_fc then 0x00030008 else 0x00030000] "MatMul_bias@ff*4" "MatMul_bias(xW)") g).

(** The transfer of the result. *)
Definition fc_output (prev_is_fc : bool) (o : OpDesc) (rest : list OpDesc) (g : Gen) : Gen :=
let tag := u32 (dma_base + u32 (fc_index g * 2)) in
let out := d_output o in
let mot := m_output model in
if next_is Reshape rest then
  emit_dma out tag (blk_off (-8))
    [u32 (mot - 1); mot; u32 (mot + 1); 0; Z.lor 0x80000000 (u32 (mot - 2)); 0x40001100; m_input_dim1 model;
     d_weight_m o; 0x00020008] "DmaCheckpointSet(out_fc)" g
else if next_is FullyConnected rest then
  emit_dma out tag (blk_off (-2))
    [out; u32 (out + 1); u32 (out + 2); 0; Z.lor 0x80000000 (d_input o); 0x40001100; 3; 2; 0x00020008]
    "DmaCheckpointSet(inter)" g
else
  let tid := if prev_is_fc then u32 (mot + 1) else out in
  emit_dma out tag (blk_off (-1))
    [tid; u32 (tid + 1); u32 (tid + 2); 0; 2; if prev_is_fc then 0x00020004 else 0x00020008]
    "DmaCheckpointSet(out)" g.

Definition general_fc (prev_is_fc : bool) (o : OpDesc) (rest : list OpDesc) (g : Gen) : Gen :=
let g := fc_output prev_is_fc o rest (fc_matmuls prev_is_fc o (fc_weights prev_is_fc o g)) in
mkGen (g_ops g) (dma_counter g) (u32 (fc_index g + 1)).

Definition general_op (prev_is_fc : bool) (o : OpDesc) (rest : list OpDesc) (g : Gen) : Gen :=
match d_type o with
| Reshape => general_reshape o rest g
| Transpose => general_transpose o g
| FullyConnected => general_fc prev_is_fc o rest g
end.

Fixpoint general_ops (prev_is_fc : bool) (l : list OpDesc) (g : Gen) : Gen :=
match l with
| [] => g
| o :: l => general_ops (is_fc o) l (general_op prev_is_fc o l g)
end.

Definition has_input_transpose : bool := existsb (is_type Transpose) (m_ops model).

(** Both tests of the code come to this: some op is a transpose or fully
    connected. *)
Definition has_dma : bool := existsb (fun o => is_fc o || is_type Transpose o) (m_ops model).

Definition input_steps : list ScheduledOp :=
let input_flag := if has_input_transpose then 0x00010020 else 0x00010000 in
let in_hash := htp_shape_hash [1; m_input_batch model; m_input_dim0 model; m_input_dim1 model] in
let l := mk 0 OP_TYPE_COMPUTE 0x82D28377 0x00001003 [1; 0; 0; 0; 0] "" "InputNodeSetup" [] in
let l := mk 0 OP_TYPE_COMPUTE in_hash 0x00001003 [1; 1; 1; m_input_dim0 model; m_input_dim1 model]
           "" "InputNodeSetup" l in
let l := mk (m_input model) OP_TYPE_COMPUTE 0x02 (blk_off 0) [3; 3; 4; 3; 4; 4; 2; 1; input_flag]
           "*InputSlice@Ff.s4*6." "InputSlice" l in
let l := mk (m_perm_in model) OP_TYPE_MEMORY 0x02 (blk_off perm_in_delta) [0; 1] "" "perm_load" l in
if has_dma then mk 3 OP_TYPE_MEMORY 0x02 (blk_off layout_off) [2; 1] "" "layout_convert" l else l.

Definition output_steps (l : list ScheduledOp) : list ScheduledOp :=
let l :=
  if has_dma then
    let out_hash := htp_shape_hash [1; m_output_batch model; m_output_dim0 model; m_output_dim1 model] in
    let l := mk 0 OP_TYPE_COMPUTE out_hash 0x00001003 [1; 1; 1; m_output_dim0 model; m_output_dim1 model]
               "" "OutputNodeSetup" l in
    let n_steps := u32 (u32 (Z.of_nat (length l)) + 4) in
    mk (m_sync model) OP_TYPE_SYNC 0x03 (blk_off 1)
      [u32 (n_dma + 2); u32 (n_steps - 5); u32 (n_steps - 4); 3; 3] "@SyncOp" "SyncOp" l
  else l in
let l := mk (m_perm_in model) OP_TYPE_MEMORY 0x03 (blk_off (perm_in_delta + 1)) [0; 1] "" "perm_load" l in
let l := mk 3 OP_TYPE_COMPUTE 0x03 (blk_off (perm_in_delta + 1 - 3)) [1] "Transpose_impl@ff*2.fi.t"
           "Transpose_impl" l in
mk (m_output model) OP_TYPE_COMPUTE 0x00 (blk_off (perm_in_delta + 1 - 3 + 1)) [0] "*OutputSlice@ff.s4*3."
  "OutputSlice" l.

Definition schedule_general : Plan :=
let g := general_ops false (m_ops model) (mkGen input_steps 2 0) in
mkPlan (output_steps (g_ops g)) KernelSelector.get_kernel_table (m_op_names model) (m_tensor_names model) [] [].
End general.

(** * The frozen plan *)

Definition golden_steps : list ScheduledOp :=
  let blk := Z.lor 0x1000 in
  let C := OP_TYPE_COMPUTE in
  let M := OP_TYPE_MEMORY in
  let D := OP_TYPE_DMA in
  let set := "@DmaCheckpointSet"%string in
  foldl (fun l step => step l) []
    [mk 0 C 0x82D28377 0x00001003 [1;0;0;0;0] "" "InputNodeSetup";
     mk 0 C 0x9DCAC54A 0x00001003 [1;1;1;4;3] "" "InputNodeSetup";
     mk 1 C 0x02 (blk 0x21) [3;3;4;3;4;4;2;1;0x00010020] "*InputSlice@Ff.s4*6." "InputSlice";
     mk 2 M 0x02 (blk 0x30) [0;1] "" "perm_load";
     mk 3 M 0x02 (blk 0x29) [2;1] "" "layout_convert";
     mk 4 C 0x11 (blk 0x23) [3;0x80000003;0xCCCC0001;0x40001000;0x19;0x0003000C] "flat_from_vtcm@ff.Ff." "flat_from_vtcm";
     mk 4 C 0x12 (blk 0x1A) [3;0x80000004;0xCCCC0001;0x40001000;4;0x00030008] "" "fc_prep";
     mk 5 D 0x11 (blk 0x24) [2;3;5;6;7;2;0x80000005;0x40001100;3;4;0x00010000] set "DmaCheckpointSet(W)";
     mk 6 D 0x11 (blk 0x27) [3;4;8;0;5;0x00020004] set "DmaCheckpointSet(b)";
     mk 4 C 0x14 0x00000000 [0;0x80000006;0xCCCC0001;0x40001100;2;4;0x00030000] "MatMul_bias@ff*4" "MatMul_bias(xW)";
     mk 4 C 0x15 0x00000000 [0;0x80000007;0xCCCC0001;0x40001000;2;0x00030004] "MatMul_bias@ff*4" "MatMul_bias(+b)";
     mk 7 D 0x16 (blk 0x19) [4;5;9;10;11;0;0x80000008;0x40001100;3;2;0x00020008] set "DmaCheckpointSet(out_fc)";
     mk 4 C 0x1A (blk 0x25) [3;3;0x00030010] "flat_from_vtcm@ff.Ff." "flat_from_vtcm";
     mk 8 D 0x1A (blk 0x26) [5;6;12;13;7;0;2;0x00020004] set "DmaCheckpointSet(out_ncf)";
     mk 0 C 0x9BCA6304 0x00001003 [1;1;1;2;3] "" "OutputNodeSetup";
     mk 9 OP_TYPE_SYNC 0x03 (blk 0x22) [6;14;15;3;3] "@SyncOp" "SyncOp";
     mk 2 M 0x03 (blk 0x31) [0;1] "" "perm_load";
     mk 3 C 0x03 (blk 0x2E) [1] "Transpose_impl@ff*2.fi.t" "Transpose_impl";
     mk 10 C 0x00 (blk 0x2F) [0] "*OutputSlice@ff.s4*3." "OutputSlice"].

Definition schedule_simple_linear (tensors : list TensorInfo) (op_names : list string) : Plan :=
  mkPlan golden_steps KernelSelector.get_kernel_table op_names ["output"; "input"]%string tensors [].

(** The descriptor of the simple linear model, of input [d0 x d1]. *)
Definition simple_linear : ModelDesc :=
  mkModel 1 1 4 3 0 10 1 2 3 0 2 9 9 3
    [mkOpDesc Transpose "input_ncf" 1 3 0 0 2 0 0 0;
     mkOpDesc Reshape "pre_reshape" 3 4 0 0 0 0 0 0;
     mkOpDesc FullyConnected "MatMul_0" 4 7 5 6 0 2 4 0;
     mkOpDesc Reshape "post_reshape" 4 8 0 0 0 0 0 0]
    ["MatMul_0_post_reshape_transpose"; "MatMul_0_post_reshape"; "MatMul_0"; "MatMul_0_pre_reshape"; "input_ncf"]%string
    ["output"; "input"]%string.


(** * Record numbers *)

Lemma record_id_mod i : 0 <= i -> compute_record_id i = compute_record_id (i mod 32).
Proof.
  intros Hi. unfold compute_record_id.
  assert (forall k, Z.land (u32 (0x11 + u32 (2 * k))) 0x1F = (0x11 + 2 * k) mod 32) as Hb.
  { intros k. change 0x1F with (Z.ones 5). rewrite Z.land_ones by lia. unfold wrap. change (2 ^ 5) with 32.
    assert (32 | 2 ^ 32) as Hd by (by exists (2 ^ 27)).
    rewrite Z.mod_mod_divide by done. rewrite <-Z.add_mod_idemp_r by lia.
    rewrite Z.mod_mod_divide by done. by rewrite Z.add_mod_idemp_r. }
  rewrite !Hb.
  assert (i mod 32 mod 2 = i mod 2) as -> by (apply Z.mod_mod_divide; exists 16; lia).
  assert ((0x11 + 2 * (i mod 32 / 2)) mod 32 = (0x11 + 2 * (i / 2)) mod 32) as ->; [|done].
  replace (i / 2) with (i mod 32 / 2 + (i / 32) * 16).
  - replace (17 + 2 * (i mod 32 / 2 + i / 32 * 16)) with (17 + 2 * (i mod 32 / 2) + i / 32 * 32) by lia.
    by rewrite Z.mod_add.
  - rewrite <-Z.div_add by lia. f_equal. pose proof (Z.div_mod i 32). lia.
Qed.

Lemma record_id_small i j :
  0 <= i < 32 -> 0 <= j < 32 -> compute_record_id i = compute_record_id j -> i = j.
Proof.
  intros Hi Hj E.
  assert (forallb (fun i => forallb (fun j => implb (compute_record_id i =? compute_record_id j) (i =? j))
    (seqZ 0 32)) (seqZ 0 32) = true) as Hall by (by vm_compute).
  rewrite forallb_forall in Hall. specialize (Hall i). rewrite <-list_elem_of_In, elem_of_seqZ in Hall.
  specialize (Hall ltac:(lia)). rewrite forallb_forall in Hall. specialize (Hall j).
  rewrite <-list_elem_of_In, elem_of_seqZ in Hall. specialize (Hall ltac:(lia)).
  rewrite E, Z.eqb_refl in Hall. by apply Z.eqb_eq in Hall.
Qed.

(** Record numbers repeat after 32 steps and not before. *)
Lemma record_id_inj i j :
  0 <= i -> 0 <= j -> compute_record_id i = compute_record_id j <-> i mod 32 = j mod 32.
Proof.
  intros Hi Hj. rewrite (record_id_mod i Hi), (record_id_mod j Hj). split; [|by intros ->].
  apply record_id_small; by apply Z.mod_pos_bound.
Qed.

Definition numbered (l : list ScheduledOp) : Prop :=
  forall i o, l !! i = Some o -> record_id o = compute_record_id (Z.of_nat i).

Lemma numbered_mk tid ty f b ex kernel step l :
  numbered l -> numbered (mk tid ty f b ex kernel step l).
Proof.
  intros Hl i o [Hi|[Hi Ho]]%lookup_app_Some; [by apply Hl|].
  apply list_lookup_singleton_Some in Ho as [Hi' <-]. cbn. do 2 f_equal. lia.
Qed.

(** * The transfers of an expanded model *)

Definition is_kind (ty : OpRecordType) (o : ScheduledOp) : bool := bool_decide (so_type o = ty).

(** The first two extras of each transfer: its checkpoint and the next. *)
Definition dma_heads (l : list ScheduledOp) : list (list Z) :=
  (fun o => take 2 (extras o)) <$> filter (fun o => is_kind OP_TYPE_DMA o = true) l.

Definition checkpoints (n : Z) : list (list Z) := (fun k => [k; k + 1]) <$> seqZ 2 n.

Definition syncs (l : list ScheduledOp) : list (list Z) :=
  extras <$> filter (fun o => is_kind OP_TYPE_SYNC o = true) l.

Lemma dma_heads_other tid ty f b ex kernel step l :
  ty <> OP_TYPE_DMA -> dma_heads (mk tid ty f b ex kernel step l) = dma_heads l.
Proof.
  intros Hty. unfold dma_heads, mk. rewrite filter_app, fmap_app. cbn. unfold is_kind. cbn.
  rewrite bool_decide_false by done. cbn. by rewrite app_nil_r.
Qed.

Lemma syncs_other tid ty f b ex kernel step l :
  ty <> OP_TYPE_SYNC -> syncs (mk tid ty f b ex kernel step l) = syncs l.
Proof.
  intros Hty. unfold syncs, mk. rewrite filter_app, fmap_app. cbn. unfold is_kind. cbn.
  rewrite bool_decide_false by done. cbn. by rewrite app_nil_r.
Qed.

Lemma syncs_sync tid f b ex kernel step l : syncs (mk tid OP_TYPE_SYNC f b ex kernel step l) = syncs l ++ [ex].
Proof. unfold syncs, mk. by rewrite filter_app, fmap_app. Qed.

Lemma length_mk tid ty f b ex kernel step l : length (mk tid ty f b ex kernel step l) = S (length l).
Proof. unfold mk. rewrite length_app. cbn. lia. Qed.

Lemma checkpoints_snoc n : 0 <= n -> checkpoints (n + 1) = checkpoints n ++ [[2 + n; 2 + n + 1]].
Proof. intros Hn. unfold checkpoints. rewrite seqZ_app by lia. by rewrite fmap_app. Qed.

(** The steps of a loop that has emitted [n] transfers. *)
Record gen_ok (n : Z) (g : Gen) : Prop := {
  go_count : 0 <= n;
  go_counter : dma_counter g = 2 + n;
  go_heads : dma_heads (g_ops g) = checkpoints n;
  go_syncs : syncs (g_ops g) = [];
  go_numbered : numbered (g_ops g);
  go_length : (4 <= length (g_ops g))%nat
}.

Lemma gen_ok_emit n g tid ty f b ex kernel step :
  gen_ok n g -> ty <> OP_TYPE_DMA -> ty <> OP_TYPE_SYNC -> gen_ok n (emit (mk tid ty f b ex kernel step) g).
Proof.
  intros [? ? ? ? ? ?] Hd Hs. split; cbn [g_ops dma_counter emit]; [done|done|by rewrite dma_heads_other|by rewrite syncs_other|
    by apply numbered_mk|rewrite length_mk; lia].
Qed.

Lemma gen_ok_dma n g tid tag b ex step :
  gen_ok n g -> n + 3 < 2 ^ 32 -> gen_ok (n + 1) (emit_dma tid tag b ex step g).
Proof.
  intros [Hn Hc Hh Hs Hnum Hl] Hb. unfold emit_dma. rewrite Hc.
  assert (u32 (2 + n + 1) = 2 + n + 1) as -> by (apply wrap_id; lia).
  split; cbn [g_ops dma_counter]; [lia|lia| |by rewrite syncs_other|by apply numbered_mk|rewrite length_mk; lia].
  rewrite checkpoints_snoc, <-Hh by done. unfold dma_heads, mk. by rewrite filter_app, fmap_app.
Qed.

Lemma gen_ok_next n g v : gen_ok n g -> gen_ok n (mkGen (g_ops g) (dma_counter g) v).
Proof. by intros [? ? ? ? ? ?]. Qed.

Create HintDb plan.
#[export] Hint Resolve gen_ok_emit gen_ok_dma gen_ok_next : plan.
#[export] Hint Extern 1 (_ <> _) => done : plan.
#[export] Hint Extern 1 (_ < _) => lia : plan.

Section checkpoint_chain.
Context (model : ModelDesc).

(** The transfer of a result that the reshape after the op still has to
    emit. *)
Definition pending (prev_is_fc : bool) (l : list OpDesc) : Z :=
if prev_is_fc && next_is Reshape l then 1 else 0.

(** A reshape among other ops stands before or after a fully connected op,
    not between two and not apart. *)
Fixpoint regular_from (prev_is_fc : bool) (l : list OpDesc) : bool :=
match l with
| [] => true
| o :: l =>
    (negb (is_type Reshape o) || standalone model Reshape || xorb prev_is_fc (next_is FullyConnected l))
    && regular_from (is_fc o) l
end.

Lemma fc_weights_ok (prev : bool) o g n :
gen_ok n g -> n + 4 < 2 ^ 32 ->
gen_ok (n + (if prev then 0 else 1) + (if has_transpose_before_fc model && negb prev then 1 else 0))
  (fc_weights model prev o g).
Proof.
intros Hg Hn. unfold fc_weights. destruct prev; rewrite ?andb_false_r, ?andb_true_r, ?Z.add_0_r; [done|].
case_match; rewrite ?Z.add_0_r; auto with plan.
Qed.

Lemma fc_output_ok prev o rest g n :
gen_ok n g -> n + 4 < 2 ^ 32 -> gen_ok (n + 1) (fc_output model prev o rest g).
Proof. intros. unfold fc_output. repeat case_match; auto with plan. Qed.

Lemma general_op_ok prev o rest g n :
gen_ok (n - pending prev (o :: rest)) g -> n + 6 < 2 ^ 32 ->
(standalone model Reshape = true -> prev = false) ->
negb (is_type Reshape o) || standalone model Reshape || xorb prev (next_is FullyConnected rest) = true ->
gen_ok (n + dma_of model prev o rest - pending (is_fc o) rest) (general_op model prev o rest g).
Proof.
intros Hg Hn Hst Hreg. set (nr := next_is Reshape rest). set (nf := next_is FullyConnected rest) in *.
unfold general_op, dma_of, pending, is_fc in *. cbn [next_is] in Hg. fold nr. unfold is_type in Hreg, Hg |- *.
destruct (d_type o); cbn in Hg, Hreg |- *.
- rewrite andb_false_r in Hg. unfold general_transpose. destruct (standalone model Transpose).
  + replace (n + 1 - 0) with (n - 0 + 1) by lia. auto with plan.
  + by replace (n + 0 - 0) with (n - 0) by lia.
- rewrite andb_true_r in Hg. unfold general_reshape. destruct (standalone model Reshape).
  + rewrite (Hst eq_refl) in Hg. replace (n + 0 - 0) with (n - 0) by lia. auto with plan.
  + fold nf. destruct prev, nf; cbn in Hreg, Hg; try done.
    * replace (n + 0 - 0) with (n - 1 + 1) by lia. auto 6 with plan.
    * replace (n + 0 - 0) with (n - 0) by lia. auto with plan.
- rewrite andb_false_r, Z.sub_0_r in Hg. unfold general_fc. apply gen_ok_next.
  apply (fc_weights_ok prev o) in Hg; [|lia].
  set (a := if prev then 0 else 1) in *. set (b := if has_transpose_before_fc model && negb prev then 1 else 0) in *.
  assert (a <= 1 /\ b <= 1) as [? ?] by (unfold a, b; by repeat case_match).
  match goal with |- gen_ok ?m _ => replace m with (n + a + b + 1) by (case_match; lia) end.
  apply fc_output_ok; [|lia]. unfold fc_matmuls. auto with plan.
Qed.

Lemma count_dma_bounds prev l n :
0 <= n -> n + 4 * Z.of_nat (length l) < 2 ^ 32 ->
n <= count_dma model prev l n <= n + 4 * Z.of_nat (length l).
Proof.
revert prev n. induction l as [|o l IH]; intros prev n Hn Hb; cbn [count_dma length] in *; [lia|].
assert (0 <= dma_of model prev o l <= 4) as Hd by (unfold dma_of; repeat case_match; lia).
rewrite wrap_id by lia. specialize (IH (is_fc o) (n + dma_of model prev o l)). lia.
Qed.

Lemma general_ops_ok l : forall prev n g,
gen_ok (n - pending prev l) g -> n + 4 * Z.of_nat (length l) + 6 < 2 ^ 32 ->
(standalone model Reshape = true -> prev = false /\ Forall (fun o => is_fc o = false) l) ->
regular_from prev l = true -> gen_ok (count_dma model prev l n) (general_ops model prev l g).
Proof.
induction l as [|o l IH]; intros prev n g Hg Hb Hst Hreg; cbn [count_dma general_ops regular_from length] in *.
{ unfold pending in Hg. cbn in Hg. by rewrite andb_false_r, Z.sub_0_r in Hg. }
apply andb_true_iff in Hreg as [Hreg Hregs].
assert (0 <= dma_of model prev o l <= 4) as Hd by (unfold dma_of; repeat case_match; lia).
assert (0 <= n) as Hn by (pose proof (go_count _ _ Hg); unfold pending in *; case_match; lia).
rewrite wrap_id by lia. apply IH; [|lia| |done].
- apply general_op_ok; [done|lia|by intros [? _]%Hst|done].
- intros Hs. destruct (Hst Hs) as [_ Hl]. by inversion Hl.
Qed.

Definition regular : bool := regular_from false (m_ops model).

Lemma input_steps_ok : gen_ok 0 (mkGen (input_steps model) 2 0).
Proof.
unfold input_steps.
set (l := mk (m_perm_in model) _ _ _ _ _ _ _).
assert (gen_ok 0 (mkGen l 2 0)) as Hl.
{ split; cbn [g_ops dma_counter]; unfold l; [done|done|done|done| |rewrite !length_mk; cbn; lia].
  repeat apply numbered_mk. by intros i o ?. }
case_match; [|done]. by apply (gen_ok_emit 0 (mkGen l 2 0)).
Qed.

Lemma general_op_length prev o rest g :
(length (g_ops (general_op model prev o rest g)) <= length (g_ops g) + 6)%nat.
Proof.
unfold general_op, general_reshape, general_transpose, general_fc, fc_output, fc_weights, fc_matmuls, emit_dma, emit.
repeat case_match; cbn [g_ops dma_counter fc_index]; rewrite ?length_mk; lia.
Qed.

Lemma general_ops_length l : forall prev g,
(length (g_ops (general_ops model prev l g)) <= length (g_ops g) + 6 * length l)%nat.
Proof.
induction l as [|o l IH]; intros prev g; cbn [general_ops length]; [lia|].
specialize (IH (is_fc o) (general_op model prev o l g)). pose proof (general_op_length prev o l g). lia.
Qed.

Lemma output_steps_ok n g :
gen_ok n g -> n = n_dma model -> n + 4 < 2 ^ 32 -> Z.of_nat (length (g_ops g)) + 8 < 2 ^ 32 ->
let steps := output_steps model (g_ops g) in
numbered steps /\ dma_heads steps = checkpoints (n_dma model) /\
syncs steps = if has_dma model
              then [[n_dma model + 2; Z.of_nat (length steps) - 5; Z.of_nat (length steps) - 4; 3; 3]] else [].
Proof.
intros [Hn _ Hh Hs Hnum Hl] -> Hb Hlen. cbv zeta. unfold output_steps. destruct (has_dma model).
- set (l := mk 0 _ _ _ _ _ _ (g_ops g)).
  assert (length l = S (length (g_ops g))) as Hl1 by apply length_mk.
  split; [by repeat apply numbered_mk|]. split; [by unfold l; rewrite !dma_heads_other by done|].
  rewrite !(syncs_other _ OP_TYPE_COMPUTE), (syncs_other _ OP_TYPE_MEMORY), syncs_sync by done.
  assert (syncs l = []) as -> by (unfold l; by rewrite syncs_other). rewrite !length_mk, Hl1. cbn [app].
  rewrite (wrap_id _ (Z.of_nat _)), (wrap_id _ (_ + 4)), !wrap_id by lia. repeat f_equal; lia.
- split; [by repeat apply numbered_mk|]. split; [by rewrite !dma_heads_other|]. by rewrite !syncs_other.
Qed.
Lemma standalone_reshape_plain : standalone model Reshape = true -> Forall (fun o => is_fc o = false) (m_ops model).
Proof.
unfold standalone. destruct (m_ops model) as [|o [|]]; try done. intros Ho. constructor; [|done].
unfold is_fc, is_type in *. by destruct (d_type o).
Qed.

Lemma schedule_general_ok :
regular = true -> Z.of_nat (length (m_ops model)) < 2 ^ 28 ->
let steps := ops (schedule_general model) in
numbered steps /\ dma_heads steps = checkpoints (n_dma model) /\
syncs steps = if has_dma model
              then [[n_dma model + 2; Z.of_nat (length steps) - 5; Z.of_nat (length steps) - 4; 3; 3]] else [].
Proof.
intros Hreg Hlen. apply (output_steps_ok (n_dma model)); [|done|..].
- apply general_ops_ok; [apply input_steps_ok|lia| |done]. intros Hs. split; [done|]. by apply standalone_reshape_plain.
- pose proof (count_dma_bounds false (m_ops model) 0). unfold n_dma. lia.
- pose proof (general_ops_length (m_ops model) false (mkGen (input_steps model) 2 0)) as Hl. cbn [g_ops] in Hl.
  assert (length (input_steps model) <= 5)%nat by (unfold input_steps; case_match; rewrite !length_mk; cbn; lia).
  lia.
Qed.
End checkpoint_chain.

(** * Blocks *)

(** Distinct tensors have distinct blocks, all of them handed out. *)
Record blocks_ok (s : Counters) : Prop := {
  bo_inj t1 t2 b : tensor_block_map s !! t1 = Some b -> tensor_block_map s !! t2 = Some b -> t1 = t2;
  bo_range t b : tensor_block_map s !! t = Some b -> 0x19 <= b < next_vtcm_block s;
  bo_next : 0x19 <= next_vtcm_block s
}.

Lemma alloc_vtcm_block_ok tid s :
  blocks_ok s -> next_vtcm_block s + 1 < 2 ^ 32 ->
  let '(b, s') := alloc_vtcm_block tid s in
  blocks_ok s' /\ tensor_block_map s' !! tid = Some b /\ tensor_block_map s ⊆ tensor_block_map s' /\
  next_vtcm_block s <= next_vtcm_block s' <= next_vtcm_block s + 1.
Proof.
  intros [Hi Hr Hn] Hb. unfold alloc_vtcm_block. destruct (tensor_block_map s !! tid) as [b|] eqn:E.
  { split; [done|]. split; [done|]. split; [done|lia]. }
  rewrite (wrap_id 32) by lia. cbn. rewrite lookup_insert_eq.
  split; [|split; [done|split; [by apply insert_subseteq|lia]]]. split; cbn; [|intros t b|lia].
  - intros t1 t2 b. rewrite !lookup_insert_Some. intros [[<- <-]|[? H1]] [[<- ?]|[? H2]]; try done; [| |by eapply Hi].
    + apply Hr in H2. lia.
    + subst. apply Hr in H1. lia.
  - rewrite lookup_insert_Some. intros [[<- <-]|[? H1]]; [lia|]. apply Hr in H1. lia.
Qed.

(** * Transfers of the CP allocation *)

Record VtcmAllocEntry := mkVtcmAlloc { va_offset : Z; va_block : Z; va_spilled : bool }.

Record Insertion := mkIns { at_pos : nat; is_fill : bool; ins_op : ScheduledOp }.

Section cp.
Context (allocs : gmap op_id_t VtcmAllocEntry).

(** The first and the last step of a tensor. *)
Definition first_step_of (l : list ScheduledOp) (tid : Z) : option nat :=
fst <$> list_find (fun o => so_tensor o = tid) l.

Definition last_step_of (l : list ScheduledOp) (tid : Z) : option nat :=
(fun '(i, _) => (length l - 1 - i)%nat) <$> list_find (fun o => so_tensor o = tid) (reverse l).

(** The tensor a topological position names, if the plan lists it. *)
Definition anchor (p : Plan) (pos : Z) : option Z :=
if pos <? Z.of_nat (length (tensors p)) then ti_id <$> tensors p !! Z.to_nat pos else None.

Definition block_of (pl : CPSpillFillPlan) (s : Counters) : Z * Counters :=
match allocs !! pl_op pl with
| Some a => if va_spilled a then alloc_vtcm_block (u32 (pl_op pl)) s else (va_block a, s)
| None => alloc_vtcm_block (u32 (pl_op pl)) s
end.

Definition take_tag (s : Counters) : Z * Counters :=
let tag := Z.max (next_dma_tag s) 0x20 in
(tag, mkCounters (next_step s) (u32 (tag + 1)) (next_vtcm_block s) (tensor_block_map s)).

(** The spill and the fill of one plan, with their places. *)
Definition cp_pair (p : Plan) (pl : CPSpillFillPlan) (s : Counters) : list Insertion * Counters :=
if pl_size pl =? 0 then ([], s)
else
  let '(block, s) := block_of pl s in
  let block_ref := Z.lor 0x1000 (Z.land block 0xFFF) in
  let '(tag, s) := take_tag s in
  let '(tag2, s) := take_tag s in
  let spill := mkOp 0 (u32 (pl_op pl)) OP_TYPE_DMA tag block_ref
                 [u32 (pl_ddr_offset pl); u32 (pl_vtcm_offset_spill pl); u32 (pl_size pl)]
                 "@DmaCheckpointSet" "CpSpill" in
  let fill := mkOp 0 (u32 (pl_op pl)) OP_TYPE_DMA tag2 block_ref
                [u32 (pl_ddr_offset pl); u32 (pl_vtcm_offset pl); u32 (pl_size pl)]
                "@DmaCheckpointSet" "CpFill" in
  let spill_at := default 0%nat (t ← anchor p (spill_position pl); last_step_of (ops p) t) in
  let fill_at := default (length (ops p)) (t ← anchor p (fill_position pl); first_step_of (ops p) t) in
  let fill_at := if (fill_at <=? spill_at)%nat then S spill_at else fill_at in
  ([mkIns (S spill_at) false spill; mkIns fill_at true fill], s).

Definition cp_pairs (p : Plan) (pls : list CPSpillFillPlan) (s : Counters) : list Insertion * Counters :=
foldl (fun '(ins, s) pl => let '(i, s) := cp_pair p pl s in (ins ++ i, s)) ([], s) pls.

(** Later places first; of two at one place the fill first. *)
Definition ins_lt (a b : Insertion) : bool :=
if (at_pos a =? at_pos b)%nat then is_fill a && negb (is_fill b) else (at_pos b <? at_pos a)%nat.

(** [vector::insert], undefined past the end. *)
Definition insert_op (l : list ScheduledOp) (e : Insertion) : option (list ScheduledOp) :=
if (at_pos e <=? length l)%nat then Some (take (at_pos e) l ++ ins_op e :: drop (at_pos e) l) else None.

Definition renumber (l : list ScheduledOp) : list ScheduledOp :=
imap (fun i => put_record_id (compute_record_id (u32 (Z.of_nat i)))) l.

Definition apply_cp_spill_fill (cp_active : bool) (pls : list CPSpillFillPlan) (p : Plan) (s : Counters)
    : option (Plan * Counters) :=
if negb cp_active || bool_decide (pls = []) then Some (p, s)
else
  let '(ins, s) := cp_pairs p pls s in
  l ← foldM insert_op (std_sort ins_lt ins) (ops p);
  Some (set_ops (renumber l) p, s).
End cp.

(** ** Insertion from the back *)

Definition strip (l : list ScheduledOp) : list ScheduledOp := put_record_id 0 <$> l.

Lemma strip_renumber l : strip (renumber l) = strip l.
Proof.
  unfold strip, renumber. apply list_eq. intros i. rewrite !list_lookup_fmap, list_lookup_imap.
  by destruct (l !! i).
Qed.

Lemma renumber_numbered l : Z.of_nat (length l) < 2 ^ 32 -> numbered (renumber l).
Proof.
  intros Hl i o. unfold renumber. rewrite list_lookup_imap.
  intros (x & Hx & ->)%fmap_Some. apply lookup_lt_Some in Hx. cbn. by rewrite wrap_id by lia.
Qed.

Lemma ins_lt_asym a b : ins_lt a b = true -> ins_lt b a = false.
Proof.
  unfold ins_lt. rewrite (Nat.eqb_sym (at_pos b)). destruct (Nat.eqb_spec (at_pos a) (at_pos b)).
  - destruct (is_fill a), (is_fill b); done.
  - intros H%Nat.ltb_lt. apply Nat.ltb_ge. lia.
Qed.

Lemma ins_lt_trans a b c : ins_lt b a = false -> ins_lt c b = false -> ins_lt c a = false.
Proof.
  unfold ins_lt. intros H1 H2.
  destruct (Nat.eqb_spec (at_pos b) (at_pos a)), (Nat.eqb_spec (at_pos c) (at_pos b)),
    (Nat.eqb_spec (at_pos c) (at_pos a)); rewrite ?Nat.ltb_ge in *; try lia.
  by destruct (is_fill a), (is_fill b), (is_fill c).
Qed.

(** Inserting at falling places: nothing is lost, the later insertions come
    first, and each one stands at its place among the old steps. *)
Lemma inserts_ok base ins : forall lim T,
  (lim <= length base)%nat -> drop lim base `sublist_of` T ->
  (forall e, e ∈ ins -> (at_pos e <= lim)%nat) -> StronglySorted (fun a b => at_pos b <= at_pos a)%nat ins ->
  exists a T', foldM insert_op ins (take lim base ++ T) = Some (take a base ++ T') /\
    take lim base ++ T `sublist_of` take a base ++ T' /\
    take a base ++ T' ≡ₚ (ins_op <$> ins) ++ take lim base ++ T /\
    (ins_op <$> reverse ins) ++ T `sublist_of` T' /\
    forall e, e ∈ ins -> take (at_pos e) base ++ ins_op e :: drop (at_pos e) base `sublist_of` take a base ++ T'.
Proof.
  induction ins as [|e ins IH]; intros lim T Hlim Hdrop Hat Hs; cbn [foldM].
  { exists lim, T. split_and!; try done. by intros e ?%not_elem_of_nil. }
  apply StronglySorted_cons in Hs as [Hle Hs].
  assert (at_pos e <= lim)%nat as He by (apply Hat; left).
  set (T1 := ins_op e :: drop (at_pos e) (take lim base) ++ T).
  assert (insert_op (take lim base ++ T) e = Some (take (at_pos e) base ++ T1)) as ->.
  { unfold insert_op. destruct (Nat.leb_spec (at_pos e) (length (take lim base ++ T))) as [_|Hgt];
      [|rewrite length_app, length_take in Hgt; lia].
    rewrite take_app_le, drop_app_le by (rewrite length_take; lia). by rewrite take_take, Nat.min_l by lia. }
  assert (drop (at_pos e) base `sublist_of` drop (at_pos e) (take lim base) ++ T) as Hd.
  { rewrite <-(take_drop lim base) at 1. rewrite drop_app_le by (rewrite length_take; lia). by apply sublist_app. }
  destruct (IH (at_pos e) T1) as (a & T' & E & Hsub & Hp & Hr & Hall).
  - lia.
  - by apply sublist_cons.
  - intros e' He'. rewrite Forall_forall in Hle. by apply Hle.
  - done.
  - cbn [mbind option_bind]. exists a, T'. split; [exact E|].
    assert (take lim base ++ T = take (at_pos e) base ++ drop (at_pos e) (take lim base) ++ T) as Hcur.
    { rewrite app_assoc. f_equal. rewrite <-(take_drop (at_pos e) (take lim base)) at 1.
      by rewrite take_take, Nat.min_l by lia. }
    split; [|split; [|split]].
    + etrans; [|exact Hsub]. rewrite Hcur. apply sublist_app; [done|]. by apply sublist_cons.
    + rewrite Hp, Hcur. cbn. unfold T1. rewrite !Permutation_middle. solve_Permutation.
    + etrans; [|exact Hr]. rewrite reverse_cons, fmap_app, <-app_assoc. apply sublist_app; [done|]. cbn.
      apply sublist_skip. by apply sublist_inserts_l.
    + intros e' [->|He']%elem_of_cons; [|by apply Hall]. etrans; [|exact Hsub].
      apply sublist_app; [done|]. by apply sublist_skip.
Qed.

(** ** The pairs *)

Lemma list_find_first {A} (P : A -> Prop) `{!forall x, Decision (P x)} l i x :
  list_find P l = Some (i, x) -> (i < length l)%nat /\ forall j y, l !! j = Some y -> P y -> (i <= j)%nat.
Proof.
  intros (Hi & _ & Hn)%list_find_Some. split; [by eapply lookup_lt_Some|]. intros j y Hj Hy.
  destruct (Nat.le_gt_cases i j) as [|Hlt]; [done|]. by destruct (Hn j y Hj Hlt).
Qed.

Lemma list_find_none {A} (P : A -> Prop) `{!forall x, Decision (P x)} l j y :
  list_find P l = None -> l !! j = Some y -> ~ P y.
Proof. intros Hn%list_find_None Hj. rewrite Forall_lookup in Hn. by eapply Hn. Qed.

Definition names (l : list ScheduledOp) (t : Z) (i : nat) : Prop := exists o, l !! i = Some o /\ so_tensor o = t.

Lemma first_step_of_spec l t :
  match first_step_of l t with
  | Some j => (j < length l)%nat /\ forall i, names l t i -> (j <= i)%nat
  | None => forall i, ~ names l t i
  end.
Proof.
  unfold first_step_of. destruct (list_find _ l) as [[j x]|] eqn:E; cbn.
  - apply list_find_first in E as [? Hm]. split; [done|]. intros i (o & Hi & Ho). by eapply Hm.
  - intros i (o & Hi & Ho). by eapply list_find_none in E.
Qed.

Lemma last_step_of_spec l t :
  match last_step_of l t with
  | Some j => (j < length l)%nat /\ forall i, names l t i -> (i <= j)%nat
  | None => forall i, ~ names l t i
  end.
Proof.
  assert (forall i, names l t i -> (i < length l)%nat /\ names (reverse l) t (length l - 1 - i)) as Hrev.
  { intros i (o & Hi & Ho). pose proof (lookup_lt_Some _ _ _ Hi). split; [done|]. exists o.
    rewrite reverse_lookup by lia. by replace (length l - S (length l - 1 - i))%nat with i by lia. }
  unfold last_step_of. destruct (list_find _ (reverse l)) as [[j x]|] eqn:E; cbn.
  - apply list_find_first in E as [Hj Hm]. rewrite length_reverse in Hj. split; [lia|].
    intros i (Hi & o & Hlo & Ho)%Hrev. specialize (Hm _ o Hlo Ho). lia.
  - intros i (Hi & o & Hlo & Ho)%Hrev. by eapply list_find_none in E.
Qed.

(** What the code promises of a spill and its fill. *)
Record pair_ok (p : Plan) (pl : CPSpillFillPlan) (sp fl : Insertion) : Prop := {
  po_order : (at_pos sp <= at_pos fl <= length (ops p))%nat;
  po_kind : is_fill sp = false /\ is_fill fl = true;
  po_tensor : so_tensor (ins_op sp) = u32 (pl_op pl) /\ so_tensor (ins_op fl) = u32 (pl_op pl);
  po_extras : extras (ins_op sp) = [u32 (pl_ddr_offset pl); u32 (pl_vtcm_offset_spill pl); u32 (pl_size pl)] /\
              extras (ins_op fl) = [u32 (pl_ddr_offset pl); u32 (pl_vtcm_offset pl); u32 (pl_size pl)];
  po_block : block_ref (ins_op sp) = block_ref (ins_op fl);
  po_names : step_name (ins_op sp) = "CpSpill"%string /\ step_name (ins_op fl) = "CpFill"%string;
  po_type : so_type (ins_op sp) = OP_TYPE_DMA /\ so_type (ins_op fl) = OP_TYPE_DMA;
  po_head : anchor p (spill_position pl) = None -> at_pos sp = 1%nat;
  po_tail : anchor p (fill_position pl) = None -> at_pos fl = length (ops p);
  po_spill t i : anchor p (spill_position pl) = Some t -> names (ops p) t i -> (i < at_pos sp)%nat;
  po_fill t : anchor p (fill_position pl) = Some t ->
    (forall i, names (ops p) t i -> (at_pos sp <= i)%nat) -> forall i, names (ops p) t i -> (at_pos fl <= i)%nat
}.

Section pairs.
Context (allocs : gmap op_id_t VtcmAllocEntry) (p : Plan) (Hne : ops p <> []).

Lemma cp_pair_ok pl s :
pl_size pl <> 0 ->
exists sp fl, (cp_pair allocs p pl s).1 = [sp; fl] /\ pair_ok p pl sp fl /\
  put_record_id 0 (ins_op sp) = ins_op sp /\ put_record_id 0 (ins_op fl) = ins_op fl.
Proof.
intros Hsz%Z.eqb_neq. unfold cp_pair. rewrite Hsz.
destruct (block_of allocs pl s) as [block s1]. cbn [take_tag].
set (sa := default 0%nat _). set (fa := default (length (ops p)) _).
assert (0 < length (ops p))%nat as Hpos by (destruct (ops p); [done|cbn; lia]).
assert (sa < length (ops p))%nat as Hsa.
{ unfold sa. destruct (anchor p (spill_position pl)) as [t|]; [|done]. cbn.
  pose proof (last_step_of_spec (ops p) t) as H. destruct (last_step_of _ _); [by destruct H|done]. }
assert (fa <= length (ops p))%nat as Hfa.
{ unfold fa. destruct (anchor p (fill_position pl)) as [t|]; [|done]. cbn.
  pose proof (first_step_of_spec (ops p) t) as H. destruct (first_step_of _ _); [destruct H; cbn; lia|done]. }
eexists _, _. split; [done|]. split; [|done]. split; cbn; try done.
- destruct (Nat.leb_spec fa sa); lia.
- unfold sa. by intros ->.
- unfold fa. intros ->. cbn. destruct (Nat.leb_spec (length (ops p)) sa); lia.
- intros t i Ht Hn. unfold sa. rewrite Ht. cbn. pose proof (last_step_of_spec (ops p) t) as H.
  destruct (last_step_of _ _); [|by destruct (H i)]. destruct H as [_ H]. specialize (H i Hn). cbn. lia.
- intros t Ht Hafter i Hn. unfold fa. rewrite Ht. cbn. pose proof (first_step_of_spec (ops p) t) as H.
  specialize (Hafter i Hn) as Hi.
  destruct (first_step_of _ _) as [j|]; [|by destruct (H i)]. destruct H as [_ H]. specialize (H i Hn). cbn.
  destruct (Nat.leb_spec j sa); lia.
Qed.

(** Every insertion belongs to a plan with bytes to move, and every such
    plan has its two insertions. *)
Lemma cp_pairs_ok pls : forall s,
let ins := (cp_pairs allocs p pls s).1 in
(forall e, e ∈ ins -> (at_pos e <= length (ops p))%nat /\ put_record_id 0 (ins_op e) = ins_op e) /\
(forall pl, pl ∈ pls -> pl_size pl <> 0 -> exists sp fl, sp ∈ ins /\ fl ∈ ins /\ pair_ok p pl sp fl) /\
length ins = (2 * length (filter (fun pl => pl_size pl <> 0%Z) pls))%nat.
Proof.
induction pls as [|pl pls IH] using rev_ind; intros s; cbv zeta.
{ cbn. split; [by intros e ?%not_elem_of_nil|]. split; [by intros pl ?%not_elem_of_nil|done]. }
specialize (IH s). cbv zeta in IH. unfold cp_pairs in *. rewrite foldl_app. cbn [foldl].
destruct (foldl _ _ pls) as [ins s1]. cbn [fst] in *. destruct IH as (Hin & Hall & Hlen).
destruct (decide (pl_size pl = 0)) as [Hz|Hz].
- assert (cp_pair allocs p pl s1 = ([], s1)) as -> by (unfold cp_pair; by rewrite Hz). cbn. rewrite app_nil_r.
  split; [done|]. rewrite filter_app, filter_cons_False, app_nil_r by (by intros ?). split; [|done].
  intros q [Hq| ->%list_elem_of_singleton]%elem_of_app; [by apply Hall|done].
- destruct (cp_pair_ok pl s1 Hz) as (sp & fl & E & Hok & Hs & Hf).
  destruct (cp_pair allocs p pl s1) as [i s2]. cbn in E |- *. subst i. split; [|split].
  + intros e [He|He]%elem_of_app; [by apply Hin|].
    pose proof (po_order _ _ _ _ Hok). apply elem_of_cons in He as [->| ->%list_elem_of_singleton]; split; done || lia.
  + intros q [Hq| ->%list_elem_of_singleton]%elem_of_app Hnz.
    * destruct (Hall q Hq Hnz) as (a & b & Ha & Hb & ?). exists a, b. rewrite !elem_of_app. auto.
    * exists sp, fl. rewrite !elem_of_app. split; [right; left|]. split; [right; right; left|done].
  + rewrite filter_app, !length_app, filter_cons_True by done. cbn. lia.
Qed.
End pairs.

Lemma sorted_before {A} (lt : A -> A -> bool) l x y :
  StronglySorted (not_after lt) l -> x ∈ l -> y ∈ l -> lt x y = true -> lt x x = false -> [x; y] `sublist_of` l.
Proof.
  intros Hs (l1 & l2 & ->)%list_elem_of_split Hy Hlt Hirr.
  apply elem_of_app in Hy as [Hy|[->|Hy]%elem_of_cons].
  - apply list_elem_of_split in Hy as (l3 & l4 & ->).
    rewrite <-app_assoc in Hs. apply StronglySorted_app_1_r in Hs. cbn in Hs.
    apply StronglySorted_cons in Hs as [Hs _]. rewrite Forall_forall in Hs.
    specialize (Hs x). cbn in Hs. rewrite Hs in Hlt; [done|]. apply elem_of_app. right. left.
  - congruence.
  - apply sublist_inserts_l. apply sublist_skip. apply list_elem_of_split in Hy as (l3 & l4 & ->).
    apply sublist_inserts_l, sublist_skip, sublist_nil_l.
Qed.

Lemma sublist_reverse {A} (l k : list A) : l `sublist_of` k -> reverse l `sublist_of` reverse k.
Proof. induction 1; rewrite ?reverse_cons; [done|by apply sublist_app|]. by apply sublist_inserts_r. Qed.

Lemma sublist_fmap {A B} (f : A -> B) (l k : list A) : l `sublist_of` k -> f <$> l `sublist_of` f <$> k.
Proof. induction 1; cbn; [done|by apply sublist_skip|by apply sublist_cons]. Qed.

Lemma apply_cp_ok allocs p pls s :
  ops p <> [] -> pls <> [] ->
  let ins := (cp_pairs allocs p pls s).1 in
  exists p' s', apply_cp_spill_fill allocs true pls p s = Some (p', s') /\
    strip (ops p') ≡ₚ (ins_op <$> ins) ++ strip (ops p) /\
    strip (ops p) `sublist_of` strip (ops p') /\
    (Z.of_nat (length (ops p')) < 2 ^ 32 -> numbered (ops p')) /\
    (forall e, e ∈ ins -> strip (take (at_pos e) (ops p)) ++ ins_op e :: strip (drop (at_pos e) (ops p)) `sublist_of` strip (ops p')) /\
    (forall e e', e ∈ ins -> e' ∈ ins -> ins_lt e' e = true -> ins_lt e' e' = false ->
       [ins_op e; ins_op e'] `sublist_of` strip (ops p')) /\
    set_ops [] p' = set_ops [] p.
Proof.
  intros Hne Hpls. cbv zeta. destruct (cp_pairs_ok allocs p Hne pls s) as (Hin & _ & _).
  unfold apply_cp_spill_fill. rewrite bool_decide_false by done. cbn [negb orb].
  destruct (cp_pairs allocs p pls s) as [ins s']. cbn [fst] in *.
  pose proof (std_sort_sorted ins_lt ins ins_lt_asym ins_lt_trans) as Hsort.
  destruct (inserts_ok (ops p) (std_sort ins_lt ins) (length (ops p)) []) as (a & T & E & Hsub & Hp & Hr & Hall).
  - done.
  - by rewrite drop_ge.
  - intros e He%std_sort_elem. by apply Hin.
  - eapply StronglySorted_weaken; [|exact Hsort]. intros x y Hxy. unfold not_after, ins_lt in Hxy. destruct (Nat.eqb_spec (at_pos y) (at_pos x)); [lia|]. by apply Nat.ltb_ge in Hxy.
  - rewrite (take_ge (ops p) (length (ops p))), app_nil_r in E, Hsub, Hp by lia. rewrite E. cbn [mbind option_bind].
    set (l := take a (ops p) ++ T) in *. exists (set_ops (renumber l) p), s'. split; [done|].
    assert (forall e, e ∈ ins -> put_record_id 0 (ins_op e) = ins_op e) as Hid by (intros e He; by apply Hin).
    assert (forall k, k ⊆ ins -> strip (ins_op <$> k) = ins_op <$> k) as Hstrip.
    { intros k Hk. unfold strip. rewrite <-list_fmap_compose. apply list_fmap_ext. intros i e He. cbn.
      apply Hid, Hk. by eapply list_elem_of_lookup_2. }
    cbn [ops set_ops]. rewrite strip_renumber. split_and!.
    + unfold strip. rewrite Hp, fmap_app. fold (strip (ins_op <$> std_sort ins_lt ins)).
      rewrite Hstrip by (intros e; by rewrite std_sort_elem). by rewrite std_sort_perm.
    + by apply sublist_fmap.
    + intros Hl. apply renumber_numbered. unfold renumber in Hl. by rewrite length_imap in Hl.
    + intros e He. specialize (Hall e). rewrite std_sort_elem in Hall. specialize (Hall He).
      apply (sublist_fmap (put_record_id 0)) in Hall. rewrite fmap_app, fmap_cons, Hid in Hall by done. exact Hall.
    + intros e e' He He' Hlt Hirr.
      assert ([e'; e] `sublist_of` std_sort ins_lt ins) as Hs.
      { apply (sorted_before ins_lt); [done|by apply std_sort_elem..|done|done]. }
      apply sublist_reverse, (sublist_fmap ins_op) in Hs. cbn in Hs.
      rewrite app_nil_r in Hr. assert (ins_op <$> reverse (std_sort ins_lt ins) `sublist_of` l) as Hl.
      { etrans; [exact Hr|]. unfold l. by apply sublist_inserts_l. }
      assert ([ins_op e; ins_op e'] `sublist_of` l) as H2 by (by etrans).
      apply (sublist_fmap (put_record_id 0)) in H2. cbn in H2. by rewrite !Hid in H2.
    + done.
Qed.

(** * The results *)

(** The general expansion of a model descriptor, on the descriptor of
    the simple linear model, produces the frozen plan step by step, with the
    same record numbers, blocks, tags and extras. *)
Theorem general_plan_is_golden ts names :
  ops (schedule_general simple_linear) = ops (schedule_simple_linear ts names) /\
  kernel_names (schedule_general simple_linear) = kernel_names (schedule_simple_linear ts names) /\
  tensor_names (schedule_general simple_linear) = tensor_names (schedule_simple_linear ts names).
Proof. by vm_compute. Qed.

(** The steps of a model whose reshapes stand alone or on one side of a
    fully connected op carry the record number of their position; their
    transfers form one chain of checkpoints, 2 to n + 1, each naming its
    successor, where n is the number of transfers computed beforehand; and
    the one synchronisation step, present when the model transposes or
    multiplies, waits for the checkpoint after the last one and names the
    two steps at fixed distances from the end. *)
Theorem checkpoint_chain_correct model :
  regular model = true -> Z.of_nat (length (m_ops model)) < 2 ^ 28 ->
  let steps := ops (schedule_general model) in
  numbered steps /\ dma_heads steps = checkpoints (n_dma model) /\
  syncs steps = if has_dma model
                then [[n_dma model + 2; Z.of_nat (length steps) - 5; Z.of_nat (length steps) - 4; 3; 3]] else [].
Proof. apply schedule_general_ok. Qed.

Lemma checkpoint_chain_correct_witness :
  regular simple_linear = true /\ dma_heads (ops (schedule_general simple_linear)) = [[2; 3]; [3; 4]; [4; 5]; [5; 6]] /\
  syncs (ops (schedule_general simple_linear)) = [[6; 14; 15; 3; 3]].
Proof.
  split; [reflexivity|]. destruct (checkpoint_chain_correct simple_linear eq_refl) as (_ & Hd & Hs); [cbn; lia|].
  split; [rewrite Hd; reflexivity|rewrite Hs; reflexivity].
Defined.

(** A reshape between two fully connected ops. *)
Definition fc_reshape_fc : ModelDesc :=
  mkModel 1 1 3 4 0 8 1 3 3 0 2 2 7 3
    [mkOpDesc FullyConnected "fc1" 5 6 4 0 0 2 4 0; mkOpDesc Reshape "reshape" 6 7 0 0 0 0 0 0;
     mkOpDesc FullyConnected "fc2" 5 6 0 0 0 3 2 6] [] [].

(** The number of transfers computed beforehand is wrong when a reshape
    stands between two fully connected ops: five transfers are announced and
    four emitted, and the synchronisation waits for checkpoint 7, which no
    transfer announces as its successor. *)
Theorem announced_transfers_differ :
  n_dma fc_reshape_fc = 5 /\
  dma_heads (ops (schedule_general fc_reshape_fc)) = [[2; 3]; [3; 4]; [4; 5]; [5; 6]] /\
  (hd 0 <$> syncs (ops (schedule_general fc_reshape_fc))) = [7].
Proof. by vm_compute. Qed.

(** C38: Applying the spill and fill plans to a plan with steps succeeds.
    The old steps keep their order; every plan with bytes to move has its
    spill and its fill among the new steps, with the same DDR address and
    block; the spill comes before its fill, after every step of its anchor
    tensor, and the fill comes before every step of its own anchor tensor
    when these all follow the spill's place; and the record numbers follow
    the final positions. *)
Theorem cp_transfers_placed allocs p pls s :
  ops p <> [] -> pls <> [] ->
  exists p' s', apply_cp_spill_fill allocs true pls p s = Some (p', s') /\
    strip (ops p) `sublist_of` strip (ops p') /\
    length (ops p') = (length (ops p) + 2 * length (filter (fun pl => pl_size pl <> 0%Z) pls))%nat /\
    (Z.of_nat (length (ops p')) < 2 ^ 32 -> numbered (ops p')) /\
    forall pl, pl ∈ pls -> pl_size pl <> 0 -> exists sp fl, pair_ok p pl sp fl /\
      [ins_op sp; ins_op fl] `sublist_of` strip (ops p') /\
      strip (take (at_pos sp) (ops p)) ++ ins_op sp :: strip (drop (at_pos sp) (ops p)) `sublist_of` strip (ops p') /\
      strip (take (at_pos fl) (ops p)) ++ ins_op fl :: strip (drop (at_pos fl) (ops p)) `sublist_of` strip (ops p').
Proof.
  intros Hne Hpls. destruct (apply_cp_ok allocs p pls s Hne Hpls) as (p' & s' & E & Hp & Hsub & Hnum & Hat & Hbef & _).
  destruct (cp_pairs_ok allocs p Hne pls s) as (_ & Hall & Hlen). cbv zeta in Hall, Hlen.
  exists p', s'. split; [done|]. split; [done|]. split; [|split; [done|]].
  - apply Permutation_length in Hp. unfold strip in Hp. rewrite length_app, !length_fmap, Hlen in Hp. lia.
  - intros pl Hin Hsz. destruct (Hall pl Hin Hsz) as (sp & fl & Hsp & Hfl & Hok). exists sp, fl.
    split; [done|]. split; [|by split; apply Hat]. destruct (po_kind _ _ _ _ Hok) as [Ks Kf].
    pose proof (po_order _ _ _ _ Hok). apply Hbef; [done|done| |]; unfold ins_lt; rewrite ?Ks, ?Kf, ?Nat.eqb_refl; [|done].
    destruct (Nat.eqb_spec (at_pos fl) (at_pos sp)); [done|]. apply Nat.ltb_lt. lia.
Qed.

Definition two_steps : Plan :=
  mkPlan [mkOp 0x71 1 OP_TYPE_COMPUTE 0 0 [] "" "a"; mkOp 0x70 2 OP_TYPE_COMPUTE 0 0 [] "" "b"] [] [] []
    [mkTensorInfo 1 "a" 0 [] 0 false false; mkTensorInfo 2 "b" 0 [] 0 false false] [1; 2].

Lemma cp_transfers_placed_witness :
  exists p' s', apply_cp_spill_fill ∅ true [mkCPPlan 0 1 0 0 0 128 7] two_steps fresh_counters = Some (p', s') /\
    (step_name <$> ops p') = ["a"; "CpSpill"; "CpFill"; "b"]%string /\ numbered (ops p').
Proof.
  destruct (cp_transfers_placed ∅ two_steps [mkCPPlan 0 1 0 0 0 128 7] fresh_counters) as (p' & s' & E & _ & Hl & Hn & _).
  - discriminate.
  - discriminate.
  - exists p', s'. split; [exact E|]. split.
    + assert ((fun r => step_name <$> ops r.1) <$> apply_cp_spill_fill ∅ true [mkCPPlan 0 1 0 0 0 128 7] two_steps
        fresh_counters = Some ["a"; "CpSpill"; "CpFill"; "b"]%string) as Hv by (vm_compute; reflexivity).
      rewrite E in Hv. cbn in Hv. congruence.
    + apply Hn. rewrite Hl. vm_compute. reflexivity.
Defined.
