(* ===== verification/GraphSchedule.v ===== *)
(** From the prepared graph to an execution order
    ([compiler/src/schedule/e2e_bridge.cpp] and [Scheduler::schedule] of
    [compiler/src/schedule/scheduler.cpp]): the live ops are numbered along
    the ordering, their connections become the relations of the min-cut
    scheduler, and the order it returns is translated back. *)
From S2P Require Import Prelude Ir DdrOffsets CpSolution Scheduler.
From S2P Require Import StCutGraph StCutFlow StCutLevels StCutSchedule.

Section graph.
Context (g : Graph).

(** An op that exists, is enabled and is not dead. *)
Definition live_op (id : op_id_t) : option OpDef :=
od ← get_op_at g id; if is_enabled od && negb (is_dead od) then Some od else None.

(** * The input of the min-cut scheduler *)

(** The number of the ops so far and the number of each op. *)
Definition compact_step (acc : nat * gmap op_id_t nat) (id : op_id_t) : nat * gmap op_id_t nat :=
let '(n, m) := acc in
match live_op id with
| None => acc
| Some _ => (S n, <[id := Z.to_nat (u32 (Z.of_nat n))]> m)
end.

Definition compact_of : nat * gmap op_id_t nat := foldl compact_step (0%nat, ∅) (ordering g).

(** The bytes of an output; absent dimensions count once. *)
Definition edge_weight (od : OutputDef) : Z :=
let elems := foldl (fun acc d => if d =? 0 then acc else u64 (acc * d)) 1
               (take (Z.to_nat (Z.min (rank od) 5)) (dims od)) in
u64 (elems * (if element_size od =? 0 then 4 else element_size od)).

Definition relation_of (compact : gmap op_id_t nat) (dst : nat) (conn : InputConn) : option Relation :=
src ← compact !! src_id conn;
let weight := match get_op_at g (src_id conn) with Some od => edge_weight (output_def od) | None => 1 end in
Some (mkRelation src dst weight false).

Definition op_relations (compact : gmap op_id_t nat) (id : op_id_t) : list Relation :=
match live_op id with
| None => []
| Some od => match compact !! op_id od with
             | None => []
             | Some dst => omap (relation_of compact dst) (inputs od)
             end
end.

Definition build_stcut_input_from_graph : option StCutGraphInput :=
if bool_decide (ordering g = []) then None
else
  let '(n, compact) := compact_of in
  let node_count := Z.to_nat (u32 (Z.of_nat n)) in
  if (node_count =? 0)%nat then None
  else Some (mkInput node_count (concat (op_relations compact <$> ordering g))
               ((fun i => Z.to_nat (u32 (Z.of_nat i))) <$> seq 0 n) []).

(** The seeds are the defaults of the call, both zero; so are the base and
    hence the threshold of the records' scores. *)
Definition run_stcut_schedule (flow_cap : Z) (opt : StCutOptions) : option (list nat * list Z) :=
match build_stcut_input_from_graph with
| None => Some ([], [])
| Some input =>
    c ← build_initial_state input;
    '(best, flows, _) ← full_schedule 0 flow_cap opt (initial_order input) 0 0 c;
    Some (best, flows)
end.

(** * The plan *)

Definition ti_of (od : OpDef) : TensorInfo :=
let nm := default "" (name od) in
mkTensorInfo (u32 (op_id od)) nm (rank (output_def od))
  ((fun j => if Z.of_nat j <? rank (output_def od) then dim (output_def od) j else 0) <$> seq 0 5)
  (dtype (output_def od)) (is_const od) ((nm =? "Input") || (nm =? "Output"))%string.

Definition graph_tensors : list TensorInfo := omap (fun id => ti_of <$> live_op id) (ordering g).

Definition graph_op_names : list string :=
filter (fun nm => nm <> ""%string) (ti_name <$> graph_tensors).

Definition dense_to_id : list op_id_t := filter (fun id => is_Some (live_op id)) (ordering g).

(** The scheduler's order, as op numbers; the ordering itself when there is
    no order or when it does not cover every op once. *)
Definition order_ids (best_dense : list nat) (have_stcut : bool) : list Z :=
let ids := omap (fun d => u32 <$> dense_to_id !! d) best_dense in
if negb have_stcut || bool_decide (best_dense = []) || negb (length ids =? length dense_to_id)%nat
   || negb (size (list_to_set ids : gset Z) =? length dense_to_id)%nat
then u32 <$> dense_to_id else ids.

Definition schedule_options : StCutOptions := mkOptions 50 20 3 false.

Definition op_step (i : nat) (t : TensorInfo) : ScheduledOp :=
mkOp (compute_record_id (u32 (Z.of_nat i))) (ti_id t) (if ti_const t then OP_TYPE_MEMORY else OP_TYPE_COMPUTE)
  0 0 [] "" (ti_name t).

(** The plan before the transfers of the CP allocation are inserted; its
    list of tensors stays empty. *)
Definition base_plan : option Plan :=
let have_stcut := match build_stcut_input_from_graph with Some i => negb (in_node_count i =? 0)%nat | None => false end in
'(best_dense, _) ← (if have_stcut then run_stcut_schedule (2 ^ 40) schedule_options else Some ([], []));
Some (mkPlan (imap op_step graph_tensors) [] graph_op_names (ti_name <$> graph_tensors) []
        (order_ids best_dense have_stcut)).

Definition schedule (allocs : gmap op_id_t VtcmAllocEntry) (cp_active : bool) (pls : list CPSpillFillPlan)
    (s : Counters) : option (Plan * Counters) :=
plan ← base_plan; apply_cp_spill_fill allocs cp_active pls plan s.

(** The replay of the frozen plan, which keeps the tensors of the graph;
    the counters are those [schedule_simple_linear] leaves, after 19
    steps. *)
Definition schedule_path_a_replay (allocs : gmap op_id_t VtcmAllocEntry) (cp_active : bool)
    (pls : list CPSpillFillPlan) : option (Plan * Counters) :=
apply_cp_spill_fill allocs cp_active pls (schedule_simple_linear graph_tensors graph_op_names)
  (mkCounters 19 0x11 0x19 ∅).
End graph.

(** * A graph just built *)

Definition fixed_fields (c : StCutContext) := (config c, tree_built c, grain_tree c).

Lemma register_all_fixed n c c' : register_all n c = Some c' -> fixed_fields c' = fixed_fields c.
Proof.
  unfold register_all. intros E. symmetry.
  apply (foldM_keeps (fun c i => '(_, c) ← register_node (Z.of_nat i) 0 c; Some c)
           (fun x => fixed_fields c = fixed_fields x) (seq 0 n) c c'); [|done|done].
  intros x b y _ Hx. unfold register_node. case_match; [by intros [= <-]|]. unfold register_reused.
  intros H'. apply bind_Some in H' as ([k z] & H' & [= <-]).
  do 4 (apply bind_Some in H' as (? & _ & H')). by injection H' as _ <-.
Qed.

Lemma add_relations_fixed rs : forall c, fixed_fields (foldl add_relation c rs) = fixed_fields c.
Proof. induction rs as [|r rs IH]; intros c; [done|]. cbn [foldl]. by rewrite IH. Qed.

Lemma built_fields input c :
  relations_ok (in_node_count input) (relations input) -> groups input = [] -> build_initial_state input = Some c ->
  fixed_fields c = (default_config, false, ∅) /\ cand_tables c = replicate (in_node_count input) [].
Proof.
  intros Hok Hg. unfold build_initial_state.
  destruct (register_all_ok (in_node_count input)) as (c0 & E & Hreg). rewrite E. cbn [mbind option_bind].
  apply register_all_fixed in E. rewrite Hg.
  pose proof (add_relations_fixed (relations input) c0) as Hf.
  destruct (add_relations_ok (relations input) _ c0 Hreg Hok) as (_ & _ & _ & _ & _ & _ & Hcd & _).
  destruct Hreg as (_ & _ & _ & _ & _ & Hcd0 & _).
  unfold read_nodes. cbv zeta. case_match; cbn; intros [= <-]; unfold fixed_fields in *; cbn; rewrite Hcd, Hcd0;
    (split; [|done]); (etrans; [exact Hf|exact E]).
Qed.

Lemma built_slot rs k r :
  rs !! k = Some r -> concat (imap relation_slots rs) !! (2 * k)%nat = Some (mkSlot (r_dst r) (S (2 * k)) (r_weight r) 0x40).
Proof.
  induction rs as [|x rs IH] using rev_ind; [done|].
  rewrite imap_app, concat_app. intros [Hk|[Hge Hk]]%lookup_app_Some.
  - rewrite lookup_app_l; [by apply IH|]. rewrite concat_slots_length. apply lookup_lt_Some in Hk. lia.
  - apply list_lookup_singleton_Some in Hk as [Hk <-]. assert (k = length rs) as -> by lia.
    rewrite lookup_app_r by (rewrite concat_slots_length; lia). rewrite concat_slots_length, Nat.sub_diag. cbn.
    by rewrite !Nat.add_0_r.
Qed.

(** A relation is an edge of the graph built from it. *)
Lemma built_edge input c r :
  relations_ok (in_node_count input) (relations input) -> build_initial_state input = Some c ->
  r ∈ relations input -> edge (work c) (in_node_count input) (r_src r) (r_dst r).
Proof.
  intros Hok E (k & Hk)%list_elem_of_lookup.
  destruct (build_initial_state_ok input Hok) as (c' & E' & _ & (Hw & _ & Hadd) & _ & Hgf & _).
  assert (c' = c) as -> by congruence.
  assert ((r_dst r < in_node_count input)%nat) as Hd.
  { unfold relations_ok in Hok. rewrite Forall_lookup in Hok. by destruct (Hok k r Hk). }
  exists (2 * k)%nat, (mkSlot (r_dst r) (S (2 * k)) (r_weight r) 0x40), 0x40. split_and!; try done.
  - rewrite Hadd. exists k, r. split; [done|]. by left.
  - rewrite Hw. by apply built_slot.
  - rewrite Hgf. by apply lookup_replicate.
Qed.

(** * The numbering *)

Section ordering.
Context (g : Graph).

(** [u] is live and is an input of the live op [v]. *)
Definition feeds (u v : op_id_t) : Prop :=
exists od conn, live_op g v = Some od /\ conn ∈ inputs od /\ src_id conn = u /\ u ∈ dense_to_id g /\ v ∈ dense_to_id g.

(** Graphs of fewer than 32746 live ops with distinct 32-bit numbers. *)
Record graph_ok : Prop := {
gk_nodup : NoDup (ordering g);
gk_ids id od : live_op g id = Some od -> op_id od = id;
gk_range id : id ∈ dense_to_id g -> 0 <= id < 2 ^ 32;
gk_small : 2 * Z.of_nat (length (dense_to_id g)) + 44 < 2 ^ 16;
gk_weights id od : get_op_at g id = Some od -> edge_weight (output_def od) < 2 ^ 62
}.

Definition numbering (l : list op_id_t) (m : gmap op_id_t nat) : Prop :=
forall id i, m !! id = Some i <-> l !! i = Some id.

Lemma compact_ok l :
NoDup l -> Z.of_nat (length (filter (fun id => is_Some (live_op g id)) l)) < 2 ^ 32 ->
exists m, foldl (compact_step g) (0%nat, ∅) l = (length (filter (fun id => is_Some (live_op g id)) l), m) /\
  numbering (filter (fun id => is_Some (live_op g id)) l) m.
Proof.
induction l as [|id l IH] using rev_ind; intros Hnd Hlen.
{ exists ∅. split; [done|]. intros id i. by rewrite lookup_empty. }
apply NoDup_app in Hnd as (Hnd & Hd & _). rewrite filter_app, length_app in Hlen.
destruct IH as (m & E & Hm); [done|lia|]. rewrite foldl_app, E, filter_app. cbn [foldl compact_step].
set (k := filter _ l) in *. unfold numbering in Hm.
destruct (live_op g id) as [od|] eqn:El; cbn.
- rewrite decide_True by (by eexists). rewrite length_app. cbn. rewrite Nat.add_1_r. eexists. split; [done|].
  intros id' i. rewrite wrap_id, Nat2Z.id by lia.
  destruct (decide (id' = id)) as [->|Hne].
  + rewrite lookup_insert_eq. split.
    * intros [= <-]. by apply list_lookup_middle.
    * intros [Hi|[Hge Hi]]%lookup_app_Some.
      -- apply list_elem_of_lookup_2, list_elem_of_filter in Hi as [_ Hi]. destruct (Hd id Hi). by left.
      -- apply list_lookup_singleton_Some in Hi as [Hi _]. f_equal. lia.
  + rewrite lookup_insert_ne by done. rewrite Hm. split; [by apply lookup_app_l_Some|].
    intros [Hi|[Hge Hi]]%lookup_app_Some; [done|]. by apply list_lookup_singleton_Some in Hi as [_ ->].
- rewrite decide_False by (intros [? ?]; congruence). rewrite app_nil_r. exists m. split; [done|exact Hm].
Qed.

Context (Hok : graph_ok).

Lemma live_listed id : id ∈ dense_to_id g <-> id ∈ ordering g /\ is_Some (live_op g id).
Proof. unfold dense_to_id. rewrite list_elem_of_filter. tauto. Qed.

Lemma live_nodup : NoDup (dense_to_id g).
Proof. apply NoDup_filter, gk_nodup, Hok. Qed.

Lemma live_get id od : live_op g id = Some od -> get_op_at g id = Some od.
Proof. unfold live_op. destruct (get_op_at g id); cbn; [|done]. by case_match; intros [= <-]. Qed.

(** ** The input *)

Lemma op_relations_ok m id r :
numbering (dense_to_id g) m -> r ∈ op_relations g m id ->
(r_src r < length (dense_to_id g))%nat /\ (r_dst r < length (dense_to_id g))%nat /\ 0 <= r_weight r < 2 ^ 62.
Proof.
intros Hm. unfold op_relations. destruct (live_op g id) as [od|]; [|by intros ?%not_elem_of_nil].
destruct (m !! op_id od) as [dst|] eqn:Ed; [|by intros ?%not_elem_of_nil].
intros (conn & _ & Hr)%list_elem_of_omap. unfold relation_of in Hr.
destruct (m !! src_id conn) as [src|] eqn:Es; [|done]. cbn in Hr. injection Hr as <-. cbn.
apply Hm in Ed, Es. split; [by eapply lookup_lt_Some|]. split; [by eapply lookup_lt_Some|].
destruct (get_op_at g (src_id conn)) as [so|] eqn:Eo; [|lia].
split; [|by eapply gk_weights]. unfold edge_weight. apply wrap_range. lia.
Qed.

Lemma feeds_relation m u v i j :
numbering (dense_to_id g) m -> feeds u v -> dense_to_id g !! i = Some u -> dense_to_id g !! j = Some v ->
exists r, r ∈ concat (op_relations g m <$> ordering g) /\ r_src r = i /\ r_dst r = j.
Proof.
intros Hm (od & conn & Hv & Hc & Hs & Hu & Hvl) Hi%Hm Hj%Hm.
eexists (mkRelation i j _ false). split; [|done]. apply elem_of_concat.
exists (op_relations g m v). split; [apply list_elem_of_fmap; exists v; split; [done|]; by apply live_listed|].
unfold op_relations. rewrite Hv, (gk_ids Hok v od Hv), Hj. apply list_elem_of_omap. exists conn. split; [done|].
unfold relation_of. rewrite Hs, Hi. reflexivity.
Qed.

Lemma seq_small n : Z.of_nat n < 2 ^ 32 -> (fun i => Z.to_nat (u32 (Z.of_nat i))) <$> seq 0 n = seq 0 n.
Proof.
intros Hn. apply list_eq. intros i. rewrite list_lookup_fmap. destruct (seq 0 n !! i) as [k|] eqn:E; [|done].
cbn. apply lookup_seq in E as [-> Hi]. rewrite wrap_id by lia. f_equal. lia.
Qed.

Lemma input_ok :
match build_stcut_input_from_graph g with
| None => dense_to_id g = []
| Some input =>
    let n := length (dense_to_id g) in
    in_node_count input = n /\ (0 < n)%nat /\ initial_order input = seq 0 n /\ groups input = [] /\
    relations_ok n (relations input) /\ weights_ok (relations input) /\
    forall u v i j, feeds u v -> dense_to_id g !! i = Some u -> dense_to_id g !! j = Some v ->
      exists r, r ∈ relations input /\ r_src r = i /\ r_dst r = j
end.
Proof.
unfold build_stcut_input_from_graph. case_bool_decide as Ho; [unfold dense_to_id; by rewrite Ho|].
pose proof (gk_small Hok). destruct (compact_ok (ordering g)) as (m & E & Hm); [apply Hok|unfold dense_to_id in *; lia|].
unfold compact_of. rewrite E. fold (dense_to_id g) in Hm |- *. rewrite wrap_id, Nat2Z.id by lia.
destruct (Nat.eqb_spec (length (dense_to_id g)) 0) as [Hz|Hz]; [by apply length_zero_iff_nil in Hz|].
cbn. split; [done|]. split; [lia|]. split; [apply seq_small; lia|]. split; [done|].
assert (forall r, r ∈ concat (op_relations g m <$> ordering g) -> (r_src r < length (dense_to_id g))%nat /\
  (r_dst r < length (dense_to_id g))%nat /\ 0 <= r_weight r < 2 ^ 62) as Hr.
{ intros r (l & (id & -> & _)%list_elem_of_fmap & Hr)%elem_of_concat. by eapply op_relations_ok. }
split; [|split].
- apply Forall_forall. intros r Hin%Hr. tauto.
- apply Forall_forall. intros r Hin%Hr. tauto.
- intros u v i j. by apply feeds_relation.
Qed.

(** ** The order *)

(** An op that reads [u], directly or through others, does not stand before
    it. *)
Definition after (u v : op_id_t) : Prop := ~ rtc feeds v u.

Lemma omap_seq l :
(forall id, id ∈ l -> u32 id = id) -> omap (fun d => u32 <$> l !! d) (seq 0 (length l)) = l.
Proof.
induction l as [|id l IH] using rev_ind; intros Hu; [done|].
rewrite length_app, Nat.add_1_r, seq_S, omap_app. cbn. rewrite list_lookup_middle by done. cbn.
rewrite Hu by (apply elem_of_app; right; left). f_equal.
rewrite <-IH at 2 by (intros x Hx; apply Hu, elem_of_app; by left).
apply list_omap_ext, Forall2_same_length_lookup_2; [done|].
intros i x y Hx Hy. replace y with x by congruence. apply lookup_seq in Hx as [-> Hx]. cbn.
by rewrite lookup_app_l by lia.
Qed.

Lemma id_u32 id : id ∈ dense_to_id g -> u32 id = id.
Proof. intros ?%(gk_range Hok). by apply wrap_id. Qed.

Lemma ids_perm best :
best ≡ₚ seq 0 (length (dense_to_id g)) ->
let ids := omap (fun d => u32 <$> dense_to_id g !! d) best in
ids ≡ₚ dense_to_id g /\ order_ids g best true = (if bool_decide (best = []) then dense_to_id g else ids).
Proof.
intros Hp. cbv zeta. set (ids := omap _ best).
pose proof id_u32 as Hu.
assert (ids ≡ₚ dense_to_id g) as Hids by (unfold ids; by rewrite Hp, omap_seq).
split; [done|]. unfold order_ids. fold ids. rewrite (Permutation_length Hids), Nat.eqb_refl.
assert (size (list_to_set ids : gset Z) = length (dense_to_id g)) as ->.
{ rewrite size_list_to_set; [by rewrite Hids|]. rewrite Hids. apply live_nodup. }
rewrite Nat.eqb_refl. cbn. rewrite !orb_false_r. case_bool_decide; [|done].
clear -Hu. induction (dense_to_id g) as [|id l IH]; [done|]. cbn. rewrite Hu by left. f_equal.
apply IH. intros x Hx. apply Hu. by right.
Qed.

Lemma feeds_path (E : nat -> nat -> Prop) u v j :
(forall u v i j, feeds u v -> dense_to_id g !! i = Some u -> dense_to_id g !! j = Some v -> E i j) ->
rtc feeds u v -> dense_to_id g !! j = Some u -> exists i, dense_to_id g !! i = Some v /\ rtc E j i.
Proof.
intros HE Hr. revert j. induction Hr as [u|u w v Hf _ IH]; intros j Hj; [by exists j|].
pose proof Hf as (_ & _ & _ & _ & _ & _ & [k Hk]%list_elem_of_lookup).
destruct (IH k Hk) as (i & Hi & Hki). exists i. split; [done|]. econstructor; [|done]. by eapply HE.
Qed.

Lemma sorted_ids (R : nat -> nat -> Prop) (f : nat -> option Z) best :
StronglySorted R best ->
(forall x y u v, x ∈ best -> y ∈ best -> R x y -> f x = Some u -> f y = Some v -> after u v) ->
StronglySorted after (omap f best).
Proof.
induction 1 as [|x best Hs IH Hall]; intros HR; [constructor|]. cbn.
assert (StronglySorted after (omap f best)) as Ht.
{ apply IH. intros a b u v Ha Hb. apply HR; by right. }
destruct (f x) as [u|] eqn:Ex; [|done]. constructor; [done|]. apply Forall_forall.
intros v (y & Hy & Ey)%list_elem_of_omap. rewrite Forall_forall in Hall.
eapply HR; [left|by right|by apply Hall|done|done].
Qed.
End ordering.

Section schedule.
Context (g : Graph) (Hok : graph_ok g).

Lemma built_schedulable input c :
build_stcut_input_from_graph g = Some input -> build_initial_state input = Some c ->
schedulable schedule_options (initial_order input) c /\ length (add_set (work c)) = length (dense_to_id g).
Proof.
intros Ei Ec. pose proof (input_ok g Hok) as Hin. rewrite Ei in Hin.
destruct Hin as (Hn & Hpos & Ho & Hg & Hrel & Hw & _). rewrite <-Hn in Hrel.
pose proof (gk_small g Hok) as Hs.
destruct (build_aligned input c Hrel Hw ltac:(rewrite Hn; lia) Ec) as [Ha Hl].
destruct (built_fields input c Hrel Hg Ec) as [Hf Hcd]. injection Hf as Hcf Hb Ht.
destruct (build_initial_state_ok input Hrel) as (c' & Ec' & _ & _ & _ & _ & Hmk & _ & _ & _ & _ & Hfr & Hsn).
assert (c' = c) as -> by congruence. rewrite <-Hn. split; [|done].
split; rewrite ?Hl, ?Hcf, ?Hmk, ?length_replicate; try done.
- unfold jitter_ok. by rewrite Hcf.
- rewrite Ho. apply NoDup_seq.
- rewrite Ho. intros n ?%elem_of_seq. lia.
- intros i tbl n. rewrite Hcd. intros [-> _]%lookup_replicate ?%not_elem_of_nil. done.
- rewrite Hn. cbn. lia.
Qed.

Lemma base_plan_ok :
exists plan, base_plan g = Some plan /\ op_order plan ≡ₚ dense_to_id g /\
  (op_order plan = dense_to_id g \/ StronglySorted (after g) (op_order plan)) /\
  ops plan = imap op_step (graph_tensors g) /\ tensors plan = [].
Proof.
pose proof (input_ok g Hok) as Hin. unfold base_plan, run_stcut_schedule.
destruct (build_stcut_input_from_graph g) as [input|] eqn:Ei; cycle 1.
{ cbn. eexists. split; [done|]. cbn. unfold order_ids. cbn. rewrite Hin. cbn. by auto. }
destruct Hin as (Hn & Hpos & Ho & Hg & Hrel & Hw & Hfeeds).
destruct (Nat.eqb_spec (in_node_count input) 0) as [?|_]; [lia|]. cbn [negb].
destruct (build_initial_state input) as [c|] eqn:Ec; cycle 1.
{ rewrite <-Hn in Hrel. destruct (build_initial_state_ok input Hrel) as (c' & Ec' & _). congruence. }
cbn [mbind option_bind]. destruct (built_schedulable input c Ei Ec) as [Hsc Hl].
destruct (full_schedule_ok 0 (2 ^ 40) schedule_options (initial_order input) 0 0 c Hsc) as
  (best & s' & orders & -> & _ & _ & Hp & Hor & _); [lia..|].
cbn [mbind option_bind]. eexists. split; [done|]. cbn [op_order ops tensors].
rewrite Ho in Hp, Hor. destruct (ids_perm g Hok best Hp) as [Hids ->].
rewrite bool_decide_false; cycle 1.
{ intros ->. apply Permutation_nil_l in Hp. apply (f_equal length) in Hp. rewrite length_seq in Hp. cbn in Hp. lia. }
split; [done|]. split; [|done]. destruct Hor as [->|Hs].
- left. apply omap_seq, id_u32, Hok.
- right. eapply sorted_ids; [exact Hs|]. intros x y u v _ _ Hxy Hu Hv. cbn in Hu, Hv.
  destruct (dense_to_id g !! x) as [u'|] eqn:Eu; [|done]. destruct (dense_to_id g !! y) as [v'|] eqn:Ev; [|done].
  cbn in Hu, Hv. injection Hu as <-. injection Hv as <-.
  rewrite !(id_u32 g Hok) by (by eapply list_elem_of_lookup_2). intros Hr.
  rewrite <-Hn in Hrel.
  destruct (feeds_path g (edge (work c) (length (add_set (work c)))) v' u' y) as (i & Hi & Hpath); [|done|done|].
  { intros a b i j Hf Hi Hj. destruct (Hfeeds a b i j Hf Hi Hj) as (r & Hr' & <- & <-). rewrite Hl, <-Hn.
    by apply built_edge. }
  assert (i = x) as -> by (eapply NoDup_lookup; [by apply live_nodup|done|done]).
  apply lookup_lt_Some in Eu, Ev. apply Hxy; [lia|lia|done].
Qed.
End schedule.

(** * The results *)

(** C7: The schedule of a prepared graph with distinct 32-bit op numbers,
    fewer than 32746 live ops (the marks of the scheduler are 16-bit) and
    edge weights below 2^62 runs every live op of the ordering exactly once.  Its order is the
    ordering itself or one in which no op stands before an op it reads,
    directly or through others; so when the ordering respects the data flow,
    the schedule does.  The steps follow the ordering, one for each live
    op. *)
Theorem plan_order_correct g :
  graph_ok g ->
  exists plan, base_plan g = Some plan /\ op_order plan ≡ₚ dense_to_id g /\
    (op_order plan = dense_to_id g \/ StronglySorted (after g) (op_order plan)) /\
    (StronglySorted (after g) (dense_to_id g) -> StronglySorted (after g) (op_order plan)) /\
    ops plan = imap op_step (graph_tensors g).
Proof.
  intros Hok. destruct (base_plan_ok g Hok) as (plan & E & Hp & Hor & Ho & _). exists plan.
  split_and!; try done. intros Hs. by destruct Hor as [->|].
Qed.

Lemma graph_tensors_length g : length (graph_tensors g) = length (dense_to_id g).
Proof.
  unfold graph_tensors, dense_to_id. induction (ordering g) as [|id l IH]; [done|]. cbn.
  destruct (live_op g id); cbn.
  - rewrite decide_True by (by eexists). cbn. by rewrite IH.
  - rewrite decide_False by (by intros [? ?]). done.
Qed.

(** The schedule of a graph keeps no list of tensors, so the spill and
    the fill of the CP allocation never find their anchors: whatever
    positions a plan asks for, its spill stands right after the first step
    and its fill after the last one. *)
Theorem schedule_ignores_anchors g allocs pls s :
  graph_ok g -> dense_to_id g <> [] -> pls <> [] ->
  let steps := imap op_step (graph_tensors g) in
  exists p' s', schedule g allocs true pls s = Some (p', s') /\
    forall pl, pl ∈ pls -> pl_size pl <> 0 -> exists spill fill,
      step_name spill = "CpSpill"%string /\ so_tensor spill = u32 (pl_op pl) /\
      step_name fill = "CpFill"%string /\ so_tensor fill = u32 (pl_op pl) /\
      strip (take 1 steps) ++ spill :: strip (drop 1 steps) `sublist_of` strip (ops p') /\
      strip steps ++ [fill] `sublist_of` strip (ops p').
Proof.
  intros Hok Hne Hpls steps. destruct (base_plan_ok g Hok) as (plan & E & _ & _ & Ho & Ht).
  assert (ops plan <> []) as Hne'.
  { rewrite Ho. intros Hn%(f_equal length). rewrite length_imap, graph_tensors_length in Hn.
    by apply length_zero_iff_nil in Hn. }
  unfold schedule. rewrite E. cbn [mbind option_bind].
  destruct (apply_cp_ok allocs plan pls s Hne' Hpls) as (p' & s' & E' & _ & _ & _ & Hat & _).
  destruct (cp_pairs_ok allocs plan Hne' pls s) as (_ & Hall & _). cbv zeta in Hall.
  exists p', s'. split; [done|]. intros pl Hin Hsz.
  destruct (Hall pl Hin Hsz) as (sp & fl & Hsp & Hfl & Hpo). destruct (po_tensor _ _ _ _ Hpo) as [Ts Tf].
  destruct (po_names _ _ _ _ Hpo) as [Ns Nf].
  assert (forall pos, anchor plan pos = None) as Hno.
  { intros pos. unfold anchor. rewrite Ht. by case_match. }
  exists (ins_op sp), (ins_op fl). split_and!; try done.
  - specialize (Hat sp Hsp). rewrite (po_head _ _ _ _ Hpo (Hno _)), Ho in Hat. exact Hat.
  - specialize (Hat fl Hfl). rewrite (po_tail _ _ _ _ Hpo (Hno _)), Ho in Hat.
    rewrite take_ge, drop_ge in Hat by lia. exact Hat.
Qed.

(** A chain of three ops. *)
Definition chain_op (id : Z) (ins outs : list Z) : OpDef :=
  mkOpDef id OP_ENABLED (Some "op"%string) (mkOutputDef 1 0 [4] 4)
    ((fun i => mkInputConn i 0 (mkOutputDef 1 0 [4] 4)) <$> ins) outs.

Definition chain_graph : Graph :=
  mkGraph (list_to_map [(7, chain_op 7 [] [8]); (8, chain_op 8 [7] [9]); (9, chain_op 9 [8] [])]) [] [7; 8; 9].

Lemma chain_graph_get id od :
  get_op_at chain_graph id = Some od -> (id = 7 \/ id = 8 \/ id = 9) /\ op_id od = id /\ edge_weight (output_def od) = 16.
Proof.
  intros Hx. unfold get_op_at in Hx. apply elem_of_list_to_map_2 in Hx.
  apply elem_of_cons in Hx as [[= -> ->]|Hx]; [by auto|].
  apply elem_of_cons in Hx as [[= -> ->]|Hx]; [by auto|].
  apply elem_of_cons in Hx as [[= -> ->]|Hx]; [by auto|].
  by apply not_elem_of_nil in Hx.
Qed.

Lemma chain_graph_live : dense_to_id chain_graph = [7; 8; 9].
Proof. by vm_compute. Qed.

Lemma chain_graph_ok : graph_ok chain_graph.
Proof.
  split.
  - repeat (constructor; [set_solver|]). constructor.
  - intros id od Hl. apply live_get in Hl. by apply chain_graph_get.
  - rewrite chain_graph_live. intros id Hid. set_unfold in Hid. lia.
  - rewrite chain_graph_live. cbn. lia.
  - intros id od Hg. apply chain_graph_get in Hg as (_ & _ & ->). lia.
Qed.

Lemma plan_order_correct_witness :
  exists plan, base_plan chain_graph = Some plan /\ op_order plan ≡ₚ [7; 8; 9].
Proof.
  destruct (plan_order_correct chain_graph chain_graph_ok) as (plan & E & Hp & _).
  exists plan. split; [exact E|]. rewrite chain_graph_live in Hp. exact Hp.
Defined.

Lemma schedule_ignores_anchors_witness :
  exists p' s', schedule chain_graph ∅ true [mkCPPlan 1 2 0 0 0 128 7] fresh_counters = Some (p', s') /\
    (step_name <$> ops p') = ["op"; "CpSpill"; "op"; "op"; "CpFill"]%string.
Proof.
  destruct (schedule_ignores_anchors chain_graph ∅ [mkCPPlan 1 2 0 0 0 128 7] fresh_counters chain_graph_ok)
    as (p' & s' & E & _).
  - rewrite chain_graph_live. discriminate.
  - discriminate.
  - exists p', s'. split; [exact E|].
    assert ((fun r => step_name <$> ops r.1) <$> schedule chain_graph ∅ true [mkCPPlan 1 2 0 0 0 128 7] fresh_counters
      = Some ["op"; "CpSpill"; "op"; "op"; "CpFill"]%string) as Hv by (vm_compute; reflexivity).
    rewrite E in Hv. cbn in Hv. congruence.
Defined.
