(* ===== verification/GraphPasses.v ===== *)
(** The graph of [GraphPrepare] ([compiler/src/ir/graph_prepare.cpp]) and
    two of its passes: dead code removal and ordering.  The meaning of a
    graph, [eval], is what the passes must keep. *)
From S2P Require Import Prelude Ir.

(** * Data *)

(** The fields of [OpDef] that these passes read beside those of [Ir]. *)
Record OpNode := mkNode {
  node_op :> OpDef;
  op_data : list Z;                    (** bytes *)
  tensor_param_ids : list op_id_t;
  const_data_offset : Z;
  const_data_size : Z
}.

(** [opdef_map_] is an [unordered_map]: [keys] is the order in which a loop
    over it visits the entries, which erasing keeps for the others. *)
Record GraphPrepare := mkPrepare {
  keys : list op_id_t;
  opdefs : gmap op_id_t OpNode;
  input_node_id : op_id_t;
  output_node_id : op_id_t;
  node_order : list op_id_t;           (** [ordering_] *)
  exec_order : list op_id_t;           (** [plan_order_] *)
  graph_dirty : bool;
  construction_state : Z;
  next_op_id : op_id_t;
  const_pool : list Z;                 (** bytes *)
  const_extents : list (op_id_t * Z * Z)
}.

Definition get_op (p : GraphPrepare) (id : op_id_t) : option OpNode := opdefs p !! id.

Definition set_graph (p : GraphPrepare) (ks : list op_id_t) (m : gmap op_id_t OpNode) (dirty : bool) : GraphPrepare :=
  mkPrepare ks m (input_node_id p) (output_node_id p) (node_order p) (exec_order p) dirty (construction_state p)
    (next_op_id p) (const_pool p) (const_extents p).

Definition set_node_order (p : GraphPrepare) (l : list op_id_t) (dirty : bool) : GraphPrepare :=
  mkPrepare (keys p) (opdefs p) (input_node_id p) (output_node_id p) l (exec_order p) dirty (construction_state p)
    (next_op_id p) (const_pool p) (const_extents p).

Definition set_exec_order (p : GraphPrepare) (l : list op_id_t) : GraphPrepare :=
  mkPrepare (keys p) (opdefs p) (input_node_id p) (output_node_id p) (node_order p) l (graph_dirty p)
    (construction_state p) (next_op_id p) (const_pool p) (const_extents p).

Definition with_op (od : OpNode) (o : OpDef) : OpNode :=
  mkNode o (op_data od) (tensor_param_ids od) (const_data_offset od) (const_data_size od).

Definition set_flags (od : OpNode) (f : Z) : OpNode :=
  with_op od (mkOpDef (op_id od) f (name od) (output_def od) (inputs od) (consumers od)).

Definition set_inputs (od : OpNode) (l : list InputConn) : OpNode :=
  with_op od (mkOpDef (op_id od) (flags od) (name od) (output_def od) l (consumers od)).

Definition set_consumers (od : OpNode) (l : list op_id_t) : OpNode :=
  with_op od (mkOpDef (op_id od) (flags od) (name od) (output_def od) (inputs od) l).

Definition set_output_def (od : OpNode) (d : OutputDef) : OpNode :=
  with_op od (mkOpDef (op_id od) (flags od) (name od) d (inputs od) (consumers od)).

Definition set_dead (od : OpNode) : OpNode := set_flags od (Z.lor (flags od) OP_DEAD).

(** Enabled and not dead. *)
Definition is_live (od : OpNode) : bool := is_enabled od && negb (is_dead od).

Definition live_at (m : gmap op_id_t OpNode) (id : op_id_t) : bool :=
  match m !! id with Some od => is_live od | None => false end.

Definition erase (id : op_id_t) (ks : list op_id_t) : list op_id_t := filter (fun k => k <> id) ks.

Definition erase_op (p : GraphPrepare) (id : op_id_t) : GraphPrepare :=
  set_graph p (erase id (keys p)) (delete id (opdefs p)) true.

(** * Dead code *)

Section dead_code.
Context (input_id output_id : op_id_t).

Definition removable (m : gmap op_id_t OpNode) (id : op_id_t) (od : OpNode) : bool :=
  is_live od && negb (id =? output_id) && negb (id =? input_id) && negb (existsb (live_at m) (consumers od)).

(** One loop over the map marks the ops without live consumer; a mark
    counts at once. *)
Definition mark_step (acc : gmap op_id_t OpNode * list op_id_t) (id : op_id_t) : gmap op_id_t OpNode * list op_id_t :=
  let '(m, to_delete) := acc in
  match (m !! id : option OpNode) with
  | None => acc
  | Some od => if removable m id od then (<[id := set_dead od]> m, to_delete ++ [id]) else acc
  end.

Definition drop_consumer (id : op_id_t) (od : OpNode) : OpNode :=
  set_consumers od (filter (fun c => c <> id) (consumers od)).

Definition delete_op (m : gmap op_id_t OpNode) (id : op_id_t) : gmap op_id_t OpNode :=
  delete id match (m !! id : option OpNode) with
            | None => m
            | Some od => foldl (fun m c => alter (drop_consumer id) (src_id c) m) m (inputs od)
            end.

(** The loop until nothing is marked, with the number of ops deleted. *)
Fixpoint dead_loop (fuel : nat) (ks : list op_id_t) (m : gmap op_id_t OpNode) (deleted : Z) :
    option (list op_id_t * gmap op_id_t OpNode * Z) :=
  match fuel with
  | O => None
  | S fuel =>
      let '(m1, to_delete) := foldl mark_step (m, []) ks in
      if bool_decide (to_delete = []) then Some (ks, m1, deleted)
      else dead_loop fuel (foldl (fun ks id => erase id ks) ks to_delete) (foldl delete_op m1 to_delete)
             (deleted + Z.of_nat (length to_delete))
  end.
End dead_code.

Definition remove_dead_code (p : GraphPrepare) : option (GraphPrepare * Z) :=
  '(ks, m, n) ← dead_loop (input_node_id p) (output_node_id p) (S (length (keys p))) (keys p) (opdefs p) 0;
  Some (set_graph p ks m ((0 <? n) || graph_dirty p), n).

(** * Ordering *)

Section order.
Context (m : gmap op_id_t OpNode).

Definition not_dead (id : op_id_t) : bool :=
  match (m !! id : option OpNode) with Some od => negb (is_dead od) | None => false end.

Definition order_keys (ks : list op_id_t) : list op_id_t := filter (fun id => not_dead id = true) ks.

Definition id_to_idx (ids : list op_id_t) : gmap op_id_t nat :=
  list_to_map (imap (fun i id => (id, i)) ids).

(** The successors of the ops, by index. *)
Definition adj_step (idx : gmap op_id_t nat) (adj : list (list nat)) (entry : nat * op_id_t) : list (list nat) :=
  let '(i, id) := entry in
  match (m !! id : option OpNode) with
  | None => adj
  | Some od => foldl (fun adj c => match idx !! src_id c with
                                   | Some s => alter (fun l => l ++ [i]) s adj
                                   | None => adj
                                   end) adj (inputs od)
  end.

Definition adjacency (ids : list op_id_t) : list (list nat) :=
  foldl (adj_step (id_to_idx ids)) (replicate (length ids) []) (imap (fun i id => (i, id)) ids).
End order.

(** The bitmap of visited ops, in words of 32 bits. *)
Definition test_bit (visited : list Z) (i : nat) : bool :=
  negb (Z.land (Z.shiftr (nth (i / 32) visited 0) (Z.of_nat (i mod 32))) 1 =? 0).

Definition set_bit (i : nat) (visited : list Z) : list Z :=
  alter (fun w => Z.lor w (u32 (Z.shiftl 1 (Z.of_nat (i mod 32))))) (i / 32)%nat visited.

(** The next unvisited neighbour and the position after it. *)
Fixpoint next_neighbor (visited : list Z) (neighbors : list nat) (pos : nat) : option nat * nat :=
  match neighbors with
  | [] => (None, pos)
  | v :: rest => if test_bit visited v then next_neighbor visited rest (S pos) else (Some v, S pos)
  end.

(** The depth-first search; the top of the stack comes first. *)
Fixpoint dfs_loop (fuel : nat) (adj : list (list nat)) (visited : list Z) (stack : list (nat * nat))
    (post : list nat) : option (list Z * list nat) :=
  match fuel with
  | O => None
  | S fuel =>
      match stack with
      | [] => Some (visited, post)
      | (idx, pos) :: rest =>
          match next_neighbor visited (drop pos (nth idx adj [])) pos with
          | (Some v, pos') => dfs_loop fuel adj (set_bit v visited) ((v, 0%nat) :: (idx, pos') :: rest) post
          | (None, _) => dfs_loop fuel adj visited rest (post ++ [idx])
          end
      end
  end.

Definition dfs_start (adj : list (list nat)) (acc : list Z * list nat) (start : nat) : option (list Z * list nat) :=
  let '(visited, post) := acc in
  if test_bit visited start then Some acc
  else dfs_loop (2 * length adj + 1) adj (set_bit start visited) [(start, 0%nat)] post.

Definition dfs_order (adj : list (list nat)) : option (list nat) :=
  '(_, post) ← foldM (dfs_start adj) (seq 0 (length adj)) (replicate ((length adj + 31) / 32) 0, []);
  Some (reverse post).

(** The new order of the ops that are not dead, and its length when it
    differs from the old one. *)
Definition order_nodes (p : GraphPrepare) : option (GraphPrepare * Z) :=
  if bool_decide (keys p = []) then Some (p, 0)
  else
    let ids := order_keys (opdefs p) (keys p) in
    if bool_decide (ids = []) then Some (p, 0)
    else
      idx ← dfs_order (adjacency (opdefs p) ids);
      let post_order := (fun i => nth i ids 0) <$> idx in
      if bool_decide (post_order = node_order p) then Some (p, 0)
      else Some (set_node_order p post_order (if bool_decide (post_order = []) then graph_dirty p else true),
                 Z.of_nat (length post_order)).
(** * What dead code removal does *)

Section dead_code_facts.
Context (input_id output_id : op_id_t) (m0 : gmap op_id_t OpNode).

(** [c] reads [id] in the given graph. *)
Definition reads (m : gmap op_id_t OpNode) (c id : op_id_t) : Prop :=
exists od : OpNode, m !! c = Some od /\ id ∈ src_id <$> inputs od.

#[export] Instance reads_dec m c id : Decision (reads m c id).
Proof.
unfold reads. destruct (m !! c) as [od|]; [|by right; intros (? & ? & ?)].
destruct (decide (id ∈ src_id <$> inputs od)) as [Hin|Hn]; [left; by exists od|].
right. intros (od' & [= <-] & Hin). done.
Defined.

(** The node [id] after the ops of [D] are gone: a consumer is taken off
    the list when it is one of them and reads the node. *)
Definition cut_node (D : gset op_id_t) (id : op_id_t) (od : OpNode) : OpNode :=
set_consumers od (filter (fun c => ~ (c ∈ D /\ reads m0 c id)) (consumers od)).

Definition without (D : gset op_id_t) (m : gmap op_id_t OpNode) : Prop :=
forall id, m !! id = (if decide (id ∈ D) then None else cut_node D id <$> m0 !! id).

(** A set of ops that keep each other: every member is live and is the
    input, the output or read by a member. *)
Definition self_supporting (S : gset op_id_t) : Prop :=
forall id, id ∈ S -> exists od, m0 !! id = Some od /\ is_live od = true /\
  (id = input_id \/ id = output_id \/ exists c, c ∈ consumers od /\ c ∈ S).

Definition marked (N : list op_id_t) (m m1 : gmap op_id_t OpNode) : Prop :=
forall id, m1 !! id = (fun od => if decide (id ∈ N) then set_dead od else od) <$> m !! id.

Lemma set_dead_dead od : is_dead (set_dead od) = true.
Proof.
unfold is_dead, set_dead, OP_DEAD. cbn. apply negb_true_iff, Z.eqb_neq. intros H%(f_equal (fun z => Z.testbit z 2)).
rewrite Z.land_spec, Z.lor_spec, Z.bits_0 in H. change (Z.testbit 4 2) with true in H. by rewrite orb_true_r in H.
Qed.

Lemma live_marked N m m1 id : marked N m m1 -> live_at m1 id = live_at m id && bool_decide (id ∉ N).
Proof.
intros Hm. unfold live_at. rewrite (Hm id). destruct (m !! id) as [od|]; [|done]. cbn.
destruct (decide (id ∈ N)).
- unfold is_live. by rewrite set_dead_dead, andb_false_r, bool_decide_false, andb_false_r by tauto.
- by rewrite bool_decide_true, andb_true_r.
Qed.

Lemma live_without D m id : without D m -> live_at m id = live_at m0 id && bool_decide (id ∉ D).
Proof.
intros Hm. unfold live_at. rewrite (Hm id). case_decide.
- by rewrite bool_decide_false, andb_false_r by tauto.
- rewrite bool_decide_true, andb_true_r by done. by destruct (m0 !! id).
Qed.

(** ** One round *)

Lemma mark_ok D m ks :
without D m -> (forall id, id ∈ ks -> is_Some (m !! id)) ->
(forall S, self_supporting S -> S ## D) ->
forall m1 N, foldl (mark_step input_id output_id) (m, []) ks = (m1, N) ->
marked N m m1 /\ NoDup N /\ (forall id, id ∈ N -> id ∈ ks /\ live_at m id = true) /\
(forall S, self_supporting S -> forall id, id ∈ N -> id ∉ S) /\
(N = [] -> forall id od, id ∈ ks -> m !! id = Some od -> removable input_id output_id m id od = false).
Proof.
intros Hw Hks HD. induction ks as [|id ks IH] using rev_ind; intros m1 N.
{ cbn. intros [= <- <-]. split; [intros id; by destruct (m !! id)|]. split; [constructor|].
  split_and!; try done; by intros ? ?%not_elem_of_nil || intros ? ? ? ?%not_elem_of_nil. }
rewrite foldl_app. destruct (foldl _ _ ks) as [m2 N2] eqn:E. cbn.
destruct (IH ltac:(set_solver) m2 N2 eq_refl) as (Hm & Hnd & Hl & HS & Hst). clear IH.
destruct (Hks id ltac:(set_solver)) as [od Eo]. pose proof (Hm id) as E2. rewrite Eo in E2. cbn in E2. rewrite E2.
destruct (removable input_id output_id m2 id _) eqn:Er.
- intros [= <- <-]. unfold removable in Er.
  rewrite !andb_true_iff, !negb_true_iff, !Z.eqb_neq in Er. destruct Er as (((Hlv & Ho) & Hi) & Hc).
  assert (live_at m2 id = true) as Hl2 by (unfold live_at; by rewrite E2).
  rewrite (live_marked _ _ _ _ Hm), andb_true_iff, bool_decide_eq_true in Hl2. destruct Hl2 as [Hl2 Hn].
  rewrite decide_False in * by done.
  split; [|split; [|split; [|split]]].
  + intros x. destruct (decide (x = id)) as [->|Hne].
    * rewrite lookup_insert_eq, Eo. cbn. rewrite decide_True by set_solver. done.
    * rewrite lookup_insert_ne, (Hm x) by done. destruct (m !! x); [|done]. cbn.
      destruct (decide (x ∈ N2)); [rewrite decide_True by set_solver|rewrite decide_False by set_solver]; done.
  + apply NoDup_app. split; [done|]. split; [set_solver|]. apply NoDup_singleton.
  + intros x [Hx| ->%list_elem_of_singleton]%elem_of_app; [destruct (Hl x Hx); set_solver|]. split; [set_solver|done].
  + intros S HS' x [Hx| ->%list_elem_of_singleton]%elem_of_app; [by eapply HS|]. intros Hin.
    destruct (HS' id Hin) as (od0 & E0 & _ & Hor).
    destruct Hor as [->|[->|(c & Hc' & HcS)]]; [done|done|].
    assert (live_at m2 c = true) as Hlc.
    { rewrite (live_marked _ _ _ _ Hm), (live_without _ _ _ Hw). destruct (HS' c HcS) as (odc & Ec & Hlc & _).
      unfold live_at at 1. rewrite Ec, Hlc. specialize (HD S HS').
      rewrite !bool_decide_true; [done| |set_solver]. intros Hx. by eapply HS. }
    assert (c ∈ consumers od) as Hcc.
    { rewrite (Hw id) in Eo. destruct (decide (id ∈ D)); [done|]. rewrite E0 in Eo. injection Eo as <-. cbn.
      apply list_elem_of_filter. split; [|done]. specialize (HD S HS'). set_solver. }
    assert (existsb (live_at m2) (consumers od) = true) as Hx; [|by rewrite Hx in Hc].
    apply existsb_exists. exists c. split; [by apply list_elem_of_In|done].
  + intros Hn'. by destruct N2.
- intros [= <- <-]. split; [done|]. split; [done|]. split; [set_solver|]. split; [done|].
  intros -> x odx [Hx| ->%list_elem_of_singleton]%elem_of_app Ex; [by eapply Hst|].
  replace odx with od by congruence. rewrite <-Er. unfold removable.
  assert (forall cs, existsb (live_at m) cs = existsb (live_at m2) cs) as ->; [|done].
  intros cs. induction cs as [|c cs IHc]; [done|]. cbn. rewrite IHc. f_equal.
  rewrite (live_marked _ _ _ c Hm). by rewrite bool_decide_true, andb_true_r by apply not_elem_of_nil.
Qed.

(** ** Deletion *)

Lemma unlink_lookup id l : forall (m : gmap op_id_t OpNode) x,
foldl (fun (m : gmap op_id_t OpNode) c => alter (drop_consumer id) (src_id c) m) m l !! x =
  (fun od => if decide (x ∈ src_id <$> l) then drop_consumer id od else od) <$> m !! x.
Proof.
assert (forall od, drop_consumer id (drop_consumer id od) = drop_consumer id od) as Hidem.
{ intros od. unfold drop_consumer, set_consumers, with_op. cbn. f_equal. f_equal.
  rewrite list_filter_filter. apply list_filter_iff. tauto. }
induction l as [|c l IH] using rev_ind; intros m x.
{ cbn. destruct (m !! x); [|done]. cbn. by rewrite decide_False by apply not_elem_of_nil. }
rewrite foldl_app. cbn. rewrite fmap_app. cbn. destruct (decide (src_id c = x)) as [<-|Hne].
- rewrite lookup_alter_eq, IH. destruct (m !! src_id c) as [od|]; [|done]. cbn.
  rewrite (decide_True (P := src_id c ∈ _ ++ _)) by set_solver. case_decide; [by rewrite Hidem|done].
- rewrite lookup_alter_ne, IH by done. destruct (m !! x) as [od|]; [|done]. cbn.
  destruct (decide (x ∈ src_id <$> l)); [rewrite decide_True by set_solver|rewrite decide_False by set_solver]; done.
Qed.

Lemma delete_op_lookup m id x :
delete_op m id !! x =
  (if decide (x = id) then None
   else (fun od => if decide (reads m id x) then drop_consumer id od else od) <$> m !! x).
Proof.
unfold delete_op. case_decide as Hx; [subst; by rewrite lookup_delete_eq|]. rewrite lookup_delete_ne by done.
destruct (m !! id) as [od|] eqn:Ei.
- rewrite unlink_lookup. destruct (m !! x); [|done]. cbn. f_equal.
  destruct (decide (x ∈ _)) as [Hin|Hn]; [rewrite decide_True by (by exists od); done|].
  rewrite decide_False; [done|]. intros (od' & E & ?). by simplify_eq.
- destruct (m !! x); [|done]. cbn. rewrite decide_False; [done|]. intros (? & ? & _). congruence.
Qed.

Definition dying (D : gset op_id_t) (N : list op_id_t) (P : gset op_id_t) (m : gmap op_id_t OpNode) : Prop :=
forall x, m !! x = (if decide (x ∈ D ∪ P) then None
  else (fun od => (if decide (x ∈ N) then set_dead (cut_node (D ∪ P) x od) else cut_node (D ∪ P) x od)) <$> m0 !! x).

Lemma dying_step D N P m id :
dying D N P m -> id ∉ D ∪ P -> is_Some (m0 !! id) -> dying D N (P ∪ {[id]}) (delete_op m id).
Proof.
intros Hd Hn [od0 E0] x. rewrite delete_op_lookup. case_decide as Hx.
{ subst. by rewrite decide_True by set_solver. }
assert (reads m id x <-> reads m0 id x) as Hr.
{ unfold reads. rewrite (Hd id), decide_False, E0 by done. cbn. split; intros (od & [= <-] & Hin).
  - exists od0. split; [done|]. by case_decide.
  - eexists. split; [done|]. by case_decide. }
rewrite (Hd x). destruct (decide (x ∈ D ∪ P)); [by rewrite decide_True by set_solver|].
rewrite decide_False by set_solver. destruct (m0 !! x) as [od|]; [|done]. cbn. f_equal.
assert ((if decide (reads m id x) then drop_consumer id (cut_node (D ∪ P) x od) else cut_node (D ∪ P) x od)
  = cut_node (D ∪ (P ∪ {[id]})) x od) as <-; [|by repeat case_decide].
unfold drop_consumer, cut_node, set_consumers, with_op. case_decide as Hc; cbn; f_equal; f_equal.
- rewrite list_filter_filter. apply list_filter_iff. intros c. rewrite Hr in Hc. set_unfold. split.
  + intros [H1 H2] [H3 H4]. apply H2. split; [|done]. naive_solver.
  + intros H1. split; [intros ->; naive_solver|]. naive_solver.
- apply list_filter_iff. intros c. rewrite Hr in Hc. set_unfold. naive_solver.
Qed.

Lemma dying_all D N m m1 :
without D m -> marked N m m1 -> NoDup N -> (forall id, id ∈ N -> id ∉ D /\ is_Some (m0 !! id)) ->
without (D ∪ list_to_set N) (foldl delete_op m1 N).
Proof.
intros Hw Hm Hnd HN.
assert (forall P L, N = P ++ L -> forall m, dying D N (list_to_set P) m ->
  dying D N (list_to_set N) (foldl delete_op m L)) as Hgen.
{ intros P L. revert P. induction L as [|id L IH]; intros P E m' Hd; [by rewrite app_nil_r in E; subst|].
  cbn. apply (IH (P ++ [id])); [by rewrite <-app_assoc|]. rewrite list_to_set_app_L. cbn. rewrite union_empty_r_L.
  rewrite E in Hnd. apply NoDup_app in Hnd as (_ & Hdis & _). destruct (HN id ltac:(set_solver)) as [HD Hs].
  apply dying_step; [done| |done]. intros [?|Hin]%elem_of_union; [done|]. apply elem_of_list_to_set in Hin.
  apply (Hdis id Hin). by left. }
specialize (Hgen [] N eq_refl m1). intros x. rewrite Hgen; clear Hgen.
- destruct (decide (x ∈ D ∪ list_to_set N)) as [|Hn]; [done|]. destruct (m0 !! x); [|done]. cbn. f_equal.
  rewrite decide_False; [done|]. set_solver.
- intros y. cbn. rewrite union_empty_r_L. rewrite (Hm y), (Hw y).
  destruct (decide (y ∈ D)); [done|]. destruct (m0 !! y); [|done]. cbn. by destruct (decide (y ∈ N)).
Qed.

Lemma erase_all N : forall ks, foldl (fun ks id => erase id ks) ks N = filter (fun k => k ∉ N) ks.
Proof.
induction N as [|id N IH]; intros ks; cbn.
- induction ks as [|k ks IHk]; [done|]. cbn. rewrite decide_True by apply not_elem_of_nil. by f_equal.
- rewrite IH. unfold erase. rewrite list_filter_filter. apply list_filter_iff. intros k. rewrite not_elem_of_cons. tauto.
Qed.

(** ** The loop *)

Definition kept_by (D : gset op_id_t) (ks : list op_id_t) : Prop :=
forall k, k ∈ ks <-> k ∉ D /\ is_Some (m0 !! k).

Lemma dead_loop_ok fuel : forall D ks m n,
without D m -> NoDup ks -> kept_by D ks -> (forall S, self_supporting S -> S ## D) ->
(forall id, id ∈ D -> live_at m0 id = true) -> n = Z.of_nat (size D) -> (length ks < fuel)%nat ->
exists D' ks' m', dead_loop input_id output_id fuel ks m n = Some (ks', m', Z.of_nat (size D')) /\
  without D' m' /\ sublist ks' ks /\ kept_by D' ks' /\ (forall S, self_supporting S -> S ## D') /\
  (forall id, id ∈ D' -> live_at m0 id = true) /\
  (forall id od, m' !! id = Some od -> removable input_id output_id m' id od = false) /\ D ⊆ D'.
Proof.
induction fuel as [|fuel IH]; intros D ks m n Hw Hnd Hks HD Hl -> Hlen; [lia|]. cbn [dead_loop].
assert (forall id, id ∈ ks -> is_Some (m !! id)) as Hin.
{ intros id [Hn Hs]%Hks. rewrite (Hw id), decide_False by done. by apply fmap_is_Some. }
destruct (foldl _ _ ks) as [m1 N] eqn:E.
destruct (mark_ok D m ks Hw Hin HD m1 N E) as (Hm & HndN & HN & HSN & Hst). case_bool_decide as HN0.
- specialize (Hst HN0). subst N.
  assert (m1 = m) as ->. { apply map_eq. intros x. rewrite (Hm x). destruct (m !! x); [|done]. cbn. by rewrite decide_False by apply not_elem_of_nil. }
  exists D, ks, m. split_and!; try done. intros id od Eo. apply Hst; [|done]. apply Hks.
  rewrite (Hw id) in Eo. destruct (decide (id ∈ D)); [done|]. split; [done|]. by destruct (m0 !! id).
- assert (forall id, id ∈ N -> id ∉ D /\ live_at m0 id = true) as HN'.
  { intros id Hid. destruct (HN id Hid) as [_ Hlv]. rewrite (live_without _ _ _ Hw), andb_true_iff, bool_decide_eq_true in Hlv.
    tauto. }
  destruct (IH (D ∪ list_to_set N) (foldl (fun ks id => erase id ks) ks N) (foldl delete_op m1 N)
              (Z.of_nat (size D) + Z.of_nat (length N))) as (D' & ks' & m' & E' & Hrest); clear IH.
  + apply (dying_all D N m m1 Hw Hm HndN). intros id Hid. destruct (HN' id Hid) as [HnD Hlv]. split; [done|].
    unfold live_at in Hlv. by destruct (m0 !! id).
  + rewrite erase_all. by apply NoDup_filter.
  + intros k. rewrite erase_all, list_elem_of_filter, (Hks k). set_solver.
  + intros S HS. specialize (HD S HS). intros x Hx [?|Hxn%elem_of_list_to_set]%elem_of_union; [set_solver|].
    by apply (HSN S HS x Hxn).
  + intros id [?|Hid%elem_of_list_to_set]%elem_of_union; [by apply Hl|by apply HN'].
  + rewrite size_union; [|intros x Hx Hxn%elem_of_list_to_set; by apply (HN' x Hxn)].
    rewrite (size_list_to_set N) by done. lia.
  + rewrite erase_all. destruct N as [|id N]; [done|]. destruct (HN id ltac:(by left)) as [Hid _].
    assert (length (filter (fun k => k ∉ id :: N) ks) < length ks)%nat; [|lia].
    apply (length_filter_lt _ ks id Hid). intros Hx. apply Hx. by left.
  + exists D', ks', m'. split; [exact E'|]. destruct Hrest as (H1 & H2 & H3 & H4 & H5 & H6 & H7).
    split_and!; try done; [|set_solver]. etrans; [exact H2|]. rewrite erase_all. apply sublist_filter.
Qed.
End dead_code_facts.

(** * The graph and its meaning *)

Record graph_wf (p : GraphPrepare) : Prop := {
wf_keys : NoDup (keys p);
wf_dom k : k ∈ keys p <-> is_Some (opdefs p !! k);
wf_ids k (od : OpNode) : opdefs p !! k = Some od -> op_id od = k
}.

(** Every live reader of an op is on its consumer list. *)
Definition complete (m : gmap op_id_t OpNode) : Prop :=
forall c (od : OpNode) id (s : OpNode), m !! c = Some od -> is_live od = true -> id ∈ src_id <$> inputs od ->
  m !! id = Some s -> c ∈ consumers s.

(** What an op computes from depends on its attributes and the values it
    reads. *)
Record OpAttrs := mkAttrs {
at_name : option string; at_output : OutputDef; at_data : list Z; at_params : list op_id_t;
at_offset : Z; at_size : Z
}.

Definition attrs_of (od : OpNode) : OpAttrs :=
mkAttrs (name od) (output_def od) (op_data od) (tensor_param_ids od) (const_data_offset od) (const_data_size od).

Section meaning.
Context {V : Type} (sem : OpAttrs -> list (V * Z) -> V).

(** The value of an op whose data flow is at most [h] ops deep; a dead or
    disabled op has none. *)
Fixpoint eval (h : nat) (m : gmap op_id_t OpNode) (id : op_id_t) : option V :=
match h with
| O => None
| S h =>
    match (m !! id : option OpNode) with
    | None => None
    | Some od =>
        if is_live od then
          vs ← mapM (fun c => v ← eval h m (src_id c); Some (v, out_idx c)) (inputs od);
          Some (sem (attrs_of od) vs)
        else None
    end
end.
End meaning.

Lemma mapM_ext_in {A B} (f g : A -> option B) l : (forall x, x ∈ l -> f x = g x) -> mapM f l = mapM g l.
Proof.
induction l as [|x l IH]; intros Hfg; [done|]. cbn. rewrite Hfg by left. destruct (g x); [|done]. cbn.
rewrite IH; [done|]. intros y Hy. apply Hfg. by right.
Qed.

(** ** Dead code removal *)

Section dead_code_meaning.
Context (p : GraphPrepare).

Definition supported (S : gset op_id_t) : Prop :=
self_supporting (input_node_id p) (output_node_id p) (opdefs p) S.

(** The ops that go: live, but in no self-supporting set. *)
Definition deleted_exactly (D : gset op_id_t) : Prop :=
forall id, id ∈ D <-> live_at (opdefs p) id = true /\ forall S, supported S -> id ∉ S.

Context (D : gset op_id_t) (m' : gmap op_id_t OpNode).
Context (Hwo : without (opdefs p) D m') (HD : forall S, supported S -> S ## D)
  (Hl : forall id, id ∈ D -> live_at (opdefs p) id = true)
  (Hst : forall id (od : OpNode), m' !! id = Some od -> removable (input_node_id p) (output_node_id p) m' id od = false).

Definition kept : gset op_id_t := filter (fun id => live_at (opdefs p) id = true) (dom (opdefs p)) ∖ D.

Lemma elem_kept id : id ∈ kept <-> live_at (opdefs p) id = true /\ id ∉ D.
Proof.
unfold kept. rewrite elem_of_difference, elem_of_filter, elem_of_dom. split; [tauto|]. intros [Hlv Hn].
split_and!; try done. unfold live_at in Hlv. by destruct (opdefs p !! id).
Qed.

Lemma kept_supported : supported kept.
Proof.
intros id [Hlv Hn]%elem_kept. unfold live_at in Hlv. destruct (opdefs p !! id) as [od|] eqn:E; [|done].
exists od. split; [done|]. split; [done|].
pose proof (Hst id (cut_node (opdefs p) D id od)) as Hr. rewrite (Hwo id), decide_False, E in Hr by done.
specialize (Hr eq_refl). unfold removable in Hr. change (is_live (cut_node _ _ _ od)) with (is_live od) in Hr.
rewrite Hlv in Hr. cbn in Hr. rewrite !andb_false_iff, !negb_false_iff, !Z.eqb_eq in Hr.
destruct Hr as [[?|?]|Hc]; [by auto|by auto|]. right. right.
apply existsb_exists in Hc as (c & Hc & Hlc). exists c.
apply list_elem_of_In, list_elem_of_filter in Hc as [_ Hc]. split; [done|].
rewrite (live_without _ _ _ _ Hwo), andb_true_iff, bool_decide_eq_true in Hlc. by apply elem_kept.
Qed.

Lemma deleted_exact : deleted_exactly D.
Proof.
intros id. split.
- intros Hid. split; [by apply Hl|]. intros S HS Hin. by apply (HD S HS id).
- intros [Hlv HS]. apply dec_stable. intros Hn. apply (HS kept kept_supported). by apply elem_kept.
Qed.

Lemma kept_source c id (od : OpNode) :
complete (opdefs p) -> c ∉ D -> opdefs p !! c = Some od -> is_live od = true -> id ∈ src_id <$> inputs od -> id ∉ D.
Proof.
intros Hc Hn Ec Hlv Hin Hid. pose proof (Hl id Hid) as Hlid. unfold live_at in Hlid.
destruct (opdefs p !! id) as [s|] eqn:Es; [|done].
apply (HD (kept ∪ {[id]})) with id; [|set_solver|done]. intros x [Hx| ->%elem_of_singleton]%elem_of_union.
- destruct (kept_supported x Hx) as (odx & E & Hlx & Hor). exists odx. split; [done|]. split; [done|]. set_solver.
- exists s. split; [done|]. split; [done|]. right. right. exists c. split; [by eapply Hc|].
  apply elem_of_union_l, elem_kept. split; [|done]. unfold live_at. by rewrite Ec.
Qed.

Lemma complete_without : complete (opdefs p) -> complete m'.
Proof.
intros Hc c od id s. rewrite (Hwo c), (Hwo id). case_decide as Hcd; [done|]. case_decide; [done|].
destruct (opdefs p !! c) as [od0|] eqn:Ec; [|done]. destruct (opdefs p !! id) as [s0|] eqn:Es; [|done].
cbn. intros [= <-] Hlv Hin [= <-]. cbn. apply list_elem_of_filter. split; [tauto|]. by eapply Hc.
Qed.

Lemma eval_without {V} (sem : OpAttrs -> list (V * Z) -> V) h id :
complete (opdefs p) -> id ∉ D -> eval sem h m' id = eval sem h (opdefs p) id.
Proof.
intros Hc. revert id. induction h as [|h IH]; intros id Hn; [done|]. cbn [eval].
rewrite (Hwo id), decide_False by done. destruct (opdefs p !! id) as [od|] eqn:E; [|done]. cbn.
change (is_live (cut_node _ _ _ od)) with (is_live od). destruct (is_live od) eqn:Elv; [|done].
erewrite mapM_ext_in; [reflexivity|]. intros c Hin. cbv beta. rewrite IH; [done|].
eapply kept_source; [done|exact Hn|done|done|]. by apply list_elem_of_fmap_2.
Qed.
End dead_code_meaning.

Lemma sublist_full {A} (l k : list A) : sublist l k -> (length k <= length l)%nat -> l = k.
Proof.
induction 1 as [|x l k Hs IH|x l k Hs IH]; cbn; intros Hl; [done|f_equal; apply IH; lia|].
apply sublist_length in Hs. lia.
Qed.

Lemma cut_nothing m id : cut_node m ∅ id <$> m !! id = m !! id.
Proof.
destruct (m !! id) as [od|]; [|done]. cbn. f_equal. unfold cut_node, set_consumers, with_op.
destruct od as [[? ? ? ? ? cs] ? ? ? ?]. cbn. f_equal. f_equal.
induction cs as [|c cs IH]; [done|]. cbn. rewrite decide_True by set_solver. by f_equal.
Qed.

(** The run of the pass, with what it leaves. *)
Lemma remove_dead_code_ok p :
graph_wf p ->
exists ks m D, remove_dead_code p =
    Some (set_graph p ks m ((0 <? Z.of_nat (size D)) || graph_dirty p), Z.of_nat (size D)) /\
  sublist ks (keys p) /\ graph_wf (set_graph p ks m ((0 <? Z.of_nat (size D)) || graph_dirty p)) /\
  without (opdefs p) D m /\ deleted_exactly p D /\ (D = ∅ -> ks = keys p /\ m = opdefs p) /\
  (complete (opdefs p) -> complete m /\
    forall V (sem : OpAttrs -> list (V * Z) -> V) h id, id ∉ D -> eval sem h m id = eval sem h (opdefs p) id).
Proof.
intros [Hnd Hdom Hids].
destruct (dead_loop_ok (input_node_id p) (output_node_id p) (opdefs p) (S (length (keys p))) ∅ (keys p) (opdefs p) 0)
  as (D & ks & m & E & Hw & Hsub & Hk & HD & Hl & Hst & _).
- intros id. rewrite decide_False by set_solver. symmetry. apply cut_nothing.
- done.
- intros k. rewrite Hdom. set_solver.
- intros S _. set_solver.
- set_solver.
- by rewrite size_empty.
- lia.
- exists ks, m, D. unfold remove_dead_code. rewrite E. cbn [mbind option_bind].
  split; [done|]. split; [done|]. split.
  { split; cbn.
    - by eapply sublist_NoDup.
    - intros k. rewrite (Hk k), (Hw k). case_decide; [naive_solver|]. by rewrite fmap_is_Some; naive_solver.
    - intros k od. rewrite (Hw k). case_decide; [done|]. destruct (opdefs p !! k) as [od0|] eqn:E0; [|done].
      cbn. intros [= <-]. exact (Hids k od0 E0). }
  split; [done|]. split; [by eapply deleted_exact|]. split.
  { intros ->. split.
    - apply sublist_full; [done|]. apply submseteq_length, NoDup_submseteq; [done|]. intros k Hs%Hdom.
      apply Hk. split; [set_solver|done].
    - apply map_eq. intros id. rewrite (Hw id), decide_False by set_solver. by apply cut_nothing. }
  intros Hc. split; [by eapply complete_without|].
  intros V sem h id Hn. by eapply eval_without.
Qed.

(** * The depth-first search *)

Lemma land_one x : negb (Z.land x 1 =? 0) = Z.odd x.
Proof.
change 1 with (Z.ones 1) at 1. rewrite Z.land_ones by lia. change (2 ^ 1) with 2. rewrite Zmod_odd. by destruct (Z.odd x).
Qed.

Lemma test_bit_spec visited i :
test_bit visited i = Z.testbit (nth (i / 32) visited 0) (Z.of_nat (i mod 32)).
Proof. unfold test_bit. by rewrite land_one, Z.testbit_odd. Qed.

Lemma set_bit_length i visited : length (set_bit i visited) = length visited.
Proof. apply length_alter. Qed.

Lemma test_set_bit visited i j :
(i / 32 < length visited)%nat -> test_bit (set_bit i visited) j = bool_decide (i = j) || test_bit visited j.
Proof.
intros Hlen. rewrite !test_bit_spec. unfold set_bit. rewrite !nth_lookup. destruct (decide (i / 32 = j / 32)%nat) as [E|Hne].
- rewrite <-E, list_lookup_alter_eq. destruct (lookup_lt_is_Some_2 visited (i / 32)%nat Hlen) as [w Ew]. rewrite Ew. cbn [fmap option_fmap option_map default from_option id].
  rewrite Z.shiftl_1_l, wrap_id; cycle 1.
  { split; [lia|]. apply Z.pow_lt_mono_r; pose proof (Nat.mod_upper_bound i 32); lia. }
  rewrite Z.lor_spec, Z.pow2_bits_eqb by lia. rewrite orb_comm. f_equal.
  pose proof (Nat.div_mod_eq i 32). pose proof (Nat.div_mod_eq j 32).
  case_bool_decide; [subst; apply Z.eqb_refl|]. apply Z.eqb_neq. intros Heq%Nat2Z.inj. congruence.
- rewrite list_lookup_alter_ne by done. rewrite bool_decide_false by (by intros ->). done.
Qed.

Lemma test_bit_zeros k i : test_bit (replicate k 0) i = false.
Proof.
rewrite test_bit_spec, nth_lookup. destruct (replicate k 0 !! (i / 32)%nat) as [w|] eqn:E; cbn.
- apply lookup_replicate in E as [-> _]. apply Z.testbit_0_l.
- apply Z.testbit_0_l.
Qed.

Section dfs.
Context (adj : list (list nat)).
Notation n := (length adj).
Definition succ (u v : nat) : Prop := v ∈ nth u adj [].
Context (Hadj : forall u v, succ u v -> (v < n)%nat).

Lemma next_neighbor_ok visited rest : forall pos,
match next_neighbor visited rest pos with
| (Some v, pos') => exists mid suf, rest = mid ++ v :: suf /\ Forall (fun u => test_bit visited u = true) mid /\
    test_bit visited v = false /\ pos' = (pos + S (length mid))%nat
| (None, _) => Forall (fun u => test_bit visited u = true) rest
end.
Proof.
induction rest as [|v rest IH]; intros pos; cbn; [constructor|]. destruct (test_bit visited v) eqn:Ev.
- specialize (IH (S pos)). destruct (next_neighbor visited rest (S pos)) as [[w|] pos'].
  + destruct IH as (mid & suf & -> & Hm & Hw & ->). exists (v :: mid), suf. split_and!; [done|by constructor|done|cbn; lia].
  + by constructor.
- exists [], rest. split_and!; [done|constructor|done|cbn; lia].
Qed.

(** A finished op comes after its successors, those excepted from which it
    can be reached. *)
Definition finished_after (post : list nat) : Prop :=
forall A u B v, post = A ++ u :: B -> succ u v -> v ∈ A \/ rtc succ v u.

Record dfs_inv (visited : list Z) (stack : list (nat * nat)) (post : list nat) : Prop := {
di_len : length visited = ((n + 31) / 32)%nat;
di_nodup : NoDup (stack.*1 ++ post);
di_bits i : (i < n)%nat -> test_bit visited i = true <-> i ∈ stack.*1 ++ post;
di_range i : i ∈ stack.*1 ++ post -> (i < n)%nat;
di_seen u pos v : (u, pos) ∈ stack -> v ∈ take pos (nth u adj []) -> v ∈ stack.*1 ++ post;
di_path u v pre suf : stack.*1 = pre ++ v :: u :: suf -> succ u v;
di_post : finished_after post
}.

Lemma stack_path stack : (forall u v pre suf, stack = pre ++ v :: u :: suf -> succ u v) ->
forall top rest, stack = top :: rest -> forall x, x ∈ stack -> rtc succ x top.
Proof.
induction stack as [|t stack IH]; intros Hp top rest; [done|]. intros [= -> ->] x [->|Hx]%elem_of_cons; [done|].
destruct rest as [|u rest]; [by apply not_elem_of_nil in Hx|].
assert (succ u top) by (by apply (Hp u top [] rest)).
assert (rtc succ x u); [|by eapply rtc_r]. apply (IH (fun u v pre suf E => Hp u v (top :: pre) suf ltac:(by rewrite E)) u rest eq_refl x Hx).
Qed.

Lemma bits_small i : (i < n)%nat -> (i / 32 < (n + 31) / 32)%nat.
Proof.
intros Hi. apply Nat.lt_le_trans with ((i / 32) + 1)%nat; [lia|].
replace (i / 32 + 1)%nat with ((i + 1 * 32) / 32)%nat by (by rewrite Nat.div_add). apply Nat.Div0.div_le_mono. lia.
Qed.

Lemma nodup_lt l : NoDup l -> (forall i, i ∈ l -> (i < n)%nat) -> (length l <= n)%nat.
Proof.
intros Hnd Hr. rewrite <-(length_seq n 0). apply submseteq_length, NoDup_submseteq; [done|].
intros i Hi%Hr. apply elem_of_seq. lia.
Qed.

(** The search ends, having pushed every op it meets once. *)
Lemma dfs_loop_ok fuel : forall visited stack post,
dfs_inv visited stack post -> (2 * (n - length (stack ++ ((fun i => (i, 0%nat)) <$> post))) + length stack < fuel)%nat ->
exists visited' post', dfs_loop fuel adj visited stack post = Some (visited', post') /\
  dfs_inv visited' [] post' /\ forall i, i ∈ stack.*1 ++ post -> i ∈ post'.
Proof.
induction fuel as [|fuel IH]; intros visited stack post Hi Hf; [lia|]. cbn [dfs_loop].
rewrite length_app, length_fmap in Hf.
destruct stack as [|[u pos] rest]; [by exists visited, post|].
pose proof (next_neighbor_ok visited (drop pos (nth u adj [])) pos) as Hn.
assert ((u < n)%nat) as Hu by (apply (di_range _ _ _ Hi); by left).
destruct (next_neighbor _ _ pos) as [[v|] pos'].
- destruct Hn as (mid & suf & Ed & Hmid & Hv & ->).
  assert (succ u v) as Hs.
  { unfold succ. rewrite <-(take_drop pos (nth u adj [])), Ed. set_solver. }
  pose proof (Hadj u v Hs) as Hvn.
  assert (v ∉ ((u, pos) :: rest).*1 ++ post) as Hfresh.
  { intros Hx%(di_bits _ _ _ Hi); [congruence|done]. }
  assert (length (v :: ((u, pos) :: rest).*1 ++ post) <= n)%nat as Hle.
  { apply nodup_lt; [constructor; [done|apply Hi]|]. intros i [->|Hin]%elem_of_cons; [done|]. by apply (di_range _ _ _ Hi). }
  cbn in Hle. rewrite length_app, length_fmap in Hle.
  destruct (IH (set_bit v visited) ((v, 0%nat) :: (u, (pos + S (length mid))%nat) :: rest) post) as (vis' & post' & E & Hi' & Hsub).
  + destruct Hi as [H1 H2 H3 H4 H5 H6 H7]. cbn [fmap list_fmap fst app] in *. split; cbn [fmap list_fmap fst app].
    * by rewrite set_bit_length.
    * by constructor.
    * intros i Hin. rewrite test_set_bit by (rewrite H1; by apply bits_small).
      rewrite orb_true_iff, bool_decide_eq_true, (H3 i Hin). set_solver.
    * intros i [->|Hin]%elem_of_cons; [done|]. by apply H4.
    * intros w q x [[= -> ->]|[[= -> ->]|Hin]%elem_of_cons]%elem_of_cons Hx; [by rewrite take_0 in Hx; set_solver| |].
      -- cbn. assert (take (pos + S (length mid)) (nth u adj []) = take pos (nth u adj []) ++ mid ++ [v]) as Et.
         { rewrite <-(take_drop pos (nth u adj [])) at 1. rewrite Ed.
           destruct (decide (pos <= length (nth u adj []))%nat).
           - rewrite take_app_ge by (rewrite length_take; lia). f_equal. rewrite length_take, Nat.min_l by lia.
             replace (pos + S (length mid) - pos)%nat with (length (mid ++ [v])) by (rewrite length_app; cbn; lia).
             rewrite (app_assoc mid [v] suf : mid ++ v :: suf = _). apply take_app_length.
           - rewrite drop_ge in Ed by lia. by destruct mid. }
         rewrite Et in Hx. apply elem_of_app in Hx as [Hx|[Hx|Hx]%elem_of_app].
         ++ right. apply (H5 u pos); [by left|done].
         ++ right. apply H3; [|by rewrite Forall_forall in Hmid; apply Hmid]. apply (Hadj u). unfold succ.
            rewrite <-(take_drop pos (nth u adj [])), Ed. set_solver.
         ++ apply list_elem_of_singleton in Hx as ->. by left.
      -- right. apply (H5 w q); [by right|done].
    * intros a b [|c pre] suf' Heq; cbn in Heq; [by injection Heq as <- <- _|]. injection Heq as _ Heq. by eapply H6.
    * done.
  + rewrite length_app, length_fmap. cbn in *. lia.
  + exists vis', post'. split; [done|]. split; [done|]. intros i Hin. apply Hsub. cbn in *. set_solver.
- pose proof (nodup_lt _ (di_nodup _ _ _ Hi) (di_range _ _ _ Hi)) as Hle. rewrite length_app, length_fmap in Hle.
  assert (forall v, succ u v -> v ∈ ((u, pos) :: rest).*1 ++ post) as Hall.
  { intros v Hs. pose proof (Hadj u v Hs) as Hvn. unfold succ in Hs. rewrite <-(take_drop pos (nth u adj [])) in Hs.
    apply elem_of_app in Hs as [Hs|Hs]; [by eapply (di_seen _ _ _ Hi); [left|]|].
    rewrite Forall_forall in Hn. apply (di_bits _ _ _ Hi); [done|by apply Hn]. }
  destruct (IH visited rest (post ++ [u])) as (vis' & post' & E & Hi' & Hsub).
  + assert (forall i, i ∈ rest.*1 ++ post ++ [u] <-> i ∈ ((u, pos) :: rest).*1 ++ post) as Heq by (cbn; set_solver).
    destruct Hi as [H1 H2 H3 H4 H5 H6 H7]. split.
    * done.
    * cbn in H2. rewrite app_assoc. rewrite Permutation_app_comm. done.
    * intros i Hin. by rewrite Heq, H3.
    * intros i. rewrite Heq. apply H4.
    * intros w q x Hin Hx. rewrite Heq. apply (H5 w q); [by right|done].
    * intros a b pre suf E. apply (H6 a b (u :: pre) suf). cbn. by rewrite E.
    * intros A w B v E Hs. destruct (decide (B = [])) as [->|HB].
      -- apply app_inj_tail in E as [<- <-]. specialize (Hall v Hs).
         apply elem_of_app in Hall as [Hst|]; [|by left]. right.
         eapply (stack_path (((u, pos) :: rest).*1)); [|reflexivity|done]. intros a b pre suf Ea. by eapply H6.
      -- destruct (exists_last HB) as (B' & z & ->). rewrite app_comm_cons, app_assoc in E.
         apply app_inj_tail in E as [E _]. by eapply H7.
  + rewrite length_app, length_fmap, length_app. cbn in *. lia.
  + exists vis', post'. split; [done|]. split; [done|]. intros i Hin. apply Hsub. cbn in *. set_solver.
Qed.

Lemma dfs_order_ok :
exists post, dfs_order adj = Some (reverse post) /\ post ≡ₚ seq 0 n /\ finished_after post.
Proof.
unfold dfs_order.
assert (forall k, (k <= n)%nat -> exists visited post,
  foldM (dfs_start adj) (seq 0 k) (replicate ((n + 31) / 32) 0, []) = Some (visited, post) /\
  dfs_inv visited [] post /\ forall i, (i < k)%nat -> i ∈ post) as Hgen.
{ induction k as [|k IH]; intros Hk.
  - exists (replicate ((n + 31) / 32) 0), []. split; [done|]. split; [|lia]. split; cbn.
    + apply length_replicate.
    + constructor.
    + intros i _. rewrite test_bit_zeros. set_solver.
    + set_solver.
    + set_solver.
    + intros u v pre suf E. by destruct pre.
    + intros A u B v E. by destruct A.
  - destruct IH as (visited & post & E & Hi & Hall); [lia|]. rewrite seq_S, foldM_app, E. cbn [mbind option_bind foldM dfs_start].
    cbn [Nat.add]. unfold dfs_start. destruct (test_bit visited k) eqn:Ek.
    + cbn. exists visited, post. split; [done|]. split; [done|]. intros i Hik. apply (di_bits _ _ _ Hi) in Ek; [|lia].
      destruct (decide (i = k)) as [->|]; [done|]. apply Hall. lia.
    + assert (k ∉ post) as Hfresh. { intros Hx%(di_bits _ _ _ Hi); [congruence|lia]. }
      assert (length (k :: post) <= n)%nat as Hle.
      { apply nodup_lt; [constructor; [done|apply Hi]|]. intros i [->|Hin]%elem_of_cons; [lia|]. by apply (di_range _ _ _ Hi). }
      cbn in Hle.
      destruct (dfs_loop_ok (2 * n + 1) (set_bit k visited) [(k, 0%nat)] post) as (vis' & post' & E' & Hi' & Hsub).
      * destruct Hi as [H1 H2 H3 H4 H5 H6 H7]. cbn [fmap list_fmap fst app] in *. split; cbn [fmap list_fmap fst app].
        -- by rewrite set_bit_length.
        -- by constructor.
        -- intros i Hin. rewrite test_set_bit by (rewrite H1; apply bits_small; lia).
           rewrite orb_true_iff, bool_decide_eq_true, (H3 i Hin). set_solver.
        -- intros i [->|Hin]%elem_of_cons; [lia|]. by apply H4.
        -- intros u pos v [= -> ->]%list_elem_of_singleton. rewrite take_0. set_solver.
        -- intros u v [|? pre] suf; [done|]. by destruct pre.
        -- done.
      * rewrite length_app, length_fmap. cbn. lia.
      * rewrite E'. cbn. exists vis', post'. split; [done|]. split; [done|]. intros i Hik. apply Hsub. cbn.
        destruct (decide (i = k)) as [->|]; [by left|]. right. apply Hall. lia. }
destruct (Hgen n ltac:(lia)) as (visited & post & E & Hi & Hall). rewrite E. cbn. exists post. split; [done|].
split; [|apply Hi]. apply NoDup_Permutation; [apply Hi|apply NoDup_seq|]. intros i. rewrite elem_of_seq. split.
- intros Hin. split; [lia|]. cbn. apply (di_range _ _ _ Hi). done.
- intros [_ Hlt]. apply Hall. lia.
Qed.
End dfs.

(** ** The order of the graph *)

Lemma StronglySorted_map {A B} (R : A -> A -> Prop) (R' : B -> B -> Prop) (f : A -> B) l :
StronglySorted R l -> (forall x y, x ∈ l -> y ∈ l -> R x y -> R' (f x) (f y)) -> StronglySorted R' (f <$> l).
Proof.
induction 1 as [|x l Hl IH Hx]; intros HR; [constructor|]. cbn. constructor.
- apply IH. intros a b Ha Hb. apply HR; by right.
- apply Forall_fmap. rewrite Forall_forall in Hx |- *. intros y Hy. cbn. apply HR; [by left|by right|by apply Hx].
Qed.

Lemma finished_sorted adj post :
finished_after adj post -> NoDup post ->
StronglySorted (fun u v => succ adj v u -> rtc (succ adj) u v) (reverse post).
Proof.
induction post as [|x post IH] using rev_ind; intros Hf Hnd; [constructor|].
rewrite reverse_snoc. apply NoDup_app in Hnd as (Hnd & Hd & _). constructor.
- apply IH; [|done]. intros A u B v -> Hs. apply (Hf A u (B ++ [x]) v); [|done]. by rewrite <-app_assoc.
- apply Forall_forall. intros y Hy Hs. rewrite elem_of_reverse in Hy. apply list_elem_of_split in Hy as (A & B & ->).
  destruct (Hf A y (B ++ [x]) x) as [Hin|]; [by rewrite <-app_assoc|done| |done].
  destruct (Hd x); [|by left]. set_solver.
Qed.

(** [v] reads [u], and neither is dead. *)
Definition flow (m : gmap op_id_t OpNode) (u v : op_id_t) : Prop :=
not_dead m u = true /\ not_dead m v = true /\ reads m v u.

Lemma id_to_idx_spec ids id i : NoDup ids -> id_to_idx ids !! id = Some i <-> ids !! i = Some id.
Proof.
intros Hnd. unfold id_to_idx.
assert ((imap (fun i id => (id, i)) ids).*1 = ids) as Hf by (rewrite fmap_imap; by apply imap_const || apply list_eq; intros k; rewrite list_lookup_imap; by destruct (ids !! k)).
rewrite <-elem_of_list_to_map by (by rewrite Hf). rewrite list_elem_of_lookup. split.
- intros (k & Hk). rewrite list_lookup_imap in Hk. destruct (ids !! k) eqn:E; [|done]. cbn in Hk. by injection Hk as <- <-.
- intros E. exists i. by rewrite list_lookup_imap, E.
Qed.

Lemma adj_step_length m idx adj e : length (adj_step m idx adj e) = length adj.
Proof.
destruct e as [i id]. cbn. destruct (m !! id) as [od|]; [|done]. generalize (inputs od). intros l. revert adj.
induction l as [|c l IH]; intros adj; [done|]. cbn. rewrite IH. destruct (idx !! src_id c); [apply length_alter|done].
Qed.

Lemma adj_inputs (idx : gmap op_id_t nat) (l : list InputConn) (i : nat) : forall (adj : list (list nat)) (u v : nat),
(forall c s, c ∈ l -> idx !! src_id c = Some s -> (s < length adj)%nat) ->
v ∈ nth u (foldl (fun adj c => match idx !! src_id c with
                               | Some s => alter (fun l => l ++ [i]) s adj
                               | None => adj end) adj l) [] <->
v ∈ nth u adj [] \/ v = i /\ exists c, c ∈ l /\ idx !! src_id c = Some u.
Proof.
induction l as [|c l IH] using rev_ind; intros adj u v Hs.
{ cbn. set_solver. }
rewrite foldl_app. cbn. set (adj' := foldl _ adj l).
assert (length adj' = length adj) as Hl.
{ unfold adj'. clear. revert adj. induction l as [|c l IH]; intros adj; [done|]. cbn. rewrite IH.
  destruct (idx !! src_id c); [apply length_alter|done]. }
specialize (IH adj u v ltac:(set_solver)). fold adj' in IH.
destruct (idx !! src_id c) as [s|] eqn:Es; cycle 1.
{ rewrite IH. split; [set_solver|]. intros [?|(-> & c' & Hc' & E)]; [by left|]. right. split; [done|].
  apply elem_of_app in Hc' as [?| ->%list_elem_of_singleton]; [by exists c'|congruence]. }
rewrite nth_lookup. destruct (decide (u = s)) as [->|Hne].
- rewrite list_lookup_alter_eq. assert ((s < length adj')%nat) as Hlt by (rewrite Hl; by apply (Hs c); [set_solver|]).
  rewrite nth_lookup in IH. destruct (lookup_lt_is_Some_2 adj' s Hlt) as [x Ex]. rewrite Ex in *. cbn in *.
  rewrite elem_of_app, IH, list_elem_of_singleton. split; [|set_solver].
  intros [[?|?]|?]; [by left|set_solver|]. right. split; [done|]. exists c. split; [set_solver|done].
- rewrite list_lookup_alter_ne by done. rewrite <-nth_lookup, IH. split; [set_solver|].
  intros [?|(-> & c' & Hc' & E)]; [by left|]. right. split; [done|].
  apply elem_of_app in Hc' as [?| ->%list_elem_of_singleton]; [by exists c'|congruence].
Qed.

Lemma adjacency_spec m ids :
NoDup ids -> (forall id, id ∈ ids -> not_dead m id = true) ->
length (adjacency m ids) = length ids /\
forall u v, succ (adjacency m ids) u v <-> exists a b, ids !! u = Some a /\ ids !! v = Some b /\ flow m a b.
Proof.
intros Hnd Hdead. unfold adjacency. set (idx := id_to_idx ids).
assert (forall k (es : list (nat * op_id_t)), es = take k (imap (fun i id => (i, id)) ids) ->
  let adj := foldl (adj_step m idx) (replicate (length ids) []) es in
  length adj = length ids /\ forall u v, v ∈ nth u adj [] <->
    exists a b, ids !! u = Some a /\ ids !! v = Some b /\ (v < k)%nat /\ flow m a b) as Hgen.
{ induction k as [|k IH]; intros es ->; cbv zeta.
  - cbn. split; [apply length_replicate|]. intros u v. split; [|intros (? & ? & _ & _ & ? & _); lia].
    rewrite nth_lookup. destruct (_ !! u) eqn:E; cbn; [apply lookup_replicate in E as [-> _]|]; set_solver.
  - specialize (IH _ eq_refl). cbv zeta in IH. set (adj := foldl _ _ (take k _)) in *. destruct IH as [Hl Hs]. destruct (ids !! k) as [id|] eqn:Ek; cycle 1.
    + assert (take (S k) (imap (fun i id => (i, id)) ids) = take k (imap (fun i id => (i, id)) ids)) as ->.
      { apply lookup_ge_None in Ek. by rewrite !take_ge by (rewrite length_imap; lia). }
      fold adj. split; [done|].
      intros u v. rewrite Hs. split; intros (a & b & ? & Eb & ? & ?); exists a, b; split_and!; try done; [lia|].
      apply lookup_lt_Some in Eb. apply lookup_ge_None in Ek. lia.
    + rewrite (take_S_r _ _ (k, id)) by (by rewrite list_lookup_imap, Ek). rewrite foldl_app. fold adj. cbn [foldl].
      rewrite adj_step_length. split; [done|]. intros u v. unfold adj_step.
      assert (not_dead m id = true) as Hnid by (by apply Hdead; eapply list_elem_of_lookup_2).
      pose proof Hnid as Hnid'. unfold not_dead in Hnid'. destruct (m !! id) as [od|] eqn:Eo; [|done]. clear Hnid'.
      rewrite adj_inputs; cycle 1.
      { intros c s _ E. apply id_to_idx_spec in E; [|done]. rewrite Hl. by eapply lookup_lt_Some. }
      rewrite Hs. split.
      * intros [(a & b & ? & ? & ? & ?)|(-> & c & Hc & E)]; [exists a, b; split_and!; try done; lia|].
        apply id_to_idx_spec in E; [|done]. exists (src_id c), id. split_and!; try done; [lia|].
        split; [by apply Hdead; eapply list_elem_of_lookup_2|]. split; [done|]. exists od. split; [done|].
        by apply list_elem_of_fmap_2.
      * intros (a & b & Ea & Eb & Hlt & Hf). destruct (decide (v = k)) as [->|]; [|left; exists a, b; split_and!; try done; lia].
        right. split; [done|]. assert (b = id) as -> by congruence. destruct Hf as (_ & _ & od' & Eo' & Hin).
        assert (od' = od) as -> by congruence. apply list_elem_of_fmap in Hin as (c & -> & Hc). exists c. split; [done|].
        by apply id_to_idx_spec. }
destruct (Hgen (length ids) (imap (fun i id => (i, id)) ids)) as [Hl Hs]; [by rewrite take_ge by (by rewrite length_imap)|].
split; [done|]. intros u v. unfold succ. rewrite Hs. split; intros (a & b & ? & Eb & Hr); exists a, b; [tauto|].
split_and!; try tauto. by eapply lookup_lt_Some.
Qed.

(** Nothing stands before an op it reads from, directly or through others. *)
Definition data_order (m : gmap op_id_t OpNode) : list op_id_t -> Prop :=
StronglySorted (fun u v => ~ rtc (flow m) v u).

Definition acyclic (m : gmap op_id_t OpNode) : Prop := forall x, ~ tc (flow m) x x.

Lemma order_keys_elem m ks id : id ∈ order_keys m ks <-> id ∈ ks /\ not_dead m id = true.
Proof. unfold order_keys. rewrite list_elem_of_filter. tauto. Qed.

Lemma StronglySorted_by_index {A} (R : A -> A -> Prop) l :
StronglySorted R l <-> forall i j x y, (i < j)%nat -> l !! i = Some x -> l !! j = Some y -> R x y.
Proof.
induction l as [|a l IH]; [split; [done|constructor]|]. rewrite StronglySorted_cons, Forall_forall, IH. split.
- intros [Ha Hl] [|i] [|j] x y Hij Hi Hj; [lia| |lia|]; cbn in Hi, Hj.
  + injection Hi as <-. apply Ha. by eapply list_elem_of_lookup_2.
  + eapply (Hl i j); [lia|done|done].
- intros H. split.
  + intros x (j & Hj)%list_elem_of_lookup. by apply (H 0%nat (S j)); [lia| |].
  + intros i j x y Hij. apply (H (S i) (S j)). lia.
Qed.

(** Edge by edge is enough. *)
Lemma data_order_edges m l :
acyclic m -> NoDup l -> (forall id, not_dead m id = true -> id ∈ l) ->
StronglySorted (fun u v => flow m v u -> rtc (flow m) u v) l -> data_order m l.
Proof.
intros Hac Hnd Hall Hs. rewrite StronglySorted_by_index in Hs.
assert (forall i j u v, l !! i = Some u -> l !! j = Some v -> flow m u v -> (i < j)%nat) as Hedge.
{ intros i j u v Hi Hj Hf. destruct (decide (i < j)%nat) as [|Hge]; [done|]. exfalso.
  destruct (decide (i = j)) as [->|Hne].
  - assert (u = v) as -> by congruence. apply (Hac v). by apply tc_once.
  - apply (Hac u). eapply tc_rtc_r; [by apply tc_once|]. apply (Hs j i v u); [lia|done|done|done]. }
apply StronglySorted_by_index. intros i j u v Hij Hi Hj Hr.
assert (forall k, l !! k = Some v -> (k <= i)%nat) as Hk; [|specialize (Hk j Hj); lia]. clear j Hj Hij.
induction Hr as [u|v w u Hf _ IH]; intros k Hk; [by rewrite (NoDup_lookup l k i u)|].
assert (w ∈ l) as (k' & Hk')%list_elem_of_lookup by (apply Hall, Hf).
specialize (IH Hi k' Hk'). specialize (Hedge k k' v w Hk Hk' Hf). lia.
Qed.

(** The run of the pass. *)
Lemma order_nodes_ok p :
graph_wf p -> exists l n, order_nodes p = Some (set_node_order p l ((0 <? n) || graph_dirty p), n) /\
  (0 <= n) /\ (n = 0 <-> l = node_order p) /\
  (l = node_order p /\ order_keys (opdefs p) (keys p) = [] \/
   l ≡ₚ order_keys (opdefs p) (keys p) /\ StronglySorted (fun u v => flow (opdefs p) v u -> rtc (flow (opdefs p)) u v) l).
Proof.
intros [Hnd Hdom _]. unfold order_nodes. set (ids := order_keys (opdefs p) (keys p)).
assert (forall p : GraphPrepare, set_node_order p (node_order p) ((0 <? 0) || graph_dirty p) = p) as Hsame by (by intros []).
case_bool_decide as Hk.
{ exists (node_order p), 0. rewrite Hsame. split_and!; try done. left. split; [done|]. unfold ids. by rewrite Hk. }
case_bool_decide as Hids.
{ exists (node_order p), 0. rewrite Hsame. split_and!; try done. by left. }
assert (NoDup ids) as Hndi by (by apply NoDup_filter).
destruct (adjacency_spec (opdefs p) ids Hndi) as [Hlen Hsucc]; [by intros id [_ ?]%order_keys_elem|].
destruct (dfs_order_ok (adjacency (opdefs p) ids)) as (post & E & Hp & Hfin).
{ intros u v (a & b & _ & Hb & _)%Hsucc. rewrite Hlen. by eapply lookup_lt_Some. }
rewrite E. cbn [mbind option_bind]. set (l := (fun i => nth i ids 0) <$> reverse post).
assert (l ≡ₚ ids) as Hl.
{ unfold l. rewrite (reverse_Permutation post), Hp, Hlen.
  assert ((fun i => nth i ids 0) <$> seq 0 (length ids) = ids) as ->; [|done].
  apply list_eq. intros i. rewrite list_lookup_fmap. destruct (ids !! i) as [id|] eqn:Ei.
  - rewrite lookup_seq_lt by (by eapply lookup_lt_Some). cbn. f_equal. rewrite nth_lookup, Ei. done.
  - rewrite lookup_seq_ge; [done|]. by apply lookup_ge_None. }
assert (StronglySorted (fun u v => flow (opdefs p) v u -> rtc (flow (opdefs p)) u v) l) as Hs.
{ assert (forall i a, i ∈ post -> nth i ids 0 = a -> ids !! i = Some a) as Hnth.
  { intros i a Hi <-. rewrite Hp, elem_of_seq, Hlen in Hi. destruct (lookup_lt_is_Some_2 ids i) as [x Ex]; [lia|].
    by rewrite nth_lookup, Ex. }
  apply (StronglySorted_map _ _ _ _ (finished_sorted _ post Hfin ltac:(rewrite Hp; apply NoDup_seq))).
  intros x y Hx Hy Hxy Hf. rewrite elem_of_reverse in Hx, Hy.
  pose proof (Hnth x _ Hx eq_refl) as Ex. pose proof (Hnth y _ Hy eq_refl) as Ey.
  assert (succ (adjacency (opdefs p) ids) y x) as Hyx by (apply Hsucc; eauto).
  specialize (Hxy Hyx). clear Hyx Hf Hy Ey Hx Ex.
  induction Hxy as [|x z y Hxz _ IH]; [done|]. eapply rtc_l; [|exact IH].
  apply Hsucc in Hxz as (a & b & Ea & Eb & Hf). by rewrite !nth_lookup, Ea, Eb. }
case_bool_decide as Heq.
- exists l, 0. rewrite Heq, Hsame. split_and!; try done. right. by rewrite <-Heq.
- assert (length l <> 0%nat) as Hz.
  { rewrite (Permutation_length Hl). by intros ?%length_zero_iff_nil. }
  exists l, (Z.of_nat (length l)). split_and!; try lia; [|split; [lia|done]|by right].
  rewrite bool_decide_false by (intros Hn; by rewrite Hn in Hz).
  replace (0 <? Z.of_nat (length l)) with true by (symmetry; apply Z.ltb_lt; lia). done.
Qed.

(** * The results *)

(** C15: Dead code removal deletes exactly the live ops that no
    self-supporting set of ops contains -- a set whose members are live and
    are the input, the output or read by another member --, so its outcome
    does not depend on the order in which the map is visited.  It ends
    within one round more than there are ops, takes the deleted readers off
    the consumer lists, keeps the graph well formed and, when the consumer
    lists are complete, changes the value of no op that stays. *)
Theorem remove_dead_code_exact p :
  graph_wf p ->
  exists p' D, remove_dead_code p = Some (p', Z.of_nat (size D)) /\ deleted_exactly p D /\
    without (opdefs p) D (opdefs p') /\ sublist (keys p') (keys p) /\ graph_wf p' /\
    (complete (opdefs p) -> complete (opdefs p') /\
      forall V (sem : OpAttrs -> list (V * Z) -> V) h id, id ∉ D -> eval sem h (opdefs p') id = eval sem h (opdefs p) id).
Proof.
  intros Hwf. destruct (remove_dead_code_ok p Hwf) as (ks & m & D & E & Hsub & Hwf' & Hw & Hex & _ & Hev).
  by exists (set_graph p ks m ((0 <? Z.of_nat (size D)) || graph_dirty p)), D.
Qed.

(** C16: The depth-first search always returns, and the ordering it gives
    holds every op that is not dead exactly once; two ops stand in the wrong
    order only when they are on a common cycle, so on an acyclic graph no op
    stands before one it reads from, directly or through others.  The
    reported number is zero exactly when the ordering was this one before. *)
Theorem order_nodes_topological p :
  graph_wf p -> order_keys (opdefs p) (keys p) <> [] ->
  exists p' n, order_nodes p = Some (p', n) /\ opdefs p' = opdefs p /\ keys p' = keys p /\
    node_order p' ≡ₚ order_keys (opdefs p) (keys p) /\
    StronglySorted (fun u v => flow (opdefs p) v u -> rtc (flow (opdefs p)) u v) (node_order p') /\
    (acyclic (opdefs p) -> data_order (opdefs p) (node_order p')) /\
    (n = 0 <-> node_order p' = node_order p).
Proof.
  intros Hwf Hne. destruct (order_nodes_ok p Hwf) as (l & n & E & _ & Hn & [[_ ?]|[Hp Hs]]); [done|].
  eexists _, n. split; [exact E|]. cbn. split_and!; try done. intros Hac. apply data_order_edges; try done.
  - rewrite Hp. apply NoDup_filter, Hwf.
  - intros id Hid. rewrite Hp. apply order_keys_elem. split; [|done]. apply (wf_dom p Hwf).
    unfold not_dead in Hid. by destruct (opdefs p !! id).
Qed.

(** ** Graphs given by a list *)

Definition graph_from (ops : list OpNode) (input output : op_id_t) : GraphPrepare :=
  mkPrepare ((fun od : OpNode => op_id od) <$> ops) (list_to_map ((fun od : OpNode => (op_id od, od)) <$> ops)) input output
    [] [] true 1 1 [] [].

Lemma graph_from_lookup ops i o k (od : OpNode) :
  opdefs (graph_from ops i o) !! k = Some od -> od ∈ ops /\ op_id od = k.
Proof.
  cbn. intros E%elem_of_list_to_map_2. apply list_elem_of_fmap in E as (od' & [= -> ->] & Hin). done.
Qed.

Lemma graph_from_wf ops i o : NoDup ((fun od : OpNode => op_id od) <$> ops) -> graph_wf (graph_from ops i o).
Proof.
  intros Hnd. split.
  - exact Hnd.
  - intros k. split.
    + intros (od & -> & Hin)%list_elem_of_fmap. exists od. cbn. apply elem_of_list_to_map.
      { rewrite <-list_fmap_compose. exact Hnd. }
      apply list_elem_of_fmap. by exists od.
    + intros [od [Hin <-]%graph_from_lookup]. apply list_elem_of_fmap. by exists od.
  - intros k od E. by apply graph_from_lookup in E as [_ ?].
Qed.

Definition complete_check (ops : list OpNode) : bool :=
  forallb (fun od : OpNode => negb (is_live od) || forallb (fun c : InputConn =>
    forallb (fun s : OpNode => negb (op_id s =? src_id c) || bool_decide (op_id od ∈ consumers s)) ops) (inputs od)) ops.

Lemma graph_from_complete ops i o : complete_check ops = true -> complete (opdefs (graph_from ops i o)).
Proof.
  intros Hc c od id s [Hod <-]%graph_from_lookup Hl Hin [Hs <-]%graph_from_lookup.
  apply list_elem_of_fmap in Hin as (conn & Hid & Hin). unfold complete_check in Hc. rewrite forallb_forall in Hc.
  specialize (Hc od ltac:(by apply list_elem_of_In)). rewrite Hl in Hc. cbn in Hc. rewrite forallb_forall in Hc.
  specialize (Hc conn ltac:(by apply list_elem_of_In)). rewrite forallb_forall in Hc.
  specialize (Hc s ltac:(by apply list_elem_of_In)). rewrite Hid, Z.eqb_refl in Hc. cbn in Hc.
  by apply bool_decide_eq_true in Hc.
Qed.

Lemma graph_from_acyclic ops i o :
  forallb (fun od : OpNode => forallb (fun c : InputConn => src_id c <? op_id od) (inputs od)) ops = true ->
  acyclic (opdefs (graph_from ops i o)).
Proof.
  intros Hc. assert (forall u v, tc (flow (opdefs (graph_from ops i o))) u v -> u < v) as Hlt.
  { assert (forall u v, flow (opdefs (graph_from ops i o)) u v -> u < v) as Hf.
    { intros u v (_ & _ & od & [Hod <-]%graph_from_lookup & Hin). apply list_elem_of_fmap in Hin as (c & -> & Hcin).
      rewrite forallb_forall in Hc. specialize (Hc od ltac:(by apply list_elem_of_In)).
      rewrite forallb_forall in Hc. specialize (Hc c ltac:(by apply list_elem_of_In)). by apply Z.ltb_lt. }
    induction 1 as [u v H|u w v H _ IH]; [by apply Hf|]. apply Hf in H. lia. }
  intros x Hx%Hlt. lia.
Qed.

(** An input, three equal ops that read it, one of them read by none, and
    the output. *)
Definition plain_def : OutputDef := mkOutputDef 1 1 [4; 0; 0; 0; 0] 2.

Definition plain_op (id : op_id_t) (nm : string) (ins outs : list op_id_t) : OpNode :=
  mkNode (mkOpDef id OP_ENABLED (Some nm) plain_def ((fun i => mkInputConn i 0 plain_def) <$> ins) outs) [] [] 0 0.

Definition twin_ops : list OpNode :=
  [plain_op 6 "Output" [2; 3] []; plain_op 3 "Neg" [1] [6]; plain_op 5 "Neg" [1] []; plain_op 2 "Neg" [1] [6];
   plain_op 1 "Input" [] [2; 3; 5]].

Definition twin_graph : GraphPrepare := graph_from twin_ops 1 6.

Lemma twin_graph_wf : graph_wf twin_graph.
Proof. apply graph_from_wf. apply (bool_decide_unpack _). by vm_compute. Qed.

Lemma remove_dead_code_exact_witness :
  graph_wf twin_graph /\ complete (opdefs twin_graph) /\
  exists p', remove_dead_code twin_graph = Some (p', 1) /\ keys p' = [6; 3; 2; 1] /\
    eval (fun at_ vs => (at_name at_, length vs)) 3 (opdefs p') 6 = Some (Some "Output"%string, 2%nat).
Proof.
  assert (complete (opdefs twin_graph)) as Hc by (apply graph_from_complete; by vm_compute).
  split; [exact twin_graph_wf|]. split; [exact Hc|].
  destruct (remove_dead_code_exact twin_graph twin_graph_wf) as (p' & D & E & _ & _ & _ & _ & Hev).
  assert ((fun r => (keys (fst r), snd r)) <$> remove_dead_code twin_graph = Some ([6; 3; 2; 1], 1)) as Hv by (by vm_compute).
  rewrite E in Hv. cbn in Hv. injection Hv as Hk Hz. rewrite Hz in E. exists p'. split; [exact E|]. split; [exact Hk|].
  destruct (remove_dead_code twin_graph) as [[q n]|] eqn:Eq; [|done]. injection E as -> ->.
  assert (((fun r => eval (fun at_ vs => (at_name at_, length vs)) 3 (opdefs (fst r)) 6) <$> remove_dead_code twin_graph)
    = Some (Some (Some "Output"%string, 2%nat))) as Hv by (by vm_compute). rewrite Eq in Hv. cbn in Hv. by injection Hv.
Defined.

Lemma order_nodes_topological_witness :
  acyclic (opdefs twin_graph) /\
  exists p' n, order_nodes twin_graph = Some (p', n) /\ data_order (opdefs twin_graph) (node_order p').
Proof.
  assert (acyclic (opdefs twin_graph)) as Hac by (apply graph_from_acyclic; by vm_compute).
  split; [exact Hac|].
  destruct (order_nodes_topological twin_graph twin_graph_wf) as (p' & n & E & _ & _ & _ & _ & Hd & _); [by vm_compute|].
  exists p', n. split; [exact E|exact (Hd Hac)].
Defined.
