(* ===== verification/GraphCse.v ===== *)
(** Common subexpression elimination and the fixpoint of the clean-up
    passes ([common_subexpr_eliminate], [run_phase_fixpoint_internal] of
    [compiler/src/ir/graph_prepare.cpp], [compiler/src/opt/optimization_passes.cpp];
    the keys of names are from [compiler/src/ir/opdef.cpp]). *)
From S2P Require Import Prelude Ir GraphPasses.

(** * Common subexpressions *)

Definition FIB_MULT_1 : Z := 0x192E2101.
Definition FIB_MULT_2 : Z := 0x740F1DE9.

Definition HASH_K : Z := 0x9E3779B97F4A7C15.

Definition rotl (k s : Z) : Z := Z.lor (u64 (Z.shiftl s k)) (Z.shiftr s (64 - k)).

(** The key of a name: [string_tag_t::map_str]. *)
Definition map_str (name : string) : Z :=
let h := foldl (fun h c => u64 (h * 31 + Z.of_N (Ascii.N_of_ascii c))) 0 (String.list_ascii_of_string name) in
let lo := u32 h in
let hi := u32 (Z.shiftr h 32) in
u32 (Z.lxor lo (u32 (hi * FIB_MULT_1)) * FIB_MULT_2).

(** The key of an op's name; 0 without a tag. *)
Definition hash_key (od : OpNode) : Z := match name od with Some s => map_str s | None => 0 end.

Definition conn_lt (a b : InputConn) : bool :=
if negb (src_id a =? src_id b) then src_id a <? src_id b else out_idx a <? out_idx b.

Definition sig_input (sig : Z) (c : InputConn) : Z :=
rotl 1 (Z.lxor (Z.lxor sig (u64 (src_id c * HASH_K))) (u64 (Z.shiftl (out_idx c) 32))).

Definition sig_param (sig : Z) (id : op_id_t) : Z := rotl 1 (Z.lxor sig (u64 (id * HASH_K))).

Definition sig_byte (sig : Z) (b : Z) : Z := rotl 8 (Z.lxor sig (u64 (b + HASH_K))).

Definition sig_dim (sig : Z) (d : Z) : Z := rotl 5 (Z.lxor sig (u64 (d + HASH_K))).

Definition compute_signature (od : OpNode) : Z :=
let sig := foldl sig_input (hash_key od) (std_sort conn_lt (inputs od)) in
let sig := foldl sig_param sig (std_sort Z.ltb (tensor_param_ids od)) in
let sig := foldl sig_byte sig (op_data od) in
let sig := Z.lxor sig (u64 (rank (output_def od) * HASH_K)) in
let sig := Z.lxor sig (u64 (Z.shiftl (dtype (output_def od)) 48)) in
foldl sig_dim sig (take (Z.to_nat (Z.min (rank (output_def od)) 5)) (dims (output_def od))).

(** The ops that may be merged. *)
Definition mergeable (input_id output_id id : op_id_t) (od : OpNode) : bool :=
is_enabled od && negb (is_const od) && negb (is_dead od) && negb (id =? input_id) && negb (id =? output_id)
&& negb (bool_decide (name od = Some "Input"%string)).

Definition same_inputs (a b : OpNode) : bool :=
(length (inputs a) =? length (inputs b))%nat &&
forallb (fun xy => (src_id (fst xy) =? src_id (snd xy)) && (out_idx (fst xy) =? out_idx (snd xy)))
  (zip (inputs a) (inputs b)).

Definition retarget (id by_id : op_id_t) (c : InputConn) : InputConn :=
if src_id c =? id then mkInputConn by_id (out_idx c) (src_out_def c) else c.

(** A consumer of [id] reads [by_id] instead, the number of the op [eid],
    and is noted there. *)
Definition redirect (id by_id eid : op_id_t) (m : gmap op_id_t OpNode) (consumer : op_id_t) : gmap op_id_t OpNode :=
match (m !! consumer : option OpNode) with
| None => m
| Some c =>
    alter (fun e => set_consumers e (consumers e ++ [consumer])) eid
      (<[consumer := set_inputs c (retarget id by_id <$> inputs c)]> m)
end.

Record CseState := mkCse { cs_map : gmap Z op_id_t; cs_ops : gmap op_id_t OpNode; cs_remove : list op_id_t }.

Definition cse_step (input_id output_id : op_id_t) (s : CseState) (id : op_id_t) : CseState :=
match (cs_ops s !! id : option OpNode) with
| None => s
| Some od =>
    if negb (mergeable input_id output_id id od) then s
    else
      let sig := compute_signature od in
      match cs_map s !! sig with
      | None => mkCse (<[sig := id]> (cs_map s)) (cs_ops s) (cs_remove s)
      | Some eid =>
          match (cs_ops s !! eid : option OpNode) with
          | None => s
          | Some existing =>
              if same_inputs existing od then
                mkCse (cs_map s) (foldl (redirect id (op_id existing) eid) (cs_ops s) (consumers od)) (cs_remove s ++ [id])
              else s
          end
      end
end.

Definition common_subexpr_eliminate (p : GraphPrepare) : GraphPrepare * Z :=
let s := foldl (cse_step (input_node_id p) (output_node_id p)) (mkCse ∅ (opdefs p) []) (keys p) in
let eliminated := Z.of_nat (length (cs_remove s)) in
(set_graph p (foldl (fun ks id => erase id ks) (keys p) (cs_remove s))
   (foldl (fun m id => delete id m) (cs_ops s) (cs_remove s)) ((0 <? eliminated) || graph_dirty p), eliminated).

Definition dead_code_removal_and_cse (p : GraphPrepare) : option GraphPrepare :=
'(p, _) ← remove_dead_code p; Some (fst (common_subexpr_eliminate p)).

(** Constants are found, but none is folded: [changed] stays false. *)
Definition const_prop (p : GraphPrepare) : GraphPrepare := p.

Definition const_prop_and_cse (p : GraphPrepare) : GraphPrepare * bool :=
let '(p, n) := common_subexpr_eliminate (const_prop p) in (p, negb (n =? 0)).

(** [run_phase_fixpoint_internal], and [run_phase_fixpoint] but for the
    flag. *)
Fixpoint run_phase_fixpoint (fuel : nat) (p : GraphPrepare) : option GraphPrepare :=
match fuel with
| O => None
| S fuel =>
    '(p, changed) ← remove_dead_code p;
    if negb (changed =? 0) then run_phase_fixpoint fuel p
    else
      '(p, changed) ← order_nodes p;
      if negb (changed =? 0) then run_phase_fixpoint fuel p
      else
        let '(p, changed) := common_subexpr_eliminate p in
        if negb (changed =? 0) then run_phase_fixpoint fuel p
        else Some (set_graph p (keys p) (opdefs p) false)
end.

(** ** What is read after a redirection *)

(** The sources and the output numbers, which is what the match compares. *)
Definition conn_key (c : InputConn) : op_id_t * Z := (src_id c, out_idx c).

Lemma same_inputs_spec a b : same_inputs a b = true <-> conn_key <$> inputs a = conn_key <$> inputs b.
Proof.
unfold same_inputs. rewrite andb_true_iff, Nat.eqb_eq. generalize (inputs a), (inputs b). intros l k. revert k.
induction l as [|x l IH]; intros [|y k]; cbn; try (split; [intros [? ?]|intros ?]; done).
rewrite andb_true_iff, andb_true_iff, !Z.eqb_eq. specialize (IH k). split.
- intros [Hl [[H1 H2] Hf]]. unfold conn_key at 1 3. rewrite H1, H2. f_equal. apply IH. split; [lia|done].
- unfold conn_key at 1 3. intros [= H1 H2 Hl]. apply IH in Hl as [Hl Hf]. split; [lia|done].
Qed.

Lemma retarget_src id e (l : list InputConn) x :
x ∈ src_id <$> (retarget id e <$> l) <-> x ∈ src_id <$> l /\ x <> id \/ x = e /\ id ∈ src_id <$> l.
Proof.
induction l as [|c l IH]; cbn; [set_solver|]. rewrite !elem_of_cons, IH. unfold retarget.
destruct (Z.eqb_spec (src_id c) id); cbn; naive_solver.
Qed.

Lemma retarget_idem id e (l : list InputConn) :
e <> id -> retarget id e <$> (retarget id e <$> l) = retarget id e <$> l.
Proof.
intros Hne. rewrite <-list_fmap_compose. apply list_fmap_ext. intros _ c _. unfold retarget, compose.
destruct (Z.eqb_spec (src_id c) id) as [|Hn]; cbn; [by rewrite (proj2 (Z.eqb_neq e id))|by rewrite (proj2 (Z.eqb_neq _ _) Hn)].
Qed.

(** The node [x] once the consumers [cs] of [id] read [e]. *)
Definition redirected (m : gmap op_id_t OpNode) (id e : op_id_t) (cs : list op_id_t) (x : op_id_t) (od : OpNode) : OpNode :=
set_consumers (set_inputs od (if decide (x ∈ cs) then retarget id e <$> inputs od else inputs od))
  (if decide (x = e) then consumers od ++ filter (fun c => is_Some (m !! c)) cs else consumers od).

Lemma node_eta (od : OpNode) : set_consumers (set_inputs od (inputs od)) (consumers od) = od.
Proof. by destruct od as [[] ? ? ? ?]. Qed.

Lemma redirect_all m id e cs x :
e <> id -> foldl (redirect id e e) m cs !! x = redirected m id e cs x <$> m !! x.
Proof.
intros Hne. revert x. induction cs as [|c cs IH] using rev_ind; intros x.
{ cbn. destruct (m !! x) as [od|]; [|done]. cbn. f_equal. unfold redirected.
  rewrite decide_False by apply not_elem_of_nil. cbn. rewrite app_nil_r. case_decide; by rewrite node_eta. }
rewrite foldl_app. cbn. unfold redirect at 1. pose proof (IH c) as Ec.
assert (forall od, is_Some (m !! c) \/ x <> c /\ x <> e -> redirected m id e (cs ++ [c]) x od =
  set_consumers (set_inputs (redirected m id e cs x od)
    (if decide (x = c) then retarget id e <$> inputs (redirected m id e cs x od) else inputs (redirected m id e cs x od)))
    (if decide (x = e) then consumers (redirected m id e cs x od) ++ [c] else consumers (redirected m id e cs x od))) as Hr.
{ intros od Hor. unfold redirected, set_consumers, set_inputs, with_op. cbn. f_equal. f_equal.
  - destruct (decide (x = c)) as [->|Hxc].
    + rewrite decide_True by set_solver. case_decide; [by rewrite retarget_idem|done].
    + destruct (decide (x ∈ cs)); [rewrite decide_True by set_solver|rewrite decide_False by set_solver]; done.
  - destruct (decide (x = e)) as [->|]; [|done]. rewrite filter_app, app_assoc. f_equal. cbn.
    destruct Hor as [Hs|[_ ?]]; [|done]. by rewrite decide_True. }
destruct (m !! c) as [oc|] eqn:Emc; cbn in Ec; rewrite Ec; cycle 1.
{ rewrite IH. destruct (m !! x) as [od|] eqn:Ex; [|done]. cbn. f_equal. unfold redirected.
  rewrite filter_app. cbn. rewrite (decide_False (P := is_Some (m !! c))) by (rewrite Emc; by intros [? ?]). rewrite app_nil_r.
  f_equal. f_equal. destruct (decide (x ∈ cs)); [by rewrite decide_True by set_solver|]. rewrite decide_False; [done|].
  intros [?|Hx%list_elem_of_singleton]%elem_of_app; [done|congruence]. }
destruct (decide (e = x)) as [<-|Hxe].
- rewrite lookup_alter_eq. destruct (decide (c = e)) as [->|Hce].
  + rewrite lookup_insert_eq, Emc. cbn [fmap option_fmap option_map]. f_equal. rewrite (Hr oc) by (left; by eexists).
    rewrite !(decide_True (P := e = e)) by done. done.
  + rewrite lookup_insert_ne, IH by done. destruct (m !! e) as [oe|]; [|done]. cbn [fmap option_fmap option_map]. f_equal.
    rewrite (Hr oe) by (left; by eexists). rewrite (decide_True (P := e = e)), (decide_False (P := e = c)) by done.
    by destruct oe as [[] ? ? ? ?].
- rewrite lookup_alter_ne by done. destruct (decide (c = x)) as [->|Hcx].
  + rewrite lookup_insert_eq, Emc. cbn [fmap option_fmap option_map]. f_equal. rewrite (Hr oc) by (left; by eexists).
    rewrite (decide_True (P := x = x)), (decide_False (P := x = e)) by done. done.
  + rewrite lookup_insert_ne, IH by done. destruct (m !! x) as [od|]; [|done]. cbn [fmap option_fmap option_map]. f_equal.
    rewrite (Hr od) by (left; by eexists). rewrite (decide_False (P := x = c)), (decide_False (P := x = e)) by done.
    by rewrite node_eta.
Qed.

(** ** Values *)

Section cse_meaning.
Context {V : Type} (sem : OpAttrs -> list (V * Z) -> V).

Definition read_key (h : nat) (m : gmap op_id_t OpNode) (k : op_id_t * Z) : option (V * Z) :=
v ← eval sem h m (fst k); Some (v, snd k).

Lemma eval_keys h m id :
eval sem (S h) m id =
  match (m !! id : option OpNode) with
  | Some od => if is_live od then vs ← mapM (read_key h m) (conn_key <$> inputs od); Some (sem (attrs_of od) vs) else None
  | None => None
  end.
Proof.
cbn [eval]. destruct (m !! id) as [od|]; [|done]. destruct (is_live od); [|done].
assert (forall l, mapM (read_key h m) (conn_key <$> l)
  = mapM (fun c => v ← eval sem h m (src_id c); Some (v, out_idx c)) l) as ->; [|done].
induction l as [|c l IH]; [done|]. rewrite fmap_cons. cbn [mapM]. rewrite IH. unfold read_key. cbn [fst snd conn_key]. done.
Qed.

Lemma eval_twin h m a b (oa ob : OpNode) :
m !! a = Some oa -> m !! b = Some ob -> is_live oa = is_live ob -> attrs_of oa = attrs_of ob ->
same_inputs oa ob = true -> eval sem h m a = eval sem h m b.
Proof.
intros Ea Eb Hl Hat Hs%same_inputs_spec. destruct h as [|h]; [done|]. by rewrite !eval_keys, Ea, Eb, Hl, Hat, Hs.
Qed.

Lemma eval_redirect m id e (od oe : OpNode) cs h x :
e <> id -> m !! id = Some od -> m !! e = Some oe -> is_live oe = is_live od -> attrs_of oe = attrs_of od ->
same_inputs oe od = true -> eval sem h (foldl (redirect id e e) m cs) x = eval sem h m x.
Proof.
intros Hne Eid Ee Hl Hat Hs. revert x. induction h as [|h IH]; intros x; [done|]. cbn [eval].
rewrite redirect_all by done. destruct (m !! x) as [ox|] eqn:Ex; [|done]. cbn [fmap option_fmap option_map].
change (is_live (redirected m id e cs x ox)) with (is_live ox). destruct (is_live ox) eqn:Elx; [|done].
change (attrs_of (redirected m id e cs x ox)) with (attrs_of ox).
assert (mapM (fun c => v ← eval sem h (foldl (redirect id e e) m cs) (src_id c); Some (v, out_idx c))
   (inputs (redirected m id e cs x ox)) = mapM (fun c => v ← eval sem h m (src_id c); Some (v, out_idx c)) (inputs ox)) as ->; [|done].
cbn. case_decide as Hcs; [|apply mapM_ext_in; intros c _; by rewrite IH].
generalize (inputs ox). induction l as [|c l IHl]; [done|]. cbn. rewrite IHl, IH.
assert (eval sem h m (src_id (retarget id e c)) = eval sem h m (src_id c)) as ->; [|by unfold retarget; case_match].
unfold retarget. destruct (Z.eqb_spec (src_id c) id) as [->|]; [|done]. cbn. by apply (eval_twin h m e id oe od).
Qed.

Lemma eval_delete m rs h x :
(forall c (oc : OpNode) r, m !! c = Some oc -> is_live oc = true -> c ∉ rs -> r ∈ rs -> r ∉ src_id <$> inputs oc) -> x ∉ rs ->
eval sem h (foldl (fun m id => delete id m) m rs) x = eval sem h m x.
Proof.
intros Hr. assert (forall y, y ∉ rs -> foldl (fun m id => delete id m) m rs !! y = m !! y) as Hd.
{ clear. revert m. induction rs as [|r rs IH]; intros m y Hy; [done|]. cbn. apply not_elem_of_cons in Hy as [Hn Hy].
  rewrite IH, lookup_delete_ne by done. done. }
revert x. induction h as [|h IH]; intros x Hx; [done|]. cbn [eval]. rewrite Hd by done.
destruct (m !! x) as [od|] eqn:Ex; [|done]. destruct (is_live od) eqn:Elx; [|done].
erewrite mapM_ext_in; [reflexivity|]. intros c Hc. cbv beta. rewrite IH; [done|]. intros Hin.
eapply (Hr x od (src_id c)); [done..|]. by apply list_elem_of_fmap_2.
Qed.
End cse_meaning.

(** ** The elimination *)

(** The inputs [cs] can stand for those of an op when they take the same
    outputs, from the same ops or from other ops of the graph. *)
Definition variant (m : gmap op_id_t OpNode) : list InputConn -> list InputConn -> Prop :=
Forall2 (fun c c' => out_idx c' = out_idx c /\ (src_id c' = src_id c \/ is_Some (m !! src_id c'))).

(** Every op of [m'] is one of [m], but for its consumers and for where its
    inputs come from. *)
Definition derived (m m' : gmap op_id_t OpNode) : Prop :=
forall x (b : OpNode), m' !! x = Some b -> exists a : OpNode, m !! x = Some a /\
  op_id b = op_id a /\ flags b = flags a /\ attrs_of b = attrs_of a /\ variant m (inputs a) (inputs b).

(** Mergeable ops whose signatures agree, wherever their inputs come from, do
    the same. *)
Definition no_collision (input_id output_id : op_id_t) (m : gmap op_id_t OpNode) : Prop :=
forall a b (oa ob : OpNode) ca cb, m !! a = Some oa -> m !! b = Some ob ->
  mergeable input_id output_id a oa = true -> mergeable input_id output_id b ob = true ->
  variant m (inputs oa) ca -> variant m (inputs ob) cb ->
  compute_signature (set_inputs oa ca) = compute_signature (set_inputs ob cb) -> attrs_of oa = attrs_of ob.

Lemma variant_refl m l : variant m l l.
Proof. apply Forall_Forall2_diag, Forall_forall. auto. Qed.

Lemma variant_trans m m' l k k' :
(forall x, is_Some (m' !! x) -> is_Some (m !! x)) -> variant m l k -> variant m' k k' -> variant m l k'.
Proof.
intros Hd H1 H2. revert l H1. induction H2 as [|c' c'' k k' [Ho' Hs'] _ IH]; intros l H1.
- apply Forall2_nil_inv_r in H1 as ->. constructor.
- apply Forall2_cons_inv_r in H1 as (c & l' & [Ho Hs] & Hl & ->). constructor; [|by apply IH]. split; [congruence|].
  destruct Hs' as [Hs'|Hs']; [rewrite Hs'; naive_solver|]. right. by apply Hd.
Qed.

Lemma derived_refl m : derived m m.
Proof. intros x b E. exists b. split_and!; try done. apply variant_refl. Qed.

Lemma derived_dom m m' x : derived m m' -> is_Some (m' !! x) -> is_Some (m !! x).
Proof. intros Hd [b E]. destruct (Hd x b E) as (a & -> & _). by eexists. Qed.

Lemma derived_trans m m' m'' : derived m m' -> derived m' m'' -> derived m m''.
Proof.
intros H1 H2 x c Ec. destruct (H2 x c Ec) as (b & Eb & ? & ? & ? & Hv). destruct (H1 x b Eb) as (a & Ea & ? & ? & ? & Hv').
exists a. split_and!; try congruence. eapply variant_trans; [|done|done]. intros y. by apply derived_dom.
Qed.

Lemma signature_attrs (a b : OpNode) cs :
attrs_of b = attrs_of a -> compute_signature (set_inputs b cs) = compute_signature (set_inputs a cs).
Proof. intros [= Hn Ho Hd Hp _ _]. unfold compute_signature, hash_key. cbn. by rewrite Hn, Ho, Hd, Hp. Qed.

Lemma node_set_inputs (od : OpNode) : set_inputs od (inputs od) = od.
Proof. by destruct od as [[] ? ? ? ?]. Qed.

Lemma mergeable_same i o x (a b : OpNode) :
flags b = flags a -> attrs_of b = attrs_of a -> mergeable i o x b = mergeable i o x a.
Proof. intros Hf [= Hn _ _ _ _ _]. unfold mergeable, is_enabled, is_const, is_dead. by rewrite Hf, Hn. Qed.

Lemma mergeable_live i o x (a : OpNode) : mergeable i o x a = true -> is_live a = true.
Proof. unfold mergeable, is_live. rewrite !andb_true_iff. tauto. Qed.

Lemma no_collision_derived i o m m' : derived m m' -> no_collision i o m -> no_collision i o m'.
Proof.
intros Hd Hn a b oa ob ca cb Ea Eb Ca Cb Va Vb Hs.
destruct (Hd a oa Ea) as (oa0 & Ea0 & _ & Fa & Aa & Va0). destruct (Hd b ob Eb) as (ob0 & Eb0 & _ & Fb & Ab & Vb0).
rewrite Aa, Ab. eapply (Hn a b oa0 ob0 ca cb); try done.
- by rewrite <-(mergeable_same _ _ _ _ _ Fa Aa).
- by rewrite <-(mergeable_same _ _ _ _ _ Fb Ab).
- eapply variant_trans; [|exact Va0|exact Va]. intros y. by apply derived_dom.
- eapply variant_trans; [|exact Vb0|exact Vb]. intros y. by apply derived_dom.
- by rewrite <-(signature_attrs oa0 oa ca Aa), <-(signature_attrs ob0 ob cb Ab).
Qed.

Section cse.
Context (p : GraphPrepare) (Hwf : graph_wf p).
Notation m0 := (opdefs p).
Notation cand := (mergeable (input_node_id p) (output_node_id p)).

Record cse_inv (seen : list op_id_t) (s : CseState) : Prop := {
ci_nodes : derived m0 (cs_ops s);
ci_dom x : is_Some (m0 !! x) -> is_Some (cs_ops s !! x);
ci_map sig e : cs_map s !! sig = Some e -> e ∈ seen /\ e ∉ cs_remove s /\
  exists (oe : OpNode) cs, m0 !! e = Some oe /\ cand e oe = true /\ variant m0 (inputs oe) cs /\
    compute_signature (set_inputs oe cs) = sig;
ci_rm r : r ∈ cs_remove s -> r ∈ seen /\ exists oe : OpNode, m0 !! r = Some oe /\ cand r oe = true;
ci_nodup : NoDup (cs_remove s);
ci_same : cs_remove s = [] -> cs_ops s = m0
}.

Record cse_inv_complete (s : CseState) : Prop := {
cc_complete : complete (cs_ops s);
cc_gone c (oc : OpNode) r : cs_ops s !! c = Some oc -> is_live oc = true -> r ∈ cs_remove s -> r ∉ src_id <$> inputs oc;
cc_eval V (sem : OpAttrs -> list (V * Z) -> V) h x : eval sem h (cs_ops s) x = eval sem h m0 x
}.

Lemma cse_inv_weaken seen seen' s : (forall x, x ∈ seen -> x ∈ seen') -> cse_inv seen s -> cse_inv seen' s.
Proof.
intros Hs [H1 H2 H3 H4 H5 H6]. split; try done.
- intros sig e E. destruct (H3 sig e E) as (? & ? & ?). auto.
- intros r Hr. destruct (H4 r Hr). auto.
Qed.

Lemma redirect_derived m id e cs : e <> id -> is_Some (m0 !! e) -> derived m0 m -> derived m0 (foldl (redirect id e e) m cs).
Proof.
intros Hne He Hd x b. rewrite redirect_all by done. destruct (m !! x) as [ox|] eqn:Ex; [|done]. cbn.
intros [= <-]. destruct (Hd x ox Ex) as (a & Ea & H1 & H2 & H3 & H4). exists a. split_and!; try done. cbn.
case_decide; [|done]. eapply Forall2_fmap_r, Forall2_impl; [exact H4|]. intros c c' [Ho Hs]. unfold compose, retarget.
destruct (src_id c' =? id); cbn; [by auto|done].
Qed.

Lemma cse_step_ok seen s id :
id ∉ seen -> cse_inv seen s ->
let s' := cse_step (input_node_id p) (output_node_id p) s id in
cse_inv (seen ++ [id]) s' /\
(no_collision (input_node_id p) (output_node_id p) m0 -> cse_inv_complete s -> cse_inv_complete s').
Proof.
intros Hid Hi. cbv zeta.
assert (cse_inv (seen ++ [id]) s) as Hw by (eapply cse_inv_weaken; [|exact Hi]; set_solver).
unfold cse_step. destruct (cs_ops s !! id) as [od|] eqn:Eid; [|done].
destruct (cand id od) eqn:Hc; [|done]. cbn [negb].
destruct Hi as [H1 H2 H3 H4 H5 H6]. destruct (H1 id od Eid) as (od0 & Ed0 & I0 & F0 & A0 & V0).
assert (cand id od0 = true) as Hc0 by (by rewrite <-(mergeable_same _ _ _ _ _ F0 A0)).
assert (compute_signature od = compute_signature (set_inputs od0 (inputs od))) as Hsig.
{ rewrite <-(signature_attrs od0 od _ A0). by rewrite node_set_inputs. }
destruct (cs_map s !! compute_signature od) as [e|] eqn:Em; cycle 1.
{ split; [|intros _ [? ? ?]; by split]. split; cbn; try done; try apply Hw.
  intros sig e. destruct (decide (sig = compute_signature od)) as [->|Hne].
  - rewrite lookup_insert_eq. intros [= <-]. split; [set_solver|]. split; [intros Hr%H4; naive_solver|].
    exists od0, (inputs od). by rewrite <-Hsig.
  - rewrite lookup_insert_ne by done. apply Hw. }
destruct (H3 _ e Em) as (Hse & Hre & oe0 & ce & Ee0 & He0 & Vce & Hsg).
destruct (H2 e ltac:(by eexists)) as [oe Ee]. rewrite Ee. destruct (same_inputs oe od) eqn:Hsame; [|done].
destruct (H1 e oe Ee) as (oe0' & Ee0' & Ie & Fe & Ae & Ve). assert (oe0' = oe0) as -> by congruence.
assert (e <> id) as Hne by set_solver.
rewrite Ie, (wf_ids p Hwf e oe0 Ee0). split.
- split; cbn.
  + apply redirect_derived; [done|by eexists|done].
  + intros x Hx%H2. rewrite redirect_all by done. by apply fmap_is_Some.
  + intros sig x Ex. destruct (H3 sig x Ex) as (Hx & Hxr & Hrest). split; [set_solver|]. split; [set_solver|done].
  + intros r [Hr| ->%list_elem_of_singleton]%elem_of_app; [|split; [set_solver|by exists od0]].
    destruct (H4 r Hr). split; [set_solver|done].
  + apply NoDup_app. split; [done|]. split; [|apply NoDup_singleton].
    intros x Hx ->%list_elem_of_singleton. destruct (H4 id Hx). done.
  + by intros [_ ?]%app_nil.
- intros Hnc [G1 G2 G3].
  assert (is_live od = true) as Hlod by (by eapply mergeable_live).
  assert (is_live oe = true) as Hloe by (eapply mergeable_live; by rewrite (mergeable_same _ _ e _ _ Fe Ae)).
  assert (attrs_of oe = attrs_of od) as Hat.
  { rewrite Ae, A0. symmetry. eapply (Hnc id e od0 oe0 (inputs od) ce); try done. by rewrite <-Hsig. }
  split; cbn.
  + intros c oc x ox Ec Hl Hx Ex. rewrite redirect_all in Ec, Ex by done.
    destruct (cs_ops s !! c) as [oc1|] eqn:Ec1; [|done]. destruct (cs_ops s !! x) as [ox1|] eqn:Ex1; [|done].
    cbn in Ec, Ex. injection Ec as <-. injection Ex as <-. cbn in Hl, Hx |- *.
    assert (c ∈ consumers ox1 -> c ∈ (if decide (x = e) then consumers ox1 ++ filter (fun c => is_Some (cs_ops s !! c)) (consumers od)
      else consumers ox1)) as Hgrow by (intros ?; destruct (decide (x = e)); [apply elem_of_app; by left|done]).
    destruct (decide (c ∈ consumers od)) as [Hcc|Hcc].
    * apply retarget_src in Hx as [[Hx _]|[-> _]]; [apply Hgrow; by eapply G1|].
      rewrite decide_True by done. apply elem_of_app. right. apply list_elem_of_filter. split; [by rewrite Ec1|done].
    * apply Hgrow. by eapply G1.
  + intros c oc r Ec Hl Hr. rewrite redirect_all in Ec by done. destruct (cs_ops s !! c) as [oc1|] eqn:Ec1; [|done].
    cbn in Ec. injection Ec as <-. cbn in Hl |- *.
    apply elem_of_app in Hr as [Hr| ->%list_elem_of_singleton].
    * case_decide; [|by eapply G2]. intros [[Hx _]|[-> _]]%retarget_src; [by eapply (G2 c oc1 r)|done].
    * case_decide as Hcc; [intros [[_ ?]|[? _]]%retarget_src; congruence|]. intros Hx. apply Hcc. by eapply G1.
  + intros V sem h x. rewrite <-G3. eapply eval_redirect; [done|exact Eid|exact Ee|congruence|done|done].
Qed.

Lemma cse_loop ks seen s :
NoDup (seen ++ ks) -> cse_inv seen s ->
let s' := foldl (cse_step (input_node_id p) (output_node_id p)) s ks in
cse_inv (seen ++ ks) s' /\
(no_collision (input_node_id p) (output_node_id p) m0 -> cse_inv_complete s -> cse_inv_complete s').
Proof.
revert seen s. induction ks as [|id ks IH]; intros seen s Hnd Hi; cbv zeta; [by rewrite app_nil_r|]. cbn [foldl].
destruct (cse_step_ok seen s id) as [Hi' Hc']; [|done|].
{ apply NoDup_app in Hnd as (_ & Hd & _). intros Hx. apply (Hd id Hx). by left. }
destruct (IH (seen ++ [id]) _ ltac:(by rewrite <-app_assoc) Hi') as [Hi2 Hc2]. rewrite <-app_assoc in Hi2.
split; [done|]. auto.
Qed.

(** The run of the pass: what goes, and what the rest computes. *)
Lemma cse_ok :
exists p' R, common_subexpr_eliminate p = (p', Z.of_nat (length R)) /\ NoDup R /\
  (R = [] -> p' = p) /\ graph_wf p' /\ keys p' = filter (fun k => k ∉ R) (keys p) /\ derived m0 (opdefs p') /\
  input_node_id p' = input_node_id p /\ output_node_id p' = output_node_id p /\ node_order p' = node_order p /\
  exec_order p' = exec_order p /\
  (forall r, r ∈ R -> exists od : OpNode, m0 !! r = Some od /\ cand r od = true) /\
  (no_collision (input_node_id p) (output_node_id p) m0 -> complete m0 -> complete (opdefs p') /\
    (forall c (oc : OpNode) r, opdefs p' !! c = Some oc -> is_live oc = true -> r ∈ R -> r ∉ src_id <$> inputs oc) /\
    forall V (sem : OpAttrs -> list (V * Z) -> V) h x, x ∉ R -> eval sem h (opdefs p') x = eval sem h m0 x).
Proof.
unfold common_subexpr_eliminate. destruct (cse_loop (keys p) [] (mkCse ∅ m0 [])) as [Hi Hc].
{ apply Hwf. }
{ split; cbn; try done; [apply derived_refl|by intros ? ?%not_elem_of_nil|constructor]. }
set (s := foldl _ _ (keys p)) in *. cbn [app] in Hi.
destruct Hi as [H1 H2 H3 H4 H5 H6]. set (R := cs_remove s) in *.
assert (forall m x, foldl (fun (m : gmap op_id_t OpNode) id => delete id m) m R !! x = if decide (x ∈ R) then None else m !! x) as Hdel.
{ clear. induction R as [|r R IH]; intros m x; [by rewrite decide_False by apply not_elem_of_nil|]. cbn. rewrite IH.
  destruct (decide (x = r)) as [->|Hne].
  - rewrite lookup_delete_eq, (decide_True (P := r ∈ r :: R)) by left. by case_decide.
  - rewrite lookup_delete_ne by done. destruct (decide (x ∈ R)); [rewrite decide_True by by right|rewrite decide_False by set_solver]; done. }
assert (derived m0 (foldl (fun m id => delete id m) (cs_ops s) R)) as Hder.
{ intros x b. rewrite Hdel. case_decide; [done|]. apply H1. }
eexists _, R. split; [reflexivity|]. split; [done|]. split.
{ intros HR. rewrite HR. cbn. rewrite (H6 HR). by destruct p. }
split; [|split; [by rewrite <-erase_all|split; [done|]]].
{ split; cbn.
  - rewrite erase_all. apply NoDup_filter, Hwf.
  - intros k. rewrite erase_all, list_elem_of_filter, (wf_dom p Hwf), Hdel. case_decide; [split; [tauto|by intros [? ?]]|].
    split; [intros [_ Hs]; by apply H2|]. intros Hs. split; [done|]. exact (derived_dom _ _ _ H1 Hs).
  - intros k b E. destruct (Hder k b E) as (a & Ea & -> & _). by apply (wf_ids p Hwf). }
split_and!; try done; [intros r Hr; by apply H4|]. intros Hnc Hcomp.
destruct (Hc Hnc) as [G1 G2 G3].
{ split; cbn; try done. by intros ? ? ? _ _ ?%not_elem_of_nil. }
split; [|split].
- intros c oc x ox Ec Hl Hx Ex. cbn in Ec, Ex. rewrite Hdel in Ec, Ex. case_decide; [done|]. case_decide; [done|].
  by eapply G1.
- intros c oc r Ec. cbn in Ec. rewrite Hdel in Ec. case_decide; [done|]. exact (G2 c oc r Ec).
- intros V sem h x Hx. cbn. rewrite eval_delete; [apply G3| |done]. intros c oc r Ec Hl _ Hr. exact (G2 c oc r Ec Hl Hr).
Qed.
End cse.

(** * The fixpoint *)

Lemma cut_derived m D m' : without m D m' -> derived m m'.
Proof.
intros Hw x b. rewrite (Hw x). case_decide; [done|]. destruct (m !! x) as [a|] eqn:E; [|done]. cbn. intros [= <-].
exists a. split_and!; try done. apply variant_refl.
Qed.

(** What a pass may do to a graph. *)
Record refines (p p' : GraphPrepare) : Prop := {
rf_wf : graph_wf p';
rf_ids : input_node_id p' = input_node_id p /\ output_node_id p' = output_node_id p /\ exec_order p' = exec_order p;
rf_derived : derived (opdefs p) (opdefs p');
rf_output : live_at (opdefs p) (output_node_id p) = true -> live_at (opdefs p') (output_node_id p) = true;
rf_eval : complete (opdefs p) -> no_collision (input_node_id p) (output_node_id p) (opdefs p) ->
  complete (opdefs p') /\ forall V (sem : OpAttrs -> list (V * Z) -> V) h x,
    is_Some (opdefs p' !! x) -> eval sem h (opdefs p') x = eval sem h (opdefs p) x
}.

Lemma refines_refl p : graph_wf p -> refines p p.
Proof. intros Hwf. split; try done. apply derived_refl. Qed.

Lemma refines_trans p p' p'' : refines p p' -> refines p' p'' -> refines p p''.
Proof.
intros [W I D O E] [W' I' D' O' E']. destruct I as (Ii & Io & Ie), I' as (Ii' & Io' & Ie'). split; try done.
- split_and!; congruence.
- by eapply derived_trans.
- intros Hl. rewrite <-Io. apply O'. rewrite Io. by apply O.
- intros Hc Hn. destruct (E Hc Hn) as [Hc1 He]. destruct E' as [Hc2 He']; [done| |].
  { rewrite Ii, Io. by eapply no_collision_derived. }
  split; [done|]. intros V sem h x Hx. rewrite He' by done. apply He. by eapply derived_dom.
Qed.

Lemma remove_dead_code_refines p :
graph_wf p -> exists p' n, remove_dead_code p = Some (p', n) /\ refines p p' /\ node_order p' = node_order p /\
  (n = 0 /\ p' = p \/ 0 < n /\ (length (keys p') < length (keys p))%nat).
Proof.
intros Hwf. destruct (remove_dead_code_ok p Hwf) as (ks & m & D & E & Hsub & Hwf' & Hw & Hex & Hsame & Hev).
eexists _, _. split; [exact E|]. split; [|split; [done|]].
- split; cbn; [done|done|by eapply cut_derived| |].
  + intros Hl. rewrite (live_without _ _ _ _ Hw), Hl, bool_decide_true; [done|]. intros [_ HS]%Hex.
    apply (HS {[output_node_id p]}); [|set_solver]. intros x ->%elem_of_singleton. unfold live_at in Hl.
    destruct (opdefs p !! output_node_id p) as [od|]; [|done]. exists od. auto.
  + intros Hc _. destruct (Hev Hc) as [Hc' He]. split; [done|]. intros V sem h x Hx. apply He. intros Hin.
    rewrite (Hw x), decide_True in Hx by done. by destruct Hx.
- destruct (decide (D = ∅)) as [HD|HD].
  + left. destruct (Hsame HD) as [-> ->]. subst. rewrite size_empty. split; [done|]. by destruct p.
  + right. cbn. assert (size D <> 0)%nat by (by intros ?%size_empty_inv%leibniz_equiv). split; [lia|].
    apply set_choose_L in HD as (x & Hx). pose proof (proj1 (Hex x) Hx) as [Hlx _].
    assert (x ∈ keys p) as Hxk. { apply (wf_dom p Hwf). unfold live_at in Hlx. by destruct (opdefs p !! x). }
    assert (x ∉ ks) as Hxn. { intros Hin%(wf_dom _ Hwf'). cbn in Hin. rewrite (Hw x), decide_True in Hin by done. by destruct Hin. }
    pose proof (sublist_length _ _ Hsub). destruct (decide (length ks = length (keys p))) as [Hl|]; [|lia].
    rewrite (sublist_full ks (keys p)) in Hxn by (done || lia). done.
Qed.

Lemma set_node_order_refines p l d : graph_wf p -> refines p (set_node_order p l d).
Proof. intros [Hn Hd Hi]. split; try done. apply derived_refl. Qed.

Lemma cse_refines p :
graph_wf p -> exists p' n, common_subexpr_eliminate p = (p', n) /\ refines p p' /\ node_order p' = node_order p /\
  (n = 0 /\ p' = p \/ 0 < n /\ (length (keys p') < length (keys p))%nat).
Proof.
intros Hwf. destruct (cse_ok p Hwf) as (p' & R & E & HndR & Hsame & Hwf' & Hk & Hd & Hi & Ho & Hno & Hex & HR & Hev).
eexists _, _. split; [exact E|]. split; [|split; [done|]].
- split; try done.
  + intros Hl. assert (output_node_id p ∉ R) as Hn.
    { intros (od & _ & Hc)%HR. unfold mergeable in Hc. rewrite Z.eqb_refl in Hc. cbn in Hc. rewrite andb_false_r in Hc. done. }
    unfold live_at in Hl |- *. destruct (opdefs p !! output_node_id p) as [od|] eqn:Eo; [|done].
    assert (output_node_id p ∈ keys p') as Hx%(wf_dom _ Hwf').
    { rewrite Hk. apply list_elem_of_filter. split; [done|]. apply (wf_dom p Hwf). by rewrite Eo. }
    destruct Hx as [od' Eo']. rewrite Eo'. destruct (Hd _ _ Eo') as (od0 & E0 & _ & Hf & _).
    assert (od0 = od) as -> by congruence. unfold is_live, is_enabled, is_dead in *. by rewrite Hf.
  + intros Hc Hn. destruct (Hev Hn Hc) as (Hc' & _ & He). split; [done|]. intros V sem h x Hx. apply He.
    intros HxR. apply (wf_dom _ Hwf') in Hx. rewrite Hk in Hx. by apply list_elem_of_filter in Hx as [? _].
- destruct R as [|r R]; [left; split; [done|by apply Hsame]|right]. split; [cbn; lia|]. rewrite Hk.
  apply (length_filter_lt _ _ r).
  + apply (wf_dom p Hwf). destruct (HR r) as (od & Eo & _); [by left|]. by rewrite Eo.
  + intros Hx. apply Hx. by left.
Qed.

(** A second run of the ordering changes nothing. *)
Lemma order_nodes_again p p' n : order_nodes p = Some (p', n) -> order_nodes p' = Some (p', 0).
Proof.
unfold order_nodes. case_bool_decide as Hk; [intros [= <- _]; by rewrite bool_decide_true|].
case_bool_decide as Hids; [intros [= <- _]; by rewrite bool_decide_false, bool_decide_true|].
destruct (dfs_order _) as [idx|] eqn:E; [|done]. cbn [mbind option_bind]. case_bool_decide as Heq.
- intros [= <- _]. rewrite bool_decide_false, bool_decide_false, E by done. cbn [mbind option_bind]. by rewrite bool_decide_true.
- intros [= <- _]. cbn [keys opdefs node_order set_node_order].
  rewrite bool_decide_false, bool_decide_false, E by done. cbn [mbind option_bind]. by rewrite bool_decide_true.
Qed.

(** None of the three passes finds anything to do. *)
Definition settled (p : GraphPrepare) : Prop :=
remove_dead_code p = Some (p, 0) /\ order_nodes p = Some (p, 0) /\ common_subexpr_eliminate p = (p, 0).

Definition unordered (p : GraphPrepare) : nat := match order_nodes p with Some (_, 0) => 0 | _ => 1 end.

Lemma set_dirty_settled p d :
remove_dead_code p = Some (p, 0) -> order_nodes p = Some (p, 0) -> common_subexpr_eliminate p = (p, 0) ->
settled (set_graph p (keys p) (opdefs p) d).
Proof.
intros E1 E2 E3. split_and!.
- unfold remove_dead_code in *. cbn [keys opdefs input_node_id output_node_id set_graph].
  destruct (dead_loop _ _ _ _ _ _) as [[[ks m] n]|]; [|done]. cbn [mbind option_bind] in E1 |- *.
  injection E1 as E1 ->. apply (f_equal (fun q => (keys q, opdefs q))) in E1. cbn in E1. by injection E1 as -> ->.
- unfold order_nodes in *. cbn [keys opdefs node_order set_graph]. destruct (bool_decide (keys p = [])); [done|].
  destruct (bool_decide (order_keys _ _ = [])); [done|]. destruct (dfs_order _) as [idx|]; [|done].
  cbn [mbind option_bind] in *. destruct (bool_decide (_ = node_order p)) eqn:Eb; [done|]. injection E2 as E2 _.
  apply (f_equal node_order) in E2. by apply bool_decide_eq_false in Eb.
- unfold common_subexpr_eliminate in *. cbn [keys opdefs input_node_id output_node_id set_graph].
  set (s := foldl _ _ (keys p)) in *. clearbody s. injection E3 as E3 Hn. rewrite Hn in *.
  apply (f_equal (fun q => (keys q, opdefs q))) in E3. cbn [keys opdefs set_graph] in E3. injection E3 as E3 E4. by rewrite E3, E4.
Qed.

Lemma fixpoint_ok k : forall p,
graph_wf p -> (2 * length (keys p) + unordered p < k)%nat ->
exists p', (forall fuel, (k <= fuel)%nat -> run_phase_fixpoint fuel p = Some p') /\ refines p p' /\ settled p' /\ graph_dirty p' = false.
Proof.
induction k as [|k IH]; intros p Hwf Hk; [lia|].
destruct (remove_dead_code_refines p Hwf) as (p1 & n1 & E1 & R1 & O1 & Hor1).
destruct Hor1 as [[-> ->]|[Hn1 Hl1]]; cycle 1.
{ destruct (IH p1) as (p' & Hrun & Href & Hrest); [apply R1| |].
  { assert (unordered p1 <= 1)%nat; [|lia]. unfold unordered. by repeat case_match; lia. }
  exists p'. split; [|split; [by eapply refines_trans|done]]. intros [|fuel] Hf; [lia|]. cbn [run_phase_fixpoint].
  rewrite E1. cbn [mbind option_bind]. rewrite (proj2 (Z.eqb_neq n1 0)) by lia. apply Hrun. lia. }
destruct (order_nodes_ok p Hwf) as (l & n2 & E2 & Hn2 & Hl2 & _). set (p2 := set_node_order p l _) in *.
pose proof (order_nodes_again _ _ _ E2) as E2'. pose proof (set_node_order_refines p l ((0 <? n2) || graph_dirty p) Hwf) as R2.
fold p2 in R2. destruct (decide (n2 = 0)) as [->|Hne]; cycle 1.
{ destruct (IH p2) as (p' & Hrun & Href & Hrest); [apply R2| |].
  { change (keys p2) with (keys p). unfold unordered in *. rewrite E2 in Hk. rewrite E2'. destruct n2; [done|lia..]. }
  exists p'. split; [|split; [by eapply refines_trans|done]]. intros [|fuel] Hf; [lia|]. cbn [run_phase_fixpoint].
  rewrite E1. cbn [mbind option_bind Z.eqb negb]. rewrite E2. cbn [mbind option_bind].
  rewrite (proj2 (Z.eqb_neq n2 0)) by lia. apply Hrun. lia. }
destruct (cse_refines p2) as (p3 & n3 & E3 & R3 & O3 & Hor3); [apply R2|].
destruct Hor3 as [[-> ->]|[Hn3 Hl3]]; cycle 1.
{ destruct (IH p3) as (p' & Hrun & Href & Hrest); [apply R3| |].
  { change (keys p2) with (keys p) in Hl3. assert (unordered p3 <= 1)%nat; [|lia]. unfold unordered. by repeat case_match; lia. }
  exists p'. split; [|split; [eapply refines_trans; [exact R2|]; by eapply refines_trans|done]].
  intros [|fuel] Hf; [lia|]. cbn [run_phase_fixpoint]. rewrite E1. cbn [mbind option_bind Z.eqb negb]. rewrite E2.
  cbn [mbind option_bind Z.eqb negb]. rewrite E3, (proj2 (Z.eqb_neq n3 0)) by lia. apply Hrun. lia. }
assert (p2 = p) as Hp2.
{ unfold p2. rewrite (proj1 Hl2 eq_refl). by destruct p. }
exists (set_graph p (keys p) (opdefs p) false). rewrite Hp2 in E2, E3. split; [|split; [|split; [|done]]].
- intros [|fuel] Hf; [lia|]. cbn [run_phase_fixpoint]. rewrite E1. cbn [mbind option_bind Z.eqb negb]. rewrite E2.
  cbn [mbind option_bind Z.eqb negb]. by rewrite E3.
- destruct Hwf. split; try done. apply derived_refl.
- by apply set_dirty_settled.
Qed.

(** * The blind spot of the signature *)

Lemma rotl_spec k s i :
  0 < k < 64 -> 0 <= s < 2 ^ 64 -> 0 <= i < 64 -> Z.testbit (rotl k s) i = Z.testbit s ((i - k) mod 64).
Proof.
  intros Hk Hs Hi. unfold rotl, wrap. rewrite Z.lor_spec, Z.mod_pow2_bits_low, Z.shiftl_spec, Z.shiftr_spec by lia.
  destruct (Z.lt_ge_cases i k) as [Hlt|Hge].
  - rewrite (Z.testbit_neg_r s (i - k)) by lia. cbn. f_equal.
    apply (Z.mod_unique_pos _ _ (-1)); lia.
  - rewrite (Z.mod_small (i - k)) by lia. rewrite (Z.bits_above_log2 s (i + (64 - k))); [apply orb_false_r|lia|].
    destruct (decide (s = 0)) as [->|]; [cbn; lia|]. apply Z.log2_lt_pow2; [lia|].
    apply Z.lt_le_trans with (2 ^ 64); [lia|]. apply Z.pow_le_mono_r; lia.
Qed.

Lemma rotl_range k s : 0 < k < 64 -> 0 <= s < 2 ^ 64 -> 0 <= rotl k s < 2 ^ 64.
Proof.
  intros Hk Hs. assert (rotl k s = u64 (rotl k s)) as ->; [|apply wrap_range; lia].
  apply Z.bits_inj'. intros i Hi. unfold wrap. destruct (Z.lt_ge_cases i 64) as [Hlt|Hge].
  - by rewrite Z.mod_pow2_bits_low by lia.
  - rewrite Z.mod_pow2_bits_high by lia. unfold rotl, wrap. rewrite Z.lor_spec, Z.mod_pow2_bits_high, Z.shiftr_spec by lia. cbn.
    apply Z.bits_above_log2; [lia|]. destruct (decide (s = 0)) as [->|]; [cbn; lia|]. apply Z.log2_lt_pow2; [lia|].
    apply Z.lt_le_trans with (2 ^ 64); [lia|]. apply Z.pow_le_mono_r; lia.
Qed.

Lemma lxor_range x y : 0 <= x < 2 ^ 64 -> 0 <= y < 2 ^ 64 -> 0 <= Z.lxor x y < 2 ^ 64.
Proof.
  intros Hx Hy. split; [apply Z.lxor_nonneg; lia|].
  destruct (decide (Z.lxor x y = 0)) as [->|]; [lia|]. assert (0 <= Z.lxor x y) by (apply Z.lxor_nonneg; lia).
  apply Z.log2_lt_pow2; [lia|]. apply Z.le_lt_trans with (Z.max (Z.log2 x) (Z.log2 y)); [apply Z.log2_lxor; lia|].
  assert (forall z, 0 <= z < 2 ^ 64 -> Z.log2 z < 64) as Hl; [|pose proof (Hl x Hx); pose proof (Hl y Hy); lia].
  intros z Hz. destruct (decide (z = 0)) as [->|]; [cbn; lia|]. apply Z.log2_lt_pow2; lia.
Qed.

Lemma rotl_lxor k x y :
  0 < k < 64 -> 0 <= x < 2 ^ 64 -> 0 <= y < 2 ^ 64 -> rotl k (Z.lxor x y) = Z.lxor (rotl k x) (rotl k y).
Proof.
  intros Hk Hx Hy. apply Z.bits_inj'. intros i Hi. rewrite Z.lxor_spec. destruct (Z.lt_ge_cases i 64) as [Hlt|Hge].
  - rewrite !rotl_spec, Z.lxor_spec by (auto using lxor_range; lia). done.
  - assert (forall z, 0 <= z < 2 ^ 64 -> Z.testbit z i = false) as Hz.
    { intros z Hz. rewrite <-(wrap_id 64 z) by lia. apply Z.mod_pow2_bits_high. lia. }
    rewrite !Hz by (auto using rotl_range, lxor_range). done.
Qed.

Lemma rotl_rotl k j s :
  0 < k < 64 -> 0 < j < 64 -> k + j < 64 -> 0 <= s < 2 ^ 64 -> rotl k (rotl j s) = rotl (k + j) s.
Proof.
  intros Hk Hj Hkj Hs. apply Z.bits_inj'. intros i Hi. destruct (Z.lt_ge_cases i 64) as [Hlt|Hge].
  - pose proof (Z.mod_pos_bound (i - k) 64). rewrite !rotl_spec by (try apply rotl_range; lia). f_equal.
    rewrite Zminus_mod_idemp_l. f_equal. lia.
  - assert (forall z, 0 <= z < 2 ^ 64 -> Z.testbit z i = false) as Hz.
    { intros z Hz. rewrite <-(wrap_id 64 z) by lia. apply Z.mod_pow2_bits_high. lia. }
    rewrite !Hz by (apply rotl_range; try apply rotl_range; lia). done.
Qed.

Lemma rotl_full k j s : 0 < k < 64 -> j = 64 - k -> 0 <= s < 2 ^ 64 -> rotl k (rotl j s) = s.
Proof.
  intros Hk -> Hs. apply Z.bits_inj'. intros i Hi. destruct (Z.lt_ge_cases i 64) as [Hlt|Hge].
  - pose proof (Z.mod_pos_bound (i - k) 64). rewrite !rotl_spec by (try apply rotl_range; lia). f_equal.
    rewrite Zminus_mod_idemp_l. symmetry. apply (Z.mod_unique_pos _ _ (-1)); lia.
  - assert (forall z, 0 <= z < 2 ^ 64 -> Z.testbit z i = false) as Hz.
    { intros z Hz. rewrite <-(wrap_id 64 z) by lia. apply Z.mod_pow2_bits_high. lia. }
    rewrite !Hz by (try apply rotl_range; try apply rotl_range; lia). done.
Qed.

Notation in64 x := (0 <= x < 2 ^ 64).

Lemma sig_byte_range s b : in64 s -> in64 (sig_byte s b).
Proof. intros Hs. apply rotl_range; [lia|]. apply lxor_range; [done|apply u64_range]. Qed.

(** A difference before [n] bytes, fewer than eight, comes out turned by
    [n] bytes. *)
Lemma sig_bytes_lxor l : forall s t n, in64 s -> in64 t -> n = Z.of_nat (length l) -> 0 < n < 8 ->
  foldl sig_byte (Z.lxor s t) l = Z.lxor (foldl sig_byte s l) (rotl (8 * n) t).
Proof.
  assert (forall s t b, in64 s -> in64 t -> sig_byte (Z.lxor s t) b = Z.lxor (sig_byte s b) (rotl 8 t)) as H1.
  { intros s t b Hs Ht. unfold sig_byte. rewrite <-rotl_lxor by (auto using lxor_range, u64_range; lia). f_equal.
    rewrite !Z.lxor_assoc. f_equal. apply Z.lxor_comm. }
  induction l as [|b l IH]; intros s t n Hs Ht -> Hn; [cbn in Hn; lia|]. cbn [foldl]. rewrite H1 by done.
  destruct l as [|b' l]; [done|]. rewrite (IH _ _ (Z.of_nat (length (b' :: l)))); [| |by apply rotl_range| |].
  - f_equal. cbn [length] in *. rewrite rotl_rotl by (try done; lia). f_equal. lia.
  - by apply sig_byte_range.
  - done.
  - cbn [length] in *. lia.
Qed.

Lemma rotl_rotl_56 s : in64 s -> rotl 56 (rotl 8 s) = s.
Proof. intros Hs. by apply rotl_full. Qed.

Lemma swap_signature s a b mid :
  in64 s -> length mid = 7%nat -> foldl sig_byte s (a :: mid ++ [b]) = foldl sig_byte s (b :: mid ++ [a]).
Proof.
  intros Hs Hmid. cbn [foldl]. rewrite !foldl_app. cbn [foldl].
  assert (forall c d, in64 (foldl sig_byte (sig_byte s c) mid) /\
    sig_byte (foldl sig_byte (sig_byte s c) mid) d =
    rotl 8 (Z.lxor (foldl sig_byte (rotl 8 s) mid) (Z.lxor (u64 (c + HASH_K)) (u64 (d + HASH_K))))) as Hg.
  { intros c d. split.
    - assert (forall l s, in64 s -> in64 (foldl sig_byte s l)) as Hr; [|by apply Hr, sig_byte_range].
      clear. induction l as [|x l IH]; intros s Hs; [done|]. cbn. by apply IH, sig_byte_range.
    - change (sig_byte s c) with (rotl 8 (Z.lxor s (u64 (c + HASH_K)))). rewrite (rotl_lxor 8 s) by (try apply u64_range; lia).
      rewrite (sig_bytes_lxor mid (rotl 8 s) (rotl 8 (u64 (c + HASH_K))) 7) by (try apply rotl_range; try apply rotl_range; try apply u64_range; lia).
      change (8 * 7) with 56. rewrite (rotl_rotl_56 (u64 (c + HASH_K))) by apply u64_range. unfold sig_byte at 1. f_equal. apply Z.lxor_assoc. }
  rewrite (proj2 (Hg a b)), (proj2 (Hg b a)). f_equal. f_equal. apply Z.lxor_comm.
Qed.

Lemma hash_key_range od : in64 (hash_key od).
Proof.
  unfold hash_key. case_match; [|lia]. unfold map_str.
  match goal with |- 0 <= u32 ?x < _ => pose proof (u32_range x) end. lia.
Qed.

Definition set_data (od : OpNode) (l : list Z) : OpNode :=
  mkNode od l (tensor_param_ids od) (const_data_offset od) (const_data_size od).

(** The signature does not see an exchange of two parameter bytes
    that are eight apart: two ops that differ in nothing else have one
    signature and equal inputs, which is all that elimination looks at.  So
    elimination merges two ops that compute different things: in the
    graph below the output reads ops with the parameters 1 and 2 in two
    64-bit fields, exchanged, and reads one of them twice afterwards. *)
Theorem cse_merges_different_ops :
  (forall (od : OpNode) pre a b mid suf, length mid = 7%nat ->
    compute_signature (set_data od (pre ++ a :: mid ++ b :: suf)) =
    compute_signature (set_data od (pre ++ b :: mid ++ a :: suf))) /\
  let op id data := set_data (plain_op id "Split" [1] [4]) data in
  let x := 1 :: replicate 7 0 ++ 2 :: replicate 7 0 in
  let y := 2 :: replicate 7 0 ++ 1 :: replicate 7 0 in
  let p := graph_from [plain_op 4 "Output" [2; 3] []; op 3 y; op 2 x; plain_op 1 "Input" [] [2; 3]] 1 4 in
  let sem at_ (vs : list (list Z * Z)) := at_data at_ ++ concat (fst <$> vs) in
  let q := fst (common_subexpr_eliminate p) in
  keys q = [4; 3; 1] /\ (fun od : OpNode => src_id <$> inputs od) <$> opdefs q !! 4 = Some [3; 3] /\
  eval sem 3 (opdefs p) 4 = Some (x ++ y) /\ eval sem 3 (opdefs q) 4 = Some (y ++ y).
Proof.
  split; [|by vm_compute]. intros od pre a b mid suf Hmid. unfold compute_signature, hash_key.
  cbn [op_data inputs tensor_param_ids output_def set_data with_op node_op name]. fold (hash_key od).
  set (s0 := foldl sig_param _ _). assert (in64 s0) as Hs0.
  { unfold s0. assert (forall l s, in64 s -> in64 (foldl sig_param s l)) as Hp.
    { induction l as [|x l IH]; intros s Hs; [done|]. cbn. apply IH. apply rotl_range; [lia|].
      apply lxor_range; [done|apply u64_range]. }
    apply Hp. assert (forall l s, in64 s -> in64 (foldl sig_input s l)) as Hi; [|apply Hi, hash_key_range].
    induction l as [|x l IH]; intros s Hs; [done|]. cbn. apply IH. apply rotl_range; [lia|].
    apply lxor_range; [apply lxor_range; [done|apply u64_range]|apply u64_range]. }
  assert (forall l s, in64 s -> in64 (foldl sig_byte s l)) as Hb.
  { induction l as [|x l IH]; intros s Hs; [done|]. cbn. by apply IH, sig_byte_range. }
  assert (foldl sig_byte s0 (pre ++ a :: mid ++ b :: suf) = foldl sig_byte s0 (pre ++ b :: mid ++ a :: suf)) as ->; [|done].
  replace (pre ++ a :: mid ++ b :: suf) with (pre ++ (a :: mid ++ [b]) ++ suf) by (cbn; by rewrite <-app_assoc).
  replace (pre ++ b :: mid ++ a :: suf) with (pre ++ (b :: mid ++ [a]) ++ suf) by (cbn; by rewrite <-app_assoc).
  rewrite !(foldl_app sig_byte pre), (foldl_app sig_byte (a :: mid ++ [b]) suf), (foldl_app sig_byte (b :: mid ++ [a]) suf).
  f_equal. apply swap_signature; [by apply Hb|done].
Qed.

(** Two ops whose signatures differ only by their inputs may come to share one
    when those inputs are merged.  In the graph below no two mergeable ops
    with different attributes have the same signature; but once the two
    [Neg]s are one, the two [Split]s are merged as well, and the output reads
    one of them twice. *)
Theorem merging_makes_signatures_meet :
  let op id nm ins cons data := set_data (plain_op id nm ins cons) data in
  let x := 1 :: replicate 7 0 ++ 2 :: replicate 7 0 in
  let y := 2 :: replicate 7 0 ++ 1 :: replicate 7 0 in
  let ops := [plain_op 1 "Input" [] [2; 3]; plain_op 2 "Neg" [1] [4]; plain_op 3 "Neg" [1] [5];
              op 4 "Split" [2] [6] x; op 5 "Split" [3] [6] y; plain_op 6 "Output" [4; 5] []] in
  let p := graph_from ops 1 6 in
  let sem at_ (vs : list (list Z * Z)) := at_data at_ ++ concat (fst <$> vs) in
  let q := fst (common_subexpr_eliminate p) in
  graph_wf p /\ complete (opdefs p) /\
  NoDup (compute_signature <$> [plain_op 2 "Neg" [1] [4]; op 4 "Split" [2] [6] x; op 5 "Split" [3] [6] y]) /\
  keys q = [1; 2; 4; 6] /\ eval sem 4 (opdefs p) 6 = Some (x ++ y) /\ eval sem 4 (opdefs q) 6 = Some (x ++ x).
Proof.
  cbv zeta. split_and!; [|by apply graph_from_complete; vm_compute| |by vm_compute..].
  - apply graph_from_wf. apply (bool_decide_unpack _). by vm_compute.
  - apply (bool_decide_unpack _). by vm_compute.
Qed.

(** * The results *)

(** C17: On a well-formed graph elimination removes only mergeable ops and
    changes the others in nothing but their consumers and in where their
    inputs come from.  When
    the consumer lists are complete, and no two mergeable ops with different
    attributes share a signature whichever ops of the graph their inputs are
    made to come from ([no_collision]: the signatures are taken while merged
    inputs are being replaced, and it is not enough that they differ at the
    start, see [merging_makes_signatures_meet]), no live op reads a removed
    op afterwards and every op that stays computes what it computed before. *)
Theorem cse_preserves_values p :
  graph_wf p ->
  exists p' removed, common_subexpr_eliminate p = (p', Z.of_nat (length removed)) /\ NoDup removed /\ graph_wf p' /\
    keys p' = filter (fun k => k ∉ removed) (keys p) /\ derived (opdefs p) (opdefs p') /\
    (forall r, r ∈ removed -> exists od : OpNode, opdefs p !! r = Some od /\
       mergeable (input_node_id p) (output_node_id p) r od = true) /\
    (no_collision (input_node_id p) (output_node_id p) (opdefs p) -> complete (opdefs p) ->
      complete (opdefs p') /\
      (forall c (oc : OpNode) r, opdefs p' !! c = Some oc -> is_live oc = true -> r ∈ removed -> r ∉ src_id <$> inputs oc) /\
      forall V (sem : OpAttrs -> list (V * Z) -> V) h x, x ∉ removed -> eval sem h (opdefs p') x = eval sem h (opdefs p) x).
Proof.
  intros Hwf. destruct (cse_ok p Hwf) as (p' & R & E & Hnd & _ & Hwf' & Hk & Hd & _ & _ & _ & _ & HR & Hev).
  by exists p', R.
Qed.

(** C12: The clean-up loop ends: twice the number of ops and two rounds are
    enough.  What it leaves is settled, that is, dead code removal, ordering
    and elimination find nothing to do; on an acyclic graph its ordering
    respects the data flow.  The output stays live, and, under the
    conditions of the elimination (complete consumer lists, [no_collision]),
    every op that is left computes what it computed at the start. *)
Theorem run_phase_fixpoint_correct p :
  graph_wf p ->
  exists p', (forall fuel, (2 * length (keys p) + 2 <= fuel)%nat -> run_phase_fixpoint fuel p = Some p') /\
    graph_wf p' /\ settled p' /\ graph_dirty p' = false /\ derived (opdefs p) (opdefs p') /\
    (live_at (opdefs p) (output_node_id p) = true -> live_at (opdefs p') (output_node_id p) = true) /\
    (acyclic (opdefs p') -> order_keys (opdefs p') (keys p') <> [] -> data_order (opdefs p') (node_order p')) /\
    (complete (opdefs p) -> no_collision (input_node_id p) (output_node_id p) (opdefs p) ->
      forall V (sem : OpAttrs -> list (V * Z) -> V) h x,
        is_Some (opdefs p' !! x) -> eval sem h (opdefs p') x = eval sem h (opdefs p) x).
Proof.
  intros Hwf. destruct (fixpoint_ok (2 * length (keys p) + 2) p Hwf) as (p' & Hrun & [Hw Hids Hd Ho He] & Hset & Hdirty).
  { unfold unordered. repeat case_match; lia. }
  exists p'. split_and!; try done; [|intros Hc Hn; by apply He].
  intros Hac Hne. destruct (order_nodes_ok p' Hw) as (l & n & E & _ & Hn & Hor). destruct Hset as (_ & E2 & _).
  rewrite E in E2. injection E2 as _ ->. rewrite <-(proj1 Hn eq_refl). destruct Hor as [[_ ?]|[Hp Hs]]; [done|].
  apply data_order_edges; try done.
  - rewrite Hp. apply NoDup_filter, Hw.
  - intros id Hid. rewrite Hp. apply order_keys_elem. split; [|done]. apply (wf_dom p' Hw).
    unfold not_dead in Hid. by destruct (opdefs p' !! id).
Qed.

Lemma twin_graph_complete : complete (opdefs twin_graph).
Proof. apply graph_from_complete. by vm_compute. Qed.

(** The three mergeable ops of the graph are equal. *)
Lemma twin_graph_no_collision : no_collision 1 6 (opdefs twin_graph).
Proof.
  assert (forall a (oa : OpNode), opdefs twin_graph !! a = Some oa -> mergeable 1 6 a oa = true ->
    attrs_of oa = mkAttrs (Some "Neg"%string) plain_def [] [] 0 0) as H.
  { intros a oa [Hin <-]%graph_from_lookup Hm. unfold twin_ops in Hin. rewrite !elem_of_cons in Hin.
    destruct Hin as [->|[->|[->|[->|[->|Hn]]]]]; try done. by apply not_elem_of_nil in Hn. }
  intros a b oa ob ca cb Ea Eb Ma Mb _ _ _. by rewrite (H a oa Ea Ma), (H b ob Eb Mb).
Qed.

Lemma cse_preserves_values_witness :
  exists p', common_subexpr_eliminate twin_graph = (p', 2) /\ keys p' = [6; 3; 1] /\
    forall h, eval (fun at_ vs => (at_name at_, length vs)) h (opdefs p') 6 =
              eval (fun at_ vs => (at_name at_, length vs)) h (opdefs twin_graph) 6.
Proof.
  destruct (cse_preserves_values twin_graph twin_graph_wf) as (p' & R & E & _ & Hwf & Hk & _ & _ & Hev).
  assert ((fun r => (keys (fst r), snd r)) (common_subexpr_eliminate twin_graph) = ([6; 3; 1], 2)) as Hv by (by vm_compute).
  rewrite E in Hv. cbn in Hv. injection Hv as Hk' Hn. exists p'. rewrite Hn in E. split; [exact E|]. split; [exact Hk'|].
  destruct (Hev twin_graph_no_collision twin_graph_complete) as (_ & _ & He). intros h. apply He.
  assert (6 ∈ keys p') as Hin by (rewrite Hk'; left). rewrite Hk in Hin. by apply list_elem_of_filter in Hin as [? _].
Defined.

Lemma run_phase_fixpoint_correct_witness :
  exists p', run_phase_fixpoint 12 twin_graph = Some p' /\ keys p' = [6; 3; 1] /\ node_order p' = [1; 3; 6] /\
    forall h, eval (fun at_ vs => (at_name at_, length vs)) h (opdefs p') 6 =
              eval (fun at_ vs => (at_name at_, length vs)) h (opdefs twin_graph) 6.
Proof.
  destruct (run_phase_fixpoint_correct twin_graph twin_graph_wf) as (p' & Hrun & _ & _ & _ & _ & Hout & _ & Hev).
  specialize (Hrun 12%nat ltac:(cbn; lia)). exists p'. split; [exact Hrun|].
  assert ((fun q => (keys q, node_order q)) <$> run_phase_fixpoint 12 twin_graph = Some ([6; 3; 1], [1; 3; 6])) as Hv by (by vm_compute).
  rewrite Hrun in Hv. cbn in Hv. injection Hv as Hk Ho. split; [exact Hk|]. split; [exact Ho|]. intros h.
  apply (Hev twin_graph_complete twin_graph_no_collision).
  specialize (Hout ltac:(by vm_compute)). unfold live_at in Hout. change (output_node_id twin_graph) with 6 in Hout.
  destruct (opdefs p' !! 6) as [od|]; [by exists od|done].
Defined.
