(* ===== verification/GraphBuild.v ===== *)
(** Building and upkeep of the graph ([compiler/src/ir/graph_prepare.cpp]):
    appending ops and constants, the consumer lists, marks and their
    collection, the shape steps of [do_prepare1], the checksum. *)
From S2P Require Import Prelude Ir GraphPasses.

(** * Appending *)

Definition set_meta (p : GraphPrepare) (inp out next : op_id_t) : GraphPrepare :=
  mkPrepare (keys p) (opdefs p) inp out (node_order p) (exec_order p) (graph_dirty p) (construction_state p) next
    (const_pool p) (const_extents p).

Definition set_pool (p : GraphPrepare) (pool : list Z) (exts : list (op_id_t * Z * Z)) : GraphPrepare :=
  mkPrepare (keys p) (opdefs p) (input_node_id p) (output_node_id p) (node_order p) (exec_order p) (graph_dirty p)
    (construction_state p) (next_op_id p) pool exts.

Definition zero_def : OutputDef := mkOutputDef 0 0 [0; 0; 0; 0; 0] 0.

Definition improper_output (od : OutputDef) : bool :=
  (5 <? rank od) || (12 <? dtype od) || ((0 <? rank od) && (dim od 0 =? 0)).

(** The connections an op is given, as pairs of a source and an output
    number; [None] when one is refused. *)
Fixpoint connect (id : op_id_t) (ins : list (Z * Z)) : option (list InputConn) :=
  match ins with
  | [] => Some []
  | (src, out) :: ins =>
      if (src =? 0) || (src =? id) then None
      else if 0xFFF <? out then None
      else cs ← connect id ins; Some (mkInputConn src out zero_def :: cs)
  end.

Definition push_consumer (id : op_id_t) (od : OpNode) : OpNode := set_consumers od (consumers od ++ [id]).

Section build.
(** Where a new entry of the map comes in the order of visits. *)
Context (place : list op_id_t -> op_id_t -> list op_id_t).

(** Names as the code compares them. *)
Definition name_allowed (nm : string) : bool :=
  match nm with
  | EmptyString => false
  | String.String c _ => negb (Ascii.eqb c (Ascii.ascii_of_nat 36))
  end.

(** The input and the output op are noted as soon as their name is seen. *)
Definition note_special (p : GraphPrepare) (nm : string) (id : op_id_t) : option GraphPrepare :=
  if (nm =? "Input")%string then
    Some (if input_node_id p =? 0 then set_meta p id (output_node_id p) (next_op_id p) else p)
  else if (nm =? "Output")%string then
    if negb (output_node_id p =? 0) then None else Some (set_meta p (input_node_id p) id (next_op_id p))
  else Some p.

Definition append_node (p : GraphPrepare) (nm : string) (id : op_id_t) (ins : list (Z * Z)) (outs : list OutputDef)
    (data : list Z) : GraphPrepare * op_id_t :=
  if negb (construction_state p =? 1) then (p, 0)
  else if negb (name_allowed nm) then (p, 0)
  else if id =? 0 then (p, 0)
  else
    let p := if next_op_id p <=? id then set_meta p (input_node_id p) (output_node_id p) (u64 (id + 1)) else p in
    if existsb improper_output outs then (p, 0)
    else if bool_decide (is_Some (opdefs p !! id)) then (p, 0)
    else
      match note_special p nm id with
      | None => (p, 0)
      | Some p =>
          match connect id ins with
          | None => (p, 0)
          | Some cs =>
              let od := mkNode (mkOpDef id OP_ENABLED (Some nm) (default zero_def (head outs)) cs []) data [] 0 0 in
              let m := foldl (fun (m : gmap op_id_t OpNode) c => alter (push_consumer id) (src_id c) m) (opdefs p) cs in
              (set_graph p (place (keys p) id) (<[id := od]> m) true, id)
          end
      end.

(** [data] is [None] for a null pointer. *)
Definition append_const_node (p : GraphPrepare) (node_type : Z) (od : OutputDef) (data : option (list Z)) (data_len : Z) :
    GraphPrepare * op_id_t :=
  if negb (construction_state p =? 1) then (p, 0)
  else
    let '(p, id) := if negb (node_type =? 0) then (p, node_type)
                    else (set_meta p (input_node_id p) (output_node_id p) (u64 (next_op_id p + 1)), next_op_id p) in
    if bool_decide (is_Some (opdefs p !! id)) then (p, 0)
    else
      let p := if next_op_id p <=? id then set_meta p (input_node_id p) (output_node_id p) (u64 (id + 1)) else p in
      let pool := if bool_decide (const_pool p = []) then replicate 4 0 else const_pool p in
      let aligned_len := Z.land (u64 (data_len + 3)) (u64 (Z.lnot 3)) in
      let offset := Z.of_nat (length pool) in
      let '(pool, off) :=
        match data with
        | Some bytes =>
            if 0 <? data_len then
              (pool ++ take (Z.to_nat data_len) bytes ++ replicate (Z.to_nat (aligned_len - data_len)) 0, offset)
            else (pool, 0)
        | None => (pool, 0)
        end in
      let node := mkNode (mkOpDef id (Z.lor OP_ENABLED OP_CONST) (Some "$Const"%string) od [] []) [] [] off data_len in
      let p := set_pool p pool (const_extents p ++ [(id, off, data_len)]) in
      (set_graph p (place (keys p) id) (<[id := node]> (opdefs p)) true, id).
End build.

(** * Upkeep *)

Definition note_consumer (id : op_id_t) (s : OpNode) : OpNode :=
  if bool_decide (id ∈ consumers s) then s else push_consumer id s.

(** One op puts itself on the lists of its sources, once on each. *)
Definition rebuild_step (m : gmap op_id_t OpNode) (id : op_id_t) : gmap op_id_t OpNode :=
  match (m !! id : option OpNode) with
  | None => m
  | Some od =>
      if is_enabled od then
        foldl (fun (m : gmap op_id_t OpNode) c =>
          alter (note_consumer id) (src_id c) m) m (inputs od)
      else m
  end.

Definition rebuild_consumers (p : GraphPrepare) : GraphPrepare :=
  let cleared := (fun od => set_consumers od []) <$> opdefs p in
  set_graph p (keys p) (foldl rebuild_step cleared (keys p)) (graph_dirty p).

(** The end of [inject_htp_prepare_inputs]: parameters know the ops that
    use them. *)
Definition register_params (p : GraphPrepare) : GraphPrepare :=
  set_graph p (keys p)
    (foldl (fun m id => match (m !! id : option OpNode) with
                        | None => m
                        | Some od => foldl (fun (m : gmap op_id_t OpNode) tp => alter (push_consumer id) tp m) m (tensor_param_ids od)
                        end) (opdefs p) (keys p)) (graph_dirty p).

Definition allocate_io_tensors (p : GraphPrepare) : GraphPrepare :=
  let m := if negb (input_node_id p =? 0)
           then alter (fun od : OpNode => set_flags od (Z.lor (flags od) OP_ENABLED)) (input_node_id p) (opdefs p)
           else opdefs p in
  let m := if negb (output_node_id p =? 0) then
             match (m !! output_node_id p : option OpNode) with
             | Some od =>
                 match inputs od with
                 | c :: _ => match (m !! src_id c : option OpNode) with
                             | Some s => <[output_node_id p := set_output_def od (output_def s)]> m
                             | None => m
                             end
                 | [] => m
                 end
             | None => m
             end
           else m in
  set_graph p (keys p) m (graph_dirty p).

Definition mark_op_deletable (p : GraphPrepare) (id : op_id_t) : GraphPrepare :=
  set_graph p (keys p) (alter set_dead id (opdefs p)) (graph_dirty p).

Definition collect_deletable_nodes (p : GraphPrepare) : GraphPrepare :=
  set_graph p (filter (fun k => not_dead (opdefs p) k = true) (keys p))
    (filter (fun kv : op_id_t * OpNode => is_dead (snd kv) = false) (opdefs p)) (graph_dirty p).

(** The live ops along the ordering, or along the map without one. *)
Definition get_sorted_opdefs (p : GraphPrepare) : list OpNode :=
  omap (fun id => match (opdefs p !! id : option OpNode) with
                  | Some od => if is_live od then Some od else None
                  | None => None
                  end) (if bool_decide (node_order p = []) then keys p else node_order p).

(** * Shapes *)

(** Step 3 of [do_prepare1]. *)
Definition infer_shape (m : gmap op_id_t OpNode) (od : OpNode) : option OutputDef :=
  if negb (is_enabled od) then None
  else
    match name od with
    | None => None
    | Some nm =>
        match inputs od with
        | [] => None
        | c :: _ =>
            if (nm =? "Output")%string then
              match (m !! src_id c : option OpNode) with Some s => Some (output_def s) | None => None end
            else if negb (rank (output_def od) =? 0) && negb (dim (output_def od) 0 =? 0) then None
            else if (nm =? "Const")%string || (nm =? "Input")%string || (nm =? "$Const")%string then None
            else
              match (m !! src_id c : option OpNode) with
              | Some s => if negb (rank (output_def s) =? 0) then Some (output_def s) else None
              | None => None
              end
        end
    end.

Definition infer_step (m : gmap op_id_t OpNode) (id : op_id_t) : gmap op_id_t OpNode :=
  match (m !! id : option OpNode) with
  | None => m
  | Some od => match infer_shape m od with Some d => <[id := set_output_def od d]> m | None => m end
  end.

Definition infer_shapes (p : GraphPrepare) : GraphPrepare :=
  set_graph p (keys p) (foldl infer_step (opdefs p) (keys p)) (graph_dirty p).

(** Step 3b: the dimensions move up in place, from the last to the first. *)
Definition pad_dims (old_rank : nat) (dims : list Z) : list Z :=
  foldl (fun ds i => <[i := if (4 - old_rank <=? i)%nat then nth (i - (4 - old_rank)) ds 0 else 1]> ds) dims [3; 2; 1; 0]%nat.

Definition pad_def (d : OutputDef) : OutputDef :=
  if dtype d =? 2147483647 then d
  else if (0 <? rank d) && (rank d <? 4) then
    mkOutputDef 4 (dtype d) (pad_dims (Z.to_nat (rank d)) (dims d)) (element_size d)
  else d.

Definition pad_ranks (p : GraphPrepare) : GraphPrepare :=
  set_graph p (keys p) ((fun od : OpNode => set_output_def od (pad_def (output_def od))) <$> opdefs p) (graph_dirty p).

(** * The checksum *)

Definition crc_step_lfsr (x : Z) : Z :=
  let v := Z.land x 0x1b in
  let parity := foldl (fun acc i => xorb acc (Z.testbit v i)) false [0; 1; 2; 3; 4] in
  Z.lor (u64 (Z.shiftl (Z.b2z parity) 63)) (Z.shiftr x 1).

Definition checksum_bytes (init : Z) (data : list Z) : Z :=
  foldl (fun acc b => Z.lxor (crc_step_lfsr (crc_step_lfsr acc)) b) init data.

(** The bytes of a 64-bit number, the lowest first. *)
Definition id_bytes (id : op_id_t) : list Z := (fun i => Z.land (Z.shiftr id (8 * Z.of_nat i)) 0xFF) <$> seq 0 8.

Definition calculate_graph_checksum (p : GraphPrepare) : Z :=
  foldl (fun acc id => checksum_bytes acc (id_bytes id)) 0 (keys p).

Example checksum_hello :
  checksum_bytes 0 [72; 101; 108; 108; 111; 44; 32; 72; 84; 80; 33] = 0x6974500000000031.
Proof. by vm_compute. Qed.

(** * Consumer lists *)

(** [c] is enabled and reads [id]. *)
Definition enabled_reader (m : gmap op_id_t OpNode) (id c : op_id_t) : bool :=
  match (m !! c : option OpNode) with
  | Some od => is_enabled od && bool_decide (id ∈ src_id <$> inputs od)
  | None => false
  end.

Lemma note_all id (l : list InputConn) (m : gmap op_id_t OpNode) x :
  (forall (s : OpNode), m !! x = Some s -> id ∉ consumers s) ->
  foldl (fun (m : gmap op_id_t OpNode) c => alter (note_consumer id) (src_id c) m) m l !! x =
    (fun s => if decide (x ∈ src_id <$> l) then push_consumer id s else s) <$> m !! x.
Proof.
  intros Hn. induction l as [|c l IH] using rev_ind.
  { cbn. destruct (m !! x); [|done]. cbn. by rewrite decide_False by apply not_elem_of_nil. }
  rewrite foldl_app, fmap_app. cbn [foldl fmap list_fmap]. destruct (decide (src_id c = x)) as [Hx|Hx].
  - rewrite Hx, lookup_alter_eq, IH. destruct (m !! x) as [s|] eqn:Es; [|done]. cbn [fmap option_fmap option_map]. f_equal.
    rewrite (decide_True (P := x ∈ _ ++ _)) by set_solver. case_decide; unfold note_consumer.
    + rewrite bool_decide_true; [done|]. cbn. set_solver.
    + by rewrite bool_decide_false by (by apply Hn).
  - rewrite lookup_alter_ne, IH by done. destruct (m !! x); [|done]. cbn [fmap option_fmap option_map]. f_equal.
    destruct (decide (x ∈ src_id <$> l)); [by rewrite decide_True by set_solver|]. by rewrite decide_False by set_solver.
Qed.

Lemma rebuild_lookup p x :
  graph_wf p ->
  opdefs (rebuild_consumers p) !! x =
    (fun s => set_consumers s (filter (fun c => enabled_reader (opdefs p) x c = true) (keys p))) <$> opdefs p !! x.
Proof.
  intros [Hnd Hdom _]. unfold rebuild_consumers. cbn [opdefs set_graph].
  assert (forall A B, keys p = A ++ B -> forall x,
    foldl rebuild_step ((fun od => set_consumers od []) <$> opdefs p) A !! x =
    (fun s => set_consumers s (filter (fun c => enabled_reader (opdefs p) x c = true) A)) <$> opdefs p !! x) as Hgen;
    [|apply (Hgen (keys p) []); by rewrite app_nil_r].
  induction A as [|id A IH] using rev_ind; intros B E y; [cbn; by rewrite lookup_fmap|].
  rewrite <-app_assoc in E. specialize (IH _ E). rewrite foldl_app. cbn [foldl]. set (m := foldl _ _ A) in *.
  unfold rebuild_step. rewrite (IH id). destruct (opdefs p !! id) as [od|] eqn:Ei; cycle 1.
  { cbn. rewrite IH. destruct (opdefs p !! y); [|done]. cbn. f_equal. rewrite filter_app, filter_cons_False, filter_nil, app_nil_r; [done|].
    unfold enabled_reader. by rewrite Ei. }
  cbn [fmap option_fmap option_map]. set (od' := set_consumers od _). change (is_enabled od') with (is_enabled od).
  change (inputs od') with (inputs od). destruct (is_enabled od) eqn:Een; cycle 1.
  { rewrite IH. destruct (opdefs p !! y); [|done]. cbn. f_equal. rewrite filter_app, filter_cons_False, filter_nil, app_nil_r; [done|].
    unfold enabled_reader. by rewrite Ei, Een. }
  rewrite note_all, IH.
  - destruct (opdefs p !! y) as [s|]; [|done]. cbn [fmap option_fmap option_map]. f_equal. rewrite filter_app.
    case_decide as Hy.
    + rewrite filter_cons_True, filter_nil; [done|]. unfold enabled_reader. by rewrite Ei, Een, bool_decide_true.
    + rewrite filter_cons_False, filter_nil, app_nil_r; [done|]. unfold enabled_reader. by rewrite Ei, Een, bool_decide_false.
  - intros s Es. rewrite IH in Es. destruct (opdefs p !! y); [|done]. cbn in Es. injection Es as <-. cbn.
    intros [_ Hin]%list_elem_of_filter. rewrite E in Hnd. apply NoDup_app in Hnd as (_ & Hd & _). apply (Hd id Hin). by left.
Qed.

(** Rebuilding the consumer lists leaves on the list of every op
    exactly the enabled ops that read it, each once, in the order of the
    map; nothing else changes.  The lists are then complete, which is what
    dead code removal and elimination rely on. *)
Theorem rebuild_consumers_exact p :
  graph_wf p ->
  (forall x, opdefs (rebuild_consumers p) !! x =
    (fun s => set_consumers s (filter (fun c => enabled_reader (opdefs p) x c = true) (keys p))) <$> opdefs p !! x) /\
  keys (rebuild_consumers p) = keys p /\ complete (opdefs (rebuild_consumers p)).
Proof.
  intros Hwf. split; [intros x; by apply rebuild_lookup|]. split; [done|].
  intros c od id s Ec Hl Hin Es. rewrite (rebuild_lookup p _ Hwf) in Ec. rewrite (rebuild_lookup p _ Hwf) in Es.
  destruct (opdefs p !! c) as [od0|] eqn:E0; [|done]. destruct (opdefs p !! id) as [s0|]; [|done].
  cbn in Ec, Es. injection Ec as <-. injection Es as <-. cbn. apply list_elem_of_filter. split.
  - unfold enabled_reader. rewrite E0. apply andb_true_iff. split; [by apply andb_true_iff in Hl as [? _]|].
    by apply bool_decide_true.
  - apply (wf_dom p Hwf). by rewrite E0.
Qed.

Lemma rebuild_consumers_exact_witness :
  graph_wf twin_graph /\ complete (opdefs (rebuild_consumers twin_graph)) /\
  (fun od : OpNode => consumers od) <$> opdefs (rebuild_consumers twin_graph) !! 1 = Some [3; 5; 2].
Proof.
  split; [exact twin_graph_wf|]. destruct (rebuild_consumers_exact twin_graph twin_graph_wf) as (Hx & _ & Hc).
  split; [exact Hc|]. rewrite (Hx 1). by vm_compute.
Defined.

(** * Appending an op *)

Section append.
Context (place : list op_id_t -> op_id_t -> list op_id_t).
Context (Hplace : forall ks k, place ks k ≡ₚ k :: ks).

Lemma connect_ok id ins cs :
  connect id ins = Some cs -> Forall2 (fun io c => src_id c = fst io /\ out_idx c = snd io) ins cs /\
    Forall (fun c => src_id c <> 0 /\ src_id c <> id /\ out_idx c <= 0xFFF) cs.
Proof.
  revert cs. induction ins as [|[src out] ins IH]; intros cs; cbn; [intros [= <-]; by split|].
  destruct (Z.eqb_spec src 0); [done|]. destruct (Z.eqb_spec src id); [done|]. cbn. destruct (Z.ltb_spec 0xFFF out); [done|].
  destruct (connect id ins) as [cs'|]; [|done]. cbn. intros [= <-]. destruct (IH cs' eq_refl) as [H1 H2].
  split; constructor; cbn; done.
Qed.

Lemma push_all id (l : list InputConn) (m : gmap op_id_t OpNode) x :
  foldl (fun (m : gmap op_id_t OpNode) c => alter (push_consumer id) (src_id c) m) m l !! x =
    (fun s => set_consumers s (consumers s ++ replicate (length (filter (fun c => src_id c = x) l)) id)) <$> m !! x.
Proof.
  induction l as [|c l IH] using rev_ind.
  { cbn. destruct (m !! x) as [s|]; [|done]. cbn. f_equal. rewrite app_nil_r. by destruct s as [[] ? ? ? ?]. }
  rewrite foldl_app, filter_app, length_app. cbn [foldl]. destruct (decide (src_id c = x)) as [<-|Hx].
  - rewrite lookup_alter_eq, IH, filter_cons_True by done. destruct (m !! src_id c); [|done].
    cbn [fmap option_fmap option_map length]. f_equal. unfold push_consumer, set_consumers, with_op. cbn.
    rewrite replicate_add, app_assoc. done.
  - by rewrite lookup_alter_ne, IH, filter_cons_False, filter_nil, Nat.add_0_r by done.
Qed.

(** What is asked of a new op. *)
Definition acceptable (p : GraphPrepare) (nm : string) (id : op_id_t) (ins : list (Z * Z)) (outs : list OutputDef) : Prop :=
  construction_state p = 1 /\ name_allowed nm = true /\ id <> 0 /\ existsb improper_output outs = false /\
  opdefs p !! id = None /\ ~ (nm = "Output"%string /\ output_node_id p <> 0) /\
  Forall (fun io => fst io <> 0 /\ fst io <> id /\ snd io <= 0xFFF) ins.

Lemma connect_some id ins :
  is_Some (connect id ins) <-> Forall (fun io => fst io <> 0 /\ fst io <> id /\ snd io <= 0xFFF) ins.
Proof.
  induction ins as [|[src out] ins IH]; cbn; [split; [constructor|by eexists]|]. rewrite Forall_cons, <-IH. cbn.
  destruct (Z.eqb_spec src 0); [split; [by intros [? ?]|naive_solver]|].
  destruct (Z.eqb_spec src id); [split; [by intros [? ?]|naive_solver]|]. cbn.
  destruct (Z.ltb_spec 0xFFF out); [split; [by intros [? ?]|intros [? ?]; lia]|].
  destruct (connect id ins); cbn; split; [|by eexists|by intros [? ?]|intros [_ [? ?]]; done].
  intros _. split; [done|by eexists].
Qed.

Lemma note_special_some p nm id :
  is_Some (note_special p nm id) <-> ~ (nm = "Output"%string /\ output_node_id p <> 0).
Proof.
  unfold note_special. destruct (String.eqb_spec nm "Input") as [->|Hi]; [split; [intros _ [? _]; done|by eexists]|].
  destruct (String.eqb_spec nm "Output") as [->|Ho]; [|split; [tauto|by eexists]].
  destruct (Z.eqb_spec (output_node_id p) 0) as [E|E]; cbn; [split; [tauto|by eexists]|].
  split; [by intros [? ?]|tauto].
Qed.

Lemma note_special_keeps p nm id q :
  note_special p nm id = Some q -> keys q = keys p /\ opdefs q = opdefs p.
Proof.
  unfold note_special. repeat case_match; intros [= <-]; done.
Qed.

Lemma append_node_cases p nm id ins outs data :
  let '(p', r) := append_node place p nm id ins outs data in
  (~ acceptable p nm id ins outs /\ r = 0 /\ keys p' = keys p /\ opdefs p' = opdefs p) \/
  (acceptable p nm id ins outs /\ r = id /\ keys p' = place (keys p) id /\ graph_dirty p' = true /\
   exists cs, connect id ins = Some cs /\
     opdefs p' !! id = Some (mkNode (mkOpDef id OP_ENABLED (Some nm) (default zero_def (head outs)) cs []) data [] 0 0) /\
     forall x, x <> id -> opdefs p' !! x =
       (fun s => set_consumers s (consumers s ++ replicate (length (filter (fun c => src_id c = x) cs)) id)) <$> opdefs p !! x).
Proof.
  unfold append_node. destruct (Z.eqb_spec (construction_state p) 1) as [Hc|Hc]; cbn [negb]; cycle 1.
  { left. split; [by intros (? & _)|done]. }
  destruct (name_allowed nm) eqn:Hnm; cbn [negb]; [|left; split; [intros (_ & ? & _); congruence|done]].
  destruct (Z.eqb_spec id 0) as [Hid|Hid]; [left; split; [by intros (_ & _ & ? & _)|done]|].
  set (p1 := if next_op_id p <=? id then _ else p).
  assert (keys p1 = keys p /\ opdefs p1 = opdefs p /\ output_node_id p1 = output_node_id p) as (Hk1 & Ho1 & Hout1)
    by (unfold p1; by case_match).
  destruct (existsb improper_output outs) eqn:Himp; [left; split; [intros (_ & _ & _ & ? & _); congruence|done]|].
  case_bool_decide as Hin; [left; split; [|done]; intros (_ & _ & _ & _ & Hno & _); rewrite Ho1, Hno in Hin; by destruct Hin|].
  rewrite Ho1 in Hin. apply eq_None_not_Some in Hin.
  pose proof (note_special_some p1 nm id) as Hsp. rewrite Hout1 in Hsp.
  destruct (note_special p1 nm id) as [p2|] eqn:E2; cycle 1.
  { left. split; [|done]. intros (_ & _ & _ & _ & _ & Ho%Hsp & _). by destruct Ho. }
  apply note_special_keeps in E2 as [Hk2 Ho2]. pose proof (connect_some id ins) as Hco.
  destruct (connect id ins) as [cs|] eqn:Ecs; cycle 1.
  { left. split; [|by rewrite Hk2, Ho2]. intros (_ & _ & _ & _ & _ & _ & Hf%Hco). by destruct Hf. }
  right. split; [|split; [done|split; [cbn; by rewrite Hk2, Hk1|split; [done|]]]].
  { split_and!; try done; [by apply Hsp|by apply Hco]. }
  exists cs. split; [done|]. cbn [opdefs set_graph]. split; [by rewrite lookup_insert_eq|]. intros x Hx.
  by rewrite lookup_insert_ne, push_all, Ho2, Ho1 by done.
Qed.
End append.

(** C31: Appending an op returns 0 exactly when something about it is
    refused -- the state, the name, a zero number, an improper output, a
    number in use, a second output, a bad source or output number -- and
    then leaves the ops as they were.  Otherwise it returns the number; the
    op is in the graph with the inputs given, it is on the consumer list of
    each source that exists as often as it reads it, the other ops are
    unchanged, the graph stays well formed, and the consumer lists stay
    complete unless an op already read the new number. *)
Theorem append_node_correct place p nm id ins outs data :
  (forall ks k, place ks k ≡ₚ k :: ks) -> graph_wf p ->
  let '(p', r) := append_node place p nm id ins outs data in
  (~ acceptable p nm id ins outs /\ r = 0 /\ keys p' = keys p /\ opdefs p' = opdefs p) \/
  (acceptable p nm id ins outs /\ r = id /\ graph_wf p' /\
   (exists od : OpNode, opdefs p' !! id = Some od /\ (fun c => (src_id c, out_idx c)) <$> inputs od = ins /\
      consumers od = [] /\ op_data od = data /\ is_live od = true) /\
   (forall x, x <> id -> opdefs p' !! x =
      (fun s => set_consumers s (consumers s ++ replicate (length (filter (fun io => fst io = x) ins)) id)) <$> opdefs p !! x) /\
   (complete (opdefs p) -> (forall c, ~ reads (opdefs p) c id) -> complete (opdefs p'))).
Proof.
  intros Hplace [Hnd Hdom Hids]. pose proof (append_node_cases place p nm id ins outs data) as H.
  destruct (append_node place p nm id ins outs data) as [p' r]. destruct H as [H|H]; [by left|right].
  destruct H as (Hacc & -> & Hk & _ & cs & Ecs & Eid & Hx). split; [done|]. split; [done|].
  apply connect_ok in Ecs as [Hcs _]. pose proof Hacc as (_ & _ & _ & _ & Hfresh & _ & Hins).
  assert ((fun c => (src_id c, out_idx c)) <$> cs = ins) as Hmap.
  { clear -Hcs. induction Hcs as [|[a b] c ins cs [H1 H2] _ IH]; [done|]. cbn in *. by rewrite H1, H2, IH. }
  assert (forall x, length (filter (fun c => src_id c = x) cs) = length (filter (fun io => fst io = x) ins)) as Hcount.
  { intros x. rewrite <-Hmap. clear. induction cs as [|c cs IH]; [done|]. cbn [fmap list_fmap].
    destruct (decide (src_id c = x)); [rewrite !filter_cons_True by done; cbn; by rewrite IH|by rewrite !filter_cons_False by done]. }
  split; [|split; [|split]].
  - split.
    + rewrite Hk, Hplace. constructor; [|done]. intros Hin%Hdom. rewrite Hfresh in Hin. by destruct Hin.
    + intros k. rewrite Hk, Hplace, elem_of_cons. destruct (decide (k = id)) as [->|Hne].
      * rewrite Eid. split; [by eexists|by left].
      * rewrite Hx by done. rewrite fmap_is_Some, <-Hdom. tauto.
    + intros k od. destruct (decide (k = id)) as [->|Hne]; [rewrite Eid; by intros [= <-]|]. rewrite Hx by done.
      destruct (opdefs p !! k) as [od0|] eqn:E0; [|done]. cbn. intros [= <-]. exact (Hids k od0 E0).
  - eexists. split; [exact Eid|]. by split_and!.
  - intros x Hne. rewrite (Hx x Hne). destruct (opdefs p !! x); [|done]. cbn. by rewrite Hcount.
  - intros Hc Hno c od s so Ec Hl Hin Es. destruct (decide (c = id)) as [->|Hcne].
    + rewrite Eid in Ec. injection Ec as <-. cbn in Hin. destruct (decide (s = id)) as [->|Hsne].
      * exfalso. apply list_elem_of_fmap in Hin as (cn & -> & Hcn). assert ((src_id cn, out_idx cn) ∈ ins) as Hi.
        { rewrite <-Hmap. by apply list_elem_of_fmap_2 with (f := fun c => (src_id c, out_idx c)). }
        rewrite Forall_forall in Hins. apply Hins in Hi. cbn in Hi. tauto.
      * rewrite Hx in Es by done. destruct (opdefs p !! s); [|done]. cbn in Es. injection Es as <-. cbn.
        apply elem_of_app. right. apply elem_of_replicate. split; [done|]. apply list_elem_of_fmap in Hin as (cn & -> & Hcn).
        intros Hz%length_zero_iff_nil. assert (cn ∈ filter (fun c => src_id c = src_id cn) cs) as Hf by (by apply list_elem_of_filter).
        rewrite Hz in Hf. by apply not_elem_of_nil in Hf.
    + rewrite Hx in Ec by done. destruct (opdefs p !! c) as [oc|] eqn:Eoc; [|done]. cbn in Ec. injection Ec as <-. cbn in Hin.
      destruct (decide (s = id)) as [->|Hsne]; [destruct (Hno c); by exists oc|].
      rewrite Hx in Es by done. destruct (opdefs p !! s) as [os|] eqn:Eos; [|done]. cbn in Es. injection Es as <-. cbn.
      apply elem_of_app. left. by eapply Hc.
Qed.

Lemma append_node_correct_witness :
  let '(p', r) := append_node (fun ks k => k :: ks) (graph_from [] 0 0) "Input"%string 7 [] [plain_def] [] in
  let '(p'', r') := append_node (fun ks k => k :: ks) p' "Neg"%string 8 [(7, 0); (7, 1)] [plain_def] [1; 2] in
  r = 7 /\ r' = 8 /\ graph_wf p'' /\ (fun od : OpNode => consumers od) <$> opdefs p'' !! 7 = Some [8; 8].
Proof.
  pose proof (append_node_correct (fun ks k => k :: ks) (graph_from [] 0 0) "Input"%string 7 [] [plain_def] []
    (fun ks k => reflexivity _) (graph_from_wf [] 0 0 ltac:(constructor))) as H1.
  destruct (append_node _ (graph_from [] 0 0) _ _ _ _ _) as [p' r] eqn:E1.
  assert (r = 7) as -> by (apply (f_equal snd) in E1; by vm_compute in E1).
  destruct H1 as [(_ & ? & _)|(_ & _ & Hwf & _)]; [done|].
  pose proof (append_node_correct (fun ks k => k :: ks) p' "Neg"%string 8 [(7, 0); (7, 1)] [plain_def] [1; 2]
    (fun ks k => reflexivity _) Hwf) as H2.
  destruct (append_node _ p' _ _ _ _ _) as [p'' r'] eqn:E2.
  assert ((fun x => (snd x, (fun od : OpNode => consumers od) <$> opdefs (fst x) !! 7))
    (append_node (fun ks k => k :: ks)
       (fst (append_node (fun ks k => k :: ks) (graph_from [] 0 0) "Input"%string 7 [] [plain_def] []))
       "Neg"%string 8 [(7, 0); (7, 1)] [plain_def] [1; 2]) = (8, Some [8; 8])) as Hv by (by vm_compute).
  rewrite E1 in Hv. cbn [fst] in Hv. rewrite E2 in Hv. cbn [fst snd] in Hv.
  injection Hv as -> Hc. destruct H2 as [(_ & ? & _)|(_ & _ & Hwf' & _)]; [done|]. by split_and!.
Defined.

(** An output op whose inputs are refused is noted as the output all
    the same: the call fails without adding it, and from then on every
    output op is refused as a second one, so the graph never gets an
    output. *)
Theorem failed_output_blocks_output place p id ins outs data :
  construction_state p = 1 -> output_node_id p = 0 -> id <> 0 -> existsb improper_output outs = false ->
  opdefs p !! id = None -> connect id ins = None ->
  let '(p', r) := append_node place p "Output" id ins outs data in
  r = 0 /\ opdefs p' = opdefs p /\ output_node_id p' = id /\
  forall id' ins' outs' data', snd (append_node place p' "Output" id' ins' outs' data') = 0.
Proof.
  intros Hs Ho Hid Himp Hfresh Hcon. unfold append_node at 1. rewrite Hs. cbn [Z.eqb Pos.eqb negb name_allowed].
  change (name_allowed "Output") with true. cbn [negb]. rewrite (proj2 (Z.eqb_neq id 0) Hid), Himp.
  set (p1 := if next_op_id p <=? id then _ else p).
  assert (opdefs p1 = opdefs p /\ output_node_id p1 = 0 /\ construction_state p1 = 1) as (H1 & H2 & H3)
    by (unfold p1; by case_match).
  rewrite H1, Hfresh, bool_decide_false by (by intros [? ?]). unfold note_special at 1. cbn [String.eqb].
  change ("Output" =? "Input")%string with false. change ("Output" =? "Output")%string with true. cbv iota.
  rewrite H2. cbn [Z.eqb negb]. rewrite Hcon. split; [done|]. split; [done|]. split; [done|].
  intros id' ins' outs' data'. pose proof (append_node_cases place (set_meta p1 (input_node_id p1) id (next_op_id p1)) "Output" id' ins' outs' data') as H.
  destruct (append_node _ _ _ _ _ _ _) as [q r]. destruct H as [(_ & -> & _)|((_ & _ & _ & _ & _ & Hno & _) & _)]; [done|].
  exfalso. by apply Hno.
Qed.

Lemma failed_output_blocks_output_witness :
  let '(p', r) := append_node (fun ks k => k :: ks) (graph_from [] 0 0) "Output"%string 100 [(0, 0)] [] [] in
  r = 0 /\ snd (append_node (fun ks k => k :: ks) p' "Output"%string 100 [(1, 0)] [] []) = 0.
Proof.
  pose proof (failed_output_blocks_output (fun ks k => k :: ks) (graph_from [] 0 0) 100 [(0, 0)] [] []
    eq_refl eq_refl ltac:(lia) eq_refl eq_refl eq_refl) as H.
  destruct (append_node _ (graph_from [] 0 0) _ _ _ _ _) as [p' r]. destruct H as (Hr & _ & _ & Hb).
  split; [exact Hr|]. apply Hb.
Defined.

(** * The pool of constants *)

Definition pool_read (pool : list Z) (off len : Z) : list Z := take (Z.to_nat len) (drop (Z.to_nat off) pool).

Notation ext_off e := (snd (fst e)).
Notation ext_len e := (snd e).

(** A record without data has offset 0; the others are aligned, past the
    first word, inside the pool and one after the other. *)
Definition extent_ok (pool : list Z) (e : op_id_t * Z * Z) : Prop :=
  ext_off e = 0 \/ 4 <= ext_off e /\ (4 | ext_off e) /\ 0 < ext_len e /\ ext_off e + ext_len e <= Z.of_nat (length pool).

Definition pool_wf (p : GraphPrepare) : Prop :=
  (4 | Z.of_nat (length (const_pool p))) /\ Forall (extent_ok (const_pool p)) (const_extents p) /\
  StronglySorted (fun a b => ext_off a = 0 \/ ext_off b = 0 \/ ext_off a + ext_len a <= ext_off b) (const_extents p).

Lemma aligned_len_ok len :
  0 <= len < 2 ^ 64 - 3 -> len <= Z.land (u64 (len + 3)) (u64 (Z.lnot 3)) /\ (4 | Z.land (u64 (len + 3)) (u64 (Z.lnot 3))).
Proof.
  intros Hl. rewrite (wrap_id 64 (len + 3)) by lia. change 3 with (Z.ones 2) at 2 4. rewrite land_high_u64 by lia.
  change (2 ^ 2) with 4. split; [|by exists ((len + 3) / 4)]. pose proof (Z.div_mod (len + 3) 4). pose proof (Z.mod_pos_bound (len + 3) 4). lia.
Qed.

(** The id a new constant gets: the one asked for, or the next one. *)
Definition const_id (p : GraphPrepare) (node_type : Z) : op_id_t :=
  if node_type =? 0 then next_op_id p else node_type.

(** When a constant is refused: the graph is no longer under construction, or
    its id is taken. *)
Definition const_refused (p : GraphPrepare) (node_type : Z) : Prop :=
  construction_state p <> 1 \/ is_Some (opdefs p !! const_id p node_type).

(** C32: A constant with data is refused exactly when the graph is no longer
    under construction or its id is taken; then 0 is returned and ops,
    records and pool are what they were.  Otherwise it is added, under the
    id returned, as a live constant with the given output, the other ops
    stay, and its data can be read back from the pool at the place its op
    and its record name; and so can every constant appended before: the
    records stay inside the pool, aligned to four bytes and apart from each
    other, and what the earlier ones hold does not change. *)
Theorem const_pool_roundtrip place p node_type od bytes :
  pool_wf p -> bytes <> [] -> Z.of_nat (length bytes) < 2 ^ 64 - 3 ->
  let '(p', r) := append_const_node place p node_type od (Some bytes) (Z.of_nat (length bytes)) in
  (const_refused p node_type /\ r = 0 /\ opdefs p' = opdefs p /\ keys p' = keys p /\
     const_extents p' = const_extents p /\ const_pool p' = const_pool p) \/
  (~ const_refused p node_type /\ r = const_id p node_type /\ keys p' = place (keys p) r /\
     (exists n : OpNode, opdefs p' = <[r := n]> (opdefs p) /\ is_const n = true /\ is_live n = true /\ output_def n = od /\
        const_data_size n = Z.of_nat (length bytes) /\
        const_extents p' = const_extents p ++ [(r, const_data_offset n, const_data_size n)] /\
        pool_read (const_pool p') (const_data_offset n) (const_data_size n) = bytes) /\
     pool_wf p' /\
     forall e, e ∈ const_extents p -> ext_off e <> 0 ->
       pool_read (const_pool p') (ext_off e) (ext_len e) = pool_read (const_pool p) (ext_off e) (ext_len e)).
Proof.
  intros (Hal & Hext & Hsort) Hne Hlen. unfold append_const_node.
  assert (0 < Z.of_nat (length bytes)) as Hpos by (destruct bytes; [done|cbn; lia]).
  destruct (Z.eqb_spec (construction_state p) 1) as [Hst|Hst]; cbn [negb]; [|left; split_and!; try done; by left].
  assert (exists q id, (if negb (node_type =? 0) then (p, node_type)
      else (set_meta p (input_node_id p) (output_node_id p) (u64 (next_op_id p + 1)), next_op_id p)) = (q, id) /\
    id = const_id p node_type /\ keys q = keys p /\
    opdefs q = opdefs p /\ const_pool q = const_pool p /\ const_extents q = const_extents p) as Hq.
  { unfold const_id. destruct (node_type =? 0); do 2 eexists; split_and!; done. }
  destruct Hq as (q & id & Eq & Hid & Hqk & Hq1 & Hq2 & Hq3). rewrite Eq, Hq1.
  case_bool_decide as Hfr; [left; split_and!; try done; right; by rewrite <- Hid|].
  assert (~ const_refused p node_type) as Hnot by (intros [?|?]; [done|by rewrite <- Hid in *]).
  set (q' := if next_op_id q <=? id then _ else q).
  assert (const_pool q' = const_pool p /\ const_extents q' = const_extents p /\ opdefs q' = opdefs p /\ keys q' = keys p) as (Hp' & He' & Hm' & Hk')
    by (unfold q'; destruct (next_op_id q <=? id); split_and!; assumption).
  rewrite Hp', He'. rewrite (proj2 (Z.ltb_lt 0 _) Hpos).
  set (pool := if bool_decide (const_pool p = []) then replicate 4 0 else const_pool p).
  set (aligned := Z.land _ _). destruct (aligned_len_ok (Z.of_nat (length bytes))) as [Ha1 Ha2]; [lia|]. fold aligned in Ha1, Ha2.
  assert ((4 | Z.of_nat (length pool)) /\ 4 <= Z.of_nat (length pool) /\ exists rest, pool = const_pool p ++ rest) as (Hpl & Hp4 & rest & Hpre).
  { unfold pool. case_bool_decide as Hz; [rewrite Hz; split; [by exists 1|split; [cbn; lia|by eexists]]|].
    split; [done|]. split; [|exists []; by rewrite app_nil_r]. destruct Hal as [k Hk]. destruct (const_pool p); [done|]. cbn [length] in *. lia. }
  cbv beta iota zeta. right. rewrite Nat2Z.id, firstn_all.
  set (pool' := pool ++ bytes ++ _).
  assert (Z.of_nat (length pool') = Z.of_nat (length pool) + aligned) as Hl'.
  { unfold pool'. rewrite !length_app, length_replicate. lia. }
  unfold pool_wf. cbn [opdefs keys const_extents const_pool set_graph set_pool].
  split; [done|]. split; [done|]. split; [by rewrite Hk'|]. split; [|split; [split; [|split]|]].
  - eexists. split; [by rewrite Hm'|]. split_and!; try done. cbn [const_data_offset const_data_size].
    unfold pool_read, pool'. rewrite !Nat2Z.id, drop_app_length. apply take_app_length.
  - rewrite Hl'. by apply Z.divide_add_r.
  - apply Forall_app. split; [|apply Forall_singleton; right; cbn; split_and!; try done; lia].
    eapply Forall_impl; [exact Hext|]. intros e [He|(H1 & H2 & H3 & H4)]; [by left|right]. split_and!; try done.
    rewrite Hl', Hpre, length_app. lia.
  - apply StronglySorted_app_2; [|done|repeat constructor]. intros a b Ha ->%list_elem_of_singleton. cbn [fst snd].
    rewrite Forall_forall in Hext. destruct (Hext a Ha) as [?|(_ & _ & _ & Hb)]; [by left|]. right. right.
    rewrite Hpre, length_app. lia.
  - intros e He Hz. rewrite Forall_forall in Hext. destruct (Hext e He) as [?|(H1 & _ & H3 & H4)]; [done|].
    unfold pool_read, pool'. rewrite Hpre, <-app_assoc. rewrite drop_app_le by lia. rewrite take_app_le; [done|].
    rewrite length_drop. lia.
Qed.

Lemma const_pool_roundtrip_witness :
  let '(p, r) := append_const_node (fun ks k => k :: ks) (graph_from [] 0 0) 5 plain_def (Some [1; 2; 3]) 3 in
  let '(p', r') := append_const_node (fun ks k => k :: ks) p 0 plain_def (Some [9; 8]) 2 in
  r = 5 /\ r' = 6 /\ const_extents p' = [(5, 4, 3); (6, 8, 2)] /\ pool_wf p' /\ pool_read (const_pool p') 4 3 = [1; 2; 3].
Proof.
  assert (pool_wf (graph_from [] 0 0)) as H0 by (split; [by exists 0|split; constructor]).
  pose proof (const_pool_roundtrip (fun ks k => k :: ks) (graph_from [] 0 0) 5 plain_def [1; 2; 3] H0 ltac:(done) ltac:(cbn; lia)) as H1.
  change (Z.of_nat (length [1; 2; 3])) with 3 in H1.
  destruct (append_const_node _ (graph_from [] 0 0) _ _ _ _) as [p r] eqn:E1.
  assert (r = 5 /\ const_extents p = [(5, 4, 3)]) as [-> He].
  { assert ((fun x => (snd x, const_extents (fst x))) (append_const_node (fun ks k => k :: ks) (graph_from [] 0 0) 5 plain_def
      (Some [1; 2; 3]) 3) = (5, [(5, 4, 3)])) as Hv by (by vm_compute).
    rewrite E1 in Hv. cbn in Hv. by injection Hv as -> ->. }
  destruct H1 as [(_ & ? & _)|(_ & _ & _ & _ & Hw & _)]; [done|].
  pose proof (const_pool_roundtrip (fun ks k => k :: ks) p 0 plain_def [9; 8] Hw ltac:(done) ltac:(cbn; lia)) as H2.
  change (Z.of_nat (length [9; 8])) with 2 in H2.
  destruct (append_const_node _ p _ _ _ _) as [p' r'] eqn:E2.
  assert ((fun x => (snd x, const_extents (fst x), pool_read (const_pool (fst x)) 4 3))
    (append_const_node (fun ks k => k :: ks) (fst (append_const_node (fun ks k => k :: ks) (graph_from [] 0 0) 5 plain_def
      (Some [1; 2; 3]) 3)) 0 plain_def (Some [9; 8]) 2) = (6, [(5, 4, 3); (6, 8, 2)], [1; 2; 3])) as Hv by (by vm_compute).
  rewrite E1 in Hv. cbn [fst] in Hv. rewrite E2 in Hv. cbn [fst snd] in Hv. injection Hv as -> Hx Hr.
  destruct H2 as [(_ & ? & _)|(_ & _ & _ & _ & Hw' & _)]; [done|]. by split_and!.
Defined.

(** * Shapes *)

(** Padding puts the dimensions in use behind ones, and leaves the fifth
    alone. *)
Lemma pad_dims_spec r a b c d e :
  (r <= 4)%nat -> pad_dims r [a; b; c; d; e] = replicate (4 - r) 1 ++ take r [a; b; c; d] ++ [e].
Proof. intros Hr. do 5 (destruct r as [|r]; [by vm_compute|]). lia. Qed.

(** Rank normalisation brings every defined shape of rank 1 to 3 to
    rank 4 by leading ones; the number of elements stays the same, shapes
    of other ranks and the undefined data type are left alone, and a second
    run changes nothing. *)
Theorem pad_def_correct d :
  length (dims d) = 5%nat -> 0 <= rank d ->
  let d' := pad_def d in
  (dtype d <> 2147483647 -> 1 <= rank d -> 4 <= rank d' /\
    take (Z.to_nat (rank d')) (dims d') = replicate (4 - Z.to_nat (rank d)) 1 ++ take (Z.to_nat (rank d)) (dims d)) /\
  foldr Z.mul 1 (take (Z.to_nat (rank d')) (dims d')) = foldr Z.mul 1 (take (Z.to_nat (rank d)) (dims d)) /\
  dtype d' = dtype d /\ element_size d' = element_size d /\ length (dims d') = 5%nat /\ pad_def d' = d'.
Proof.
  intros Hl Hr. destruct d as [r t ds es]. cbn [dims rank dtype element_size] in *. unfold pad_def. cbn [dims rank dtype element_size].
  destruct ds as [|a [|b [|c [|x [|e [|? ?]]]]]]; try done.
  destruct (Z.eqb_spec t 2147483647) as [->|Ht]; cbn [dims rank dtype element_size].
  { split_and!; try done. }
  destruct (Z.ltb_spec 0 r) as [H0|H0]; cbn [andb]; cycle 1.
  { cbn [dims rank dtype element_size]. rewrite (proj2 (Z.eqb_neq t _) Ht), (proj2 (Z.ltb_ge 0 r) H0). split_and!; try done; lia. }
  destruct (Z.ltb_spec r 4) as [H4|H4]; cbn [dims rank dtype element_size]; cycle 1.
  { rewrite (proj2 (Z.eqb_neq t _) Ht), (proj2 (Z.ltb_ge r 4) H4), andb_false_r. split_and!; try done. intros _ _. split; [lia|].
    replace (4 - Z.to_nat r)%nat with 0%nat by lia. done. }
  rewrite (proj2 (Z.eqb_neq t _) Ht). rewrite pad_dims_spec by lia.
  assert (r = 1 \/ r = 2 \/ r = 3) as [->|[->| ->]] by lia; split_and!;
    first [done|cbn; lia|by cbn; case_match|idtac].
  all: repeat match goal with |- context [Z.to_nat ?k] => let v := eval vm_compute in (Z.to_nat k) in change (Z.to_nat k) with v end.
  all: cbn -[Z.mul]; ring.
Qed.

Lemma pad_def_correct_witness :
  rank (pad_def (mkOutputDef 2 1 [8; 192; 0; 0; 0] 2)) = 4 /\
  dims (pad_def (mkOutputDef 2 1 [8; 192; 0; 0; 0] 2)) = [1; 1; 8; 192; 0].
Proof.
  destruct (pad_def_correct (mkOutputDef 2 1 [8; 192; 0; 0; 0] 2) ltac:(done) ltac:(cbn; lia)) as (H & _).
  destruct H as [H1 H2]; [done|cbn; lia|]. split; [by vm_compute|by vm_compute].
Defined.

(** Shape inference visits the ops in the order of the map and copies
    the shape of the first source as it is at that moment, so the outcome
    for one and the same graph depends on the order of an [unordered_map]:
    below, the shape of the output reaches it in one order and not in the
    other. *)
Theorem infer_shapes_depends_on_order :
  let input := plain_op 1 "Input" [] [2] in
  let relu id src := set_output_def (plain_op id "Relu" [src] []) zero_def in
  let p ks := set_graph (graph_from [input; relu 2 1; relu 3 2] 1 0) ks (opdefs (graph_from [input; relu 2 1; relu 3 2] 1 0)) true in
  let shape ks := (fun od : OpNode => rank (output_def od)) <$> opdefs (infer_shapes (p ks)) !! 3 in
  [1; 2; 3] ≡ₚ [3; 2; 1] /\ shape [1; 2; 3] = Some 1 /\ shape [3; 2; 1] = Some 0.
Proof. cbv zeta. split; [by apply (bool_decide_unpack _); vm_compute|]. split; by vm_compute. Qed.
