(* ===== verification/PlanOrder.v ===== *)
(** The execution order ([compiler/src/ir/graph_prepare.cpp]): the end of
    [do_prepare2_late], which settles the order of the plan, and the way of a
    clean graph through the scheduler to the order that is executed. *)
From S2P Require Import Prelude Ir DdrOffsets CpSolution Scheduler GraphSchedule GraphPasses GraphCse.

(** * The execution order *)

Record Indegrees := mkIndeg {
ig_deg : gmap op_id_t nat;
ig_succ : gmap op_id_t (list op_id_t);
ig_orphans : list op_id_t
}.

(** A connection counts when its source has been met in the plan, the op
    itself included. *)
Definition count_conn (id : op_id_t) (s : Indegrees) (c : InputConn) : Indegrees :=
match ig_deg s !! src_id c with
| None => s
| Some _ => mkIndeg (alter S id (ig_deg s)) (partial_alter (fun l => Some (default [] l ++ [id])) (src_id c) (ig_succ s))
              (ig_orphans s)
end.

Definition count_op (m : gmap op_id_t OpNode) (s : Indegrees) (id : op_id_t) : Indegrees :=
match (m !! id : option OpNode) with
| None => mkIndeg (ig_deg s) (ig_succ s) (ig_orphans s ++ [id])
| Some od => foldl (count_conn id) (mkIndeg (<[id := 0%nat]> (ig_deg s)) (ig_succ s) (ig_orphans s)) (inputs od)
end.

(** The count is a [size_t]: below 0 it wraps. *)
Definition release (acc : gmap op_id_t nat * list op_id_t) (s : op_id_t) : gmap op_id_t nat * list op_id_t :=
let '(deg, ready) := acc in
match default 0%nat (deg !! s) with
| O => (<[s := Z.to_nat (2 ^ 64 - 1)]> deg, ready)
| S d => (<[s := d]> deg, if (d =? 0)%nat then s :: ready else ready)
end.

(** The ready ops are a stack, whose top comes first. *)
Fixpoint settle_loop (fuel : nat) (succs : gmap op_id_t (list op_id_t)) (deg : gmap op_id_t nat)
    (ready topo : list op_id_t) : option (list op_id_t) :=
match fuel with
| O => None
| S fuel =>
    match ready with
    | [] => Some topo
    | id :: ready =>
        let '(deg, ready) := foldl release (deg, ready) (default [] (succs !! id)) in
        settle_loop fuel succs deg ready (topo ++ [id])
    end
end.

Definition settle_exec_order (p : GraphPrepare) : option GraphPrepare :=
if bool_decide (exec_order p = []) then Some p
else
  let s := foldl (count_op (opdefs p)) (mkIndeg ∅ ∅ []) (exec_order p) in
  let zeros : list op_id_t := filter (fun id => ig_deg s !! id = Some 0%nat) (base.elements (dom (ig_deg s) : gset op_id_t)) in
  topo ← settle_loop (S (length (exec_order p))) (ig_succ s) (ig_deg s) (reverse (std_sort Z.ltb zeros)) [];
  let topo := topo ++ ig_orphans s in
  Some (if (length topo =? length (exec_order p))%nat then set_exec_order p topo else p).

(** The passes at the end of the preparation, up to the memory plan. *)
Definition do_prepare2_late (p : GraphPrepare) : option GraphPrepare :=
p ← dead_code_removal_and_cse p;
'(p, _) ← order_nodes p;
settle_exec_order p.

(** ** The counts *)

(** [u] stands before [v]. *)
Definition before (l : list op_id_t) (u v : op_id_t) : Prop :=
exists i j, (i < j)%nat /\ l !! i = Some u /\ l !! j = Some v.

Definition times (u : op_id_t) (l : list op_id_t) : nat := length (filter (fun x => x = u) l).

Lemma times_app u l k : times u (l ++ k) = (times u l + times u k)%nat.
Proof. unfold times. by rewrite filter_app, length_app. Qed.

Lemma times_single u x : times u [x] = if decide (x = u) then 1%nat else 0%nat.
Proof. unfold times. cbn. by case_decide. Qed.

Lemma times_replicate u x k : times u (replicate k x) = if decide (x = u) then k else 0%nat.
Proof.
induction k as [|k IH]; [by case_decide|]. rewrite replicate_S. change (x :: replicate k x) with ([x] ++ replicate k x).
rewrite times_app, times_single, IH. by case_decide.
Qed.

Lemma times_pos u l : u ∈ l <-> (0 < times u l)%nat.
Proof.
induction l as [|x l IH]; [cbn; split; [by intros ?%not_elem_of_nil|lia]|]. change (x :: l) with ([x] ++ l).
rewrite times_app, times_single, elem_of_app, list_elem_of_singleton, IH. case_decide; naive_solver lia.
Qed.

Lemma length_filter_ne u l : length (filter (fun x => x <> u) l) = (length l - times u l)%nat.
Proof.
induction l as [|x l IH]; [done|]. pose proof (length_filter (fun x => x = u) l) as Hle. unfold times in *.
destruct (decide (x = u)) as [He|He].
- rewrite filter_cons_False, filter_cons_True by (done || tauto). cbn [length]. lia.
- rewrite filter_cons_True, filter_cons_False by done. cbn [length]. lia.
Qed.

Lemma count_conns id (l : list InputConn) : forall s,
is_Some (ig_deg s !! id) ->
let s' := foldl (count_conn id) s l in
let srcs := filter (fun u => is_Some (ig_deg s !! u)) (src_id <$> l) in
(forall x, ig_deg s' !! x = (fun d => if decide (x = id) then (d + length srcs)%nat else d) <$> ig_deg s !! x) /\
(forall u, default [] (ig_succ s' !! u) = default [] (ig_succ s !! u) ++ replicate (times u srcs) id) /\
ig_orphans s' = ig_orphans s.
Proof.
induction l as [|c l IH] using rev_ind; intros s Hs; cbv zeta.
{ cbn. split; [|split; [|done]]; intros x; [|by rewrite app_nil_r]. destruct (ig_deg s !! x); [|done]. cbn.
  by rewrite Nat.add_0_r; case_decide. }
destruct (IH s Hs) as (Hd & Hu & Ho). rewrite foldl_app. cbn [foldl]. set (s1 := foldl _ s l) in *.
rewrite fmap_app, filter_app. set (srcs := filter _ (src_id <$> l)) in *. cbn [fmap list_fmap].
unfold count_conn. rewrite (Hd (src_id c)). destruct (ig_deg s !! src_id c) as [d|] eqn:Ec; cbn [fmap option_fmap option_map].
- rewrite filter_cons_True by (by rewrite Ec). cbn [ig_deg ig_succ ig_orphans]. split; [|split; [|done]].
  + intros x. destruct (decide (id = x)) as [<-|Hne].
    * rewrite lookup_alter_eq, Hd. destruct Hs as [d0 ->]. cbn. rewrite !decide_True by done. rewrite length_app. cbn. f_equal. lia.
    * rewrite lookup_alter_ne, Hd by done. destruct (ig_deg s !! x); [|done]. cbn. by rewrite !decide_False by done.
  + intros u. rewrite times_app, times_single, replicate_add. destruct (decide (src_id c = u)) as [<-|Hne].
    * rewrite lookup_partial_alter_eq. cbn. rewrite Hu, app_assoc. done.
    * rewrite lookup_partial_alter_ne by done. by rewrite Hu, app_nil_r.
- rewrite filter_cons_False by (rewrite Ec; by intros [? ?]). rewrite filter_nil, app_nil_r. by split_and!.
Qed.

Section settle.
Context (m : gmap op_id_t OpNode) (plan : list op_id_t) (Hnd : NoDup plan).

Definition there (id : op_id_t) : Prop := is_Some (m !! id).

Fixpoint upto (l : list op_id_t) (v : op_id_t) : list op_id_t :=
match l with [] => [] | x :: l => if decide (x = v) then [x] else x :: upto l v end.

Lemma upto_split A v B : v ∉ A -> upto (A ++ v :: B) v = A ++ [v].
Proof.
induction A as [|x A IH]; intros Hn; cbn; [by rewrite decide_True|]. apply not_elem_of_cons in Hn as [Hne Hn].
rewrite decide_False by done. by rewrite IH.
Qed.

(** The connections of [v] that count. *)
Definition counted (v : op_id_t) : list op_id_t :=
match (m !! v : option OpNode) with
| None => []
| Some od => filter (fun u => u ∈ upto plan v /\ there u) (src_id <$> inputs od)
end.

Lemma counts_ok A B : plan = A ++ B ->
let s := foldl (count_op m) (mkIndeg ∅ ∅ []) A in
(forall v, ig_deg s !! v = if decide (v ∈ A /\ there v) then Some (length (counted v)) else None) /\
(forall u, default [] (ig_succ s !! u) = concat ((fun v => replicate (times u (counted v)) v) <$> A)) /\
ig_orphans s = filter (fun id => ~ there id) A.
Proof.
revert B. induction A as [|id A IH] using rev_ind; intros B E; cbv zeta.
{ cbn. split; [|done]. intros v. rewrite lookup_empty, decide_False; [done|]. by intros [?%not_elem_of_nil _]. }
destruct (IH (id :: B)) as (Hd & Hu & Ho); [by rewrite <-app_assoc in E|]. rewrite foldl_app. cbn [foldl].
set (s := foldl _ _ A) in *. rewrite filter_app.
assert (id ∉ A) as Hid. { rewrite E in Hnd. apply NoDup_app in Hnd as (Hnd' & _). apply NoDup_app in Hnd' as (_ & Hd' & _).
  intros Hx. apply (Hd' id Hx). by left. }
unfold count_op. destruct (m !! id) as [od|] eqn:Ei; cycle 1.
{ cbn [ig_deg ig_succ ig_orphans]. split; [|split].
  - intros v. rewrite Hd. apply decide_ext. unfold there. split; [set_solver|]. intros [[?| ->%list_elem_of_singleton]%elem_of_app [od Ev]]; [by eauto|congruence].
  - intros u. rewrite Hu, fmap_app, concat_app. cbn. unfold counted at 3. rewrite Ei. cbn. by rewrite app_nil_r.
  - rewrite Ho, filter_cons_True; [done|]. unfold there. rewrite Ei. by intros [? ?]. }
destruct (count_conns id (inputs od) (mkIndeg (<[id := 0%nat]> (ig_deg s)) (ig_succ s) (ig_orphans s))) as (Hd' & Hu' & Ho').
{ cbn. rewrite lookup_insert_eq. by eexists. }
cbn [ig_deg ig_succ ig_orphans] in Hd', Hu', Ho'. set (s' := foldl _ _ (inputs od)) in *.
assert (filter (fun u => is_Some (<[id := 0%nat]> (ig_deg s) !! u)) (src_id <$> inputs od) = counted id) as Hc.
{ unfold counted. rewrite Ei, E, <-app_assoc. cbn. rewrite upto_split by done. apply list_filter_iff. intros u.
  destruct (decide (u = id)) as [->|Hne].
  - rewrite lookup_insert_eq. split; [|by eexists]. intros _. split; [set_solver|]. unfold there. by rewrite Ei.
  - rewrite lookup_insert_ne, Hd by done. case_decide as Hx; [|]; split.
    + intros _. set_solver.
    + by eexists.
    + by intros [? ?].
    + intros [Hin Ht]. exfalso. apply Hx. set_solver. }
rewrite Hc in Hd', Hu'. split; [|split].
- intros v. rewrite Hd'. destruct (decide (v = id)) as [->|Hne].
  + rewrite lookup_insert_eq. cbn. rewrite decide_True; [done|].
    split; [set_solver|]. unfold there. by rewrite Ei.
  + rewrite lookup_insert_ne, Hd by done. destruct (decide (v ∈ A /\ there v)).
    * cbn. rewrite decide_True by set_solver. done.
    * rewrite decide_False by set_solver. done.
- intros u. rewrite Hu', Hu, fmap_app, concat_app. cbn. by rewrite app_nil_r.
- rewrite Ho', Ho, filter_cons_False, filter_nil, app_nil_r; [done|]. intros Hx. apply Hx. unfold there. by rewrite Ei.
Qed.

Lemma release_ok L : forall (deg : gmap op_id_t nat) ready,
(forall v, v ∈ L -> exists d, deg !! v = Some d /\ (times v L <= d)%nat) ->
exists deg' pushed, foldl release (deg, ready) L = (deg', pushed ++ ready) /\
  (forall v, deg' !! v = (fun d => (d - times v L)%nat) <$> deg !! v) /\ NoDup pushed /\
  (forall v, v ∈ pushed <-> v ∈ L /\ deg !! v = Some (times v L)).
Proof.
induction L as [|s L IH] using rev_ind; intros deg ready HL.
{ exists deg, []. cbn. split; [done|]. split; [|split; [constructor|set_solver]]. intros v. destruct (deg !! v); [|done].
  cbn. by rewrite Nat.sub_0_r. }
destruct (IH deg ready) as (deg' & pushed & E & Hd & Hp & Hin).
{ intros v Hv. destruct (HL v) as (d & Ed & Ht); [set_solver|]. rewrite times_app in Ht. exists d. split; [done|lia]. }
destruct (HL s) as (d & Ed & Ht); [set_solver|]. rewrite times_app, times_single, decide_True in Ht by done.
rewrite foldl_app, E. cbn [foldl]. unfold release at 1. rewrite Hd, Ed. cbn [fmap option_fmap option_map default from_option id].
replace (d - times s L)%nat with (S (d - times s L - 1)) by lia.
eexists _, (if (d - times s L - 1 =? 0)%nat then s :: pushed else pushed). split; [by case_match|]. split; [|split].
- intros v. rewrite times_app, times_single. destruct (decide (s = v)) as [<-|Hne].
  + rewrite lookup_insert_eq, Ed. cbn. f_equal. lia.
  + rewrite lookup_insert_ne, Hd by done. destruct (deg !! v); [|done]. cbn. f_equal. lia.
- destruct (Nat.eqb_spec (d - times s L - 1) 0); [|done]. constructor; [|done]. rewrite Hin, Ed. intros [_ [= Hx]]. lia.
- intros v. rewrite times_app, times_single. destruct (decide (s = v)) as [<-|Hne].
  + destruct (Nat.eqb_spec (d - times s L - 1) 0) as [Hz|Hz].
    * split; [|by left]. intros _. split; [set_solver|]. rewrite Ed. f_equal. lia.
    * rewrite Hin, Ed. split; intros [_ [= Hx]]; lia.
  + rewrite Nat.add_0_r. case_match; [rewrite elem_of_cons|]; rewrite Hin; set_solver.
Qed.

(** ** The loop *)

Lemma times_concat u v : times v (concat ((fun w => replicate (times u (counted w)) w) <$> plan)) =
if decide (v ∈ plan) then times u (counted v) else 0%nat.
Proof.
clear -Hnd. revert Hnd. generalize counted. intros f. induction plan as [|w l IH]; intros Hnd.
{ cbn. by rewrite decide_False by apply not_elem_of_nil. }
apply NoDup_cons in Hnd as [Hw Hnd]. rewrite fmap_cons. cbn [concat]. rewrite times_app, times_replicate, IH by done.
destruct (decide (w = v)) as [->|Hne].
- rewrite (decide_False (P := v ∈ l)), decide_True by (done || by left). lia.
- destruct (decide (v ∈ l)); [rewrite decide_True by (by right)|rewrite decide_False by set_solver]; done.
Qed.

Record settle_inv (topo ready : list op_id_t) (deg : gmap op_id_t nat) : Prop := {
si_nodup : NoDup (topo ++ ready);
si_in v : v ∈ topo ++ ready -> v ∈ plan /\ there v;
si_deg v : v ∈ plan -> there v -> deg !! v = Some (length (filter (fun u => u ∉ topo) (counted v)));
si_zero v : v ∈ plan -> there v -> v ∈ topo ++ ready <-> filter (fun u => u ∉ topo) (counted v) = [];
si_order A v B u : topo = A ++ v :: B -> u ∈ counted v -> u ∈ A
}.

Lemma counted_there u v : u ∈ counted v -> v ∈ plan -> u ∈ plan /\ there u.
Proof.
unfold counted. destruct (m !! v) as [od|]; [|by intros ?%not_elem_of_nil].
intros [[Hu Ht] _]%list_elem_of_filter Hv. split; [|done].
assert (forall l, u ∈ upto l v -> u ∈ l) as Hsub; [|by apply Hsub].
induction l as [|x l IH]; cbn; [done|]. case_decide; set_solver.
Qed.

Lemma filter_later topo id l :
id ∉ topo -> filter (fun u => u ∉ topo ++ [id]) l = filter (fun u => u <> id) (filter (fun u => u ∉ topo) l) /\
times id (filter (fun u => u ∉ topo) l) = times id l.
Proof.
intros Hid. rewrite list_filter_filter. split; [apply list_filter_iff; set_solver|].
unfold times. rewrite list_filter_filter. f_equal. apply list_filter_iff. intros x. split; [tauto|by intros ->].
Qed.

Lemma settle_step topo id ready deg (succs : gmap op_id_t (list op_id_t)) :
(forall u, default [] (succs !! u) = concat ((fun v => replicate (times u (counted v)) v) <$> plan)) ->
settle_inv topo (id :: ready) deg ->
exists deg' ready', foldl release (deg, ready) (default [] (succs !! id)) = (deg', ready') /\
  settle_inv (topo ++ [id]) ready' deg'.
Proof.
intros Hs [H1 H2 H3 H4 H5]. rewrite Hs.
assert (id ∉ topo) as Hid. { apply NoDup_app in H1 as (_ & Hd & _). intros Hx. apply (Hd id Hx). by left. }
assert (forall v, v ∈ concat ((fun v => replicate (times id (counted v)) v) <$> plan) ->
  v ∈ plan /\ there v /\ id ∈ counted v) as HL.
{ intros v (l & Hl & Hv)%elem_of_concat. apply list_elem_of_fmap in Hl as (w & -> & Hw).
  apply elem_of_replicate in Hv as [-> Hz]. split; [done|]. assert (id ∈ counted w) as Hin by (apply times_pos; lia).
  split; [|done]. unfold counted in Hin. unfold there. destruct (m !! w); [by eexists|by apply not_elem_of_nil in Hin]. }
destruct (release_ok (concat ((fun v => replicate (times id (counted v)) v) <$> plan)) deg ready) as (deg' & pushed & E & Hd & Hp & Hin).
{ intros v Hv. destruct (HL v Hv) as (Hvp & Hvt & _). exists (length (filter (fun u => u ∉ topo) (counted v))). split; [by apply H3|].
  rewrite times_concat, decide_True by done. rewrite <-(proj2 (filter_later topo id (counted v) Hid)). apply length_filter. }
exists deg', (pushed ++ ready). split; [done|].
assert (forall v, v ∈ plan -> there v -> deg' !! v = Some (length (filter (fun u => u ∉ topo ++ [id]) (counted v)))) as Hdeg.
{ intros v Hv Ht. rewrite Hd, (H3 v Hv Ht). cbn. f_equal. destruct (filter_later topo id (counted v) Hid) as [-> Ht'].
  rewrite length_filter_ne, Ht', times_concat, decide_True by done. done. }
assert (forall v, v ∈ plan -> there v -> v ∈ pushed <->
  filter (fun u => u ∉ topo) (counted v) <> [] /\ filter (fun u => u ∉ topo ++ [id]) (counted v) = []) as Hpush.
{ intros v Hv Ht. rewrite Hin, (H3 v Hv Ht). destruct (filter_later topo id (counted v) Hid) as [-> Ht'].
  rewrite <-(length_zero_iff_nil (filter (fun u => u <> id) _)), length_filter_ne, Ht', times_concat, decide_True by done.
  pose proof (length_filter (fun x => x = id) (filter (fun u => u ∉ topo) (counted v))) as Hle. fold (times id (filter (fun u => u ∉ topo) (counted v))) in Hle.
  rewrite Ht' in Hle. set (F := filter (fun u => u ∉ topo) (counted v)) in *. clearbody F. split.
  - intros [HvL [= Hl]]. destruct (HL v HvL) as (_ & _ & Hc%times_pos). split; [|lia]. intros ->. cbn in Hl. lia.
  - intros [Hne Hz]. assert (0 < times id (counted v))%nat as Hpos%times_pos.
    { destruct F; [done|]. cbn in Hz, Hle. lia. }
    split; [|f_equal; lia].
    apply elem_of_concat. exists (replicate (times id (counted v)) v). split; [apply list_elem_of_fmap; by exists v|].
    apply elem_of_replicate. split; [done|]. apply times_pos in Hpos. lia. }
split; [| |done| |].
- rewrite (Permutation_app_comm pushed), app_assoc, <-(app_assoc topo). cbn. apply NoDup_app. split; [done|]. split; [|done].
  intros v Hv Hpv. destruct (H2 v Hv) as [Hvp Hvt]. apply (Hpush v Hvp Hvt) in Hpv as [Hne _]. by apply Hne, H4.
- intros v Hv. apply elem_of_app in Hv as [Hv|[Hv|Hv]%elem_of_app]; [apply H2; set_solver| |apply H2; set_solver].
  apply Hin in Hv as [Hv _]. by destruct (HL v Hv) as (? & ? & _).
- intros v Hv Ht. rewrite !elem_of_app, (Hpush v Hv Ht). specialize (H4 v Hv Ht). rewrite elem_of_app, elem_of_cons in H4.
  rewrite list_elem_of_singleton. destruct (filter_later topo id (counted v) Hid) as [Hf _]. split.
  + intros [Hx|[[_ Hx]|Hx]]; [|done|]; rewrite Hf, (proj1 H4) by tauto; done.
  + intros Hx. destruct (decide (filter (fun u => u ∉ topo) (counted v) = [])) as [Hz|Hz]; [|tauto]. apply H4 in Hz. tauto.
- intros A v B u HE Hu. destruct (decide (B = [])) as [->|HB].
  + apply app_inj_tail in HE as [<- <-]. destruct (H2 id ltac:(set_solver)) as [Hp' Ht'].
    assert (filter (fun u => u ∉ topo) (counted id) = []) as Hz by (apply (H4 id Hp' Ht'); set_solver).
    apply dec_stable. intros Hn. assert (u ∈ filter (fun u => u ∉ topo) (counted id)) as Hx by (by apply list_elem_of_filter).
    rewrite Hz in Hx. by apply not_elem_of_nil in Hx.
  + destruct (exists_last HB) as (B' & z & ->). rewrite app_comm_cons, app_assoc in HE. apply app_inj_tail in HE as [HE _].
    by eapply H5.
Qed.

Lemma settle_loop_ok (succs : gmap op_id_t (list op_id_t)) fuel : forall topo ready deg,
(forall u, default [] (succs !! u) = concat ((fun v => replicate (times u (counted v)) v) <$> plan)) ->
settle_inv topo ready deg -> (length plan - length topo < fuel)%nat ->
exists topo' deg', settle_loop fuel succs deg ready topo = Some topo' /\ settle_inv topo' [] deg'.
Proof.
induction fuel as [|fuel IH]; intros topo ready deg Hs Hi Hf; [lia|]. cbn [settle_loop].
destruct ready as [|id ready]; [by exists topo, deg|].
destruct (settle_step topo id ready deg succs Hs Hi) as (deg' & ready' & -> & Hi'). apply IH; [done|done|].
assert (length (topo ++ id :: ready) <= length plan)%nat as Hle.
{ apply submseteq_length, NoDup_submseteq; [apply Hi|]. intros v Hv. by apply (si_in _ _ _ Hi). }
rewrite !length_app in *. cbn in *. lia.
Qed.
End settle.

(** ** The settled order *)

Lemma split_before l u v : before l u v <-> exists A B C, l = A ++ u :: B ++ v :: C.
Proof.
split.
- intros (i & j & Hij & Hi & Hj). apply list_elem_of_split_length in Hi as (A & R & -> & ->).
  rewrite lookup_app_r in Hj by lia. destruct (j - length A)%nat as [|k] eqn:Ek; [lia|]. cbn in Hj.
  apply list_elem_of_split_length in Hj as (B & C & -> & _). by exists A, B, C.
- intros (A & B & C & ->). exists (length A), (length A + S (length B))%nat. split; [lia|].
  split; [by apply list_lookup_middle|]. rewrite lookup_app_r by lia.
  replace (length A + S (length B) - length A)%nat with (S (length B)) by lia. cbn. by apply list_lookup_middle.
Qed.

Lemma settle_ok p :
NoDup (exec_order p) ->
exists l, settle_exec_order p = Some (set_exec_order p l) /\ l ≡ₚ exec_order p /\
  (forall u v, is_Some (opdefs p !! u) -> reads (opdefs p) v u -> before (exec_order p) u v -> before l u v) /\
  ((forall v, ~ reads (opdefs p) v v) ->
     exists k, l = k ++ filter (fun id => ~ there (opdefs p) id) (exec_order p) /\ Forall (there (opdefs p)) k).
Proof.
intros Hnd. unfold settle_exec_order. case_bool_decide as He.
{ exists (exec_order p). split; [by destruct p|]. split; [done|]. split; [done|]. intros _. exists []. by rewrite He. }
destruct (counts_ok (opdefs p) (exec_order p) Hnd (exec_order p) []) as (Hd & Hu & Ho); [by rewrite app_nil_r|].
set (s := foldl _ _ (exec_order p)) in *. set (m := opdefs p) in *. set (plan := exec_order p) in *.
set (zeros := filter _ (base.elements _)).
assert (forall v, v ∈ zeros <-> v ∈ plan /\ there m v /\ counted m plan v = []) as Hz.
{ intros v. unfold zeros. rewrite list_elem_of_filter, elem_of_elements, elem_of_dom, Hd. case_decide as Hx.
  - split; [intros [[= Hl%length_zero_iff_nil] _]; tauto|]. intros (_ & _ & ->). split; [done|by eexists].
  - split; [intros [? _]; done|tauto]. }
destruct (settle_loop_ok m plan Hnd (ig_succ s) (S (length plan)) [] (reverse (std_sort Z.ltb zeros)) (ig_deg s)) as (topo & deg' & E & Hi).
{ exact Hu. }
{ assert (reverse (std_sort Z.ltb zeros) ≡ₚ zeros) as Hp by (by rewrite (reverse_Permutation (std_sort Z.ltb zeros)), std_sort_perm).
  split; cbn [app].
  - rewrite Hp. apply NoDup_filter, NoDup_elements.
  - intros v. rewrite Hp, Hz. tauto.
  - intros v Hv Ht. rewrite Hd, decide_True by done. f_equal. f_equal. symmetry. apply list_filter_all_true.
    intros u _. apply not_elem_of_nil.
  - intros v Hv Ht. rewrite Hp, Hz, (list_filter_all_true _ (counted m plan v)); [tauto|]. intros u _. apply not_elem_of_nil.
  - intros [|? ?] v B u; done. }
{ cbn. lia. }
rewrite E. cbn [mbind option_bind]. rewrite Ho. destruct Hi as [H1 H2 _ H4 H5]. rewrite app_nil_r in H1, H4.
set (orphans := filter (fun id => ~ there m id) plan) in *.
assert (NoDup (topo ++ orphans)) as Hnd'.
{ apply NoDup_app. split; [done|]. split; [|by apply NoDup_filter]. intros v Hv [Hn _]%list_elem_of_filter.
  apply Hn, (H2 v). by rewrite app_nil_r. }
assert (topo ++ orphans ⊆+ plan) as Hsub.
{ apply NoDup_submseteq; [done|]. intros v [Hv|[_ Hv]%list_elem_of_filter]%elem_of_app; [|done]. apply (H2 v). by rewrite app_nil_r. }
assert ((forall v, ~ reads m v v) -> forall v, v ∈ plan -> there m v -> v ∈ topo) as Hall.
{ intros Hself. assert (forall A B, plan = A ++ B -> forall v, v ∈ A -> there m v -> v ∈ topo) as Hgen.
  { induction A as [|x A IH] using rev_ind; intros B HE v Hv Ht; [by apply not_elem_of_nil in Hv|]. rewrite <-app_assoc in HE.
    apply elem_of_app in Hv as [Hv| ->%list_elem_of_singleton]; [by eapply IH|]. specialize (IH _ HE). cbn in HE.
    apply H4; [rewrite HE; set_solver|done|]. apply list_filter_none. intros u Hc Hn. apply Hn.
    unfold counted in Hc. destruct (m !! x) as [od|] eqn:Ex; [|by apply not_elem_of_nil in Hc].
    apply list_elem_of_filter in Hc as [[Hcp Hut] Hus]. rewrite HE, upto_split in Hcp.
    - apply elem_of_app in Hcp as [Hcp| ->%list_elem_of_singleton]; [by apply IH|]. destruct (Hself x). by exists od.
    - rewrite HE in Hnd. apply NoDup_app in Hnd as (_ & Hdis & _). intros Hx. apply (Hdis x Hx). by left. }
  intros v. by apply (Hgen plan []); rewrite app_nil_r. }
destruct (Nat.eqb_spec (length (topo ++ orphans)) (length plan)) as [Hl|Hl].
- assert (topo ++ orphans ≡ₚ plan) as Hperm by (apply submseteq_length_Permutation; [done|lia]).
  exists (topo ++ orphans). split; [done|]. split; [done|]. split.
  + intros u v Hx0 Hr Hb. apply split_before in Hb as (A & B & C & HE).
    assert (there m v) as Hv by (destruct Hr as (od & Ev & _); by eexists).
    assert (v ∈ topo) as Hvt.
    { assert (v ∈ topo ++ orphans) as Hx.
      { rewrite Hperm, HE. set_solver. }
      apply elem_of_app in Hx as [|[Hn _]%list_elem_of_filter]; done. }
    apply list_elem_of_split in Hvt as (T1 & T2 & ET). assert (u ∈ T1) as Hin.
    { apply (H5 T1 v T2 u ET). destruct Hr as (od & Ev & Hs). unfold counted. fold m in Ev. rewrite Ev.
      apply list_elem_of_filter. split; [|done]. split; [|done]. rewrite HE.
      replace (A ++ u :: B ++ v :: C) with ((A ++ u :: B) ++ v :: C) by (by rewrite <-app_assoc). rewrite upto_split; [set_solver|].
      rewrite HE in Hnd. replace (A ++ u :: B ++ v :: C) with ((A ++ u :: B) ++ v :: C) in Hnd by (by rewrite <-app_assoc).
      apply NoDup_app in Hnd as (_ & Hdis & _). intros Hx. apply (Hdis v Hx). by left. }
    apply list_elem_of_split in Hin as (U1 & U2 & ->). apply split_before. exists U1, U2, (T2 ++ orphans).
    rewrite ET, <-!app_assoc. done.
  + intros _. exists topo. split; [done|]. apply Forall_forall. intros v Hv. apply (H2 v). by rewrite app_nil_r.
- exists plan. split; [by destruct p|]. split; [done|]. split; [done|]. intros Hself. exfalso. apply Hl.
  apply Permutation_length, submseteq_length_Permutation; [done|]. apply submseteq_length, NoDup_submseteq; [done|].
  intros v Hv. apply elem_of_app. destruct (decide (there m v)) as [Ht|Hn]; [left; by apply Hall|right].
  by apply list_elem_of_filter.
Qed.

(** * From the clean graph to the order that is executed *)

(** The graph the scheduler is given. *)
Definition graph_of (p : GraphPrepare) : Graph := mkGraph (node_op <$> opdefs p) (exec_order p) (node_order p).

(** The last step of [build_graph_deps]: the order of the plan becomes
    [plan_order_]. *)
Definition take_plan_order (p : GraphPrepare) (plan : Plan) : GraphPrepare := set_exec_order p (op_order plan).

Definition schedule_and_settle (p : GraphPrepare) : option GraphPrepare :=
plan ← base_plan (graph_of p); do_prepare2_late (take_plan_order p plan).

Lemma settled_exec_order p l :
settled p -> remove_dead_code (set_exec_order p l) = Some (set_exec_order p l, 0) /\
order_nodes (set_exec_order p l) = Some (set_exec_order p l, 0) /\
common_subexpr_eliminate (set_exec_order p l) = (set_exec_order p l, 0).
Proof.
intros (E1 & E2 & E3). split_and!.
- unfold remove_dead_code in *. cbn [keys opdefs input_node_id output_node_id set_exec_order].
  destruct (dead_loop _ _ _ _ _ _) as [[[ks m] n]|]; [|done]. cbn [mbind option_bind] in E1 |- *.
  injection E1 as E1 ->. apply (f_equal (fun q => (keys q, opdefs q))) in E1. cbn in E1. by injection E1 as -> ->.
- unfold order_nodes in *. cbn [keys opdefs node_order set_exec_order]. destruct (bool_decide (keys p = [])); [done|].
  destruct (bool_decide (order_keys _ _ = [])); [done|]. destruct (dfs_order _) as [idx|]; [|done].
  cbn [mbind option_bind] in *. destruct (bool_decide (_ = node_order p)) eqn:Eb; [done|]. injection E2 as E2 _.
  apply (f_equal node_order) in E2. cbn [node_order set_node_order] in E2. by apply bool_decide_eq_false in Eb.
- unfold common_subexpr_eliminate in *. cbn [keys opdefs input_node_id output_node_id set_exec_order].
  set (s := foldl _ _ (keys p)) in *. clearbody s. injection E3 as E3 Hn. rewrite Hn in *.
  apply (f_equal (fun q => (keys q, opdefs q))) in E3. cbn [keys opdefs set_graph] in E3. injection E3 as E3 E4. by rewrite E3, E4.
Qed.

Lemma before_of_sorted (R : op_id_t -> op_id_t -> Prop) l u v :
StronglySorted R l -> u ∈ l -> v ∈ l -> u <> v -> ~ R v u -> before l u v.
Proof.
intros Hs (i & Hi)%list_elem_of_lookup (j & Hj)%list_elem_of_lookup Hne HR. exists i, j. split; [|done].
rewrite StronglySorted_by_index in Hs. destruct (decide (i < j)%nat) as [|Hge]; [done|]. exfalso.
destruct (decide (i = j)) as [->|]; [congruence|]. apply HR. apply (Hs j i v u); [lia|done|done].
Qed.

Lemma StronglySorted_sublist {A} (R : A -> A -> Prop) l k : sublist l k -> StronglySorted R k -> StronglySorted R l.
Proof.
induction 1 as [|x l k Hs IH|x l k Hs IH]; [done| |]; intros [Hx Hk]%StronglySorted_cons; [|by apply IH].
apply StronglySorted_cons. split; [|by apply IH]. rewrite Forall_forall in Hx |- *. intros y Hy. apply Hx.
by eapply elem_of_sublist.
Qed.

(** A live output, op numbers of 32 bits, and sizes below the scheduler's
    limits. *)
Record schedulable_graph (p : GraphPrepare) : Prop := {
sg_range k : k ∈ keys p -> 0 <= k < 2 ^ 32;
sg_small : 2 * Z.of_nat (length (keys p)) + 44 < 2 ^ 16;
sg_output : live_at (opdefs p) (output_node_id p) = true;
sg_weights k (od : OpNode) : opdefs p !! k = Some od -> edge_weight (output_def od) < 2 ^ 62
}.

Section prepared.
Context (p : GraphPrepare) (Hwf : graph_wf p) (Hac : acyclic (opdefs p)) (Hset : settled p) (Hsg : schedulable_graph p).

Lemma live_op_graph id od : live_op (graph_of p) id = Some od <-> exists n : OpNode, opdefs p !! id = Some n /\ od = n /\ is_live n = true.
Proof.
unfold live_op, get_op_at, graph_of. cbn. rewrite lookup_fmap. destruct (opdefs p !! id) as [n|]; cbn.
- unfold is_live. case_match; split; [intros [= <-]; by exists n|by intros (n' & [= <-] & -> & _)|done|].
  intros (n' & [= <-] & _ & ?). congruence.
- split; [done|by intros (? & ? & _)].
Qed.

Lemma live_not_dead id (n : OpNode) : opdefs p !! id = Some n -> is_live n = true -> not_dead (opdefs p) id = true.
Proof. intros E Hl. unfold not_dead. rewrite E. unfold is_live in Hl. by apply andb_true_iff in Hl as [_ ?]. Qed.

Lemma settled_order :
NoDup (dense_to_id (graph_of p)) /\ (forall id, id ∈ dense_to_id (graph_of p) <-> live_at (opdefs p) id = true) /\
StronglySorted (fun u v => flow (opdefs p) v u -> rtc (flow (opdefs p)) u v) (dense_to_id (graph_of p)) /\
sublist (dense_to_id (graph_of p)) (node_order p) /\ NoDup (node_order p).
Proof.
destruct (order_nodes_ok p Hwf) as (l & n & E & _ & _ & Hor). destruct Hset as (_ & E2 & _).
rewrite E in E2. injection E2 as E2 ->. apply (f_equal node_order) in E2. cbn in E2. subst l.
assert (forall id, is_Some (live_op (graph_of p) id) <-> live_at (opdefs p) id = true) as Hlv.
{ intros id. unfold live_at, live_op, get_op_at, graph_of. cbn. rewrite lookup_fmap. destruct (opdefs p !! id) as [o|]; cbn; [|by split; [intros [? ?]|]].
  unfold is_live. case_match; split; done || by intros [? ?]. }
assert (forall id, live_at (opdefs p) id = true -> id ∈ order_keys (opdefs p) (keys p)) as Hk.
{ intros id Hl. apply order_keys_elem. unfold live_at in Hl. destruct (opdefs p !! id) as [o|] eqn:Eo; [|done].
  split; [apply (wf_dom p Hwf); by rewrite Eo|]. by eapply live_not_dead. }
assert (sublist (dense_to_id (graph_of p)) (node_order p)) as Hsub by apply sublist_filter.
assert (forall id, id ∈ dense_to_id (graph_of p) <-> id ∈ node_order p /\ live_at (opdefs p) id = true) as Hd.
{ intros id. unfold dense_to_id. rewrite list_elem_of_filter, Hlv. cbn. tauto. }
destruct Hor as [[_ Hz]|[Hp Hs]].
- pose proof (Hk _ (sg_output p Hsg)) as Hx. rewrite Hz in Hx. by apply not_elem_of_nil in Hx.
- assert (NoDup (node_order p)) as Hnd by (rewrite Hp; apply NoDup_filter, Hwf).
  split; [by eapply sublist_NoDup|]. split; [|split; [by eapply StronglySorted_sublist|done]].
  intros id. rewrite Hd. split; [tauto|]. intros Hl. split; [|done]. rewrite Hp. by apply Hk.
Qed.

Lemma prepared_graph_ok : graph_ok (graph_of p).
Proof.
destruct settled_order as (Hnd & Hlv & _ & Hsub & Hno).
assert (forall id, id ∈ dense_to_id (graph_of p) -> id ∈ keys p) as Hk.
{ intros id Hl%Hlv. apply (wf_dom p Hwf). unfold live_at in Hl. by destruct (opdefs p !! id). }
split.
- done.
- intros id od (n & En & -> & _)%live_op_graph. by apply (wf_ids p Hwf).
- intros id Hid%Hk. by apply Hsg.
- assert (length (dense_to_id (graph_of p)) <= length (keys p))%nat as Hle; [|pose proof (sg_small p Hsg); lia].
  apply submseteq_length, NoDup_submseteq; done.
- intros id od. unfold get_op_at, graph_of. cbn. rewrite lookup_fmap. destruct (opdefs p !! id) as [n|] eqn:En; [|done].
  cbn. intros [= <-]. by apply (sg_weights p Hsg id).
Qed.

Lemma schedule_and_settle_ok :
exists p', schedule_and_settle p = Some p' /\ opdefs p' = opdefs p /\
  (forall id, id ∈ exec_order p' <-> live_at (opdefs p) id = true) /\ NoDup (exec_order p') /\
  forall u v, live_at (opdefs p) u = true -> live_at (opdefs p) v = true -> reads (opdefs p) v u ->
    before (exec_order p') u v.
Proof.
destruct settled_order as (Hnd & Hlv & Hs & Hsub & _).
destruct (base_plan_ok (graph_of p) prepared_graph_ok) as (plan & E & Hp & Hor & _).
assert (NoDup (op_order plan)) as Hndp by (by rewrite Hp).
unfold schedule_and_settle. rewrite E. cbn [mbind option_bind]. unfold take_plan_order.
destruct (settled_exec_order p (op_order plan) Hset) as (E1 & E2 & E3). set (q := set_exec_order p (op_order plan)) in *.
unfold do_prepare2_late, dead_code_removal_and_cse. rewrite E1. cbn [mbind option_bind]. rewrite E3. cbn [mbind option_bind fst].
rewrite E2. cbn [mbind option_bind].
destruct (settle_ok q Hndp) as (l & El & Hl & Hbef & _). exists (set_exec_order q l). split; [exact El|]. split; [done|].
cbn [exec_order set_exec_order q] in *. split; [intros id; by rewrite Hl, Hp|]. split; [by rewrite Hl|].
intros u v Hu Hv Hr.
assert (exists ou : OpNode, opdefs p !! u = Some ou /\ is_live ou = true) as (ou & Eu & Lu).
{ unfold live_at in Hu. destruct (opdefs p !! u); [by eexists|done]. }
assert (exists ov : OpNode, opdefs p !! v = Some ov /\ is_live ov = true) as (ov & Ev & Lv).
{ unfold live_at in Hv. destruct (opdefs p !! v); [by eexists|done]. }
assert (flow (opdefs p) u v) as Hf by (split; [by eapply live_not_dead|split; [by eapply live_not_dead|done]]).
assert (u <> v) as Hne by (intros ->; by apply (Hac v), tc_once).
apply Hbef; [by eexists|done|]. destruct Hor as [->|Hsort].
- apply (before_of_sorted _ _ u v Hs); [by apply Hlv|by apply Hlv|done|]. intros Hx. apply (Hac u).
  eapply tc_rtc_r; [by apply tc_once|]. by apply Hx.
- apply (before_of_sorted _ _ u v Hsort); [rewrite Hp; by apply Hlv|rewrite Hp; by apply Hlv|done|]. intros Hx. apply Hx.
  apply rtc_once. destruct Hr as (ov' & Ev' & Hin). assert (ov' = ov) as -> by congruence.
  apply list_elem_of_fmap in Hin as (c & -> & Hc). exists ov, c. split_and!; try done.
  + apply live_op_graph. by exists ov.
  + by apply Hlv.
  + by apply Hlv.
Qed.
End prepared.

(** * The results *)

(** Settling the execution order always ends and rearranges the order.
    An op and an op it reads that stood in this order before still do; when
    no op reads itself, the entries whose ops are gone come last. *)
Theorem settle_exec_order_correct p :
  NoDup (exec_order p) ->
  exists p', settle_exec_order p = Some p' /\ opdefs p' = opdefs p /\ exec_order p' ≡ₚ exec_order p /\
    (forall u v, is_Some (opdefs p !! u) -> reads (opdefs p) v u -> before (exec_order p) u v -> before (exec_order p') u v) /\
    ((forall v, ~ reads (opdefs p) v v) ->
       exists k, exec_order p' = k ++ filter (fun id => ~ there (opdefs p) id) (exec_order p) /\ Forall (there (opdefs p)) k).
Proof.
  intros Hnd. destruct (settle_ok p Hnd) as (l & E & Hp & Hb & Hk). exists (set_exec_order p l). by split_and!.
Qed.

(** C8: From a settled acyclic graph with a live output, 32-bit op numbers
    and fewer than 32746 ops to the order that is executed: the scheduler returns a plan, the late passes find nothing to remove, and
    the settled order runs every live op exactly once, each after all the
    ops it reads. *)
Theorem schedule_and_settle_correct p :
  graph_wf p -> acyclic (opdefs p) -> settled p -> schedulable_graph p ->
  exists p', schedule_and_settle p = Some p' /\ opdefs p' = opdefs p /\
    (forall id, id ∈ exec_order p' <-> live_at (opdefs p) id = true) /\ NoDup (exec_order p') /\
    forall u v, live_at (opdefs p) u = true -> live_at (opdefs p) v = true -> reads (opdefs p) v u ->
      before (exec_order p') u v.
Proof. exact (fun Hwf Hac Hset Hsg => schedule_and_settle_ok p Hwf Hac Hset Hsg). Qed.

(** Settling counts a connection only when its source stands earlier in
    the plan.  A plan that runs a reader before what it reads is therefore
    not put right, and a pair in the right order is the only kind it
    keeps: here op 2 reads op 1, and both of the plans 2, 1 and 1, 2 come
    back unchanged. *)
Theorem settle_keeps_reversed_pair :
  let p l := set_exec_order (graph_from [plain_op 2 "Neg" [1] []; plain_op 1 "Input" [] [2]] 1 0) l in
  (settle_exec_order (p [2; 1]) = Some (p [2; 1])) /\ (settle_exec_order (p [1; 2]) = Some (p [1; 2])).
Proof. by vm_compute. Qed.

Lemma settle_exec_order_correct_witness :
  let p := set_exec_order twin_graph [1; 9; 3; 2; 6] in
  NoDup (exec_order p) /\
  exists p', settle_exec_order p = Some p' /\ exec_order p' = [1; 2; 3; 6; 9] /\ before (exec_order p') 3 6.
Proof.
  intros p. assert (NoDup (exec_order p)) as Hnd by (apply (bool_decide_unpack _); by vm_compute).
  split; [exact Hnd|]. destruct (settle_exec_order_correct p Hnd) as (p' & E & _ & _ & Hb & _).
  exists p'. split; [exact E|].
  assert (exec_order <$> settle_exec_order p = Some [1; 2; 3; 6; 9]) as Hv by (by vm_compute).
  rewrite E in Hv. cbn in Hv. injection Hv as Hv. split; [exact Hv|]. apply Hb.
  - exists (plain_op 3 "Neg" [1] [6]). by vm_compute.
  - exists (plain_op 6 "Output" [2; 3] []). split; [by vm_compute|]. right. left.
  - exists 2%nat, 4%nat. split; [lia|]. split; reflexivity.
Defined.

(** What is left of the twins. *)
Definition chain_ops : list OpNode :=
  [plain_op 6 "Output" [3; 3] []; plain_op 3 "Neg" [1] [6; 6]; plain_op 1 "Input" [] [3]].

Definition chain_prepared : GraphPrepare := set_node_order (graph_from chain_ops 1 6) [1; 3; 6] false.

Lemma chain_prepared_wf : graph_wf chain_prepared.
Proof.
  destruct (graph_from_wf chain_ops 1 6) as [H1 H2 H3]; [apply (bool_decide_unpack _); by vm_compute|]. by split.
Qed.

Lemma schedule_and_settle_correct_witness :
  exists p', schedule_and_settle chain_prepared = Some p' /\ exec_order p' = [1; 3; 6] /\ before (exec_order p') 1 3.
Proof.
  assert (acyclic (opdefs chain_prepared)) as Hac by (apply (graph_from_acyclic chain_ops 1 6); by vm_compute).
  destruct (schedule_and_settle_correct chain_prepared chain_prepared_wf Hac) as (p' & E & _ & _ & _ & Hb).
  - split_and!; by vm_compute.
  - split.
    + intros k Hk. change (k ∈ [6; 3; 1]) in Hk. set_unfold in Hk. lia.
    + cbn. lia.
    + by vm_compute.
    + intros k od [Hin _]%(graph_from_lookup chain_ops 1 6). unfold chain_ops in Hin. rewrite !elem_of_cons in Hin.
      destruct Hin as [->|[->|[->|Hn]]]; [by vm_compute..|by apply not_elem_of_nil in Hn].
  - exists p'. split; [exact E|].
    assert (exec_order <$> schedule_and_settle chain_prepared = Some [1; 3; 6]) as Hv by (by vm_compute).
    rewrite E in Hv. cbn in Hv. injection Hv as Hv. split; [exact Hv|].
    apply Hb; [by vm_compute|by vm_compute|]. exists (plain_op 3 "Neg" [1] [6; 6]). split; [by vm_compute|left].
Defined.
