(* ===== verification/OpDescHash.v ===== *)
(** The table of op descriptors ([OpDescHashBucket] of
    [compiler/src/ir/graph_deps.cpp]): open addressing with an odd step, grown
    when it is full, and the proof that it behaves as a finite map. *)
From S2P Require Import Prelude Ir.

(** * The table *)

(** The fields of [DepOpDesc] that something reads. *)
Record DepOpDesc := mkDesc {
  d_id : op_id_t;
  opdef_ptr : option OpDef;
  d_flags : Z;                          (** [uint8_t] *)
  d_begin : Z; d_end : Z; d_access : Z; (** [life_begin], [life_end], [access_count] *)
  distance : Z; predecessor : Z;
  input_memgroups : list Z; output_memgroups : list Z;
  vtcm_requirement : Z; ddr_requirement : Z
}.

(** [DepOpDesc{}], an empty slot. *)
Definition empty_desc : DepOpDesc := mkDesc 0 None 0 0 0 0 0 0 [] [] 0 0.

(** What [insert] writes into an empty slot. *)
Definition claim_slot (id : op_id_t) (s : DepOpDesc) : DepOpDesc :=
  mkDesc id (opdef_ptr s) 1 (d_begin s) (d_end s) (d_access s) (distance s) (predecessor s)
    (input_memgroups s) (output_memgroups s) (vtcm_requirement s) (ddr_requirement s).

Record OpDescHashBucket := mkBucket { slots : list DepOpDesc; mask : Z; count : Z }.

Definition fibonacci_hash_op (id : op_id_t) : Z :=
  let h1 := u64 (u32 (Z.shiftr id 32) * 0x192e2101) in
  let lo := Z.lxor (u32 id) (u32 h1) in
  let h := u64 (lo * 0x740f1de9) in
  Z.lxor (Z.shiftr h 32) h.

Definition first_slot (m : Z) (id : op_id_t) : Z := Z.land (u32 (fibonacci_hash_op id)) m.

Definition probe_step (id : op_id_t) : Z :=
  Z.lor (Z.land (u32 (Z.shiftr (fibonacci_hash_op id) 15)) 0x1fffe) 1.

Definition next_slot (m : Z) (id : op_id_t) (bucket : Z) : Z := Z.land (u32 (bucket + probe_step id)) m.

(** The doubling loop of [init]: [sz] wraps to 0 once it passes 2^31, and
    then never reaches the capacity. *)
Fixpoint double_until (fuel : nat) (sz want : Z) : option Z :=
  match fuel with
  | O => None
  | S fuel => if sz <? want then double_until fuel (u32 (Z.shiftl sz 1)) want else Some sz
  end.

Definition init_bucket (capacity : Z) : option OpDescHashBucket :=
  sz ← double_until 32 16 (u32 (capacity * 2));
  Some (mkBucket (replicate (Z.to_nat sz) empty_desc) (u32 (sz - 1)) 0).

(** [None] for a slot out of range. *)
Fixpoint probe_lookup (n : nat) (ss : list DepOpDesc) (m : Z) (id : op_id_t) (bucket : Z) : option nat :=
  match n with
  | O => None
  | S n =>
      s ← ss !! Z.to_nat bucket;
      if (d_flags s =? 1) && (d_id s =? id) then Some (Z.to_nat bucket)
      else if d_flags s =? 0 then None
      else probe_lookup n ss m id (next_slot m id bucket)
  end.

(** The index of the slot of [id]. *)
Definition lookup_slot (id : op_id_t) (b : OpDescHashBucket) : option nat :=
  if mask b =? 0 then None
  else probe_lookup (Z.to_nat (mask b + 1)) (slots b) (mask b) id (first_slot (mask b) id).

Definition find_slot (id : op_id_t) (b : OpDescHashBucket) : option DepOpDesc :=
  i ← lookup_slot id b; slots b !! i.

(** The probing of [insert]: the slot and whether it was empty. *)
Fixpoint probe_insert (n : nat) (ss : list DepOpDesc) (m : Z) (id : op_id_t) (bucket : Z) : option (nat * bool) :=
  match n with
  | O => None
  | S n =>
      s ← ss !! Z.to_nat bucket;
      if d_flags s =? 0 then Some (Z.to_nat bucket, true)
      else if (d_flags s =? 1) && (d_id s =? id) then Some (Z.to_nat bucket, false)
      else probe_insert n ss m id (next_slot m id bucket)
  end.

(** [*slot = s]. *)
Definition write_slot (i : nat) (s : DepOpDesc) (b : OpDescHashBucket) : OpDescHashBucket :=
  mkBucket (<[i := s]> (slots b)) (mask b) (count b).

(** The slot for [id]; a full table is built again with twice the capacity,
    by the same function. *)
Fixpoint insert_fuel (fuel : nat) (id : op_id_t) (b0 : OpDescHashBucket) : option (nat * OpDescHashBucket) :=
  match fuel with
  | O => None
  | S fuel =>
      b ← (if mask b0 =? 0 then init_bucket 64 else Some b0);
      match probe_insert (Z.to_nat (mask b + 1)) (slots b) (mask b) id (first_slot (mask b) id) with
      | Some (i, true) =>
          Some (i, mkBucket (alter (claim_slot id) i (slots b)) (mask b) (u32 (count b + 1)))
      | Some (i, false) => Some (i, b)
      | None =>
          b1 ← init_bucket (u32 (u32 (mask b + 1) * 2));
          b2 ← foldM (fun b s => if d_flags s =? 1
                                 then '(i, b) ← insert_fuel fuel (d_id s) b; Some (write_slot i s b)
                                 else Some b) (slots b) b1;
          insert_fuel fuel id b2
      end
  end.

Definition insert_slot (id : op_id_t) (b : OpDescHashBucket) : option (nat * OpDescHashBucket) :=
  insert_fuel 2 id b.
(** * The probe sequence *)

Lemma odd_cancel_pow2 s k d : Z.odd s = true -> (2 ^ Z.of_nat k | d * s) -> (2 ^ Z.of_nat k | d).
Proof.
intros Hs. revert d. induction k as [|k IH]; intros d; [by exists d; rewrite Z.mul_1_r|].
rewrite Nat2Z.inj_succ, Z.pow_succ_r by lia. intros [q Hq].
assert (Z.even d = true) as [e ->]%Z.even_spec.
{ assert (Z.even (d * s) = true) as He.
  { rewrite Hq. rewrite (Z.mul_comm q), <- Z.mul_assoc, Z.even_mul. done. }
  rewrite Z.even_mul, <- (Z.negb_odd s), Hs, orb_false_r in He. done. }
destruct (IH e) as [r ->]; [exists q; lia|]. exists r. lia.
Qed.

Section probe.
Context (k : nat) (Hk : (4 <= k <= 31)%nat).

Definition table_size : Z := 2 ^ Z.of_nat k.

Lemma table_size_bounds : 16 <= table_size <= 2 ^ 31.
Proof.
unfold table_size. split.
- change 16 with (2 ^ 4). apply Z.pow_le_mono_r; lia.
- apply Z.pow_le_mono_r; lia.
Qed.

Lemma table_size_divides : (table_size | 2 ^ 32).
Proof. exists (2 ^ (32 - Z.of_nat k)). unfold table_size. rewrite <- Z.pow_add_r by lia. f_equal. lia. Qed.

Lemma land_mask z : Z.land (u32 z) (table_size - 1) = z mod table_size.
Proof.
unfold table_size. replace (2 ^ Z.of_nat k - 1) with (Z.ones (Z.of_nat k)) by (rewrite Z.ones_equiv; lia).
rewrite Z.land_ones by lia. unfold wrap. by rewrite Z.mod_mod_divide by apply table_size_divides.
Qed.

(** The [j]th slot that is looked at. *)
Definition probe (id : op_id_t) (j : nat) : nat :=
Z.to_nat ((fibonacci_hash_op id + Z.of_nat j * probe_step id) mod table_size).

Lemma probe_lt id j : (probe id j < Z.to_nat table_size)%nat.
Proof.
pose proof table_size_bounds. unfold probe.
pose proof (Z.mod_pos_bound (fibonacci_hash_op id + Z.of_nat j * probe_step id) table_size). lia.
Qed.

Lemma probe_first id : Z.to_nat (first_slot (table_size - 1) id) = probe id 0.
Proof. unfold first_slot, probe. rewrite land_mask. f_equal. f_equal. lia. Qed.

Lemma first_slot_nonneg id : 0 <= first_slot (table_size - 1) id.
Proof. unfold first_slot. rewrite land_mask. pose proof table_size_bounds. apply Z.mod_pos_bound. lia. Qed.

Lemma probe_next id j b :
0 <= b -> Z.to_nat b = probe id j ->
0 <= next_slot (table_size - 1) id b /\ Z.to_nat (next_slot (table_size - 1) id b) = probe id (S j).
Proof.
intros Hb E. pose proof table_size_bounds. unfold next_slot. rewrite land_mask. split; [apply Z.mod_pos_bound; lia|].
unfold probe in *. assert (b = (fibonacci_hash_op id + Z.of_nat j * probe_step id) mod table_size) as ->.
{ pose proof (Z.mod_pos_bound (fibonacci_hash_op id + Z.of_nat j * probe_step id) table_size). lia. }
rewrite Zplus_mod_idemp_l. f_equal. f_equal. lia.
Qed.

Lemma probe_step_odd id : Z.odd (probe_step id) = true.
Proof.
unfold probe_step. rewrite <- Z.bit0_odd, Z.lor_spec. change (Z.testbit 1 0) with true. apply orb_true_r.
Qed.

(** The odd step is coprime to the size, so no slot comes twice. *)
Lemma probe_inj id i j : (i < Z.to_nat table_size)%nat -> (j < Z.to_nat table_size)%nat -> probe id i = probe id j -> i = j.
Proof.
pose proof table_size_bounds as Hb. assert (forall i j, (j <= i < Z.to_nat table_size)%nat -> probe id i = probe id j -> i = j) as Hgo.
{ clear i j. intros i j Hij E. unfold probe in E.
  set (a := fibonacci_hash_op id) in *. set (s := probe_step id) in *.
  assert ((a + Z.of_nat i * s) mod table_size = (a + Z.of_nat j * s) mod table_size) as E'.
  { pose proof (Z.mod_pos_bound (a + Z.of_nat i * s) table_size).
    pose proof (Z.mod_pos_bound (a + Z.of_nat j * s) table_size). lia. }
  assert ((table_size | (Z.of_nat i - Z.of_nat j) * s)) as Hd.
  { apply Z.mod_divide; [lia|]. replace ((Z.of_nat i - Z.of_nat j) * s) with ((a + Z.of_nat i * s) - (a + Z.of_nat j * s)) by lia.
    rewrite Zminus_mod, E', Z.sub_diag. by apply Z.mod_0_l; lia. }
  apply odd_cancel_pow2 in Hd; [|apply probe_step_odd]. destruct Hd as [q Hq]. fold table_size in Hq.
  assert (q = 0); [|subst q; lia]. destruct (decide (1 <= q)); [|destruct (decide (q <= -1)); [|lia]]; nia. }
intros Hi Hj E. destruct (le_ge_dec j i); [by apply Hgo|]. symmetry. by apply Hgo.
Qed.

(** Every slot comes. *)
Lemma probe_surj id i : (i < Z.to_nat table_size)%nat -> exists j, (j < Z.to_nat table_size)%nat /\ probe id j = i.
Proof.
intros Hi. set (n := Z.to_nat table_size) in *.
assert (probe id <$> seq 0 n ≡ₚ seq 0 n) as Hp.
{ apply submseteq_length_Permutation; [|by rewrite length_fmap].
  apply NoDup_submseteq.
  - apply NoDup_fmap_2_strong; [|apply NoDup_seq]. intros x y Hx%elem_of_seq Hy%elem_of_seq. apply probe_inj; lia.
  - intros x (j & -> & _)%list_elem_of_fmap. apply elem_of_seq. pose proof (probe_lt id j). lia. }
assert (i ∈ probe id <$> seq 0 n) as (j & -> & Hj)%list_elem_of_fmap.
{ rewrite Hp. apply elem_of_seq. lia. }
exists j. split; [|done]. apply elem_of_seq in Hj. lia.
Qed.
End probe.
(** * The table invariant *)

Definition occupied (s : DepOpDesc) : bool := d_flags s =? 1.

(** A slot that a probe for [id] passes over. *)
Definition busy (ss : list DepOpDesc) (id : op_id_t) (i : nat) : Prop :=
exists s, ss !! i = Some s /\ d_flags s = 1 /\ d_id s <> id.

(** Every occupied slot is reached by the probes of its id without meeting
    an empty slot or the id itself. *)
Record bucket_ok (k : nat) (b : OpDescHashBucket) : Prop := {
bo_k : (4 <= k <= 31)%nat;
bo_mask : mask b = table_size k - 1;
bo_len : length (slots b) = Z.to_nat (table_size k);
bo_slots i s : slots b !! i = Some s -> s = empty_desc \/ d_flags s = 1;
bo_path i s : slots b !! i = Some s -> d_flags s = 1 ->
  exists j, (j < Z.to_nat (table_size k))%nat /\ probe k (d_id s) j = i /\
    forall j', (j' < j)%nat -> busy (slots b) (d_id s) (probe k (d_id s) j');
bo_count : count b = Z.of_nat (countb occupied (slots b))
}.

(** The finite map a table stands for. *)
Definition entry_of (s : DepOpDesc) : option (op_id_t * DepOpDesc) := if occupied s then Some (d_id s, s) else None.
Definition contents (b : OpDescHashBucket) : gmap op_id_t DepOpDesc := list_to_map (omap entry_of (slots b)).

Section table.
Context (k : nat) (b : OpDescHashBucket) (Hb : bucket_ok k b).

Let n := Z.to_nat (table_size k).

Lemma occupied_unique i1 i2 s1 s2 :
slots b !! i1 = Some s1 -> slots b !! i2 = Some s2 -> d_flags s1 = 1 -> d_flags s2 = 1 -> d_id s1 = d_id s2 -> i1 = i2.
Proof.
intros H1 H2 F1 F2 E.
destruct (bo_path k b Hb i1 s1 H1 F1) as (j1 & _ & P1 & B1), (bo_path k b Hb i2 s2 H2 F2) as (j2 & _ & P2 & B2).
rewrite <- E in *. destruct (lt_eq_lt_dec j1 j2) as [[Hlt| ->]|Hlt]; [|congruence|].
- destruct (B2 j1 Hlt) as (s & Hs & _ & Hne). rewrite P1, H1 in Hs. injection Hs as <-. done.
- destruct (B1 j2 Hlt) as (s & Hs & _ & Hne). rewrite P2, H2 in Hs. injection Hs as <-. done.
Qed.

Lemma entry_of_Some s id d : entry_of s = Some (id, d) <-> d_flags s = 1 /\ d_id s = id /\ d = s.
Proof.
unfold entry_of, occupied. split.
- case_bool; [|done]. by intros [= <- <-].
- intros (E & <- & ->). by rewrite E.
Qed.

Lemma contents_lookup id s :
contents b !! id = Some s <-> exists i, slots b !! i = Some s /\ d_flags s = 1 /\ d_id s = id.
Proof.
unfold contents. rewrite <- elem_of_list_to_map.
- rewrite list_elem_of_omap. split.
  + intros (x & (i & Hi)%list_elem_of_lookup & (? & ? & ->)%entry_of_Some). by exists i.
  + intros (i & Hi & Hf & <-). exists s. split; [by apply list_elem_of_lookup; exists i|]. by apply entry_of_Some.
- pose proof occupied_unique as Hu. induction (slots b) as [|s0 ss IH]; [constructor|]. cbn [omap list_omap].
  assert (NoDup (omap entry_of ss).*1) as Hnd.
  { apply IH. intros i1 i2 s1 s2 H1 H2 F1 F2 E. apply Nat.succ_inj. by apply (Hu (S i1) (S i2) s1 s2). }
  destruct (entry_of s0) as [[id0 d0]|] eqn:E0; [|done]. apply entry_of_Some in E0 as (F0 & <- & ->).
  cbn. apply NoDup_cons. split; [|done]. intros ([id1 d1] & E1 & Hin)%list_elem_of_fmap. cbn in E1.
  apply list_elem_of_omap in Hin as (x & (i & Hi)%list_elem_of_lookup & (Fx & Ex & ->)%entry_of_Some).
  assert (0%nat = S i) by (apply (Hu 0%nat (S i) s0 x); [done|done|done|done|congruence]). done.
Qed.

Lemma slot_at id j : exists s, slots b !! probe k id j = Some s /\ (s = empty_desc \/ d_flags s = 1).
Proof.
destruct (lookup_lt_is_Some_2 (slots b) (probe k id j)) as [s Hs].
{ rewrite (bo_len k b Hb). apply probe_lt, (bo_k k b Hb). }
exists s. split; [done|]. by apply (bo_slots k b Hb (probe k id j)).
Qed.

(** Both probings stop at the first slot that is empty or holds the id. *)
Lemma scan id steps j at_ :
0 <= at_ -> Z.to_nat at_ = probe k id j -> (steps + j = n)%nat ->
(exists j' s, (j <= j' < n)%nat /\ slots b !! probe k id j' = Some s /\ (d_flags s = 0 \/ d_flags s = 1 /\ d_id s = id) /\
   (forall i, (j <= i < j')%nat -> busy (slots b) id (probe k id i)) /\
   probe_lookup steps (slots b) (mask b) id at_ = (if d_flags s =? 0 then None else Some (probe k id j')) /\
   probe_insert steps (slots b) (mask b) id at_ = Some (probe k id j', d_flags s =? 0)) \/
((forall i, (j <= i < n)%nat -> busy (slots b) id (probe k id i)) /\
   probe_lookup steps (slots b) (mask b) id at_ = None /\ probe_insert steps (slots b) (mask b) id at_ = None).
Proof.
revert j at_. induction steps as [|steps IH]; intros j at_ H0 Ha Hj.
{ right. split_and!; [lia|done|done]. }
cbn [probe_lookup probe_insert]. destruct (slot_at id j) as (s & Hs & Hs01). rewrite Ha, Hs. cbn [mbind option_bind].
assert (d_flags s = 0 \/ d_flags s = 1) as Hf by (destruct Hs01 as [->|]; [by left|by right]).
destruct (decide (d_flags s = 0 \/ d_flags s = 1 /\ d_id s = id)) as [Hstop|Hgo].
- left. exists j, s. split_and!; [lia|lia|done|done|lia| |].
  + destruct Hstop as [->|[-> ->]]; [done|]. by rewrite !Z.eqb_refl.
  + destruct Hstop as [->|[-> ->]]; [done|]. by rewrite !Z.eqb_refl.
- assert (busy (slots b) id (probe k id j)) as Hbusy by (exists s; split_and!; [done|tauto|intros E; apply Hgo; tauto]).
  assert (d_flags s =? 0 = false /\ (d_flags s =? 1) && (d_id s =? id) = false) as [-> ->].
  { split; [apply Z.eqb_neq; tauto|]. apply andb_false_iff. rewrite !Z.eqb_neq. destruct (decide (d_flags s = 1)); tauto. }
  rewrite (bo_mask k b Hb).
  destruct (probe_next k (bo_k k b Hb) id j at_ H0 Ha) as [H0' Ha']. rewrite (bo_mask k b Hb) in IH.
  destruct (IH (S j) _ H0' Ha' ltac:(lia)) as [(j' & s' & ? & ? & ? & Hb' & ? & ?)|(Hb' & ? & ?)].
  + left. exists j', s'. split_and!; [lia|lia|done|done| |done|done].
    intros i Hi. destruct (decide (i = j)) as [->|]; [done|]. apply Hb'. lia.
  + right. split_and!; [|done|done]. intros i Hi. destruct (decide (i = j)) as [->|]; [done|]. apply Hb'. lia.
Qed.
End table.
(** * Lookup and insertion *)

Section table_ops.
Context (k : nat).

(** An occupied slot put where the probes of its id lead. *)
Lemma put_ok b i s0 s c :
bucket_ok k b -> slots b !! i = Some s0 -> (d_flags s0 = 0 \/ d_id s0 = d_id s) -> d_flags s = 1 ->
(exists j, (j < Z.to_nat (table_size k))%nat /\ probe k (d_id s) j = i /\
   forall j', (j' < j)%nat -> busy (slots b) (d_id s) (probe k (d_id s) j')) ->
c = count b + (if d_flags s0 =? 0 then 1 else 0) ->
let b' := mkBucket (<[i := s]> (slots b)) (mask b) c in
bucket_ok k b' /\ contents b' = <[d_id s := s]> (contents b).
Proof.
intros Hb Hi H0 Hs (j & Hj & Hp & Hbusy) Hc b'.
assert (d_flags s0 = 0 \/ d_flags s0 = 1) as Hf by (destruct (bo_slots k b Hb i s0 Hi) as [->|]; [by left|by right]).
pose proof (lookup_lt_Some _ _ _ Hi) as Hlt.
assert (forall p d, slots b !! p = Some d -> d_flags d = 1 -> d_id d = d_id s -> p = i) as Huniq.
{ intros p d Hx Fx E. destruct (bo_path k b Hb p d Hx Fx) as (jx & _ & Px & Bx). rewrite E in *.
  destruct (lt_eq_lt_dec j jx) as [[Hl| ->]|Hl]; [|congruence|].
  - destruct (Bx j Hl) as (y & Hy & Fy & Ny). rewrite Hp, Hi in Hy. injection Hy as <-. destruct H0; congruence.
  - destruct (Hbusy jx Hl) as (y & Hy & _ & Ny). rewrite Px, Hx in Hy. injection Hy as <-. done. }
assert (forall id p, busy (slots b) id p -> busy (slots b') id p) as Hkeep.
{ intros id p (x & Hx & Fx & Nx). destruct (decide (p = i)) as [->|Hne].
  - exists s. cbn. rewrite list_lookup_insert_eq by done. split_and!; [done|done|].
    assert (x = s0) as -> by congruence. destruct H0 as [H0|H0]; congruence.
  - exists x. cbn. by rewrite list_lookup_insert_ne by done. }
assert (bucket_ok k b') as Hb'.
{ split; [apply (bo_k k b Hb)|apply (bo_mask k b Hb)|cbn; rewrite length_insert; apply (bo_len k b Hb)| | |].
  - cbn. intros p x [(<- & <- & _)|[_ Hx]]%list_lookup_insert_Some; [by right|]. by apply (bo_slots k b Hb p).
  - intros p x Hx Fx. cbn in Hx. apply list_lookup_insert_Some in Hx as [(<- & <- & _)|[Hne Hx]].
    + exists j. split_and!; [done..|]. intros j' Hlt'. by apply Hkeep, Hbusy.
    + destruct (bo_path k b Hb p x Hx Fx) as (jx & ? & ? & Hbx). exists jx. split_and!; [done..|].
      intros j' Hlt'. by apply Hkeep, Hbx.
  - unfold b'. cbn [slots count]. rewrite Hc, (bo_count k b Hb). pose proof (countb_insert occupied (slots b) i s0 s Hi) as E.
    assert (occupied s = true) as Eo by (unfold occupied; by rewrite Hs). rewrite Eo in E.
    assert (occupied s0 = negb (d_flags s0 =? 0)) as Eo0 by (unfold occupied; by destruct Hf as [-> | ->]). rewrite Eo0 in E.
    destruct (d_flags s0 =? 0); cbn [negb] in E; lia. }
split; [done|]. apply map_eq. intros x. apply option_eq. intros d. rewrite (contents_lookup k b' Hb').
cbn [slots b']. split.
- intros (p & Hx & Fx & <-). apply list_lookup_insert_Some in Hx as [(<- & <- & _)|[Hne Hx]]; [by rewrite lookup_insert_eq|].
  assert (d_id s <> d_id d) by (intros E; by apply Hne, eq_sym, (Huniq p d)).
  rewrite lookup_insert_ne by done. apply (contents_lookup k b Hb). by exists p.
- intros [[<- <-]|[Hne Hx]]%lookup_insert_Some.
  + exists i. by rewrite list_lookup_insert_eq.
  + apply (contents_lookup k b Hb) in Hx as (p & Hx & Fx & Ex). exists p. split_and!; [|done|done].
    rewrite list_lookup_insert_ne; [done|]. intros <-. assert (d = s0) as -> by congruence. destruct H0; congruence.
Qed.

Lemma mask_nonzero b : bucket_ok k b -> mask b =? 0 = false /\ Z.to_nat (mask b + 1) = Z.to_nat (table_size k).
Proof.
intros Hb. rewrite (bo_mask k b Hb). pose proof (table_size_bounds k (bo_k k b Hb)). split; [apply Z.eqb_neq|f_equal]; lia.
Qed.

Lemma scan_first b id :
bucket_ok k b ->
(exists j s, (j < Z.to_nat (table_size k))%nat /\ slots b !! probe k id j = Some s /\
   (d_flags s = 0 \/ d_flags s = 1 /\ d_id s = id) /\
   (forall i, (i < j)%nat -> busy (slots b) id (probe k id i)) /\
   lookup_slot id b = (if d_flags s =? 0 then None else Some (probe k id j)) /\
   probe_insert (Z.to_nat (mask b + 1)) (slots b) (mask b) id (first_slot (mask b) id) = Some (probe k id j, d_flags s =? 0)) \/
((forall i, (i < Z.to_nat (table_size k))%nat -> busy (slots b) id (probe k id i)) /\ lookup_slot id b = None /\
   probe_insert (Z.to_nat (mask b + 1)) (slots b) (mask b) id (first_slot (mask b) id) = None).
Proof.
intros Hb. destruct (mask_nonzero b Hb) as [Em En]. unfold lookup_slot. rewrite Em, En.
pose proof (probe_first k (bo_k k b Hb) id) as Hf. pose proof (first_slot_nonneg k (bo_k k b Hb) id) as H0.
rewrite <- (bo_mask k b Hb) in Hf, H0.
destruct (scan k b Hb id (Z.to_nat (table_size k)) 0 _ H0 Hf ltac:(lia)) as [(j & s & Hj & Hs & Hst & Hbu & E1 & E2)|(Hbu & E1 & E2)].
- left. exists j, s. split_and!; [lia|done|done| |done|done]. intros i Hi. apply Hbu. lia.
- right. split_and!; [|done|done]. intros i Hi. apply Hbu. lia.
Qed.

(** Looking up in the table is looking up in the map. *)
Lemma find_contents b id : bucket_ok k b -> find_slot id b = contents b !! id.
Proof.
intros Hb. unfold find_slot.
assert (forall j s, slots b !! probe k id j = Some s -> (forall i, (i < j)%nat -> busy (slots b) id (probe k id i)) ->
        d_flags s = 0 -> contents b !! id = None) as Habs.
{ intros j s Hs Hbu Hf. apply eq_None_not_Some. intros [d Hd]. apply (contents_lookup k b Hb) in Hd as (i & Hi & Fd & <-).
  destruct (bo_path k b Hb i d Hi Fd) as (jd & _ & Pd & Bd). destruct (lt_eq_lt_dec j jd) as [[Hl| ->]|Hl].
  - destruct (Bd j Hl) as (x & Hx & Fx & _). rewrite Hs in Hx. injection Hx as <-. congruence.
  - rewrite Pd, Hi in Hs. injection Hs as <-. congruence.
  - destruct (Hbu jd Hl) as (x & Hx & _ & Nx). rewrite Pd, Hi in Hx. injection Hx as <-. done. }
destruct (scan_first b id Hb) as [(j & s & Hj & Hs & Hst & Hbu & -> & _)|(Hbu & -> & _)].
- destruct (d_flags s =? 0) eqn:E; bool_prop; [symmetry; by eapply Habs|]. cbn [mbind option_bind]. rewrite Hs. symmetry.
  destruct Hst as [|[Hf Hid]]; [done|]. apply (contents_lookup k b Hb). by exists (probe k id j).
- symmetry. apply eq_None_not_Some. intros [d Hd]. apply (contents_lookup k b Hb) in Hd as (i & Hi & Fd & <-).
  destruct (bo_path k b Hb i d Hi Fd) as (jd & Hjd & Pd & _).
  destruct (Hbu jd Hjd) as (x & Hx & _ & Nx). rewrite Pd, Hi in Hx. injection Hx as <-. done.
Qed.
End table_ops.
(** * Sizes *)

Lemma double_until_pow fuel i want :
(i <= 31)%nat -> want <= 2 ^ 31 -> (31 < fuel + i)%nat ->
exists k, (i <= k <= 31)%nat /\ double_until fuel (2 ^ Z.of_nat i) want = Some (2 ^ Z.of_nat k) /\
  want <= 2 ^ Z.of_nat k /\ (k = i \/ 2 ^ Z.of_nat k < 2 * want).
Proof.
revert i. induction fuel as [|fuel IH]; intros i Hi Hw Hf; [lia|]. cbn [double_until].
destruct (2 ^ Z.of_nat i <? want) eqn:E; bool_prop; [|exists i; split_and!; [lia|lia|done|done|by left]].
assert (i < 31)%nat as Hlt.
{ destruct (decide (i = 31%nat)) as [->|]; [|lia]. change (2 ^ Z.of_nat 31) with (2 ^ 31) in E. lia. }
assert (u32 (Z.shiftl (2 ^ Z.of_nat i) 1) = 2 ^ Z.of_nat (S i)) as ->.
{ rewrite Z.shiftl_mul_pow2, Z.pow_1_r, Nat2Z.inj_succ, Z.pow_succ_r by lia. rewrite wrap_id; [lia|].
  assert (2 ^ Z.of_nat i < 2 ^ 31) by (apply Z.pow_lt_mono_r; lia). lia. }
destruct (IH (S i)) as (k & ? & -> & ? & Hk); [lia|done|lia|]. exists k. split_and!; [lia|lia|done|done|].
right. destruct Hk as [->|]; [|done]. rewrite Nat2Z.inj_succ, Z.pow_succ_r; lia.
Qed.

Lemma double_until_zero want : 0 < want -> forall fuel, double_until fuel 0 want = None.
Proof. intros Hw fuel. induction fuel as [|fuel IH]; [done|]. cbn [double_until]. by rewrite (proj2 (Z.ltb_lt 0 want) Hw). Qed.

(** Past 2^31 slots the doubling never ends, whatever the fuel. *)
Lemma double_until_loops want : 2 ^ 31 < want -> forall fuel, double_until fuel 16 want = None.
Proof.
intros Hw. assert (forall fuel i, (i <= 31)%nat -> double_until fuel (2 ^ Z.of_nat i) want = None) as Hgo.
{ induction fuel as [|fuel IH]; intros i Hi; [done|]. cbn [double_until].
  assert (2 ^ Z.of_nat i <= 2 ^ 31) as Hle by (apply Z.pow_le_mono_r; lia). rewrite (proj2 (Z.ltb_lt _ want)) by lia.
  destruct (decide (i = 31%nat)) as [->|Hne].
  - change (u32 (Z.shiftl (2 ^ Z.of_nat 31) 1)) with 0. apply double_until_zero. lia.
  - assert (u32 (Z.shiftl (2 ^ Z.of_nat i) 1) = 2 ^ Z.of_nat (S i)) as ->; [|apply IH; lia].
    rewrite Z.shiftl_mul_pow2, Z.pow_1_r, Nat2Z.inj_succ, Z.pow_succ_r by lia. rewrite wrap_id; [lia|].
    assert (2 ^ Z.of_nat i < 2 ^ 31) by (apply Z.pow_lt_mono_r; lia). lia. }
intros fuel. by apply (Hgo fuel 4%nat); lia.
Qed.

Lemma init_bucket_ok capacity :
0 <= capacity -> capacity * 2 <= 2 ^ 31 ->
exists k b, init_bucket capacity = Some b /\ bucket_ok k b /\ contents b = ∅ /\ count b = 0 /\
  capacity * 2 <= table_size k /\ (k = 4%nat \/ table_size k < 4 * capacity).
Proof.
intros H0 Hc. unfold init_bucket. rewrite wrap_id by lia. change 16 with (2 ^ Z.of_nat 4).
destruct (double_until_pow 32 4 (capacity * 2)) as (k & Hk & -> & Hle & Hor); [lia|lia|lia|].
cbn [mbind option_bind]. exists k. eexists. split; [done|].
assert (16 <= 2 ^ Z.of_nat k <= 2 ^ 31) as Hb by (apply (table_size_bounds k); lia).
assert (bucket_ok k (mkBucket (replicate (Z.to_nat (2 ^ Z.of_nat k)) empty_desc) (u32 (2 ^ Z.of_nat k - 1)) 0)) as Hok.
{ split; cbn [slots mask count].
  - lia.
  - unfold table_size. rewrite wrap_id; lia.
  - by rewrite length_replicate.
  - intros i s [-> _]%lookup_replicate. by left.
  - intros i s [-> _]%lookup_replicate. done.
  - by rewrite countb_replicate. }
split; [done|]. split.
{ apply map_eq. intros id. rewrite lookup_empty. apply eq_None_not_Some. intros [d Hd].
  apply (contents_lookup k _ Hok) in Hd as (i & Hi & Hf & _). by apply lookup_replicate in Hi as [-> _]. }
unfold table_size. split_and!; [done|done|]. destruct Hor; [by left|right; lia].
Qed.

(** * Insertion *)

Lemma alter_at {A} (f : A -> A) (l : list A) i x : l !! i = Some x -> alter f i l = <[i := f x]> l.
Proof.
intros Hi. apply list_eq. intros j. destruct (decide (i = j)) as [<-|Hne].
- rewrite list_lookup_alter_eq, Hi, list_lookup_insert_eq; [done|]. by eapply lookup_lt_Some.
- by rewrite list_lookup_alter_ne, list_lookup_insert_ne by done.
Qed.

(** The descriptor that [insert] leads to. *)
Definition slot_for (id : op_id_t) (b : OpDescHashBucket) : DepOpDesc := default (claim_slot id empty_desc) (contents b !! id).

Definition absent (id : op_id_t) (b : OpDescHashBucket) : Z := if decide (is_Some (contents b !! id)) then 0 else 1.

Lemma slot_for_id k b id : bucket_ok k b -> d_id (slot_for id b) = id /\ d_flags (slot_for id b) = 1.
Proof.
intros Hb. unfold slot_for. destruct (contents b !! id) as [d|] eqn:E; [|done].
by apply (contents_lookup k b Hb) in E as (i & _ & ? & ?).
Qed.

Section insert_ok.
Context (k : nat) (b : OpDescHashBucket) (Hb : bucket_ok k b).

Lemma count_le : 0 <= count b <= table_size k.
Proof.
rewrite (bo_count k b Hb). pose proof (countb_le occupied (slots b)). rewrite (bo_len k b Hb) in H.
pose proof (table_size_bounds k (bo_k k b Hb)). lia.
Qed.

Lemma insert_room id fuel :
(is_Some (contents b !! id) \/ count b < table_size k) ->
exists i b', insert_fuel (S fuel) id b = Some (i, b') /\ bucket_ok k b' /\ slots b' !! i = Some (slot_for id b) /\
  contents b' = <[id := slot_for id b]> (contents b) /\ count b' = count b + absent id b.
Proof.
intros Hroom. cbn [insert_fuel]. rewrite (proj1 (mask_nonzero k b Hb)). cbn [mbind option_bind].
destruct (scan_first k b id Hb) as [(j & s & Hj & Hs & Hst & Hbu & El & ->)|(Hbu & El & ->)].
- pose proof (find_contents k b id Hb) as Hfind. unfold find_slot in Hfind. rewrite El in Hfind.
  destruct (d_flags s =? 0) eqn:E; bool_prop.
  + cbn in Hfind. unfold slot_for, absent. rewrite <- Hfind. rewrite decide_False by (intros [? ?]; done). cbn [default].
    assert (s = empty_desc) as -> by (destruct (bo_slots k b Hb _ s Hs) as [|Hf]; [done|congruence]).
    rewrite (alter_at _ _ _ empty_desc) by done. pose proof count_le. pose proof (table_size_bounds k (bo_k k b Hb)).
    assert (count b < table_size k) by (destruct Hroom as [[d Hd]|]; [congruence|done]).
    destruct (put_ok k b (probe k id j) empty_desc (claim_slot id empty_desc) (u32 (count b + 1)) Hb Hs) as [Hok Hc];
      [by left|done|by exists j|rewrite wrap_id by lia; done|].
    do 2 eexists. split; [done|]. split; [done|]. cbn [slots count]. split_and!; [|done|rewrite wrap_id; lia].
    apply list_lookup_insert_eq. by eapply lookup_lt_Some.
  + destruct Hst as [|[Hf Hid]]; [done|]. cbn [mbind option_bind] in Hfind. rewrite Hs in Hfind.
    unfold slot_for, absent. rewrite <- Hfind. rewrite decide_True by done. cbn [default]. do 2 eexists. split; [done|].
    split_and!; [done|done| |lia]. by rewrite insert_id.
- exfalso. pose proof (find_contents k b id Hb) as Hfind. unfold find_slot in Hfind. rewrite El in Hfind. cbn in Hfind.
  destruct Hroom as [[d Hd]|Hlt]; [congruence|].
  assert (countb occupied (slots b) = length (slots b)) as Hfull; [|rewrite (bo_count k b Hb), Hfull, (bo_len k b Hb) in Hlt;
    pose proof (table_size_bounds k (bo_k k b Hb)); lia].
  apply countb_all. intros s (i & Hi)%list_elem_of_lookup.
  destruct (probe_surj k (bo_k k b Hb) id i) as (j & Hj & <-).
  { rewrite <- (bo_len k b Hb). by eapply lookup_lt_Some. }
  destruct (Hbu j Hj) as (s' & Hs' & Hf & _). assert (s' = s) as -> by congruence. unfold occupied. by rewrite Hf.
Qed.

Lemma write_ok i s0 s :
slots b !! i = Some s0 -> d_flags s0 = 1 -> d_flags s = 1 -> d_id s = d_id s0 ->
bucket_ok k (write_slot i s b) /\ contents (write_slot i s b) = <[d_id s := s]> (contents b) /\
count (write_slot i s b) = count b.
Proof.
intros Hi H0 Hs Hid. unfold write_slot. destruct (bo_path k b Hb i s0 Hi H0) as (j & Hj & Hp & Hbu). rewrite <- Hid in *.
destruct (put_ok k b i s0 s (count b) Hb Hi) as [Hok Hc]; [by right; congruence|done|by exists j| |done].
rewrite H0. cbn. lia.
Qed.
End insert_ok.
(** * Building a table again *)

Definition by_id (l : list DepOpDesc) : list (op_id_t * DepOpDesc) := (fun s => (d_id s, s)) <$> l.

Definition reinsert (fuel : nat) (b : OpDescHashBucket) (s : DepOpDesc) : option OpDescHashBucket :=
'(i, b) ← insert_fuel fuel (d_id s) b; Some (write_slot i s b).

Lemma by_id_keys l : (by_id l).*1 = d_id <$> l.
Proof. unfold by_id. rewrite <- list_fmap_compose. done. Qed.

Lemma reinsert_all k fuel l : forall b,
bucket_ok k b -> (forall s, s ∈ l -> d_flags s = 1) -> NoDup (d_id <$> l) ->
(forall s, s ∈ l -> contents b !! d_id s = None) -> count b + Z.of_nat (length l) <= table_size k ->
exists b', foldM (reinsert (S fuel)) l b = Some b' /\ bucket_ok k b' /\
  contents b' = list_to_map (by_id l) ∪ contents b /\ count b' = count b + Z.of_nat (length l).
Proof.
induction l as [|s l IH]; intros b Hb Hf Hnd Habs Hroom.
{ exists b. cbn [foldM by_id length fmap list_fmap list_to_map foldr]. split_and!; [done|done| |lia]. by rewrite (left_id_L ∅ (∪)). }
cbn [fmap list_fmap] in Hnd. apply NoDup_cons in Hnd as [Hnin Hnd]. cbn [length] in Hroom. rewrite Nat2Z.inj_succ in Hroom.
destruct (insert_room k b Hb (d_id s) fuel) as (i & b1 & E & Hb1 & Hi & Hc & Hn); [right; lia|].
assert (absent (d_id s) b = 1) as Ea.
{ unfold absent. rewrite Habs by set_solver. by rewrite decide_False by (intros [? ?]; done). }
destruct (slot_for_id k b (d_id s) Hb) as [Eid Efl].
destruct (write_ok k b1 Hb1 i (slot_for (d_id s) b) s) as (Hb2 & Hc2 & Hn2); [done|done|by apply Hf; set_solver|done|].
assert (reinsert (S fuel) b s = Some (write_slot i s b1)) as Er by (unfold reinsert; by rewrite E).
cbn [foldM]. rewrite Er. cbn [mbind option_bind].
assert (contents (write_slot i s b1) = <[d_id s := s]> (contents b)) as Hc3 by (rewrite Hc2, Hc; apply insert_insert_eq).
destruct (IH (write_slot i s b1)) as (b' & -> & Hb' & Hc' & Hn').
- done.
- intros x Hx. apply Hf. set_solver.
- done.
- intros x Hx. rewrite Hc3, lookup_insert_ne; [apply Habs; set_solver|]. intros Heq. apply Hnin. rewrite Heq. by apply list_elem_of_fmap_2.
- lia.
- exists b'. split_and!; [done|done| |rewrite Hn'; cbn [length]; lia].
  rewrite Hc', Hc3. cbn [by_id fmap list_fmap list_to_map foldr fst snd uncurry].
  rewrite <- insert_union_l. symmetry. etrans; [apply insert_union_r|].
  + apply not_elem_of_list_to_map_1. rewrite <- (by_id_keys l) in Hnin. exact Hnin.
  + done.
Qed.

Lemma foldM_filter {A B} (f : A -> B -> option A) (p : B -> bool) l a :
foldM (fun a x => if p x then f a x else Some a) l a = foldM f (filter (fun x => p x = true) l) a.
Proof.
revert a. induction l as [|x l IH]; intros a; [done|]. rewrite filter_cons. cbn [foldM].
destruct (p x); [rewrite decide_True by done; cbn [foldM]|by rewrite decide_False by done; cbn [mbind option_bind]].
destruct (f a x); [apply IH|done].
Qed.

Lemma occupied_facts k b :
bucket_ok k b ->
let l := filter (fun s => occupied s = true) (slots b) in
(forall s, s ∈ l -> d_flags s = 1) /\ NoDup (d_id <$> l) /\ list_to_map (by_id l) = contents b /\ Z.of_nat (length l) = count b.
Proof.
intros Hb l. assert (omap entry_of (slots b) = by_id l) as E.
{ subst l. clear Hb. induction (slots b) as [|s ss IH]; [done|]. rewrite filter_cons. cbn [omap list_omap].
  unfold entry_of at 1. destruct (occupied s); [rewrite decide_True by done; cbn; by rewrite IH|by rewrite decide_False]. }
split_and!.
- intros s [Hs _]%list_elem_of_filter. unfold occupied in Hs. by bool_prop.
- apply NoDup_fmap_2_strong.
  + intros s1 s2 [H1 (i1 & L1)%list_elem_of_lookup]%list_elem_of_filter [H2 (i2 & L2)%list_elem_of_lookup]%list_elem_of_filter Eid.
    unfold occupied in H1, H2. bool_prop. assert (i1 = i2) as -> by by eapply (occupied_unique k b Hb). congruence.
  + subst l. assert (forall i j s, slots b !! i = Some s -> slots b !! j = Some s -> occupied s = true -> i = j) as Hu.
    { intros i j s Hi Hj Hs. unfold occupied in Hs. bool_prop. by eapply (occupied_unique k b Hb). }
    clear E Hb. induction (slots b) as [|s ss IH]; [constructor|]. rewrite filter_cons. case_decide as Ho.
    * apply NoDup_cons. split; [|apply IH; intros; by apply Nat.succ_inj, (Hu (S i) (S j) s0)].
      intros [_ (i & Hi)%list_elem_of_lookup]%list_elem_of_filter. by specialize (Hu 0%nat (S i) s eq_refl Hi Ho).
    * apply IH. intros; by apply Nat.succ_inj, (Hu (S i) (S j) s0).
- unfold contents. by rewrite E.
- by rewrite (bo_count k b Hb).
Qed.

Lemma insert_fuel_full fuel id b :
mask b =? 0 = false ->
probe_insert (Z.to_nat (mask b + 1)) (slots b) (mask b) id (first_slot (mask b) id) = None ->
insert_fuel (S fuel) id b =
  (b1 ← init_bucket (u32 (u32 (mask b + 1) * 2));
   b2 ← foldM (reinsert fuel) (filter (fun s => occupied s = true) (slots b)) b1; insert_fuel fuel id b2).
Proof.
intros Em Ep. cbn [insert_fuel]. rewrite Em. cbn [mbind option_bind]. rewrite Ep.
destruct (init_bucket _) as [b1|]; [|done]. cbn [mbind option_bind]. by rewrite <- foldM_filter.
Qed.

(** * The table is a map

    Whatever the number of entries, [insert] leads to the descriptor of the
    id, new or old, and changes nothing else; a full table has grown. *)
Lemma insert_slot_spec k b id :
bucket_ok k b -> (k <= 29)%nat ->
exists i b' k', insert_slot id b = Some (i, b') /\ bucket_ok k' b' /\ slots b' !! i = Some (slot_for id b) /\
  contents b' = <[id := slot_for id b]> (contents b) /\ count b' = count b + absent id b /\
  (k' = k \/ (k' = k + 2)%nat /\ count b = table_size k).
Proof.
intros Hb Hk. unfold insert_slot. pose proof (table_size_bounds k (bo_k k b Hb)) as Hts. pose proof (count_le k b Hb) as Hcl.
destruct (decide (is_Some (contents b !! id) \/ count b < table_size k)) as [Hroom|Hfull].
{ destruct (insert_room k b Hb id 1 Hroom) as (i & b' & ? & ? & ? & ? & ?). exists i, b', k. split_and!; [done..|by left]. }
assert (contents b !! id = None) as Habs by (apply eq_None_not_Some; tauto).
assert (count b = table_size k) as Hc by lia.
assert (Hpi : probe_insert (Z.to_nat (mask b + 1)) (slots b) (mask b) id (first_slot (mask b) id) = None).
{ destruct (scan_first k b id Hb) as [(j & s & Hj & Hs & Hst & _ & El & _)|(_ & _ & E)]; [exfalso|exact E].
  pose proof (find_contents k b id Hb) as Hfind. unfold find_slot in Hfind. rewrite El, Habs in Hfind.
  assert (d_flags s = 1) as Hf.
  { assert (occupied s = true) as Ho; [|unfold occupied in Ho; by bool_prop].
    apply (countb_full occupied (slots b)); [|by apply list_elem_of_lookup; eexists].
    rewrite (bo_len k b Hb). rewrite (bo_count k b Hb) in Hc. lia. }
  rewrite Hf in Hfind. cbn in Hfind. congruence. }
rewrite (insert_fuel_full 1 id b (proj1 (mask_nonzero k b Hb)) Hpi).
rewrite (bo_mask k b Hb), Z.sub_add, (wrap_id 32 (table_size k)) by lia.
assert (table_size k <= 2 ^ 29) as Hts' by (apply Z.pow_le_mono_r; lia).
rewrite (wrap_id 32 (table_size k * 2)) by lia.
destruct (init_bucket_ok (table_size k * 2)) as (k1 & b1 & -> & Hb1 & Hc1 & Hn1 & Hge & Hor); [lia|lia|].
cbn [mbind option_bind].
assert (k1 = (k + 2)%nat) as ->.
{ pose proof (bo_k k b Hb). assert (2 ^ (Z.of_nat k + 2) = table_size k * 4) as E4 by (rewrite Z.pow_add_r by lia; unfold table_size; lia).
  assert (2 ^ (Z.of_nat k + 3) = table_size k * 8) as E8 by (rewrite Z.pow_add_r by lia; unfold table_size; lia).
  assert (2 ^ (Z.of_nat k + 2) <= 2 ^ Z.of_nat k1) as Hle by (rewrite E4; unfold table_size in *; lia).
  apply Z.pow_le_mono_r_iff in Hle; [|lia|lia]. destruct Hor as [->|Hlt]; [lia|].
  assert (2 ^ Z.of_nat k1 < 2 ^ (Z.of_nat k + 3)) as Hlt' by (rewrite E8; unfold table_size in *; lia).
  apply Z.pow_lt_mono_r_iff in Hlt'; lia. }
destruct (occupied_facts k b Hb) as (Hf & Hnd & Hmap & Hlen).
assert (table_size (k + 2) = table_size k * 4) as E4.
{ unfold table_size. rewrite Nat2Z.inj_add, Z.pow_add_r by lia. done. }
destruct (reinsert_all (k + 2) 0 (filter (fun s => occupied s = true) (slots b)) b1) as (b2 & E2 & Hb2 & Hc2 & Hn2);
  [done|done|done|intros; by rewrite Hc1, lookup_empty|lia|].
rewrite E2. cbn [mbind option_bind].
rewrite Hc1, (right_id_L ∅ (∪)), Hmap in Hc2.
destruct (insert_room (k + 2) b2 Hb2 id 0) as (i & b' & E & ? & Hi & Hc' & Hn'); [right; lia|].
exists i, b', (k + 2)%nat. unfold slot_for, absent in *. rewrite Hc2 in *. split_and!; [exact E|done|done|done|lia|by right].
Qed.
(** * Rebuilding *)

(** [GraphDeps::rebuild_hash_bucket]. *)
Definition rebuild_hash_bucket (b : OpDescHashBucket) : option OpDescHashBucket :=
if bool_decide (slots b = []) then Some b
else
  let valid := filter (fun s => (d_flags s =? 1) && (Z.land (d_flags s) 0x08 =? 0) = true) (slots b) in
  b' ← init_bucket (u32 (Z.of_nat (length valid)));
  foldM (reinsert 2) valid b'.

Lemma rebuild_spec k b :
bucket_ok k b -> (k <= 30)%nat ->
exists k' b', rebuild_hash_bucket b = Some b' /\ bucket_ok k' b' /\ contents b' = contents b /\ count b' = count b /\
  table_size k' <= 4 * count b + 16.
Proof.
intros Hb Hk. unfold rebuild_hash_bucket. pose proof (table_size_bounds k (bo_k k b Hb)) as Hts.
rewrite bool_decide_false by (intros E; pose proof (bo_len k b Hb) as Hl; rewrite E in Hl; cbn in Hl; lia).
assert (filter (fun s => (d_flags s =? 1) && (Z.land (d_flags s) 0x08 =? 0) = true) (slots b)
        = filter (fun s => occupied s = true) (slots b)) as ->.
{ apply list_filter_iff. intros s. unfold occupied. destruct (d_flags s =? 1) eqn:E; [|done]. bool_prop. by rewrite E. }
destruct (occupied_facts k b Hb) as (Hf & Hnd & Hmap & Hlen). pose proof (count_le k b Hb) as Hcl.
assert (table_size k <= 2 ^ 30) as Hts' by (apply Z.pow_le_mono_r; lia). rewrite Hlen, wrap_id by lia.
destruct (init_bucket_ok (count b)) as (k1 & b1 & -> & Hb1 & Hc1 & Hn1 & Hge & Hor); [lia|lia|]. cbn [mbind option_bind].
destruct (reinsert_all k1 1 (filter (fun s => occupied s = true) (slots b)) b1) as (b2 & E2 & Hb2 & Hc2 & Hn2);
  [done|done|done|intros; by rewrite Hc1, lookup_empty|lia|].
exists k1, b2. rewrite Hc1, (right_id_L ∅ (∪)), Hmap in Hc2. split_and!; [exact E2|done|done|lia|].
destruct Hor as [->|]; [unfold table_size; lia|lia].
Qed.

(** * Any sequence of insertions *)

(** A table that is no larger than its entries need. *)
Definition roomy (k : nat) (b : OpDescHashBucket) : Prop := table_size k <= 128 \/ table_size k <= 4 * count b.

Lemma put_one k b s :
bucket_ok k b -> roomy k b -> count b < 2 ^ 27 -> d_flags s = 1 ->
exists i h k', insert_slot (d_id s) b = Some (i, h) /\ slots h !! i = Some (slot_for (d_id s) b) /\
  bucket_ok k' (write_slot i s h) /\ roomy k' (write_slot i s h) /\
  contents (write_slot i s h) = <[d_id s := s]> (contents b) /\ count (write_slot i s h) = count b + absent (d_id s) b.
Proof.
intros Hb Hr Hc Hs.
assert (k <= 28)%nat as Hk.
{ destruct (decide (k <= 28)%nat) as [|Hgt]; [done|]. exfalso.
  assert (2 ^ 29 <= table_size k) by (apply Z.pow_le_mono_r; lia). destruct Hr; lia. }
destruct (insert_slot_spec k b (d_id s) Hb ltac:(lia)) as (i & b1 & k' & E & Hb1 & Hi & Hc1 & Hn1 & Hk').
destruct (slot_for_id k b (d_id s) Hb) as [Eid Efl].
destruct (write_ok k' b1 Hb1 i (slot_for (d_id s) b) s) as (Hb2 & Hc2 & Hn2); [done|done|done|done|].
exists i, b1, k'. assert (0 <= absent (d_id s) b) by (unfold absent; case_decide; lia).
split_and!; [done|done|done| |rewrite Hc2, Hc1; apply insert_insert_eq|lia]. unfold roomy in *. destruct Hk' as [->|[-> Ec]]; [lia|].
right. unfold table_size in *. rewrite Nat2Z.inj_add, Z.pow_add_r by lia. lia.
Qed.

Definition map_of (l : list DepOpDesc) : gmap op_id_t DepOpDesc := foldl (fun m s => <[d_id s := s]> m) ∅ l.

(** The empty table of 64 entries. *)
Lemma init_64 : exists b, init_bucket 64 = Some b /\ bucket_ok 7 b /\ contents b = ∅ /\ count b = 0.
Proof.
destruct (init_bucket_ok 64) as (k & b & E & Hb & Hc & Hn & Hge & Hor); [lia|lia|]. exists b. split_and!; [done| |done|done].
assert (k = 7%nat) as <-; [|done]. unfold table_size in *. destruct Hor as [->|Hlt]; [done|].
assert (2 ^ 7 <= 2 ^ Z.of_nat k) as H1 by lia. assert (2 ^ Z.of_nat k < 2 ^ 8) as H2 by lia.
apply Z.pow_le_mono_r_iff in H1; [|lia|lia]. apply Z.pow_lt_mono_r_iff in H2; lia.
Qed.

Lemma put_all b l :
init_bucket 64 = Some b -> (forall s, s ∈ l -> d_flags s = 1) -> Z.of_nat (length l) <= 2 ^ 27 ->
exists k b', foldM (reinsert 2) l b = Some b' /\ bucket_ok k b' /\ roomy k b' /\ contents b' = map_of l /\
  count b' = Z.of_nat (size (map_of l)) /\ count b' <= Z.of_nat (length l).
Proof.
intros E. destruct init_64 as (b64 & E' & Hb & Hc & Hn). assert (b64 = b) as -> by congruence.
induction l as [|s l IH] using rev_ind; intros Hf Hlen.
{ exists 7%nat, b. unfold map_of. cbn [foldM foldl]. split_and!; [done|done|by left|done|by rewrite map_size_empty|cbn; lia]. }
rewrite length_app in Hlen. cbn in Hlen.
destruct IH as (k & b1 & E1 & Hb1 & Hr1 & Hc1 & Hn1 & Hle); [set_solver|lia|].
destruct (put_one k b1 s Hb1 Hr1) as (i & h & k' & E2 & _ & Hb2 & Hr2 & Hc2 & Hn2); [lia|apply Hf; set_solver|].
exists k', (write_slot i s h). unfold map_of in *. rewrite foldM_app, E1, foldl_app. cbn [mbind option_bind foldM foldl].
assert (reinsert 2 b1 s = Some (write_slot i s h)) as -> by (unfold reinsert; unfold insert_slot in E2; by rewrite E2).
cbn [mbind option_bind].
rewrite length_app. cbn [length]. unfold absent in Hn2. rewrite Hc1 in *. split_and!; [done|done|done|done| |].
- rewrite Hn2, Hn1. destruct (decide (is_Some (foldl (fun m s => <[d_id s := s]> m) ∅ l !! d_id s))) as [Hin|Hn0].
  + rewrite map_size_insert_Some by done. lia.
  + rewrite map_size_insert_None by (by apply eq_None_not_Some). lia.
- case_decide; lia.
Qed.

(** C11: the op table is a finite map: whatever descriptors are put into the
    fresh table, in whatever order and however often it has to grow, every
    insertion comes back with a slot, looking an id up gives the last
    descriptor put in for it, or none, the count is the number of distinct
    ids, and rebuilding the table keeps all of it. *)
Theorem op_table_refines_map b l :
init_bucket 64 = Some b -> (forall s, s ∈ l -> d_flags s = 1) -> Z.of_nat (length l) <= 2 ^ 27 ->
exists b1 b2, foldM (reinsert 2) l b = Some b1 /\ rebuild_hash_bucket b1 = Some b2 /\
  (forall id, find_slot id b1 = map_of l !! id /\ find_slot id b2 = map_of l !! id) /\
  count b1 = Z.of_nat (size (map_of l)) /\ count b2 = count b1.
Proof.
intros E Hf Hlen. destruct (put_all b l E Hf Hlen) as (k & b1 & E1 & Hb1 & Hr1 & Hc1 & Hn1 & Hle).
assert (k <= 30)%nat as Hk.
{ destruct (decide (k <= 30)%nat) as [|Hgt]; [done|]. exfalso.
  assert (2 ^ 31 <= table_size k) by (apply Z.pow_le_mono_r; lia). destruct Hr1; lia. }
destruct (rebuild_spec k b1 Hb1 Hk) as (k2 & b2 & E2 & Hb2 & Hc2 & Hn2 & _). exists b1, b2.
split_and!; [done|done| |done|done]. intros id. by rewrite (find_contents k), (find_contents k2), Hc2, Hc1 by done.
Qed.

Definition three_descs : list DepOpDesc := (fun id => claim_slot id empty_desc) <$> [5; 77; 5].

Lemma op_table_refines_map_witness :
exists b b1 b2, init_bucket 64 = Some b /\ foldM (reinsert 2) three_descs b = Some b1 /\ rebuild_hash_bucket b1 = Some b2 /\
  find_slot 77 b2 = Some (claim_slot 77 empty_desc) /\ find_slot 6 b2 = None /\ count b2 = 2.
Proof.
destruct init_64 as (b & E & _).
destruct (op_table_refines_map b three_descs E) as (b1 & b2 & E1 & E2 & Hf & Hn & Hn2).
- intros s (id & -> & _)%list_elem_of_fmap. reflexivity.
- vm_compute. discriminate.
- exists b, b1, b2. split; [exact E|]. split; [exact E1|]. split; [exact E2|].
  rewrite (proj2 (Hf 77)), (proj2 (Hf 6)), Hn2, Hn. by vm_compute.
Defined.

(** Asked for more than 2^30 entries the table is never made: the size
    doubles past 2^31 to zero and stays there, so the loop of [init] runs
    for ever; up to 2^30 it ends with a power of two of at least twice the
    entries. *)
Theorem init_bucket_terminates_iff capacity :
0 <= capacity < 2 ^ 31 ->
(capacity <= 2 ^ 30 -> exists k b, init_bucket capacity = Some b /\ bucket_ok k b /\ capacity * 2 <= table_size k) /\
(2 ^ 30 < capacity -> forall fuel, double_until fuel 16 (u32 (capacity * 2)) = None).
Proof.
intros Hc. split.
- intros Hle. destruct (init_bucket_ok capacity) as (k & b & E & Hb & _ & _ & Hge & _); [lia|lia|]. by exists k, b.
- intros Hgt. apply double_until_loops. rewrite wrap_id; lia.
Qed.

Lemma init_bucket_terminates_iff_witness :
(exists k b, init_bucket 100 = Some b /\ bucket_ok k b) /\ double_until 1000 16 (u32 ((2 ^ 30 + 1) * 2)) = None.
Proof.
split.
- destruct (proj1 (init_bucket_terminates_iff 100 ltac:(lia)) ltac:(lia)) as (k & b & E & Hb & _). by exists k, b.
- apply (proj2 (init_bucket_terminates_iff (2 ^ 30 + 1) ltac:(lia)) ltac:(lia) 1000%nat).
Defined.
