(* ===== verification/GraphDeps.v ===== *)
(** The dependency graph of [GraphDeps] ([compiler/src/ir/graph_deps.cpp]):
    the descriptors of the ops, memory groups, lifetimes, groups along the
    ordering, distances and the run list.  Proved here: how the groups are
    cut and when the distances settle. *)
From S2P Require Import Prelude Ir DdrOffsets OpDescHash.

(** * State *)

Record MemGroup := mkMemGroup {
  mg_id : Z; mg_bytes : Z; is_tcm : bool; gen_op_id : op_id_t; mg_consumers : list op_id_t
}.

Record GroupEntry := mkGroupEntry { op_ids : list op_id_t; op_count : Z }.

Record LifetimeInfo := mkLife { li_op : op_id_t; first_use : Z; last_use : Z; access_count : Z }.

Record GraphDeps := mkDeps {
  opdescs : list DepOpDesc;
  group_entries : list GroupEntry;
  opdesc_hash : OpDescHashBucket;
  runlist : list op_id_t;
  runlist_count : Z;
  memgroups : list MemGroup;
  memgroup_map : gmap op_id_t Z;
  lifetimes : list LifetimeInfo;
  ordering_state : Z;
  max_distance : Z;
  peak_tcm_use : Z;
  largest_tcm_op_id : op_id_t;
  largest_tcm_op_size : Z
}.

Definition new_deps : GraphDeps := mkDeps [] [] (mkBucket [] 0 0) [] 0 [] ∅ [] 0 0 0 0 0.

Definition with_opdescs (l : list DepOpDesc) (d : GraphDeps) : GraphDeps :=
  mkDeps l (group_entries d) (opdesc_hash d) (runlist d) (runlist_count d) (memgroups d) (memgroup_map d) (lifetimes d)
    (ordering_state d) (max_distance d) (peak_tcm_use d) (largest_tcm_op_id d) (largest_tcm_op_size d).

Definition with_groups (l : list GroupEntry) (d : GraphDeps) : GraphDeps :=
  mkDeps (opdescs d) l (opdesc_hash d) (runlist d) (runlist_count d) (memgroups d) (memgroup_map d) (lifetimes d)
    (ordering_state d) (max_distance d) (peak_tcm_use d) (largest_tcm_op_id d) (largest_tcm_op_size d).

Definition with_hash (h : OpDescHashBucket) (d : GraphDeps) : GraphDeps :=
  mkDeps (opdescs d) (group_entries d) h (runlist d) (runlist_count d) (memgroups d) (memgroup_map d) (lifetimes d)
    (ordering_state d) (max_distance d) (peak_tcm_use d) (largest_tcm_op_id d) (largest_tcm_op_size d).

Definition with_runlist (l : list op_id_t) (n : Z) (d : GraphDeps) : GraphDeps :=
  mkDeps (opdescs d) (group_entries d) (opdesc_hash d) l n (memgroups d) (memgroup_map d) (lifetimes d)
    (ordering_state d) (max_distance d) (peak_tcm_use d) (largest_tcm_op_id d) (largest_tcm_op_size d).

Definition with_memgroups (l : list MemGroup) (m : gmap op_id_t Z) (d : GraphDeps) : GraphDeps :=
  mkDeps (opdescs d) (group_entries d) (opdesc_hash d) (runlist d) (runlist_count d) l m (lifetimes d)
    (ordering_state d) (max_distance d) (peak_tcm_use d) (largest_tcm_op_id d) (largest_tcm_op_size d).

Definition with_lifetimes (l : list LifetimeInfo) (d : GraphDeps) : GraphDeps :=
  mkDeps (opdescs d) (group_entries d) (opdesc_hash d) (runlist d) (runlist_count d) (memgroups d) (memgroup_map d) l
    (ordering_state d) (max_distance d) (peak_tcm_use d) (largest_tcm_op_id d) (largest_tcm_op_size d).

Definition with_distances (st md : Z) (d : GraphDeps) : GraphDeps :=
  mkDeps (opdescs d) (group_entries d) (opdesc_hash d) (runlist d) (runlist_count d) (memgroups d) (memgroup_map d)
    (lifetimes d) st md (peak_tcm_use d) (largest_tcm_op_id d) (largest_tcm_op_size d).

Definition with_peak (p : Z) (id : op_id_t) (sz : Z) (d : GraphDeps) : GraphDeps :=
  mkDeps (opdescs d) (group_entries d) (opdesc_hash d) (runlist d) (runlist_count d) (memgroups d) (memgroup_map d)
    (lifetimes d) (ordering_state d) (max_distance d) p id sz.

(** Updates of a descriptor. *)
Definition set_desc_flags (f : Z) (s : DepOpDesc) : DepOpDesc :=
  mkDesc (d_id s) (opdef_ptr s) f (d_begin s) (d_end s) (d_access s) (distance s) (predecessor s)
    (input_memgroups s) (output_memgroups s) (vtcm_requirement s) (ddr_requirement s).

Definition set_life (b e a : Z) (s : DepOpDesc) : DepOpDesc :=
  mkDesc (d_id s) (opdef_ptr s) (d_flags s) b e a (distance s) (predecessor s)
    (input_memgroups s) (output_memgroups s) (vtcm_requirement s) (ddr_requirement s).

Definition set_distance (x p : Z) (s : DepOpDesc) : DepOpDesc :=
  mkDesc (d_id s) (opdef_ptr s) (d_flags s) (d_begin s) (d_end s) (d_access s) x p
    (input_memgroups s) (output_memgroups s) (vtcm_requirement s) (ddr_requirement s).

Definition set_memgroups (ins outs : list Z) (s : DepOpDesc) : DepOpDesc :=
  mkDesc (d_id s) (opdef_ptr s) (d_flags s) (d_begin s) (d_end s) (d_access s) (distance s) (predecessor s)
    ins outs (vtcm_requirement s) (ddr_requirement s).

Definition set_requirements (v w : Z) (s : DepOpDesc) : DepOpDesc :=
  mkDesc (d_id s) (opdef_ptr s) (d_flags s) (d_begin s) (d_end s) (d_access s) (distance s) (predecessor s)
    (input_memgroups s) (output_memgroups s) v w.

(** * Construction *)

Definition init (d : GraphDeps) : option GraphDeps :=
  h ← init_bucket 64;
  Some (mkDeps [] (group_entries d) h (runlist d) 0 [] ∅ [] (ordering_state d) (max_distance d) (peak_tcm_use d)
          (largest_tcm_op_id d) (largest_tcm_op_size d)).

Definition find_opdesc (d : GraphDeps) (id : op_id_t) : option DepOpDesc := find_slot id (opdesc_hash d).

(** The fields of a new descriptor; the other ones stay those of the slot. *)
Definition fill_desc (id : op_id_t) (od : OpDef) (s : DepOpDesc) : DepOpDesc :=
  mkDesc id (Some od) 1 (d_begin s) (d_end s) (d_access s) (distance s) (predecessor s)
    (input_memgroups s) (output_memgroups s) (vtcm_requirement s) (ddr_requirement s).

(** The linear table gets a copy of the slot. *)
Definition add_op (id : op_id_t) (od : OpDef) (d : GraphDeps) : option GraphDeps :=
  '(i, h) ← insert_slot id (opdesc_hash d);
  desc ← slots h !! i;
  match opdef_ptr desc with
  | Some _ => Some (with_hash h d)
  | None => let desc := fill_desc id od desc in
            Some (with_opdescs (opdescs d ++ [desc]) (with_hash (write_slot i desc h) d))
  end.

(** Bytes of an output; absent dimensions count once. *)
Definition output_bytes (od : OutputDef) : Z :=
  let sz := foldl (fun acc x => if 0 <? x then u64 (acc * x) else acc) 1 (take (Z.to_nat (Z.min (rank od) 5)) (dims od)) in
  u64 (sz * (if element_size od =? 0 then 4 else element_size od)).

Definition add_memgroup (acc : list DepOpDesc * list MemGroup * gmap op_id_t Z) (s : DepOpDesc) :
    list DepOpDesc * list MemGroup * gmap op_id_t Z :=
  let '(done, mgs, m) := acc in
  match opdef_ptr s with
  | None => (done ++ [s], mgs, m)
  | Some od =>
      let id := u32 (Z.of_nat (length mgs)) in
      let mg := mkMemGroup id (output_bytes (output_def od)) true (d_id s) (consumers od) in
      (done ++ [set_memgroups (input_memgroups s) (output_memgroups s ++ [id]) s], mgs ++ [mg], <[id := id]> m)
  end.

Definition build_memgroups (d : GraphDeps) : GraphDeps :=
  let '(l, mgs, m) := foldl add_memgroup ([], [], ∅) (opdescs d) in
  with_opdescs l (with_memgroups mgs m d).

(** * Lifetimes *)

Definition use_of (pos : gmap op_id_t Z) (id : op_id_t) : Z := default 0 (pos !! id).

(** The position of the last consumer that has one. *)
Definition last_use_of (pos : gmap op_id_t Z) (fu : Z) (cs : list op_id_t) : Z :=
  foldl (fun lu c => match pos !! c with Some q => if lu <? q then q else lu | None => lu end) fu cs.

Definition accesses (od : OpDef) : Z := u32 (Z.of_nat (length (consumers od))).

Definition life_of (pos : gmap op_id_t Z) (s : DepOpDesc) : DepOpDesc :=
  match opdef_ptr s with
  | None => s
  | Some od => let fu := use_of pos (d_id s) in set_life fu (last_use_of pos fu (consumers od)) (accesses od) s
  end.

(** Without an ordering the index in the table is the position. *)
Definition life_by_index (i : nat) (s : DepOpDesc) : DepOpDesc :=
  let t := u32 (Z.of_nat i) in set_life t t (match opdef_ptr s with Some od => accesses od | None => 0 end) s.

Definition info_of (s : DepOpDesc) : LifetimeInfo := mkLife (d_id s) (d_begin s) (d_end s) (d_access s).

Definition compute_lifetimes (ordering : list op_id_t) (d : GraphDeps) : GraphDeps :=
  if bool_decide (ordering = []) then
    let l := imap life_by_index (opdescs d) in with_lifetimes (info_of <$> l) (with_opdescs l d)
  else
    let l := life_of (positions ordering) <$> opdescs d in
    with_lifetimes (info_of <$> filter (fun s => is_Some (opdef_ptr s)) l) (with_opdescs l d).
(** * The passes of [build_runlist]

    Those that always return true are functions on the state. *)

(** [flags |= 0x80] for the ops that are in use and not marked unused. *)
Definition mark_pending (s : DepOpDesc) : DepOpDesc :=
  if d_flags s =? 0 then s
  else if negb (Z.land (d_flags s) 0x20 =? 0) then s
  else set_desc_flags (Z.lor (d_flags s) 0x80) s.

Definition clear_pending (s : DepOpDesc) : DepOpDesc := set_desc_flags (Z.land (d_flags s) (u8 (Z.lnot 0x80))) s.

(** A known input outside the group. *)
Definition crosses (op_idx : gmap op_id_t Z) (group : list op_id_t) (c : InputConn) : bool :=
  bool_decide (is_Some (op_idx !! src_id c)) && negb (bool_decide (src_id c ∈ group)).

(** One op of the ordering; the current group comes first. *)
Definition group_op (op_idx : gmap op_id_t Z) (acc : list DepOpDesc * list GroupEntry) (oid : op_id_t) :
    list DepOpDesc * list GroupEntry :=
  let '(l, gs) := acc in
  match op_idx !! oid with
  | None => acc
  | Some i =>
      match l !! Z.to_nat i with
      | None => acc
      | Some s =>
          if d_flags s =? 0 then acc
          else
            let l := alter clear_pending (Z.to_nat i) l in
            match gs with
            | [] => (l, [mkGroupEntry [oid] 1])
            | g :: gs' =>
                let start_new := match opdef_ptr s with
                                 | Some od => existsb (crosses op_idx (op_ids g)) (inputs od)
                                 | None => false
                                 end in
                if start_new then (l, mkGroupEntry [oid] 1 :: gs)
                else (l, mkGroupEntry (op_ids g ++ [oid]) (u32 (op_count g + 1)) :: gs')
            end
      end
  end.

Definition op_index (l : list DepOpDesc) : gmap op_id_t Z := positions (d_id <$> l).

Definition prepare_group_entries (ordering : list op_id_t) (d : GraphDeps) : GraphDeps :=
  if bool_decide (opdescs d = []) then d
  else
    let l := mark_pending <$> opdescs d in
    if bool_decide (ordering = []) then with_groups [] (with_opdescs l d)
    else
      let '(l, gs) := foldl (group_op (op_index l)) (l, []) ordering in
      with_groups (reverse gs) (with_opdescs l d).

(** The memory groups of an op's output, and those of the ops it reads as
    the table knows them. *)
Definition populate_desc (d : GraphDeps) (s : DepOpDesc) : DepOpDesc :=
  match opdef_ptr s with
  | None => s
  | Some od =>
      set_memgroups
        (input_memgroups s ++
         concat ((fun c => match find_opdesc d (src_id c) with Some src => output_memgroups src | None => [] end) <$> inputs od))
        (output_memgroups s ++ (mg_id <$> filter (fun mg => gen_op_id mg = d_id s) (memgroups d))) s
  end.

Definition populate_groups_in_opdesc (d : GraphDeps) : GraphDeps := with_opdescs (populate_desc d <$> opdescs d) d.

Definition forget_consumer (id : op_id_t) (mg : MemGroup) : MemGroup :=
  mkMemGroup (mg_id mg) (mg_bytes mg) (is_tcm mg) (gen_op_id mg) (filter (fun c => c <> id) (mg_consumers mg)).

(** An out-of-range id is skipped. *)
Definition forget_in (id : op_id_t) (mgs : list MemGroup) (ids : list Z) : list MemGroup :=
  foldl (fun mgs i => alter (forget_consumer id) (Z.to_nat i) mgs) mgs ids.

Definition remove_unused (acc : list DepOpDesc * list MemGroup) (s : DepOpDesc) : list DepOpDesc * list MemGroup :=
  let '(done, mgs) := acc in
  if Z.land (d_flags s) 0x20 =? 0 then (done ++ [s], mgs)
  else
    (done ++ [set_desc_flags (Z.lor (Z.land (d_flags s) (u8 (Z.lnot 0x04))) 0x08) (set_memgroups [] [] s)],
     forget_in (d_id s) (forget_in (d_id s) mgs (output_memgroups s)) (input_memgroups s)).

Definition remove_unused_ops (d : GraphDeps) : GraphDeps :=
  let '(l, mgs) := foldl remove_unused ([], memgroups d) (opdescs d) in
  with_opdescs l (with_memgroups mgs (memgroup_map d) d).

Definition rebuild (d : GraphDeps) : option GraphDeps :=
  h ← rebuild_hash_bucket (opdesc_hash d); Some (with_hash h d).

(** [flags] has eight bits: [flags & 0x100] is zero and [flags |= 0x100]
    changes nothing. *)
Definition remove_unused_checked (d : GraphDeps) (s : DepOpDesc) : DepOpDesc :=
  let vec1_empty := bool_decide (input_memgroups s = []) in
  let vec2_empty := bool_decide (output_memgroups s = []) in
  if negb (Z.land (d_flags s) 0x0f =? 0x01) then s
  else if vec1_empty && vec2_empty then s
  else if negb vec1_empty || negb vec2_empty then s
  else if (distance s =? 0) && (predecessor s =? 0) then s
  else if negb (Z.land (d_flags s) 0x100 =? 0) then s
  else
    let s := set_memgroups [] [] s in
    let has_consumer := match opdef_ptr s with
                        | Some od => existsb (fun c => match find_opdesc d c with
                                                       | Some x => Z.land (d_flags x) 0x0f =? 0x01
                                                       | None => false
                                                       end) (consumers od)
                        | None => false
                        end in
    if has_consumer then set_desc_flags (u8 (Z.lor (d_flags s) 0x100)) s
    else set_desc_flags (u8 (Z.lor (Z.lor (Z.land (d_flags s) (u8 (Z.lnot 0x04))) 0x08) 0x100)) s.

Definition remove_unused_ops_checked (d : GraphDeps) : GraphDeps := with_opdescs (remove_unused_checked d <$> opdescs d) d.

(** ** Distances *)

(** The index, as the distance, and the index of the first input plus one. *)
Definition start_distance (op_idx : gmap op_id_t Z) (i : nat) (s : DepOpDesc) : DepOpDesc :=
  match opdef_ptr s with
  | None => s
  | Some od =>
      set_distance (u32 (Z.of_nat i))
        match inputs od with
        | [] => 0
        | c :: _ => match op_idx !! src_id c with Some q => u32 (q + 1) | None => 0 end
        end s
  end.

(** The distance an op gets through its predecessor; [None] without one. *)
Definition pred_distance (l : list DepOpDesc) (s : DepOpDesc) : option Z :=
  if predecessor s =? 0 then None
  else p ← l !! Z.to_nat (predecessor s - 1); _ ← opdef_ptr p; Some (u32 (distance p + 1)).

Definition relax (acc : list DepOpDesc * Z * bool) (i : nat) : list DepOpDesc * Z * bool :=
  let '(l, md, changed) := acc in
  match l !! i with
  | None => acc
  | Some s =>
      match opdef_ptr s, pred_distance l s with
      | Some _, Some x =>
          if distance s <? x
          then (alter (set_distance x (predecessor s)) i l, if md <? x then x else md, true)
          else acc
      | _, _ => acc
      end
  end.

(** One pass of the loop over all ops. *)
Definition relax_all (acc : list DepOpDesc * Z) : list DepOpDesc * Z * bool :=
  let '(l, md) := acc in foldl relax (l, md, false) (seq 0 (length l)).

(** At most [limit] passes; the flag says that the last one changed
    something. *)
Fixpoint relax_loop (limit : nat) (l : list DepOpDesc) (md : Z) : list DepOpDesc * Z * bool :=
  match limit with
  | O => (l, md, true)
  | S limit => let '(l, md, changed) := relax_all (l, md) in
               if changed then relax_loop limit l md else (l, md, false)
  end.

Definition loop_limit (op_count : Z) : Z := u32 (u32 (op_count * 4) + 16).

(** False: a loop. *)
Definition set_distances_from_constraints (d : GraphDeps) : GraphDeps * bool :=
  match opdescs d with
  | [] => (d, true)
  | l0 =>
      let l := imap (start_distance (op_index l0)) l0 in
      let md := foldl Z.max 0 (imap (fun i s => match opdef_ptr s with Some _ => u32 (Z.of_nat i) | None => 0 end) l0) in
      let '(l, md, changed) := relax_loop (Z.to_nat (loop_limit (u32 (Z.of_nat (length l0))))) l md in
      if changed then (with_opdescs l d, false)
      else (with_distances 2 md (with_opdescs l d), true)
  end.

(** ** The list and its check *)

Definition dist_lt (a b : Z * op_id_t) : bool := a.1 <? b.1.

Definition sort_runlist (d : GraphDeps) (ordering : list op_id_t) : list op_id_t :=
  snd <$> stable_sort dist_lt (omap (fun oid => s ← find_opdesc d oid; Some (distance s, oid)) ordering).

(** The memory in use along the list, its largest value last. *)
Definition peak_step (d : GraphDeps) (op_idx : gmap op_id_t Z) (acc : Z * Z) (oid : op_id_t) : Z * Z :=
  let '(current, peak) := acc in
  match (i ← op_idx !! oid; opdescs d !! Z.to_nat i) with
  | None => acc
  | Some s => let current := u64 (current + vtcm_requirement s) in (current, if peak <? current then current else peak)
  end.

Definition largest_step (acc : op_id_t * Z) (s : DepOpDesc) : op_id_t * Z :=
  match opdef_ptr s with
  | None => acc
  | Some _ => if acc.2 <? vtcm_requirement s then (d_id s, vtcm_requirement s) else acc
  end.

Definition sanity_check (d : GraphDeps) : GraphDeps * bool :=
  if negb (ordering_state d =? 2) then (d, false)
  else if negb (forallb (fun mg => (gen_op_id mg =? 0) || bool_decide (is_Some (find_opdesc d (gen_op_id mg)))) (memgroups d))
  then (d, false)
  else
    let '(_, peak) := foldl (peak_step d (op_index (opdescs d))) (0, 0) (runlist d) in
    let '(id, sz) := foldl largest_step (0, 0) (opdescs d) in
    (with_peak peak id sz d, true).

Definition build_runlist (ordering : list op_id_t) (d : GraphDeps) : option (GraphDeps * bool) :=
  let d := with_runlist [] 0 d in
  let d := prepare_group_entries ordering d in
  let d := populate_groups_in_opdesc d in
  let d := remove_unused_ops d in
  d ← rebuild d;
  let d := remove_unused_ops_checked d in
  let '(d, ok) := set_distances_from_constraints d in
  if negb ok then Some (d, false)
  else if bool_decide (ordering = []) then Some (d, false)
  else
    let l := sort_runlist d ordering in
    let d := with_runlist l (u32 (Z.of_nat (length l))) d in
    let '(d, ok) := sanity_check d in
    if negb ok then Some (d, false)
    else Some (d, negb (bool_decide (runlist d = []))).
(** * All steps *)

Definition estimate (s : DepOpDesc) : DepOpDesc :=
  match opdef_ptr s with
  | None => s
  | Some od => let v := output_bytes (output_def od) in set_requirements v (v / 5) s
  end.

(** Steps 1 to 7 of [GraphPrepare::build_graph_deps] on the live ops; the
    flag is the result of [build_runlist], which the code drops. *)
Definition build_deps (ordering : list op_id_t) (ods : list OpDef) : option (GraphDeps * bool) :=
  d ← init new_deps;
  d ← foldM (fun d od => add_op (op_id od) od d) ods d;
  '(d, ok) ← build_runlist ordering (compute_lifetimes ordering (build_memgroups d));
  Some (with_opdescs (estimate <$> opdescs d) d, ok).

(** * The table of the ops *)

(** The descriptor of an op when it is added; the hash table keeps this one. *)
Definition new_desc (od : OpDef) : DepOpDesc := fill_desc (op_id od) od (claim_slot (op_id od) empty_desc).

Lemma slot_for_absent id b od :
contents b !! id = None -> slot_for id b = claim_slot id empty_desc /\ absent id b = 1 /\ d_id (new_desc od) = op_id od.
Proof.
intros E. unfold slot_for, absent. rewrite E. split_and!; [done| |done]. by rewrite decide_False by (intros [? ?]; done).
Qed.

(** The state after the first ops. *)
Record added (ods : list OpDef) (d : GraphDeps) : Prop := {
ad_descs : opdescs d = new_desc <$> ods;
ad_hash : exists k, bucket_ok k (opdesc_hash d) /\ roomy k (opdesc_hash d);
ad_contents : contents (opdesc_hash d) = map_of (new_desc <$> ods);
ad_count : count (opdesc_hash d) = Z.of_nat (length ods);
ad_rest : memgroups d = [] /\ memgroup_map d = ∅ /\ ordering_state d = 0 /\ peak_tcm_use d = 0 /\ largest_tcm_op_size d = 0
}.

Lemma map_of_lookup l id s : NoDup (d_id <$> l) -> map_of l !! id = Some s <-> s ∈ l /\ d_id s = id.
Proof.
unfold map_of. induction l as [|x l IH] using rev_ind; intros Hnd; [cbn; rewrite lookup_empty; set_solver|].
rewrite fmap_app, NoDup_app in Hnd. destruct Hnd as (Hnd & Hx & _). rewrite foldl_app. cbn [foldl].
rewrite lookup_insert_Some, IH, elem_of_app, list_elem_of_singleton by done. split.
- intros [[<- <-]|[Hne [Hin <-]]]; [by split; [right|]|by split; [left|]].
- intros [[Hin| ->] <-]; [right|by left]. split; [|done]. intros E. apply (Hx (d_id s)); [by apply list_elem_of_fmap_2|].
  rewrite <- E. set_solver.
Qed.

Lemma map_of_None l id : map_of l !! id = None <-> id ∉ d_id <$> l.
Proof.
unfold map_of. induction l as [|x l IH] using rev_ind; [cbn; rewrite lookup_empty; set_solver|].
rewrite foldl_app, fmap_app. cbn [foldl]. rewrite lookup_insert_None, IH, not_elem_of_app. cbn. set_solver.
Qed.

Lemma new_desc_ids (ods : list OpDef) : d_id <$> (new_desc <$> ods) = op_id <$> ods.
Proof. rewrite <- list_fmap_compose. done. Qed.

Lemma add_ops_ok ods :
NoDup (op_id <$> ods) -> Z.of_nat (length ods) <= 2 ^ 27 ->
exists d0 d, init new_deps = Some d0 /\ foldM (fun d od => add_op (op_id od) od d) ods d0 = Some d /\ added ods d.
Proof.
intros Hnd Hlen. destruct init_64 as (h & E & Hh & Hc & Hn). unfold init. rewrite E. cbn [mbind option_bind].
eexists. induction ods as [|od ods IH] using rev_ind.
{ eexists. split; [done|]. split; [done|]. split; cbn; [done| |done|done|done]. exists 7%nat. split; [done|by left]. }
rewrite fmap_app, NoDup_app in Hnd. destruct Hnd as (Hnd & Hx & _). rewrite length_app in Hlen. cbn in Hlen.
destruct IH as (d & _ & E1 & [Hd (k & Hk & Hr) Hcd Hcn Hrest]); [done|lia|].
rewrite foldM_app, E1. cbn [mbind option_bind foldM].
assert (contents (opdesc_hash d) !! op_id od = None) as Habs.
{ rewrite Hcd, map_of_None, new_desc_ids. intros Hin. apply (Hx _ Hin). set_solver. }
destruct (slot_for_absent (op_id od) (opdesc_hash d) od Habs) as (Es & Ea & Eid).
destruct (put_one k (opdesc_hash d) (new_desc od) Hk Hr) as (i & h' & k' & E2 & Hi & Hk' & Hr' & Hc' & Hn'); [lia|done|].
rewrite Eid in *. rewrite Es in Hi. unfold add_op. rewrite E2. cbn [mbind option_bind]. rewrite Hi. cbn [mbind option_bind].
eexists. split; [done|]. split; [done|].
split; cbn [opdescs opdesc_hash with_opdescs with_hash memgroups memgroup_map ordering_state peak_tcm_use largest_tcm_op_size].
- by rewrite fmap_app, Hd.
- by exists k'.
- change (fill_desc (op_id od) od (claim_slot (op_id od) empty_desc)) with (new_desc od).
  rewrite Hc', fmap_app. unfold map_of. rewrite foldl_app. cbn [foldl fmap list_fmap]. by rewrite Eid, Hcd.
- change (fill_desc (op_id od) od (claim_slot (op_id od) empty_desc)) with (new_desc od).
  rewrite Hn', Hcn, Ea, length_app. cbn. lia.
- done.
Qed.

(** * Memory groups and lifetimes *)

Definition memgroup_of (i : nat) (od : OpDef) : MemGroup :=
mkMemGroup (u32 (Z.of_nat i)) (output_bytes (output_def od)) true (op_id od) (consumers od).

Lemma build_memgroups_spec ods d :
added ods d ->
opdescs (build_memgroups d) = imap (fun i od => set_memgroups [] [u32 (Z.of_nat i)] (new_desc od)) ods /\
memgroups (build_memgroups d) = imap memgroup_of ods.
Proof.
intros [Hd _ _ _ _]. unfold build_memgroups. rewrite Hd.
assert (exists m, foldl add_memgroup ([], [], ∅) (new_desc <$> ods) =
  (imap (fun i od => set_memgroups [] [u32 (Z.of_nat i)] (new_desc od)) ods, imap memgroup_of ods, m)) as [m ->]; [|done].
clear Hd. induction ods as [|od ods [m IH]] using rev_ind; [by exists ∅|].
rewrite fmap_app, foldl_app, IH. cbn [foldl fmap list_fmap add_memgroup opdef_ptr new_desc fill_desc claim_slot].
rewrite length_imap, !imap_app. cbn [imap]. rewrite Nat.add_0_r. eexists. done.
Qed.

(** The largest position among [fu] and those of the consumers that have one. *)
Lemma last_use_spec pos fu cs :
let lu := last_use_of pos fu cs in
fu <= lu /\ (forall c q, c ∈ cs -> pos !! c = Some q -> q <= lu) /\ (lu = fu \/ exists c, c ∈ cs /\ pos !! c = Some lu).
Proof.
unfold last_use_of. induction cs as [|c cs IH] using rev_ind; [cbn; split_and!; [lia|set_solver|by left]|].
rewrite foldl_app. cbn [foldl]. cbn zeta in IH. set (lu := foldl _ fu cs) in *. destruct IH as (H1 & H2 & H3).
destruct (pos !! c) as [q|] eqn:E.
- destruct (lu <? q) eqn:El; bool_prop.
  + split_and!; [lia| |right; exists c; split; [set_solver|done]].
    intros x qx [Hx| ->%list_elem_of_singleton]%elem_of_app Hq; [specialize (H2 x qx Hx Hq); lia|]. rewrite E in Hq. injection Hq as ->. lia.
  + split_and!; [lia| |].
    * intros x qx [Hx| ->%list_elem_of_singleton]%elem_of_app Hq; [by eapply H2|]. rewrite E in Hq. by injection Hq as <-.
    * destruct H3 as [|(x & ? & ?)]; [by left|right]. exists x. split; [set_solver|done].
- split_and!; [lia| |].
  + intros x qx [Hx| ->%list_elem_of_singleton]%elem_of_app Hq; [by eapply H2|congruence].
  + destruct H3 as [|(x & ? & ?)]; [by left|right]. exists x. split; [set_solver|done].
Qed.
(** * Groups *)

Section groups.
Context (l0 : list DepOpDesc).

Definition known (id : op_id_t) : Prop := id ∈ d_id <$> l0.

#[export] Instance known_dec id : Decision (known id).
Proof. unfold known. apply _. Defined.

(** The op that a descriptor of the list stands for. *)
Definition op_at (id : op_id_t) : option OpDef := q ← op_index l0 !! id; s ← l0 !! Z.to_nat q; opdef_ptr s.

(** Every op of a group but the first finds its known inputs before it in
    the group. *)
Definition group_closed (g : GroupEntry) : Prop :=
op_ids g <> [] /\ op_count g = u32 (Z.of_nat (length (op_ids g))) /\
forall i id od c, op_ids g !! S i = Some id -> op_at id = Some od -> c ∈ inputs od -> known (src_id c) ->
  src_id c ∈ take (S i) (op_ids g).

(** A group starts because its first op reads something outside the group
    before. *)
Definition group_breaks (g h : GroupEntry) : Prop :=
exists id rest od c, op_ids h = id :: rest /\ op_at id = Some od /\ c ∈ inputs od /\ known (src_id c) /\ src_id c ∉ op_ids g.

Definition pending_flags (done : list op_id_t) (s : DepOpDesc) : DepOpDesc :=
set_desc_flags (if decide (d_id s ∈ done) then 0x01 else 0x81) s.

Record groups_built (done : list op_id_t) (acc : list DepOpDesc * list GroupEntry) : Prop := {
gb_descs : acc.1 = pending_flags done <$> l0;
gb_ops : concat (op_ids <$> reverse acc.2) = filter known done;
gb_closed g : g ∈ acc.2 -> group_closed g;
gb_breaks i h g : acc.2 !! i = Some h -> acc.2 !! S i = Some g -> group_breaks g h
}.

Context (Hnd : NoDup (d_id <$> l0)) (Hlen : Z.of_nat (length l0) < 2 ^ 32).

Lemma op_index_spec id q : op_index l0 !! id = Some q <-> 0 <= q /\ (exists s, l0 !! Z.to_nat q = Some s /\ d_id s = id).
Proof.
unfold op_index. rewrite positions_spec by (split; [done|by rewrite length_fmap]). rewrite list_lookup_fmap_Some. naive_solver.
Qed.

Lemma op_index_known id : is_Some (op_index l0 !! id) <-> known id.
Proof.
unfold known. split.
- intros [q (_ & s & Hs & <-)%op_index_spec]. apply list_elem_of_fmap_2. by apply list_elem_of_lookup; eexists.
- intros (s & -> & (i & Hi)%list_elem_of_lookup)%list_elem_of_fmap. exists (Z.of_nat i). apply op_index_spec.
  split; [lia|]. exists s. by rewrite Nat2Z.id.
Qed.

Lemma crosses_spec g c : crosses (op_index l0) g c = true <-> known (src_id c) /\ src_id c ∉ g.
Proof.
unfold crosses. rewrite andb_true_iff, bool_decide_eq_true, negb_true_iff, bool_decide_eq_false, op_index_known. done.
Qed.

Lemma pending_step done oid i s :
l0 !! i = Some s -> d_id s = oid -> alter clear_pending i (pending_flags done <$> l0) = pending_flags (done ++ [oid]) <$> l0.
Proof.
intros Hi Hid. apply list_eq. intros j. destruct (decide (i = j)) as [<-|Hne].
- rewrite list_lookup_alter_eq, !list_lookup_fmap, Hi. cbn [fmap option_fmap option_map]. f_equal. unfold pending_flags.
  destruct (decide (d_id s ∈ done ++ [oid])) as [Hin|Hn]; [|set_solver]. unfold clear_pending, set_desc_flags. cbn.
  f_equal. by case_decide.
- rewrite list_lookup_alter_ne, !list_lookup_fmap by done. destruct (l0 !! j) as [x|] eqn:Hj; [|done]. cbn. f_equal.
  unfold pending_flags. f_equal. assert (d_id x <> oid).
  { intros E. apply Hne. eapply (NoDup_lookup (d_id <$> l0)); [done|by rewrite list_lookup_fmap, Hi|]. rewrite list_lookup_fmap, Hj.
    cbn. congruence. }
  destruct (decide (d_id x ∈ done)) as [Hd|Hd], (decide (d_id x ∈ done ++ [oid])) as [Hd'|Hd']; [done|set_solver|set_solver|done].
Qed.

Lemma group_op_ok done acc oid :
groups_built done acc -> groups_built (done ++ [oid]) (group_op (op_index l0) acc oid).
Proof.
destruct acc as [l gs]. intros [Hl Hops Hcl Hbr]. cbn [fst snd] in *. unfold group_op.
destruct (op_index l0 !! oid) as [q|] eqn:Eq.
2: { assert (~ known oid) as Hn by (rewrite <- op_index_known, Eq; intros [? ?]; done).
     split; cbn [fst snd]; [|rewrite filter_app, Hops, filter_cons_False by done; by rewrite filter_nil, app_nil_r|done|done].
     rewrite Hl. apply list_fmap_ext. intros i s Hs. unfold pending_flags. f_equal.
     assert (d_id s <> oid) by (intros <-; apply Hn; apply list_elem_of_fmap_2; by apply list_elem_of_lookup; eexists).
     destruct (decide (d_id s ∈ done)) as [Hd|Hd], (decide (d_id s ∈ done ++ [oid])) as [Hd'|Hd']; [done|set_solver|set_solver|done]. }
assert (known oid) as Hk by (rewrite <- op_index_known, Eq; done).
apply op_index_spec in Eq as Eq'. destruct Eq' as (Hq & s & Hs & Hid).
rewrite Hl, list_lookup_fmap, Hs. cbn [fmap option_fmap option_map pending_flags set_desc_flags d_flags opdef_ptr].
assert ((if decide (d_id s ∈ done) then 0x01 else 0x81) =? 0 = false) as -> by (by case_decide).
rewrite (pending_step done oid _ s Hs Hid).
assert (Hat : op_at oid = opdef_ptr s) by (unfold op_at; rewrite Eq; cbn; rewrite Hs; done).
assert (Hfil : filter known (done ++ [oid]) = filter known done ++ [oid]).
{ by rewrite filter_app, (filter_cons_True _ oid), filter_nil by done. }
assert (Hone : group_closed (mkGroupEntry [oid] 1)).
{ split_and!; [done|done|]. intros i id od c Hi. by destruct i. }
destruct gs as [|g gs].
{ split; cbn [fst snd]; [done| | |].
  - rewrite Hfil, <- Hops. done.
  - by intros ? ->%list_elem_of_singleton.
  - intros [|i] h g; done. }
destruct (match opdef_ptr s with Some od => existsb (crosses (op_index l0) (op_ids g)) (inputs od) | None => false end) eqn:Enew.
- destruct (opdef_ptr s) as [od|] eqn:Eod; [|done]. apply existsb_exists in Enew as (c & Hc%list_elem_of_In & (Hkc & Hnc)%crosses_spec).
  split; cbn [fst snd]; [done| | |].
  + rewrite Hfil, <- Hops, reverse_cons, fmap_app, concat_app. done.
  + intros h [->|Hh]%elem_of_cons; [done|by apply Hcl].
  + intros [|i] h g' Hi Hi'; cbn in Hi, Hi'; [|by eapply Hbr]. injection Hi as <-. injection Hi' as <-.
    exists oid, [], od, c. done.
- split; cbn [fst snd]; [done| | |].
  + rewrite Hfil, <- Hops, !reverse_cons, !fmap_app, !concat_app. cbn. by rewrite !app_nil_r, app_assoc.
  + intros h [->|Hh]%elem_of_cons; [|apply Hcl; set_solver]. destruct (Hcl g) as (Hne & Hcnt & Hin); [set_solver|].
    split_and!; cbn [op_ids op_count].
    * by destruct (op_ids g).
    * rewrite Hcnt, length_app. cbn [length]. unfold wrap. rewrite Zplus_mod_idemp_l. f_equal. lia.
    * intros i id od c Hi Hod Hc Hkc. apply lookup_app_Some in Hi as [Hi|[Hge Hi]].
      -- assert (S i < length (op_ids g))%nat by (by eapply lookup_lt_Some). rewrite take_app_le by lia. by eapply Hin.
      -- apply list_lookup_singleton_Some in Hi as [Hi <-]. rewrite Hat in Hod. rewrite Hod in Enew.
         rewrite take_app_le, take_ge by lia. destruct (decide (src_id c ∈ op_ids g)) as [|Hnc]; [done|exfalso].
         apply not_true_iff_false in Enew. apply Enew, existsb_exists. exists c. split; [by apply list_elem_of_In|].
         by apply crosses_spec.
  + intros [|i] h g' Hi Hi'; cbn in Hi, Hi'; [|by apply (Hbr (S i))]. injection Hi as <-.
    destruct (Hbr 0%nat g g') as (id & rest & od & c & E & ? & ? & ? & ?); [done|done|].
    exists id, (rest ++ [oid]), od, c. cbn [op_ids]. rewrite E. done.
Qed.
End groups.

Lemma prepare_groups_ok d ordering :
NoDup (d_id <$> opdescs d) -> Z.of_nat (length (opdescs d)) < 2 ^ 32 -> (forall s, s ∈ opdescs d -> d_flags s = 1) ->
opdescs d <> [] -> ordering <> [] ->
exists gs, groups_built (opdescs d) ordering (pending_flags ordering <$> opdescs d, reverse gs) /\
  prepare_group_entries ordering d = with_groups gs (with_opdescs (pending_flags ordering <$> opdescs d) d).
Proof.
intros Hnd Hlen Hf Hne Hne'. unfold prepare_group_entries. rewrite !bool_decide_false by done.
assert (op_index (mark_pending <$> opdescs d) = op_index (opdescs d)) as ->.
{ unfold op_index. rewrite <- list_fmap_compose. f_equal. apply list_fmap_ext. intros i s Hs. cbn.
  unfold mark_pending. by repeat case_match. }
assert (mark_pending <$> opdescs d = pending_flags [] <$> opdescs d) as ->.
{ apply list_fmap_ext. intros i s Hs. assert (d_flags s = 1) as E by (apply Hf; by apply list_elem_of_lookup; eexists).
  unfold mark_pending, pending_flags. rewrite E. done. }
assert (groups_built (opdescs d) ordering (foldl (group_op (op_index (opdescs d))) (pending_flags [] <$> opdescs d, []) ordering)) as H.
{ clear Hne'. induction ordering as [|oid l IH] using rev_ind; [split; cbn; [done|done|set_solver|done]|].
  rewrite foldl_app. cbn [foldl]. by apply group_op_ok. }
destruct (foldl _ _ ordering) as [l gs]. pose proof (gb_descs _ _ _ H) as Hl. cbn in Hl. subst l.
exists (reverse gs). by rewrite reverse_involutive.
Qed.
(** * Distances *)

Lemma repeated_value (f : nat -> nat) m :
(forall k, (k <= m)%nat -> (f k < m)%nat) -> exists a b, (a < b <= m)%nat /\ f a = f b.
Proof.
intros Hf. assert (~ NoDup (f <$> seq 0 (S m))) as Hnd.
{ intros Hnd. assert (f <$> seq 0 (S m) ⊆+ seq 0 m) as Hs%submseteq_length; [|rewrite length_fmap, !length_seq in Hs; lia].
  apply NoDup_submseteq; [done|]. intros x (k & -> & Hk%elem_of_seq)%list_elem_of_fmap. apply elem_of_seq.
  specialize (Hf k). lia. }
destruct (decide (Exists (fun b => Exists (fun a => f a = f b) (seq 0 b)) (seq 0 (S m)))) as [Hex|Hno].
- apply Exists_exists in Hex as (b & Hb%elem_of_seq & (a & Ha%elem_of_seq & E)%Exists_exists). exists a, b. split; [lia|done].
- exfalso. apply Hnd, NoDup_fmap_2_strong; [|apply NoDup_seq].
  assert (forall a b, (a < b <= m)%nat -> f a <> f b) as Hne.
  { intros a b Hab E. apply Hno, Exists_exists. exists b. split; [apply elem_of_seq; lia|].
    apply Exists_exists. exists a. split; [apply elem_of_seq; lia|done]. }
  intros a b Ha%elem_of_seq Hb%elem_of_seq E. destruct (lt_eq_lt_dec a b) as [[Hlt|]|Hlt]; [|done|].
  + by apply (Hne a b) in E; [|lia].
  + by symmetry in E; apply (Hne b a) in E; [|lia].
Qed.

Section distances.
Context (l1 : list DepOpDesc).

Definition parent (i : nat) : option nat :=
s ← l1 !! i; if predecessor s =? 0 then None else Some (Z.to_nat (predecessor s - 1)).

Definition dist (l : list DepOpDesc) (i : nat) : Z := default 0 (distance <$> l !! i).

(** The chain of first inputs. *)
Fixpoint ancestor (k i : nat) : option nat :=
match k with O => Some i | S k => j ← parent i; ancestor k j end.

(** The same descriptors but for the distances. *)
Definition same_but (l : list DepOpDesc) : Prop :=
length l = length l1 /\
forall i s, l !! i = Some s -> exists s1, l1 !! i = Some s1 /\ s = set_distance (distance s) (predecessor s1) s1.

Definition settled_at (l : list DepOpDesc) (i : nat) : Prop := forall j, parent i = Some j -> dist l j + 1 <= dist l i.

Definition goal_of (l : list DepOpDesc) (i : nat) : Z :=
match parent i with Some j => Z.max (dist l i) (dist l j + 1) | None => dist l i end.

Context (Hptr : forall s, s ∈ l1 -> is_Some (opdef_ptr s)).
Context (Hpred : forall s, s ∈ l1 -> 0 <= predecessor s <= Z.of_nat (length l1)).

Let n := length l1.

Lemma parent_lt i j : parent i = Some j -> (i < n)%nat /\ (j < n)%nat.
Proof.
unfold parent. destruct (l1 !! i) as [s|] eqn:E; [|done]. cbn.
assert (0 <= predecessor s <= Z.of_nat n) by (apply Hpred; by apply list_elem_of_lookup; eexists).
destruct (predecessor s =? 0) eqn:E0; [done|]. bool_prop. intros [= <-]. split; [by eapply lookup_lt_Some|lia].
Qed.

Lemma dist_alter l i j x p :
(i < length l)%nat -> dist (alter (set_distance x p) i l) j = if decide (i = j) then x else dist l j.
Proof.
intros Hi. unfold dist. destruct (decide (i = j)) as [<-|Hne].
- rewrite list_lookup_alter_eq. destruct (lookup_lt_is_Some_2 l i Hi) as [s ->]. done.
- by rewrite list_lookup_alter_ne.
Qed.

(** What is known of the distances and the largest one; [bnd] bounds them. *)
Record dist_inv (bnd : Z) (l : list DepOpDesc) (md : Z) : Prop := {
di_same : same_but l;
di_low i : (i < n)%nat -> Z.of_nat i <= dist l i <= md;
di_tight i : (i < n)%nat -> dist l i = Z.of_nat i \/ exists j, parent i = Some j /\ dist l i <= dist l j + 1;
di_max : n = 0%nat \/ exists i, (i < n)%nat /\ dist l i = md;
di_bnd : md <= bnd
}.

(** One distance raised to its goal. *)
Lemma dist_inv_step bnd l md l' md' i :
dist_inv bnd l md -> (i < n)%nat -> same_but l' -> dist l i <= goal_of l i <= md' -> md <= md' <= bnd + 1 ->
(forall x, dist l' x = if decide (i = x) then goal_of l i else dist l x) ->
(n = 0%nat \/ exists i, (i < n)%nat /\ dist l' i = md') -> dist_inv (bnd + 1) l' md'.
Proof.
intros [_ Hlow Htight _ _] Hi Hs' Hg Hmd Hd Hm. split; [done| | |done|lia].
- intros x Hx. rewrite Hd. specialize (Hlow x Hx). case_decide as Hix; [subst x; lia|lia].
- assert (Hge : forall x, dist l x <= dist l' x) by (intros x; rewrite Hd; case_decide; [subst; lia|lia]).
  intros x Hx. specialize (Hd x). destruct (decide (i = x)) as [<-|Hne].
  + unfold goal_of in *. destruct (parent i) as [j|] eqn:Ej.
    * destruct (Z.max_spec (dist l i) (dist l j + 1)) as [[_ Em]|[_ Em]]; rewrite Em in Hd.
      -- right. exists j. split; [done|]. specialize (Hge j). lia.
      -- destruct (Htight i Hx) as [Ht|(j' & Hj' & Ht)]; [left; lia|right]. assert (j' = j) as -> by congruence.
         exists j. split; [done|]. specialize (Hge j). lia.
    * destruct (Htight i Hx) as [Ht|(j' & Hj' & _)]; [left; lia|congruence].
  + destruct (Htight x Hx) as [Ht|(j & Hj & Ht)]; [left; lia|right]. exists j. split; [done|]. specialize (Hge j). lia.
Qed.

Lemma relax_spec bnd l md ch i :
dist_inv bnd l md -> bnd < 2 ^ 32 - 1 -> (i < n)%nat ->
exists l' md', relax (l, md, ch) i = (l', md', ch || (dist l i <? goal_of l i)) /\ dist_inv (bnd + 1) l' md' /\
  forall x, dist l' x = if decide (i = x) then goal_of l i else dist l x.
Proof.
intros Hinv Hb Hi. pose proof (dist_inv_step bnd l md) as Hmon. destruct (Hinv) as [[Hlen Hsame] Hlow Htight Hmax Hbnd].
destruct (lookup_lt_is_Some_2 l i) as [s Hs]; [lia|]. destruct (Hsame i s Hs) as (s1 & Hs1 & Es).
assert (dist l i = distance s) as Ed by (unfold dist; by rewrite Hs).
assert (is_Some (opdef_ptr s1)) as [od Hod] by (apply Hptr; by apply list_elem_of_lookup; eexists).
assert (opdef_ptr s = Some od /\ predecessor s = predecessor s1) as [Hod' Hp'] by (by rewrite Es).
unfold relax. rewrite Hs, Hod'. unfold pred_distance. rewrite Hp'.
assert (Hpar : parent i = if predecessor s1 =? 0 then None else Some (Z.to_nat (predecessor s1 - 1))) by (unfold parent; by rewrite Hs1).
destruct (predecessor s1 =? 0) eqn:E0.
{ exists l, md. assert (goal_of l i = dist l i) as Eg by (unfold goal_of; by rewrite Hpar). rewrite Eg, Z.ltb_irrefl, orb_false_r.
  split; [done|]. assert (forall x, dist l x = if decide (i = x) then dist l i else dist l x) as Hx by (intros x; case_decide; by subst).
  split; [|done]. apply (Hmon _ _ i); [done|done|done| |lia|by rewrite Eg|done]. specialize (Hlow i Hi). lia. }
destruct (parent_lt i _ Hpar) as [_ Hj]. set (j := Z.to_nat (predecessor s1 - 1)) in *.
destruct (lookup_lt_is_Some_2 l j) as [sj Hsj]; [lia|]. destruct (Hsame j sj Hsj) as (sj1 & Hsj1 & Esj).
assert (is_Some (opdef_ptr sj1)) as [odj Hodj] by (apply Hptr; by apply list_elem_of_lookup; eexists).
assert (opdef_ptr sj = Some odj) as Hodj' by (by rewrite Esj).
assert (dist l j = distance sj) as Edj by (unfold dist; by rewrite Hsj).
rewrite Hsj. cbn [mbind option_bind]. rewrite Hodj'. cbn [mbind option_bind].
pose proof (Hlow j Hj) as Hlj. pose proof (Hlow i Hi) as Hli. rewrite wrap_id by lia. rewrite <- Ed, <- Edj.
assert (goal_of l i = Z.max (dist l i) (dist l j + 1)) as Eg by (unfold goal_of; by rewrite Hpar).
destruct (dist l i <? dist l j + 1) eqn:Elt; bool_prop.
- rewrite (proj2 (Z.ltb_lt (dist l i) (goal_of l i))) by lia. rewrite orb_true_r.
  do 2 eexists. split; [done|].
  assert (forall x, dist (alter (set_distance (dist l j + 1) (predecessor s1)) i l) x = if decide (i = x) then goal_of l i else dist l x) as Hd.
  { intros x. rewrite dist_alter by lia. case_decide; [lia|done]. }
  split; [|exact Hd]. apply (Hmon _ _ i); [done|done| | | |exact Hd|].
  + split; [by rewrite length_alter|]. intros x sx Hx. destruct (decide (i = x)) as [<-|Hne].
    * rewrite list_lookup_alter_eq, Hs in Hx. injection Hx as <-. exists s1. split; [done|]. rewrite Es. done.
    * rewrite list_lookup_alter_ne in Hx by done. by apply Hsame.
  + case_match; bool_prop; lia.
  + case_match; bool_prop; lia.
  + right. destruct Hmax as [|(y & Hy & Ey)]; [lia|]. destruct (md <? dist l j + 1) eqn:Em; bool_prop.
    * exists i. split; [done|]. rewrite Hd, decide_True by done. lia.
    * exists y. split; [done|]. rewrite Hd. case_decide; [subst y|done]. lia.
- assert (goal_of l i = dist l i) as Eg' by lia. rewrite Eg', Z.ltb_irrefl, orb_false_r. exists l, md. split; [done|].
  assert (forall x, dist l x = if decide (i = x) then dist l i else dist l x) as Hx by (intros x; case_decide; by subst).
  split; [|done]. apply (Hmon _ _ i); [done|done|done|lia|lia|by rewrite Eg'|done].
Qed.
(** One pass: the ops whose inputs have settled settle, and a pass that
    changes nothing finds every op settled. *)
Lemma relax_sweep bnd l md k :
dist_inv bnd l md -> bnd + Z.of_nat k < 2 ^ 32 -> (k <= n)%nat ->
exists l' md' ch, foldl relax (l, md, false) (seq 0 k) = (l', md', ch) /\ dist_inv (bnd + Z.of_nat k) l' md' /\
  (ch = false -> (forall x, dist l' x = dist l x) /\ forall x, (x < k)%nat -> settled_at l x) /\
  (ch = true -> exists x, (x < n)%nat /\ ~ settled_at l x) /\
  (forall t, (forall x, (x < n)%nat -> ancestor t x = None -> settled_at l x) ->
     (forall x, (x < n)%nat -> ancestor t x = None -> dist l' x = dist l x) /\
     (forall x, (x < k)%nat -> ancestor (S t) x = None -> settled_at l' x)).
Proof.
intros Hinv Hb. induction k as [|k IH]; intros Hk.
{ exists l, md, false. cbn [seq foldl]. rewrite Z.add_0_r. split_and!; [done|done|split; [done|lia]|done|]. intros t Ht. split; [done|lia]. }
destruct IH as (l1' & md1 & ch & E & Hinv1 & Hf & Ht & Hset); [lia|lia|]. rewrite seq_S, foldl_app, E. cbn [foldl Nat.add].
destruct (relax_spec (bnd + Z.of_nat k) l1' md1 ch k Hinv1) as (l2 & md2 & -> & Hinv2 & Hd); [lia|lia|].
assert (Hgoal : goal_of l1' k = dist l1' k <-> settled_at l1' k).
{ unfold goal_of, settled_at. destruct (parent k) as [j|]; [|split; [intros _ j [=]|done]].
  split; [intros Hg j' [= <-]; lia|intros Hs; specialize (Hs j eq_refl); lia]. }
assert (Hgle : dist l1' k <= goal_of l1' k) by (unfold goal_of; case_match; lia).
exists l2, md2. eexists. split; [done|]. split; [by replace (bnd + Z.of_nat (S k)) with (bnd + Z.of_nat k + 1) by lia|].
assert (Hsame : forall x, (forall x, dist l1' x = dist l x) -> settled_at l1' x <-> settled_at l x).
{ intros x Hx. unfold settled_at. by setoid_rewrite Hx. }
split_and!.
- intros [-> Hlt]%orb_false_iff. bool_prop. destruct (Hf eq_refl) as [Heq Hpre].
  assert (goal_of l1' k = dist l1' k) as Eg by lia. split.
  + intros x. rewrite Hd. case_decide; [subst x; by rewrite Eg|done].
  + intros x Hx. destruct (decide (x = k)) as [->|]; [|apply Hpre; lia]. apply Hsame; [done|]. by apply Hgoal.
- destruct ch; [intros _; by apply Ht|]. cbn [orb]. intros Hlt. bool_prop. destruct (Hf eq_refl) as [Heq _].
  exists k. split; [lia|]. rewrite <- (Hsame k Heq), <- Hgoal. lia.
- intros t Hanc. destruct (Hset t Hanc) as [Hkeep Hnew].
  assert (Hk0 : ancestor t k = None -> goal_of l1' k = dist l1' k).
  { intros Ea. apply Hgoal. unfold settled_at. intros j Hj. assert (settled_at l k) as Hs by (apply Hanc; [lia|done]).
    rewrite (Hkeep k), (Hkeep j); [by apply Hs|apply (parent_lt k j Hj)| |lia|done].
    destruct t as [|t]; [done|]. cbn in Ea. rewrite Hj in Ea. cbn in Ea. clear -Ea Hpred.
    revert j Ea. induction t as [|t IHt]; intros j Ea; [done|]. cbn in *. destruct (parent j); [by apply IHt|done]. }
  split.
  + intros x Hx Ea. rewrite Hd. case_decide; [subst x; rewrite Hk0 by done|]; by apply Hkeep.
  + intros x Hx Ea j Hj. cbn in Ea. rewrite Hj in Ea. cbn in Ea. destruct (parent_lt x j Hj) as [_ Hjn].
    assert (dist l2 j = dist l1' j) as Ej.
    { rewrite Hd. case_decide; [subst j; by apply Hk0|done]. }
    rewrite Ej, Hd. case_decide as Hkx.
    * subst x. unfold goal_of. rewrite Hj. lia.
    * assert (settled_at l1' x) as Hs; [|by apply Hs]. apply Hnew; [lia|]. cbn. by rewrite Hj.
Qed.

Lemma ancestor_None t x : ancestor t x = None -> ancestor (S t) x = None.
Proof.
revert x. induction t as [|t IH]; intros x; [done|]. intros E. cbn in E |- *. destruct (parent x) as [j|]; [|done].
cbn in *. by apply IH.
Qed.

Lemma ancestor_None_le t t' x : (t <= t')%nat -> ancestor t x = None -> ancestor t' x = None.
Proof. induction 1 as [|t' _ IH]; [done|]. intros E. by apply ancestor_None, IH. Qed.

Definition unsettled (l : list DepOpDesc) : Prop := exists x, (x < n)%nat /\ ~ settled_at l x.

(** The loop, from a state in which the ops less than [t] inputs away from
    a source have settled. *)
Lemma relax_loop_spec limit t bnd l md :
dist_inv bnd l md -> bnd + Z.of_nat limit * Z.of_nat n < 2 ^ 32 ->
(forall x, (x < n)%nat -> ancestor t x = None -> settled_at l x) ->
exists l' md' ch, relax_loop limit l md = (l', md', ch) /\ dist_inv (bnd + Z.of_nat limit * Z.of_nat n) l' md' /\
  (ch = false -> forall x, (x < n)%nat -> settled_at l' x) /\
  (ch = true -> (forall x, (x < n)%nat -> ancestor (t + limit) x = None -> settled_at l' x) /\
                (limit = 0%nat \/ exists x, (x < n)%nat /\ ancestor (t + limit - 1) x <> None)).
Proof.
revert t bnd l md. induction limit as [|limit IH]; intros t bnd l md Hinv Hb Hanc.
{ exists l, md, true. rewrite Nat.add_0_r. cbn [relax_loop]. rewrite Z.mul_0_l, Z.add_0_r.
  split_and!; [done|done|done|]. intros _. split; [exact Hanc|by left]. }
cbn [relax_loop relax_all]. destruct Hinv as [[Hlen Hsame] Hlow Htight Hmax Hbnd] eqn:EI. clear EI.
assert (dist_inv bnd l md) as Hinv' by done. rewrite Hlen. fold n.
destruct (relax_sweep bnd l md n Hinv') as (l' & md' & ch & -> & Hinv1 & Hf & Ht & Hset); [nia|lia|].
destruct (Hset t Hanc) as [_ Hnew]. destruct ch.
- destruct (IH (S t) _ _ _ Hinv1) as (l2 & md2 & ch2 & -> & Hinv2 & Hf2 & Ht2); [nia|done|].
  exists l2, md2, ch2. split; [done|]. split.
  { replace (bnd + Z.of_nat (S limit) * Z.of_nat n) with (bnd + Z.of_nat n + Z.of_nat limit * Z.of_nat n) by lia. done. }
  split; [done|]. intros E. destruct (Ht2 E) as [H1 H2]. rewrite <- Nat.add_succ_comm. split; [done|]. right.
  destruct H2 as [->|]; [|done]. destruct (Ht eq_refl) as (x & Hx & Hns). exists x. split; [done|].
  replace (S t + 0 - 1)%nat with t by lia. intros Ea. by apply Hns, Hanc.
- exists l', md', false. split_and!; [done| | |done].
  { destruct Hinv1 as [H1 H2 H3 H4 H5]. split; [done|done|done|done|lia]. }
  intros _ x Hx. destruct (Hf eq_refl) as [Heq Hall]. unfold settled_at. setoid_rewrite Heq. by apply Hall.
Qed.
Lemma ancestor_add a b x : ancestor (a + b) x = (y ← ancestor a x; ancestor b y).
Proof.
revert x. induction a as [|a IH]; intros x; [done|]. cbn. destruct (parent x) as [j|]; [|done]. cbn. apply IH.
Qed.

(** A chain of first inputs that never ends. *)
Definition endless (x : nat) : Prop := forall k, ancestor k x <> None.

Lemma ancestor_lt k x y : (x < n)%nat -> ancestor k x = Some y -> (y < n)%nat.
Proof.
revert x. induction k as [|k IH]; intros x Hx; [by intros [= <-]|]. cbn. destruct (parent x) as [j|] eqn:Ej; [|done]. cbn.
apply IH. by eapply parent_lt.
Qed.

Lemma long_chain_endless x : (x < n)%nat -> ancestor n x <> None -> exists y, (y < n)%nat /\ endless y.
Proof.
intros Hx Hn. assert (Hsome : forall k, (k <= n)%nat -> exists y, ancestor k x = Some y).
{ intros k Hk. destruct (ancestor k x) as [y|] eqn:E; [by exists y|]. exfalso. by apply Hn, (ancestor_None_le k n). }
destruct (repeated_value (fun k => default 0%nat (ancestor k x)) n) as (a & b & Hab & E).
{ intros k Hk. destruct (Hsome k Hk) as [y Hy]. rewrite Hy. cbn. by eapply ancestor_lt. }
destruct (Hsome a) as [y Ey]; [lia|]. destruct (Hsome b) as [y' Ey']; [lia|]. rewrite Ey, Ey' in E. cbn in E. subst y'.
exists y. split; [by eapply ancestor_lt|].
assert (ancestor (b - a) y = Some y) as Hcyc.
{ replace b with (a + (b - a))%nat in Ey' by lia. rewrite ancestor_add, Ey in Ey'. done. }
assert (forall q, ancestor (q * (b - a)) y = Some y) as Hq.
{ induction q as [|q IH]; [done|]. cbn [Nat.mul]. rewrite ancestor_add, Hcyc. done. }
intros k Ek. specialize (Hq k). rewrite (ancestor_None_le k) in Hq; [done|nia|done].
Qed.

Lemma endless_unsettled l md bnd x :
dist_inv bnd l md -> (x < n)%nat -> endless x -> ~ (forall y, (y < n)%nat -> settled_at l y).
Proof.
intros [_ Hlow _ _ _] Hx He Hall.
assert (forall k y, ancestor k x = Some y -> Z.of_nat k + dist l y <= dist l x) as Hgo.
{ clear He. revert Hx. revert x. intros x Hx k. revert x Hx. induction k as [|k IH]; intros x Hx y; [intros [= <-]; lia|].
  cbn. destruct (parent x) as [j|] eqn:Ej; [|done]. cbn. intros Hy. specialize (IH j (proj2 (parent_lt x j Ej)) y Hy).
  specialize (Hall x Hx j Ej). lia. }
destruct (ancestor (S (Z.to_nat (dist l x))) x) as [y|] eqn:E; [|by apply He in E].
specialize (Hgo _ _ E). pose proof (Hlow x Hx). pose proof (Hlow y (ancestor_lt _ _ _ Hx E)). lia.
Qed.
End distances.

(** The index of the op that the first input comes from. *)
Definition first_source (l : list DepOpDesc) (i : nat) : option nat :=
s ← l !! i; od ← opdef_ptr s; c ← head (inputs od); q ← op_index l !! src_id c; Some (Z.to_nat q).

(** The chain of first inputs of op [i] ends. *)
Definition ends (l : list DepOpDesc) (i : nat) : Prop :=
exists k, ancestor (imap (start_distance (op_index l)) l) k i = None.

Section set_distances.
Context (d : GraphDeps) (Hnd : NoDup (d_id <$> opdescs d)) (Hlen : Z.of_nat (length (opdescs d)) <= 32750).
Context (Hptr : forall s, s ∈ opdescs d -> is_Some (opdef_ptr s)).

Let l0 := opdescs d.
Let l1 := imap (start_distance (op_index l0)) l0.

Lemma started i s :
l0 !! i = Some s -> exists od, opdef_ptr s = Some od /\ l1 !! i = Some (start_distance (op_index l0) i s) /\
  opdef_ptr (start_distance (op_index l0) i s) = Some od.
Proof.
intros Hi. destruct (Hptr s) as [od Hod]; [by apply list_elem_of_lookup; eexists|]. exists od. split; [done|].
unfold l1. rewrite list_lookup_imap, Hi. split; [done|]. unfold start_distance. by rewrite Hod.
Qed.

Lemma started_elem s : s ∈ l1 -> is_Some (opdef_ptr s) /\ 0 <= predecessor s <= Z.of_nat (length l1).
Proof.
intros (i & Hi)%list_elem_of_lookup. unfold l1 in Hi. rewrite list_lookup_imap in Hi.
destruct (l0 !! i) as [s0|] eqn:E; [|done]. injection Hi as <-. destruct (started i s0 E) as (od & Hod & _ & ->).
split; [done|]. unfold start_distance. rewrite Hod. cbn [predecessor set_distance]. unfold l1. rewrite length_imap.
destruct (inputs od) as [|c cs]; [lia|]. destruct (op_index l0 !! src_id c) as [q|] eqn:Eq; [|lia].
apply (op_index_spec l0 Hnd) in Eq as (Hq & s' & Hs' & _); [|fold l0 in Hlen; lia]. apply lookup_lt_Some in Hs'. fold l0 in Hlen. rewrite wrap_id; lia.
Qed.

Lemma parent_first_source i : parent l1 i = first_source l0 i.
Proof.
unfold parent, first_source. destruct (l0 !! i) as [s|] eqn:E.
2: { unfold l1. by rewrite list_lookup_imap, E. }
destruct (started i s E) as (od & Hod & -> & _). cbn [mbind option_bind]. rewrite Hod. cbn [mbind option_bind].
unfold start_distance. rewrite Hod. cbn [predecessor set_distance]. destruct (inputs od) as [|c cs]; [done|].
cbn [head mbind option_bind]. destruct (op_index l0 !! src_id c) as [q|] eqn:Eq; [|done].
apply (op_index_spec l0 Hnd) in Eq as (Hq & s' & Hs' & _); [|fold l0 in Hlen; lia]. apply lookup_lt_Some in Hs'. fold l0 in Hlen.
rewrite wrap_id by lia. cbn [mbind option_bind]. rewrite (proj2 (Z.eqb_neq _ _)) by lia. f_equal. lia.
Qed.

Lemma start_dist i : (i < length l0)%nat -> dist l1 i = Z.of_nat i.
Proof.
intros Hi. destruct (lookup_lt_is_Some_2 l0 i Hi) as [s Hs]. destruct (started i s Hs) as (od & Hod & El & _).
unfold dist. rewrite El. cbn. unfold start_distance. rewrite Hod. cbn. fold l0 in Hlen. rewrite wrap_id; lia.
Qed.

Definition start_max : Z :=
foldl Z.max 0 (imap (fun i s => match opdef_ptr s with Some _ => u32 (Z.of_nat i) | None => 0 end) l0).

Lemma start_max_eq : l0 <> [] -> start_max = Z.of_nat (length l0) - 1.
Proof.
intros Hne. unfold start_max.
assert (imap (fun i s => match opdef_ptr s with Some _ => u32 (Z.of_nat i) | None => 0 end) l0 = Z.of_nat <$> seq 0 (length l0)) as ->.
{ apply list_eq. intros i. rewrite list_lookup_imap, list_lookup_fmap. destruct (l0 !! i) as [s|] eqn:E.
  - pose proof (lookup_lt_Some _ _ _ E). rewrite lookup_seq_lt by done. cbn. destruct (started i s E) as (od & -> & _).
    fold l0 in Hlen. rewrite wrap_id by lia. done.
  - apply lookup_ge_None in E. rewrite lookup_seq_ge by done. done. }
assert (forall m, (0 < m)%nat -> foldl Z.max 0 (Z.of_nat <$> seq 0 m) = Z.of_nat m - 1) as Hm.
{ induction m as [|m IH]; [lia|]. intros _. rewrite seq_S, fmap_app, foldl_app. cbn.
  destruct m as [|m]; [done|]. rewrite IH by lia. lia. }
apply Hm. destruct l0; [done|cbn; lia].
Qed.

Lemma start_inv : l0 <> [] -> dist_inv l1 (Z.of_nat (length l0)) l1 start_max.
Proof.
intros Hne. rewrite start_max_eq by done. assert (length l1 = length l0) as El by (unfold l1; apply length_imap).
split; rewrite ?El.
- split; [done|]. intros i s Hi. exists s. split; [done|]. by destruct s.
- intros i Hi. rewrite start_dist by done. lia.
- intros i Hi. left. by apply start_dist.
- right. exists (length l0 - 1)%nat. assert (0 < length l0)%nat by (destruct l0; [done|cbn; lia]). rewrite start_dist by lia. lia.
- lia.
Qed.

(** The pass reports a loop exactly when a chain of first inputs never
    ends, and otherwise leaves the distances where they have settled. *)
Lemma set_distances_spec :
l0 <> [] ->
exists d' ok, set_distances_from_constraints d = (d', ok) /\ same_but l1 (opdescs d') /\
  (ok = true <-> forall i, (i < length l0)%nat -> ends l0 i) /\
  d' = (if ok then with_distances 2 (max_distance d') (with_opdescs (opdescs d') d) else with_opdescs (opdescs d') d) /\
  (ok = true ->
    (forall i, (i < length l0)%nat ->
       dist (opdescs d') i = match first_source l0 i with
                             | Some j => Z.max (Z.of_nat i) (dist (opdescs d') j + 1)
                             | None => Z.of_nat i
                             end /\ dist (opdescs d') i <= max_distance d') /\
    exists i, (i < length l0)%nat /\ dist (opdescs d') i = max_distance d').
Proof.
intros Hne. set (n := length l0). assert (length l1 = n) as Hl1 by (unfold l1; apply length_imap).
assert (0 < n)%nat as Hn by (unfold n; destruct l0; [done|cbn; lia]). fold l0 n in Hlen.
set (lim := Z.to_nat (loop_limit (u32 (Z.of_nat n)))).
assert (lim = 4 * n + 16)%nat as Elim by (unfold lim, loop_limit; unwrap; lia).
destruct (relax_loop_spec l1 (fun s Hs => proj1 (started_elem s Hs)) (fun s Hs => proj2 (started_elem s Hs))
            lim 0 (Z.of_nat n) l1 start_max) as (l' & md' & ch & E & Hinv & Hf & Ht);
  [by apply start_inv|rewrite Hl1, Elim; nia|by intros|].
rewrite Hl1 in *.
assert (set_distances_from_constraints d = if ch then (with_opdescs l' d, false) else (with_distances 2 md' (with_opdescs l' d), true)) as ->.
{ unfold set_distances_from_constraints. fold l0. unfold start_max in E. unfold lim, n in E. unfold l1 in E.
  destruct l0 as [|s0 rest] eqn:E0; [done|]. rewrite <- E0 in *. rewrite E. done. }
assert (Hloop : ch = true <-> exists i, (i < n)%nat /\ endless l1 i).
{ split.
  - intros ->. destruct (Ht eq_refl) as [_ [H0|(x & Hx & Hc)]]; [lia|].
    destruct (long_chain_endless l1 (fun s Hs => proj2 (started_elem s Hs)) x) as (y & Hy & He); rewrite ?Hl1 in *;
      [done| |by exists y]. intros Ea. apply Hc. apply (ancestor_None_le l1 n); [lia|done].
  - intros (x & Hx & He). destruct ch; [done|]. exfalso.
    eapply (endless_unsettled l1 (fun s Hs => proj2 (started_elem s Hs)) l' md' _ x Hinv); rewrite ?Hl1; [done|done|by apply Hf]. }
destruct ch.
- exists (with_opdescs l' d), false. cbn [opdescs with_opdescs]. split; [done|]. split; [apply Hinv|]. split; [|done].
  split; [done|]. intros Hall. exfalso. destruct (proj1 Hloop eq_refl) as (x & Hx & He). destruct (Hall x Hx) as [k Hk]. by apply (He k).
- exists (with_distances 2 md' (with_opdescs l' d)), true. cbn [opdescs with_opdescs with_distances max_distance].
  split; [done|]. split; [apply Hinv|]. split; [|split; [done|]].
  + split; [|done]. intros _ i Hi. exists n. fold l1. destruct (ancestor l1 n i) as [y|] eqn:Ey; [|done].
    destruct (long_chain_endless l1 (fun s Hs => proj2 (started_elem s Hs)) i) as (z & Hz & He); rewrite ?Hl1 in *; [done|congruence|].
    assert (false = true) by (apply Hloop; by exists z). done.
  + intros _. destruct Hinv as [_ Hlow Htight Hmax _]. rewrite Hl1 in *. split; [|destruct Hmax as [|(y & ? & ?)]; [lia|by exists y]].
    intros i Hi. rewrite <- parent_first_source. specialize (Hf eq_refl i Hi). pose proof (Hlow i Hi). split; [|lia].
    unfold settled_at in Hf. destruct (Htight i Hi) as [Et|(j & Hj & Et)].
    * destruct (parent l1 i) as [j|] eqn:Ej; [|done]. specialize (Hf j eq_refl). lia.
    * rewrite Hj in *. specialize (Hf j eq_refl). lia.
Qed.
End set_distances.

(** * Claims *)

(** A chain of three ops; the first output is read by both others. *)
Definition demo_out (n : Z) : OutputDef := mkOutputDef 2 2 [4; n; 0; 0; 0] 2.
Definition demo_conn (id : op_id_t) : InputConn := mkInputConn id 0 (demo_out 1).
Definition demo_ops : list OpDef :=
  [mkOpDef 1 1 None (demo_out 100) [] [2; 3]; mkOpDef 2 1 None (demo_out 200) [demo_conn 1] [3];
   mkOpDef 3 1 None (demo_out 50) [demo_conn 2; demo_conn 1] []].
Definition demo_order : list op_id_t := [1; 2; 3].

(** C18: with at most 32750 ops, the distances settle or a loop is reported,
    and never both: the pass
    fails exactly when some op's chain of first inputs never ends; otherwise
    every distance is the larger of the op's index and one more than the
    distance of its first input, and the recorded maximum is the largest. *)
Theorem set_distances_settle_or_loop d :
NoDup (d_id <$> opdescs d) -> Z.of_nat (length (opdescs d)) <= 32750 ->
(forall s, s ∈ opdescs d -> is_Some (opdef_ptr s)) -> opdescs d <> [] ->
exists d' ok, set_distances_from_constraints d = (d', ok) /\
  (ok = true <-> forall i, (i < length (opdescs d))%nat -> ends (opdescs d) i) /\
  (ok = true ->
    (forall i, (i < length (opdescs d))%nat ->
       dist (opdescs d') i = match first_source (opdescs d) i with
                             | Some j => Z.max (Z.of_nat i) (dist (opdescs d') j + 1)
                             | None => Z.of_nat i
                             end /\ dist (opdescs d') i <= max_distance d') /\
    exists i, (i < length (opdescs d))%nat /\ dist (opdescs d') i = max_distance d').
Proof.
intros Hnd Hlen Hptr Hne. destruct (set_distances_spec d Hnd Hlen Hptr Hne) as (d' & ok & E & _ & Hok & _ & Hd).
exists d', ok. done.
Qed.

(** Two ops that read each other first, and the same ops without the second
    connection. *)
Definition pair_of (second : list InputConn) : GraphDeps :=
  with_opdescs (new_desc <$> [mkOpDef 1 1 None (demo_out 1) [demo_conn 2] [2]; mkOpDef 2 1 None (demo_out 1) second [1]]) new_deps.

Lemma set_distances_settle_or_loop_witness :
(set_distances_from_constraints (pair_of [demo_conn 1])).2 = false /\
exists d', set_distances_from_constraints (pair_of []) = (d', true) /\ dist (opdescs d') 0 = 2.
Proof.
split; [by vm_compute|].
destruct (set_distances_settle_or_loop (pair_of [])) as (d' & ok & E & _ & Hd).
- by apply (bool_decide_unpack _); vm_compute.
- vm_compute. discriminate.
- intros s. unfold pair_of. cbn. rewrite !elem_of_cons, elem_of_nil. intros [->|[->|[]]]; by eexists.
- discriminate.
- assert (ok = true) as Hok by (change ok with (d', ok).2; rewrite <- E; by vm_compute).
  subst ok. exists d'. split; [exact E|]. destruct (Hd eq_refl) as [H _].
  rewrite (proj1 (H 0%nat ltac:(vm_compute; lia))).
  change (first_source (opdescs (pair_of [])) 0) with (Some 1%nat). cbn iota beta.
  rewrite (proj1 (H 1%nat ltac:(vm_compute; lia))).
  change (first_source (opdescs (pair_of [])) 1) with (@None nat). reflexivity.
Defined.
