(* ===== verification/DepsBuild.v ===== *)
(** All steps of the dependency graph together: what [build_graph_deps]
    makes of the live ops before the scheduler is called. *)
From S2P Require Import Prelude Ir DdrOffsets OpDescHash GraphDeps.

(** * The whole construction *)

(** The lifetime of an op at position [p]. *)
Lemma use_interval ordering (Ho : order_ok ordering) od p :
ordering !! p = Some (op_id od) ->
let fu := use_of (positions ordering) (op_id od) in
let lu := last_use_of (positions ordering) fu (consumers od) in
fu = Z.of_nat p /\ fu <= lu /\ (forall c q, c ∈ consumers od -> ordering !! q = Some c -> Z.of_nat q <= lu) /\
(lu = Z.of_nat p \/ exists c q, c ∈ consumers od /\ ordering !! q = Some c /\ lu = Z.of_nat q).
Proof.
intros Hp fu lu. assert (Hpos : forall q id, ordering !! q = Some id -> positions ordering !! id = Some (Z.of_nat q)).
{ intros q id Hq. apply positions_spec; [done|]. rewrite Nat2Z.id. split; [lia|done]. }
assert (fu = Z.of_nat p) as Hfu by (unfold fu, use_of; by rewrite (Hpos p)).
destruct (last_use_spec (positions ordering) fu (consumers od)) as (H1 & H2 & H3). fold lu in H1, H2, H3.
split_and!; [done|done| |].
- intros c q Hc Hq. by apply (H2 c), Hpos.
- destruct H3 as [H3|(c & Hc & Hq)]; [left; lia|right]. apply positions_spec in Hq as [H0 Hq]; [|done].
  exists c, (Z.to_nat lu). split_and!; [done|done|lia].
Qed.

Section build.
Context (ordering : list op_id_t) (ods : list OpDef).
Hypotheses (Hnd : NoDup (op_id <$> ods)) (Hlen : Z.of_nat (length ods) <= 32750) (Hne : ods <> []) (Hord : ordering <> []).

(** The descriptor of the [i]th op before the distances and the sizes. *)
Definition built_desc (flag : Z) (outs : list Z) (od : OpDef) : DepOpDesc :=
let fu := use_of (positions ordering) (op_id od) in
mkDesc (op_id od) (Some od) flag fu (last_use_of (positions ordering) fu (consumers od)) (accesses od) 0 0 [] outs 0 0.

Definition flag_of (od : OpDef) : Z := if decide (op_id od ∈ ordering) then 0x01 else 0x81.

Definition one_group (i : nat) : list Z := [u32 (Z.of_nat i)].
Definition two_groups (i : nat) : list Z := [u32 (Z.of_nat i); u32 (Z.of_nat i)].

Lemma imap_ids (f : nat -> OpDef -> DepOpDesc) :
(forall i od, d_id (f i od) = op_id od) -> d_id <$> imap f ods = op_id <$> ods.
Proof.
intros H. apply list_eq. intros i. rewrite !list_lookup_fmap, list_lookup_imap. destruct (ods !! i); [|done]. cbn. by rewrite H.
Qed.

Lemma lifetimes_stage d :
added ods d ->
let d1 := compute_lifetimes ordering (build_memgroups d) in
opdescs d1 = imap (fun i od => built_desc 1 (one_group i) od) ods /\ memgroups d1 = imap memgroup_of ods /\
opdesc_hash d1 = opdesc_hash d /\ ordering_state d1 = 0 /\
lifetimes d1 = info_of <$> imap (fun i od => built_desc 1 (one_group i) od) ods /\
peak_tcm_use d1 = 0 /\ largest_tcm_op_size d1 = 0.
Proof.
intros Had. destruct (build_memgroups_spec ods d Had) as [Ed Em]. destruct Had as [_ _ _ _ (_ & _ & Est & Epk)].
cbn zeta. unfold compute_lifetimes. rewrite bool_decide_false by done. cbn [opdescs with_lifetimes with_opdescs memgroups opdesc_hash ordering_state lifetimes peak_tcm_use largest_tcm_op_size].
assert (life_of (positions ordering) <$> opdescs (build_memgroups d) = imap (fun i od => built_desc 1 (one_group i) od) ods) as El.
{ rewrite Ed. apply list_eq. intros i. rewrite list_lookup_fmap, !list_lookup_imap. by destruct (ods !! i). }
rewrite El, Em. unfold build_memgroups. destruct (foldl add_memgroup _ _) as [[l mgs] m]. cbn.
split; [done|]. split; [done|]. split; [done|]. split; [done|]. split; [|done]. f_equal. apply list_filter_all_true.
intros s (i & Hi)%list_elem_of_lookup. rewrite list_lookup_imap in Hi. destruct (ods !! i); [|done]. by injection Hi as <-.
Qed.

Lemma find_added d id s :
added ods d -> contents (opdesc_hash d) !! id = Some s <-> exists od, od ∈ ods /\ op_id od = id /\ s = new_desc od.
Proof.
intros [_ _ Hc _ _]. rewrite Hc, map_of_lookup by (by rewrite new_desc_ids). rewrite list_elem_of_fmap. naive_solver.
Qed.

Lemma group_step_identity d :
(forall s, s ∈ opdescs d -> Z.land (d_flags s) 0x20 = 0) -> remove_unused_ops d = d.
Proof.
intros Hf. unfold remove_unused_ops.
assert (foldl remove_unused ([], memgroups d) (opdescs d) = (opdescs d, memgroups d)) as ->.
{ assert (forall l done, (forall s, s ∈ l -> Z.land (d_flags s) 0x20 = 0) ->
    foldl remove_unused (done, memgroups d) l = (done ++ l, memgroups d)) as H; [|by apply (H (opdescs d) [])].
  induction l as [|s l IH]; intros dn Hs; [by rewrite app_nil_r|]. cbn [foldl]. unfold remove_unused at 2.
  rewrite Hs by set_solver. cbn. rewrite IH by set_solver. by rewrite <- app_assoc. }
by destruct d.
Qed.

(** The second removal does nothing to any state. *)
Lemma remove_unused_checked_id d s : remove_unused_checked d s = s.
Proof.
unfold remove_unused_checked. destruct (negb _); [done|].
destruct (bool_decide (input_memgroups s = [])), (bool_decide (output_memgroups s = [])); done.
Qed.
(** ** The groups, in terms of the ops *)

Definition known_op (id : op_id_t) : Prop := id ∈ op_id <$> ods.

(** The groups cut the ordering up; an op that is not the first of its
    group reads, of the known ops, only earlier ones of the group; and the
    first op of a later group reads a known op outside the group before. *)
Record groups_partition (gs : list GroupEntry) : Prop := {
gp_cut : concat (op_ids <$> gs) = filter known_op ordering;
gp_nonempty g : g ∈ gs -> op_ids g <> [] /\ op_count g = u32 (Z.of_nat (length (op_ids g)));
gp_closed g i od c : g ∈ gs -> op_ids g !! S i = Some (op_id od) -> od ∈ ods -> c ∈ inputs od ->
  known_op (src_id c) -> src_id c ∈ take (S i) (op_ids g);
gp_breaks i g h : gs !! i = Some g -> gs !! S i = Some h ->
  exists od rest c, od ∈ ods /\ op_ids h = op_id od :: rest /\ c ∈ inputs od /\ known_op (src_id c) /\ src_id c ∉ op_ids g
}.

Lemma groups_of_ops f done gs :
(forall i od, d_id (f i od) = op_id od /\ opdef_ptr (f i od) = Some od) ->
groups_built (imap f ods) ordering (done, reverse gs) -> groups_partition gs.
Proof.
intros Hf [_ Hops Hcl Hbr]. cbn [fst snd] in *. rewrite reverse_involutive in Hops.
assert (Hids : d_id <$> imap f ods = op_id <$> ods) by (apply imap_ids; intros; apply Hf).
assert (Hk : forall id, known (imap f ods) id <-> known_op id) by (intros id; unfold known; by rewrite Hids).
assert (Hnd' : NoDup (d_id <$> imap f ods)) by (by rewrite Hids).
assert (Hl' : Z.of_nat (length (imap f ods)) < 2 ^ 32) by (rewrite length_imap; lia).
assert (Hat : forall id od, op_at (imap f ods) id = Some od <-> od ∈ ods /\ op_id od = id).
{ intros id od. unfold op_at. split.
  - intros (q & Hq & (s & Hs & Ho)%bind_Some)%bind_Some. apply (op_index_spec _ Hnd' Hl') in Hq as (_ & s' & Hs' & <-).
    assert (s' = s) as -> by congruence. rewrite list_lookup_imap in Hs. destruct (ods !! Z.to_nat q) as [x|] eqn:Ex; [|done].
    cbn in Hs. injection Hs as <-. destruct (Hf (Z.to_nat q) x) as [E1 E2]. rewrite E2 in Ho. injection Ho as ->.
    split; [|by rewrite E1]. apply list_elem_of_lookup. by eexists.
  - intros [(i & Hi)%list_elem_of_lookup <-]. destruct (Hf i od) as [E1 E2].
    assert (imap f ods !! i = Some (f i od)) as Hfi by (rewrite list_lookup_imap, Hi; done).
    rewrite (proj2 (op_index_spec _ Hnd' Hl' (op_id od) (Z.of_nat i))); [|split; [lia|exists (f i od); by rewrite Nat2Z.id]].
    cbn [mbind option_bind]. rewrite Nat2Z.id, Hfi. done. }
split.
- rewrite Hops. by apply list_filter_iff.
- intros g Hg. destruct (Hcl g) as (? & ? & _); [by apply elem_of_reverse|]. done.
- intros g i od c Hg Hi Hod Hc Hkc. destruct (Hcl g) as (_ & _ & Hin); [by apply elem_of_reverse|].
  eapply Hin; [exact Hi|by apply Hat|done|by apply Hk].
- intros i g h Hg Hh. pose proof (lookup_lt_Some _ _ _ Hh) as Hlt.
  destruct (Hbr (length gs - 1 - S i)%nat h g) as (id & rest & od & c & Eh & Ho & Hc & Hkc & Hn).
  + rewrite reverse_lookup by lia. rewrite <- Hh. f_equal. lia.
  + rewrite reverse_lookup by lia. rewrite <- Hg. f_equal. lia.
  + apply Hat in Ho as [Hod <-]. exists od, rest, c. split_and!; [done|done|done|by apply Hk|done].
Qed.

(** ** The stages *)

Lemma populate_stage d d3 :
added ods d -> opdescs d3 = pending_flags ordering <$> imap (fun i od => built_desc 1 (one_group i) od) ods ->
memgroups d3 = imap memgroup_of ods -> opdesc_hash d3 = opdesc_hash d ->
opdescs (populate_groups_in_opdesc d3) = imap (fun i od => built_desc (flag_of od) (two_groups i) od) ods.
Proof.
intros Had Ed Em Eh. unfold populate_groups_in_opdesc. cbn [opdescs with_opdescs]. rewrite Ed. apply list_eq. intros i.
rewrite !list_lookup_fmap, !list_lookup_imap. destruct (ods !! i) as [od|] eqn:Ei; [|done]. cbn [fmap option_fmap option_map]. f_equal.
unfold populate_desc, pending_flags. cbn [opdef_ptr set_desc_flags built_desc d_id input_memgroups output_memgroups d_flags].
unfold set_memgroups, built_desc, set_desc_flags, flag_of. cbn. f_equal.
- assert (forall cs, concat ((fun c => match find_opdesc d3 (src_id c) with Some src => output_memgroups src | None => [] end) <$> cs) = []) as ->; [|done].
  induction cs as [|c cs IH]; [done|]. cbn. rewrite IH, app_nil_r.
  destruct (find_opdesc d3 (src_id c)) as [src|] eqn:E; [|done]. unfold find_opdesc in E. rewrite Eh in E.
  destruct (ad_hash _ _ Had) as (k & Hb & _). rewrite (find_contents k) in E by done.
  apply (find_added d _ _ Had) in E as (x & _ & _ & ->). done.
- unfold two_groups. f_equal. rewrite Em.
  assert (filter (fun mg => gen_op_id mg = op_id od) (imap memgroup_of ods) = [memgroup_of i od]) as ->; [|done].
  clear -Hnd Ei. revert i Ei. assert (forall k i, ods !! i = Some od ->
    filter (fun mg => gen_op_id mg = op_id od) (imap (fun j => memgroup_of (k + j)) ods) = [memgroup_of (k + i) od]) as H; [|by intros i; apply (H 0%nat)].
  induction ods as [|x l IH]; [done|]. intros k [|i] Hi.
  + injection Hi as ->. cbn [imap]. rewrite filter_cons_True by done. f_equal. cbn in Hnd. apply NoDup_cons in Hnd as [Hnin _].
    apply list_filter_none. intros mg (j & Hj)%list_elem_of_lookup. rewrite list_lookup_imap in Hj.
    destruct (l !! j) as [y|] eqn:Ey; [|done]. injection Hj as <-. cbn. intros E. apply Hnin. rewrite <- E.
    apply list_elem_of_fmap_2. by apply list_elem_of_lookup; eexists.
  + cbn in Hnd. apply NoDup_cons in Hnd as [Hnin Hnd]. cbn [imap]. rewrite filter_cons_False.
    * rewrite <- (Nat.add_succ_comm k i). rewrite <- (IH Hnd (S k) i Hi). f_equal. apply imap_ext. intros j y _. cbn. f_equal. lia.
    * cbn. intros E. apply Hnin. rewrite E. apply list_elem_of_fmap_2. by apply list_elem_of_lookup; eexists.
Qed.

(** The state the ordering passes start from: the groups are made, the table
    is built again and the memory groups are filled in. *)
Record ready (d : GraphDeps) : Prop := {
rd_descs : opdescs d = imap (fun i od => built_desc (flag_of od) (two_groups i) od) ods;
rd_hash : exists k, bucket_ok k (opdesc_hash d);
rd_contents : contents (opdesc_hash d) = map_of (new_desc <$> ods);
rd_memgroups : memgroups d = imap memgroup_of ods;
rd_lifetimes : lifetimes d = info_of <$> imap (fun i od => built_desc 1 (one_group i) od) ods;
rd_state : ordering_state d = 0 /\ runlist d = [] /\ runlist_count d = 0;
rd_groups : groups_partition (group_entries d);
rd_peak : peak_tcm_use d = 0 /\ largest_tcm_op_size d = 0
}.

Lemma built_imap_facts flag outs :
let l := imap (fun i od => built_desc (flag od) (outs i) od) ods in
length l = length ods /\ d_id <$> l = op_id <$> ods /\ l <> [] /\ (forall s, s ∈ l -> is_Some (opdef_ptr s)) /\
(forall s, s ∈ l -> exists od, od ∈ ods /\ d_flags s = flag od).
Proof.
intros l. split_and!.
- apply length_imap.
- by apply imap_ids.
- intros E%(f_equal length). unfold l in E. rewrite length_imap in E. by destruct ods.
- intros s (i & Hi)%list_elem_of_lookup. unfold l in Hi. rewrite list_lookup_imap in Hi. destruct (ods !! i); [|done].
  injection Hi as <-. by eexists.
- intros s (i & Hi)%list_elem_of_lookup. unfold l in Hi. rewrite list_lookup_imap in Hi. destruct (ods !! i) as [od|] eqn:E; [|done].
  injection Hi as <-. exists od. split; [|done]. by apply list_elem_of_lookup; eexists.
Qed.

Lemma ready_ok d :
added ods d ->
exists d', (d ← rebuild (remove_unused_ops (populate_groups_in_opdesc (prepare_group_entries ordering
             (with_runlist [] 0 (compute_lifetimes ordering (build_memgroups d)))))); Some (remove_unused_ops_checked d)) = Some d' /\ ready d'.
Proof.
intros Had. destruct (lifetimes_stage d Had) as (Ed & Em & Eh & Est & El & Epk).
set (d1 := with_runlist [] 0 _).
assert (opdescs d1 = imap (fun i od => built_desc 1 (one_group i) od) ods) as Ed1 by done.
destruct (built_imap_facts (fun _ => 1) one_group) as (Hlen1 & Hid1 & Hne1 & Hp1 & Hf1).
destruct (prepare_groups_ok d1 ordering) as (gs & Hg & E2).
{ by rewrite Ed1, Hid1. }
{ rewrite Ed1, Hlen1. lia. }
{ rewrite Ed1. intros s Hs. by destruct (Hf1 s Hs) as (od & _ & ->). }
{ by rewrite Ed1. }
{ exact Hord. }
rewrite E2. set (d2 := with_groups gs _).
assert (opdescs (populate_groups_in_opdesc d2) = imap (fun i od => built_desc (flag_of od) (two_groups i) od) ods) as Ed3.
{ apply (populate_stage d); [done|unfold d2; cbn [opdescs with_groups with_opdescs]; by rewrite Ed1|done|done]. }
rewrite group_step_identity.
2: { rewrite Ed3. intros s Hs. destruct (built_imap_facts flag_of two_groups) as (_ & _ & _ & _ & Hf).
     destruct (Hf s Hs) as (od & _ & ->). unfold flag_of. by case_decide. }
destruct (ad_hash _ _ Had) as (k & Hb & Hr).
assert (k <= 30)%nat as Hk.
{ destruct (decide (k <= 30)%nat) as [|Hgt]; [done|]. exfalso.
  assert (2 ^ 31 <= table_size k) by (apply Z.pow_le_mono_r; lia). pose proof (ad_count _ _ Had). destruct Hr; lia. }
assert (opdesc_hash (populate_groups_in_opdesc d2) = opdesc_hash d) as Eh2 by done.
destruct (rebuild_spec k (opdesc_hash d) Hb Hk) as (k' & b' & Er & Hb' & Hc' & _ & _).
unfold rebuild. rewrite Eh2, Er. cbn [mbind option_bind]. eexists. split; [done|].
split; cbn [remove_unused_ops_checked opdescs with_opdescs with_hash opdesc_hash memgroups lifetimes ordering_state runlist runlist_count group_entries peak_tcm_use largest_tcm_op_size].
- rewrite <- Ed3. rewrite <- (list_fmap_id (opdescs (populate_groups_in_opdesc d2))) at 2.
  apply list_fmap_ext. intros i s _. by rewrite remove_unused_checked_id.
- by exists k'.
- rewrite Hc'. apply (ad_contents _ _ Had).
- exact Em.
- exact El.
- exact (conj Est (conj eq_refl eq_refl)).
- rewrite Ed1 in Hg. by apply (groups_of_ops (fun i od => built_desc 1 (one_group i) od) _ gs) in Hg.
- exact Epk.
Qed.

(** The copies in the table have distance 0, so sorting changes nothing. *)
Lemma runlist_is_ordering d :
(exists k, bucket_ok k (opdesc_hash d)) -> contents (opdesc_hash d) = map_of (new_desc <$> ods) ->
sort_runlist d ordering = filter known_op ordering.
Proof.
intros (k & Hb) Hc. unfold sort_runlist.
assert (omap (fun oid => s ← find_opdesc d oid; Some (distance s, oid)) ordering = (fun oid => (0, oid)) <$> filter known_op ordering) as ->.
{ clear Hord. induction ordering as [|oid l IH]; [done|]. cbn [omap list_omap]. rewrite filter_cons, IH.
  unfold find_opdesc. rewrite (find_contents k), Hc by done.
  destruct (map_of (new_desc <$> ods) !! oid) as [s|] eqn:E.
  - rewrite map_of_lookup in E by (by rewrite new_desc_ids). destruct E as [(od & -> & Hod)%list_elem_of_fmap <-].
    rewrite decide_True; [done|]. by apply (list_elem_of_fmap_2 op_id).
  - rewrite map_of_None, new_desc_ids in E. by rewrite decide_False. }
rewrite stable_sort_id.
- rewrite <- list_fmap_compose. apply list_fmap_id.
- apply StronglySorted_all. intros x y (? & -> & _)%list_elem_of_fmap (? & -> & _)%list_elem_of_fmap. done.
Qed.

(** The descriptor of an op when [build_deps] is done; only the distance and
    the predecessor are open. *)
Definition final_desc (i : nat) (od : OpDef) (x p : Z) : DepOpDesc :=
estimate (set_distance x p (built_desc (flag_of od) (two_groups i) od)).

Definition no_loop (d : GraphDeps) : Prop := forall i, (i < length ods)%nat -> ends (opdescs d) i.

(** What [build_deps] leaves. *)
Record deps_built (d : GraphDeps) (ok : bool) : Prop := {
db_length : length (opdescs d) = length ods;
db_descs i od : ods !! i = Some od -> exists x p, opdescs d !! i = Some (final_desc i od x p);
db_find id : is_Some (find_opdesc d id) <-> known_op id;
db_memgroups : memgroups d = imap memgroup_of ods;
db_lifetimes : lifetimes d = info_of <$> imap (fun i od => built_desc 1 (one_group i) od) ods;
db_groups : groups_partition (group_entries d);
db_ok : ok = true <-> no_loop d /\ filter known_op ordering <> [];
db_runlist : (no_loop d -> runlist d = filter known_op ordering) /\ (~ no_loop d -> runlist d = []);
db_peak : peak_tcm_use d = 0 /\ largest_tcm_op_size d = 0
}.

Lemma parent_ext l l' :
length l = length l' -> (forall i s s', l !! i = Some s -> l' !! i = Some s' -> d_id s = d_id s' /\ opdef_ptr s = opdef_ptr s') ->
(forall s, s ∈ l -> is_Some (opdef_ptr s)) ->
forall i, parent (imap (start_distance (op_index l)) l) i = parent (imap (start_distance (op_index l')) l') i.
Proof.
intros Hl Hs Hp i. assert (op_index l = op_index l') as E.
{ unfold op_index. f_equal. apply list_eq. intros j. rewrite !list_lookup_fmap.
  destruct (l !! j) as [s|] eqn:Ej.
  - destruct (lookup_lt_is_Some_2 l' j) as [s' Ej']; [rewrite <- Hl; by eapply lookup_lt_Some|]. rewrite Ej'. cbn. f_equal. by eapply Hs.
  - apply lookup_ge_None in Ej. by rewrite (lookup_ge_None_2 l') by lia. }
unfold parent. rewrite !list_lookup_imap, E. destruct (l !! i) as [s|] eqn:Ei.
- destruct (lookup_lt_is_Some_2 l' i) as [s' Ei']; [rewrite <- Hl; by eapply lookup_lt_Some|]. rewrite Ei'. cbn.
  destruct (Hs i s s' Ei Ei') as [_ Ep]. destruct (Hp s) as [od Hod]; [by apply list_elem_of_lookup; eexists|].
  unfold start_distance. rewrite <- Ep, Hod. done.
- apply lookup_ge_None in Ei. by rewrite (lookup_ge_None_2 l') by lia.
Qed.

Lemma ends_ext l l' i :
length l = length l' -> (forall i s s', l !! i = Some s -> l' !! i = Some s' -> d_id s = d_id s' /\ opdef_ptr s = opdef_ptr s') ->
(forall s, s ∈ l -> is_Some (opdef_ptr s)) -> ends l i <-> ends l' i.
Proof.
intros Hl Hs Hp. pose proof (parent_ext l l' Hl Hs Hp) as E. unfold ends.
assert (forall k i, ancestor (imap (start_distance (op_index l)) l) k i = ancestor (imap (start_distance (op_index l')) l') k i) as Ea.
{ induction k as [|k IH]; intros j; [done|]. cbn. rewrite E. destruct (parent _ j); [apply IH|done]. }
by setoid_rewrite Ea.
Qed.

(** The distances that the last pass leaves, in the final state. *)
Lemma distances_final d d2 ok :
ready d -> set_distances_from_constraints d = (d2, ok) ->
exists l2, opdescs d2 = l2 /\ length l2 = length ods /\
  (forall i od, ods !! i = Some od -> exists x p, l2 !! i = Some (set_distance x p (built_desc (flag_of od) (two_groups i) od))) /\
  (ok = true <-> forall i, (i < length ods)%nat -> ends (estimate <$> l2) i) /\
  d2 = (if ok then with_distances 2 (max_distance d2) (with_opdescs l2 d) else with_opdescs l2 d).
Proof.
intros [Hd _ _ _ _ _ _ _] E. destruct (built_imap_facts flag_of two_groups) as (Hl & Hid & Hne' & Hp & _).
destruct (set_distances_spec d) as (d' & ok' & E' & [Hlen' Hsame] & Hok & Hd' & _); rewrite ?Hd.
{ by rewrite Hid. }
{ by rewrite Hl. }
{ done. }
{ done. }
rewrite E in E'. injection E' as <- <-. rewrite Hd in *. rewrite length_imap in Hlen'.
assert (Hi : forall i od, ods !! i = Some od -> exists x p, opdescs d2 !! i = Some (set_distance x p (built_desc (flag_of od) (two_groups i) od))).
{ intros i od Hi. destruct (lookup_lt_is_Some_2 (opdescs d2) i) as [s Hs]; [rewrite Hlen', Hl; by eapply lookup_lt_Some|].
  destruct (Hsame i s Hs) as (s1 & Hs1 & Es). rewrite !list_lookup_imap, Hi in Hs1. cbn in Hs1. injection Hs1 as <-.
  eexists (distance s), _. rewrite Hs. f_equal. etrans; [exact Es|]. reflexivity. }
exists (opdescs d2). split; [done|]. split; [lia|]. split; [done|]. split; [|done].
rewrite Hok, Hl. set (lb := imap (fun i od => built_desc (flag_of od) (two_groups i) od) ods) in *.
assert (forall i, ends lb i <-> ends (estimate <$> opdescs d2) i) as He; [|by setoid_rewrite He].
intros i. apply ends_ext; [rewrite length_fmap; lia| |done].
intros j s s' Hs Hs'. unfold lb in Hs. rewrite list_lookup_imap in Hs. rewrite list_lookup_fmap in Hs'.
destruct (ods !! j) as [od|] eqn:Ej; [|done]. injection Hs as <-. destruct (Hi j od Ej) as (x & p & Ex). rewrite Ex in Hs'. by injection Hs' as <-.
Qed.

(** No memory is counted: the requirements are estimated after the check. *)
Lemma sanity_ok d :
ordering_state d = 2 -> (forall mg, mg ∈ memgroups d -> is_Some (find_opdesc d (gen_op_id mg))) ->
(forall s, s ∈ opdescs d -> vtcm_requirement s = 0) -> exists id, sanity_check d = (with_peak 0 id 0 d, true).
Proof.
intros Es Hm Hv. unfold sanity_check. rewrite Es. cbn [Z.eqb negb].
assert (forallb (fun mg => (gen_op_id mg =? 0) || bool_decide (is_Some (find_opdesc d (gen_op_id mg)))) (memgroups d) = true) as ->.
{ apply forallb_forall. intros mg Hin%list_elem_of_In. rewrite bool_decide_true by (by apply Hm). apply orb_true_r. }
cbn [negb].
assert (forall l, foldl (peak_step d (op_index (opdescs d))) (0, 0) l = (0, 0)) as Hp.
{ induction l as [|oid l IH] using rev_ind; [done|]. rewrite foldl_app, IH. cbn [foldl peak_step].
  destruct (op_index (opdescs d) !! oid) as [q|]; [|done]. cbn [mbind option_bind].
  destruct (opdescs d !! Z.to_nat q) as [s|] eqn:E; [|done]. rewrite (Hv s) by (by apply list_elem_of_lookup; eexists). done. }
rewrite Hp. assert (foldl largest_step (0, 0) (opdescs d) = (0, 0)) as ->; [|by eexists].
revert Hv. generalize (opdescs d). intros l Hv. induction l as [|s l IH] using rev_ind; [done|]. rewrite foldl_app, IH by set_solver.
cbn [foldl]. unfold largest_step. rewrite (Hv s) by set_solver. by destruct (opdef_ptr s).
Qed.

Lemma build_deps_spec : exists d ok, build_deps ordering ods = Some (d, ok) /\ deps_built d ok.
Proof.
destruct (add_ops_ok ods Hnd) as (d0 & d & E0 & E & Had); [lia|]. unfold build_deps. rewrite E0. cbn [mbind option_bind]. rewrite E.
cbn [mbind option_bind]. unfold build_runlist.
destruct (ready_ok d Had) as (d1 & E1 & Hr). destruct (rebuild _) as [d1'|] eqn:Er; [|done]. cbn [mbind option_bind] in *.
injection E1 as ->. destruct (set_distances_from_constraints d1) as [d2 ok] eqn:Es.
destruct (distances_final d1 d2 ok Hr Es) as (l2 & El2 & Hl2 & Hi & Hok & Ed2).
assert (Hfind : forall id, is_Some (find_opdesc d1 id) <-> known_op id).
{ intros id. destruct (rd_hash d1 Hr) as (k & Hb). unfold find_opdesc. rewrite (find_contents k), (rd_contents d1 Hr) by done.
  unfold known_op. rewrite <- (new_desc_ids ods). destruct (decide (is_Some (map_of (new_desc <$> ods) !! id))) as [Hs|Hn].
  - split; [intros _|done]. destruct (decide (id ∈ d_id <$> (new_desc <$> ods))) as [|Hn]; [done|].
    apply map_of_None in Hn. rewrite Hn in Hs. by destruct Hs.
  - split; [done|]. intros Hin. exfalso. apply eq_None_not_Some, map_of_None in Hn. done. }
assert (Hdescs : forall i od, ods !! i = Some od -> exists x p, (estimate <$> l2) !! i = Some (final_desc i od x p)).
{ intros i od Ho. destruct (Hi i od Ho) as (x & p & Ex). exists x, p. by rewrite list_lookup_fmap, Ex. }
assert (Hl2' : length (estimate <$> l2) = length ods) by (by rewrite length_fmap).
destruct Hr as [Hd [k Hb] Hc Hm Hlf (Hst & Hrl & Hrc) Hg Hpk].
destruct ok.
- assert (ordering_state d2 = 2) as Est2 by (by rewrite Ed2). cbn [negb]. rewrite bool_decide_false by done.
  assert (opdesc_hash d2 = opdesc_hash d1) as Eh2 by (by rewrite Ed2).
  assert (memgroups d2 = memgroups d1) as Em2 by (by rewrite Ed2).
  rewrite (runlist_is_ordering d2); [|rewrite Eh2; by exists k|by rewrite Eh2]. set (rl := filter known_op ordering).
  destruct (sanity_ok (with_runlist rl (u32 (Z.of_nat (length rl))) d2)) as [lid ->].
  + done.
  + cbn [memgroups with_runlist]. rewrite Em2, Hm. intros mg (i & Hmg)%list_elem_of_lookup. rewrite list_lookup_imap in Hmg.
    destruct (ods !! i) as [od|] eqn:Eo; [|done]. injection Hmg as <-. unfold find_opdesc. cbn [opdesc_hash with_runlist]. rewrite Eh2.
    apply Hfind. cbn. apply (list_elem_of_fmap_2 op_id). by apply list_elem_of_lookup; eexists.
  + cbn [opdescs with_runlist]. rewrite El2. intros s (i & Hs)%list_elem_of_lookup.
    destruct (lookup_lt_is_Some_2 ods i) as [od Eo]; [rewrite <- Hl2; by eapply lookup_lt_Some|].
    destruct (Hi i od Eo) as (x & p & Ex). rewrite Ex in Hs. by injection Hs as <-.
  + cbn [negb]. do 2 eexists. split; [done|]. unfold with_peak, with_opdescs, with_runlist. cbn. rewrite El2.
    assert (no_loop (with_opdescs (estimate <$> l2) d2)) as Hno by (exact (proj1 Hok eq_refl)).
    split; cbn [opdescs opdesc_hash memgroups lifetimes group_entries runlist peak_tcm_use largest_tcm_op_size]; try done.
    * intros id. unfold find_opdesc. cbn. rewrite Eh2. apply Hfind.
    * by rewrite Em2.
    * by rewrite Ed2.
    * by rewrite Ed2.
    * rewrite negb_true_iff, bool_decide_eq_false. split; [done|by intros [_ ?]].
- cbn [negb]. do 2 eexists. split; [done|].
  assert (~ no_loop (with_opdescs (estimate <$> l2) d2)) as Hno by (intros Hn; by apply Hok in Hn).
  unfold with_opdescs. rewrite El2, Ed2. cbn in *.
  split; cbn [opdescs opdesc_hash memgroups lifetimes group_entries runlist peak_tcm_use largest_tcm_op_size with_opdescs]; try done.
  + split; [done|by intros [? _]].
Qed.
End build.

(** * Claims *)

(** C10: for the live ops of a graph, at most 32750 of them (the positions of
    the table are 16-bit), and its ordering the construction always succeeds and describes every op: it is found in the table, its size is
    that of its output, and its lifetime begins at the position of the op and
    ends at the last position of the op and its consumers. *)
Theorem build_deps_correct ordering ods :
NoDup (op_id <$> ods) -> Z.of_nat (length ods) <= 32750 -> ods <> [] ->
NoDup ordering -> Z.of_nat (length ordering) < 2 ^ 32 -> ordering <> [] ->
exists d ok, build_deps ordering ods = Some (d, ok) /\ length (opdescs d) = length ods /\
  forall i od, ods !! i = Some od ->
    exists s, opdescs d !! i = Some s /\ opdef_ptr s = Some od /\ d_id s = op_id od /\ is_Some (find_opdesc d (op_id od)) /\
      vtcm_requirement s = output_bytes (output_def od) /\
      forall p, ordering !! p = Some (op_id od) ->
        d_begin s = Z.of_nat p /\ d_begin s <= d_end s /\
        (forall c q, c ∈ consumers od -> ordering !! q = Some c -> Z.of_nat q <= d_end s) /\
        (d_end s = Z.of_nat p \/ exists c q, c ∈ consumers od /\ ordering !! q = Some c /\ d_end s = Z.of_nat q).
Proof.
intros Hnd Hlen Hne Hndo Hlo Hord. destruct (build_deps_spec ordering ods Hnd Hlen Hne Hord) as (d & ok & E & Hb).
exists d, ok. split; [done|]. split; [apply (db_length _ _ _ _ Hb)|]. intros i od Hi.
destruct (db_descs _ _ _ _ Hb i od Hi) as (x & p & Hs). eexists. split; [exact Hs|]. split; [done|]. split; [done|]. split.
{ apply (db_find _ _ _ _ Hb), (list_elem_of_fmap_2 op_id). by apply list_elem_of_lookup; eexists. }
split; [done|]. intros q Hq. apply (use_interval ordering (conj Hndo Hlo) od q Hq).
Qed.

Lemma build_deps_correct_witness :
exists d ok, build_deps demo_order demo_ops = Some (d, ok) /\ length (opdescs d) = 3%nat.
Proof.
destruct (build_deps_correct demo_order demo_ops) as (d & ok & E & Hl & _).
- by apply (bool_decide_unpack _); vm_compute.
- vm_compute. discriminate.
- discriminate.
- by apply (bool_decide_unpack _); vm_compute.
- reflexivity.
- discriminate.
- exact (ex_intro _ d (ex_intro _ ok (conj E Hl))).
Defined.

(** C23: the groups of the ops cut the ordering into consecutive pieces; an op
    that is not the first of its group reads, among the known ops, only
    earlier ones of the group, and a group ends only where the next op reads
    a known op outside it. *)
Theorem op_groups_partition ordering ods :
NoDup (op_id <$> ods) -> Z.of_nat (length ods) <= 32750 -> ods <> [] -> ordering <> [] ->
exists d ok, build_deps ordering ods = Some (d, ok) /\
  concat (op_ids <$> group_entries d) = filter (fun id => id ∈ op_id <$> ods) ordering /\
  (forall g i od c, g ∈ group_entries d -> op_ids g !! S i = Some (op_id od) -> od ∈ ods -> c ∈ inputs od ->
     src_id c ∈ op_id <$> ods -> src_id c ∈ take (S i) (op_ids g)) /\
  (forall i g h, group_entries d !! i = Some g -> group_entries d !! S i = Some h ->
     exists od rest c, od ∈ ods /\ op_ids h = op_id od :: rest /\ c ∈ inputs od /\ src_id c ∈ op_id <$> ods /\ src_id c ∉ op_ids g).
Proof.
intros Hnd Hlen Hne Hord. destruct (build_deps_spec ordering ods Hnd Hlen Hne Hord) as (d & ok & E & Hb).
exists d, ok. split; [done|]. destruct (db_groups _ _ _ _ Hb) as [H1 _ H3 H4]. split; [exact H1|]. split; [exact H3|exact H4].
Qed.

Lemma op_groups_partition_witness :
exists d ok, build_deps demo_order demo_ops = Some (d, ok) /\ concat (op_ids <$> group_entries d) = [1; 2; 3].
Proof.
destruct (op_groups_partition demo_order demo_ops) as (d & ok & E & Hc & _).
- by apply (bool_decide_unpack _); vm_compute.
- vm_compute. discriminate.
- discriminate.
- discriminate.
- exact (ex_intro _ d (ex_intro _ ok (conj E Hc))).
Defined.

(** What the passes are announced to compute is not what they leave: the
    list is the ordering whatever the distances are, because the sort reads
    the copies in the table, whose distance is 0; the peak and the largest
    memory are 0, because the sizes are estimated afterwards; no op has an
    input group and every op has its output group twice. *)
Theorem runlist_ignores_distances ordering ods :
NoDup (op_id <$> ods) -> Z.of_nat (length ods) <= 32750 -> ods <> [] -> ordering <> [] ->
exists d ok, build_deps ordering ods = Some (d, ok) /\
  (ok = true -> runlist d = filter (fun id => id ∈ op_id <$> ods) ordering) /\
  peak_tcm_use d = 0 /\ largest_tcm_op_size d = 0 /\
  forall i od, ods !! i = Some od -> exists s, opdescs d !! i = Some s /\ input_memgroups s = [] /\
    output_memgroups s = [u32 (Z.of_nat i); u32 (Z.of_nat i)].
Proof.
intros Hnd Hlen Hne Hord. destruct (build_deps_spec ordering ods Hnd Hlen Hne Hord) as (d & ok & E & Hb).
exists d, ok. split; [done|]. destruct (db_peak _ _ _ _ Hb) as [Hp Hl]. split.
{ intros Hok. apply (db_runlist _ _ _ _ Hb). by apply (db_ok _ _ _ _ Hb). }
split; [done|]. split; [done|]. intros i od Hi. destruct (db_descs _ _ _ _ Hb i od Hi) as (x & p & Hs).
eexists. split; [exact Hs|]. done.
Qed.

Lemma runlist_ignores_distances_witness :
exists d ok, build_deps [3; 1; 2] demo_ops = Some (d, ok) /\ (ok = true -> runlist d = [3; 1; 2]) /\ peak_tcm_use d = 0.
Proof.
destruct (runlist_ignores_distances [3; 1; 2] demo_ops) as (d & ok & E & Hr & Hp & _).
- by apply (bool_decide_unpack _); vm_compute.
- vm_compute. discriminate.
- discriminate.
- discriminate.
- exact (ex_intro _ d (ex_intro _ ok (conj E (conj Hr Hp)))).
Defined.
