(* ===== verification/VtcmAlloc.v ===== *)
(** From the prepared graph to VTCM addresses: [build_graph_deps],
    [vtcm_lifetime_alloc] and [vtcm_lifetime_alloc_cp] of
    [compiler/src/ir/graph_prepare.cpp], and the proof that the addresses the
    lifetime allocator gives are safe at every op of the ordering. *)
From S2P Require Import Prelude Ir Lifetime DdrOffsets CpModel CpSearch CpSolution CpVerify Scheduler GraphSchedule.
From S2P Require Import GraphPasses GraphCse GraphBuild PlanOrder OpDescHash GraphDeps DepsBuild.

(** * Requests with distinct starts

    The allocator's region of a tensor is its size rounded up to the
    alignment.  When no two requests start together every group has one
    member, and the allocation is that of the rounded requests, whose sizes
    are multiples of the alignment. *)

Lemma list_merge_map {A B} (f : A -> B) (R : A -> A -> Prop) (R' : B -> B -> Prop)
    `{!forall x y, Decision (R x y)} `{!forall x y, Decision (R' x y)} :
  (forall x y, R' (f x) (f y) <-> R x y) -> forall l k, list_merge R' (f <$> l) (f <$> k) = f <$> list_merge R l k.
Proof.
intros HR l. induction l as [|x l IHl]; intros k; [by destruct k|].
induction k as [|y k IHk]; [done|]. cbn [fmap list_fmap]. rewrite !list_merge_cons.
destruct (decide (R x y)) as [Hd|Hd], (decide (R' (f x) (f y))) as [Hd'|Hd']; [|by apply HR in Hd|by apply HR in Hd'|].
- cbn [fmap list_fmap]. f_equal. apply (IHl (y :: k)).
- cbn [fmap list_fmap]. f_equal. apply IHk.
Qed.

Lemma merge_sort_map {A B} (f : A -> B) (R : A -> A -> Prop) (R' : B -> B -> Prop)
    `{!forall x y, Decision (R x y)} `{!forall x y, Decision (R' x y)} :
  (forall x y, R' (f x) (f y) <-> R x y) -> forall l, merge_sort R' (f <$> l) = f <$> merge_sort R l.
Proof.
intros HR. pose proof (list_merge_map f R R' HR) as Hm.
assert (Hst : forall st, merge_stack R' (fmap (M := option) (fmap (M := list) f) <$> st) = f <$> merge_stack R st).
{ induction st as [|[l|] st IH]; [done| |done]. cbn. by rewrite IH, Hm. }
assert (Hpush : forall st l, merge_list_to_stack R' (fmap (M := option) (fmap (M := list) f) <$> st) (f <$> l)
          = fmap (M := option) (fmap (M := list) f) <$> merge_list_to_stack R st l).
{ induction st as [|[l'|] st IH]; intros l; [done| |done]. cbn. rewrite Hm, IH. done. }
assert (Haux : forall l st, merge_sort_aux R' (fmap (M := option) (fmap (M := list) f) <$> st) (f <$> l) = f <$> merge_sort_aux R st l).
{ induction l as [|x l IH]; intros st; [apply Hst|]. cbn. rewrite <- IH. f_equal. apply (Hpush st [x]). }
intros l. apply (Haux l []).
Qed.

Lemma std_sort_map {A B} (f : A -> B) (lt : A -> A -> bool) (lt' : B -> B -> bool) :
  (forall x y, lt' (f x) (f y) = lt x y) -> forall l, std_sort lt' (f <$> l) = f <$> std_sort lt l.
Proof. intros H l. unfold std_sort. apply merge_sort_map. intros x y. unfold not_after. by rewrite H. Qed.

Section rounding.
Context (al budget : Z) (Hal : 0 < al) (Hbud : 0 <= budget < 2 ^ 62).

Definition round_req (r : AllocRequest) : AllocRequest :=
mkAllocRequest (req_op r) (align_up al (size r)) (life_begin r) (life_end r).

(** A size that rounding up leaves below 2^62. *)
Definition small (r : AllocRequest) : Prop := 0 <= size r /\ size r + al < 2 ^ 62.

Lemma align_up_round v : 0 <= v -> v + al < 2 ^ 62 -> align_up al v = round_up v al.
Proof.
intros H0 Hv. rewrite <- round_up_rem by done. unfold align_up. pose proof (Z.mod_pos_bound v al Hal).
destruct (v mod al =? 0); [done|]. rewrite wrap_id; lia.
Qed.

Lemma round_req_facts r :
small r -> (al | size (round_req r)) /\ size r <= size (round_req r) < size r + al /\ (size (round_req r) = 0 <-> size r = 0).
Proof.
intros [H0 Hs]. cbn [round_req size]. rewrite align_up_round by done. destruct (round_up_spec (size r) al Hal) as [Hd Hb].
split; [done|]. split; [done|]. split; [lia|]. intros ->. unfold round_up. rewrite Z.add_0_l, Z.div_small; lia.
Qed.

Definition alone (r : AllocRequest) : Group := mkGroup (life_begin r) (life_end r) [r] (size r).

Lemma make_groups_alone (l : list AllocRequest) :
NoDup (life_begin <$> l) -> make_groups l = alone <$> filter (fun r => size r <> 0) l.
Proof.
intros Hnd. unfold make_groups.
assert (foldl group_step [] l = reverse (alone <$> filter (fun r => size r <> 0) l)) as ->; [|rewrite rev_alt; apply reverse_involutive].
induction l as [|r l IH] using rev_ind; [done|]. rewrite fmap_app, NoDup_app in Hnd. destruct Hnd as (Hnd & Hx & _).
rewrite foldl_app, IH by done. cbn [foldl]. rewrite filter_app. unfold group_step.
destruct (size r =? 0) eqn:E; bool_prop.
{ rewrite (filter_cons_False _ r), filter_nil, app_nil_r by (rewrite E; tauto). done. }
rewrite (filter_cons_True _ r), filter_nil by done. rewrite fmap_app, reverse_app. cbn [fmap list_fmap].
destruct (reverse (alone <$> filter (fun r => size r <> 0) l)) as [|g gs] eqn:Eg; [done|].
assert (g ∈ alone <$> filter (fun r => size r <> 0) l) as (x & -> & [_ Hxl]%list_elem_of_filter)%list_elem_of_fmap.
{ apply elem_of_reverse. rewrite Eg. left. }
cbn [alone g_begin g_end]. destruct (life_begin x =? life_begin r) eqn:Eb; [|done]. bool_prop. exfalso.
apply (Hx (life_begin x)); [by apply list_elem_of_fmap_2|]. rewrite Eb. set_solver.
Qed.

Lemma process_alone st r : small r -> process_group al budget st (alone (round_req r)) = process_group al budget st (alone r).
Proof.
intros Hs. destruct (round_req_facts r Hs) as (Hd & Hb & _). unfold process_group, alone. cbn [total_size g_begin g_end members].
rewrite (align_up_multiple al _ Hal Hd). change (align_up al (size r)) with (size (round_req r)).
destruct (match first_fit _ _ with Some _ => _ | None => _ end) as [off fl].
reflexivity.
Qed.

Lemma process_alones (l : list AllocRequest) : (forall r, r ∈ l -> small r) ->
forall st, foldl (process_group al budget) st (alone <$> (round_req <$> l)) = foldl (process_group al budget) st (alone <$> l).
Proof.
induction l as [|r l IH]; intros Hs st; [done|]. cbn [fmap list_fmap foldl]. rewrite process_alone by (apply Hs; set_solver).
apply IH. set_solver.
Qed.

Lemma filter_round (l : list AllocRequest) : (forall r, r ∈ l -> small r) ->
filter (fun r => size r <> 0) (round_req <$> l) = round_req <$> filter (fun r => size r <> 0) l.
Proof.
induction l as [|r l IH]; intros Hs; [done|]. cbn [fmap list_fmap]. rewrite !filter_cons, IH by set_solver.
destruct (round_req_facts r) as (_ & _ & Hz); [apply Hs; set_solver|].
destruct (decide (size (round_req r) <> 0)), (decide (size r <> 0)); tauto.
Qed.

Lemma place_empty_round (l : list AllocRequest) : (forall r, r ∈ l -> small r) ->
forall acc, foldl place_empty acc (round_req <$> l) = foldl place_empty acc l.
Proof.
induction l as [|r l IH]; intros Hs acc; [done|]. cbn [fmap list_fmap foldl].
assert (place_empty acc (round_req r) = place_empty acc r) as ->; [|apply IH; set_solver].
destruct acc as [bid m]. unfold place_empty. 
destruct (round_req_facts r) as (_ & _ & Hz); [apply Hs; set_solver|].
destruct (size (round_req r) =? 0) eqn:E1, (size r =? 0) eqn:E2; bool_prop; tauto.
Qed.

Lemma allocate_nonempty reqs :
reqs <> [] ->
allocate_with_lifetime reqs budget al =
  (let sorted := std_sort req_lt reqs in
   let total_requested := foldl (fun a r => u64 (a + size r)) 0 sorted in
   let st := foldl (process_group al budget) init_state (make_groups sorted) in
   let '(_, m) := foldl place_empty (next_block_id st, allocs st) sorted in
   let saved := if high_water st <? total_requested then total_requested - high_water st else 0 in
   if validate_no_overlap sorted m then Some (mkAllocation m (high_water st) saved (taken_ranges st)) else None).
Proof. by destruct reqs. Qed.

(** The allocation of requests that start at distinct times. *)
Lemma distinct_allocation (reqs : list AllocRequest) :
(forall r, r ∈ reqs -> small r) -> NoDup (req_op <$> reqs) -> NoDup (life_begin <$> reqs) ->
sum_by (fun r => size r + al) reqs < 2 ^ 62 ->
exists a, allocate_with_lifetime reqs budget al = Some a /\ 0 <= lifetime_used a <= budget /\
  (forall op, is_Some (get_allocation a op) <-> op ∈ req_op <$> reqs) /\
  (forall r x, r ∈ reqs -> get_allocation a (req_op r) = Some x -> spilled x = false ->
     0 <= offset x /\ offset x + size r <= lifetime_used a) /\
  (forall r1 r2 x1 x2, r1 ∈ reqs -> r2 ∈ reqs -> r1 <> r2 ->
     get_allocation a (req_op r1) = Some x1 -> get_allocation a (req_op r2) = Some x2 ->
     spilled x1 = false -> spilled x2 = false -> life_meet r1 r2 ->
     disjoint_ranges (offset x1, size r1) (offset x2, size r2)).
Proof.
intros Hs Hndo Hndb Hsum.
assert (Hops : req_op <$> (round_req <$> reqs) = req_op <$> reqs) by (rewrite <- list_fmap_compose; done).
destruct (allocation_facts al budget (round_req <$> reqs) Hal Hbud) as (a' & E' & [Hu _] & Hdom & Hbd & Hdj & _).
{ split_and!.
  - intros r (x & -> & Hx)%list_elem_of_fmap. destruct (round_req_facts x (Hs x Hx)) as (Hd & Hb & _). split; [|done].
    destruct (Hs x Hx). lia.
  - change (NoDup (req_op <$> (round_req <$> reqs))). by rewrite Hops.
  - change (round_req <$> reqs) with (map round_req reqs). rewrite sum_by_map. assert (sum_by (fun x => size (round_req x)) reqs <= sum_by (fun r => size r + al) reqs); [|lia].
    clear -Hs Hal. induction reqs as [|r l IH]; [done|]. destruct (round_req_facts r) as (_ & Hb & _); [apply Hs; set_solver|].
    specialize (IH ltac:(set_solver)). unfold sum_by in *. cbn [foldr]. lia. }
assert (Hback : forall r1 r2 x1 x2, r1 ∈ reqs -> r2 ∈ reqs -> r1 <> r2 ->
   get_allocation a' (req_op r1) = Some x1 -> get_allocation a' (req_op r2) = Some x2 ->
   spilled x1 = false -> spilled x2 = false -> life_meet r1 r2 -> disjoint_ranges (offset x1, size r1) (offset x2, size r2)).
{ intros r1 r2 x1 x2 H1 H2 Hne Hx1 Hx2 Hs1 Hs2 Hm.
  assert (round_req r1 <> round_req r2) as Hner.
  { intros E%(f_equal req_op). cbn in E. apply Hne. by apply (NoDup_map_inj req_op reqs). }
  specialize (Hdj (round_req r1) (round_req r2) x1 x2 (list_elem_of_fmap_2 _ _ _ H1) (list_elem_of_fmap_2 _ _ _ H2) Hner Hx1 Hx2 Hs1 Hs2 Hm).
  destruct (round_req_facts r1 (Hs r1 H1)) as (_ & Hb1 & _), (round_req_facts r2 (Hs r2 H2)) as (_ & Hb2 & _).
  unfold disjoint_ranges in *. cbn [fst snd] in *. lia. }
assert (Hbd' : forall r x, r ∈ reqs -> get_allocation a' (req_op r) = Some x -> spilled x = false ->
   0 <= offset x /\ offset x + size r <= lifetime_used a').
{ intros r x Hr Hx Hsp. destruct (Hbd (round_req r) x (list_elem_of_fmap_2 _ _ _ Hr) Hx Hsp) as (? & ? & _).
  destruct (round_req_facts r (Hs r Hr)) as (_ & Hb & _). lia. }
destruct (decide (reqs = [])) as [->|Hne].
{ exists (mkAllocation ∅ 0 0 []). cbn in E'. injection E' as <-. split; [done|]. exact (conj Hu (conj Hdom (conj Hbd' Hback))). }
assert (round_req <$> reqs <> []) as Hne' by (by destruct reqs).
rewrite (allocate_nonempty (round_req <$> reqs) Hne') in E'. rewrite (allocate_nonempty reqs Hne). cbv zeta in *.
rewrite (std_sort_map round_req req_lt req_lt) in E' by done.
pose proof (std_sort_perm req_lt reqs) as Hperm.
set (sorted := std_sort req_lt reqs) in *.
assert (Hss : forall r, r ∈ sorted -> small r) by (intros r; rewrite Hperm; apply Hs).
rewrite make_groups_alone in E'.
2: { rewrite <- list_fmap_compose. change (life_begin ∘ round_req) with life_begin. by rewrite Hperm. }
rewrite make_groups_alone by (by rewrite Hperm).
rewrite filter_round, process_alones, place_empty_round in E' by (try done; by intros r [_ Hr]%list_elem_of_filter; apply Hss).
set (st := foldl (process_group al budget) _ _) in *.
destruct (foldl place_empty _ sorted) as [bid m]. destruct (validate_no_overlap _ m); [|done]. injection E' as <-. cbn [lifetime_used] in *.
unfold get_allocation in *. cbn [lifetime_allocs] in *.
rewrite validate_no_overlap_intro.
- eexists. split; [done|]. cbn [lifetime_used lifetime_allocs]. split; [done|]. split; [|done]. intros op. rewrite <- Hops. apply Hdom.
- intros r1 r2 a1 a2 Hr1 Hr2 Hner _ _ Hx1 Hx2 Hs1 Hs2 Hlo. rewrite Hperm in Hr1, Hr2.
  destruct (Hbd' r1 a1 Hr1 Hx1 Hs1), (Hbd' r2 a2 Hr2 Hx2 Hs2). destruct (Hs r1 Hr1), (Hs r2 Hr2).
  apply disjoint_off_overlap; [lia..|]. by apply Hback, life_overlap_meet.
Qed.
End rounding.

(** * The pass *)

(** Steps 1 to 8 of [GraphPrepare::build_graph_deps]: the dependency graph
    of the live ops, and the order the scheduler gives. *)
Definition build_graph_deps (p : GraphPrepare) : option (GraphDeps * GraphPrepare) :=
'(d, _) ← build_deps (node_order p) (node_op <$> get_sorted_opdefs p);
plan ← base_plan (graph_of p);
Some (d, take_plan_order p plan).

Definition SPILL_TO_DDR : Z := 0x40.

Lemma before_sublist l k u v : sublist l k -> before l u v -> before k u v.
Proof.
induction 1 as [|x l k Hs IH|x l k Hs IH].
- done.
- intros (i & j & Hij & Hi & Hj). destruct j as [|j]; [lia|]. destruct i as [|i].
  + cbn in Hi, Hj. assert (v ∈ k) as (j' & Hj')%list_elem_of_lookup by (eapply elem_of_sublist; [by apply list_elem_of_lookup; exists j|done]).
    exists 0%nat, (S j'). split_and!; [lia|done|done].
  + destruct IH as (i' & j' & ? & ? & ?); [exists i, j; split_and!; [lia|done|done]|]. exists (S i'), (S j'). split_and!; [lia|done|done].
- intros Hb. destruct (IH Hb) as (i' & j' & ? & ? & ?). exists (S i'), (S j'). split_and!; [lia|done|done].
Qed.

Section vtcm.
Context (flags2 : op_id_t -> Z).        (** the field of [OpDef] *)

(** Ops that are not constant, not marked for DDR and not empty. *)
Definition alloc_request (s : DepOpDesc) : option AllocRequest :=
od ← opdef_ptr s;
if is_const od then None
else if negb (Z.land (flags2 (op_id od)) SPILL_TO_DDR =? 0) then None
else if vtcm_requirement s =? 0 then None
else Some (mkAllocRequest (d_id s) (vtcm_requirement s) (d_begin s) (d_end s)).

Definition alloc_requests (d : GraphDeps) : list AllocRequest := omap alloc_request (opdescs d).

(** The outcome: [vtcm_allocations_], [cp_active_], [cp_plans_] and
    [cp_solution_]. *)
Record VtcmPlan := mkVtcmPlan {
  vtcm_allocations : gmap op_id_t VtcmAllocEntry; cp_active : bool;
  cp_plans : list CPSpillFillPlan; cp_solution : CPSolution
}.

Definition no_plan : VtcmPlan := mkVtcmPlan ∅ false [] empty_solution.

Definition entry_of_result (r : AllocResult) : VtcmAllocEntry := mkVtcmAlloc (offset r) (block_id r) (spilled r).

(** The connections between requested ops, per reader. *)
Definition cp_edges (req_ids : gset op_id_t) (d : GraphDeps) : list (op_id_t * op_id_t) :=
concat ((fun s => match opdef_ptr s with
                  | Some od => if bool_decide (d_id s ∈ req_ids)
                               then omap (fun c => if negb (src_id c =? d_id s) && bool_decide (src_id c ∈ req_ids)
                                                   then Some (src_id c, d_id s) else None) (inputs od)
                               else []
                  | None => []
                  end) <$> opdescs d).

Definition cp_problem (ordering : list op_id_t) (d : GraphDeps) (requests : list AllocRequest) (budget : Z) (o : CPOptions)
    (slack_w : Z -> Z) : CPProblem :=
let req_ids : gset op_id_t := list_to_set (req_op <$> requests) in
build_problem_from_requests requests (cp_edges req_ids d) budget (filter (fun id => id ∈ req_ids) ordering) o slack_w.

(** [None] inside: the solver found nothing, and the caller goes on. *)
Definition vtcm_lifetime_alloc_cp (ordering : list op_id_t) (d : GraphDeps) (requests : list AllocRequest) (budget : Z)
    (o : CPOptions) (slack_w : Z -> Z) (clock : Z -> bool) : option (option VtcmPlan) :=
let problem := cp_problem ordering d requests budget o slack_w in
sol ← CPSolver_solve problem o clock;
if feasible sol
then Some (Some (mkVtcmPlan (entry_of_result <$> to_alloc_results sol problem) true (to_spill_fill_plans sol problem) sol))
else Some None.

(** [None]: the allocator's overlap check aborts. *)
Definition vtcm_lifetime_alloc (ordering : list op_id_t) (graph_deps : option GraphDeps) (vtcm_size : Z)
    (cp_opts : option CPOptions) (slack_w : Z -> Z) (clock : Z -> bool) : option VtcmPlan :=
match graph_deps with
| None => Some no_plan
| Some d =>
    let budget := usable_size vtcm_size in
    let requests := alloc_requests d in
    if bool_decide (requests = []) then Some no_plan
    else
      cp ← match cp_opts with
           | Some o => vtcm_lifetime_alloc_cp ordering d requests budget o slack_w clock
           | None => Some None
           end;
      match cp with
      | Some r => Some r
      | None => results ← allocate_with_lifetime requests budget 128;
                Some (mkVtcmPlan (entry_of_result <$> lifetime_allocs results) false [] empty_solution)
      end
end.

(** * No overlap along the ordering *)

Section prepared.
Context (p : GraphPrepare) (Hwf : graph_wf p) (Hset : settled p) (Hsg : schedulable_graph p).

Let ods : list OpDef := node_op <$> get_sorted_opdefs p.
Let m := opdefs p.

Lemma sorted_ops : op_id <$> ods = dense_to_id (graph_of p) /\
(forall od : OpDef, od ∈ ods -> exists n : OpNode, m !! op_id od = Some n /\ is_live n = true /\ node_op n = od).
Proof.
destruct (settled_order p Hwf Hset Hsg) as (_ & Hlv & _ & _ & _).
assert (node_order p <> []) as Hne.
{ intros E. pose proof (sg_output p Hsg) as Hx. apply Hlv in Hx. unfold dense_to_id, graph_of in Hx. cbn in Hx. rewrite E in Hx.
  by apply not_elem_of_nil in Hx. }
unfold ods, get_sorted_opdefs. rewrite bool_decide_false by done. unfold dense_to_id. cbn [graph_of ordering]. clear Hne.
induction (node_order p) as [|id l [IH1 IH2]]; [split; [done|set_solver]|]. cbn [omap list_omap]. rewrite filter_cons.
pose proof (live_op_graph p id) as Hl. unfold m in *. destruct (opdefs p !! id) as [n|] eqn:En.
- destruct (is_live n) eqn:El.
  + rewrite decide_True by (exists (node_op n); apply Hl; by exists n). cbn [fmap list_fmap]. split.
    * f_equal; [by apply (wf_ids p Hwf)|exact IH1].
    * intros od [->|Hin]%elem_of_cons; [|by apply IH2]. exists n. rewrite (wf_ids p Hwf id n En). done.
  + rewrite decide_False; [done|]. intros [od (n' & [= <-] & _ & ?)%Hl]. congruence.
- rewrite decide_False; [done|]. intros [od (n' & ? & _)%Hl]. done.
Qed.

Lemma order_facts :
NoDup (op_id <$> ods) /\ Z.of_nat (length ods) <= 32750 /\ ods <> [] /\ node_order p <> [] /\ NoDup (node_order p) /\
Z.of_nat (length (node_order p)) < 2 ^ 32 /\ (forall id, id ∈ op_id <$> ods <-> live_at m id = true) /\
(forall id, id ∈ op_id <$> ods -> id ∈ node_order p).
Proof.
destruct (settled_order p Hwf Hset Hsg) as (Hnd & Hlv & _ & Hsub & Hno). destruct sorted_ops as [E _].
assert (output_node_id p ∈ op_id <$> ods) as Ho by (rewrite E; apply Hlv, Hsg).
destruct (order_nodes_ok p Hwf) as (l & n & En & _ & _ & Hor). destruct Hset as (_ & E2 & _).
rewrite En in E2. injection E2 as E2 ->. apply (f_equal node_order) in E2. cbn in E2. subst l.
assert (Hin : forall id, id ∈ op_id <$> ods -> id ∈ node_order p) by (intros id Hid; rewrite E in Hid; by eapply elem_of_sublist).
assert (node_order p ≡ₚ order_keys (opdefs p) (keys p)) as Hperm.
{ destruct Hor as [[Hz Hz']|[Hp _]]; [|done]. exfalso. specialize (Hin _ Ho). 
  assert (output_node_id p ∈ order_keys (opdefs p) (keys p)) as Hx; [|rewrite Hz' in Hx; by apply not_elem_of_nil in Hx].
  apply order_keys_elem. pose proof (sg_output p Hsg) as Hl. unfold live_at in Hl. destruct (opdefs p !! output_node_id p) as [o|] eqn:Eo; [|done].
  split; [apply (wf_dom p Hwf); by rewrite Eo|]. by eapply live_not_dead. }
assert (length (node_order p) <= length (keys p))%nat as Hlen.
{ rewrite Hperm. unfold order_keys. apply length_filter. }
assert (length ods <= length (node_order p))%nat as Hlen2.
{ rewrite <- (length_fmap op_id ods), E. by apply sublist_length. }
pose proof (sg_small p Hsg). split_and!.
- by rewrite E.
- lia.
- intros Ez. rewrite Ez in Ho. by apply not_elem_of_nil in Ho.
- intros Ez. specialize (Hin _ Ho). rewrite Ez in Hin. by apply not_elem_of_nil in Hin.
- done.
- lia.
- intros id. by rewrite E, Hlv.
- done.
Qed.
End prepared.
(** The lifetime of an op at position [t] of the ordering reaches from it to
    its last reader. *)
Definition request_of (ordering : list op_id_t) (od : OpDef) : option AllocRequest :=
if is_const od then None
else if negb (Z.land (flags2 (op_id od)) SPILL_TO_DDR =? 0) then None
else if output_bytes (output_def od) =? 0 then None
else let fu := use_of (positions ordering) (op_id od) in
     Some (mkAllocRequest (op_id od) (output_bytes (output_def od)) fu (last_use_of (positions ordering) fu (consumers od))).

Lemma requests_of_ops ordering l d ok : deps_built ordering l d ok -> alloc_requests d = omap (request_of ordering) l.
Proof.
intros Hb. unfold alloc_requests.
assert (forall k l' ds, length ds = length l' -> (forall i od, l' !! i = Some od -> exists x q, ds !! i = Some (final_desc ordering (k + i) od x q)) ->
  omap alloc_request ds = omap (request_of ordering) l') as H.
{ intros k l'. revert k. induction l' as [|od l' IH]; intros k [|s ds] Hl Hd; [done|done|done|]. cbn [omap list_omap].
  destruct (Hd 0%nat od eq_refl) as (x & q & [= ->]).
  assert (alloc_request (final_desc ordering (k + 0) od x q) = request_of ordering od) as -> by done.
  rewrite (IH (S k) ds); [done|by injection Hl|]. intros i od' Hi. destruct (Hd (S i) od' Hi) as (x' & q' & E).
  exists x', q'. by rewrite Nat.add_succ_comm. }
apply (H 0%nat); [apply (db_length _ _ _ _ Hb)|apply (db_descs _ _ _ _ Hb)].
Qed.

Lemma request_of_Some ordering od r :
request_of ordering od = Some r ->
req_op r = op_id od /\ size r = output_bytes (output_def od) /\ life_begin r = use_of (positions ordering) (op_id od) /\
life_end r = last_use_of (positions ordering) (life_begin r) (consumers od).
Proof. unfold request_of. repeat case_match; try done. by intros [= <-]. Qed.

Lemma NoDup_omap_on {A B K} (f : A -> option B) (g : B -> K) (h : A -> K) (l : list A) :
(forall x y, f x = Some y -> g y = h x) -> NoDup (h <$> l) -> NoDup (g <$> omap f l).
Proof.
intros Hf. induction l as [|x l IH]; intros Hnd; [constructor|]. cbn in Hnd |- *. apply NoDup_cons in Hnd as [Hn Hnd].
destruct (f x) as [y|] eqn:E; [|by apply IH]. cbn. apply NoDup_cons. split; [|by apply IH].
intros (z & Ez & (w & Hw & Ew)%list_elem_of_omap)%list_elem_of_fmap. apply Hn. rewrite <- (Hf _ _ E), Ez, (Hf _ _ Ew).
by apply list_elem_of_fmap_2.
Qed.

Lemma sum_by_bound {A} (f : A -> Z) c l : (forall x, x ∈ l -> f x <= c) -> sum_by f l <= c * Z.of_nat (length l).
Proof.
induction l as [|x l IH]; intros H; [cbn; lia|]. unfold sum_by in *. cbn [foldr length]. pose proof (H x ltac:(set_solver)).
specialize (IH ltac:(set_solver)). lia.
Qed.

Lemma output_bytes_nonneg od : 0 <= output_bytes od.
Proof. unfold output_bytes. pose proof (u64_range (foldl (fun acc x => if 0 <? x then u64 (acc * x) else acc) 1 (take (Z.to_nat (Z.min (rank od) 5)) (dims od)) * (if element_size od =? 0 then 4 else element_size od))). lia. Qed.

Section pipeline.
Context (p : GraphPrepare) (Hwf : graph_wf p) (Hac : acyclic (opdefs p)) (Hset : settled p) (Hsg : schedulable_graph p)
  (Hcomp : complete (opdefs p)) (Hbytes : forall k (od : OpNode), opdefs p !! k = Some od -> output_bytes (output_def od) < 2 ^ 40).

Let ods : list OpDef := node_op <$> get_sorted_opdefs p.
Let reqs := omap (request_of (node_order p)) ods.

Lemma build_graph_deps_ok : exists d p', build_graph_deps p = Some (d, p') /\ alloc_requests d = reqs.
Proof.
destruct (order_facts p Hwf Hset Hsg) as (Hnd & Hlen & Hne & Hno & Hndo & Hlo & _).
destruct (build_deps_spec (node_order p) ods Hnd Hlen Hne Hno) as (d & ok & E & Hb).
destruct (base_plan_ok (graph_of p) (prepared_graph_ok p Hwf Hset Hsg)) as (plan & Ep & _).
exists d, (take_plan_order p plan). split; [|by apply (requests_of_ops _ _ _ ok)].
unfold build_graph_deps. fold ods. rewrite E. cbn [mbind option_bind]. by rewrite Ep.
Qed.

(** Where a requested op stands and how long it lives. *)
Lemma request_life r :
r ∈ reqs -> exists (n : OpNode) t, opdefs p !! req_op r = Some n /\ is_live n = true /\ op_id n = req_op r /\
  size r = output_bytes (output_def n) /\ node_order p !! t = Some (req_op r) /\ life_begin r = Z.of_nat t /\ life_begin r <= life_end r /\
  forall c q, c ∈ consumers n -> node_order p !! q = Some c -> Z.of_nat q <= life_end r.
Proof.
intros (od & Hod & Er)%list_elem_of_omap. destruct (order_facts p Hwf Hset Hsg) as (_ & _ & _ & _ & Hndo & Hlo & _ & Hin).
destruct (sorted_ops p Hwf Hset Hsg) as [_ Hops]. destruct (Hops od Hod) as (n & En & Hl & Eno).
apply request_of_Some in Er as (E1 & E2 & E3 & E4).
assert (op_id od ∈ node_order p) as (t & Ht)%list_elem_of_lookup by (by apply Hin, list_elem_of_fmap_2).
destruct (use_interval (node_order p) (conj Hndo Hlo) od t Ht) as (Hb & Hle & Hc & _).
exists n, t. rewrite E1. subst od. split_and!; [done|done|done|done|done|congruence|rewrite E4, E3; done|].
intros c q Hcc Hq. rewrite E4, E3. by apply (Hc c).
Qed.

Lemma requests_ok vtcm_size :
0 <= vtcm_size ->
exists a, allocate_with_lifetime reqs (usable_size vtcm_size) 128 = Some a /\ 0 <= lifetime_used a <= usable_size vtcm_size /\
  (forall op, is_Some (get_allocation a op) <-> op ∈ req_op <$> reqs) /\
  (forall r x, r ∈ reqs -> get_allocation a (req_op r) = Some x -> spilled x = false ->
     0 <= offset x /\ offset x + size r <= lifetime_used a) /\
  (forall r1 r2 x1 x2, r1 ∈ reqs -> r2 ∈ reqs -> r1 <> r2 ->
     get_allocation a (req_op r1) = Some x1 -> get_allocation a (req_op r2) = Some x2 ->
     spilled x1 = false -> spilled x2 = false -> life_meet r1 r2 ->
     disjoint_ranges (offset x1, size r1) (offset x2, size r2)).
Proof.
intros Hv. destruct (order_facts p Hwf Hset Hsg) as (Hnd & Hlen & _ & _ & Hndo & Hlo & _ & Hin).
assert (Hsize : forall r, r ∈ reqs -> 0 <= size r < 2 ^ 40).
{ intros r Hr. destruct (request_life r Hr) as (n & t & En & _ & _ & -> & _). split; [apply output_bytes_nonneg|by eapply Hbytes]. }
assert (Z.of_nat (length reqs) <= 32750) as Hlr.
{ assert (forall l, (length (omap (request_of (node_order p)) l) <= length l)%nat) as Hle; [|specialize (Hle ods); fold ods in Hlen; unfold reqs; lia].
  induction l as [|x l IH]; [done|]. cbn [omap list_omap]. destruct (request_of _ x); cbn [length]; lia. }
apply distinct_allocation; [lia| | | | |].
- unfold usable_size, VTCM_4MB_LIMIT. assert (0 <= Z.min vtcm_size 0x400000 <= 0x400000) as Hm by lia.
  pose proof (Z.div_mod (Z.min vtcm_size 0x400000 * 3) 4 ltac:(lia)). pose proof (Z.mod_pos_bound (Z.min vtcm_size 0x400000 * 3) 4 ltac:(lia)). lia.
- intros r Hr. specialize (Hsize r Hr). unfold small. lia.
- apply (NoDup_omap_on _ _ op_id); [|done]. intros x y E. by apply request_of_Some in E as (? & _).
- apply (NoDup_omap_on _ _ (fun od => use_of (positions (node_order p)) (op_id od))); [by intros x y (_ & _ & ? & _)%request_of_Some|].
  apply NoDup_fmap_2_strong; [|by eapply NoDup_fmap_1].
  intros x y Hx Hy E.
  assert (op_id x ∈ node_order p) as (i & Hi)%list_elem_of_lookup by (by apply Hin, list_elem_of_fmap_2).
  assert (op_id y ∈ node_order p) as (j & Hj)%list_elem_of_lookup by (by apply Hin, list_elem_of_fmap_2).
  destruct (use_interval (node_order p) (conj Hndo Hlo) x i Hi) as (E1 & _), (use_interval (node_order p) (conj Hndo Hlo) y j Hj) as (E2 & _).
  assert (i = j) as -> by lia. apply (NoDup_map_inj op_id ods); [done|done|done|congruence].
- pose proof (sum_by_bound (fun r => size r + 128) (2 ^ 40 + 128) reqs) as Hs.
  assert (sum_by (fun r => size r + 128) reqs <= (2 ^ 40 + 128) * Z.of_nat (length reqs)); [|lia].
  apply Hs. intros r Hr. specialize (Hsize r Hr). lia.
Qed.

(** An op of the step at position [t] is alive there. *)
Lemma alive_at id (od : OpNode) t r :
opdefs p !! id = Some od -> is_live od = true -> node_order p !! t = Some id ->
r ∈ reqs -> req_op r ∈ id :: (src_id <$> inputs od) -> life_begin r <= Z.of_nat t <= life_end r.
Proof.
intros Hod Hl Ht Hr Hin. destruct (request_life r Hr) as (n & q & En & Hln & _ & _ & Hq & Hb & Hle & Hc).
destruct (settled_order p Hwf Hset Hsg) as (Hnd & Hlv & Hs & Hsub & Hno).
apply elem_of_cons in Hin as [E|Hin].
- rewrite E in Hq. assert (q = t) as -> by (eapply NoDup_lookup; done). lia.
- split.
  2: { apply (Hc id); [|done]. by eapply (Hcomp id od (req_op r) n). }
  assert (req_op r <> id) as Hne.
  { intros E. apply (Hac id), tc_once. split; [by eapply live_not_dead|]. split; [by eapply live_not_dead|]. exists od. rewrite <- E at 2. done. }
  assert (flow (opdefs p) (req_op r) id) as Hf by (split; [by eapply live_not_dead|split; [by eapply live_not_dead|by exists od]]).
  assert (before (dense_to_id (graph_of p)) (req_op r) id) as Hbf.
  { apply (before_of_sorted _ _ _ _ Hs); [apply Hlv; unfold live_at; by rewrite En|apply Hlv; unfold live_at; by rewrite Hod|done|].
    intros Hx. apply (Hac (req_op r)). eapply tc_rtc_r; [by apply tc_once|]. by apply Hx. }
  destruct (before_sublist _ _ _ _ Hsub Hbf) as (i & j & Hij & Hi & Hj).
  assert (i = q) as -> by (eapply NoDup_lookup; done). assert (j = t) as -> by (eapply NoDup_lookup; done). lia.
Qed.

(** The pass without the CP oracle. *)
Lemma vtcm_alloc_ok vtcm_size slack_w clock :
0 <= vtcm_size ->
exists d p' r, build_graph_deps p = Some (d, p') /\
  vtcm_lifetime_alloc (node_order p) (Some d) vtcm_size None slack_w clock = Some r /\ cp_active r = false /\
  (forall id e, vtcm_allocations r !! id = Some e ->
     exists n : OpNode, opdefs p !! id = Some n /\ is_live n = true /\
       (va_spilled e = false -> 0 <= va_offset e /\ va_offset e + output_bytes (output_def n) <= usable_size vtcm_size)) /\
  forall id (od : OpNode) a b (na nb : OpNode) ea eb,
    opdefs p !! id = Some od -> is_live od = true -> a <> b ->
    a ∈ id :: (src_id <$> inputs od) -> b ∈ id :: (src_id <$> inputs od) ->
    opdefs p !! a = Some na -> opdefs p !! b = Some nb ->
    vtcm_allocations r !! a = Some ea -> vtcm_allocations r !! b = Some eb ->
    va_spilled ea = false -> va_spilled eb = false ->
    disjoint_ranges (va_offset ea, output_bytes (output_def na)) (va_offset eb, output_bytes (output_def nb)).
Proof.
intros Hv. destruct build_graph_deps_ok as (d & p' & E & Er). exists d, p'.
destruct (requests_ok vtcm_size Hv) as (al & Ea & Hu & Hdom & Hbd & Hdj).
assert (Hreq : forall id x, get_allocation al id = Some x -> exists r, r ∈ reqs /\ req_op r = id).
{ intros id x Hx. assert (id ∈ req_op <$> reqs) as (r & -> & Hr)%list_elem_of_fmap by (apply Hdom; by rewrite Hx). by exists r. }
destruct (order_facts p Hwf Hset Hsg) as (_ & _ & _ & _ & _ & _ & Hlv & Hin).
unfold vtcm_lifetime_alloc. rewrite Er. destruct (bool_decide (reqs = [])).
{ exists no_plan. split_and!; [done|done|done| |]; cbn [vtcm_allocations no_plan].
  - intros id e. by rewrite lookup_empty.
  - intros id od a b na nb ea eb _ _ _ _ _ _ _. by rewrite lookup_empty. }
cbn [mbind option_bind]. rewrite Ea. cbn [mbind option_bind]. eexists. split; [done|]. split; [done|]. split; [done|].
cbn [vtcm_allocations]. split.
- intros id e He. rewrite lookup_fmap_Some in He. destruct He as (x & <- & Hx). destruct (Hreq id x Hx) as (r & Hr & <-).
  destruct (request_life r Hr) as (n & t & En & Hl & _ & Es & _). exists n. split; [done|]. split; [done|]. cbn. intros Hsp.
  destruct (Hbd r x Hr Hx Hsp). lia.
- intros id od a b na nb ea eb Hod Hl Hne Ha Hb Hna Hnb Hea Heb Hsa Hsb.
  rewrite lookup_fmap_Some in Hea, Heb. destruct Hea as (xa & <- & Hxa), Heb as (xb & <- & Hxb).
  destruct (Hreq a xa Hxa) as (ra & Hra & <-), (Hreq b xb Hxb) as (rb & Hrb & <-).
  assert (id ∈ node_order p) as (t & Ht)%list_elem_of_lookup by (apply Hin, Hlv; unfold live_at; by rewrite Hod).
  pose proof (alive_at id od t ra Hod Hl Ht Hra Ha) as Hla. pose proof (alive_at id od t rb Hod Hl Ht Hrb Hb) as Hlb.
  destruct (request_life ra Hra) as (na' & _ & Ena & _ & _ & Esa & _). destruct (request_life rb Hrb) as (nb' & _ & Enb & _ & _ & Esb & _).
  assert (na' = na) as -> by congruence. assert (nb' = nb) as -> by congruence. rewrite <- Esa, <- Esb. cbn.
  apply (Hdj ra rb); try done; [by intros ->|]. unfold life_meet. lia.
Qed.
End pipeline.

(** ** The CP branch *)

Lemma add_request_nonempty o rs acc : acc.1 <> [] -> (foldl (add_request o) acc rs).1 <> [].
Proof.
revert acc. induction rs as [|r rs IH]; intros [nodes idx] H; [done|]. cbn [foldl]. apply IH. unfold add_request.
destruct (idx !! req_op r); [done|]. cbn. by destruct nodes.
Qed.

Lemma problem_nonempty ordering d requests budget o slack_w :
requests <> [] -> (0 < num_nodes (cp_problem ordering d requests budget o slack_w))%nat.
Proof.
intros Hne. unfold cp_problem, build_problem_from_requests.
assert ((foldl (add_request o) ([], ∅) requests).1 <> []) as Hn.
{ destruct requests as [|r rs]; [done|]. cbn [foldl]. apply add_request_nonempty. cbn. by rewrite lookup_empty. }
destruct (foldl (add_request o) ([], ∅) requests) as [nodes idx]. cbn in Hn. unfold num_nodes. cbn. destruct nodes; [done|cbn; lia].
Qed.

Lemma vtcm_cp_ok ordering d vtcm_size o slack_w clock r :
vtcm_lifetime_alloc ordering (Some d) vtcm_size (Some o) slack_w clock = Some r ->
if cp_active r
then let problem := cp_problem ordering d (alloc_requests d) (usable_size vtcm_size) o slack_w in
     valid_solution problem (cp_solution r) /\
     vtcm_allocations r = entry_of_result <$> to_alloc_results (cp_solution r) problem /\
     cp_plans r = to_spill_fill_plans (cp_solution r) problem
else vtcm_lifetime_alloc ordering (Some d) vtcm_size None slack_w clock = Some r.
Proof.
unfold vtcm_lifetime_alloc. destruct (bool_decide (alloc_requests d = [])) eqn:Eb; [by intros [= <-]|]. bool_prop.
unfold vtcm_lifetime_alloc_cp. destruct (CPSolver_solve _ o clock) as [sol|] eqn:Es; [|done]. cbn [mbind option_bind].
destruct (feasible sol) eqn:Ef; cbn [mbind option_bind].
- intros [= <-]. cbn [cp_active]. split_and!; [|done|done]. cbn [cp_solution]. apply verify_valid.
  apply (solve_passes_verify _ o clock); [by apply problem_nonempty|done|done].
- destruct (allocate_with_lifetime _ _ _) as [a|]; [|done]. cbn [mbind option_bind]. intros [= <-]. done.
Qed.
End vtcm.

(** * Claims *)

(** C9: the VTCM addresses are safe along the ordering.  From a settled,
    acyclic graph with complete consumer lists the dependency graph is built,
    the lifetime allocator does not abort, every address lies within the
    budget, and when an op runs no two of its output and inputs that are
    resident share a byte, for tensors of any size below 2^40 bytes, aligned
    or not. *)
Theorem vtcm_alloc_safe flags2 p vtcm_size slack_w clock :
  graph_wf p -> acyclic (opdefs p) -> settled p -> schedulable_graph p -> complete (opdefs p) ->
  (forall k (od : OpNode), opdefs p !! k = Some od -> output_bytes (output_def od) < 2 ^ 40) -> 0 <= vtcm_size ->
  exists d p' r, build_graph_deps p = Some (d, p') /\
    vtcm_lifetime_alloc flags2 (node_order p) (Some d) vtcm_size None slack_w clock = Some r /\ cp_active r = false /\
    (forall id e, vtcm_allocations r !! id = Some e ->
       exists n : OpNode, opdefs p !! id = Some n /\ is_live n = true /\
         (va_spilled e = false -> 0 <= va_offset e /\ va_offset e + output_bytes (output_def n) <= usable_size vtcm_size)) /\
    forall id (od : OpNode) a b (na nb : OpNode) ea eb,
      opdefs p !! id = Some od -> is_live od = true -> a <> b ->
      a ∈ id :: (src_id <$> inputs od) -> b ∈ id :: (src_id <$> inputs od) ->
      opdefs p !! a = Some na -> opdefs p !! b = Some nb ->
      vtcm_allocations r !! a = Some ea -> vtcm_allocations r !! b = Some eb ->
      va_spilled ea = false -> va_spilled eb = false ->
      disjoint_ranges (va_offset ea, output_bytes (output_def na)) (va_offset eb, output_bytes (output_def nb)).
Proof. intros Hwf Hac Hset Hsg Hcomp Hb Hv. by apply vtcm_alloc_ok. Qed.

Lemma chain_prepared_schedulable : schedulable_graph chain_prepared.
Proof.
  split.
  - intros k Hk. change (k ∈ [6; 3; 1]) in Hk. set_unfold in Hk. lia.
  - cbn. lia.
  - by vm_compute.
  - intros k od [Hin _]%(graph_from_lookup chain_ops 1 6). unfold chain_ops in Hin. rewrite !elem_of_cons in Hin.
    destruct Hin as [->|[->|[->|Hn]]]; [by vm_compute..|by apply not_elem_of_nil in Hn].
Qed.

Lemma vtcm_alloc_safe_witness :
  exists d p' r, build_graph_deps chain_prepared = Some (d, p') /\
    vtcm_lifetime_alloc (fun _ => 0) (node_order chain_prepared) (Some d) 4096 None (fun _ => 0) no_clock = Some r /\
    disjoint_ranges (va_offset (default (mkVtcmAlloc 0 0 true) (vtcm_allocations r !! 3)), 8)
      (va_offset (default (mkVtcmAlloc 0 0 true) (vtcm_allocations r !! 1)), 8).
Proof.
  assert (acyclic (opdefs chain_prepared)) as Hac by (apply (graph_from_acyclic chain_ops 1 6); by vm_compute).
  assert (complete (opdefs chain_prepared)) as Hc by (apply (graph_from_complete chain_ops 1 6); by vm_compute).
  destruct (vtcm_alloc_safe (fun _ => 0) chain_prepared 4096 (fun _ => 0) no_clock chain_prepared_wf Hac) as (d & p' & r & E & Er & _ & _ & Hd).
  - split_and!; by vm_compute.
  - exact chain_prepared_schedulable.
  - exact Hc.
  - intros k od [Hin _]%(graph_from_lookup chain_ops 1 6). unfold chain_ops in Hin. rewrite !elem_of_cons in Hin.
    destruct Hin as [->|[->|[->|Hn]]]; [by vm_compute..|by apply not_elem_of_nil in Hn].
  - lia.
  - exists d, p', r. split; [exact E|]. split; [exact Er|].
    assert (exists ea eb, vtcm_allocations r !! 3 = Some ea /\ vtcm_allocations r !! 1 = Some eb /\ va_spilled ea = false /\ va_spilled eb = false)
      as (ea & eb & Ea & Eb & Sa & Sb).
    { assert ((d ← fst <$> build_graph_deps chain_prepared;
               vtcm_lifetime_alloc (fun _ => 0) (node_order chain_prepared) (Some d) 4096 None (fun _ => 0) no_clock) = Some r) as Ex.
      { rewrite E. exact Er. }
      vm_compute in Ex. injection Ex as <-. do 2 eexists. split; [by vm_compute|]. split; [by vm_compute|]. split; by vm_compute. }
    rewrite Ea, Eb. cbn [default].
    apply (Hd 3 (plain_op 3 "Neg" [1] [6; 6]) 3 1 (plain_op 3 "Neg" [1] [6; 6]) (plain_op 1 "Input" [] [3]) ea eb);
      [by vm_compute|by vm_compute|lia|left|right; left|by vm_compute|by vm_compute|exact Ea|exact Eb|exact Sa|exact Sb].
Defined.

(** C37: with the CP oracle the pass either keeps a solution that satisfies
    the constraints of the problem made from the same requests, and its
    addresses and transfers are those of that solution, or it comes to
    exactly what it would do without the oracle. *)
Theorem vtcm_alloc_cp_refines flags2 ordering d vtcm_size o slack_w clock r :
  vtcm_lifetime_alloc flags2 ordering (Some d) vtcm_size (Some o) slack_w clock = Some r ->
  if cp_active r
  then let problem := cp_problem ordering d (alloc_requests flags2 d) (usable_size vtcm_size) o slack_w in
       valid_solution problem (cp_solution r) /\
       vtcm_allocations r = entry_of_result <$> to_alloc_results (cp_solution r) problem /\
       cp_plans r = to_spill_fill_plans (cp_solution r) problem
  else vtcm_lifetime_alloc flags2 ordering (Some d) vtcm_size None slack_w clock = Some r.
Proof. apply vtcm_cp_ok. Qed.

(** The dependency graph of the chain of three ops. *)
Definition demo_deps : option GraphDeps := fst <$> build_deps demo_order demo_ops.

Lemma vtcm_alloc_cp_refines_witness :
  exists d r, demo_deps = Some d /\
    vtcm_lifetime_alloc (fun _ => 0) demo_order (Some d) 8192 (Some (opts_of FULL true)) (fun w => w) no_clock = Some r /\
    cp_active r = true /\
    valid_solution (cp_problem demo_order d (alloc_requests (fun _ => 0) d) (usable_size 8192) (opts_of FULL true) (fun w => w)) (cp_solution r).
Proof.
  destruct demo_deps as [d|] eqn:Ed; [|vm_compute in Ed; discriminate]. exists d.
  destruct (vtcm_lifetime_alloc (fun _ => 0) demo_order (Some d) 8192 (Some (opts_of FULL true)) (fun w => w) no_clock) as [r|] eqn:Er.
  2: { vm_compute in Ed. injection Ed as <-. vm_compute in Er. discriminate. }
  exists r. split; [reflexivity|]. split; [reflexivity|].
  assert (cp_active r = true) as Ha by (vm_compute in Ed; injection Ed as <-; vm_compute in Er; injection Er as <-; reflexivity).
  split; [exact Ha|]. pose proof (vtcm_alloc_cp_refines (fun _ => 0) demo_order d 8192 (opts_of FULL true) (fun w => w) no_clock r Er) as H.
  rewrite Ha in H. exact (proj1 H).
Defined.
