(* ===== verification/Sfcd.v ===== *)
(** The control data of spill and fill ([compiler/src/vtcm/spillfill_g4.cpp]):
    the writer of the SFCD words, the walk that prints them, the merging of
    copies, the spill/fill pools and the tagged fields of an area.  Proved
    here: what is written reads back, and merging copies the same bytes. *)
From S2P Require Import Prelude.

(** * Data *)

(** [(n + 0x3f) & ~0x3f] and [(n + 0xffff) & 0xffff0000] in [uint32_t]. *)
Definition g4_round_up_64 (n : Z) : Z := Z.land (u32 (n + 0x3f)) (u32 (Z.lnot 0x3f)).
Definition g4_round_up_64k (n : Z) : Z := Z.land (u32 (n + 0xffff)) 0xffff0000.

Record G4SfcdWaitEntry := mkWait { w_mb_idx : Z; w_val : Z }.
Record G4SlcCopy := mkCopy { tcm_offset : Z; copy_len : Z; cache_hints : Z }.

(** A record of the area carries the fields of all its types. *)
Record G4SlcRecord := mkRecord {
  rec_type : Z; ddr_pool : Z; sf_offset : Z; total_copy : Z;
  copies : list G4SlcCopy; pairs : list G4SfcdWaitEntry;
  mb_idx : Z; value_to_set : Z
}.

Definition G4_REC_SPILLFILL : Z := 0.
Definition G4_REC_WAITFOR : Z := 1.
Definition G4_REC_SETPROGRESS : Z := 2.

Record G4SlcArea := mkArea {
  area_id : Z; runlist_idx : Z; nsp_id : Z;
  is_fill : bool; is_multi_nsp : bool; dma_checkpoint : Z;
  records : list G4SlcRecord
}.

(** * The writer

    A thrown [invalid_argument] is [None].  [open_rec] is [None] for
    [SIZE_MAX]. *)

Record G4SfcdWriter := mkWriter {
  words : list Z; nrecords : Z; open_rec : option nat; open_blocks : Z
}.

Definition new_writer : G4SfcdWriter := mkWriter [0; 0; 0] 0 None 0.

(** The index of the head and the writer. *)
Definition begin_block_record (blob_off : Z) (w : G4SfcdWriter) : option (nat * G4SfcdWriter) :=
  match open_rec w with
  | Some _ => None
  | None => let rec := length (words w) in
            Some (rec, mkWriter (words w ++ [0; blob_off]) (nrecords w) (Some rec) 0)
  end.

Definition push_block_entry (tcm_off type_nibble len : Z) (w : G4SfcdWriter) : option G4SfcdWriter :=
  match open_rec w with
  | None => None
  | Some _ =>
      if negb (Z.land tcm_off 0xf =? 0) then None
      else if 0xf <? type_nibble then None
      else if open_blocks w =? 0xffff then None
      else Some (mkWriter (words w ++ [Z.lor tcm_off type_nibble; len]) (nrecords w) (open_rec w) (open_blocks w + 1))
  end.

Definition end_block_record (rec : nat) (pool : Z) (w : G4SfcdWriter) : option G4SfcdWriter :=
  if negb (bool_decide (open_rec w = Some rec)) then None
  else if 0x7fff <? pool then None
  else Some (mkWriter (<[rec := Z.lor (u32 (Z.shiftl pool 16)) (open_blocks w)]> (words w))
               (u32 (nrecords w + 1)) None 0).

Definition push_terminator (blob_off : Z) (w : G4SfcdWriter) : option G4SfcdWriter :=
  match open_rec w with
  | Some _ => None
  | None => Some (mkWriter (words w ++ [0; blob_off]) (u32 (nrecords w + 1)) None (open_blocks w))
  end.

(** The narrow form holds a pair in one word. *)
Definition narrow_pair (p : G4SfcdWaitEntry) : bool := negb ((0xff <? w_val p) || (0xffffff <? w_mb_idx p)).

Definition wait_chunk (narrow : bool) (ps : list G4SfcdWaitEntry) : list Z :=
  let cnt := Z.of_nat (length ps) in
  if narrow then
    Z.lor 0x80000000 (u32 cnt) :: ((fun p => Z.lor (u32 (Z.shiftl (w_val p) 24)) (w_mb_idx p)) <$> ps)
  else
    Z.lor (Z.lor 0x80000000 0x10000) (u32 (Z.shiftl (u32 cnt) 1)) :: concat ((fun p => [w_mb_idx p; w_val p]) <$> ps).

Definition push_chunk (narrow : bool) (w : G4SfcdWriter) (ps : list G4SfcdWaitEntry) : G4SfcdWriter :=
  mkWriter (words w ++ wait_chunk narrow ps) (u32 (nrecords w + 1)) (open_rec w) (open_blocks w).

(** Consecutive pieces of at most [chunk] pairs; as many rounds as there are
    pairs are enough. *)
Fixpoint chunks_of {A} (fuel chunk : nat) (l : list A) : list (list A) :=
  match fuel, l with
  | O, _ | _, [] => []
  | S fuel, _ => take chunk l :: chunks_of fuel chunk (drop chunk l)
  end.

Definition chunk_cap (narrow : bool) : nat := Z.to_nat (if narrow then 0xffff else 0x7fff).

Definition write_waits (ps : list G4SfcdWaitEntry) (w : G4SfcdWriter) : G4SfcdWriter :=
  let narrow := forallb narrow_pair ps in
  foldl (push_chunk narrow) w (chunks_of (length ps) (chunk_cap narrow) ps).

Definition write_set_progress (mb val : Z) (w : G4SfcdWriter) : option G4SfcdWriter :=
  if 0xffffff <? mb then None
  else Some (mkWriter (words w ++ [Z.lor 0x81000000 mb; val]) (u32 (nrecords w + 1)) (open_rec w) (open_blocks w)).

(** The length is that of the words after the first, in bytes. *)
Definition finish_header (checkpoint_index : Z) (w : G4SfcdWriter) : option (list Z) :=
  match open_rec w with
  | Some _ => None
  | None => let ws := words w in
            Some (<[0%nat := u32 (4 * Z.of_nat (length ws) - 4)]> (<[1%nat := u32 checkpoint_index]>
                   (<[2%nat := Z.land (nrecords w) 0xffffff]> ws)))
  end.

(** Neighbouring copies of contiguous bytes with the same hints become one;
    the last entry of the result comes first here. *)
Definition merge_copy (acc : list G4SlcCopy) (c : G4SlcCopy) : list G4SlcCopy :=
  match acc with
  | b :: acc' => if (cache_hints b =? cache_hints c) && (tcm_offset b + copy_len b =? tcm_offset c)
                 then mkCopy (tcm_offset b) (u32 (copy_len b + copy_len c)) (cache_hints b) :: acc'
                 else c :: acc
  | [] => [c]
  end.

Definition g4_sfcd_finalize_copies (cs : list G4SlcCopy) : list G4SlcCopy := reverse (foldl merge_copy [] cs).

(** ** The check *)

(** What the message names; the number of the record goes with it. *)
Inductive MgroupError :=
  | DdrPoolTooBig | TooManyCopies | NotAligned (off : Z) | WaitMbTooBig | SetMbTooBig | BadRecType (t : Z).

Definition check_record (r : G4SlcRecord) : option MgroupError :=
  if rec_type r =? G4_REC_SPILLFILL then
    if 0x7fff <? ddr_pool r then Some DdrPoolTooBig
    else if 0xffff <? Z.of_nat (length (copies r)) then Some TooManyCopies
    else match list_find (fun c => Z.land (tcm_offset c) 0xf <> 0) (copies r) with
         | Some (_, c) => Some (NotAligned (tcm_offset c))
         | None => None
         end
  else if rec_type r =? G4_REC_WAITFOR then
    if existsb (fun p => 0xffffff <? w_mb_idx p) (pairs r) then Some WaitMbTooBig else None
  else if rec_type r =? G4_REC_SETPROGRESS then
    if 0xffffff <? mb_idx r then Some SetMbTooBig else None
  else Some (BadRecType (rec_type r)).

(** [None]: the area can be written. *)
Definition g4_fill_mgroup_check (a : G4SlcArea) : option (nat * MgroupError) :=
  '(i, r) ← list_find (fun r => check_record r <> None) (records a);
  e ← check_record r; Some (i, e).

Definition write_record (w : G4SfcdWriter) (r : G4SlcRecord) : option G4SfcdWriter :=
  if rec_type r =? G4_REC_SPILLFILL then
    '(rec, w) ← begin_block_record (sf_offset r) w;
    w ← foldM (fun w c => push_block_entry (tcm_offset c) 0 (copy_len c) w) (g4_sfcd_finalize_copies (copies r)) w;
    end_block_record rec (ddr_pool r) w
  else if rec_type r =? G4_REC_WAITFOR then Some (write_waits (pairs r) w)
  else if rec_type r =? G4_REC_SETPROGRESS then write_set_progress (mb_idx r) (value_to_set r) w
  else Some w.

Definition g4_construct_sfcd (a : G4SlcArea) : option (list Z) :=
  match g4_fill_mgroup_check a with
  | Some _ => None
  | None => w ← foldM write_record (records a) new_writer; finish_header (dma_checkpoint a) w
  end.
(** * The reader

    The printed text is a list of lines, each its format with the arguments;
    the address of the buffer is left out.  The prefix of a line depends on
    [verbose] and the arrow and the words "spill"/"fill" on [is_fill] alone. *)

Inductive Line :=
  | LHead (total_bytes : Z)                     (** [---- SFCD for %s @ %p, %d bytes] *)
  | LCheckpoint (idx : Z)
  | LZeroRecords
  | LBlocks (n pool offset : Z)                 (** [%u fill from/spill to mempool %u, offset 0x%x] *)
  | LBlockTuple (pool pos tcm len type : Z)     (** verbose only *)
  | LBlock (pos tcm len : Z)
  | LSetTuple (mb val : Z) | LSet (mb val : Z)
  | LWaitTuple (mb val : Z) | LWait (mb val : Z)
  | LBadHeader (w : Z) | LBadHeaderFile (w : Z)
  | LTotal (bytes : Z)
  | LBadLength (n : Z).

Record G4SfcdWalk := mkWalk {
  total_bytes : Z; checkpoint_index : Z; record_count : Z;
  zero_records : bool; cursor_bytes : Z; bad_length : bool; bad_length_words : Z;
  blocks_total : Z; errors : list Z  (** the bad headers *)
}.

Section dump.
Context (sfcd : list Z) (verbose : bool).

Definition said (l : Line) : list Line := if verbose then [l] else [].

(** The entries of a block record from word [cur], the pool position being
    [pos]: lines, the sum of the lengths, the next word.  [None]: a word is
    read that the buffer does not have. *)
Fixpoint dump_blocks (n : nat) (pool : Z) (cur : nat) (pos total : Z) : option (list Line * Z * nat) :=
  match n with
  | O => Some ([], total, cur)
  | S n =>
      w ← sfcd !! cur; len ← sfcd !! S cur;
      let tcm := Z.land w (u32 (Z.lnot 0xf)) in
      let type := Z.land w 0xf in
      '(ls, total, cur') ← dump_blocks n pool (2 + cur) (u32 (pos + g4_round_up_64 len)) (u32 (total + len));
      Some (said (LBlockTuple pool pos tcm len type) ++ LBlock pos tcm len :: ls, total, cur')
  end.

Definition wait_lines (mb val : Z) : list Line := said (LWaitTuple mb val) ++ [LWait mb (i32 val)].

Fixpoint dump_pairs (n : nat) (cur : nat) : option (list Line * nat) :=
  match n with
  | O => Some ([], cur)
  | S n => mb ← sfcd !! cur; val ← sfcd !! S cur;
           '(ls, cur') ← dump_pairs n (2 + cur); Some (wait_lines mb val ++ ls, cur')
  end.

Fixpoint dump_singles (n : nat) (cur : nat) : option (list Line * nat) :=
  match n with
  | O => Some ([], cur)
  | S n => w ← sfcd !! cur;
           '(ls, cur') ← dump_singles n (S cur); Some (wait_lines (Z.land w 0xffffff) (Z.shiftr w 24) ++ ls, cur')
  end.

(** One record; the word of a bad header stops the walk. *)
Definition dump_record (cur : nat) (total : Z) : option (list Line * Z * nat + Z) :=
  w0 ← sfcd !! cur;
  if w0 <? 0x80000000 then
    blob_off ← sfcd !! S cur;
    let pool := Z.shiftr w0 16 in
    let nblocks := Z.land w0 0xffff in
    '(ls, total, cur') ← dump_blocks (Z.to_nat nblocks) pool (2 + cur) blob_off total;
    Some (inl (LBlocks nblocks pool blob_off :: ls, total, cur'))
  else if Z.shiftr w0 24 =? 0x81 then
    let mb := Z.land w0 0xffffff in
    val ← sfcd !! S cur;
    Some (inl (said (LSetTuple mb val) ++ [LSet mb (i32 val)], total, (2 + cur)%nat))
  else if Z.shiftr w0 24 =? 0x80 then
    '(ls, cur') ← (if negb (Z.land w0 0x10000 =? 0)
                   then dump_pairs (Z.to_nat (Z.shiftr (Z.land w0 0xffff) 1)) (S cur)
                   else dump_singles (Z.to_nat (Z.land w0 0xffff)) (S cur));
    Some (inl (ls, total, cur'))
  else Some (inr w0).

Fixpoint dump_records (n : nat) (cur : nat) (total : Z) : option (list Line * Z * nat * option Z) :=
  match n with
  | O => Some ([], total, cur, None)
  | S n =>
      r ← dump_record cur total;
      match r with
      | inl (ls, total, cur') =>
          '(ls', total, cur', bad) ← dump_records n cur' total; Some (ls ++ ls', total, cur', bad)
      | inr w => Some ([LBadHeader w; LBadHeaderFile w], total, cur, Some w)
      end
  end.

Definition g4_dump_sfcd : option (list Line * G4SfcdWalk) :=
  total_bytes ← sfcd !! 0%nat; ck ← sfcd !! 1%nat; cnt ← sfcd !! 2%nat;
  let ckpt := i32 ck in
  let count := Z.land cnt 0xffffff in
  let head := LHead (i32 total_bytes) :: (if ckpt =? 0 then [] else [LCheckpoint ckpt]) in
  if count =? 0 then
    Some (head ++ [LZeroRecords], mkWalk total_bytes ckpt count true 0 false 0 0 [])
  else
    '(ls, total, cur, bad) ← dump_records (Z.to_nat count) 3 0;
    let cursor := 4 * Z.of_nat cur in
    match bad with
    | Some w => Some (head ++ ls, mkWalk total_bytes ckpt count false cursor false 0 0 [w])
    | None =>
        let ok := cursor =? total_bytes + 4 in
        let n := Z.shiftr (u64 (cursor - (total_bytes + 4))) 2 in
        Some (head ++ ls ++ LTotal total :: (if ok then [] else [LBadLength n]),
              mkWalk total_bytes ckpt count false cursor (negb ok) (if ok then 0 else n) total [])
    end.
End dump.
(** * Bits *)

Lemma testbit_above x k i : 0 <= x < 2 ^ k -> 0 <= k <= i -> Z.testbit x i = false.
Proof. intros Hx Hk. rewrite <- (Z.mod_small x (2 ^ k)) by done. apply Z.mod_pow2_bits_high. lia. Qed.

Lemma land_shiftl_low x y k : 0 <= k -> 0 <= y < 2 ^ k -> Z.land (x * 2 ^ k) y = 0.
Proof.
intros Hk Hy. apply Z.bits_inj'. intros i Hi. rewrite Z.land_spec, Z.bits_0.
destruct (decide (i < k)) as [Hlt|Hge]; [by rewrite Z.mul_pow2_bits_low|].
by rewrite (testbit_above y k i), andb_false_r by lia.
Qed.

Lemma lor_shiftl_low x y k : 0 <= k -> 0 <= y < 2 ^ k -> Z.lor (x * 2 ^ k) y = x * 2 ^ k + y.
Proof. intros Hk Hy. rewrite <- Z.add_lor_land, land_shiftl_low by done. lia. Qed.

(** A field of [k] bits under another one. *)
Lemma pack_fields x y k : 0 <= k <= 32 -> 0 <= x < 2 ^ (32 - k) -> 0 <= y < 2 ^ k ->
  Z.lor (u32 (Z.shiftl x k)) y = x * 2 ^ k + y.
Proof.
intros Hk Hx Hy. rewrite Z.shiftl_mul_pow2 by lia.
assert (2 ^ 32 = 2 ^ (32 - k) * 2 ^ k) as E by (rewrite <- Z.pow_add_r by lia; f_equal; lia).
rewrite wrap_id, lor_shiftl_low; [done|lia|done|]. rewrite E. split; [nia|]. apply Z.mul_lt_mono_pos_r; lia.
Qed.

Lemma fields_high x y k : 0 <= k -> 0 <= y < 2 ^ k -> Z.shiftr (x * 2 ^ k + y) k = x.
Proof. intros Hk Hy. rewrite Z.shiftr_div_pow2, Z.add_comm, Z.div_add, Z.div_small; lia. Qed.

Lemma fields_low x y k : 0 <= k -> 0 <= y < 2 ^ k -> Z.land (x * 2 ^ k + y) (2 ^ k - 1) = y.
Proof.
intros Hk Hy. replace (2 ^ k - 1) with (Z.ones k) by (rewrite Z.ones_equiv; lia).
rewrite Z.land_ones, Z.add_comm, Z.mod_add, Z.mod_small by lia. done.
Qed.

(** An aligned offset loses nothing. *)
Lemma aligned_entry x : in_u32 x -> Z.land x 0xf = 0 -> Z.land x (u32 (Z.lnot 0xf)) = x.
Proof.
intros Hx Ha. apply Z.bits_inj'. intros i Hi. rewrite Z.land_spec. unfold wrap.
rewrite <- Z.land_ones, Z.land_spec, Z.lnot_spec by lia.
destruct (Z.testbit x i) eqn:E; [cbn|done]. change 0xf with (Z.ones 4) in *.
assert (4 <= i) as H4.
{ destruct (decide (4 <= i)); [done|]. assert (Z.testbit (Z.land x (Z.ones 4)) i = true) as Hb by (rewrite Z.land_spec, E, Z.ones_spec_low by lia; done).
  by rewrite Ha, Z.bits_0 in Hb. }
rewrite (Z.ones_spec_high 4) by lia. cbn. apply Z.ones_spec_low. split; [lia|].
destruct (decide (i < 32)); [done|]. by rewrite (testbit_above x 32 i) in E by lia.
Qed.

(** * What a record stands for *)

(** An outer record: its words, its lines and the lengths it adds. *)
Record Item := mkItem { it_words : list Z; it_lines : list Line; it_lens : list Z }.

Section items.
Context (verbose : bool).

Fixpoint copy_lines (pool pos : Z) (cs : list G4SlcCopy) : list Line :=
  match cs with
  | [] => []
  | c :: cs => said verbose (LBlockTuple pool pos (tcm_offset c) (copy_len c) 0) ++
               LBlock pos (tcm_offset c) (copy_len c) :: copy_lines pool (u32 (pos + g4_round_up_64 (copy_len c))) cs
  end.

Definition pair_lines (p : G4SfcdWaitEntry) : list Line := wait_lines verbose (w_mb_idx p) (w_val p).

Definition items (r : G4SlcRecord) : list Item :=
  if rec_type r =? G4_REC_SPILLFILL then
    let cs := g4_sfcd_finalize_copies (copies r) in
    let n := Z.of_nat (length cs) in
    [mkItem (Z.lor (u32 (Z.shiftl (ddr_pool r) 16)) n :: sf_offset r :: concat ((fun c => [Z.lor (tcm_offset c) 0; copy_len c]) <$> cs))
            (LBlocks n (ddr_pool r) (sf_offset r) :: copy_lines (ddr_pool r) (sf_offset r) cs) (copy_len <$> cs)]
  else if rec_type r =? G4_REC_WAITFOR then
    let narrow := forallb narrow_pair (pairs r) in
    (fun ps => mkItem (wait_chunk narrow ps) (concat (pair_lines <$> ps)) []) <$>
      chunks_of (length (pairs r)) (chunk_cap narrow) (pairs r)
  else if rec_type r =? G4_REC_SETPROGRESS then
    [mkItem [Z.lor 0x81000000 (mb_idx r); value_to_set r]
            (said verbose (LSetTuple (mb_idx r) (value_to_set r)) ++ [LSet (mb_idx r) (i32 (value_to_set r))]) []]
  else [].
End items.

Definition in_u32_pair (p : G4SfcdWaitEntry) : Prop := in_u32 (w_mb_idx p) /\ in_u32 (w_val p).
Definition in_u32_copy (c : G4SlcCopy) : Prop := in_u32 (tcm_offset c) /\ in_u32 (copy_len c).

(** The fields of a record within their types. *)
Record record_wf (r : G4SlcRecord) : Prop := {
  rw_pool : 0 <= ddr_pool r;
  rw_offset : in_u32 (sf_offset r);
  rw_copies : forall c, c ∈ copies r -> in_u32_copy c;
  rw_pairs : forall p, p ∈ pairs r -> in_u32_pair p;
  rw_mb : 0 <= mb_idx r;
  rw_value : in_u32 (value_to_set r)
}.

(** * Chunks *)

Lemma chunks_concat {A} fuel n (l : list A) : (0 < n)%nat -> (length l <= fuel)%nat -> concat (chunks_of fuel n l) = l.
Proof.
intros Hn. revert l. induction fuel as [|fuel IH]; intros [|x l] Hl; cbn in *; [done|lia|done|].
destruct n as [|n]; [lia|]. cbn. rewrite IH; [by rewrite take_drop|]. rewrite length_drop. lia.
Qed.

Lemma chunks_elem {A} fuel n (l : list A) c :
  (0 < n)%nat -> c ∈ chunks_of fuel n l -> (0 < length c <= n)%nat /\ forall x, x ∈ c -> x ∈ l.
Proof.
intros Hn. revert l. induction fuel as [|fuel IH]; intros [|y l] Hc; cbn in Hc; [by apply not_elem_of_nil in Hc..|].
apply elem_of_cons in Hc as [->|Hc].
- destruct n as [|n]; [lia|]. cbn. rewrite length_take. split; [lia|]. intros x. rewrite !elem_of_cons. intros [->|Hx]; [by left|right].
  by eapply subseteq_take.
- destruct (IH _ Hc) as [H1 H2]. split; [done|]. intros x Hx. eapply subseteq_drop. by apply H2.
Qed.

(** * Merging *)

Lemma merge_copy_wf acc c :
  (forall b, b ∈ acc -> in_u32_copy b) -> in_u32_copy c -> forall b, b ∈ merge_copy acc c -> in_u32_copy b.
Proof.
intros Ha Hc. destruct acc as [|b0 acc]; cbn; [set_solver|]. destruct (_ && _); [|set_solver].
intros b [->|Hb]%elem_of_cons; [|apply Ha; by right]. destruct (Ha b0 ltac:(left)) as [H1 H2].
split; cbn; [done|by apply u32_range].
Qed.

Lemma merge_copy_aligned acc c :
  (forall b, b ∈ acc -> Z.land (tcm_offset b) 0xf = 0) -> Z.land (tcm_offset c) 0xf = 0 ->
  forall b, b ∈ merge_copy acc c -> Z.land (tcm_offset b) 0xf = 0.
Proof.
intros Ha Hc. destruct acc as [|b0 acc]; cbn; [set_solver|]. destruct (_ && _); [|set_solver].
intros b [->|Hb]%elem_of_cons; [|apply Ha; by right]. apply (Ha b0). left.
Qed.

Lemma merge_copy_length acc c : (length (merge_copy acc c) <= S (length acc))%nat.
Proof. destruct acc; cbn; [lia|]. destruct (_ && _); cbn; lia. Qed.

(** What one step keeps, the whole merging keeps. *)
Lemma finalize_keeps (P : list G4SlcCopy -> Prop) cs :
  P [] -> (forall acc c, c ∈ cs -> P acc -> P (merge_copy acc c)) -> P (reverse (g4_sfcd_finalize_copies cs)).
Proof.
intros H0 Hs. unfold g4_sfcd_finalize_copies. rewrite reverse_involutive.
assert (forall acc, P acc -> P (foldl merge_copy acc cs)) as H; [|by apply H].
induction cs as [|c cs IH]; intros acc Ha; [done|]. cbn. apply IH; [set_solver|]. apply Hs; [left|done].
Qed.

Lemma finalize_elem (Q : G4SlcCopy -> Prop) cs :
  (forall acc c, (forall b, b ∈ acc -> Q b) -> Q c -> forall b, b ∈ merge_copy acc c -> Q b) ->
  (forall c, c ∈ cs -> Q c) -> forall b, b ∈ g4_sfcd_finalize_copies cs -> Q b.
Proof.
intros Hm Hq b Hb. apply (finalize_keeps (fun acc => forall b, b ∈ acc -> Q b) cs); [set_solver|eauto|by apply elem_of_reverse].
Qed.

Lemma finalize_length cs : (length (g4_sfcd_finalize_copies cs) <= length cs)%nat.
Proof.
unfold g4_sfcd_finalize_copies. rewrite length_reverse.
assert (forall acc, (length (foldl merge_copy acc cs) <= length acc + length cs)%nat) as H; [|apply (H [])].
induction cs as [|c cs IH]; intros acc; cbn; [lia|]. specialize (IH (merge_copy acc c)). pose proof (merge_copy_length acc c). lia.
Qed.
(** * Reading one record back *)

Definition add_lens (total : Z) (lens : list Z) : Z := foldl (fun t l => u32 (t + l)) total lens.

Definition parses (verbose : bool) (it : Item) : Prop := forall pre post total,
  dump_record (pre ++ it_words it ++ post) verbose (length pre) total =
    Some (inl (it_lines it, add_lens total (it_lens it), (length pre + length (it_words it))%nat)).

Lemma lookup_first {A} (pre : list A) x l : (pre ++ x :: l) !! length pre = Some x.
Proof. by apply list_lookup_middle. Qed.

Lemma lookup_second {A} (pre : list A) x y l : (pre ++ x :: y :: l) !! S (length pre) = Some y.
Proof. replace (pre ++ x :: y :: l) with ((pre ++ [x]) ++ y :: l) by (by rewrite <- app_assoc). apply list_lookup_middle. rewrite length_app. cbn. lia. Qed.

(** Two words further on. *)
Lemma skip_two {A} (pre : list A) x y l : pre ++ x :: y :: l = (pre ++ [x; y]) ++ l.
Proof. by rewrite <- app_assoc. Qed.

Lemma length_skip_two {A} (pre : list A) x y : length (pre ++ [x; y]) = (2 + length pre)%nat.
Proof. rewrite length_app. cbn. lia. Qed.

Lemma skip_one {A} (pre : list A) x l : pre ++ x :: l = (pre ++ [x]) ++ l.
Proof. by rewrite <- app_assoc. Qed.

Lemma length_skip_one {A} (pre : list A) x : length (pre ++ [x]) = S (length pre).
Proof. rewrite length_app. cbn. lia. Qed.

Lemma dump_blocks_spec verbose pool cs : (forall c, c ∈ cs -> in_u32_copy c /\ Z.land (tcm_offset c) 0xf = 0) ->
  forall pre post pos total,
  dump_blocks (pre ++ concat ((fun c => [Z.lor (tcm_offset c) 0; copy_len c]) <$> cs) ++ post) verbose (length cs) pool (length pre) pos total =
    Some (copy_lines verbose pool pos cs, add_lens total (copy_len <$> cs), (length pre + 2 * length cs)%nat).
Proof.
induction cs as [|c cs IH]; intros Hc pre post pos total; [by cbn; rewrite Nat.add_0_r|].
destruct (Hc c ltac:(left)) as [[H1 H2] H3]. change (2 + length pre)%nat with (S (S (length pre))) in *.
cbn [fmap list_fmap concat app dump_blocks length copy_lines]. rewrite lookup_first, lookup_second. cbn [mbind option_bind].
change (S (S (length pre))) with (2 + length pre)%nat.
rewrite skip_two, <- (length_skip_two pre (Z.lor (tcm_offset c) 0) (copy_len c)), IH by (intros c' Hc'; apply Hc; by right). cbn [mbind option_bind].
rewrite Z.lor_0_r, H3, aligned_entry by done. do 2 f_equal. rewrite length_app. cbn. lia.
Qed.

Lemma dump_pairs_spec verbose ps pre post :
  dump_pairs (pre ++ concat ((fun p => [w_mb_idx p; w_val p]) <$> ps) ++ post) verbose (length ps) (length pre) =
    Some (concat (pair_lines verbose <$> ps), (length pre + 2 * length ps)%nat).
Proof.
revert pre. induction ps as [|p ps IH]; intros pre; [by cbn; rewrite Nat.add_0_r|].
cbn [fmap list_fmap concat app dump_pairs length]. rewrite lookup_first, lookup_second. cbn [mbind option_bind].
change (S (S (length pre))) with (2 + length pre)%nat.
rewrite skip_two, <- (length_skip_two pre (w_mb_idx p) (w_val p)), IH. cbn [mbind option_bind]. f_equal. f_equal.
rewrite length_app. cbn. lia.
Qed.

Lemma dump_singles_spec verbose ps : (forall p, p ∈ ps -> in_u32_pair p /\ narrow_pair p = true) -> forall pre post,
  dump_singles (pre ++ ((fun p => Z.lor (u32 (Z.shiftl (w_val p) 24)) (w_mb_idx p)) <$> ps) ++ post) verbose (length ps) (length pre) =
    Some (concat (pair_lines verbose <$> ps), (length pre + length ps)%nat).
Proof.
induction ps as [|p ps IH]; intros Hp pre post; [by cbn; rewrite Nat.add_0_r|].
destruct (Hp p ltac:(left)) as [[H1 H2] H3]. unfold narrow_pair in H3. bool_prop.
assert (w_val p < 2 ^ 8 /\ w_mb_idx p < 2 ^ 24) as [Hv Hm] by (cbn; lia).
cbn [fmap list_fmap concat app dump_singles length]. rewrite lookup_first. cbn [mbind option_bind].
rewrite skip_one, <- (length_skip_one pre (Z.lor (u32 (Z.shiftl (w_val p) 24)) (w_mb_idx p))).
rewrite IH by (intros p' Hp'; apply Hp; by right). cbn [mbind option_bind].
rewrite pack_fields by (cbn; lia). change 0xffffff with (2 ^ 24 - 1). rewrite fields_low, fields_high by (cbn; lia).
f_equal. f_equal. rewrite length_app. cbn. lia.
Qed.

(** The words of a narrow chunk, of a wide one, and their heads. *)
Lemma narrow_head n : 0 < n <= 0xffff -> Z.lor 0x80000000 (u32 n) = 0x8000 * 2 ^ 16 + n.
Proof. intros Hn. rewrite wrap_id by lia. change 0x80000000 with (0x8000 * 2 ^ 16). apply lor_shiftl_low; cbn; lia. Qed.

Lemma wide_head n : 0 < n <= 0x7fff -> Z.lor (Z.lor 0x80000000 0x10000) (u32 (Z.shiftl (u32 n) 1)) = 0x8001 * 2 ^ 16 + n * 2.
Proof.
intros Hn. rewrite (wrap_id 32 n), Z.shiftl_mul_pow2, wrap_id by (cbn; lia).
change (Z.lor 0x80000000 0x10000) with (0x8001 * 2 ^ 16). apply lor_shiftl_low; cbn; lia.
Qed.

Lemma parse_waits verbose narrow ps :
  (0 < length ps <= chunk_cap narrow)%nat -> (forall p, p ∈ ps -> in_u32_pair p /\ (narrow = true -> narrow_pair p = true)) ->
  parses verbose (mkItem (wait_chunk narrow ps) (concat (pair_lines verbose <$> ps)) []).
Proof.
intros Hlen Hp pre post total. unfold parses, dump_record, chunk_cap in *. cbn [it_words it_lines it_lens].
unfold wait_chunk. set (n := Z.of_nat (length ps)). assert (Z.to_nat n = length ps) as Hn by lia.
destruct narrow.
- assert (0 < n <= 0xffff) as Hb by lia. cbn [app]. rewrite lookup_first. cbn [mbind option_bind]. rewrite narrow_head by done.
  rewrite (proj2 (Z.ltb_ge _ _)) by lia.
  assert (Z.shiftr (0x8000 * 2 ^ 16 + n) 24 = 0x80) as ->.
  { rewrite Z.shiftr_div_pow2 by lia. symmetry. apply Z.div_unique with n; lia. }
  change (128 =? 129) with false. change (128 =? 128) with true. cbn iota.
  assert (Z.land (0x8000 * 2 ^ 16 + n) 0x10000 = 0) as ->.
  { change 0x10000 with (1 * 2 ^ 16). apply Z.bits_inj'. intros i Hi. rewrite Z.land_spec, Z.bits_0.
    destruct (decide (i = 16)) as [->|Hne].
    - by rewrite Z.testbit_odd, fields_high by (cbn; lia).
    - destruct (decide (i < 16)); [by rewrite (Z.mul_pow2_bits_low 1), andb_false_r|].
      by rewrite (testbit_above (1 * 2 ^ 16) 17 i), andb_false_r by (cbn; lia). }
  change (0 =? 0) with true. cbn [negb]. change 0xffff with (2 ^ 16 - 1). rewrite fields_low by (cbn; lia).
  rewrite Hn. rewrite skip_one, <- (length_skip_one pre (0x8000 * 2 ^ 16 + n)).
  rewrite dump_singles_spec by (intros p Hin; destruct (Hp p Hin); auto). cbn [mbind option_bind].
  do 3 f_equal. rewrite length_app. cbn [length]. rewrite length_fmap. lia.
- assert (0 < n <= 0x7fff) as Hb by lia. cbn [app]. rewrite lookup_first. cbn [mbind option_bind]. rewrite wide_head by done.
  rewrite (proj2 (Z.ltb_ge _ _)) by lia.
  assert (Z.shiftr (0x8001 * 2 ^ 16 + n * 2) 24 = 0x80) as ->.
  { rewrite Z.shiftr_div_pow2 by lia. symmetry. apply Z.div_unique with (0x10000 + n * 2); lia. }
  change (128 =? 129) with false. change (128 =? 128) with true. cbn iota.
  assert (Z.land (0x8001 * 2 ^ 16 + n * 2) 0x10000 =? 0 = false) as ->.
  { apply Z.eqb_neq. intros E. assert (Z.testbit (Z.land (0x8001 * 2 ^ 16 + n * 2) 0x10000) 16 = false) as Hf by (by rewrite E, Z.bits_0).
    rewrite Z.land_spec in Hf. change (Z.testbit 0x10000 16) with true in Hf. rewrite andb_true_r in Hf.
    by rewrite Z.testbit_odd, fields_high in Hf by (cbn; lia). }
  cbn [negb]. change 0xffff with (2 ^ 16 - 1). rewrite fields_low by (cbn; lia).
  rewrite Z.shiftr_div_pow2, Z.div_mul by lia.
  rewrite Hn. rewrite skip_one, <- (length_skip_one pre (0x8001 * 2 ^ 16 + n * 2)).
  rewrite dump_pairs_spec. cbn [mbind option_bind].
  do 3 f_equal. rewrite length_app. cbn [length].
  assert (length (concat ((fun p => [w_mb_idx p; w_val p]) <$> ps)) = (2 * length ps)%nat) as ->; [|lia].
  clear. induction ps as [|p ps IH]; [done|]. cbn in *. lia.
Qed.
Lemma chunk_cap_pos narrow : (0 < chunk_cap narrow)%nat.
Proof. destruct narrow; unfold chunk_cap; lia. Qed.

(** What the check lets through. *)
Lemma check_record_ok r : check_record r = None ->
  (rec_type r = 0 /\ ddr_pool r <= 0x7fff /\ Z.of_nat (length (copies r)) <= 0xffff /\
     forall c, c ∈ copies r -> Z.land (tcm_offset c) 0xf = 0) \/
  rec_type r = 1 \/ (rec_type r = 2 /\ mb_idx r <= 0xffffff).
Proof.
unfold check_record, G4_REC_SPILLFILL, G4_REC_WAITFOR, G4_REC_SETPROGRESS. repeat case_bool; intros H; try done.
- left. destruct (list_find _ _) as [[i c]|] eqn:Ef; [done|]. split_and!; [done..|].
  intros c Hc. apply list_find_None in Ef. rewrite Forall_forall in Ef. specialize (Ef c Hc). by apply dec_stable in Ef.
- by right; left.
- by right; right.
Qed.

Lemma items_parse verbose r it : record_wf r -> check_record r = None -> it ∈ items verbose r -> parses verbose it.
Proof.
intros Hw Hc Hit. unfold items, G4_REC_SPILLFILL, G4_REC_WAITFOR, G4_REC_SETPROGRESS in Hit. apply check_record_ok in Hc.
destruct Hc as [(Ht & Hp & Hl & Ha)|[Ht|[Ht Hm]]]; rewrite Ht in Hit; cbn [Z.eqb Pos.eqb] in Hit.
- apply list_elem_of_singleton in Hit as ->. set (cs := g4_sfcd_finalize_copies (copies r)) in *. set (n := Z.of_nat (length cs)).
  assert (0 <= n < 2 ^ 16) as Hn by (pose proof (finalize_length (copies r)) as Hfl; fold cs in Hfl; lia).
  pose proof (rw_pool r Hw). intros pre post total. unfold dump_record. cbn [it_words it_lines it_lens app].
  rewrite lookup_first, lookup_second. cbn [mbind option_bind]. rewrite pack_fields by (cbn; lia).
  rewrite (proj2 (Z.ltb_lt _ _)) by lia. rewrite fields_high by lia. change 0xffff with (2 ^ 16 - 1). rewrite fields_low by lia.
  replace (Z.to_nat n) with (length cs) by lia.
  change (S (S (length pre))) with (2 + length pre)%nat. rewrite skip_two, <- (length_skip_two pre (ddr_pool r * 2 ^ 16 + n) (sf_offset r)).
  rewrite dump_blocks_spec.
  + cbn [mbind option_bind]. do 3 f_equal. rewrite length_app. cbn [length].
    assert (length (concat ((fun c => [Z.lor (tcm_offset c) 0; copy_len c]) <$> cs)) = (2 * length cs)%nat) as ->; [|lia].
    clear. induction cs as [|c cs IH]; [done|]. cbn in *. lia.
  + intros c Hin. split.
    * apply (finalize_elem in_u32_copy (copies r)); [apply merge_copy_wf|apply (rw_copies r Hw)|done].
    * apply (finalize_elem (fun c => Z.land (tcm_offset c) 0xf = 0) (copies r)); [apply merge_copy_aligned|apply Ha|done].
- apply list_elem_of_fmap in Hit as (ps & -> & Hps). apply chunks_elem in Hps as [Hlen Hin]; [|apply chunk_cap_pos].
  apply parse_waits; [done|]. intros p Hp. split; [by apply (rw_pairs r Hw), Hin|]. intros Hn. rewrite forallb_forall in Hn.
  apply Hn, list_elem_of_In. by apply Hin.
- apply list_elem_of_singleton in Hit as ->. pose proof (rw_mb r Hw). intros pre post total. unfold dump_record.
  cbn [it_words it_lines it_lens app]. rewrite lookup_first, lookup_second. cbn [mbind option_bind].
  change 0x81000000 with (0x81 * 2 ^ 24). rewrite lor_shiftl_low by (cbn; lia). rewrite (proj2 (Z.ltb_ge _ _)) by lia.
  rewrite fields_high by (cbn; lia). change (129 =? 129) with true. cbn iota. change 0xffffff with (2 ^ 24 - 1).
  rewrite fields_low by (cbn; lia). do 3 f_equal. cbn. lia.
Qed.

(** * Reading a sequence of records *)

Definition it_all {A} (f : Item -> list A) (its : list Item) : list A := concat (f <$> its).

Lemma add_lens_app total l k : add_lens total (l ++ k) = add_lens (add_lens total l) k.
Proof. apply foldl_app. Qed.

Lemma dump_records_spec verbose its : (forall it, it ∈ its -> parses verbose it) -> forall pre post total,
  dump_records (pre ++ it_all it_words its ++ post) verbose (length its) (length pre) total =
    Some (it_all it_lines its, add_lens total (it_all it_lens its), (length pre + length (it_all it_words its))%nat, None).
Proof.
induction its as [|it its IH]; intros Hp pre post total; [by cbn; rewrite Nat.add_0_r|].
unfold it_all. cbn [fmap list_fmap concat length dump_records]. rewrite <- app_assoc, (Hp it) by (left).
cbn [mbind option_bind]. rewrite (app_assoc pre), <- length_app. rewrite IH by (intros it' Hin; apply Hp; by right). cbn [mbind option_bind].
rewrite add_lens_app. do 2 f_equal. rewrite !length_app. unfold it_all. by rewrite Nat.add_assoc.
Qed.

(** * What the writer writes *)

Definition closed (w : G4SfcdWriter) : Prop := open_rec w = None.

Lemma foldM_push cs w rec : open_rec w = Some rec -> (forall c, c ∈ cs -> Z.land (tcm_offset c) 0xf = 0) ->
  0 <= open_blocks w -> open_blocks w + Z.of_nat (length cs) <= 0xffff ->
  foldM (fun w c => push_block_entry (tcm_offset c) 0 (copy_len c) w) cs w =
    Some (mkWriter (words w ++ concat ((fun c => [Z.lor (tcm_offset c) 0; copy_len c]) <$> cs)) (nrecords w) (Some rec)
            (open_blocks w + Z.of_nat (length cs))).
Proof.
revert w. induction cs as [|c cs IH]; intros w Ho Ha H0 Hl.
{ cbn. rewrite app_nil_r, Z.add_0_r, <- Ho. by destruct w. }
cbn [length] in Hl.
assert (push_block_entry (tcm_offset c) 0 (copy_len c) w =
  Some (mkWriter (words w ++ [Z.lor (tcm_offset c) 0; copy_len c]) (nrecords w) (open_rec w) (open_blocks w + 1))) as E.
{ unfold push_block_entry. rewrite Ho, (Ha c) by (left). cbn [Z.eqb negb].
  rewrite (proj2 (Z.ltb_ge _ _)) by lia. by rewrite (proj2 (Z.eqb_neq _ _)) by lia. }
cbn [foldM]. rewrite E. cbn [mbind option_bind].
rewrite IH; cbn [open_rec open_blocks words nrecords]; [|done|intros c' Hc'; apply Ha; by right|lia|lia].
cbn [fmap list_fmap concat length]. rewrite <- app_assoc. do 2 f_equal. lia.
Qed.

Lemma fold_chunks narrow l w :
  foldl (push_chunk narrow) w l =
    mkWriter (words w ++ concat (wait_chunk narrow <$> l)) (foldl (fun n _ => u32 (n + 1)) (nrecords w) l) (open_rec w) (open_blocks w).
Proof.
revert w. induction l as [|c l IH]; intros w; [by cbn; rewrite app_nil_r; destruct w|]. cbn. rewrite IH. cbn. by rewrite <- app_assoc.
Qed.

Lemma count_up {A} n (l : list A) : 0 <= n -> n + Z.of_nat (length l) < 2 ^ 32 -> foldl (fun n _ => u32 (n + 1)) n l = n + Z.of_nat (length l).
Proof. revert n. induction l as [|x l IH]; intros n H0 H; cbn in *; [lia|]. unwrap. rewrite IH; lia. Qed.

Lemma write_record_spec verbose r w : check_record r = None -> closed w -> 0 <= nrecords w ->
  nrecords w + Z.of_nat (length (items verbose r)) < 2 ^ 32 ->
  exists w', write_record w r = Some w' /\ closed w' /\ words w' = words w ++ it_all it_words (items verbose r) /\
    nrecords w' = nrecords w + Z.of_nat (length (items verbose r)).
Proof.
intros Hc Hcl H0 Hlt. unfold write_record, items, it_all, G4_REC_SPILLFILL, G4_REC_WAITFOR, G4_REC_SETPROGRESS in *. apply check_record_ok in Hc.
destruct Hc as [(Ht & Hp & Hl & Ha)|[Ht|[Ht Hm]]]; rewrite Ht in *; cbn [Z.eqb Pos.eqb] in *.
- unfold begin_block_record. rewrite Hcl. cbn [mbind option_bind]. set (cs := g4_sfcd_finalize_copies (copies r)) in *.
  assert (Z.of_nat (length cs) <= 0xffff) by (pose proof (finalize_length (copies r)) as Hfl; fold cs in Hfl; lia).
  rewrite (foldM_push _ _ (length (words w))); cbn [open_rec open_blocks words nrecords]; [|done| |lia|lia].
  2: { intros c Hin. apply (finalize_elem (fun c => Z.land (tcm_offset c) 0xf = 0) (copies r)); [apply merge_copy_aligned|apply Ha|done]. }
  cbn [mbind option_bind]. unfold end_block_record. cbn [open_rec words nrecords open_blocks]. rewrite bool_decide_eq_true_2 by done.
  cbn [negb]. rewrite (proj2 (Z.ltb_ge _ _)) by lia. eexists. split; [done|]. split; [done|]. cbn [words nrecords length] in *. split; [|unwrap; lia].
  rewrite <- app_assoc, insert_app_r_alt, Nat.sub_diag by lia. cbn. by rewrite app_nil_r.
- eexists. split; [done|]. unfold write_waits. rewrite fold_chunks. cbn [open_rec words nrecords]. split; [done|].
  rewrite length_fmap in Hlt. rewrite length_fmap. split; [|by apply count_up]. by rewrite <- list_fmap_compose.
- unfold write_set_progress. rewrite (proj2 (Z.ltb_ge _ _)) by lia. eexists. split; [done|]. split; [done|]. cbn [words nrecords length] in *.
  split; [done|]. unwrap. lia.
Qed.

Definition all_items (verbose : bool) (a : G4SlcArea) : list Item := concat (items verbose <$> records a).

Lemma write_records_spec verbose rs w : (forall r, r ∈ rs -> check_record r = None) -> closed w -> 0 <= nrecords w ->
  nrecords w + Z.of_nat (length (concat (items verbose <$> rs))) < 2 ^ 32 ->
  exists w', foldM write_record rs w = Some w' /\ closed w' /\ words w' = words w ++ it_all it_words (concat (items verbose <$> rs)) /\
    nrecords w' = nrecords w + Z.of_nat (length (concat (items verbose <$> rs))).
Proof.
revert w. induction rs as [|r rs IH]; intros w Hc Hcl H0 Hlt.
{ exists w. cbn. rewrite app_nil_r. split_and!; [done..|lia]. }
cbn [fmap list_fmap concat] in Hlt. rewrite length_app in Hlt.
destruct (write_record_spec verbose r w) as (w1 & E1 & C1 & W1 & N1); [apply Hc; left|done|done|lia|].
destruct (IH w1) as (w2 & E2 & C2 & W2 & N2); [intros r' Hr'; apply Hc; by right|done|lia|lia|].
exists w2. cbn [foldM]. rewrite E1. cbn [mbind option_bind]. split; [done|]. split; [done|].
cbn [fmap list_fmap concat]. unfold it_all in *. rewrite fmap_app, concat_app, length_app, W2, W1, <- app_assoc. split; [done|lia].
Qed.
(** * Writing and reading back *)

(** The lines an area should give, in its own terms. *)
Definition record_lines (verbose : bool) (r : G4SlcRecord) : list Line :=
  if rec_type r =? G4_REC_SPILLFILL then
    let cs := g4_sfcd_finalize_copies (copies r) in
    LBlocks (Z.of_nat (length cs)) (ddr_pool r) (sf_offset r) :: copy_lines verbose (ddr_pool r) (sf_offset r) cs
  else if rec_type r =? G4_REC_WAITFOR then concat (pair_lines verbose <$> pairs r)
  else if rec_type r =? G4_REC_SETPROGRESS then
    said verbose (LSetTuple (mb_idx r) (value_to_set r)) ++ [LSet (mb_idx r) (i32 (value_to_set r))]
  else [].

(** The lengths an area copies, with neighbouring copies merged. *)
Definition record_lens (r : G4SlcRecord) : list Z :=
  if rec_type r =? G4_REC_SPILLFILL then copy_len <$> g4_sfcd_finalize_copies (copies r) else [].

(** How many outer records a record takes. *)
Definition record_parts (r : G4SlcRecord) : nat := length (items false r).
Definition area_parts (a : G4SlcArea) : nat := sum_list (record_parts <$> records a).
Definition area_words (a : G4SlcArea) : nat := (3 + length (it_all it_words (all_items false a)))%nat.

Record area_wf (a : G4SlcArea) : Prop := {
  aw_records : forall r, r ∈ records a -> record_wf r;
  aw_checkpoint : - 2 ^ 31 <= dma_checkpoint a < 2 ^ 31;
  aw_parts : Z.of_nat (area_parts a) < 2 ^ 24;
  aw_words : 4 * Z.of_nat (area_words a) < 2 ^ 32
}.

Lemma items_words v r : it_words <$> items v r = it_words <$> items false r.
Proof.
unfold items. destruct (_ =? _); [done|]. destruct (_ =? _); [by rewrite <- !list_fmap_compose|]. by destruct (_ =? _).
Qed.

Lemma items_lines v r : it_all it_lines (items v r) = record_lines v r.
Proof.
unfold items, record_lines, it_all. destruct (_ =? _); [by cbn; rewrite app_nil_r|]. destruct (_ =? _).
- rewrite <- list_fmap_compose. unfold compose. cbn [it_lines].
  set (ch := chunks_of _ _ _).
  assert (pairs r = concat ch) as -> by (symmetry; apply chunks_concat; [apply chunk_cap_pos|lia]).
  clearbody ch. induction ch as [|c l IH]; [done|]. cbn [fmap list_fmap concat]. by rewrite IH, fmap_app, concat_app.
- destruct (_ =? _); [|done]. cbn [fmap list_fmap concat it_lines]. by rewrite app_nil_r.
Qed.

Lemma items_lens v r : it_all it_lens (items v r) = record_lens r.
Proof.
unfold items, record_lens, it_all. destruct (_ =? _); [by cbn; rewrite app_nil_r|]. destruct (_ =? _); [|by destruct (_ =? _)].
rewrite <- list_fmap_compose. unfold compose. cbn [it_lens].
generalize (chunks_of (length (pairs r)) (chunk_cap (forallb narrow_pair (pairs r))) (pairs r)). intros l. by induction l.
Qed.

Lemma it_all_concat {A B} (f : Item -> list A) (g : B -> list Item) (h : B -> list A) l :
  (forall x, it_all f (g x) = h x) -> it_all f (concat (g <$> l)) = concat (h <$> l).
Proof.
intros H. induction l as [|x l IH]; [done|]. cbn [fmap list_fmap concat]. unfold it_all in *. by rewrite fmap_app, concat_app, IH, H.
Qed.

Lemma all_items_words v a : it_all it_words (all_items v a) = it_all it_words (all_items false a).
Proof. unfold all_items. rewrite !(it_all_concat it_words _ (fun r => it_all it_words (items false r))); [done|done|]. intros r. unfold it_all. by rewrite items_words. Qed.

Lemma all_items_length v a : length (all_items v a) = area_parts a.
Proof.
unfold all_items, area_parts. induction (records a) as [|r l IH]; [done|]. cbn [fmap list_fmap concat]. rewrite length_app, IH. cbn. f_equal.
unfold record_parts. by rewrite <- (length_fmap it_words), items_words, length_fmap.
Qed.

Lemma mgroup_ok a : g4_fill_mgroup_check a = None <-> forall r, r ∈ records a -> check_record r = None.
Proof.
unfold g4_fill_mgroup_check. split.
- intros H r Hr. destruct (list_find _ _) as [[i x]|] eqn:E.
  + apply list_find_Some in E as (_ & Hx & _). cbn in H. by destruct (check_record x).
  + apply list_find_None in E. rewrite Forall_forall in E. specialize (E r Hr). by apply dec_stable in E.
- intros H. destruct (list_find _ _) as [[i x]|] eqn:E; [|done]. apply list_find_Some in E as (Hi & Hx & _).
  exfalso. apply Hx, H. by eapply list_elem_of_lookup_2.
Qed.

Lemma construct_spec v a : area_wf a -> g4_fill_mgroup_check a = None ->
  g4_construct_sfcd a = Some (u32 (4 * Z.of_nat (area_words a) - 4) :: u32 (dma_checkpoint a) :: Z.of_nat (area_parts a) ::
    it_all it_words (all_items v a)).
Proof.
intros Hw Hc. pose proof (proj1 (mgroup_ok a) Hc) as Hr. unfold g4_construct_sfcd. rewrite Hc. pose proof (aw_parts a Hw) as Hp.
destruct (write_records_spec v (records a) new_writer) as (w & E & Cl & W & N); [done|done|done| |].
{ pose proof (all_items_length v a) as Hal. unfold all_items in Hal. rewrite Hal. cbn. lia. }
rewrite E. cbn [mbind option_bind]. unfold finish_header. rewrite Cl, W, N. cbn [words nrecords new_writer].
change (concat (items v <$> records a)) with (all_items v a) in *. rewrite all_items_length. cbn [app length].
change 0xffffff with (Z.ones 24). rewrite Z.land_ones, Z.mod_small by lia. cbn [insert list_insert].
unfold area_words. rewrite <- (all_items_words v). done.
Qed.

Lemma i32_of_i32 z : - 2 ^ 31 <= z < 2 ^ 31 -> i32 (u32 z) = z.
Proof. intros Hz. unfold i32, wrap. rewrite Zplus_mod_idemp_l, Z.mod_small by lia. lia. Qed.

(** The area as the reader should report it. *)
Definition area_lines (verbose : bool) (a : G4SlcArea) : list Line :=
  (if dma_checkpoint a =? 0 then [] else [LCheckpoint (dma_checkpoint a)]) ++
  (if (area_parts a =? 0)%nat then [LZeroRecords]
   else concat (record_lines verbose <$> records a) ++ [LTotal (add_lens 0 (concat (record_lens <$> records a)))]).

Lemma dump_constructed v a : area_wf a -> g4_fill_mgroup_check a = None ->
  exists ws n walk, g4_construct_sfcd a = Some ws /\ g4_dump_sfcd ws v = Some (LHead n :: area_lines v a, walk) /\
    checkpoint_index walk = dma_checkpoint a /\ record_count walk = Z.of_nat (area_parts a) /\
    total_bytes walk + 4 = 4 * Z.of_nat (length ws) /\ bad_length walk = false /\ errors walk = [] /\
    blocks_total walk = add_lens 0 (concat (record_lens <$> records a)).
Proof.
intros Hw Hc. rewrite (construct_spec v) by done. set (ws := _ :: _). pose proof (aw_words a Hw) as Hl. pose proof (aw_parts a Hw) as Hp.
assert (length ws = area_words a) as Hws by (unfold ws, area_words; cbn [length]; by rewrite (all_items_words v)).
assert (3 <= area_words a)%nat by (unfold area_words; lia).
exists ws, (i32 (u32 (4 * Z.of_nat (area_words a) - 4))).
assert (u32 (4 * Z.of_nat (area_words a) - 4) = 4 * Z.of_nat (area_words a) - 4) as Ht by (apply wrap_id; lia).
unfold g4_dump_sfcd. cbn [lookup list_lookup ws]. cbn [mbind option_bind]. rewrite (i32_of_i32 (dma_checkpoint a)) by apply (aw_checkpoint a Hw).
change 0xffffff with (Z.ones 24). rewrite Z.land_ones, Z.mod_small by lia. unfold area_lines.
destruct (area_parts a =? 0)%nat eqn:E0.
- apply Nat.eqb_eq in E0. rewrite E0. cbn [Z.of_nat Z.eqb]. eexists. split; [done|]. split; [done|]. cbn [checkpoint_index record_count total_bytes bad_length errors blocks_total].
  split_and!; [done..|rewrite Ht; lia|done|done|].
  rewrite <- (it_all_concat it_lens (items v)) by (intros; apply items_lens). fold (all_items v a).
  assert (all_items v a = []) as -> by (apply nil_length_inv; by rewrite all_items_length). done.
- apply Nat.eqb_neq in E0. rewrite (proj2 (Z.eqb_neq _ _)) by lia. rewrite Nat2Z.id, <- (all_items_length v a).
  pose proof (dump_records_spec v (all_items v a)) as Hd.
  specialize (Hd ltac:(intros it (its & Hits & Hin)%elem_of_concat; apply list_elem_of_fmap in Hits as (r & -> & Hr);
    eapply items_parse; [by apply (aw_records a Hw)|by apply (proj1 (mgroup_ok a) Hc)|done])).
  specialize (Hd [u32 (4 * Z.of_nat (area_words a) - 4); u32 (dma_checkpoint a); Z.of_nat (area_parts a)] [] 0).
  rewrite app_nil_r in Hd. cbn [app length] in Hd. fold ws in Hd. rewrite Hd. cbn [mbind option_bind].
  assert (4 * Z.of_nat (3 + length (it_all it_words (all_items v a))) = 4 * Z.of_nat (area_words a)) as Hcur
    by (unfold area_words; by rewrite (all_items_words v)).
  rewrite Hcur, Ht. replace (4 * Z.of_nat (area_words a) - 4 + 4) with (4 * Z.of_nat (area_words a)) by lia. rewrite Z.eqb_refl. cbn [negb].
  eexists. split; [done|]. rewrite all_items_length.
  unfold all_items. rewrite (it_all_concat it_lines (items v) (record_lines v)) by (intros; apply items_lines).
  rewrite (it_all_concat it_lens (items v) record_lens) by (intros; apply items_lens). split.
  { by destruct (dma_checkpoint a =? 0). }
  cbn [checkpoint_index record_count total_bytes bad_length errors blocks_total]. split_and!; try done. rewrite Hws. lia.
Qed.
(** * What merging keeps *)

(** The bytes of a copy in the VTCM. *)
Definition copy_bytes (c : G4SlcCopy) : list Z := seqZ (tcm_offset c) (copy_len c).

(** Where the entries of a block record are: pairs of a pool position and a
    VTCM address, byte by byte, the way the reader walks them. *)
Fixpoint placed (pos : Z) (cs : list G4SlcCopy) : list (Z * Z) :=
  match cs with
  | [] => []
  | c :: cs => zip (seqZ pos (copy_len c)) (copy_bytes c) ++ placed (u32 (pos + g4_round_up_64 (copy_len c))) cs
  end.

Definition copy_fits (c : G4SlcCopy) : Prop := 0 <= tcm_offset c /\ 0 <= copy_len c /\ tcm_offset c + copy_len c < 2 ^ 32.

Lemma merge_copy_cases acc c :
  (exists b acc', acc = b :: acc' /\ tcm_offset b + copy_len b = tcm_offset c /\
     merge_copy acc c = mkCopy (tcm_offset b) (u32 (copy_len b + copy_len c)) (cache_hints b) :: acc') \/
  merge_copy acc c = c :: acc.
Proof.
destruct acc as [|b acc]; [by right|]. cbn. destruct (_ && _) eqn:E; [|by right]. bool_prop. left. by exists b, acc.
Qed.

(** A view of the copies that one merging step keeps, the whole keeps. *)
Lemma finalize_same {A} (view : list G4SlcCopy -> A) (ok : list G4SlcCopy -> Prop) cs :
  (forall pre b c post, ok (pre ++ b :: c :: post) -> tcm_offset b + copy_len b = tcm_offset c ->
     let m := mkCopy (tcm_offset b) (u32 (copy_len b + copy_len c)) (cache_hints b) in
     ok (pre ++ m :: post) /\ view (pre ++ m :: post) = view (pre ++ b :: c :: post)) ->
  ok cs -> view (g4_sfcd_finalize_copies cs) = view cs.
Proof.
intros Hm. unfold g4_sfcd_finalize_copies.
assert (forall acc, ok (reverse acc ++ cs) -> view (reverse (foldl merge_copy acc cs)) = view (reverse acc ++ cs)) as H; [|by apply (H [])].
induction cs as [|c cs IH]; intros acc Hok; [by rewrite app_nil_r|]. cbn [foldl].
destruct (merge_copy_cases acc c) as [(b & acc' & -> & Hadj & ->)| ->].
- rewrite reverse_cons, <- app_assoc in Hok. cbn in Hok. destruct (Hm (reverse acc') b c cs Hok Hadj) as [Hok' Hv].
  rewrite IH by (by rewrite reverse_cons, <- app_assoc). by rewrite !reverse_cons, <- !app_assoc.
- rewrite IH by (by rewrite reverse_cons, <- app_assoc). by rewrite reverse_cons, <- app_assoc.
Qed.

Lemma merge_bytes b c : copy_fits b -> copy_fits c -> tcm_offset b + copy_len b = tcm_offset c ->
  copy_bytes (mkCopy (tcm_offset b) (u32 (copy_len b + copy_len c)) (cache_hints b)) = copy_bytes b ++ copy_bytes c.
Proof.
intros (H1 & H2 & H3) (H4 & H5 & H6) Hadj. unfold copy_bytes. cbn [tcm_offset copy_len]. rewrite wrap_id by lia. rewrite seqZ_app by lia. by rewrite Hadj.
Qed.

Lemma merged_fits b c : copy_fits b -> copy_fits c -> tcm_offset b + copy_len b = tcm_offset c ->
  copy_fits (mkCopy (tcm_offset b) (u32 (copy_len b + copy_len c)) (cache_hints b)).
Proof. intros (H1 & H2 & H3) (H4 & H5 & H6) Hadj. unfold copy_fits. cbn [tcm_offset copy_len]. rewrite wrap_id by lia. lia. Qed.

(** Merging copies the same bytes in the same order. *)
Lemma finalize_bytes cs : (forall c, c ∈ cs -> copy_fits c) ->
  concat (copy_bytes <$> g4_sfcd_finalize_copies cs) = concat (copy_bytes <$> cs).
Proof.
apply (finalize_same (fun cs => concat (copy_bytes <$> cs)) (fun cs => forall c, c ∈ cs -> copy_fits c)).
intros pre b c post Hok Hadj m. assert (copy_fits b /\ copy_fits c) as [Hb Hc] by (split; apply Hok; set_solver). split.
- intros x Hx. apply elem_of_app in Hx as [Hx|[->|Hx]%elem_of_cons]; [apply Hok; set_solver|by apply merged_fits|apply Hok; set_solver].
- rewrite !fmap_app, !concat_app. cbn [fmap list_fmap concat]. unfold m. rewrite merge_bytes by done. by rewrite <- app_assoc.
Qed.

Lemma round_64_multiple n : 0 <= n -> n + 64 <= 2 ^ 32 -> (64 | n) -> g4_round_up_64 n = n.
Proof. intros H0 H1 Hd. unfold g4_round_up_64. change 0x3f with (2 ^ 6 - 1). rewrite round_up_mask_u32 by (cbn; lia). by apply round_up_multiple. Qed.

(** Sizes for which the pool position does not wrap. *)
Definition whole_lines (pos : Z) (cs : list G4SlcCopy) : Prop :=
  0 <= pos /\ pos + sum_by copy_len cs + 64 <= 2 ^ 32 /\ forall c, c ∈ cs -> copy_fits c /\ (64 | copy_len c).

Lemma placed_app pos l k : whole_lines pos (l ++ k) -> placed pos (l ++ k) = placed pos l ++ placed (pos + sum_by copy_len l) k.
Proof.
revert pos. induction l as [|c l IH]; intros pos (H0 & Hs & Hc); [by cbn; rewrite Z.add_0_r|].
destruct (Hc c ltac:(left)) as [(H1 & H2 & H3) H4].
assert (0 <= sum_by copy_len (l ++ k)) by (apply sum_by_nonneg; intros x Hx; destruct (Hc x ltac:(right; done)) as [(? & ? & _) _]; done).
change (sum_by copy_len ((c :: l) ++ k)) with (copy_len c + sum_by copy_len (l ++ k)) in Hs.
cbn [app placed]. change (sum_by copy_len (c :: l)) with (copy_len c + sum_by copy_len l).
rewrite round_64_multiple, wrap_id by (done || lia). rewrite IH, <- app_assoc; [by rewrite Z.add_assoc|].
split; [lia|]. split; [lia|]. intros x Hx. apply Hc. by right.
Qed.

Lemma finalize_placed pos cs : whole_lines pos cs -> placed pos (g4_sfcd_finalize_copies cs) = placed pos cs.
Proof.
apply (finalize_same (placed pos) (whole_lines pos)). intros pre b c post Hok Hadj m. pose proof Hok as (H0 & Hs & Hc).
destruct (Hc b ltac:(set_solver)) as [Hb Hdb]. destruct (Hc c ltac:(set_solver)) as [Hcc Hdc].
assert (copy_len m = copy_len b + copy_len c) as Hm by (unfold m; cbn [copy_len]; destruct Hb as (?&?&?), Hcc as (?&?&?); rewrite wrap_id; lia).
assert (whole_lines pos (pre ++ m :: post)) as Hok'.
{ split; [done|]. rewrite !sum_by_app in *. cbn [sum_by foldr] in *. split; [lia|]. intros x Hx.
  apply elem_of_app in Hx as [Hx|[->|Hx]%elem_of_cons]; [apply Hc; set_solver| |apply Hc; set_solver]. split; [by apply merged_fits|].
  rewrite Hm. by apply Z.divide_add_r. }
split; [done|]. rewrite !placed_app by done. f_equal. set (p := pos + sum_by copy_len pre).
assert (0 <= sum_by copy_len pre /\ 0 <= sum_by copy_len post) as [Hpre Hpost].
{ split; apply sum_by_nonneg; intros x Hx; destruct (Hc x ltac:(set_solver)) as [(? & ? & _) _]; done. }
rewrite sum_by_app in Hs. cbn [sum_by foldr] in Hs. destruct Hb as (H1 & H2 & H3), Hcc as (H4 & H5 & H6).
cbn [placed]. rewrite !round_64_multiple by (try (rewrite Hm; by apply Z.divide_add_r); fold (sum_by copy_len post) in *; try done; lia).
fold (sum_by copy_len post) in *.
rewrite !wrap_id by lia. rewrite Hm. unfold m. rewrite merge_bytes by (done || (unfold copy_fits; lia)).
rewrite seqZ_app, zip_with_app by (lia || (unfold copy_bytes; by rewrite !length_seqZ)). rewrite <- app_assoc. do 2 f_equal. by rewrite Z.add_assoc.
Qed.

(** Two contiguous copies of 32 bytes: unmerged the second one is at 64. *)
Example merging_moves_bytes :
  placed 0 [mkCopy 0 32 0; mkCopy 32 32 0] <> placed 0 (g4_sfcd_finalize_copies [mkCopy 0 32 0; mkCopy 32 32 0]).
Proof. vm_compute. discriminate. Qed.

(** * Peak usage *)

Definition peak_usage_step (acc : Z * Z) (x : Z) : Z * Z :=
  let '(running, peak) := acc in
  let running := u64 (running + x) in (running, if peak <? running then running else peak).

(** [peak_blocks] and [net_blocks], of 2 KB each. *)
Definition g4_find_peak_tcm_usage (arr : list Z) : Z * Z :=
  let '(running, peak) := foldl peak_usage_step (0, 0) arr in
  let net := match last arr with
             | Some x => if x <=? running then u64 (running - x) else 0
             | None => 0
             end in
  (u32 (Z.shiftr peak 11), u32 (Z.shiftr net 11)).

(** The steps of the profile are unsigned, so it never falls: the peak is the
    final sum, and the net is the sum without the last step. *)
Lemma peak_is_the_sum arr x : (forall y, y ∈ arr ++ [x] -> 0 <= y) -> sum_by id (arr ++ [x]) < 2 ^ 43 ->
  g4_find_peak_tcm_usage (arr ++ [x]) = (Z.shiftr (sum_by id (arr ++ [x])) 11, Z.shiftr (sum_by id arr) 11).
Proof.
intros Hpos Hlt.
assert (forall l r p, 0 <= r -> p <= r -> (forall y, y ∈ l -> 0 <= y) -> r + sum_by id l < 2 ^ 64 ->
  exists p', foldl peak_usage_step (r, p) l = (r + sum_by id l, p') /\ (l <> [] \/ p = r -> p' = r + sum_by id l)) as H.
{ clear. induction l as [|y l IH]; intros r p Hr Hp Hy Hs.
  - exists p. cbn. rewrite Z.add_0_r. split; [done|]. intros [?|?]; done.
  - change (sum_by id (y :: l)) with (y + sum_by id l) in *. assert (0 <= y) by (apply Hy; left).
    assert (0 <= sum_by id l) by (apply sum_by_nonneg; intros z Hz; apply Hy; by right).
    cbn [foldl peak_usage_step]. rewrite wrap_id by lia.
    destruct (IH (r + y) (if p <? r + y then r + y else p)) as (p' & E & Hp'); [lia|case_bool; lia|intros z Hz; apply Hy; by right|lia|].
    exists p'. rewrite E. split; [f_equal; lia|]. intros _. rewrite Hp'; [lia|]. destruct l as [|z l]; [right|by left]. case_bool; lia. }
assert (0 <= sum_by id arr) by (apply sum_by_nonneg; intros z Hz; apply Hpos; set_solver).
assert (0 <= x) by (apply Hpos; set_solver).
destruct (H (arr ++ [x]) 0 0) as (p & E & Hp); [lia|lia|done|lia|]. unfold g4_find_peak_tcm_usage. rewrite E, last_snoc, Hp by (by left; destruct arr).
rewrite sum_by_app in *. cbn [sum_by foldr] in *. unfold id in *. fold (sum_by (fun x : Z => x) arr) in *.
rewrite (proj2 (Z.leb_le _ _)) by lia.
assert (forall z, 0 <= z < 2 ^ 43 -> u32 (Z.shiftr z 11) = Z.shiftr z 11) as Hs.
{ intros z Hz. rewrite Z.shiftr_div_pow2 by lia. apply wrap_id. split; [apply Z.div_pos; lia|]. apply Z.div_lt_upper_bound; lia. }
f_equal; [rewrite Hs by lia; f_equal; lia|]. rewrite (wrap_id 64) by lia. rewrite Hs by lia. f_equal. lia.
Qed.
(** * Pools *)

Definition G4_POOL_SHARED : Z := 0x1.
Definition G4_POOL_FAR : Z := 0x10.
Definition G4_SPILLFILL_POOL_ID : Z := 2.

Record G4PoolDesc := mkPool { pool_size : Z; pool_flags : Z }.

Record G4FancyAllocator := mkG4Alloc {
  pools : list G4PoolDesc;
  spillfill_pool : Z;               (** the index plus one *)
  slot_sizes : list Z;
  shared_size_290 : Z
}.

(** The size of a slot after the call, and what it adds to the pool. *)
Definition slot_size (s : Z) : Z := if s =? 0 then 0 else g4_round_up_64k s.
Definition slot_room (s : Z) : Z := if s =? 0 then 0 else g4_round_up_64k s + 0x10000.

(** [None]: [oversize mem pool] is thrown. *)
Definition g4_set_spillfill_size (fa : G4FancyAllocator) (sizes : list Z) : option (G4FancyAllocator * Z) :=
  let total := foldl (fun t s => u64 (t + slot_room s)) 0 sizes in
  if 0xffffff00 <? total then None
  else
    let ps := pools fa ++ [mkPool (u32 total) 0] in
    Some (mkG4Alloc ps (Z.of_nat (length ps)) (slot_size <$> sizes) (shared_size_290 fa), total).

Definition g4_set_spillfill_shared_size (fa : G4FancyAllocator) (size : Z) (far_enabled : bool) (far_mb : Z) : G4FancyAllocator * Z :=
  if size =? 0 then (fa, 0)
  else
    let sz := g4_round_up_64k (u32 size) in
    let fl := if far_enabled && (u64 (Z.shiftl far_mb 20) <=? sz) then Z.lor G4_POOL_SHARED G4_POOL_FAR else G4_POOL_SHARED in
    (mkG4Alloc (pools fa ++ [mkPool sz fl]) (spillfill_pool fa) (slot_sizes fa) size, sz).

Definition g4_is_shared_spillfill (pool flags : Z) (env_shared_set : bool) : bool :=
  (pool =? G4_SPILLFILL_POOL_ID) && (Z.land flags G4_POOL_SHARED =? 0) && env_shared_set.

Definition g4_can_mempool_be_far (pd : G4PoolDesc) (far_enabled : bool) (far_mb : Z) : bool :=
  far_enabled && (u64 (Z.shiftl far_mb 20) <=? pool_size pd).

Definition g4_fill_slots_multi (peaks : list Z) : list Z := (fun p => if p =? 0 then 0 else g4_round_up_64k p) <$> peaks.

(** The slot of the largest peak; ties go to the lower slot. *)
Definition single_slot (p0 p1 p2 : Z) : nat :=
  if Z.max p0 p1 <? p2 then 2%nat else if p0 <? p1 then 1%nat else 0%nat.

Definition g4_fill_slots_single (p0 p1 p2 : Z) : list Z :=
  if (p0 =? 0) && (p1 =? 0) && (p2 =? 0) then [0; 0; 0]
  else let slot := single_slot p0 p1 p2 in
       <[slot := g4_round_up_64k (nth slot [p0; p1; p2] 0)]> [0; 0; 0].

Definition g4_dlbc_spill_fill_setup (fa : G4FancyAllocator) (p0 p1 p2 : Z) (multi_nsp : bool) : option (G4FancyAllocator * Z) :=
  let slots := if multi_nsp then g4_fill_slots_multi [p0; p1; p2] else g4_fill_slots_single p0 p1 p2 in
  if forallb (fun s => s =? 0) slots then Some (fa, 0) else g4_set_spillfill_size fa slots.

(** The mirror of the real allocator. *)
Definition g4_fancy_fill (ps : list G4PoolDesc) (pool : Z) (slots : list Z) (shared : Z) : G4FancyAllocator :=
  mkG4Alloc ps pool (take 3 slots) shared.

Lemma round_64k_exact n : 0 <= n <= 0xffff0000 -> g4_round_up_64k n = round_up n 0x10000.
Proof.
intros Hn. unfold g4_round_up_64k. change 0xffff0000 with (u32 (Z.lnot (2 ^ 16 - 1))). change 0xffff with (2 ^ 16 - 1).
by rewrite round_up_mask_u32 by (cbn; lia).
Qed.

(** The last 64 KB of the range wrap to nothing. *)
Lemma round_64k_wraps n : 0xffff0000 < n < 2 ^ 32 -> g4_round_up_64k n = 0.
Proof.
intros Hn. unfold g4_round_up_64k. assert (u32 (n + 0xffff) = n + 0xffff - 2 ^ 32) as ->.
{ unfold wrap. symmetry. apply Z.mod_unique_pos with 1; lia. }
change 0xffff0000 with (0xffff * 2 ^ 16). rewrite Z.land_comm. apply land_shiftl_low; lia.
Qed.

(** The pool has room for all three slots, each with 64 KB to spare. *)
Lemma spillfill_pool_covers fa sizes fa' total : Forall (fun s => 0 <= s <= 0xffff0000) sizes -> (length sizes <= 3)%nat ->
  g4_set_spillfill_size fa sizes = Some (fa', total) ->
  last (pools fa') = Some (mkPool total 0) /\ spillfill_pool fa' = Z.of_nat (length (pools fa')) /\
  slot_sizes fa' = (fun s => round_up s 0x10000) <$> sizes /\
  total = sum_by (fun s => if s =? 0 then 0 else round_up s 0x10000 + 0x10000) sizes.
Proof.
intros Hs Hl. unfold g4_set_spillfill_size. rewrite Forall_forall in Hs.
assert (forall s, s ∈ sizes -> 0 <= slot_room s <= 2 ^ 33) as Hroom.
{ intros s Hin. specialize (Hs s Hin). unfold slot_room. case_bool; [lia|]. rewrite round_64k_exact by done.
  pose proof (round_up_spec s 0x10000 ltac:(lia)). lia. }
assert (sum_by slot_room sizes <= 2 ^ 33 * 3) as Hsum.
{ transitivity (sum_by (fun _ => 2 ^ 33) sizes); [apply sum_by_le; intros; by apply Hroom|]. rewrite sum_by_const. lia. }
rewrite foldl_u64_sum; [|intros; by apply Hroom|lia|lia]. rewrite Z.add_0_l.
assert (sum_by slot_room sizes = sum_by (fun s => if s =? 0 then 0 else round_up s 0x10000 + 0x10000) sizes) as Hsame.
{ apply sum_by_ext. intros s Hin. unfold slot_room. by rewrite round_64k_exact by (by apply Hs). }
assert (0 <= sum_by slot_room sizes) by (apply sum_by_nonneg; intros; by apply Hroom).
case_bool; [done|]. intros [= <- <-]. cbn [pools spillfill_pool slot_sizes].
split_and!; [by rewrite last_snoc, wrap_id by lia|done| |done].
apply list_fmap_ext. intros i s Hi. apply list_elem_of_lookup_2 in Hi. unfold slot_size. case_bool; [by subst|].
by apply round_64k_exact, Hs.
Qed.

(** * The area as fields *)

Record G4TaggedField := mkField { f_key : string; value_tag : Z; is_string : bool; sval : string; uval : Z }.

Definition G4_TAG_BOOL_TRUE : Z := 0xa.
Definition G4_TAG_BOOL_FALSE : Z := 0x9.
Definition G4_TAG_I32_DMA_CHECKPOINT : Z := 0xe.

Definition hex_digit (d : Z) : string :=
  match String.get (Z.to_nat d) "0123456789abcdef" with Some c => String c EmptyString | None => EmptyString end.

(** [%llx]; 16 digits are enough. *)
Fixpoint hex_rec (fuel : nat) (z : Z) : string :=
  match fuel with
  | O => EmptyString
  | S fuel => if z <? 16 then hex_digit z else String.append (hex_rec fuel (z / 16)) (hex_digit (z mod 16))
  end.
Definition hex (z : Z) : string := hex_rec 16 z.

Definition emit_u (k : string) (v tag : Z) : G4TaggedField := mkField k tag false "" v.
Definition emit_s (k v : string) : G4TaggedField := mkField k 0 true v 0.
Definition emit_b (k : string) (b : bool) : G4TaggedField :=
  let t := if b then G4_TAG_BOOL_TRUE else G4_TAG_BOOL_FALSE in mkField k t false "" t.

Definition record_fields (r : G4SlcRecord) : list G4TaggedField :=
  if rec_type r =? G4_REC_SPILLFILL then
    [emit_s "rec_type" "spillfill"; emit_u "ddr_pool" (ddr_pool r) 0; emit_u "sf_offset" (sf_offset r) 0; emit_u "total_copy" (total_copy r) 0] ++
    concat ((fun c => [emit_u "tcm_offset" (tcm_offset c) 0; emit_u "copy_len" (copy_len c) 0; emit_u "cache_hints" (cache_hints c) 0]) <$> copies r)
  else if rec_type r =? G4_REC_WAITFOR then
    emit_u "rec_type" G4_REC_WAITFOR 0 ::
    concat ((fun p => [emit_u "mb_idx" (w_mb_idx p) 0; emit_u "wait_for_val" (w_val p) 0]) <$> pairs r)
  else if rec_type r =? G4_REC_SETPROGRESS then
    [emit_u "rec_type" G4_REC_SETPROGRESS 0; emit_u "mb_idx" (mb_idx r) 0; emit_u "value_to_set" (value_to_set r) 0]
  else [].

Definition g4_serialize_slc_area (a : G4SlcArea) : list G4TaggedField :=
  [emit_s "__area_name__" (String.append "SLC_spillfill_area_0x" (hex (area_id a)));
   emit_u "runlist_idx" (u64 (runlist_idx a)) 0; emit_u "memgroup_tags" 0 0;
   emit_b "is_fill" (is_fill a); emit_b "is_multi_nsp" (is_multi_nsp a);
   emit_u "dma_checkpoint" (u64 (dma_checkpoint a)) G4_TAG_I32_DMA_CHECKPOINT;
   emit_u "nsp_id" (u64 (nsp_id a)) 0; emit_u "records" (Z.of_nat (length (records a))) 0] ++
  concat (record_fields <$> records a).

(** * The stub and the checkpoint op *)

Definition g4_insert_spill_fill (log : list string) : Z * list string :=
  (-1, log ++ ["insert_spillfill.cc:17::ERROR:insert_spill_fill not supported"%string]).

Record G4CheckpointOp := mkCkptOp { vtable : Z; ck_mb_idx : Z; ck_value : Z; opid : Z; owned : bool }.

Definition g4_make_dma_checkpoint_op (opid mb_idx : Z) (is_set : bool) : G4CheckpointOp :=
  mkCkptOp (if is_set then 0x5ec2488 else 0x5ec2568) mb_idx 0 opid false.

(** * Claims *)

(** C19: What is written is read back, for an area of 32-bit fields with fewer
    than 2^24 parts and 2^30 words, whose neighbouring copies are merged
    first.  An area is refused exactly when the
    check names an error; otherwise the words that are written walk without
    an error and with the right length, the lines are those of the records in
    order, every pair of a wait record once whatever form and however many
    pieces it was written in, the head gives the checkpoint and the number of
    parts, and the total is the sum of the lengths. *)
Theorem sfcd_roundtrip v a : area_wf a ->
  (g4_construct_sfcd a = None <-> g4_fill_mgroup_check a <> None) /\
  forall ws, g4_construct_sfcd a = Some ws ->
  exists n walk, g4_dump_sfcd ws v = Some (LHead n :: area_lines v a, walk) /\
    checkpoint_index walk = dma_checkpoint a /\ record_count walk = Z.of_nat (area_parts a) /\
    total_bytes walk + 4 = 4 * Z.of_nat (length ws) /\ bad_length walk = false /\ errors walk = [] /\
    blocks_total walk = add_lens 0 (concat (record_lens <$> records a)).
Proof.
intros Hw. destruct (g4_fill_mgroup_check a) as [e|] eqn:E.
- assert (g4_construct_sfcd a = None) as Hn by (unfold g4_construct_sfcd; by rewrite E). split; [by split|]. intros ws. by rewrite Hn.
- destruct (dump_constructed v a Hw E) as (ws & n & walk & Ec & H). rewrite Ec. split; [by split|].
  intros ws' [= <-]. by exists n, walk.
Qed.

(** A copy, a wait of two pairs that needs the wide form, a progress. *)
Definition demo_area : G4SlcArea :=
  mkArea 0xa0 0 0 true false 5
    [mkRecord 0 3 0x100 96 [mkCopy 0x40 64 1; mkCopy 0x80 32 1; mkCopy 0x200 16 1] [] 0 0;
     mkRecord 1 0 0 0 [] [mkWait 7 2; mkWait 9 0x1ff] 0 0; mkRecord 2 0 0 0 [] [] 4 11].

Lemma demo_area_wf : area_wf demo_area.
Proof.
split; [|by vm_compute|by vm_compute|by vm_compute].
intros r Hr. unfold demo_area in Hr. cbn [records] in Hr. rewrite !elem_of_cons in Hr.
destruct Hr as [->|[->|[->|Hn]]]; [..|by apply not_elem_of_nil in Hn].
all: split; cbn [ddr_pool sf_offset copies pairs mb_idx value_to_set]; try lia; apply Forall_forall;
  repeat constructor; cbn [tcm_offset copy_len w_mb_idx w_val]; lia.
Qed.

Lemma sfcd_roundtrip_witness :
  exists ws, g4_construct_sfcd demo_area = Some ws /\
  exists n walk, g4_dump_sfcd ws false = Some ([LHead n; LCheckpoint 5; LBlocks 2 3 0x100; LBlock 0x100 0x40 96; LBlock 0x180 0x200 16;
    LWait 7 2; LWait 9 0x1ff; LSet 4 11; LTotal 112], walk) /\ errors walk = [].
Proof.
destruct (sfcd_roundtrip false demo_area demo_area_wf) as [_ H].
destruct (g4_construct_sfcd demo_area) as [ws|] eqn:E; [|exfalso; by vm_compute in E].
exists ws. split; [reflexivity|]. destruct (H ws eq_refl) as (n & walk & Ed & _ & _ & _ & _ & Eerr & _).
exists n, walk. split; [exact Ed|exact Eerr].
Defined.

(** Merging neighbouring copies does not change what is copied: the same
    VTCM bytes in the same order.  Their places in the pool stay the same
    when every length is a whole number of 64-byte lines. *)
Theorem merging_keeps_copies cs pos :
  (forall c, c ∈ cs -> copy_fits c) ->
  concat (copy_bytes <$> g4_sfcd_finalize_copies cs) = concat (copy_bytes <$> cs) /\
  (0 <= pos -> pos + sum_by copy_len cs + 64 <= 2 ^ 32 -> (forall c, c ∈ cs -> (64 | copy_len c)) ->
   placed pos (g4_sfcd_finalize_copies cs) = placed pos cs).
Proof.
intros Hf. split; [by apply finalize_bytes|]. intros H0 Hs Hd. apply finalize_placed. split; [done|]. split; [done|]. eauto.
Qed.

Lemma merging_keeps_copies_witness :
  placed 0x100 (g4_sfcd_finalize_copies [mkCopy 0 64 1; mkCopy 64 128 1]) = placed 0x100 [mkCopy 0 64 1; mkCopy 64 128 1] /\
  length (g4_sfcd_finalize_copies [mkCopy 0 64 1; mkCopy 64 128 1]) = 1%nat.
Proof.
split; [|reflexivity]. apply (merging_keeps_copies [mkCopy 0 64 1; mkCopy 64 128 1] 0x100).
- intros c. rewrite !elem_of_cons, elem_of_nil. unfold copy_fits. intros [->|[->|[]]]; cbn; lia.
- lia.
- vm_compute. discriminate.
- intros c. rewrite !elem_of_cons, elem_of_nil. intros [->|[->|[]]]; [by exists 1|by exists 2].
Defined.
