(* ===== verification/BlockTable.v ===== *)
(** The block table of the overlap allocator ([vtcm/fancy_allocator.cpp]):
    its hash table of blocks, the registration of an op's input and output
    blocks, their linking, the overlap pass over the live ops and the final
    pass; and the persistent pools made from the table. *)
From S2P Require Import Prelude Ir OpDescHash GraphDeps.

(** * The hash table of blocks *)

(** [flag]: 0 empty, 1 occupied, 2 removed (nothing writes it). *)
Record BlockHashEntry := mkHashEntry { he_id : Z; he_size : Z; he_flag : Z }.
Definition empty_entry : BlockHashEntry := mkHashEntry 0 0 0.

Record BlockHash := mkHash { bh_slots : list BlockHashEntry; bh_mask : Z; bh_count : Z }.
Definition no_hash : BlockHash := mkHash [] 0 0.

Definition fib_hash_block (key : Z) : Z :=
  let h := u64 (key * 0x740f1de9) in Z.lxor (u32 h) (u32 (Z.shiftr h 32)).

Definition hash_step (h : Z) : Z := Z.lor (Z.land (Z.shiftr h 15) 0x1fffe) 1.

Fixpoint probe_find (n : nat) (ss : list BlockHashEntry) (m : Z) (bid slot : Z) : option nat :=
  match n with
  | O => None
  | S n =>
      e ← ss !! Z.to_nat slot;
      if he_flag e =? 0 then None
      else if (he_flag e =? 1) && (he_id e =? bid) then Some (Z.to_nat slot)
      else probe_find n ss m bid (Z.land (u32 (slot + hash_step (fib_hash_block bid))) m)
  end.

(** The index of the slot. *)
Definition block_hash_find (bid : Z) (b : BlockHash) : option nat :=
  match bh_slots b with
  | [] => None
  | _ => probe_find (Z.to_nat (bh_mask b + 1)) (bh_slots b) (bh_mask b) bid (Z.land (fib_hash_block bid) (bh_mask b))
  end.

(** The endless loop of [block_hash_insert], with the slots it can visit as
    the bound; the flag says that the slot was free. *)
Fixpoint probe_claim (n : nat) (ss : list BlockHashEntry) (m : Z) (bid slot : Z) : option (nat * bool) :=
  match n with
  | O => None
  | S n =>
      e ← ss !! Z.to_nat slot;
      if (he_flag e =? 0) || (he_flag e =? 2) then Some (Z.to_nat slot, true)
      else if (he_flag e =? 1) && (he_id e =? bid) then Some (Z.to_nat slot, false)
      else probe_claim n ss m bid (Z.land (u32 (slot + hash_step (fib_hash_block bid))) m)
  end.

Definition put_block (bid size : Z) (b : BlockHash) : option BlockHash :=
  '(i, fresh) ← probe_claim (length (bh_slots b)) (bh_slots b) (bh_mask b) bid (Z.land (fib_hash_block bid) (bh_mask b));
  if fresh : bool then Some (mkHash (<[i := mkHashEntry bid size 1]> (bh_slots b)) (bh_mask b) (u32 (bh_count b + 1)))
  else Some (mkHash (alter (fun e => mkHashEntry (he_id e) size (he_flag e)) i (bh_slots b)) (bh_mask b) (bh_count b)).

Definition crowded (b : BlockHash) : bool :=
  bool_decide (bh_slots b = []) || (Z.of_nat (length (bh_slots b)) <=? u32 (u32 (bh_count b + 1) * 2)).

Definition grown (b : BlockHash) : BlockHash :=
  let cap := if bool_decide (bh_slots b = []) then 16 else u32 (u32 (Z.of_nat (length (bh_slots b))) * 2) in
  mkHash (replicate (Z.to_nat cap) empty_entry) (u32 (cap - 1)) 0.

(** [block_hash_insert] and [block_hash_grow] call each other. *)
Fixpoint insert_level (fuel : nat) (bid size : Z) (b : BlockHash) : option BlockHash :=
  match fuel with
  | O => None
  | S fuel =>
      b ← (if crowded b then
             foldM (fun nb e => if he_flag e =? 1 then insert_level fuel (he_id e) (he_size e) nb else Some nb)
               (bh_slots b) (grown b)
           else Some b);
      put_block bid size b
  end.

Definition block_hash_insert (bid size : Z) (b : BlockHash) : option BlockHash := insert_level 2 bid size b.

(** * The allocator *)

(** [flag]: 1 in use, 2 sharing the offset of [linked_to]. *)
Record BlockEntry := mkBlock {
  be_id : Z; be_size : Z; be_begin : Z; be_end : Z; be_flag : Z; vtcm_offset : Z; linked_to : Z
}.

Record OverlapAlloc := mkOverlapAlloc { oa_offset : Z; oa_block : Z; oa_spilled : bool; oa_reused : bool; oa_linked : Z }.

Record FancyAllocator := mkFancy {
  mode : Z;
  block_table : list BlockEntry;
  block_id_to_idx : gmap Z Z;
  block_hash : BlockHash;
  free_lists : gmap Z (list Z);
  next_block_id : Z;
  overlap_next_offset : Z;
  overlap_saved : Z;
  overlap_budget : Z;
  overlap_allocs : gmap op_id_t OverlapAlloc
}.

Definition new_fancy (budget : Z) : FancyAllocator := mkFancy 0 [] ∅ no_hash ∅ 1 0 0 budget ∅.

Definition with_table (t : list BlockEntry) (a : FancyAllocator) : FancyAllocator :=
  mkFancy (mode a) t (block_id_to_idx a) (block_hash a) (free_lists a) (next_block_id a) (overlap_next_offset a)
    (overlap_saved a) (overlap_budget a) (overlap_allocs a).
Definition with_idx (i : gmap Z Z) (a : FancyAllocator) : FancyAllocator :=
  mkFancy (mode a) (block_table a) i (block_hash a) (free_lists a) (next_block_id a) (overlap_next_offset a)
    (overlap_saved a) (overlap_budget a) (overlap_allocs a).
Definition with_hash_table (h : BlockHash) (a : FancyAllocator) : FancyAllocator :=
  mkFancy (mode a) (block_table a) (block_id_to_idx a) h (free_lists a) (next_block_id a) (overlap_next_offset a)
    (overlap_saved a) (overlap_budget a) (overlap_allocs a).
Definition with_free (f : gmap Z (list Z)) (a : FancyAllocator) : FancyAllocator :=
  mkFancy (mode a) (block_table a) (block_id_to_idx a) (block_hash a) f (next_block_id a) (overlap_next_offset a)
    (overlap_saved a) (overlap_budget a) (overlap_allocs a).
Definition with_next_id (n : Z) (a : FancyAllocator) : FancyAllocator :=
  mkFancy (mode a) (block_table a) (block_id_to_idx a) (block_hash a) (free_lists a) n (overlap_next_offset a)
    (overlap_saved a) (overlap_budget a) (overlap_allocs a).
Definition with_offset (o : Z) (a : FancyAllocator) : FancyAllocator :=
  mkFancy (mode a) (block_table a) (block_id_to_idx a) (block_hash a) (free_lists a) (next_block_id a) o
    (overlap_saved a) (overlap_budget a) (overlap_allocs a).
Definition with_saved (v : Z) (a : FancyAllocator) : FancyAllocator :=
  mkFancy (mode a) (block_table a) (block_id_to_idx a) (block_hash a) (free_lists a) (next_block_id a) (overlap_next_offset a)
    v (overlap_budget a) (overlap_allocs a).
Definition with_budget (b : Z) (a : FancyAllocator) : FancyAllocator :=
  mkFancy (mode a) (block_table a) (block_id_to_idx a) (block_hash a) (free_lists a) (next_block_id a) (overlap_next_offset a)
    (overlap_saved a) b (overlap_allocs a).
Definition with_allocs (m : gmap op_id_t OverlapAlloc) (a : FancyAllocator) : FancyAllocator :=
  mkFancy (mode a) (block_table a) (block_id_to_idx a) (block_hash a) (free_lists a) (next_block_id a) (overlap_next_offset a)
    (overlap_saved a) (overlap_budget a) m.

(** The entry a block id leads to; [None] for an unknown id. *)
Definition entry_at (a : FancyAllocator) (bid : Z) : option BlockEntry :=
  i ← block_id_to_idx a !! bid; block_table a !! Z.to_nat i.

Definition alter_entry (f : BlockEntry -> BlockEntry) (bid : Z) (a : FancyAllocator) : FancyAllocator :=
  match block_id_to_idx a !! bid with
  | Some i => with_table (alter f (Z.to_nat i) (block_table a)) a
  | None => a
  end.

Definition align_128_u32 (n : Z) : Z := Z.land (u32 (n + 127)) (u32 (Z.lnot 127)).
Definition align_128 (n : Z) : Z := Z.land (u64 (n + 127)) (u64 (Z.lnot 127)).
Definition align_2048 (n : Z) : Z := Z.land (u64 (n + 2048 - 1)) (u64 (Z.lnot (2048 - 1))).

(** [while (aligned > 1) { aligned >>= 1; ++cls; }] *)
Fixpoint class_loop (fuel : nat) (aligned cls : Z) : option Z :=
  match fuel with
  | O => None
  | S fuel => if 1 <? aligned then class_loop fuel (Z.shiftr aligned 1) (u32 (cls + 1)) else Some cls
  end.

Definition size_to_class (size : Z) : option Z :=
  if size =? 0 then Some 0
  else let aligned := align_128_u32 size in class_loop 33 (if aligned <? 16 then 16 else aligned) 0.

Definition free_list_add (bid : Z) (a : FancyAllocator) : option FancyAllocator :=
  match entry_at a bid with
  | None => Some a
  | Some e => cls ← size_to_class (be_size e);
              Some (with_free (<[cls := default [] (free_lists a !! cls) ++ [bid]]> (free_lists a)) a)
  end.

(** The first listed block whose lifetime is apart from the given one. *)
Definition apart (a : FancyAllocator) (lb le bid : Z) : bool :=
  match entry_at a bid with
  | Some e => (le <? be_begin e) || (be_end e <? lb)
  | None => false
  end.

Definition free_list_try_pop (cls lb le : Z) (a : FancyAllocator) : Z * FancyAllocator :=
  let l := default [] (free_lists a !! cls) in
  match list_find (fun bid => apart a lb le bid = true) l with
  | Some (i, bid) => (bid, with_free (<[cls := delete i l]> (free_lists a)) a)
  | None => (0, a)
  end.

(** * Registering blocks *)

(** What the caller knows of a block. *)
Record BlockReq := mkBlockReq { br_id : Z; br_size : Z; br_begin : Z; br_end : Z }.

Definition set_span (lb le : Z) (e : BlockEntry) : BlockEntry :=
  mkBlock (be_id e) (be_size e) lb le (be_flag e) (vtcm_offset e) (linked_to e).
Definition set_offset (o : Z) (e : BlockEntry) : BlockEntry :=
  mkBlock (be_id e) (be_size e) (be_begin e) (be_end e) (be_flag e) o (linked_to e).
Definition share (o link : Z) (e : BlockEntry) : BlockEntry :=
  mkBlock (be_id e) (be_size e) (be_begin e) (be_end e) 2 o link.

(** A block that is already registered: only its recorded size and lifetime
    change. *)
Definition refresh (r : BlockReq) (i : nat) (a : FancyAllocator) : FancyAllocator :=
  let h := block_hash a in
  let a := with_hash_table (mkHash (alter (fun e => mkHashEntry (he_id e) (br_size r) (he_flag e)) i (bh_slots h)) (bh_mask h) (bh_count h)) a in
  alter_entry (set_span (br_begin r) (br_end r)) (br_id r) a.

(** A block that does not fit keeps offset 0. *)
Definition bump (r : BlockReq) (a : FancyAllocator) : FancyAllocator :=
  let sz := align_128 (br_size r) in
  if (0 <? overlap_budget a) && (overlap_budget a <? u64 (overlap_next_offset a + sz)) then a
  else with_offset (u64 (overlap_next_offset a + sz))
         (with_table (alter (set_offset (overlap_next_offset a)) (length (block_table a) - 1)%nat (block_table a)) a).

Definition register (r : BlockReq) (a : FancyAllocator) : option FancyAllocator :=
  match block_hash_find (br_id r) (block_hash a) with
  | Some i => Some (refresh r i a)
  | None =>
      h ← block_hash_insert (br_id r) (br_size r) (block_hash a);
      let idx := u32 (Z.of_nat (length (block_table a))) in
      let a := with_hash_table h a in
      let a := with_idx (<[br_id r := idx]> (block_id_to_idx a)) a in
      let a := with_table (block_table a ++ [mkBlock (br_id r) (br_size r) (br_begin r) (br_end r) 1 0 0]) a in
      cls ← size_to_class (br_size r);
      let '(reuse, a) := free_list_try_pop cls (br_begin r) (br_end r) a in
      if negb (reuse =? 0) then
        e ← entry_at a reuse;
        Some (with_saved (u64 (overlap_saved a + align_128_u32 (br_size r)))
                (alter_entry (share (vtcm_offset e) reuse) (br_id r) a))
      else Some (bump r a)
  end.

Definition force_contiguous (rs : list BlockReq) (a : FancyAllocator) : option FancyAllocator :=
  foldM (fun a r => register r a) rs a.

(** The block with no offset of its own takes the one of the other. *)
Definition take_offset (id1 id2 : Z) (b1 b2 : BlockEntry) (a : FancyAllocator) : FancyAllocator :=
  let give (id : Z) (from : BlockEntry) (link : Z) (size : Z) :=
    with_saved (u64 (overlap_saved a + align_128_u32 size)) (alter_entry (share (vtcm_offset from) link) id a) in
  if be_size b1 =? be_size b2 then
    if negb (vtcm_offset b1 =? 0) && (vtcm_offset b2 =? 0) then give id2 b1 id1 (be_size b2)
    else if negb (vtcm_offset b2 =? 0) && (vtcm_offset b1 =? 0) then give id1 b2 id2 (be_size b1)
    else a
  else if be_size b2 <? be_size b1 then
    if negb (vtcm_offset b1 =? 0) && (vtcm_offset b2 =? 0) then give id2 b1 (be_id b1) (be_size b2) else a
  else
    if negb (vtcm_offset b2 =? 0) && (vtcm_offset b1 =? 0) then give id1 b2 (be_id b2) (be_size b1) else a.

Definition link_blocks (id1 id2 : Z) (a : FancyAllocator) : option FancyAllocator :=
  if id1 =? id2 then Some a
  else match entry_at a id1, entry_at a id2 with
       | Some b1, Some b2 =>
           let a := take_offset id1 id2 b1 b2 a in
           b1 ← entry_at a id1;
           if be_flag b1 =? 1 then free_list_add id1 a else Some a
       | _, _ => Some a
       end.

(** * One op *)

Section ops.
Context (d : GraphDeps).

(** [static_cast<uint32_t>] of the bytes. *)
Definition block_size (od : OutputDef) : Z := u32 (output_bytes od).

Definition input_req (c : InputConn) : BlockReq :=
  let '(lb, le) := match find_opdesc d (src_id c) with Some s => (d_begin s, d_end s) | None => (0, 0) end in
  mkBlockReq (u32 (src_id c)) (block_size (src_out_def c)) lb le.

Definition output_req (od : OpDef) (id topo_idx : Z) : BlockReq :=
  let '(lb, le) := match find_opdesc d (op_id od) with Some s => (d_begin s, d_end s) | None => (topo_idx, topo_idx) end in
  mkBlockReq id (block_size (output_def od)) lb le.

(** The result of an input's op, if none is there; the connection and the
    block are paired by position. *)
Definition note_input (a : FancyAllocator) (cb : InputConn * Z) : FancyAllocator :=
  let '(c, bid) := cb in
  match overlap_allocs a !! src_id c with
  | Some _ => a
  | None =>
      match entry_at a bid with
      | Some e => with_allocs (<[src_id c := mkOverlapAlloc (vtcm_offset e) bid false (be_flag e =? 2) (linked_to e)]> (overlap_allocs a)) a
      | None => a
      end
  end.

Definition note_output (od : OpDef) (bid : Z) (a : FancyAllocator) : FancyAllocator :=
  match entry_at a bid with
  | Some e => with_allocs (<[op_id od := mkOverlapAlloc (vtcm_offset e) bid
                               ((vtcm_offset e =? 0) && (overlap_budget a <? overlap_next_offset a))
                               (be_flag e =? 2) (linked_to e)]> (overlap_allocs a)) a
  | None => a
  end.

Definition allow_tensor_overlap_opdef (od : OpDef) (topo_idx : Z) (a : FancyAllocator) : option FancyAllocator :=
  if negb (mode a =? 0) then Some a
  else if is_const od then Some a
  else if block_size (output_def od) =? 0 then Some a
  else
    let '(out, a) := if u32 (op_id od) =? 0 then (next_block_id a, with_next_id (u32 (next_block_id a + 1)) a)
                     else (u32 (op_id od), a) in
    let ins := input_req <$> filter (fun c => src_id c <> 0) (inputs od) in
    match ins with
    | [] =>
        a ← force_contiguous [output_req od out topo_idx] a;
        e ← entry_at a out;
        Some (with_allocs (<[op_id od := mkOverlapAlloc (vtcm_offset e) out false false 0]> (overlap_allocs a)) a)
    | first :: _ =>
        a ← force_contiguous (ins ++ [output_req od out topo_idx]) a;
        a ← link_blocks (br_id first) out a;
        let a := note_output od out a in
        Some (foldl note_input a (zip (inputs od) (br_id <$> ins)))
    end.

(** The live ops in order, each with its position. *)
Definition overlap_ops (sorted : list OpDef) (a : FancyAllocator) : option FancyAllocator :=
  foldM (fun a '(i, od) => if negb (is_enabled od) || is_dead od then Some a
                           else allow_tensor_overlap_opdef od (u32 (Z.of_nat i)) a)
    (imap pair sorted) a.
End ops.

(** The allocator afterwards and [overlap_allocations_], given [graph_deps_],
    if there is one, the sorted ops and the usable size. *)
Definition vtcm_overlap_alloc (deps : option GraphDeps) (sorted : list OpDef) (usable : Z) (a : FancyAllocator) :
    option (FancyAllocator * gmap op_id_t OverlapAlloc) :=
  match deps with
  | None => Some (a, ∅)
  | Some d => a ← overlap_ops d sorted (with_budget usable a); Some (a, overlap_allocs a)
  end.

(** * The final pass *)

(** Later lifetime ends first; unknown ids last. *)
Definition reverse_life_lt (a : FancyAllocator) (x y : Z) : bool :=
  match entry_at a x, entry_at a y with
  | None, _ => false
  | Some _, None => true
  | Some ex, Some ey => if negb (be_end ex =? be_end ey) then be_end ey <? be_end ex else x <? y
  end.

Definition allocate_block (pin : bool) (acc : FancyAllocator * Z) (bid : Z) : option (FancyAllocator * Z) :=
  let '(a, pinned) := acc in
  match block_hash_find bid (block_hash a) with
  | Some _ => Some acc
  | None =>
      match entry_at a bid with
      | None => Some acc
      | Some e =>
          let sz := align_2048 (be_size e) in
          let a := if (0 <? overlap_budget a) && (overlap_budget a <? u64 (overlap_next_offset a + sz))
                   then alter_entry (set_offset 0) bid a
                   else with_offset (u64 (overlap_next_offset a + sz)) (alter_entry (set_offset (overlap_next_offset a)) bid a) in
          h ← block_hash_insert bid (be_size e) (block_hash a);
          Some (with_hash_table h a, if pin && (0 <? be_size e) then u64 (pinned + sz) else pinned)
      end
  end.

Definition obtain_loc_of_tcm_blocks (a : FancyAllocator) (bids : list Z) (m : Z) : Z :=
  foldl (fun total bid => match entry_at a bid with
                          | Some e => u64 (total + Z.land (u32 (be_size e + u32 (vtcm_offset e))) m)
                          | None => total
                          end) 0 bids.

(** The state, the total with padding and whether it is over the budget,
    which only a log would tell. *)
Definition allocate_tcm_blocks_internal (bids : list Z) (pin : bool) (a : FancyAllocator) : option (FancyAllocator * Z * bool) :=
  if bool_decide (bids = []) then Some (a, 0, false)
  else
    let sorted := std_sort (reverse_life_lt a) bids in
    '(a, pinned) ← foldM (allocate_block pin) sorted (a, 0);
    let total := obtain_loc_of_tcm_blocks a sorted 0xffffffff in
    Some (a, total, (0 <? overlap_budget a) && (overlap_budget a <=? u64 (total + pinned))).

(** [bids]: the keys of the map in its iteration order. *)
Definition vtcm_block_alloc_finalize (bids : list Z) (a : FancyAllocator) : option FancyAllocator :=
  '(a, _, _) ← allocate_tcm_blocks_internal bids true a; Some a.

(** * Pools *)

Record PersistentPool := mkPersistentPool {
  pp_id : Z; base_offset : Z; total_size : Z; block_count : Z; is_replaceable : bool; nsp_id : Z
}.

Definition pool_end (ps : list PersistentPool) : Z :=
  match last ps with Some p => u64 (base_offset p + total_size p) | None => 0 end.

Definition pool_bytes (bs : list BlockEntry) : Z := foldl (fun o b => u64 (o + be_size b)) 0 bs.

(** Blocks that live from the start are persistent; nothing is replaceable. *)
Definition make_persistent_pools (a : FancyAllocator) : list PersistentPool :=
  let blocks := filter (fun b => be_size b <> 0) (reverse (block_table a)) in
  let list_a := filter (fun b => be_begin b = 0) blocks in
  let replaceable : list BlockEntry := [] in
  let ps := if bool_decide (list_a = []) then []
            else [mkPersistentPool 0 0 (pool_bytes list_a) (u32 (Z.of_nat (length list_a))) false 0] in
  let ps := if bool_decide (replaceable = []) then ps
            else ps ++ [mkPersistentPool 1 (pool_end ps) (pool_bytes replaceable) (u32 (Z.of_nat (length replaceable))) true 0] in
  ps ++ [mkPersistentPool 0x100 (pool_end ps) 0x100 0 false 0].

(** * The probe sequence is that of the op table *)

Lemma u32_lxor a b : u32 (Z.lxor a b) = Z.lxor (u32 a) (u32 b).
Proof.
unfold wrap. rewrite <- !Z.land_ones by lia. apply Z.bits_inj'. intros i Hi. rewrite !Z.land_spec, !Z.lxor_spec, !Z.land_spec.
by destruct (Z.testbit (Z.ones 32) i), (Z.testbit a i), (Z.testbit b i).
Qed.

Lemma hash_agrees id : in_u32 id -> fib_hash_block id = u32 (fibonacci_hash_op id).
Proof.
intros Hid. unfold fibonacci_hash_op, fib_hash_block.
assert (Z.shiftr id 32 = 0) as -> by (rewrite Z.shiftr_div_pow2 by lia; apply Z.div_small; lia).
change (u64 (u32 0 * 0x192e2101)) with 0. change (u32 0) with 0. rewrite Z.lxor_0_r. rewrite (wrap_id 32 id) by done.
by rewrite u32_lxor, Z.lxor_comm.
Qed.

Lemma step_agrees id : in_u32 id -> hash_step (fib_hash_block id) = probe_step id.
Proof.
intros Hid. rewrite hash_agrees by done. unfold hash_step, probe_step. f_equal. generalize (fibonacci_hash_op id). intros f.
apply Z.bits_inj'. intros i Hi. rewrite !Z.land_spec. destruct (decide (i < 17)) as [Hlt|Hge].
- f_equal. unfold wrap. rewrite Z.shiftr_spec, !Z.mod_pow2_bits_low, Z.shiftr_spec by lia. done.
- assert (Z.testbit 0x1fffe i = false) as ->; [|by rewrite !andb_false_r].
  rewrite <- (Z.mod_small 0x1fffe (2 ^ 17)) by lia. apply Z.mod_pow2_bits_high. lia.
Qed.

(** * The table invariant *)

Definition taken (e : BlockHashEntry) : bool := he_flag e =? 1.

(** Some slot holds the block. *)
Definition holds (b : BlockHash) (id : Z) : Prop := exists i e, bh_slots b !! i = Some e /\ he_flag e = 1 /\ he_id e = id.

(** A slot that a probe for [id] passes over. *)
Definition passed (ss : list BlockHashEntry) (id : Z) (i : nat) : Prop :=
  exists e, ss !! i = Some e /\ he_flag e = 1 /\ he_id e <> id.

#[local] Instance passed_dec ss id i : Decision (passed ss id i).
Proof.
unfold passed. destruct (ss !! i) as [e|] eqn:E.
- destruct (decide (he_flag e = 1 /\ he_id e <> id)) as [H|H]; [left; by exists e|right]. intros (e' & [= <-] & H'). by apply H.
- right. by intros (e' & ? & _).
Defined.

Record hash_ok (k : nat) (b : BlockHash) : Prop := {
  ho_k : (4 <= k <= 31)%nat;
  ho_mask : bh_mask b = table_size k - 1;
  ho_len : length (bh_slots b) = Z.to_nat (table_size k);
  ho_flags i e : bh_slots b !! i = Some e -> he_flag e = 0 \/ he_flag e = 1;
  ho_ids id : holds b id -> in_u32 id;
  ho_path i e : bh_slots b !! i = Some e -> he_flag e = 1 ->
    exists j, probe k (he_id e) j = i /\ forall j', (j' < j)%nat -> passed (bh_slots b) (he_id e) (probe k (he_id e) j');
  ho_count : bh_count b = Z.of_nat (countb taken (bh_slots b));
  ho_room : 2 * bh_count b < table_size k
}.

Section table.
Context (k : nat) (b : BlockHash) (Hb : hash_ok k b).

(** The slot a probe for [id] stops at. *)
Definition stops (id : Z) (j : nat) : Prop :=
  (exists e, bh_slots b !! probe k id j = Some e /\ (he_flag e = 0 \/ he_flag e = 1 /\ he_id e = id)) /\
  forall j', (j' < j)%nat -> passed (bh_slots b) id (probe k id j').

Lemma some_stop id : exists j, (j < Z.to_nat (table_size k))%nat /\ stops id j.
Proof.
assert (exists i e, bh_slots b !! i = Some e /\ he_flag e = 0) as (i & e & Hi & He).
{ destruct (decide (Exists (fun e => he_flag e = 0) (bh_slots b))) as [(e & Hin & He)%Exists_exists|Hno].
  - apply list_elem_of_lookup in Hin as [i Hi]. by exists i, e.
  - exfalso. assert (countb taken (bh_slots b) = length (bh_slots b)) as Hc.
    { apply countb_all. intros e Hin. apply list_elem_of_lookup in Hin as [i Hi]. unfold taken. apply Z.eqb_eq.
      destruct (ho_flags k b Hb i e Hi) as [H0|H1]; [|done]. exfalso. apply Hno, Exists_exists. exists e. split; [|done]. by eapply list_elem_of_lookup_2. }
    pose proof (ho_room k b Hb) as Hr. rewrite (ho_count k b Hb), Hc, (ho_len k b Hb) in Hr.
    pose proof (table_size_bounds k (ho_k k b Hb)). lia. }
destruct (probe_surj k (ho_k k b Hb) id i) as (j & Hj & Hp); [rewrite <- (ho_len k b Hb); by eapply lookup_lt_Some|].
assert (exists e, bh_slots b !! probe k id j = Some e /\ (he_flag e = 0 \/ he_flag e = 1 /\ he_id e = id)) as Hstop
  by (exists e; rewrite Hp; split; [done|by left]).
clear i e Hi He Hp. revert Hj Hstop. induction j as [j IH] using lt_wf_ind. intros Hj Hstop.
destruct (decide (Forall (fun j' => passed (bh_slots b) id (probe k id j')) (seq 0 j))) as [Hall|Hnot].
- exists j. split; [done|]. split; [done|]. rewrite Forall_forall in Hall. intros j' Hj'. apply Hall, elem_of_seq. lia.
- apply not_Forall_Exists in Hnot; [|apply _]. apply Exists_exists in Hnot as (j' & Hin & Hnp). apply elem_of_seq in Hin.
  apply (IH j'); [lia|lia|].
  destruct (lookup_lt_is_Some_2 (bh_slots b) (probe k id j')) as [e He].
  { rewrite (ho_len k b Hb). apply probe_lt, (ho_k k b Hb). }
  exists e. split; [done|]. destruct (ho_flags k b Hb _ e He) as [H0|H1]; [by left|right]. split; [done|].
  destruct (decide (he_id e = id)); [done|]. exfalso. apply Hnp. by exists e.
Qed.

Lemma probes_to id j : in_u32 id -> stops id j -> forall n i at_, (i <= j)%nat -> (j - i < n)%nat -> 0 <= at_ -> Z.to_nat at_ = probe k id i ->
  exists e, bh_slots b !! probe k id j = Some e /\
  probe_find n (bh_slots b) (bh_mask b) id at_ = (if he_flag e =? 0 then None else Some (probe k id j)) /\
  probe_claim n (bh_slots b) (bh_mask b) id at_ = Some (probe k id j, he_flag e =? 0).
Proof.
intros Hid [(e & He & Hs) Hp] n. induction n as [|n IH]; intros i at_ Hij Hn H0 Hat; [lia|].
cbn [probe_find probe_claim]. rewrite Hat. destruct (decide (i = j)) as [->|Hne].
- exists e. rewrite He. cbn [mbind option_bind]. split; [done|]. destruct Hs as [->|[-> ->]]; [done|]. by rewrite !Z.eqb_refl.
- destruct (Hp i ltac:(lia)) as (x & Hx & Hf & Hxid). rewrite Hx. cbn [mbind option_bind]. rewrite Hf, (proj2 (Z.eqb_neq (he_id x) id)) by done.
  cbn [Z.eqb Pos.eqb andb orb].
  rewrite (ho_mask k b Hb). destruct (probe_next k (ho_k k b Hb) id i at_ H0 Hat) as [H0' Hat'].
  unfold next_slot in *. rewrite <- step_agrees in H0', Hat' by done. rewrite (ho_mask k b Hb) in IH.
  apply (IH (S i)); [lia|lia|done|done].
Qed.

(** Both loops end at the stop. *)
Lemma scan_stop id j : in_u32 id -> (j < Z.to_nat (table_size k))%nat -> stops id j ->
  exists e, bh_slots b !! probe k id j = Some e /\
  block_hash_find id b = (if he_flag e =? 0 then None else Some (probe k id j)) /\
  probe_claim (length (bh_slots b)) (bh_slots b) (bh_mask b) id (Z.land (fib_hash_block id) (bh_mask b)) = Some (probe k id j, he_flag e =? 0).
Proof.
intros Hid Hj Hs. pose proof (table_size_bounds k (ho_k k b Hb)).
destruct (probes_to id j Hid Hs (Z.to_nat (table_size k)) 0%nat (Z.land (fib_hash_block id) (bh_mask b))) as (e & He & Hf & Hc).
- lia.
- lia.
- rewrite (ho_mask k b Hb), hash_agrees by done. apply (first_slot_nonneg k (ho_k k b Hb) id).
- rewrite (ho_mask k b Hb), hash_agrees by done. apply (probe_first k (ho_k k b Hb) id).
- exists e. split; [done|]. rewrite (ho_len k b Hb). split; [|done]. unfold block_hash_find.
  destruct (bh_slots b) eqn:Es; [exfalso; pose proof (ho_len k b Hb) as Hl; rewrite Es in Hl; cbn in Hl; lia|].
  rewrite <- Es in *. rewrite <- Hf. f_equal. rewrite (ho_mask k b Hb). f_equal. lia.
Qed.

Lemma stop_holds id j e : stops id j -> bh_slots b !! probe k id j = Some e -> (he_flag e = 1 <-> holds b id).
Proof.
intros [(e' & He' & Hs) Hp] He. replace e' with e in * by congruence. clear e' He'. split.
- intros Hf. exists (probe k id j), e. split_and!; [done|done|]. by destruct Hs as [?|[_ ?]]; [congruence|].
- intros (i & x & Hx & Hxf & Hxi). destruct Hs as [H0|[? _]]; [|done]. exfalso.
  destruct (ho_path k b Hb i x Hx Hxf) as (jx & Hpx & Hbx). rewrite Hxi in *.
  destruct (lt_eq_lt_dec jx j) as [[Hlt| ->]|Hlt].
  + destruct (Hp jx Hlt) as (y & Hy & _ & Hne). rewrite Hpx in Hy. replace y with x in Hne by congruence. done.
  + rewrite Hpx in He. assert (x = e) by congruence. subst x. lia.
  + destruct (Hbx j Hlt) as (y & Hy & Hyf & _). replace y with e in Hyf by congruence. lia.
Qed.

Lemma find_holds id : in_u32 id -> (is_Some (block_hash_find id b) <-> holds b id).
Proof.
intros Hid. destruct (some_stop id) as (j & Hj & Hs). destruct (scan_stop id j Hid Hj Hs) as (e & He & -> & _).
rewrite <- (stop_holds id j e) by done. destruct (ho_flags k b Hb _ e He) as [->| ->]; cbn.
- split; [by intros []|done].
- split; [done|]. by eexists.
Qed.
End table.

(** * Insertion *)

Lemma taken_unique k b i1 i2 e1 e2 : hash_ok k b -> bh_slots b !! i1 = Some e1 -> bh_slots b !! i2 = Some e2 ->
  he_flag e1 = 1 -> he_flag e2 = 1 -> he_id e1 = he_id e2 -> i1 = i2.
Proof.
intros Hb H1 H2 F1 F2 E.
destruct (ho_path k b Hb i1 e1 H1 F1) as (j1 & P1 & B1), (ho_path k b Hb i2 e2 H2 F2) as (j2 & P2 & B2). rewrite <- E in *.
destruct (lt_eq_lt_dec j1 j2) as [[Hlt| ->]|Hlt]; [|congruence|].
- destruct (B2 j1 Hlt) as (x & Hx & _ & Hne). rewrite P1, H1 in Hx. by injection Hx as <-.
- destruct (B1 j2 Hlt) as (x & Hx & _ & Hne). rewrite P2, H2 in Hx. injection Hx as <-. by rewrite E in Hne.
Qed.

Lemma put_block_fresh k b id size : hash_ok k b -> in_u32 id -> ~ holds b id -> 2 * (bh_count b + 1) < table_size k ->
  exists b', put_block id size b = Some b' /\ hash_ok k b' /\ bh_count b' = bh_count b + 1 /\
    forall x, holds b' x <-> x = id \/ holds b x.
Proof.
intros Hb Hid Hno Hroom. pose proof (table_size_bounds k (ho_k k b Hb)) as Hts.
destruct (some_stop k b Hb id) as (j & Hj & Hs). destruct (scan_stop k b Hb id j Hid Hj Hs) as (e & He & _ & Hc).
set (i := probe k id j) in *.
assert (he_flag e = 0) as He0.
{ destruct (ho_flags k b Hb i e He) as [?|H1]; [done|]. exfalso. apply Hno. by apply (stop_holds k b Hb id j e Hs He). }
unfold put_block. rewrite Hc, He0. cbn [mbind option_bind Z.eqb]. pose proof (ho_count k b Hb) as Hcnt.
rewrite (wrap_id 32) by lia. eexists. split; [done|].
assert (i < length (bh_slots b))%nat as Hil by (by eapply lookup_lt_Some).
assert (forall x p, passed (bh_slots b) x p -> passed (<[i := mkHashEntry id size 1]> (bh_slots b)) x p) as Hpass.
{ intros x p (y & Hy & Hyf & Hyi). exists y. split; [|done]. rewrite list_lookup_insert_ne; [done|]. intros <-. congruence. }
assert (forall x, holds (mkHash (<[i := mkHashEntry id size 1]> (bh_slots b)) (bh_mask b) (bh_count b + 1)) x <-> x = id \/ holds b x) as Hh.
{ intros x. unfold holds. cbn [bh_slots]. split.
  - intros (p & y & Hy & Hyf & <-). apply list_lookup_insert_Some in Hy as [(<- & <- & _)|[Hne Hy]]; [by left|right]. by exists p, y.
  - intros [->|(p & y & Hy & Hyf & Hyx)].
    + exists i, (mkHashEntry id size 1). split; [|done]. by apply list_lookup_insert_eq.
    + exists p, y. split; [|done]. rewrite list_lookup_insert_ne; [done|]. intros <-. congruence. }
split; [|done]. split; cbn [bh_slots bh_mask bh_count]; try apply Hb.
- by rewrite length_insert, (ho_len k b Hb).
- intros p y Hy. apply list_lookup_insert_Some in Hy as [(<- & <- & _)|[_ Hy]]; [by right|by apply (ho_flags k b Hb p)].
- intros x Hx. apply Hh in Hx as [->|Hx]; [done|by apply (ho_ids k b Hb)].
- intros p y Hy Hyf. apply list_lookup_insert_Some in Hy as [(<- & <- & _)|[Hne Hy]]; cbn [he_id].
  + exists j. split; [done|]. intros j' Hj'. apply Hpass. by apply (proj2 Hs).
  + destruct (ho_path k b Hb p y Hy Hyf) as (jy & Hp & Hby). exists jy. split; [done|]. intros j' Hj'. by apply Hpass, Hby.
- pose proof (countb_insert taken (bh_slots b) i e (mkHashEntry id size 1) He) as Hci. unfold taken in Hci. rewrite He0 in Hci.
  cbn [he_flag Z.eqb Pos.eqb] in Hci. fold taken in Hci. rewrite Hcnt. unfold taken in *. lia.
- lia.
Qed.

Lemma grown_ok k b : (4 <= k <= 30)%nat -> bh_slots b <> [] -> length (bh_slots b) = Z.to_nat (table_size k) ->
  hash_ok (S k) (grown b) /\ bh_count (grown b) = 0 /\ (forall x, ~ holds (grown b) x) /\ length (bh_slots (grown b)) = Z.to_nat (table_size (S k)).
Proof.
intros Hk Hne Hl. pose proof (table_size_bounds k ltac:(lia)) as Hts. pose proof (table_size_bounds (S k) ltac:(lia)) as Hts'.
assert (table_size (S k) = table_size k * 2) as Hd by (unfold table_size; rewrite Nat2Z.inj_succ, Z.pow_succ_r by lia; lia).
unfold grown. rewrite bool_decide_false by done.
assert (u32 (u32 (Z.of_nat (length (bh_slots b))) * 2) = table_size (S k)) as -> by (rewrite Hl, Z2Nat.id by lia; unwrap; lia).
rewrite (wrap_id 32) by lia. cbn [bh_slots bh_mask bh_count].
assert (forall i e, replicate (Z.to_nat (table_size (S k))) empty_entry !! i = Some e -> e = empty_entry) as Hrep
  by (intros i e Hi; by apply lookup_replicate in Hi as [-> _]).
assert (forall x, ~ holds (mkHash (replicate (Z.to_nat (table_size (S k))) empty_entry) (table_size (S k) - 1) 0) x) as Hno
  by (intros x (i & e & Hi & Hf & _); apply Hrep in Hi; by subst).
split; [|split; [done|split; [done|by rewrite length_replicate]]].
split; cbn [bh_slots bh_mask bh_count]; try done; try lia.
- by rewrite length_replicate.
- intros i e Hi. apply Hrep in Hi. subst. by left.
- intros x Hx. by apply Hno in Hx.
- intros i e Hi Hf. apply Hrep in Hi. by subst.
- by rewrite countb_replicate.
Qed.

(** The first table. *)
Lemma first_ok : hash_ok 4 (grown no_hash) /\ bh_count (grown no_hash) = 0 /\ (forall x, ~ holds (grown no_hash) x) /\
  length (bh_slots (grown no_hash)) = Z.to_nat (table_size 4).
Proof.
assert (forall i e, bh_slots (grown no_hash) !! i = Some e -> e = empty_entry) as Hrep.
{ intros i e Hi. change (bh_slots (grown no_hash)) with (replicate 16 empty_entry) in Hi. by apply lookup_replicate in Hi as [-> _]. }
assert (forall x, ~ holds (grown no_hash) x) as Hno by (intros x (i & e & Hi & Hf & _); apply Hrep in Hi; by subst).
split; [|by split_and!]. split; try done; try lia.
- intros i e Hi. apply Hrep in Hi. subst. by left.
- intros x Hx. by apply Hno in Hx.
- intros i e Hi Hf. apply Hrep in Hi. by subst.
Qed.

Lemma not_crowded k b : hash_ok k b -> 2 * (bh_count b + 1) < table_size k -> crowded b = false.
Proof.
intros Hb Hr. pose proof (table_size_bounds k (ho_k k b Hb)) as Hts. pose proof (ho_len k b Hb) as Hl. unfold crowded.
rewrite bool_decide_false by (intros E; rewrite E in Hl; cbn in Hl; lia). cbn [orb]. apply Z.leb_gt. rewrite Hl, Z2Nat.id by lia.
pose proof (ho_count k b Hb). unwrap. lia.
Qed.

(** The old entries go into the new table without another growth. *)
Lemma reinsert_blocks k b : hash_ok k b -> (k <= 30)%nat ->
  exists b', foldM (fun nb e => if he_flag e =? 1 then insert_level 1 (he_id e) (he_size e) nb else Some nb) (bh_slots b) (grown b) = Some b' /\
    hash_ok (S k) b' /\ bh_count b' = bh_count b /\ forall x, holds b' x <-> holds b x.
Proof.
intros Hb Hk. pose proof (table_size_bounds k (ho_k k b Hb)) as Hts. pose proof (ho_len k b Hb) as Hl.
pose proof (ho_k k b Hb). assert (bh_slots b <> []) as Hne by (intros E; rewrite E in Hl; cbn in Hl; lia).
assert (table_size (S k) = table_size k * 2) as Hd by (unfold table_size; rewrite Nat2Z.inj_succ, Z.pow_succ_r by lia; lia).
destruct (grown_ok k b) as (Hg & Hg0 & Hgn & _); [lia|done|done|].
assert (forall l2 l1, bh_slots b = l1 ++ l2 -> forall nb, hash_ok (S k) nb -> bh_count nb = Z.of_nat (countb taken l1) ->
  (forall x, holds nb x <-> exists e, e ∈ l1 /\ he_flag e = 1 /\ he_id e = x) ->
  exists b', foldM (fun nb e => if he_flag e =? 1 then insert_level 1 (he_id e) (he_size e) nb else Some nb) l2 nb = Some b' /\
    hash_ok (S k) b' /\ bh_count b' = bh_count b /\ forall x, holds b' x <-> holds b x) as Hgo.
{ induction l2 as [|e l2 IH]; intros l1 Hsl nb Hnb Hcn Hho.
  - exists nb. rewrite app_nil_r in Hsl. subst l1. split; [done|]. split; [done|]. split; [by rewrite Hcn, (ho_count k b Hb)|].
    intros x. rewrite Hho. unfold holds. split.
    + intros (e & Hin & Hf & Hx). apply list_elem_of_lookup in Hin as [i Hi]. by exists i, e.
    + intros (i & e & Hi & Hf & Hx). exists e. split; [by eapply list_elem_of_lookup_2|done].
  - assert (bh_slots b = (l1 ++ [e]) ++ l2) as Hsl' by (by rewrite <- app_assoc). cbn [foldM].
    assert (bh_slots b !! length l1 = Some e) as Hat by (rewrite Hsl; by apply list_lookup_middle).
    destruct (he_flag e =? 1) eqn:Ef; bool_prop.
    + pose proof (ho_count k b Hb) as Hcb. pose proof (ho_room k b Hb) as Hr. rewrite Hsl, countb_app, countb_cons in Hcb. unfold taken at 2 in Hcb.
      rewrite Ef in Hcb. cbn [Z.eqb Pos.eqb] in Hcb.
      destruct (put_block_fresh (S k) nb (he_id e) (he_size e)) as (nb' & Ep & Hok' & Hc' & Hh').
      * done.
      * apply (ho_ids k b Hb). by exists (length l1), e.
      * rewrite Hho. intros (e' & Hin & Hf' & Hid'). apply list_elem_of_lookup in Hin as [i Hi].
        assert (i = length l1).
        { apply (taken_unique k b i (length l1) e' e); [done| |done|done|done|done]. rewrite Hsl. by apply lookup_app_l_Some. }
        apply lookup_lt_Some in Hi. lia.
      * rewrite Hcn. lia.
      * assert (insert_level 1 (he_id e) (he_size e) nb = Some nb') as ->.
        { cbn [insert_level]. rewrite (not_crowded (S k)) by (done || (rewrite Hcn; lia)). done. }
        cbn [mbind option_bind]. apply (IH (l1 ++ [e])); [done|done| |].
        -- rewrite Hc', Hcn, countb_app. unfold countb at 3. rewrite filter_cons_True by (unfold taken; by rewrite Ef). cbn. lia.
        -- intros x. rewrite Hh', Hho. setoid_rewrite elem_of_app. setoid_rewrite list_elem_of_singleton. split.
           ++ intros [->|(y & ? & ? & ?)]; [by exists e; auto|by exists y; auto].
           ++ intros (y & [?| ->] & ? & ?); [right; by exists y|by left].
    + cbn [mbind option_bind]. apply (IH (l1 ++ [e])); [done|done| |].
      * rewrite Hcn, countb_app. unfold countb at 3. rewrite filter_cons_False by (unfold taken; by rewrite (proj2 (Z.eqb_neq _ _) Ef)). cbn. lia.
      * intros x. rewrite Hho. setoid_rewrite elem_of_app. setoid_rewrite list_elem_of_singleton. split.
        -- intros (y & ? & ? & ?). exists y. auto.
        -- intros (y & [?| ->] & ? & ?); [by exists y|done]. }
apply (Hgo (bh_slots b) []); [done|done|by rewrite Hg0|]. intros x. split; [intros Hx; by apply Hgn in Hx|]. intros (e & He & _). by apply not_elem_of_nil in He.
Qed.

(** Either no table yet or a sound one. *)
Definition hash_good (b : BlockHash) : Prop := b = no_hash \/ exists k, hash_ok k b.

Lemma insert_spec id size b : hash_good b -> in_u32 id -> ~ holds b id -> bh_count b + 1 < 2 ^ 29 ->
  exists b', block_hash_insert id size b = Some b' /\ hash_good b' /\ bh_count b' = bh_count b + 1 /\
    forall x, holds b' x <-> x = id \/ holds b x.
Proof.
intros Hg Hid Hno Hc. 
change (block_hash_insert id size b) with (b1 ← (if crowded b then foldM (fun nb e => if he_flag e =? 1 then insert_level 1 (he_id e) (he_size e) nb else Some nb) (bh_slots b) (grown b)
    else Some b); put_block id size b1).
assert (exists k b1, (if crowded b then foldM (fun nb e => if he_flag e =? 1 then insert_level 1 (he_id e) (he_size e) nb else Some nb) (bh_slots b) (grown b)
    else Some b) = Some b1 /\ hash_ok k b1 /\ 2 * (bh_count b1 + 1) < table_size k /\ bh_count b1 = bh_count b /\ forall x, holds b1 x <-> holds b x)
  as (k & b1 & E1 & Hb1 & Hr1 & Hc1 & Hh1).
{ destruct Hg as [->|[k Hb]].
  - exists 4%nat, (grown no_hash). destruct first_ok as (Hf & H0 & Hn & _). split; [done|]. split; [done|]. rewrite H0.
    split; [done|]. split; [done|]. intros x. split; [intros Hx; by apply Hn in Hx|]. intros (i & e & Hi & _). change ([] !! i = Some e) in Hi. by rewrite lookup_nil in Hi.
  - destruct (decide (2 * (bh_count b + 1) < table_size k)) as [Hr|Hr].
    + exists k, b. rewrite (not_crowded k) by done. by split_and!.
    + pose proof (table_size_bounds k (ho_k k b Hb)) as Hts. pose proof (ho_len k b Hb) as Hl. pose proof (ho_k k b Hb).
      assert (k <= 30)%nat as Hk.
      { destruct (decide (k <= 30)%nat); [done|]. exfalso. assert (2 ^ 31 <= table_size k) by (apply Z.pow_le_mono_r; lia). lia. }
      assert (crowded b = true) as ->.
      { unfold crowded. apply orb_true_iff. right. apply Z.leb_le. rewrite Hl, Z2Nat.id by lia. pose proof (ho_count k b Hb). unwrap. lia. }
      destruct (reinsert_blocks k b Hb Hk) as (b1 & E1 & Hb1 & Hc1 & Hh1). exists (S k), b1. split; [done|]. split; [done|].
      assert (table_size (S k) = table_size k * 2) as Hd by (unfold table_size; rewrite Nat2Z.inj_succ, Z.pow_succ_r by lia; lia).
      pose proof (ho_room k b Hb). rewrite Hc1. split; [lia|done]. }
rewrite E1. cbn [mbind option_bind].
destruct (put_block_fresh k b1 id size Hb1 Hid) as (b' & E & Hb' & Hc' & Hh'); [by rewrite Hh1|done|].
exists b'. split; [done|]. split; [right; by exists k|]. split; [by rewrite Hc', Hc1|]. intros x. by rewrite Hh', Hh1.
Qed.

Lemma find_good id b : hash_good b -> in_u32 id -> (is_Some (block_hash_find id b) <-> holds b id).
Proof.
intros [->|[k Hb]] Hid; [|by eapply find_holds]. split; [by intros []|]. intros (i & e & Hi & _). change ([] !! i = Some e) in Hi. by rewrite lookup_nil in Hi.
Qed.

(** * What the operations do to the entries *)

Lemma align_128_le s : in_u32 s -> s <= align_128 s <= s + 127.
Proof.
intros Hs. unfold align_128. change (Z.lnot 127) with (Z.lnot (Z.ones 7)). rewrite land_high_u64 by (unwrap; lia). unwrap.
change (2 ^ 7) with 128. pose proof (Z.div_mod (s + 127) 128 ltac:(lia)). pose proof (Z.mod_pos_bound (s + 127) 128 ltac:(lia)). lia.
Qed.

Lemma class_loop_total fuel x c : 0 <= x < 2 ^ Z.of_nat fuel -> exists c', class_loop (S fuel) x c = Some c'.
Proof.
revert x c. induction fuel as [|fuel IH]; intros x c Hx; cbn [class_loop]; destruct (1 <? x) eqn:E; bool_prop; try by eexists.
- cbn in Hx. lia.
- apply IH. rewrite Z.shiftr_div_pow2 by lia. rewrite Nat2Z.inj_succ, Z.pow_succ_r in Hx by lia. change (2 ^ 1) with 2.
  split; [apply Z.div_pos; lia|apply Z.div_lt_upper_bound; lia].
Qed.

Lemma size_to_class_total s : exists c, size_to_class s = Some c.
Proof.
unfold size_to_class. destruct (s =? 0); [by eexists|]. apply class_loop_total. unfold align_128_u32.
assert (0 <= Z.land (u32 (s + 127)) (u32 (Z.lnot 127)) < 2 ^ 32).
{ pose proof (u32_range (s + 127)). pose proof (u32_range (Z.lnot 127)). split; [apply Z.land_nonneg; lia|].
  rewrite <- (wrap_id 32 (u32 (s + 127))) by lia. unfold wrap at 1. rewrite <- Z.land_ones, <- Z.land_assoc, (Z.land_comm (Z.ones 32)), Z.land_assoc, Z.land_ones by lia.
  apply Z.mod_pos_bound. lia. }
change (Z.of_nat 32) with 32. destruct (_ <? 16); lia.
Qed.

Lemma entry_at_alter f b a x e :
  entry_at (alter_entry f b a) x = Some e -> exists e0, entry_at a x = Some e0 /\ (e = e0 \/ e = f e0).
Proof.
unfold entry_at, alter_entry. destruct (block_id_to_idx a !! b) as [i|]; [|by eauto]. cbn [block_id_to_idx with_table block_table].
destruct (block_id_to_idx a !! x) as [k|]; [|done]. cbn [mbind option_bind]. destruct (decide (Z.to_nat i = Z.to_nat k)) as [<-|Hne].
- rewrite list_lookup_alter_eq. destruct (_ !! _) as [e0|]; [|done]. cbn. intros [= <-]. eauto.
- rewrite list_lookup_alter_ne by done. eauto.
Qed.

Lemma entry_at_alter_Some f b a x e : entry_at a x = Some e -> exists e', entry_at (alter_entry f b a) x = Some e' /\ (e' = e \/ e' = f e).
Proof.
unfold entry_at, alter_entry. destruct (block_id_to_idx a !! b) as [i|]; [|by eauto]. cbn [block_id_to_idx with_table block_table].
destruct (block_id_to_idx a !! x) as [k|]; [|done]. cbn [mbind option_bind]. intros He. destruct (decide (Z.to_nat i = Z.to_nat k)) as [E|Hne].
- rewrite E, list_lookup_alter_eq, He. cbn. eauto.
- rewrite list_lookup_alter_ne by done. eauto.
Qed.

(** Everything but the entries. *)
Lemma alter_entry_rest f b a : let a' := alter_entry f b a in
  mode a' = mode a /\ block_id_to_idx a' = block_id_to_idx a /\ block_hash a' = block_hash a /\ next_block_id a' = next_block_id a /\
  overlap_next_offset a' = overlap_next_offset a /\ overlap_budget a' = overlap_budget a /\ overlap_allocs a' = overlap_allocs a /\
  length (block_table a') = length (block_table a).
Proof. unfold alter_entry. destruct (block_id_to_idx a !! b); cbn; rewrite ?length_alter; by split_and!. Qed.

(** A block only leaves its place to share one. *)
Definition kept (e e' : BlockEntry) : Prop :=
  be_size e' = be_size e /\ (be_flag e' = 1 -> be_flag e = 1 /\ vtcm_offset e' = vtcm_offset e).

Definition evolves (a a' : FancyAllocator) : Prop :=
  overlap_allocs a' = overlap_allocs a /\
  forall x e, entry_at a x = Some e -> exists e', entry_at a' x = Some e' /\ kept e e'.

#[local] Instance evolves_preorder : PreOrder evolves.
Proof.
split.
- intros a. split; [done|]. intros x e He. exists e. by split.
- intros a b c [E1 H1] [E2 H2]. split; [congruence|]. intros x e He.
  destruct (H1 x e He) as (e' & He' & S1 & F1), (H2 x e' He') as (e'' & He'' & S2 & F2). exists e''. split; [done|].
  split; [congruence|]. intros Hf. destruct (F2 Hf) as [Hf' ->]. by apply F1.
Qed.

Section invariant.
Context (B : Z) (HB : 0 < B < 2 ^ 63).

(** The range of a block that has a place of its own. *)
Definition placed (a : FancyAllocator) (x off size : Z) : Prop :=
  exists e, entry_at a x = Some e /\ be_flag e = 1 /\ vtcm_offset e = off /\ be_size e = size /\ off <> 0.

Record ov_ok (a : FancyAllocator) : Prop := {
  ov_mode : mode a = 0;
  ov_budget : overlap_budget a = B;
  ov_hash : hash_good (block_hash a);
  ov_count : bh_count (block_hash a) = Z.of_nat (length (block_table a));
  ov_idx x i : block_id_to_idx a !! x = Some i -> 0 <= i < Z.of_nat (length (block_table a));
  ov_holds x : holds (block_hash a) x <-> is_Some (block_id_to_idx a !! x);
  ov_next : 0 <= overlap_next_offset a <= B;
  ov_id : in_u32 (next_block_id a);
  ov_placed x off size : placed a x off size -> 0 < off /\ off + size <= overlap_next_offset a;
  ov_apart x y ox sx oy sy : placed a x ox sx -> placed a y oy sy -> x <> y -> disjoint_ranges (ox, sx) (oy, sy);
  ov_allocs x o : overlap_allocs a !! x = Some o -> oa_spilled o = false /\
    exists e, entry_at a (oa_block o) = Some e /\ (be_flag e = 1 -> vtcm_offset e = oa_offset o)
}.

Lemma ov_new : ov_ok (new_fancy B).
Proof.
assert (forall x off size, ~ placed (new_fancy B) x off size) as Hno by (intros x off size (e & He & _); done).
split; try done.
- by left.
- intros x. split; [|by intros []]. intros (i & e & Hi & _). change ([] !! i = Some e) in Hi. by rewrite lookup_nil in Hi.
- cbn. lia.
- intros x off size Hp. by apply Hno in Hp.
- intros x y ? ? ? ? Hp. by apply Hno in Hp.
Qed.

Lemma entry_of a x : ov_ok a -> is_Some (block_id_to_idx a !! x) <-> is_Some (entry_at a x).
Proof.
intros Ha. unfold entry_at. destruct (block_id_to_idx a !! x) as [i|] eqn:Ei; cbn [mbind option_bind].
- split; [|done]. intros _. apply lookup_lt_is_Some_2. pose proof (ov_idx a Ha x i Ei). lia.
- split; by intros [].
Qed.

Lemma allocs_evolve a a' x o : ov_ok a -> evolves a a' -> overlap_allocs a' !! x = Some o -> oa_spilled o = false /\
  exists e, entry_at a' (oa_block o) = Some e /\ (be_flag e = 1 -> vtcm_offset e = oa_offset o).
Proof.
intros Ha [E H] Ho. rewrite E in Ho. destruct (ov_allocs a Ha x o Ho) as (Hs & e & He & Hf). split; [done|].
destruct (H _ _ He) as (e' & He' & _ & Hk). exists e'. split; [done|]. intros Hf'. destruct (Hk Hf') as [? ->]. auto.
Qed.

(** A change of the entries that places nothing. *)
Lemma ov_alter f x a : ov_ok a -> (forall e, kept e (f e)) -> ov_ok (alter_entry f x a) /\ evolves a (alter_entry f x a).
Proof.
intros Ha Hf. pose proof (alter_entry_rest f x a) as (Em & Ei & Eh & En & Eo & Eb & Ea & El).
assert (evolves a (alter_entry f x a)) as Hev.
{ split; [done|]. intros y e He. destruct (entry_at_alter_Some f x a y e He) as (e' & He' & [->| ->]); eexists; (split; [done|]); [done|apply Hf]. }
assert (forall y off size, placed (alter_entry f x a) y off size -> placed a y off size) as Hpl.
{ intros y off size (e' & He' & Hfl & <- & <- & Hne). destruct (entry_at_alter f x a y e' He') as (e & He & [->| ->]); [by exists e|].
  destruct (Hf e) as [Hs Hk]. destruct (Hk Hfl) as [Hfl' Ho]. exists e. rewrite Ho, Hs in *. by split_and!. }
split; [|done]. split; rewrite ?Em, ?Ei, ?Eh, ?En, ?Eo, ?Eb, ?El; try apply Ha.
- intros y off size Hp. by apply (ov_placed a Ha y), Hpl.
- intros y z oy sy oz sz Hy Hz. by apply (ov_apart a Ha); apply Hpl.
- intros y o Ho. by eapply allocs_evolve.
Qed.

(** A change of what the invariant does not look at. *)
Lemma ov_same a a' : ov_ok a -> mode a' = mode a -> overlap_budget a' = overlap_budget a -> block_table a' = block_table a ->
  block_id_to_idx a' = block_id_to_idx a -> hash_good (block_hash a') -> bh_count (block_hash a') = bh_count (block_hash a) ->
  (forall x, holds (block_hash a') x <-> holds (block_hash a) x) -> overlap_next_offset a' = overlap_next_offset a ->
  in_u32 (next_block_id a') -> overlap_allocs a' = overlap_allocs a -> ov_ok a' /\ evolves a a'.
Proof.
intros Ha Em Eb Et Ei Hh Ec Eh Eo Hid Ea.
assert (forall x, entry_at a' x = entry_at a x) as Ee by (intros x; unfold entry_at; by rewrite Ei, Et).
assert (forall x off size, placed a' x off size <-> placed a x off size) as Hp by (intros x off size; unfold placed; by rewrite Ee).
assert (evolves a a') as Hev by (split; [done|]; intros x e He; exists e; by rewrite Ee).
split; [|done]. split; rewrite ?Em, ?Eb, ?Et, ?Ei, ?Ec, ?Eo; try done; try apply Ha.
- intros x. rewrite Eh. apply Ha.
- intros x off size Hx. by apply (ov_placed a Ha x), Hp.
- intros x y ox sx oy sy Hx Hy. by apply (ov_apart a Ha); apply Hp.
- intros x o Ho. by eapply allocs_evolve.
Qed.


(** Only recorded sizes differ. *)
Lemma resized_hash f i b : (forall e, he_id (f e) = he_id e /\ he_flag (f e) = he_flag e) -> hash_good b ->
  let b' := mkHash (alter f i (bh_slots b)) (bh_mask b) (bh_count b) in hash_good b' /\ forall x, holds b' x <-> holds b x.
Proof.
intros Hf Hg b'.
assert (forall p e', bh_slots b' !! p = Some e' -> exists e, bh_slots b !! p = Some e /\ he_id e' = he_id e /\ he_flag e' = he_flag e) as Hback.
{ cbn. intros p e'. destruct (decide (i = p)) as [->|Hip]; [rewrite list_lookup_alter_eq|rewrite list_lookup_alter_ne by done; by eauto]. destruct (_ !! _) as [e|]; [|done]. cbn. intros [= <-]. exists e. by rewrite !(proj1 (Hf e)), !(proj2 (Hf e)). }
assert (forall p e, bh_slots b !! p = Some e -> exists e', bh_slots b' !! p = Some e' /\ he_id e' = he_id e /\ he_flag e' = he_flag e) as Hforth.
{ cbn. intros p e He. destruct (decide (i = p)) as [->|Hip]; [rewrite list_lookup_alter_eq, He|rewrite list_lookup_alter_ne by done; by eauto]. eexists. split; [done|]. apply Hf. }
assert (forall x, holds b' x <-> holds b x) as Hh.
{ intros x. split; intros (p & e & He & Hfl & Hid); [destruct (Hback p e He) as (y & Hy & Ei & Ef)|destruct (Hforth p e He) as (y & Hy & Ei & Ef)];
  exists p, y; split_and!; congruence. }
split; [|done]. destruct Hg as [->|[k Hb]]; [by left|right]. exists k.
split; cbn [bh_mask bh_count]; try apply Hb.
- cbn. rewrite length_alter. apply Hb.
- intros p e He. destruct (Hback p e He) as (y & Hy & _ & ->). by apply (ho_flags k b Hb p).
- intros x Hx. by apply (ho_ids k b Hb), Hh.
- intros p e He Hfl. destruct (Hback p e He) as (y & Hy & Ei & Ef). destruct (ho_path k b Hb p y Hy) as (j & Hj & Hp); [congruence|].
  exists j. rewrite Ei. split; [done|]. intros j' Hj'. destruct (Hp j' Hj') as (z & Hz & Hzf & Hzi).
  destruct (Hforth _ z Hz) as (z' & Hz' & Ezi & Ezf). exists z'. split; [done|]. by rewrite Ezi, Ezf.
- change (bh_count b') with (bh_count b). rewrite (ho_count k b Hb). f_equal. rewrite <- !(countb_map (fun v : Z * Z => v.2 =? 1) (fun e => (he_id e, he_flag e))). f_equal.
  apply list_eq. intros p. rewrite !list_lookup_fmap. cbn. destruct (decide (i = p)) as [->|Hip]; [rewrite list_lookup_alter_eq|by rewrite list_lookup_alter_ne by done].
  destruct (_ !! _) as [e|]; [|done]. cbn.
  by rewrite (proj1 (Hf e)), (proj2 (Hf e)).
Qed.

Lemma kept_span lb le e : kept e (set_span lb le e).
Proof. by split. Qed.

Lemma kept_share o l e : kept e (share o l e).
Proof. by split. Qed.

Lemma ov_refresh r i a : ov_ok a -> ov_ok (refresh r i a) /\ evolves a (refresh r i a).
Proof.
intros Ha. unfold refresh.
destruct (resized_hash (fun e => mkHashEntry (he_id e) (br_size r) (he_flag e)) i (block_hash a)) as [Hg Hh]; [done|apply Ha|].
match type of Hg with hash_good ?h => destruct (ov_same a (with_hash_table h a) Ha) as [H1 E1]; try done; [apply (ov_id a Ha)|] end.
destruct (ov_alter (set_span (br_begin r) (br_end r)) (br_id r) _ H1) as [H2 E2]; [apply kept_span|].
split; [done|]. by etrans.
Qed.

(** ** A new block *)

Definition push_block (r : BlockReq) (h : BlockHash) (a : FancyAllocator) : FancyAllocator :=
  with_table (block_table a ++ [mkBlock (br_id r) (br_size r) (br_begin r) (br_end r) 1 0 0])
    (with_idx (<[br_id r := u32 (Z.of_nat (length (block_table a)))]> (block_id_to_idx a)) (with_hash_table h a)).

(** What [push_block] gives, and what the reuse and the bump start from. *)
Record pushed (a : FancyAllocator) (r : BlockReq) (a' : FancyAllocator) : Prop := {
  pu_ok : ov_ok a';
  pu_evolves : evolves a a';
  pu_fresh : entry_at a (br_id r) = None;
  pu_entry : exists e, entry_at a' (br_id r) = Some e /\ be_size e = br_size r /\ vtcm_offset e = 0;
  pu_last x i : block_id_to_idx a' !! x = Some i -> (Z.to_nat i = length (block_table a') - 1)%nat <-> x = br_id r;
  pu_table : (0 < length (block_table a'))%nat
}.

Lemma push_pushed r h a : ov_ok a -> in_u32 (br_id r) -> ~ holds (block_hash a) (br_id r) -> Z.of_nat (length (block_table a)) + 1 < 2 ^ 29 ->
  hash_good h -> bh_count h = bh_count (block_hash a) + 1 -> (forall x, holds h x <-> x = br_id r \/ holds (block_hash a) x) ->
  pushed a r (push_block r h a).
Proof.
intros Ha Hid Hno Hlen Hg Hc Hh. set (a' := push_block r h a). set (new := mkBlock (br_id r) (br_size r) (br_begin r) (br_end r) 1 0 0).
assert (u32 (Z.of_nat (length (block_table a))) = Z.of_nat (length (block_table a))) as Hu by (apply wrap_id; lia).
assert (block_id_to_idx a !! br_id r = None) as Hni.
{ destruct (block_id_to_idx a !! br_id r) eqn:E; [|done]. exfalso. apply Hno, (ov_holds a Ha). by rewrite E. }
assert (entry_at a (br_id r) = None) as Hne by (unfold entry_at; by rewrite Hni).
assert (entry_at a' (br_id r) = Some new) as Hnew.
{ unfold entry_at. cbn. rewrite lookup_insert_eq, Hu. cbn. rewrite Nat2Z.id. by apply list_lookup_middle. }
assert (forall x, x <> br_id r -> entry_at a' x = entry_at a x) as Hold.
{ intros x Hx. unfold entry_at. cbn. rewrite lookup_insert_ne by done. destruct (block_id_to_idx a !! x) as [i|] eqn:Ei; [|done]. cbn.
  apply lookup_app_l. pose proof (ov_idx a Ha x i Ei). lia. }
assert (evolves a a') as Hev.
{ split; [done|]. intros x e He. exists e. split; [|by split]. rewrite Hold; [done|]. intros ->. congruence. }
assert (forall x off size, placed a' x off size -> x <> br_id r /\ placed a x off size) as Hpl.
{ intros x off size (e & He & Hr). destruct (decide (x = br_id r)) as [->|Hx].
  - rewrite Hnew in He. injection He as <-. destruct Hr as (_ & <- & _ & Hr). by cbn in Hr.
  - split; [done|]. exists e. by rewrite <- Hold. }
assert (length (block_table a') = S (length (block_table a))) as Hl by (cbn; rewrite length_app; cbn; lia).
split; [|done|done|by exists new| |lia].
- split; rewrite ?Hl; try apply Ha; try done.
  + change (bh_count h = Z.of_nat (S (length (block_table a)))). rewrite Hc, (ov_count a Ha). lia.
  + intros x i. cbn. intros [[<- <-]|[_ Hi]]%lookup_insert_Some; [lia|]. pose proof (ov_idx a Ha x i Hi). lia.
  + intros x. cbn. rewrite Hh, (ov_holds a Ha), lookup_insert_is_Some. destruct (decide (br_id r = x)); naive_solver.
  + intros x off size Hp. by apply (ov_placed a Ha x), Hpl.
  + intros x y ox sx oy sy Hx Hy. by apply (ov_apart a Ha); apply Hpl.
  + intros x o Ho. by eapply allocs_evolve.
- intros x i. cbn. intros [[<- <-]|[Hx Hi]]%lookup_insert_Some; rewrite length_app; cbn; split; intros; try lia; try done; try congruence; pose proof (ov_idx a Ha x i Hi); lia.
Qed.

Lemma ov_bump r a0 a : ov_ok a0 -> pushed a0 r a -> in_u32 (br_size r) -> ov_ok (bump r a) /\ evolves a0 (bump r a).
Proof.
intros H0 [Ha Hev Hfresh (e & He & Hsz & Hoff) Hlast Htab] Hs. unfold bump. pose proof (align_128_le _ Hs) as Hal. pose proof (ov_next a Ha) as Hn.
rewrite (ov_budget a Ha). rewrite (wrap_id 64) by lia. destruct (_ && _) eqn:Efit; [by split|].
assert (overlap_next_offset a + align_128 (br_size r) <= B) as Hfit by (apply andb_false_iff in Efit as [?|?]; bool_prop; lia). clear Efit.
set (a' := with_offset _ _).
assert (forall x, x <> br_id r -> entry_at a' x = entry_at a x) as Hold.
{ intros x Hx. unfold entry_at. cbn. destruct (block_id_to_idx a !! x) as [i|] eqn:Ei; [|done]. cbn. apply list_lookup_alter_ne.
  intros E. apply Hx, (Hlast x i Ei). done. }
assert (entry_at a' (br_id r) = Some (set_offset (overlap_next_offset a) e)) as Hnew.
{ unfold entry_at in He |- *. cbn. destruct (block_id_to_idx a !! br_id r) as [i|] eqn:Ei; [|done]. cbn in He |- *.
  rewrite (proj2 (Hlast _ i Ei) eq_refl) in *. by rewrite list_lookup_alter_eq, He. }
assert (forall x off size, placed a' x off size ->
  x = br_id r /\ off = overlap_next_offset a /\ size = br_size r /\ off <> 0 \/ x <> br_id r /\ placed a x off size) as Hpl.
{ intros x off size (y & Hy & Hfl & Hr). destruct (decide (x = br_id r)) as [->|Hx].
  - left. rewrite Hnew in Hy. injection Hy as <-. destruct Hr as (<- & <- & Hne). by rewrite <- Hsz.
  - right. split; [done|]. exists y. by rewrite <- Hold. }
assert (evolves a0 a') as Hev'.
{ destruct Hev as [E H]. split; [done|]. intros x y Hy. rewrite Hold; [by apply H|]. intros ->. congruence. }
split; [|done].
split; try apply Ha; cbn -[placed].
- by rewrite length_alter; apply Ha.
- rewrite length_alter. apply Ha.
- lia.
- intros x off size [(-> & -> & -> & ?)|[_ Hp]]%Hpl; [lia|]. pose proof (ov_placed a Ha x off size Hp). lia.
- intros x y ox sx oy sy [(-> & -> & -> & Hx)|[_ Hx]]%Hpl [(-> & -> & -> & Hy)|[_ Hy]]%Hpl Hne; [done| | |by apply (ov_apart a Ha x y)].
  + right. cbn. pose proof (ov_placed a Ha y oy sy Hy). lia.
  + left. cbn. pose proof (ov_placed a Ha x ox sx Hx). lia.
- intros x o Ho. eapply (allocs_evolve a0); [done|done|done].
Qed.

Lemma ov_free f a : ov_ok a -> ov_ok (with_free f a) /\ evolves a (with_free f a).
Proof. intros Ha. apply ov_same; try done; [apply (ov_hash a Ha)|apply (ov_id a Ha)]. Qed.

Lemma ov_saved v a : ov_ok a -> ov_ok (with_saved v a) /\ evolves a (with_saved v a).
Proof. intros Ha. apply ov_same; try done; [apply (ov_hash a Ha)|apply (ov_id a Ha)]. Qed.

Lemma try_pop_free cls lb le a reuse a' : free_list_try_pop cls lb le a = (reuse, a') ->
  (exists f, a' = with_free f a) /\ (reuse <> 0 -> is_Some (entry_at a' reuse)).
Proof.
unfold free_list_try_pop. destruct (list_find _ _) as [[i bid]|] eqn:E; intros [= <- <-].
- split; [by eexists|]. intros _. apply list_find_Some in E as (_ & Hap & _). unfold apart in Hap.
  change (entry_at (with_free _ a) bid) with (entry_at a bid). by destruct (entry_at a bid).
- split; [|done]. exists (free_lists a). by destruct a.
Qed.

Lemma register_ok r a : ov_ok a -> in_u32 (br_id r) -> in_u32 (br_size r) -> Z.of_nat (length (block_table a)) + 1 < 2 ^ 29 ->
  exists a', register r a = Some a' /\ ov_ok a' /\ evolves a a' /\ is_Some (entry_at a' (br_id r)) /\
    (length (block_table a') <= S (length (block_table a)))%nat.
Proof.
intros Ha Hid Hs Hlen. unfold register. destruct (block_hash_find (br_id r) (block_hash a)) as [i|] eqn:Ef.
- destruct (ov_refresh r i a Ha) as [H1 E1]. eexists. split; [done|]. split; [done|]. split; [done|].
  assert (is_Some (entry_at a (br_id r))) as [e He].
  { apply entry_of; [done|]. apply (ov_holds a Ha). apply (find_good _ _ (ov_hash a Ha) Hid). by rewrite Ef. }
  split; [destruct E1 as [_ E1]; destruct (E1 _ _ He) as (e' & He' & _); by rewrite He'|]. unfold refresh. rewrite (proj2 (proj2 (proj2 (proj2 (proj2 (proj2 (proj2 (alter_entry_rest _ _ _)))))))). cbn. lia.
- assert (~ holds (block_hash a) (br_id r)) as Hno.
  { rewrite <- (find_good _ _ (ov_hash a Ha) Hid), Ef. by intros []. }
  destruct (insert_spec (br_id r) (br_size r) (block_hash a) (ov_hash a Ha) Hid Hno) as (h & Eh & Hg & Hc & Hh); [rewrite (ov_count a Ha); lia|].
  rewrite Eh. cbn [mbind option_bind]. pose proof (push_pushed r h a Ha Hid Hno Hlen Hg Hc Hh) as Hp.
  fold (push_block r h a). cbv zeta. change (with_table _ _) with (push_block r h a). set (a1 := push_block r h a) in *.
  destruct (size_to_class_total (br_size r)) as [cls ->]. cbn [mbind option_bind].
  destruct (free_list_try_pop cls (br_begin r) (br_end r) a1) as [reuse a2] eqn:Ep.
  apply try_pop_free in Ep as [[f ->] Hre].
  assert (length (block_table a1) = S (length (block_table a))) as Hl by (cbn; rewrite length_app; cbn; lia).
  destruct (ov_free f a1 (pu_ok _ _ _ Hp)) as [H2 E2].
  destruct (reuse =? 0) eqn:E0; bool_prop; cbn [negb].
  + assert (pushed a r (with_free f a1)) as Hp2 by (destruct Hp; by split).
    destruct (ov_bump r a _ Ha Hp2 Hs) as [H3 E3]. eexists. split; [done|]. split; [done|]. split; [done|].
    split; [|unfold bump; destruct (_ && _); cbn; rewrite ?length_alter, length_app; cbn; lia].
    apply entry_of; [done|]. destruct (pu_entry _ _ _ Hp2) as (e & He & _).
    assert (block_id_to_idx (bump r (with_free f a1)) = block_id_to_idx (with_free f a1)) as -> by (unfold bump; by destruct (_ && _)).
    by apply entry_of; [|rewrite He].
  + destruct (Hre E0) as [e He]. rewrite He. cbn [mbind option_bind].
    destruct (ov_alter (share (vtcm_offset e) reuse) (br_id r) _ H2) as [H3 E3]; [apply kept_share|].
    destruct (ov_saved (u64 (overlap_saved (with_free f a1) + align_128_u32 (br_size r))) _ H3) as [H4 E4].
    eexists. split; [done|]. split; [done|]. assert (evolves a1 (with_saved (u64 (overlap_saved (with_free f a1) + align_128_u32 (br_size r)))
     (alter_entry (share (vtcm_offset e) reuse) (br_id r) (with_free f a1)))) as E5 by (etrans; [exact E2|]; by etrans).
    split; [etrans; [exact (pu_evolves _ _ _ Hp)|done]|].
    destruct (pu_entry _ _ _ Hp) as (e1 & He1 & _). destruct E5 as [_ E5]. destruct (E5 _ _ He1) as (e2 & He2 & _). split; [by rewrite He2|].
    change (length (block_table (with_saved _ ?x))) with (length (block_table x)).
    rewrite (proj2 (proj2 (proj2 (proj2 (proj2 (proj2 (proj2 (alter_entry_rest _ _ _)))))))). cbn. rewrite length_app. cbn. lia.
Qed.


Lemma force_contiguous_ok rs a : ov_ok a -> (forall r, r ∈ rs -> in_u32 (br_id r) /\ in_u32 (br_size r)) ->
  Z.of_nat (length (block_table a) + length rs) < 2 ^ 29 ->
  exists a', force_contiguous rs a = Some a' /\ ov_ok a' /\ evolves a a' /\ (forall r, r ∈ rs -> is_Some (entry_at a' (br_id r))) /\
    (length (block_table a') <= length (block_table a) + length rs)%nat.
Proof.
revert a. induction rs as [|r rs IH]; intros a Ha Hrs Hlen; cbn [force_contiguous foldM length] in *.
- exists a. split; [done|]. split; [done|]. split; [done|]. split; [|lia]. by intros r ?%not_elem_of_nil.
- destruct (Hrs r ltac:(left)) as [Hid Hs]. destruct (register_ok r a Ha Hid Hs) as (a1 & -> & H1 & E1 & [e He] & L1); [lia|].
  cbn [mbind option_bind]. destruct (IH a1 H1) as (a2 & E & H2 & E2 & S2 & L2); [intros x Hx; apply Hrs; by right|lia|].
  exists a2. split; [exact E|]. split; [done|]. split; [by etrans|]. split; [|lia].
  intros x [->|Hx]%elem_of_cons; [|by apply S2]. destruct E2 as [_ E2]. destruct (E2 _ _ He) as (e' & He' & _). by rewrite He'.
Qed.

(** One block takes the offset of another one. *)
Definition shares (o l id : Z) (v : Z) (a : FancyAllocator) : FancyAllocator := with_saved v (alter_entry (share o l) id a).

Lemma take_offset_cases id1 id2 b1 b2 a : take_offset id1 id2 b1 b2 a = a \/ exists o l id v, take_offset id1 id2 b1 b2 a = shares o l id v a.
Proof. unfold take_offset, shares. repeat case_match; eauto 10. Qed.

Lemma ov_take_offset id1 id2 b1 b2 a : ov_ok a ->
  ov_ok (take_offset id1 id2 b1 b2 a) /\ evolves a (take_offset id1 id2 b1 b2 a) /\
  length (block_table (take_offset id1 id2 b1 b2 a)) = length (block_table a).
Proof.
intros Ha. destruct (take_offset_cases id1 id2 b1 b2 a) as [->|(o & l & id & v & ->)]; [done|]. unfold shares.
destruct (ov_alter (share o l) id a Ha) as [H1 E1]; [apply kept_share|]. destruct (ov_saved v _ H1) as [H2 E2].
split; [done|]. split; [by etrans|]. apply (alter_entry_rest (share o l) id a).
Qed.

Lemma link_blocks_ok id1 id2 a : ov_ok a ->
  exists a', link_blocks id1 id2 a = Some a' /\ ov_ok a' /\ evolves a a' /\ length (block_table a') = length (block_table a).
Proof.
intros Ha. unfold link_blocks. destruct (id1 =? id2); [by exists a|].
destruct (entry_at a id1) as [b1|] eqn:E1; [|by exists a]. destruct (entry_at a id2) as [b2|]; [|by exists a].
destruct (ov_take_offset id1 id2 b1 b2 a Ha) as (H1 & Hev & Hl). set (a1 := take_offset id1 id2 b1 b2 a) in *.
destruct (proj2 Hev _ _ E1) as (e & He & _). rewrite He. cbn [mbind option_bind]. destruct (be_flag e =? 1); [|by exists a1].
unfold free_list_add. rewrite He. destruct (size_to_class_total (be_size e)) as [cls ->]. cbn [mbind option_bind].
eexists. split; [done|]. match goal with |- ov_ok (with_free ?f _) /\ _ => destruct (ov_free f a1 H1) as [H2 E2] end.
split; [exact H2|]. split; [by etrans|done].
Qed.

Lemma ov_note x o e a : ov_ok a -> oa_spilled o = false -> entry_at a (oa_block o) = Some e -> vtcm_offset e = oa_offset o ->
  ov_ok (with_allocs (<[x := o]> (overlap_allocs a)) a).
Proof.
intros Ha Hs He Ho. split; try apply Ha.
intros y o'. cbn. intros [[<- <-]|[_ Hy]]%lookup_insert_Some; [|exact (ov_allocs a Ha y o' Hy)]. split; [done|]. by exists e.
Qed.

Lemma ov_note_output od bid a : ov_ok a -> ov_ok (note_output od bid a) /\ length (block_table (note_output od bid a)) = length (block_table a).
Proof.
intros Ha. unfold note_output. destruct (entry_at a bid) as [e|] eqn:He; [|done]. split; [|done]. eapply ov_note; [done| |done|done].
cbn. apply andb_false_iff. right. rewrite (ov_budget a Ha). pose proof (ov_next a Ha). apply Z.ltb_ge. lia.
Qed.

Lemma ov_note_inputs l a : ov_ok a -> ov_ok (foldl note_input a l) /\ length (block_table (foldl note_input a l)) = length (block_table a).
Proof.
revert a. induction l as [|[c bid] l IH]; intros a Ha; [done|]. cbn [foldl].
assert (ov_ok (note_input a (c, bid)) /\ length (block_table (note_input a (c, bid))) = length (block_table a)) as [H1 L1].
{ unfold note_input. destruct (overlap_allocs a !! src_id c); [done|]. destruct (entry_at a bid) as [e|] eqn:He; [|done]. split; [|done]. by eapply ov_note. }
destruct (IH _ H1) as [H2 L2]. split; [done|]. by rewrite L2.
Qed.

Lemma block_size_u32 od : in_u32 (block_size od).
Proof. apply u32_range. Qed.

Lemma reqs_u32 d od out t r : in_u32 out -> r ∈ (input_req d <$> filter (fun c => src_id c <> 0) (inputs od)) ++ [output_req d od out t] ->
  in_u32 (br_id r) /\ in_u32 (br_size r).
Proof.
intros Ho [Hr|Hr]%elem_of_app.
- apply list_elem_of_fmap in Hr as (c & -> & _). unfold input_req. destruct (match _ with Some s => _ | None => _ end). split; [apply u32_range|apply block_size_u32].
- apply list_elem_of_singleton in Hr as ->. unfold output_req. destruct (match _ with Some s => _ | None => _ end). split; [done|apply block_size_u32].
Qed.

(** How many blocks an op registers at most. *)
Definition blocks_of (od : OpDef) : Z := 1 + Z.of_nat (length (inputs od)).

Lemma allow_ok d od t a : ov_ok a -> Z.of_nat (length (block_table a)) + blocks_of od < 2 ^ 29 ->
  exists a', allow_tensor_overlap_opdef d od t a = Some a' /\ ov_ok a' /\
    Z.of_nat (length (block_table a')) <= Z.of_nat (length (block_table a)) + blocks_of od.
Proof.
intros Ha Hlen. assert (0 <= blocks_of od) as Hnn by (unfold blocks_of; lia). unfold allow_tensor_overlap_opdef.
rewrite (ov_mode a Ha). cbn [Z.eqb negb]. destruct (is_const od); [exists a; split_and!; [done|done|lia]|].
destruct (_ =? 0); [exists a; split_and!; [done|done|lia]|].
destruct (if u32 (op_id od) =? 0 then _ else _) as [out a1] eqn:E1.
assert (ov_ok a1 /\ in_u32 out /\ block_table a1 = block_table a) as (H1 & Hout & T1).
{ destruct (u32 (op_id od) =? 0); injection E1 as <- <-; [|split; [done|split; [apply u32_range|done]]].
  split; [|split; [apply (ov_id a Ha)|done]]. apply (ov_same a); try done; [apply (ov_hash a Ha)|apply u32_range]. }
clear E1. set (ins := input_req d <$> _). assert (length ins <= length (inputs od))%nat as Hil.
{ unfold ins. rewrite length_fmap. apply length_filter. }
pose proof (fun r => reqs_u32 d od out t r Hout) as Hrs. fold ins in Hrs. unfold blocks_of in *. rewrite <- T1 in Hlen |- *.
destruct ins as [|first ins'] eqn:Eins.
- destruct (force_contiguous_ok [output_req d od out t] a1 H1) as (a2 & -> & H2 & _ & S2 & L2); [intros r Hr; by apply Hrs|cbn; lia|].
  cbn [mbind option_bind]. assert (br_id (output_req d od out t) = out) as Eo by (unfold output_req; by destruct (match _ with Some s => _ | None => _ end)).
  destruct (S2 (output_req d od out t)) as [e He]; [by left|]. rewrite Eo in He. rewrite He. cbn [mbind option_bind].
  eexists. split; [done|]. split; [by eapply ov_note|]. cbn in *. lia.
- rewrite <- Eins in *. destruct (force_contiguous_ok (ins ++ [output_req d od out t]) a1 H1 Hrs) as (a2 & -> & H2 & _ & _ & L2);
    [rewrite length_app; cbn; lia|]. cbn [mbind option_bind].
  destruct (link_blocks_ok (br_id first) out a2 H2) as (a3 & -> & H3 & _ & L3). cbn [mbind option_bind].
  destruct (ov_note_output od out a3 H3) as [H4 L4]. destruct (ov_note_inputs (zip (inputs od) (br_id <$> ins)) _ H4) as [H5 L5].
  eexists. split; [done|]. split; [done|]. rewrite L5, L4, L3. rewrite length_app in L2. cbn in L2. lia.
Qed.

Lemma overlap_loop d (l : list (nat * OpDef)) a : ov_ok a -> Z.of_nat (length (block_table a)) + sum_by blocks_of (l.*2) < 2 ^ 29 ->
  exists a', foldM (fun a '(i, od) => if negb (is_enabled od) || is_dead od then Some a
                           else allow_tensor_overlap_opdef d od (u32 (Z.of_nat i)) a) l a = Some a' /\ ov_ok a'.
Proof.
revert a. induction l as [|[i od] l IH]; intros a Ha Hlen; cbn [foldM]; [by exists a|].
cbn [fmap list_fmap snd] in Hlen. change (sum_by blocks_of (od :: ?x)) with (blocks_of od + sum_by blocks_of x) in Hlen.
assert (0 <= sum_by blocks_of (l.*2)) by (apply sum_by_nonneg; intros; unfold blocks_of; lia).
assert (0 <= blocks_of od) by (unfold blocks_of; lia).
destruct (_ || _); cbn [mbind option_bind]; [apply IH; [done|lia]|].
destruct (allow_ok d od (u32 (Z.of_nat i)) a Ha) as (a1 & -> & H1 & L1); [lia|]. cbn [mbind option_bind]. apply IH; [done|lia].
Qed.

Lemma overlap_alloc_ok d sorted : sum_by blocks_of sorted < 2 ^ 29 ->
  exists a, vtcm_overlap_alloc (Some d) sorted B (new_fancy 0) = Some (a, overlap_allocs a) /\ ov_ok a.
Proof.
intros Hs. cut (exists a, overlap_ops d sorted (new_fancy B) = Some a /\ ov_ok a).
{ intros (a & E & Ha). exists a. split; [|done]. unfold vtcm_overlap_alloc. change (with_budget B (new_fancy 0)) with (new_fancy B). by rewrite E. }
unfold overlap_ops. apply overlap_loop; [apply ov_new|].
replace ((imap pair sorted).*2) with sorted; [cbn; lia|]. rewrite fmap_imap. apply list_eq. intros i. rewrite list_lookup_imap. by destruct (sorted !! i).
Qed.

Lemma final_pass_same a bids : ov_ok a -> (forall x, x ∈ bids -> in_u32 x) -> vtcm_block_alloc_finalize bids a = Some a.
Proof.
intros Ha Hb. unfold vtcm_block_alloc_finalize, allocate_tcm_blocks_internal. case_bool_decide; [done|].
assert (forall l, (forall x, x ∈ l -> in_u32 x) -> foldM (allocate_block true) l (a, 0) = Some (a, 0)) as Hgo.
{ induction l as [|x l IH]; intros Hl; [done|]. cbn [foldM]. assert (allocate_block true (a, 0) x = Some (a, 0)) as ->.
  - unfold allocate_block. destruct (block_hash_find x (block_hash a)) eqn:E; [done|].
    assert (entry_at a x = None) as ->; [|done]. apply eq_None_not_Some. rewrite <- entry_of, <- (ov_holds a Ha) by done.
    rewrite <- (find_good _ _ (ov_hash a Ha) (Hl x ltac:(left))), E. by intros [].
  - cbn [mbind option_bind]. apply IH. intros y Hy. apply Hl. by right. }
rewrite Hgo; [done|]. intros x Hx. apply std_sort_elem in Hx. by apply Hb.
Qed.
End invariant.


(** * Claims *)

(** C22: the overlap pass of a fresh allocator always returns, with fewer than
    2^29 blocks and a budget above 0 (which stands for none) and below 2^63;
    no op's result is ever marked as spilled, whether the
    blocks fit or not; and the final pass, which is to place the blocks by
    reverse lifetime, leaves every field as it is, because each registered
    block is already in the hash table it consults. *)
Theorem overlap_alloc_never_spills d sorted budget :
  0 < budget < 2 ^ 63 -> sum_by blocks_of sorted < 2 ^ 29 ->
  exists a allocs, vtcm_overlap_alloc (Some d) sorted budget (new_fancy 0) = Some (a, allocs) /\
    (forall x o, allocs !! x = Some o -> oa_spilled o = false) /\
    (forall bids, (forall b, b ∈ bids -> in_u32 b) -> vtcm_block_alloc_finalize bids a = Some a).
Proof.
intros HB Hs. destruct (overlap_alloc_ok budget HB d sorted Hs) as (a & E & Ha). exists a, (overlap_allocs a). split; [done|]. split.
- intros x o Ho. by apply (ov_allocs budget a Ha x o).
- intros bids Hb. by apply (final_pass_same budget).
Qed.

(** C20: under a budget (0 stands for none in the code), two results of the
    overlap pass of a fresh allocator that lie in different blocks with
    places of their own (neither shared nor at offset 0) occupy disjoint
    ranges of VTCM, both inside the budget. *)
Theorem overlap_blocks_apart d sorted budget a allocs x y ox oy ex ey :
  0 < budget < 2 ^ 63 -> sum_by blocks_of sorted < 2 ^ 29 -> vtcm_overlap_alloc (Some d) sorted budget (new_fancy 0) = Some (a, allocs) ->
  allocs !! x = Some ox -> allocs !! y = Some oy ->
  entry_at a (oa_block ox) = Some ex -> entry_at a (oa_block oy) = Some ey ->
  be_flag ex = 1 -> be_flag ey = 1 -> oa_offset ox <> 0 -> oa_offset oy <> 0 -> oa_block ox <> oa_block oy ->
  disjoint_ranges (oa_offset ox, be_size ex) (oa_offset oy, be_size ey) /\
  oa_offset ox + be_size ex <= budget /\ oa_offset oy + be_size ey <= budget.
Proof.
intros HB Hs E Hx Hy Hex Hey Fx Fy Nx Ny Hne. destruct (overlap_alloc_ok budget HB d sorted Hs) as (a' & E' & Ha).
assert (a = a' /\ allocs = overlap_allocs a') as [-> ->] by (split; congruence). clear E. rename a' into a.
assert (forall z o e, overlap_allocs a !! z = Some o -> entry_at a (oa_block o) = Some e -> be_flag e = 1 -> oa_offset o <> 0 ->
  placed a (oa_block o) (oa_offset o) (be_size e)) as Hpl.
{ intros z o e Hz He Fe Ne. destruct (ov_allocs budget a Ha z o Hz) as (_ & e' & He' & Ho). replace e' with e in Ho by congruence.
  exists e. split_and!; [done|done|by apply Ho|done|done]. }
pose proof (Hpl x ox ex Hx Hex Fx Nx) as Px. pose proof (Hpl y oy ey Hy Hey Fy Ny) as Py.
pose proof (ov_next budget a Ha). pose proof (ov_placed budget a Ha _ _ _ Px). pose proof (ov_placed budget a Ha _ _ _ Py).
split; [by apply (ov_apart budget a Ha _ _ _ _ _ _ Px Py)|lia].
Qed.

(** Three ops in a chain; the first result is read by both others. *)
Definition demo_run (budget : Z) : option (FancyAllocator * gmap op_id_t OverlapAlloc) :=
  vtcm_overlap_alloc (Some new_deps) demo_ops budget (new_fancy 0).

Lemma overlap_alloc_never_spills_witness :
  exists a allocs, demo_run 1000 = Some (a, allocs) /\ oa_spilled (default (mkOverlapAlloc 0 0 true false 0) (allocs !! 2)) = false /\
    oa_offset (default (mkOverlapAlloc 9 0 true false 0) (allocs !! 2)) = 0.
Proof.
destruct (overlap_alloc_never_spills new_deps demo_ops 1000) as (a & allocs & E & Hs & _); [lia|vm_compute; reflexivity|]. exists a, allocs.
destruct (allocs !! 2) as [o|] eqn:E2.
- split; [exact E|]. split; [exact (Hs 2 o E2)|]. vm_compute in E. injection E as _ <-. vm_compute in E2. injection E2 as <-. reflexivity.
- exfalso. vm_compute in E. injection E as _ <-. vm_compute in E2. discriminate.
Defined.

Ltac computed E := vm_compute in E; injection E as <-.

Lemma overlap_blocks_apart_witness :
  exists a allocs ox oy, demo_run 8192 = Some (a, allocs) /\ allocs !! 2 = Some ox /\ allocs !! 3 = Some oy /\
    disjoint_ranges (oa_offset ox, 1600) (oa_offset oy, 400).
Proof.
assert (exists a allocs ox oy ex ey, demo_run 8192 = Some (a, allocs) /\ allocs !! 2 = Some ox /\ allocs !! 3 = Some oy /\
  entry_at a (oa_block ox) = Some ex /\ entry_at a (oa_block oy) = Some ey) as (a & allocs & ox & oy & ex & ey & E & Ex & Ey & Hx & Hy)
  by (do 6 eexists; split_and!; vm_compute; reflexivity).
exists a, allocs, ox, oy. pose proof (overlap_blocks_apart new_deps demo_ops 8192 a allocs 2 3 ox oy ex ey) as H.
split; [exact E|]. split; [exact Ex|]. split; [exact Ey|].
vm_compute in E. injection E as <- <-. computed Ex. computed Ey. computed Hx. computed Hy.
apply H; first [lia | vm_compute; first [reflexivity | discriminate]].
Defined.

(** The first block lies at offset 0, which also says that a block has no
    place: linking it to its first reader's output moves it there, while
    the third op is still to read it from its old place. *)
Example first_block_lent :
  ('(a, allocs) ← demo_run 8192; e ← entry_at a 1; f ← entry_at a 2; o ← allocs !! 1;
   Some (be_flag e, vtcm_offset e, linked_to e, (be_flag f, vtcm_offset f), oa_offset o)) = Some (2, 896, 2, (1, 896), 0).
Proof. by vm_compute. Qed.

(** A class holds the sizes up to twice its least one, so a block of 4096
    bytes is offered to one that needs 8064. *)
Example class_too_wide : size_to_class 4096 = size_to_class 8064.
Proof. by vm_compute. Qed.
