(* ===== verification/HalfFloat.v ===== *)
(** Half and single precision numbers as bit patterns, as constant folding
    converts them ([compiler/src/opt/pass_const_fold.cpp]), and what becomes
    of a constant that is widened and narrowed again. *)
From S2P Require Import Prelude.

(** * Half precision

    Single and half precision numbers as their bit patterns. *)

Definition F16_INF : Z := 0x7C00.

(** [None]: a shift by 32 places or more, which C++ leaves undefined. *)
Definition narrow_f16 (u : Z) : option Z :=
  let sign := Z.land (Z.shiftr u 16) 0x8000 in
  let exp := Z.land (Z.shiftr u 23) 0xFF in
  let mant := Z.land u 0x7FFFFF in
  if exp =? 0xFF then Some (Z.lor (Z.lor sign F16_INF) (if mant =? 0 then 0 else 0x200))
  else if 127 + 15 <? exp then Some (Z.lor sign F16_INF)
  else if 127 - 14 + 1 <=? exp then
    let e := exp - 127 + 15 in
    let m := Z.shiftr mant 13 in
    let rest := Z.land mant 0x1FFF in
    let up := (0x1000 <? rest) || (rest =? 0x1000) && negb (Z.land m 1 =? 0) in
    let '(m, e) := if up then if m + 1 =? 0x400 then (0, e + 1) else (m + 1, e) else (m, e) in
    Some (Z.lor (Z.lor sign (Z.shiftl e 10)) m)
  else
    let shift := 127 - 14 - exp + 1 in
    if 32 <=? 13 + shift then None
    else
      let full := Z.lor mant 0x800000 in
      let m := Z.shiftr full (13 + shift) in
      let rest := Z.land full (Z.shiftl 1 (13 + shift) - 1) in
      let half := Z.shiftl 1 (12 + shift) in
      let m := if (half <? rest) || (rest =? half) && negb (Z.land m 1 =? 0) then m + 1 else m in
      let m := if 0x400 <=? m then 0x3FF else m in
      Some (Z.lor sign m).

(** [while (!(mant & 0x400)) { mant <<= 1; e--; }]: at most ten rounds. *)
Fixpoint normalize (fuel : nat) (mant e : Z) : Z * Z :=
  match fuel with
  | O => (mant, e)
  | S fuel => if Z.land mant 0x400 =? 0 then normalize fuel (Z.shiftl mant 1) (e - 1) else (mant, e)
  end.

Definition widen_f16 (h : Z) : Z :=
  let sign := Z.shiftl (Z.land h 0x8000) 16 in
  let exp := Z.land (Z.shiftr h 10) 0x1F in
  let mant := Z.land h 0x3FF in
  if exp =? 0 then
    if mant =? 0 then sign
    else let '(mant, e) := normalize 10 mant (-1) in
         Z.lor (Z.lor sign (Z.shiftl (114 + e) 23)) (Z.shiftl (Z.land mant 0x3FF) 13)
  else if exp =? 31 then Z.lor (Z.lor sign 0x7F800000) (Z.shiftl mant 13)
  else Z.lor (Z.lor sign (Z.shiftl (exp - 15 + 127) 23)) (Z.shiftl mant 13).

(** [(float)b] of a byte. *)
Definition float_of_byte (b : Z) : Z :=
  if b =? 0 then 0
  else let k := Z.log2 b in Z.lor (Z.shiftl (127 + k) 23) (Z.land (Z.shiftl b (23 - k)) 0x7FFFFF).

(** [f != 0.0f]. *)
Definition float_nonzero (u : Z) : bool := negb (Z.land u 0x7FFFFFFF =? 0).

Definition halfword (b0 b1 : Z) : Z := b0 + 2 ^ 8 * b1.
Fixpoint halfwords (bs : list Z) : list Z :=
  match bs with b0 :: b1 :: bs => halfword b0 b1 :: halfwords bs | _ => [] end.
Definition le16 (v : Z) : list Z := [wrap 8 v; wrap 8 (Z.shiftr v 8)].

(** ** Every pattern *)

(** [P] of all numbers below 2^k from [base]. *)
Fixpoint all_from (k : nat) (base : Z) (P : Z -> bool) : bool :=
  match k with
  | O => P base
  | S k => all_from k base P && all_from k (base + 2 ^ Z.of_nat k) P
  end.

Lemma all_from_spec k base P x : all_from k base P = true -> base <= x < base + 2 ^ Z.of_nat k -> P x = true.
Proof.
revert base. induction k as [|k IH]; intros base Ha Hx; cbn [all_from] in Ha.
- replace x with base by (cbn in Hx; lia). done.
- apply andb_true_iff in Ha as [H1 H2]. rewrite Nat2Z.inj_succ, Z.pow_succ_r in Hx by lia.
  destruct (decide (x < base + 2 ^ Z.of_nat k)); [apply (IH base); [done|lia]|apply (IH (base + 2 ^ Z.of_nat k)); [done|lia]].
Qed.

Definition f16_exp (h : Z) : Z := Z.land (Z.shiftr h 10) 0x1F.
Definition f16_mant (h : Z) : Z := Z.land h 0x3FF.
Definition f16_sign (h : Z) : Z := Z.land h 0x8000.

(** Half of a small value, rounded to even: what the narrowing makes of the
    values with an exponent of 0 or 1. *)
Definition halved (v : Z) : Z := let m := Z.shiftr v 1 in if negb (Z.land v 1 =? 0) && negb (Z.land m 1 =? 0) then m + 1 else m.

Definition f16_back (h : Z) : option Z :=
  if f16_exp h =? 31 then Some (Z.lor (f16_sign h) (if f16_mant h =? 0 then F16_INF else 0x7E00))
  else if 2 <=? f16_exp h then Some h
  else if (f16_exp h =? 0) && (f16_mant h =? 0) then None
  else Some (Z.lor (f16_sign h) (Z.min 0x3FF (halved (1024 * f16_exp h + f16_mant h)))).

Lemma f16_all : all_from 16 0 (fun h => bool_decide (narrow_f16 (widen_f16 h) = f16_back h)) = true.
Proof. vm_compute. reflexivity. Qed.

(** C21: a half precision constant that is folded without being changed: the
    pattern comes back for every infinity and every number of exponent two or
    more; a NaN comes back as the one quiet NaN; a number of a lower exponent
    comes back halved; and for zero the code shifts by 127 places, which is
    undefined. *)
Theorem f16_fold_roundtrip h : 0 <= h < 2 ^ 16 -> narrow_f16 (widen_f16 h) = f16_back h.
Proof. intros Hh. pose proof (all_from_spec 16 0 _ h f16_all Hh) as H. by apply bool_decide_eq_true in H. Qed.

(** One half; and 2^-14, which comes back as 2^-15. *)
Lemma f16_fold_roundtrip_witness : narrow_f16 (widen_f16 0x3800) = Some 0x3800 /\ narrow_f16 (widen_f16 0x0400) = Some 0x0200.
Proof. split; [exact (f16_fold_roundtrip 0x3800 ltac:(lia))|exact (f16_fold_roundtrip 0x0400 ltac:(lia))]. Defined.
