(* ===== verification/OptPasses.v ===== *)
(** The optimisation passes: the manager with its worklist
    ([compiler/src/opt/pass_manager.cpp]), shape folding
    ([pass_shape_fold.cpp]), activation fusion ([pass_fusion.cpp],
    [optimization_passes.cpp]), constant folding ([pass_const_fold.cpp]), and
    the order in which [GraphPrepare] runs them.  Proved here: every change
    brings a weight of the graph down, so the worklist ends. *)
From S2P Require Import Prelude Ir Wire GraphPasses GraphCse GraphBuild HalfFloat.

(** * Passes *)

(** A matcher or a rewrite function may be missing; a rewrite gives the graph
    and the number of changes, [None] where the behaviour is undefined. *)
Record GraphPass := mkPass {
  pass_name : string;
  phase : Z;
  matcher : option (GraphPrepare -> OpNode -> bool);
  rewrite : option (GraphPrepare -> OpNode -> option (GraphPrepare * Z));
  enabled : bool;
  matched : Z;
  rewritten : Z
}.

Record PassManager := mkManager {
  passes : list GraphPass;
  disabled_pre : list string;
  enabled_pre : list string;
  last_before : Z;
  last_after : Z
}.

Definition with_passes (ps : list GraphPass) (m : PassManager) : PassManager :=
  mkManager ps (disabled_pre m) (enabled_pre m) (last_before m) (last_after m).

Definition set_enabled (b : bool) (g : GraphPass) : GraphPass :=
  mkPass (pass_name g) (phase g) (matcher g) (rewrite g) b (matched g) (rewritten g).
Definition set_counts (a b : Z) (g : GraphPass) : GraphPass :=
  mkPass (pass_name g) (phase g) (matcher g) (rewrite g) (enabled g) a b.
Definition named (n : string) (g : GraphPass) : bool := bool_decide (pass_name g = n).

(** A second pass of a name is refused; the switches given before the
    registration count, [enable] over [disable]. *)
Definition add_pass (g : GraphPass) (m : PassManager) : PassManager * bool :=
  if existsb (named (pass_name g)) (passes m) then (m, false)
  else
    let g := if bool_decide (pass_name g ∈ disabled_pre m) then set_enabled false g else g in
    let g := if bool_decide (pass_name g ∈ enabled_pre m) then set_enabled true g else g in
    (with_passes (passes m ++ [g]) m, true).

Definition disable (n : string) (m : PassManager) : PassManager :=
  let found := existsb (named n) (passes m) in
  let ps := (fun g => if named n g then set_enabled false g else g) <$> passes m in
  mkManager ps (if negb found && bool_decide (n ∉ disabled_pre m) then disabled_pre m ++ [n] else disabled_pre m)
    (enabled_pre m) (last_before m) (last_after m).

Definition enable (n : string) (m : PassManager) : PassManager :=
  let ps := (fun g => if named n g then set_enabled true g else g) <$> passes m in
  mkManager ps (disabled_pre m) (if bool_decide (n ∉ enabled_pre m) then enabled_pre m ++ [n] else enabled_pre m)
    (last_before m) (last_after m).

Definition pass_is_enabled (n : string) (m : PassManager) : bool :=
  match find (named n) (passes m) with Some g => enabled g | None => false end.

Definition note_counts (before after : Z) (m : PassManager) : PassManager :=
  mkManager (passes m) (disabled_pre m) (enabled_pre m) before after.

Definition reset_stats (m : PassManager) : PassManager := with_passes (set_counts 0 0 <$> passes m) m.

Definition active (ph : Z) (g : GraphPass) : bool :=
  (phase g =? ph) && enabled g && match matcher g with Some _ => true | None => false end.

(** ** One op *)

(** The passes are tried in order until one changes the graph; the result
    has their new counters, the graph and, after a change, its size and the
    ids to revisit. *)
Fixpoint attempt (ph : Z) (ps : list GraphPass) (p : GraphPrepare) (od : OpNode) :
    option (list GraphPass * GraphPrepare * option (Z * list op_id_t)) :=
  match ps with
  | [] => Some ([], p, None)
  | g :: ps =>
      let skip (g : GraphPass) (p : GraphPrepare) := '(ps, p, r) ← attempt ph ps p od; Some (g :: ps, p, r) in
      match matcher g with
      | Some mt =>
          if active ph g && mt p od then
            let g := set_counts (u32 (matched g + 1)) (rewritten g) g in
            '(p, changed) ← match rewrite g with Some rw => rw p od | None => Some (p, 0) end;
            if 0 <? changed then
              Some (set_counts (matched g) (u32 (rewritten g + 1)) g :: ps, p, Some (changed, (src_id <$> inputs od) ++ consumers od))
            else skip g p
          else skip g p
      | None => skip g p
      end
  end.

(** ** The worklist *)

(** The top of the stack comes first; an id is on it at most once. *)
Definition push_work (wl : list op_id_t) (id : op_id_t) : list op_id_t := if bool_decide (id ∈ wl) then wl else id :: wl.

Definition workable (od : OpNode) : bool := is_live od && negb (is_const od).

Fixpoint work_loop (fuel : nat) (ph : Z) (ps : list GraphPass) (p : GraphPrepare) (wl : list op_id_t) (total : Z) :
    option (option (list GraphPass * GraphPrepare * Z)) :=
  match fuel with
  | O => None
  | S fuel =>
      match wl with
      | [] => Some (Some (ps, p, total))
      | id :: wl =>
          match (opdefs p !! id : option OpNode) with
          | Some od =>
              if workable od then
                match attempt ph ps p od with
                | None => Some None
                | Some (ps, p, None) => work_loop fuel ph ps p wl total
                | Some (ps, p, Some (changed, ids)) =>
                    work_loop fuel ph ps p (foldl push_work wl ids) (u32 (total + u32 changed))
                end
              else work_loop fuel ph ps p wl total
          | None => work_loop fuel ph ps p wl total
          end
      end
  end.

Definition seeds (p : GraphPrepare) : list op_id_t :=
  foldl (fun wl id => match (opdefs p !! id : option OpNode) with
                      | Some od => if workable od then push_work wl (op_id od) else wl
                      | None => wl
                      end) [] (keys p).

(** ** Fuel *)

(** How often the built-in passes can still change an op of this name. *)
Definition name_rank (n : option string) : Z :=
  match n with
  | Some s => if bool_decide (s ∈ ["Relu"; "Sigmoid"]%string) then 2
              else if bool_decide (s ∈ ["Add"; "Gelu"; "Clamp"]%string) then 1 else 0
  | None => 0
  end.

Definition node_weight (od : OpNode) : Z :=
  (if is_live od then 1 else 0) + (if workable od then 1 else 0) + name_rank (name od).

Definition weight_at (m : gmap op_id_t OpNode) (k : op_id_t) : Z :=
  match (m !! k : option OpNode) with Some od => node_weight od | None => 0 end.

Definition graph_weight (p : GraphPrepare) : Z := sum_by (weight_at (opdefs p)) (keys p).

(** Every id the graph names. *)
Definition node_ids (od : OpNode) : list op_id_t := (src_id <$> inputs od) ++ consumers od.
Definition graph_ids (p : GraphPrepare) : list op_id_t :=
  keys p ++ concat ((fun k => match (opdefs p !! k : option OpNode) with Some od => node_ids od | None => [] end) <$> keys p).

Definition work_fuel (p : GraphPrepare) : nat :=
  (Z.to_nat (graph_weight p) * S (length (graph_ids p)) + S (length (graph_ids p)))%nat.

Definition run_phase (ph : Z) (m : PassManager) (p : GraphPrepare) : option (option (PassManager * GraphPrepare * Z)) :=
  if existsb (active ph) (passes m) then
    r ← work_loop (work_fuel p) ph (passes m) p (seeds p) 0;
    Some ('(ps, p, total) ← r; Some (with_passes ps m, p, total))
  else Some (Some (m, p, 0)).

(** * Shapes *)

(** Rank and axes, the first five of them. *)
Definition od_equal (a b : OutputDef) : bool :=
  (rank a =? rank b) &&
  forallb (fun i => nth i (dims a) 0 =? nth i (dims b) 0) (seq 0 (Z.to_nat (Z.min (rank a) 5))).

(** The bytes of a constant, if the pool has them. *)
Definition const_bytes (p : GraphPrepare) (pc : OpNode) : option (list Z) :=
  if u64 (const_data_offset pc + const_data_size pc) <=? Z.of_nat (length (const_pool p))
  then Some (take (Z.to_nat (const_data_size pc)) (drop (Z.to_nat (const_data_offset pc)) (const_pool p)))
  else None.

(** The constant holds 0, 1, ..., n - 1 with 0 < n <= 8. *)
Definition is_sequence (p : GraphPrepare) (tpid : op_id_t) : bool :=
  match (opdefs p !! tpid : option OpNode) with
  | Some pc =>
      if negb (is_const pc) || (const_data_size pc =? 0) then false
      else
        let n := const_data_size pc / 4 in
        if (n =? 0) || (8 <? n) then false
        else match const_bytes p pc with
             | Some bs => bool_decide (take (Z.to_nat n) (words_of bs) = seqZ 0 n)
             | None => false
             end
  | None => false
  end.

Definition all_params_identity (p : GraphPrepare) (od : OpNode) : bool :=
  negb (bool_decide (tensor_param_ids od = [])) && forallb (is_sequence p) (tensor_param_ids od).

Inductive Pattern := P_NONE | P_IDENT_RESHAPE | P_RESHAPE_CHAIN | P_IDENT_TRANSPOSE.
#[export] Instance Pattern_eq_dec : EqDecision Pattern.
Proof. solve_decision. Defined.

Definition is_reshape (n : option string) : bool := bool_decide (n ∈ [Some "Reshape"; Some "Flatten"]%string).
Definition is_transpose (n : option string) : bool := bool_decide (n = Some "Transpose"%string).

Definition match_pattern (p : GraphPrepare) (od : OpNode) : Pattern :=
  if negb (workable od) then P_NONE
  else
    match inputs od with
    | [c] =>
        match (opdefs p !! src_id c : option OpNode) with
        | Some src =>
            if negb (is_live src) then P_NONE
            else if is_reshape (name od) then
              if is_reshape (name src) && (length (consumers src) =? 1)%nat then P_RESHAPE_CHAIN
              else if od_equal (output_def src) (output_def od) then P_IDENT_RESHAPE else P_NONE
            else if is_transpose (name od) then
              if od_equal (output_def src) (output_def od) && all_params_identity p od then P_IDENT_TRANSPOSE else P_NONE
            else P_NONE
        | None => P_NONE
        end
    | _ => P_NONE
    end.

(** A reader of [id] reads the producer instead. *)
Definition reconnect (id pid : op_id_t) (pd : OutputDef) (c : InputConn) : InputConn :=
  if src_id c =? id then mkInputConn pid (out_idx c) pd else c.

Definition rewire_one (id pid : op_id_t) (m : gmap op_id_t OpNode) (cid : op_id_t) : gmap op_id_t OpNode :=
  match (m !! cid : option OpNode), (m !! pid : option OpNode) with
  | Some c, Some prod =>
      alter (push_consumer cid) pid (<[cid := set_inputs c (reconnect id pid (output_def prod) <$> inputs c)]> m)
  | _, _ => m
  end.

Definition rewire_consumers (od : OpNode) (pid : op_id_t) (p : GraphPrepare) : GraphPrepare :=
  let m := alter (drop_consumer (op_id od)) pid (opdefs p) in
  let m := foldl (rewire_one (op_id od) pid) m (consumers od) in
  set_graph p (keys p) (alter set_dead (op_id od) m) (graph_dirty p).

(** The reader of a source that goes away takes its place there. *)
Definition hand_over (from to : op_id_t) (m : gmap op_id_t OpNode) (c : InputConn) : gmap op_id_t OpNode :=
  alter (fun s => push_consumer to (drop_consumer from s)) (src_id c) m.

Definition merge_chain (od src : OpNode) (p : GraphPrepare) : GraphPrepare :=
  let m := foldl (hand_over (op_id src) (op_id od)) (opdefs p) (inputs src) in
  let m := alter (fun o => set_inputs o (inputs src)) (op_id od) m in
  set_graph p (keys p) (alter set_dead (op_id src) m) (graph_dirty p).

Definition shape_matcher (p : GraphPrepare) (od : OpNode) : bool := negb (bool_decide (match_pattern p od = P_NONE)).

Definition shape_rewrite (p : GraphPrepare) (od : OpNode) : option (GraphPrepare * Z) :=
  match match_pattern p od, inputs od with
  | P_NONE, _ => Some (p, 0)
  | pat, c :: _ =>
      match (opdefs p !! src_id c : option OpNode) with
      | Some src => Some (if bool_decide (pat = P_RESHAPE_CHAIN) then merge_chain od src p else rewire_consumers od (src_id c) p, 1)
      | None => Some (p, 0)
      end
  | _, [] => None
  end.

Definition shape_fold : GraphPass := mkPass "shape_fold" 10190 (Some shape_matcher) (Some shape_rewrite) true 0 0.

(** * Fusion *)

Record FusionRule := mkRule { producer : string; consumer : string; fused : string }.

Definition name_is (od : OpNode) (s : string) : bool := String.eqb (default EmptyString (name od)) s.

Definition fusion_match (r : FusionRule) (p : GraphPrepare) (od : OpNode) : bool :=
  is_enabled od && negb (is_const od) && name_is od (consumer r) &&
  match inputs od with
  | [c] => match (opdefs p !! src_id c : option OpNode) with
           | Some prod => is_enabled prod && negb (is_const prod) && name_is prod (producer r) && (length (consumers prod) =? 1)%nat
           | None => false
           end
  | _ => false
  end.

Definition set_name (n : option string) (od : OpNode) : OpNode :=
  with_op od (mkOpDef (op_id od) (flags od) n (output_def od) (inputs od) (consumers od)).

(** The reader takes the new name and the inputs of its source. *)
Definition fuse_pair (r : FusionRule) (p : GraphPrepare) (od : OpNode) : option (GraphPrepare * Z) :=
  match inputs od with
  | [c] =>
      match (opdefs p !! src_id c : option OpNode) with
      | Some prod =>
          let m := alter (set_name (Some (fused r))) (op_id od) (opdefs p) in
          let m := foldl (hand_over (op_id prod) (op_id od)) m (inputs prod) in
          let m := alter (fun o => set_inputs o (inputs prod)) (op_id od) m in
          Some (set_graph p (keys p) (alter set_dead (op_id prod) m) (graph_dirty p), 1)
      | None => Some (p, 0)
      end
  | _ => Some (p, 0)
  end.

Definition kLegacyFusionRules : list FusionRule :=
  [mkRule "Conv" "Relu" "ConvActivations"; mkRule "Conv" "Clamp" "ConvActivations"; mkRule "MatMul" "Add" "MatMul";
   mkRule "MatMul" "Gelu" "MatMul"; mkRule "MatMul" "Relu" "MatMul"; mkRule "Add" "Relu" "Add";
   mkRule "Add" "Sigmoid" "Add"; mkRule "Dense" "Add" "Dense"].

(** One rule over all ops, with the number of fusions. *)
Definition fuse_at (r : FusionRule) (acc : GraphPrepare * Z) (id : op_id_t) : GraphPrepare * Z :=
  let '(p, n) := acc in
  match (opdefs p !! id : option OpNode) with
  | Some od => if fusion_match r p od then match fuse_pair r p od with Some (p, _) => (p, n + 1) | None => acc end else acc
  | None => acc
  end.

Definition fuse_rule (acc : GraphPrepare * Z) (r : FusionRule) : GraphPrepare * Z := foldl (fuse_at r) acc (keys (fst acc)).

(** Rounds over all rules until nothing is fused. *)
Fixpoint fusion_loop (fuel : nat) (rules : list FusionRule) (p : GraphPrepare) (count : Z) : option (GraphPrepare * Z) :=
  match fuel with
  | O => None
  | S fuel =>
      let '(p, n) := foldl fuse_rule (p, 0) rules in
      if n =? 0 then Some (p, count)
      else '(p, _) ← remove_dead_code p; fusion_loop fuel rules p (i32 (count + n))
  end.

Definition apply_fusion_rules (rules : list FusionRule) (p : GraphPrepare) : option (GraphPrepare * Z) :=
  if bool_decide (rules = []) then Some (p, 0) else fusion_loop (S (Z.to_nat (graph_weight p))) rules p 0.

(** [std::tolower] in the C locale. *)
Definition lower (c : Ascii.ascii) : Ascii.ascii :=
  let n := Ascii.nat_of_ascii c in if (65 <=? n)%nat && (n <=? 90)%nat then Ascii.ascii_of_nat (n + 32) else c.
Fixpoint lower_string (s : string) : string :=
  match s with EmptyString => EmptyString | String c s => String (lower c) (lower_string s) end.
Definition fusion_pass_name (r : FusionRule) : string :=
  lower_string (String.append "fusion_" (String.append (producer r) (String.append "_" (consumer r)))).

Definition fusion_pass (r : FusionRule) : GraphPass :=
  mkPass (fusion_pass_name r) 12492 (Some (fusion_match r)) (Some (fuse_pair r)) false 0 0.

(** * Constants *)

Definition foldable_ops : list string :=
  ["Add"; "Sub"; "Mul"; "Div"; "Eltwise_Binary"; "Eltwise_Unary"; "ElementWiseNeuron"; "Eltwise_Ternary";
   "Transpose"; "StridedSlice"; "Reshape"; "Flatten"; "Pad"; "Concat"; "Reduce"; "Gather"; "CumulativeSum"; "ScatterNd"]%string.

Definition const_matcher (p : GraphPrepare) (od : OpNode) : bool :=
  workable od && match name od with Some nm => bool_decide (nm ∈ foldable_ops) | None => false end &&
  negb (bool_decide (inputs od = [])) &&
  forallb (fun c => match (opdefs p !! src_id c : option OpNode) with
                    | Some src => is_const src && negb (const_data_size src =? 0)
                    | None => false
                    end) (inputs od).

Definition eff_size (d : OutputDef) : Z := if (element_size d =? 0) || (4 <? element_size d) then 4 else element_size d.

(** The elements as single precision patterns; [None]: four-byte elements
    whose bytes are no whole number of them are copied past the buffer. *)
Definition widen_const (p : GraphPrepare) (pc : OpNode) : option (list Z) :=
  if const_data_size pc =? 0 then Some []
  else
    let es := eff_size (output_def pc) in
    let n := Z.to_nat (const_data_size pc / es) in
    match const_bytes p pc with
    | None => Some (replicate n 0)
    | Some bs =>
        if es =? 4 then if const_data_size pc mod 4 =? 0 then Some (words_of bs) else None
        else if es =? 2 then Some (widen_f16 <$> halfwords bs)
        else Some (float_of_byte <$> take n bs)
    end.

Definition param_words (p : GraphPrepare) (pc : OpNode) : option (list Z) :=
  match const_bytes p pc with
  | None => Some (replicate (Z.to_nat (const_data_size pc / 4)) 0)
  | Some bs => if const_data_size pc mod 4 =? 0 then Some (words_of bs) else None
  end.

Definition narrow_out (es : Z) (out : list Z) : option (list Z) :=
  if es =? 4 then Some (bytes_of out)
  else if es =? 2 then bs ← mapM narrow_f16 out; Some (concat (le16 <$> bs))
  else Some (((fun u => if float_nonzero u then 1 else 0) <$> out) ++ replicate (Z.to_nat (es - 1) * length out) 0).

(** The replacement keeps the id, the readers and the shape.  Afterwards the
    code sets a flag of the op it has just destroyed, which nothing reads. *)
Definition const_node (od : OpNode) (offset len : Z) : OpNode :=
  mkNode (mkOpDef (op_id od) (Z.lor OP_ENABLED OP_CONST) (Some "$Const"%string) (output_def od) [] (consumers od)) [] [] offset len.

Definition fold_op_to_const (od : OpNode) (data : list Z) (p : GraphPrepare) : GraphPrepare * bool :=
  if negb (workable od) || bool_decide (data = []) then (p, false)
  else
    let pool := if bool_decide (const_pool p = []) then replicate 4 0 else const_pool p in
    let len := Z.of_nat (length data) in
    let aligned_len := Z.land (u64 (len + 3)) (u64 (Z.lnot 3)) in
    let offset := Z.of_nat (length pool) in
    let pool := pool ++ data ++ replicate (Z.to_nat (aligned_len - len)) 0 in
    let p := set_pool p pool (const_extents p ++ [(op_id od, offset, len)]) in
    (set_graph p (keys p) (<[op_id od := const_node od offset len]> (opdefs p)) true, true).

Section kernel.
(** The host reference kernel of an op in a graph, which the op that is made
    for it keeps: the inputs and parameters with their shapes and the number
    of results give the results, or there is no kernel.
    All values are single precision patterns. *)
Context (execute : GraphPrepare -> OpNode -> list (list Z * OutputDef) -> nat -> option (list Z)).

Definition const_rewrite (p : GraphPrepare) (od : OpNode) : option (GraphPrepare * Z) :=
  match mapM (fun c => (opdefs p !! src_id c : option OpNode)) (inputs od) with
  | None => Some (p, 0)
  | Some srcs =>
      ins ← mapM (fun s : OpNode => b ← widen_const p s; Some (b, output_def s)) srcs;
      let params := omap (fun id => pc ← (opdefs p !! id : option OpNode);
                                    if const_data_size pc =? 0 then None else Some pc) (tensor_param_ids od) in
      ps ← mapM (fun s : OpNode => b ← param_words p s; Some (b, output_def s)) params;
      let n := foldl (fun n i => u64 (n * nth i (dims (output_def od)) 0)) 1 (seq 0 (Z.to_nat (Z.min (rank (output_def od)) 5))) in
      let n := if n =? 0 then 1 else n in
      match execute p od (ins ++ ps) (Z.to_nat n) with
      | None => Some (p, 0)
      | Some out =>
          bytes ← narrow_out (eff_size (output_def od)) out;
          let '(p, folded) := fold_op_to_const od bytes p in
          Some (p, if folded then 1 else 0)
      end
  end.

Definition const_fold : GraphPass := mkPass "const_fold" 3000 (Some const_matcher) (Some const_rewrite) true 0 0.

Definition register_builtin_passes (m : PassManager) : PassManager :=
  foldl (fun m g => fst (add_pass g m)) m ([const_fold; shape_fold] ++ (fusion_pass <$> kLegacyFusionRules)).

Definition count_live (p : GraphPrepare) : Z :=
  u32 (Z.of_nat (countb (fun k => live_at (opdefs p) k) (keys p))).

(** One phase with the cleaning after a change. *)
Definition phase_and_clean (ph : Z) (acc : PassManager * GraphPrepare) : option (option (PassManager * GraphPrepare)) :=
  let '(m, p) := acc in
  r ← run_phase ph m p;
  match r with
  | None => Some None
  | Some (m, p, changed) =>
      if 0 <? changed then p ← run_phase_fixpoint (2 * length (keys p) + 2) p; Some (Some (m, p)) else Some (Some (m, p))
  end.

Definition then_run {A} (f : A -> option (option A)) (r : option (option A)) : option (option A) :=
  o ← r; match o with None => Some None | Some a => f a end.

(** [run_optimize_passes_single_registry] after the registration of the
    passes; the plugin rewrites do nothing. *)
Definition run_optimize_passes (m : PassManager) (p : GraphPrepare) : option (option (PassManager * GraphPrepare)) :=
  let before := count_live p in
  let r := then_run (phase_and_clean 12492) (then_run (phase_and_clean 10190) (phase_and_clean 3000 (reset_stats m, p))) in
  then_run (fun '(m, p) =>
    let m := note_counts before (count_live p) m in
    let node_count := count_live p in
    let p := if node_count <=? 21101 then fst (const_prop_and_cse p) else p in
    p ← (if node_count <=? 24999 then run_phase_fixpoint (2 * length (keys p) + 2) p else Some p);
    p ← run_phase_fixpoint (2 * length (keys p) + 2) p;
    Some (Some (m, p))) r.
End kernel.

(** * Every change is a descent *)

Lemma set_dead_live od : is_live (set_dead od) = false.
Proof. unfold is_live. by rewrite set_dead_dead, andb_false_r. Qed.

Lemma name_rank_nonneg n : 0 <= name_rank n.
Proof. unfold name_rank. repeat case_match; lia. Qed.

Lemma node_weight_nonneg od : 0 <= node_weight od.
Proof. unfold node_weight. pose proof (name_rank_nonneg (name od)). repeat case_match; lia. Qed.

Lemma weight_nonneg p : 0 <= graph_weight p.
Proof. apply sum_by_nonneg. intros k _. unfold weight_at. case_match; [apply node_weight_nonneg|done]. Qed.

(** The op has not come to life and its name does not rank higher. *)
Definition no_more (od od' : OpNode) : Prop :=
  op_id od' = op_id od /\ (is_live od' = true -> is_live od = true) /\ (workable od' = true -> workable od = true) /\
  name_rank (name od') <= name_rank (name od).

#[local] Instance no_more_preorder : PreOrder no_more.
Proof.
split; [intros a; by split_and!|]. intros a b c (A1 & A2 & A3 & A4) (B1 & B2 & B3 & B4). split; [congruence|]. split; [auto|]. split; [auto|lia].
Qed.

Lemma no_more_weight od od' : no_more od od' -> node_weight od' <= node_weight od.
Proof.
intros (_ & Hl & Hw & Hr). unfold node_weight.
destruct (is_live od'); [rewrite Hl by done|]; (destruct (workable od'); [rewrite Hw by done|]); repeat case_match; lia.
Qed.

Lemma set_dead_no_more od : no_more od (set_dead od).
Proof. split; [done|]. unfold workable. rewrite set_dead_live. by split_and!. Qed.

Lemma set_dead_lighter od od' : no_more od od' -> is_live od = true -> node_weight (set_dead od') < node_weight od.
Proof.
intros (_ & _ & _ & Hr) Hl. unfold node_weight, workable. rewrite set_dead_live, Hl. cbn [andb]. change (name (set_dead od')) with (name od').
case_match; lia.
Qed.

Definition no_heavier (m m' : gmap op_id_t OpNode) : Prop :=
  forall k : op_id_t, match (m !! k : option OpNode), (m' !! k : option OpNode) with
            | Some od, Some od' => no_more od od'
            | None, None => True
            | _, _ => False
            end.

(** Every op names ids of [U] only. *)
Definition names_in (U : list op_id_t) (m : gmap op_id_t OpNode) : Prop :=
  forall k (od : OpNode) x, m !! k = Some od -> x ∈ node_ids od -> x ∈ U.

#[local] Instance no_heavier_preorder : PreOrder no_heavier.
Proof.
split.
- intros m k. by destruct (m !! k).
- intros m1 m2 m3 H1 H2 k. specialize (H1 k). specialize (H2 k). destruct (m1 !! k), (m2 !! k), (m3 !! k); try done. by etrans.
Qed.

(** A change of one op that is no heavier and names known ids. *)
Lemma alter_light (f : OpNode -> OpNode) k (m : gmap op_id_t OpNode) U :
  (forall od : OpNode, m !! k = Some od -> no_more od (f od) /\
     ((forall x, x ∈ node_ids od -> x ∈ U) -> forall x, x ∈ node_ids (f od) -> x ∈ U)) ->
  no_heavier m (alter f k m) /\ (names_in U m -> names_in U (alter f k m)).
Proof.
intros Hf. split.
- intros x. destruct (decide (x = k)) as [->|Hne]; [rewrite lookup_alter_eq|rewrite lookup_alter_ne by done; by destruct (m !! x)].
  destruct (m !! k) as [od|] eqn:E; [|done]. cbn. by destruct (Hf od eq_refl) as [? _].
- intros HU x od y Hx Hy. destruct (decide (x = k)) as [->|Hne]; [rewrite lookup_alter_eq in Hx|rewrite lookup_alter_ne in Hx by done; by eapply HU].
  destruct (m !! k) as [o|] eqn:E; [|done]. cbn in Hx. injection Hx as <-. destruct (Hf o eq_refl) as [_ Hi]. apply Hi; [|done].
  intros z Hz. by eapply HU.
Qed.

(** Only the lists of an op change. *)
Definition relists (f : OpNode -> OpNode) : Prop :=
  forall od : OpNode, op_id (f od) = op_id od /\ flags (f od) = flags od /\ name (f od) = name od.

Lemma relists_no_more (f : OpNode -> OpNode) (od : OpNode) : relists f -> no_more od (f od).
Proof.
intros Hf. destruct (Hf od) as (E1 & E2 & E3). split; [done|]. unfold workable, is_live, is_enabled, is_dead, is_const.
rewrite E2, E3. by split_and!.
Qed.

Section light.
Context (U : list op_id_t).

Definition light (m m' : gmap op_id_t OpNode) : Prop := no_heavier m m' /\ (names_in U m -> names_in U m').

#[export] Instance light_preorder : PreOrder light.
Proof.
split.
- intros m. split; [done|auto].
- intros m1 m2 m3 [A1 B1] [A2 B2]. split; [by etrans|auto].
Qed.

Lemma light_alter (f : OpNode -> OpNode) k (m : gmap op_id_t OpNode) : relists f ->
  (forall od : OpNode, m !! k = Some od -> (forall x, x ∈ node_ids od -> x ∈ U) -> forall x, x ∈ node_ids (f od) -> x ∈ U) -> light m (alter f k m).
Proof. intros Hf Hi. apply alter_light. intros od Hod. split; [by apply relists_no_more|by apply Hi]. Qed.

Lemma light_fold {A} (f : gmap op_id_t OpNode -> A -> gmap op_id_t OpNode) l m : (forall m a, a ∈ l -> light m (f m a)) -> light m (foldl f m l).
Proof.
revert m. induction l as [|a l IH]; intros m Hf; [done|]. cbn. etrans; [apply Hf; left|]. apply IH. intros m' b Hb. apply Hf. by right.
Qed.

Lemma drop_light x k (m : gmap op_id_t OpNode) : light m (alter (drop_consumer x) k m).
Proof.
apply light_alter; [by intros ?|]. intros od _ HU y Hy. apply HU. unfold node_ids in *. cbn in Hy. apply elem_of_app in Hy as [Hy|Hy]; apply elem_of_app; [by left|right].
by apply list_elem_of_filter in Hy as [_ ?].
Qed.

Lemma push_light x k (m : gmap op_id_t OpNode) : x ∈ U -> light m (alter (push_consumer x) k m).
Proof.
intros Hx. apply light_alter; [by intros ?|]. intros od _ HU y Hy. unfold node_ids in *. cbn in Hy.
rewrite app_assoc in Hy. apply elem_of_app in Hy as [Hy| ->%list_elem_of_singleton]; [by apply HU|done].
Qed.

Lemma hand_over_light from to m c : to ∈ U -> light m (hand_over from to m c).
Proof.
intros Hx. apply light_alter; [by intros ?|]. intros od _ HU y Hy. unfold node_ids in *. cbn in Hy.
rewrite app_assoc in Hy. apply elem_of_app in Hy as [Hy| ->%list_elem_of_singleton]; [|done].
apply HU. apply elem_of_app in Hy as [Hy|Hy]; apply elem_of_app; [by left|right]. by apply list_elem_of_filter in Hy as [_ ?].
Qed.

Lemma inputs_light l k (m : gmap op_id_t OpNode) : (forall c, c ∈ l -> src_id c ∈ U) -> light m (alter (fun o => set_inputs o l) k m).
Proof.
intros Hl. apply light_alter; [by intros ?|]. intros od _ HU y Hy. unfold node_ids in *. cbn in Hy.
apply elem_of_app in Hy as [Hy|Hy]; [|apply HU, elem_of_app; by right]. apply list_elem_of_fmap in Hy as (c & -> & Hc). by apply Hl.
Qed.

Lemma rewire_one_light id pid m cid : pid ∈ U -> cid ∈ U -> light m (rewire_one id pid m cid).
Proof.
intros Hp Hc. unfold rewire_one. destruct (m !! cid) as [c|] eqn:Ec; [|done]. destruct (m !! pid) as [prod|]; [|done].
etrans; [|by apply push_light].
replace (<[cid := set_inputs c (reconnect id pid (output_def prod) <$> inputs c)]> m)
  with (alter (fun o => set_inputs o (reconnect id pid (output_def prod) <$> inputs o)) cid m).
- apply light_alter; [by intros ?|]. intros od _ HU y Hy. unfold node_ids in *. cbn in Hy.
  apply elem_of_app in Hy as [Hy|Hy]; [|apply HU, elem_of_app; by right].
  apply list_elem_of_fmap in Hy as (x & -> & Hx). apply list_elem_of_fmap in Hx as (z & -> & Hz). unfold reconnect.
  case_match; [done|]. apply HU, elem_of_app. left. by apply list_elem_of_fmap_2.
- apply map_eq. intros k. destruct (decide (k = cid)) as [->|]; [by rewrite lookup_alter_eq, lookup_insert_eq, Ec|].
  by rewrite lookup_alter_ne, lookup_insert_ne.
Qed.

Lemma dead_light k (m : gmap op_id_t OpNode) : light m (alter set_dead k m).
Proof. apply alter_light. intros od _. split; [apply set_dead_no_more|auto]. Qed.
End light.

Lemma sum_by_lt {A} (f g : A -> Z) l x : (forall y, y ∈ l -> f y <= g y) -> x ∈ l -> f x < g x -> sum_by f l < sum_by g l.
Proof.
intros Hle. induction l as [|y l IH]; [by intros ?%not_elem_of_nil|].
change (sum_by f (y :: l)) with (f y + sum_by f l). change (sum_by g (y :: l)) with (g y + sum_by g l).
intros [->|Hx]%elem_of_cons Hlt.
- assert (sum_by f l <= sum_by g l) by (apply sum_by_le; intros z Hz; apply Hle; by right). lia.
- assert (f y <= g y) by (apply Hle; left). assert (sum_by f l < sum_by g l) by (apply IH; [intros z Hz; apply Hle; by right|done|done]). lia.
Qed.

(** What a change has to keep and to bring down. *)
Record descent (U : list op_id_t) (p p' : GraphPrepare) : Prop := {
  de_keys : keys p' = keys p;
  de_wf : graph_wf p';
  de_names : names_in U (opdefs p');
  de_weight : graph_weight p' < graph_weight p
}.

Lemma light_descent U p p' k (od od' : OpNode) : graph_wf p -> names_in U (opdefs p) -> keys p' = keys p -> light U (opdefs p) (opdefs p') ->
  opdefs p !! k = Some od -> opdefs p' !! k = Some od' -> node_weight od' < node_weight od -> descent U p p'.
Proof.
intros Hw HU Hk [Hn HU'] E E' Hlt. split; [done| |by apply HU'|].
- split.
  + rewrite Hk. apply Hw.
  + intros x. rewrite Hk, (wf_dom p Hw). specialize (Hn x). destruct (opdefs p !! x), (opdefs p' !! x); try done; split; intros [? ?]; try done; by eexists.
  + intros x o Hx. specialize (Hn x). rewrite Hx in Hn. destruct (opdefs p !! x) as [o'|] eqn:Eo; [|done]. destruct Hn as [-> _]. by apply (wf_ids p Hw).
- unfold graph_weight. rewrite Hk. apply (sum_by_lt _ _ _ k).
  + intros x _. unfold weight_at. specialize (Hn x). destruct (opdefs p !! x), (opdefs p' !! x); try done. by apply no_more_weight.
  + apply (wf_dom p Hw). by exists od.
  + unfold weight_at. by rewrite E, E'.
Qed.

(** A pass that, whenever it changes something, brings the weight down. *)
Definition descends (g : GraphPass) : Prop :=
  forall mt rw U p (od : OpNode) p' n, matcher g = Some mt -> rewrite g = Some rw -> graph_wf p -> (forall x, x ∈ keys p -> x ∈ U) ->
  names_in U (opdefs p) -> opdefs p !! op_id od = Some od -> workable od = true -> mt p od = true -> rw p od = Some (p', n) ->
  if 0 <? n then descent U p p' else p' = p.

Lemma workable_live od : workable od = true -> is_live od = true.
Proof. by intros [? _]%andb_true_iff. Qed.

(** Marking an op dead after light changes. *)
Lemma dead_descent U p m k (od : OpNode) d : graph_wf p -> names_in U (opdefs p) -> light U (opdefs p) m -> opdefs p !! k = Some od ->
  is_live od = true -> descent U p (set_graph p (keys p) (alter set_dead k m) d).
Proof.
intros Hw HU Hl E Hlv. pose proof (proj1 Hl k) as Hk. rewrite E in Hk. destruct (m !! k) as [o|] eqn:Em; [|done].
eapply (light_descent U p _ k od (set_dead o)); [done|done|done| |done| |].
- cbn. etrans; [exact Hl|]. apply dead_light.
- cbn. by rewrite lookup_alter_eq, Em.
- by apply set_dead_lighter.
Qed.

Lemma source_in U p (od : OpNode) c : names_in U (opdefs p) -> opdefs p !! op_id od = Some od -> c ∈ inputs od -> src_id c ∈ U.
Proof. intros HU E Hc. eapply HU; [exact E|]. apply elem_of_app. left. by apply list_elem_of_fmap_2. Qed.

Lemma rewire_descent U p (od : OpNode) c : graph_wf p -> names_in U (opdefs p) -> opdefs p !! op_id od = Some od -> is_live od = true ->
  c ∈ inputs od -> descent U p (rewire_consumers od (src_id c) p).
Proof.
intros Hw HU E Hl Hc. eapply (dead_descent U p _ (op_id od) od); [done|done| |done|done].
etrans; [apply drop_light|]. apply light_fold. intros m x Hx. apply rewire_one_light; [by eapply source_in|].
eapply HU; [exact E|]. apply elem_of_app. by right.
Qed.

(** A reader that takes the inputs of its source. *)
Lemma hand_over_all_light U p (from to : OpNode) m : names_in U (opdefs p) -> opdefs p !! op_id from = Some from -> op_id to ∈ U ->
  light U m (alter (fun o => set_inputs o (inputs from)) (op_id to) (foldl (hand_over (op_id from) (op_id to)) m (inputs from))).
Proof.
intros HU E Ht. etrans; [apply (light_fold U (hand_over (op_id from) (op_id to)) (inputs from)); intros m' c _; by apply hand_over_light|]. apply inputs_light. intros c Hc. by eapply source_in.
Qed.

Lemma shape_fold_descends : descends shape_fold.
Proof.
intros mt rw U p od p' n [= <-] [= <-] Hw Hk HU E Hwk _. unfold shape_rewrite.
pose proof (workable_live _ Hwk) as Hl. unfold match_pattern. rewrite Hwk. cbn [negb].
destruct (inputs od) as [|c [|c2 l]] eqn:Ei; [by intros [= <- <-]| |by intros [= <- <-]].
destruct (opdefs p !! src_id c) as [src|] eqn:Es; [|by intros [= <- <-]].
destruct (is_live src) eqn:Els; cbn [negb]; [|by intros [= <- <-]].
assert (c ∈ inputs od) as Hc by (rewrite Ei; left).
assert (descent U p (rewire_consumers od (src_id c) p)) as Hrw by by apply rewire_descent.
assert (op_id src = src_id c) as Hsid by by apply (wf_ids p Hw).
assert (descent U p (merge_chain od src p)) as Hmc.
{ eapply (dead_descent U p _ (op_id src) src); [done|done| |by rewrite Hsid|done].
  apply (hand_over_all_light U p); [done|by rewrite Hsid|]. apply Hk, (wf_dom p Hw). by exists od. }
repeat case_match; intros [= <- <-]; done.
Qed.

Lemma fused_ranks_lower r : r ∈ kLegacyFusionRules -> name_rank (Some (fused r)) < name_rank (Some (consumer r)).
Proof. revert r. apply Forall_forall. repeat constructor; by vm_compute. Qed.

Lemma consumer_nonempty r : r ∈ kLegacyFusionRules -> consumer r <> EmptyString.
Proof. revert r. apply Forall_forall. repeat constructor; done. Qed.

Lemma fuse_descent r U p (od : OpNode) p' n : r ∈ kLegacyFusionRules -> graph_wf p -> (forall x, x ∈ keys p -> x ∈ U) ->
  names_in U (opdefs p) -> opdefs p !! op_id od = Some od -> fusion_match r p od = true -> fuse_pair r p od = Some (p', n) ->
  if 0 <? n then descent U p p' else p' = p.
Proof.
intros Hr Hw Hk HU E Hm. unfold fuse_pair.
unfold fusion_match in Hm. rewrite !andb_true_iff in Hm. destruct Hm as (((_ & _) & Hnm) & _).
assert (name od = Some (consumer r)) as Hname.
{ unfold name_is in Hnm. apply String.eqb_eq in Hnm. destruct (name od); cbn in Hnm; [by subst|]. by destruct (consumer_nonempty r Hr). }
destruct (inputs od) as [|c [|c2 l]] eqn:Ei; [by intros [= <- <-]| |by intros [= <- <-]].
destruct (opdefs p !! src_id c) as [prod|] eqn:Es; [|by intros [= <- <-]]. intros [= <- <-]. cbn [Z.ltb Z.compare].
assert (op_id prod = src_id c) as Hsid by by apply (wf_ids p Hw).
set (m1 := alter (set_name (Some (fused r))) (op_id od) (opdefs p)).
pose proof (fused_ranks_lower r Hr) as Hrank.
assert (light U (opdefs p) m1) as Hl1.
{ apply alter_light. intros o Ho. replace o with od by congruence. split; [|auto]. split; [done|]. split; [done|]. split; [done|]. rewrite Hname. cbn [set_name name with_op node_op]. lia. }
set (m2 := alter set_dead _ _). assert (light U m1 m2) as Hl2.
{ unfold m2. etrans; [apply (hand_over_all_light U p prod od); [done|by rewrite Hsid|apply Hk, (wf_dom p Hw); by exists od]|]. apply dead_light. }
pose proof (proj1 Hl2 (op_id od)) as H2. unfold m1 in H2. rewrite lookup_alter_eq, E in H2. cbn [fmap option_fmap option_map] in H2.
destruct (m2 !! op_id od) as [o|] eqn:Eo; [|done].
eapply (light_descent U p _ (op_id od) od o); [done|done|done|by etrans|done|done|].
apply no_more_weight in H2. unfold node_weight in *. rewrite Hname. cbn [set_name name with_op node_op] in H2.
change (is_live (set_name (Some (fused r)) od)) with (is_live od) in H2. change (workable (set_name (Some (fused r)) od)) with (workable od) in H2. lia.
Qed.

Lemma fusion_descends r : r ∈ kLegacyFusionRules -> descends (fusion_pass r).
Proof. intros Hr mt rw U p od p' n [= <-] [= <-] Hw Hk HU E _ Hm. by apply (fuse_descent r U p od). Qed.

Lemma const_fold_descends execute : descends (const_fold execute).
Proof.
intros mt rw U p od p' n [= <-] [= <-] Hw Hk HU E Hwk _. unfold const_rewrite.
destruct (mapM _ (inputs od)) as [srcs|]; [|by intros [= <- <-]].
destruct (mapM _ srcs) as [ins|]; [|done]. cbn [mbind option_bind]. destruct (mapM _ (omap _ _)) as [ps|]; [|done]. cbn [mbind option_bind].
destruct (execute _ _ _ _) as [out|]; [|by intros [= <- <-]]. destruct (narrow_out _ out) as [bytes|]; [|done]. cbn [mbind option_bind].
unfold fold_op_to_const. rewrite Hwk. cbn [negb orb]. case_bool_decide; [by intros [= <- <-]|]. intros [= <- <-]. cbn [Z.ltb Z.compare].
set (cn := const_node od _ _).
assert (is_live cn = true) as Hlc by by vm_compute. assert (workable cn = false) as Hwc by by vm_compute.
pose proof (workable_live _ Hwk) as Hl.
assert (<[op_id od := cn]> (opdefs p) = alter (fun _ => cn) (op_id od) (opdefs p)) as Ea.
{ apply map_eq. intros k. destruct (decide (k = op_id od)) as [->|]; [by rewrite lookup_alter_eq, lookup_insert_eq, E|by rewrite lookup_alter_ne, lookup_insert_ne]. }
eapply (light_descent U p _ (op_id od) od cn); [done|done|done| |done|cbn; by rewrite lookup_insert_eq|].
- cbn. rewrite Ea. apply alter_light. intros o Ho. replace o with od by congruence. split.
  + split; [done|]. split; [by intros _|]. split; [by rewrite Hwc|]. change (name_rank (name cn)) with 0. apply name_rank_nonneg.
  + intros Hi x Hx. apply Hi. apply elem_of_app. right. done.
- unfold node_weight. rewrite Hl, Hwk, Hlc, Hwc. change (name_rank (name cn)) with 0. pose proof (name_rank_nonneg (name od)). lia.
Qed.

(** * The worklist ends *)

(** The same pass with other counters. *)
Definition same_rule (g g' : GraphPass) : Prop :=
  pass_name g' = pass_name g /\ phase g' = phase g /\ matcher g' = matcher g /\ rewrite g' = rewrite g /\ enabled g' = enabled g.

#[local] Instance same_rule_equiv : Equivalence same_rule.
Proof.
split.
- by intros g.
- intros g g' (A & B & C & D & E). by split_and!.
- intros a b c (A1 & A2 & A3 & A4 & A5) (B1 & B2 & B3 & B4 & B5). split_and!; congruence.
Qed.

Lemma same_rule_active ph g g' : same_rule g g' -> active ph g' = active ph g.
Proof. intros (_ & E1 & E2 & _ & E3). unfold active. by rewrite E1, E2, E3. Qed.

Lemma same_rule_descends g g' : same_rule g g' -> descends g -> descends g'.
Proof. intros (_ & _ & E1 & E2 & _) Hd mt rw U p od p' n Hm Hr. apply (Hd mt rw U p od p' n); congruence. Qed.

Lemma same_rules_refl ps : Forall2 same_rule ps ps.
Proof. induction ps; by constructor. Qed.

(** Pass [g] applies to [od] in [p]. *)
Definition applies (ph : Z) (ps : list GraphPass) (p : GraphPrepare) (od : OpNode) (rw : GraphPrepare -> OpNode -> option (GraphPrepare * Z)) : Prop :=
  exists g mt, g ∈ ps /\ active ph g = true /\ matcher g = Some mt /\ rewrite g = Some rw /\ mt p od = true /\
    opdefs p !! op_id od = Some od /\ workable od = true.

(** One change by a pass of the phase. *)
Definition pass_step (ph : Z) (ps : list GraphPass) (p p' : GraphPrepare) : Prop :=
  exists od rw n, applies ph ps p od rw /\ rw p od = Some (p', n) /\ 0 < n.

(** A pass of the phase runs into undefined behaviour. *)
Definition undefined_at (ph : Z) (ps : list GraphPass) (p : GraphPrepare) : Prop :=
  exists od rw, applies ph ps p od rw /\ rw p od = None.

Lemma applies_same ph ps ps' p od rw : Forall2 same_rule ps ps' -> applies ph ps' p od rw -> applies ph ps p od rw.
Proof.
intros H2 (g' & mt & Hg & Ha & Hm & Hr & Hmt & He). apply list_elem_of_lookup in Hg as [i Hi].
destruct (Forall2_lookup_r _ _ _ _ _ H2 Hi) as (g & Hg' & Hs). apply list_elem_of_lookup_2 in Hg'.
exists g, mt. rewrite <- (same_rule_active ph g g') by done. destruct Hs as (_ & _ & E1 & E2 & _). rewrite <- E1, <- E2. destruct He. by split_and!.
Qed.

Lemma applies_cons ph g ps p od rw : applies ph ps p od rw -> applies ph (g :: ps) p od rw.
Proof. intros (g' & mt & Hg & H). exists g', mt. split; [by right|done]. Qed.

Section work.
Context (ph : Z) (U : list op_id_t).

(** What the loop keeps of the graph. *)
Definition within (p : GraphPrepare) : Prop := graph_wf p /\ (forall x, x ∈ keys p -> x ∈ U) /\ names_in U (opdefs p).

Lemma attempt_ok (p : GraphPrepare) (od : OpNode) ps : within p -> opdefs p !! op_id od = Some od -> workable od = true -> Forall descends ps ->
  match attempt ph ps p od with
  | None => undefined_at ph ps p
  | Some (ps', p', r) => Forall2 same_rule ps ps' /\
      match r with
      | None => p' = p
      | Some (n, ids) => pass_step ph ps p p' /\ descent U p p' /\ forall x, x ∈ ids -> x ∈ U
      end
  end.
Proof.
intros (Hw & Hk & HU) E Hwk. induction ps as [|g ps IH]; intros Hd; [done|]. apply Forall_cons in Hd as [Hg Hd]. specialize (IH Hd).
cbn [attempt].
assert (forall g', same_rule g g' -> match '(ps, p, r) ← attempt ph ps p od; Some (g' :: ps, p, r) with
  | None => undefined_at ph (g :: ps) p
  | Some (ps', p', r) => Forall2 same_rule (g :: ps) ps' /\ match r with
      | None => p' = p
      | Some (n, ids) => pass_step ph (g :: ps) p p' /\ descent U p p' /\ forall x, x ∈ ids -> x ∈ U
      end end) as Hskip.
{ intros g' Hs. destruct (attempt ph ps p od) as [[[ps' p'] r]|]; cbn [mbind option_bind].
  - destruct IH as [H2 Hr]. split; [by constructor|]. destruct r as [[n ids]|]; [|done]. destruct Hr as ((o & rw & n' & Ha & Hr) & Hr').
    split; [|done]. exists o, rw, n'. split; [by apply applies_cons|done].
  - destruct IH as (o & rw & Ha & Hn). exists o, rw. split; [by apply applies_cons|done]. }
destruct (matcher g) as [mt|] eqn:Em; [|by apply Hskip]. destruct (active ph g && mt p od) eqn:Ea; [|by apply Hskip].
apply andb_true_iff in Ea as [Ea Emt]. change (rewrite (set_counts _ _ g)) with (rewrite g).
destruct (rewrite g) as [rw|] eqn:Er; cbn [mbind option_bind Z.ltb Z.compare]; [|by apply Hskip].
assert (applies ph (g :: ps) p od rw) as Hap by (exists g, mt; split; [left|by split_and!]).
destruct (rw p od) as [[p' n]|] eqn:Erw; cbn [mbind option_bind]; [|by exists od, rw].
pose proof (Hg mt rw U p od p' n Em Er Hw Hk HU E Hwk Emt Erw) as Hdesc. destruct (0 <? n) eqn:En; bool_prop.
- split; [constructor; [by split_and!|apply same_rules_refl]|]. split; [by exists od, rw, n|]. split; [done|].
  intros x Hx. by apply (HU (op_id od) od).
- subst p'. apply Hskip. by split_and!.
Qed.

Lemma push_work_ok wl x : NoDup wl -> NoDup (push_work wl x) /\ forall y, y ∈ push_work wl x <-> y = x \/ y ∈ wl.
Proof.
intros Hn. unfold push_work. case_bool_decide as Hx.
- split; [done|]. intros y. split; [by right|]. by intros [->|?].
- split; [by constructor|]. intros y. by rewrite elem_of_cons.
Qed.

Lemma push_all_ok l wl : NoDup wl -> NoDup (foldl push_work wl l) /\ forall y, y ∈ foldl push_work wl l <-> y ∈ l \/ y ∈ wl.
Proof.
revert wl. induction l as [|x l IH]; intros wl Hn; cbn; [split; [done|]; intros y; rewrite elem_of_nil; tauto|].
destruct (push_work_ok wl x Hn) as [Hn' Hin]. destruct (IH _ Hn') as [H1 H2]. split; [done|]. intros y. rewrite H2, Hin, elem_of_cons. tauto.
Qed.

Lemma descent_within p p' : within p -> descent U p p' -> within p'.
Proof. intros (Hw & Hk & HU) [E1 E2 E3 _]. split; [done|]. split; [by rewrite E1|done]. Qed.

Lemma pass_step_same ps ps' p p' : Forall2 same_rule ps ps' -> pass_step ph ps' p p' -> pass_step ph ps p p'.
Proof. intros H2 (od & rw & n & Ha & H). exists od, rw, n. split; [by eapply applies_same|done]. Qed.

Lemma undefined_same ps ps' p : Forall2 same_rule ps ps' -> undefined_at ph ps' p -> undefined_at ph ps p.
Proof. intros H2 (od & rw & Ha & H). exists od, rw. split; [by eapply applies_same|done]. Qed.

Lemma descends_same ps ps' : Forall2 same_rule ps ps' -> Forall descends ps -> Forall descends ps'.
Proof. intros H2 Hd. induction H2; [done|]. apply Forall_cons in Hd as [? ?]. constructor; [by eapply same_rule_descends|auto]. Qed.

Lemma work_ok fuel : forall ps p wl total, Forall descends ps -> within p -> NoDup wl -> (forall x, x ∈ wl -> x ∈ U) ->
  (Z.to_nat (graph_weight p) * S (length U) + length wl < fuel)%nat ->
  exists r, work_loop fuel ph ps p wl total = Some r /\
    match r with
    | None => exists q, rtc (pass_step ph ps) p q /\ undefined_at ph ps q
    | Some (ps', p', _) => Forall2 same_rule ps ps' /\ rtc (pass_step ph ps) p p' /\ within p' /\ keys p' = keys p
    end.
Proof.
induction fuel as [|fuel IH]; intros ps p wl total Hd Hp Hn Hin Hf; [lia|]. cbn [work_loop].
destruct wl as [|id wl].
{ eexists. split; [done|]. split; [apply same_rules_refl|]. by split. }
apply NoDup_cons in Hn as [Hid Hn]. cbn in Hf.
assert (exists r, work_loop fuel ph ps p wl total = Some r /\
    match r with
    | None => exists q, rtc (pass_step ph ps) p q /\ undefined_at ph ps q
    | Some (ps', p', _) => Forall2 same_rule ps ps' /\ rtc (pass_step ph ps) p p' /\ within p' /\ keys p' = keys p
    end) as Hrest.
{ apply IH; [done|done|done| |lia]. intros x Hx. apply Hin. by right. }
destruct (opdefs p !! id) as [od|] eqn:E; [|done]. destruct (workable od) eqn:Ew; [|done].
assert (op_id od = id) as Eid by (by apply (wf_ids p (proj1 Hp))).
pose proof (attempt_ok p od ps Hp ltac:(by rewrite Eid) Ew Hd) as Ha.
destruct (attempt ph ps p od) as [[[ps' p'] r]|].
2: { eexists. split; [done|]. by exists p. }
destruct Ha as [H2 Hr]. destruct r as [[n ids]|].
- destruct Hr as (Hst & Hde & Hids). destruct (push_all_ok ids wl Hn) as [Hn' Hin'].
  assert (forall x, x ∈ foldl push_work wl ids -> x ∈ U) as HU' by (intros x [Hx|Hx]%Hin'; [by apply Hids|apply Hin; by right]).
  assert (length (foldl push_work wl ids) <= length U)%nat as Hlen by (apply submseteq_length, NoDup_submseteq; done).
  pose proof (de_weight _ _ _ Hde). pose proof (weight_nonneg p').
  destruct (IH ps' p' (foldl push_work wl ids) (u32 (total + u32 n))) as (r & Er & Hr).
  + by eapply descends_same.
  + by eapply descent_within.
  + done.
  + done.
  + assert (Z.to_nat (graph_weight p') + 1 <= Z.to_nat (graph_weight p))%nat as Hlt by lia.
    apply (Nat.mul_le_mono_r _ _ (S (length U))) in Hlt. lia.
  + exists r. split; [done|]. destruct r as [[[ps'' p''] t]|].
    * destruct Hr as (H2' & Hrtc & Hw & Hk). split; [by etrans|]. split.
      { eapply rtc_l; [exact Hst|]. revert Hrtc. apply rtc_subrel. intros a b. by apply pass_step_same. }
      split; [done|]. by rewrite Hk, (de_keys _ _ _ Hde).
    * destruct Hr as (q & Hrtc & Hu). exists q. split; [|by eapply undefined_same].
      eapply rtc_l; [exact Hst|]. revert Hrtc. apply rtc_subrel. intros a b. by apply pass_step_same.
- subst p'. destruct (IH ps' p wl total) as (r & Er & Hr).
  + by eapply descends_same.
  + done.
  + done.
  + intros x Hx. apply Hin. by right.
  + lia.
  + exists r. split; [done|]. destruct r as [[[ps'' p''] t]|].
    * destruct Hr as (H2' & Hrtc & Hw & Hk). split; [by etrans|]. split; [|done]. revert Hrtc. apply rtc_subrel. intros a b. by apply pass_step_same.
    * destruct Hr as (q & Hrtc & Hu). exists q. split; [|by eapply undefined_same]. revert Hrtc. apply rtc_subrel. intros a b. by apply pass_step_same.
Qed.
End work.

Lemma graph_ids_spec p : graph_wf p -> within (graph_ids p) p.
Proof.
intros Hw. split; [done|]. unfold graph_ids. split; [intros x Hx; apply elem_of_app; by left|].
intros k od x E Hx. apply elem_of_app. right. apply elem_of_concat. exists (node_ids od). split; [|done].
apply list_elem_of_fmap. exists k. rewrite E. split; [done|]. apply (wf_dom p Hw). by exists od.
Qed.

Lemma seeds_ok p : graph_wf p -> NoDup (seeds p) /\ forall x, x ∈ seeds p -> x ∈ keys p.
Proof.
intros Hw. unfold seeds. assert (forall l wl, (forall x, x ∈ l -> x ∈ keys p) -> NoDup wl -> (forall x, x ∈ wl -> x ∈ keys p) ->
  NoDup (foldl (fun wl id => match opdefs p !! id with Some od => if workable od then push_work wl (op_id od) else wl | None => wl end) wl l) /\
  forall x, x ∈ foldl (fun wl id => match opdefs p !! id with Some od => if workable od then push_work wl (op_id od) else wl | None => wl end) wl l -> x ∈ keys p) as Hgo.
{ induction l as [|id l IH]; intros wl Hl Hn Hwl; [done|]. cbn [foldl].
  assert (forall x, x ∈ l -> x ∈ keys p) as Hl' by (intros x Hx; apply Hl; by right).
  destruct (opdefs p !! id) as [od|] eqn:E; [|by apply IH]. destruct (workable od); [|by apply IH].
  destruct (push_work_ok wl (op_id od) Hn) as [Hn' Hin]. apply IH; [done|done|]. intros x [->|Hx]%Hin; [|by apply Hwl].
  rewrite (wf_ids p Hw id od E). apply Hl. left. }
apply Hgo; [done|constructor|by intros x ?%not_elem_of_nil].
Qed.

(** A phase of passes that descend ends, as a chain of changes or in
    undefined behaviour. *)
Lemma run_phase_ok ph m p : graph_wf p -> Forall descends (passes m) ->
  exists r, run_phase ph m p = Some r /\
    match r with
    | None => exists q, rtc (pass_step ph (passes m)) p q /\ undefined_at ph (passes m) q
    | Some (m', p', _) => Forall2 same_rule (passes m) (passes m') /\ rtc (pass_step ph (passes m)) p p' /\ graph_wf p' /\ keys p' = keys p
    end.
Proof.
intros Hw Hd. unfold run_phase. destruct (existsb _ _).
- destruct (seeds_ok p Hw) as [Hn Hin]. pose proof (graph_ids_spec p Hw) as Hp.
  assert (forall x, x ∈ seeds p -> x ∈ graph_ids p) as HU by (intros x Hx; apply elem_of_app; left; by apply Hin).
  assert (length (seeds p) <= length (graph_ids p))%nat by (apply submseteq_length, NoDup_submseteq; done).
  destruct (work_ok ph (graph_ids p) (work_fuel p) (passes m) p (seeds p) 0 Hd Hp Hn HU) as (r & -> & Hr); [unfold work_fuel; lia|].
  cbn [mbind option_bind]. destruct r as [[[ps' p'] t]|]; cbn [mbind option_bind]; eexists; (split; [done|]); [|done].
  destruct Hr as (H2 & Hrtc & [Hw' _] & Hk). by split_and!.
- eexists. split; [done|]. split; [apply same_rules_refl|]. by split_and!.
Qed.

(** * The rounds of fusion end *)

Lemma fuse_at_ok r U p id : r ∈ kLegacyFusionRules -> within U p ->
  exists p', (fuse_at r (p, 0) id = (p', 0) /\ p' = p \/ fuse_at r (p, 0) id = (p', 1) /\ descent U p p').
Proof.
intros Hr (Hw & Hk & HU). unfold fuse_at. destruct (opdefs p !! id) as [od|] eqn:E; [|by exists p; left].
destruct (fusion_match r p od) eqn:Em; [|by exists p; left]. assert (op_id od = id) as Eid by (by apply (wf_ids p Hw)).
destruct (fuse_pair r p od) as [[p' n]|] eqn:Ef; [|by exists p; left]. exists p'. right. split; [done|].
assert (opdefs p !! op_id od = Some od) as E' by (by rewrite Eid).
pose proof (fuse_descent r U p od p' n Hr Hw Hk HU E' Em Ef) as Hd.
assert (n = 1) as ->; [|done]. unfold fuse_pair in Ef. unfold fusion_match in Em. destruct (inputs od) as [|c [|]]; try (by rewrite andb_false_r in Em).
destruct (opdefs p !! src_id c); [by injection Ef as _ <-|by rewrite andb_false_r in Em].
Qed.

Lemma fuse_at_count r p n id : fuse_at r (p, n) id = (fst (fuse_at r (p, 0) id), n + snd (fuse_at r (p, 0) id)).
Proof.
unfold fuse_at. assert (forall q : GraphPrepare, (q, n) = (q, n + 0)) as E by (intros q; by rewrite Z.add_0_r).
repeat case_match; cbn; apply E || done.
Qed.

(** A round that fuses brings the weight down. *)
Definition fused_down (U : list op_id_t) (p : GraphPrepare) (n : Z) (p' : GraphPrepare) (n' : Z) : Prop :=
  within U p' /\ keys p' = keys p /\ graph_weight p' <= graph_weight p /\ n <= n' /\ (n < n' -> graph_weight p' < graph_weight p).

Lemma fused_down_trans U p1 n1 p2 n2 p3 n3 : fused_down U p1 n1 p2 n2 -> fused_down U p2 n2 p3 n3 -> fused_down U p1 n1 p3 n3.
Proof. intros (A1 & A2 & A3 & A4 & A5) (B1 & B2 & B3 & B4 & B5). split; [done|]. split; [congruence|]. split; [lia|]. split; [lia|]. lia. Qed.

Lemma fuse_ids_down r U ids p n : r ∈ kLegacyFusionRules -> within U p ->
  fused_down U p n (fst (foldl (fuse_at r) (p, n) ids)) (snd (foldl (fuse_at r) (p, n) ids)).
Proof.
intros Hr. revert p n. induction ids as [|id ids IH]; intros p n Hp; cbn [foldl]; [split_and!; try done; cbn; lia|].
rewrite fuse_at_count. destruct (fuse_at_ok r U p id Hr Hp) as (p' & [[-> ->]|[-> Hd]]); cbn [fst snd].
- rewrite Z.add_0_r. by apply IH.
- eapply fused_down_trans; [|apply IH; by eapply descent_within]. pose proof (de_weight _ _ _ Hd).
  split; [by eapply descent_within|]. split; [apply Hd|]. lia.
Qed.

Lemma fuse_rules_down U rules p n : (forall r, r ∈ rules -> r ∈ kLegacyFusionRules) -> within U p ->
  fused_down U p n (fst (foldl fuse_rule (p, n) rules)) (snd (foldl fuse_rule (p, n) rules)).
Proof.
intros Hr. revert p n. induction rules as [|r rules IH]; intros p n Hp; cbn [foldl]; [split_and!; try done; cbn; lia|].
unfold fuse_rule at 2 4. cbn [fst]. pose proof (fuse_ids_down r U (keys p) p n (Hr r ltac:(left)) Hp) as H1.
destruct (foldl (fuse_at r) (p, n) (keys p)) as [p1 n1]. cbn [fst snd] in H1.
eapply fused_down_trans; [exact H1|]. apply IH; [intros x Hx; apply Hr; by right|apply H1].
Qed.

(** Removing dead code makes no graph heavier. *)
Lemma remove_dead_weight p p' n : graph_wf p -> remove_dead_code p = Some (p', n) -> graph_wf p' /\ graph_weight p' <= graph_weight p.
Proof.
intros Hw E. destruct (remove_dead_code_ok p Hw) as (ks & m & D & E' & Hsub & Hw' & Hwo & _). rewrite E in E'. injection E' as -> _.
split; [done|]. unfold graph_weight. cbn [keys opdefs set_graph]. transitivity (sum_by (weight_at (opdefs p)) ks).
- apply sum_by_le. intros k _. unfold weight_at. rewrite (Hwo k). case_decide; [|by destruct (opdefs p !! k)].
  case_match; [apply node_weight_nonneg|done].
- clear -Hsub. assert (forall k, 0 <= weight_at (opdefs p) k) as H0 by (intros k; unfold weight_at; case_match; [apply node_weight_nonneg|done]).
  induction Hsub as [|x l1 l2 _ IH|x l1 l2 _ IH]; [done|..]; cbn [sum_by foldr] in *; [|specialize (H0 x)]; unfold sum_by in *; lia.
Qed.

(** The rounds end within the weight of the graph. *)
Lemma apply_fusion_rules_ends rules p : (forall r, r ∈ rules -> r ∈ kLegacyFusionRules) -> graph_wf p ->
  exists p' n, apply_fusion_rules rules p = Some (p', n) /\ graph_wf p'.
Proof.
intros Hr Hw. unfold apply_fusion_rules. case_bool_decide; [by exists p, 0|].
assert (forall fuel p count, graph_wf p -> (Z.to_nat (graph_weight p) < fuel)%nat -> exists p' n, fusion_loop fuel rules p count = Some (p', n) /\ graph_wf p') as Hgo;
  [|apply Hgo; [done|lia]].
clear p Hw. induction fuel as [|fuel IH]; intros p count Hw Hf; [lia|]. cbn [fusion_loop].
pose proof (fuse_rules_down (graph_ids p) rules p 0 Hr (graph_ids_spec p Hw)) as Hd. destruct (foldl fuse_rule (p, 0) rules) as [p1 n1].
destruct Hd as ((Hw1 & _) & _ & _ & H0 & Hlt). cbn [snd fst] in *. destruct (n1 =? 0) eqn:En; bool_prop; [by exists p1, count|].
destruct (remove_dead_code_ok p1 Hw1) as (ks & m & D & E & _). rewrite E. cbn [mbind option_bind].
destruct (remove_dead_weight _ _ _ Hw1 E) as [Hw2 Hle]. apply IH; [done|]. pose proof (weight_nonneg p1).
assert (graph_weight p1 < graph_weight p) by (apply Hlt; lia). pose proof (weight_nonneg (set_graph p1 ks m ((0 <? Z.of_nat (size D)) || graph_dirty p1))). lia.
Qed.
