(* ===== verification/ShapeFold.v ===== *)
(** What the optimisation passes keep: shape folding leaves every value as it
    is, and the whole run ends with a settled graph. *)
From S2P Require Import Prelude Ir Wire GraphPasses GraphCse GraphBuild OptPasses.

(** * Folding shapes keeps the values *)

(** Rank and axes of a tensor. *)
Definition od_shape (d : OutputDef) : Z * list Z :=
  (rank d, (fun i => nth i (dims d) 0) <$> seq 0 (Z.to_nat (Z.min (rank d) 5))).

Lemma od_equal_shape a b : od_equal a b = true -> od_shape a = od_shape b.
Proof.
unfold od_equal, od_shape. intros [Hr Hd]%andb_true_iff. apply Z.eqb_eq in Hr. rewrite Hr in Hd |- *. f_equal.
apply list_fmap_ext. intros i x Hx. rewrite forallb_forall in Hd. apply Z.eqb_eq, Hd, list_elem_of_In. by eapply list_elem_of_lookup_2.
Qed.

(** A reader, reconnected if it is one of [cs]; its own readers only grow
    in number. *)
Definition moved (id pid : op_id_t) (pd : OutputDef) (cs : list op_id_t) (x : op_id_t) (od od' : OpNode) : Prop :=
  od' = set_consumers (set_inputs od (if decide (x ∈ cs) then reconnect id pid pd <$> inputs od else inputs od)) (consumers od') /\
  forall c, c ∈ consumers od -> c ∈ consumers od'.

Lemma reconnect_idem id pid pd c : reconnect id pid pd (reconnect id pid pd c) = reconnect id pid pd c.
Proof. unfold reconnect. destruct (src_id c =? id) eqn:E; [cbn; by case_match|by rewrite E]. Qed.

Lemma node_lists (od : OpNode) : set_consumers (set_inputs od (inputs od)) (consumers od) = od.
Proof. by destruct od as [[] ]. Qed.

Lemma rewire_all id pid cs : forall (m : gmap op_id_t OpNode) (prod : OpNode), m !! pid = Some prod ->
  forall x, match m !! x, foldl (rewire_one id pid) m cs !! x with
            | Some od, Some od' => moved id pid (output_def prod) cs x od od' /\
                (x = pid -> forall c, c ∈ cs -> is_Some (m !! c) -> c ∈ consumers od')
            | None, None => True
            | _, _ => False
            end.
Proof.
induction cs as [|cid cs IH] using rev_ind; intros m prod Ep x.
{ cbn. destruct (m !! x) as [od|]; [|done]. split; [|by intros _ c ?%not_elem_of_nil]. split; [|auto].
  rewrite decide_False by apply not_elem_of_nil. by rewrite node_lists. }
rewrite foldl_app. cbn [foldl]. set (m1 := foldl (rewire_one id pid) m cs) in *. pose proof (IH m prod Ep) as IHm. fold m1 in IHm.
assert (exists prod1 : OpNode, m1 !! pid = Some prod1 /\ output_def prod1 = output_def prod) as (prod1 & E1 & Ed1).
{ specialize (IHm pid). rewrite Ep in IHm. destruct (m1 !! pid) as [q|]; [|done]. exists q. split; [done|]. destruct IHm as [[-> _] _]. done. }
unfold rewire_one. specialize (IHm cid) as IHc. rewrite E1, Ed1. destruct (m1 !! cid) as [c|] eqn:Ec.
- set (c1 := set_inputs c (reconnect id pid (output_def prod) <$> inputs c)).
  pose proof (IHm x) as IHx. destruct (m !! x) as [od|] eqn:Ex.
  2: { destruct (m1 !! x) as [od1|] eqn:Ex1; [done|].
       assert (x <> pid) by (intros ->; congruence). assert (x <> cid) by (intros ->; congruence).
       by rewrite lookup_alter_ne, lookup_insert_ne, Ex1. }
  destruct (m1 !! x) as [od1|] eqn:Ex1; [|done]. destruct IHx as [[Eo Hc] Hp].
  assert (exists od2 : OpNode, <[cid := c1]> m1 !! x = Some od2 /\ moved id pid (output_def prod) (cs ++ [cid]) x od od2 /\ consumers od2 = consumers od1) as (od2 & E2 & [Em2 Hc2] & Econ).
  { destruct (decide (x = cid)) as [->|Hne].
    - exists c1. rewrite lookup_insert_eq. split; [done|]. replace od1 with c in * by congruence. split; [|done]. split; [|exact Hc].
      rewrite decide_True by set_solver. unfold c1. rewrite Eo. cbn. unfold set_inputs, set_consumers, with_op. cbn. f_equal. f_equal.
      case_decide; [|done]. rewrite <- list_fmap_compose. apply list_fmap_ext. intros i z _. cbn. apply reconnect_idem.
    - exists od1. rewrite lookup_insert_ne by done. split; [done|]. split; [|done]. split; [|exact Hc]. rewrite Eo at 1.
      destruct (decide (x ∈ cs)); [rewrite decide_True by set_solver|rewrite decide_False by set_solver]; done. }
  destruct (decide (x = pid)) as [->|Hne].
  + rewrite lookup_alter_eq, E2. cbn. split; [split|].
    * rewrite Em2 at 1. done.
    * intros y Hy. apply elem_of_app. left. by apply Hc2.
    * intros _ y [Hy| ->%list_elem_of_singleton]%elem_of_app Hsy; apply elem_of_app; [left; rewrite Econ; by apply Hp|right; by apply list_elem_of_singleton].
  + rewrite lookup_alter_ne, E2 by done. split; [by split|]. done.
- destruct (m !! cid) as [?|] eqn:Emc; [done|]. specialize (IHm x). destruct (m !! x) as [od|] eqn:Ex; [|done]. destruct (m1 !! x) as [od1|]; [|done].
  assert (x <> cid) by (intros ->; congruence). destruct IHm as [[Eo Hc] Hp]. split; [split; [|done]|].
  + rewrite Eo at 1. destruct (decide (x ∈ cs)); [rewrite decide_True by set_solver|rewrite decide_False by set_solver]; done.
  + intros -> y [Hy| ->%list_elem_of_singleton]%elem_of_app Hsy; [by apply Hp|]. rewrite Emc in Hsy. by destruct Hsy.
Qed.

(** The sources whose reader goes away have the new one. *)
Lemma hand_over_all from to l : forall (m : gmap op_id_t OpNode) (x : op_id_t),
  match (m !! x : option OpNode), (foldl (hand_over from to) m l !! x : option OpNode) with
  | Some od, Some od' => od' = set_consumers od (consumers od') /\ (forall c, c ∈ consumers od -> c <> from -> c ∈ consumers od') /\
      (x ∈ src_id <$> l -> to ∈ consumers od')
  | None, None => True
  | _, _ => False
  end.
Proof.
induction l as [|c l IH] using rev_ind; intros m x.
{ cbn. destruct (m !! x) as [od|]; [|done]. split; [by destruct od as [[] ]|]. split; [done|]. by intros ?%not_elem_of_nil. }
rewrite foldl_app. cbn [foldl]. specialize (IH m x). set (m1 := foldl _ m l) in *. unfold hand_over. rewrite fmap_app. cbn.
destruct (decide (x = src_id c)) as [->|Hne].
- rewrite lookup_alter_eq. destruct (m !! src_id c) as [od|], (m1 !! src_id c) as [od1|]; try done. cbn. destruct IH as (Eo & Hc & _).
  split; [rewrite Eo at 1; done|]. split; intros; apply elem_of_app; [|right; by apply list_elem_of_singleton].
  destruct (decide (c0 = to)) as [->|]; [right; by apply list_elem_of_singleton|]. left. apply list_elem_of_filter. split; [done|by apply Hc].
- rewrite lookup_alter_ne by done. destruct (m !! x) as [od|], (m1 !! x) as [od1|]; try done. destruct IH as (Eo & Hc & Hto).
  split; [done|]. split; [done|]. intros [Hx|Hx%list_elem_of_singleton]%elem_of_app; [by apply Hto|done].
Qed.

Lemma mapM_transfer {A B C} (f : A -> option C) (g : B -> option C) (k : A -> B) l vs :
  (forall a r, a ∈ l -> f a = Some r -> g (k a) = Some r) -> mapM f l = Some vs -> mapM g (k <$> l) = Some vs.
Proof.
revert vs. induction l as [|a l IH]; intros vs Hg; [done|]. cbn. destruct (f a) as [r|] eqn:Ef; [|done]. cbn.
rewrite (Hg a r) by (done || left). cbn. destruct (mapM f l) as [rs|]; [|done]. cbn. rewrite (IH rs); [done| |done]. intros b q Hb. apply Hg. by right.
Qed.

Definition is_plain (n : option string) : bool := negb (is_reshape n) && negb (is_transpose n).

(** Reshapes read one tensor, and like transposes its first output. *)
Definition plain_reads (m : gmap op_id_t OpNode) : Prop :=
  forall x (od : OpNode), m !! x = Some od ->
    (is_reshape (name od) = true -> exists c, inputs od = [c] /\ out_idx c = 0) /\
    (is_transpose (name od) = true -> forall c, c ∈ inputs od -> out_idx c = 0).

(** The op [gone] is dead; the inputs of the others are changed by [ins]. *)
Record spliced (gone : op_id_t) (ins : op_id_t -> OpNode -> list InputConn) (m m' : gmap op_id_t OpNode) : Prop := {
  sp_none x : m !! x = None -> m' !! x = None;
  sp_some x (od : OpNode) : m !! x = Some od -> exists od' : OpNode, m' !! x = Some od' /\ attrs_of od' = attrs_of od /\
    is_const od' = is_const od /\ inputs od' = ins x od /\ is_live od' = (if decide (x = gone) then false else is_live od)
}.

Lemma sp_back gone ins m m' x (od' : OpNode) : spliced gone ins m m' -> m' !! x = Some od' ->
  exists od : OpNode, m !! x = Some od /\ attrs_of od' = attrs_of od /\ is_const od' = is_const od /\ inputs od' = ins x od /\
    is_live od' = (if decide (x = gone) then false else is_live od).
Proof.
intros Hs E. destruct (m !! x) as [od|] eqn:Em; [|by rewrite (sp_none _ _ _ _ Hs x Em) in E].
destruct (sp_some _ _ _ _ Hs x od Em) as (od1 & E1 & H). rewrite E in E1. injection E1 as <-. by exists od.
Qed.

Lemma spliced_params gone ins (p p' : GraphPrepare) (od : OpNode) : spliced gone ins (opdefs p) (opdefs p') -> const_pool p' = const_pool p ->
  all_params_identity p' od = all_params_identity p od.
Proof.
intros Hs Hp. unfold all_params_identity. f_equal. apply forallb_ext_elem. intros t _. unfold is_sequence, const_bytes. rewrite Hp.
destruct (opdefs p !! t) as [pc|] eqn:E; [|by rewrite (sp_none _ _ _ _ Hs t E)].
destruct (sp_some _ _ _ _ Hs t pc E) as (pc' & -> & Ha & Hc & _). rewrite Hc.
assert (const_data_size pc' = const_data_size pc) as -> by exact (f_equal at_size Ha).
by assert (const_data_offset pc' = const_data_offset pc) as -> by exact (f_equal at_offset Ha).
Qed.

Lemma set_dead_const (od : OpNode) : is_const (set_dead od) = is_const od.
Proof.
unfold is_const, set_dead, set_flags, OP_CONST, OP_DEAD. cbn. f_equal. f_equal. apply Z.bits_inj'. intros i Hi.
rewrite !Z.land_spec, Z.lor_spec. destruct (Z.testbit 2 i) eqn:E2; [|by rewrite !andb_false_r]. rewrite !andb_true_r.
assert (i = 1) as ->; [|by rewrite orb_false_r].
change 2 with (2 ^ 1) in E2. rewrite Z.pow2_bits_eqb in E2 by lia. by apply Z.eqb_eq in E2.
Qed.

(** The two rewrites as splices. *)
Lemma rewire_spliced p (od prod : OpNode) pid : opdefs p !! pid = Some prod ->
  spliced (op_id od) (fun x o => if decide (x ∈ consumers od) then reconnect (op_id od) pid (output_def prod) <$> inputs o else inputs o)
    (opdefs p) (opdefs (rewire_consumers od pid p)) /\
  forall x (o o' : OpNode) c, opdefs p !! x = Some o -> opdefs (rewire_consumers od pid p) !! x = Some o' -> c <> op_id od ->
    (c ∈ consumers o \/ x = pid /\ c ∈ consumers od /\ is_Some (opdefs p !! c)) -> c ∈ consumers o'.
Proof.
intros Ep. set (m0 := alter (drop_consumer (op_id od)) pid (opdefs p)).
assert (m0 !! pid = Some (drop_consumer (op_id od) prod)) as E0 by (unfold m0; by rewrite lookup_alter_eq, Ep).
pose proof (rewire_all (op_id od) pid (consumers od) m0 _ E0) as Hall. change (output_def (drop_consumer _ prod)) with (output_def prod) in Hall.
assert (forall x : op_id_t, match (opdefs p !! x : option OpNode), (m0 !! x : option OpNode) with
  | Some o, Some o0 => o0 = set_consumers o (consumers o0) /\ (forall c, c ∈ consumers o -> c <> op_id od -> c ∈ consumers o0)
  | None, None => True | _, _ => False end) as H0.
{ intros x. unfold m0. destruct (decide (x = pid)) as [->|Hne].
  - rewrite lookup_alter_eq, Ep. cbn. split; [done|]. intros c Hc Hne. by apply list_elem_of_filter.
  - rewrite lookup_alter_ne by done. destruct (opdefs p !! x) as [o|]; [|done]. split; [by destruct o as [[] ]|done]. }
assert (forall x, is_Some (opdefs p !! x) -> is_Some (m0 !! x)) as H0s by (intros x [o Ho]; specialize (H0 x); rewrite Ho in H0; destruct (m0 !! x); [done|done]).
unfold rewire_consumers. cbn [opdefs set_graph]. fold m0. set (m1 := foldl _ m0 (consumers od)) in *.
assert (forall x, alter set_dead (op_id od) m1 !! x = (fun o => if decide (x = op_id od) then set_dead o else o) <$> m1 !! x) as Hd.
{ intros x. destruct (decide (x = op_id od)) as [->|Hne]; [by rewrite lookup_alter_eq|rewrite lookup_alter_ne by done; by destruct (m1 !! x)]. }
split; [split|].
- intros x Ex. rewrite Hd. specialize (H0 x). specialize (Hall x). rewrite Ex in H0. destruct (m0 !! x); [done|]. by destruct (m1 !! x).
- intros x o Ex. rewrite Hd. specialize (H0 x). specialize (Hall x). rewrite Ex in H0. destruct (m0 !! x) as [o0|]; [|done].
  destruct (m1 !! x) as [o1|]; [|done]. destruct H0 as [E2 _]. destruct Hall as [[E3 _] _].
  assert (attrs_of o1 = attrs_of o /\ is_const o1 = is_const o /\ is_live o1 = is_live o /\
    inputs o1 = if decide (x ∈ consumers od) then reconnect (op_id od) pid (output_def prod) <$> inputs o else inputs o) as (Ea & Ec & El & Ei)
    by (rewrite E3, E2; done).
  cbn. eexists. split; [done|]. destruct (decide (x = op_id od)); [rewrite set_dead_live, set_dead_const|]; done.
- intros x o o' c Ex Ex' Hc Hor. rewrite Hd in Ex'. specialize (H0 x). specialize (Hall x). rewrite Ex in H0. destruct (m0 !! x) as [o0|]; [|done].
  destruct (m1 !! x) as [o1|]; [|done]. cbn in Ex'. injection Ex' as <-.
  assert (c ∈ consumers o1) as Hin; [|by case_decide].
  destruct H0 as [_ H0]. destruct Hall as [[_ Hk] Hp]. destruct Hor as [Hin|(-> & Hin & Hs)]; [by apply Hk, H0|]. apply Hp; [done|done|by apply H0s].
Qed.

Lemma merge_spliced p (od src : OpNode) :
  spliced (op_id src) (fun x o => if decide (x = op_id od) then inputs src else inputs o) (opdefs p) (opdefs (merge_chain od src p)) /\
  forall x (o o' : OpNode) c, opdefs p !! x = Some o -> opdefs (merge_chain od src p) !! x = Some o' ->
    (c ∈ consumers o /\ c <> op_id src \/ c = op_id od /\ x ∈ src_id <$> inputs src) -> c ∈ consumers o'.
Proof.
unfold merge_chain. cbn [opdefs set_graph]. pose proof (hand_over_all (op_id src) (op_id od) (inputs src) (opdefs p)) as Hall.
set (m1 := foldl _ (opdefs p) (inputs src)) in *. set (m2 := alter _ (op_id od) m1).
assert (forall x, alter set_dead (op_id src) m2 !! x =
  (fun o => (if decide (x = op_id src) then set_dead else id) (if decide (x = op_id od) then set_inputs o (inputs src) else o)) <$> m1 !! x) as Hd.
{ intros x. unfold m2. destruct (decide (x = op_id src)) as [->|Hs]; [rewrite lookup_alter_eq|rewrite lookup_alter_ne by done];
  destruct (decide (_ = op_id od)) as [Ho|Ho]; [rewrite Ho, lookup_alter_eq|rewrite lookup_alter_ne by done|rewrite Ho, lookup_alter_eq|rewrite lookup_alter_ne by done];
  destruct (m1 !! _); done. }
split; [split|].
- intros x Ex. rewrite Hd. specialize (Hall x). rewrite Ex in Hall. by destruct (m1 !! x).
- intros x o Ex. rewrite Hd. specialize (Hall x). rewrite Ex in Hall. destruct (m1 !! x) as [o1|]; [|done]. destruct Hall as [E2 _].
  assert (attrs_of o1 = attrs_of o /\ is_const o1 = is_const o /\ is_live o1 = is_live o /\ inputs o1 = inputs o) as (Ea & Ec & El & Ei)
    by (rewrite E2; done).
  eexists. split; [done|]. destruct (decide (x = op_id src)); cbn [id]; [rewrite set_dead_live, set_dead_const|]; case_decide; done.
- intros x o o' c Ex Ex' Hor. rewrite Hd in Ex'. specialize (Hall x). rewrite Ex in Hall. destruct (m1 !! x) as [o1|]; [|done]. cbn in Ex'. injection Ex' as <-.
  assert (c ∈ consumers o1) as Hin by (destruct Hall as (_ & Hk & Ht); destruct Hor as [[? ?]|[-> ?]]; auto).
  repeat case_decide; done.
Qed.

Section values.
Context {V : Type} (sem : OpAttrs -> list (V * Z) -> V) (shape_of : V -> Z * list Z).

(** Values have the shape their op declares; a reshape to the shape a value
    has does nothing, a reshape of a reshape is the last one, and so is a
    transpose along the identity. *)
Record shape_laws (p : GraphPrepare) : Prop := {
  sl_shape at_ vs : shape_of (sem at_ vs) = od_shape (at_output at_);
  sl_reshape at_ v : is_reshape (at_name at_) = true -> shape_of v = od_shape (at_output at_) -> sem at_ [(v, 0)] = v;
  sl_chain at1 at2 v : is_reshape (at_name at1) = true -> is_reshape (at_name at2) = true ->
    sem at2 [(sem at1 [(v, 0)], 0)] = sem at2 [(v, 0)];
  sl_transpose (od : OpNode) v : is_transpose (name od) = true -> all_params_identity p od = true ->
    shape_of v = od_shape (output_def od) -> sem (attrs_of od) [(v, 0)] = v
}.

Lemma eval_more h m x v : eval sem h m x = Some v -> eval sem (S h) m x = Some v.
Proof.
revert x v. induction h as [|h IH]; intros x v; [done|]. cbn [eval]. destruct (m !! x) as [od|]; [|done]. destruct (is_live od); [|done].
destruct (mapM _ (inputs od)) as [vs|] eqn:E; [|done]. intros Hv.
assert (mapM (fun c => v ← eval sem (S h) m (src_id c); Some (v, out_idx c)) (inputs od) = Some vs) as E'; [|cbn [eval] in E'; by rewrite E'].
rewrite <- (list_fmap_id (inputs od)). revert E. apply mapM_transfer. intros c r _. destruct (eval sem h m (src_id c)) as [w|] eqn:Ew; [|done].
unfold id. by rewrite (IH _ w Ew).
Qed.

(** An op that reads itself has no value. *)
Lemma eval_self h m x (od : OpNode) : m !! x = Some od -> x ∈ src_id <$> inputs od -> eval sem h m x = None.
Proof.
intros E Hin. induction h as [|h IH]; [done|]. cbn [eval]. rewrite E. destruct (is_live od); [|done].
apply list_elem_of_fmap in Hin as (c & -> & Hc). destruct (mapM _ (inputs od)) as [vs|] eqn:Em; [|done]. exfalso.
apply mapM_Some in Em. apply list_elem_of_lookup in Hc as [i Hi]. destruct (Forall2_lookup_l _ _ _ _ _ Em Hi) as (r & _ & Hr).
by rewrite IH in Hr.
Qed.

Lemma eval_one h m x (od : OpNode) c v : m !! x = Some od -> inputs od = [c] -> out_idx c = 0 -> eval sem h m x = Some v ->
  exists h' u, h = S h' /\ eval sem h' m (src_id c) = Some u /\ v = sem (attrs_of od) [(u, 0)].
Proof.
intros E Ei Eo. destruct h as [|h]; [done|]. cbn [eval]. rewrite E, Ei. destruct (is_live od); [|done]. cbn.
destruct (eval sem h m (src_id c)) as [u|] eqn:Eu; [|done]. cbn. rewrite Eo. intros [= <-]. by exists h, u.
Qed.

Lemma eval_has_shape p h x (od : OpNode) v : shape_laws p -> opdefs p !! x = Some od -> eval sem h (opdefs p) x = Some v ->
  shape_of v = od_shape (output_def od).
Proof.
intros Hl E. destruct h as [|h]; [done|]. cbn [eval]. rewrite E. destruct (is_live od); [|done]. destruct (mapM _ _) as [vs|]; [|done].
cbn. intros [= <-]. apply (sl_shape p Hl).
Qed.

(** What a change keeps; the values are those of the ops that stay. *)
Record keeps (p p' : GraphPrepare) : Prop := {
  kp_complete : complete (opdefs p');
  kp_plain : plain_reads (opdefs p');
  kp_laws : shape_laws p';
  kp_live x : live_at (opdefs p') x = true -> live_at (opdefs p) x = true;
  kp_stay x (od : OpNode) : opdefs p !! x = Some od -> is_live od = true -> is_plain (name od) = true -> live_at (opdefs p') x = true;
  kp_names x (od : OpNode) : opdefs p !! x = Some od -> exists od' : OpNode, opdefs p' !! x = Some od' /\ name od' = name od;
  kp_value h x v : live_at (opdefs p') x = true -> eval sem h (opdefs p) x = Some v -> eval sem h (opdefs p') x = Some v
}.

Lemma keeps_refl p : complete (opdefs p) -> plain_reads (opdefs p) -> shape_laws p -> keeps p p.
Proof. intros Hc Hp Hl. split; try done; [intros x od E Hlv _; unfold live_at; by rewrite E|by eauto]. Qed.

Lemma keeps_trans p1 p2 p3 : keeps p1 p2 -> keeps p2 p3 -> keeps p1 p3.
Proof.
intros K1 K2. split; try apply K2.
- intros x Hx. by apply K1, K2.
- intros x od E Hl Hp. pose proof (kp_stay _ _ K1 x od E Hl Hp) as H2. destruct (kp_names _ _ K1 x od E) as (od2 & E2 & En).
  unfold live_at in H2. rewrite E2 in H2. apply (kp_stay _ _ K2 x od2); [done|done|by rewrite En].
- intros x od E. destruct (kp_names _ _ K1 x od E) as (od2 & E2 & En). destruct (kp_names _ _ K2 x od2 E2) as (od3 & E3 & En3).
  exists od3. split; [done|congruence].
- intros h x v Hx Hv. apply (kp_value _ _ K2); [done|]. apply (kp_value _ _ K1); [by apply K2|done].
Qed.

Section splice.
Context (gone : op_id_t) (ins : op_id_t -> OpNode -> list InputConn) (p p' : GraphPrepare).
Context (Hs : spliced gone ins (opdefs p) (opdefs p')) (Hpool : const_pool p' = const_pool p).
Context (Hc : complete (opdefs p)) (Hpl : plain_reads (opdefs p)) (Hl : shape_laws p).

Lemma splice_live x : live_at (opdefs p') x = true -> x <> gone /\ live_at (opdefs p) x = true.
Proof.
unfold live_at. destruct (opdefs p' !! x) as [od'|] eqn:E; [|done]. intros Hlv.
destruct (sp_back _ _ _ _ _ _ Hs E) as (od & -> & _ & _ & _ & El). rewrite El in Hlv. by case_decide.
Qed.

(** What is left to show of a splice. *)
Lemma splice_keeps :
  complete (opdefs p') -> plain_reads (opdefs p') ->
  (forall od : OpNode, opdefs p !! gone = Some od -> is_plain (name od) = false) ->
  (forall h x v, x <> gone -> eval sem h (opdefs p) x = Some v -> eval sem h (opdefs p') x = Some v) -> keeps p p'.
Proof.
intros Hc' Hp' Hg He. split; try done.
- split; try apply Hl. intros od v Ht Hi. rewrite (spliced_params gone ins p p' od Hs Hpool) in Hi. by apply (sl_transpose p Hl).
- intros x Hx. by apply splice_live.
- intros x od E Hlv Hpn. destruct (sp_some _ _ _ _ Hs x od E) as (od' & E' & _ & _ & _ & El). unfold live_at. rewrite E', El.
  rewrite decide_False; [done|]. intros ->. rewrite (Hg od E) in Hpn. done.
- intros x od E. destruct (sp_some _ _ _ _ Hs x od E) as (od' & E' & Ha & _). exists od'. split; [done|]. exact (f_equal at_name Ha).
- intros h x v [Hne _]%splice_live. by apply He.
Qed.
End splice.

(** ** An op that changes nothing goes *)

Section rewire.
Context (p : GraphPrepare) (od src : OpNode) (c : InputConn).
Context (Hw : graph_wf p) (Hc : complete (opdefs p)) (Hpl : plain_reads (opdefs p)) (Hl : shape_laws p).
Context (E : opdefs p !! op_id od = Some od) (Ei : inputs od = [c]) (Es : opdefs p !! src_id c = Some src).
Context (Hod : is_reshape (name od) = true \/ is_transpose (name od) = true /\ all_params_identity p od = true).
Context (Heq : od_equal (output_def src) (output_def od) = true).

Let ins (x : op_id_t) (o : OpNode) : list InputConn :=
  if decide (x ∈ consumers od) then reconnect (op_id od) (src_id c) (output_def src) <$> inputs o else inputs o.

Lemma one_output : out_idx c = 0.
Proof.
destruct (Hpl _ _ E) as [H1 H2]. destruct Hod as [Hr|[Ht _]].
- destruct (H1 Hr) as (c' & Ec & Hx). rewrite Ei in Ec. by injection Ec as ->.
- apply H2; [done|]. rewrite Ei. left.
Qed.

(** The op's value is that of its source. *)
Lemma same_value h v : eval sem h (opdefs p) (op_id od) = Some v -> eval sem h (opdefs p) (src_id c) = Some v.
Proof.
intros Hv. destruct (eval_one h _ _ od c v E Ei one_output Hv) as (h' & u & -> & Hu & ->).
assert (shape_of u = od_shape (output_def od)) as Hsh.
{ rewrite <- (od_equal_shape _ _ Heq). by eapply eval_has_shape. }
assert (sem (attrs_of od) [(u, 0)] = u) as ->; [|by apply eval_more].
destruct Hod as [Hr|[Ht Hi]]; [by apply (sl_reshape p Hl)|by apply (sl_transpose p Hl)].
Qed.

Lemma rewire_keeps : keeps p (rewire_consumers od (src_id c) p).
Proof.
destruct (rewire_spliced p od src (src_id c) Es) as [Hs Hcons]. fold ins in Hs. set (p' := rewire_consumers od (src_id c) p) in *.
apply (splice_keeps (op_id od) ins); [done|done|done| | | |].
- intros x ox' id s' Ex Hlx Hin Es'.
  destruct (sp_back _ _ _ _ _ _ Hs Ex) as (ox & Eox & _ & _ & Eins & Elx). rewrite Elx in Hlx. case_decide as Hne; [done|].
  destruct (sp_back _ _ _ _ _ _ Hs Es') as (s & Eos & _). apply (Hcons id s s' x Eos Es' Hne).
  rewrite Eins in Hin. unfold ins in Hin. case_decide as Hx.
  + apply list_elem_of_fmap in Hin as (k & -> & Hk). apply list_elem_of_fmap in Hk as (k0 & -> & Hk0). unfold reconnect in *.
    destruct (src_id k0 =? op_id od) eqn:Ek; bool_prop.
    * right. split; [done|]. split; [done|]. by exists ox.
    * left. apply (Hc x ox (src_id k0) s Eox Hlx); [by apply list_elem_of_fmap_2|done].
  + left. by apply (Hc x ox id s Eox Hlx).
- intros x ox' Ex. destruct (sp_back _ _ _ _ _ _ Hs Ex) as (ox & Eox & Ha & _ & Eins & _). destruct (Hpl x ox Eox) as [H1 H2].
  assert (name ox' = name ox) as -> by exact (f_equal at_name Ha). rewrite Eins. unfold ins. split.
  + intros Hr. destruct (H1 Hr) as (k & Ek & Hk). rewrite Ek. case_decide; [|by exists k]. eexists. split; [done|]. unfold reconnect. by case_match.
  + intros Ht. case_decide; [|by apply H2]. intros k Hk. apply list_elem_of_fmap in Hk as (k0 & -> & Hk0). unfold reconnect.
    case_match; [cbn|]; by apply H2.
- intros o Eo. replace o with od by congruence. unfold is_plain. destruct Hod as [->|[-> _]]; [done|by rewrite andb_false_r].
- induction h as [|h IH]; intros x v Hne; [done|]. cbn [eval]. destruct (opdefs p !! x) as [ox|] eqn:Ex; [|done].
  destruct (sp_some _ _ _ _ Hs x ox Ex) as (ox' & Ex' & Ha & _ & Eins & Elx). rewrite Ex', Elx, Ha, decide_False by done.
  destruct (is_live ox) eqn:Hlx; [|done]. destruct (mapM _ (inputs ox)) as [vs|] eqn:Em; [|done]. intros Hv.
  assert (forall k r, k ∈ inputs ox -> (v ← eval sem h (opdefs p) (src_id k); Some (v, out_idx k)) = Some r ->
    (v ← eval sem h (opdefs p') (src_id (reconnect (op_id od) (src_id c) (output_def src) k));
     Some (v, out_idx (reconnect (op_id od) (src_id c) (output_def src) k))) = Some r) as Hrec.
  { intros k r Hk. unfold reconnect. destruct (eval sem h (opdefs p) (src_id k)) as [w|] eqn:Ew; [|done]. cbn [mbind option_bind]. intros [= <-].
    destruct (src_id k =? op_id od) eqn:Ek; bool_prop; cbn [src_id out_idx].
    - rewrite Ek in Ew. rewrite (IH (src_id c) w); [done| |by apply same_value]. intros Hself.
      rewrite (eval_self h _ _ od E) in Ew; [done|]. rewrite Ei. cbn. rewrite Hself. left.
    - by rewrite (IH (src_id k) w). }
  assert (mapM (fun k => v ← eval sem h (opdefs p') (src_id k); Some (v, out_idx k)) (inputs ox') = Some vs) as ->; [|done].
  rewrite Eins. unfold ins. destruct (decide (x ∈ consumers od)) as [Hx|Hx]; [exact (mapM_transfer _ _ _ _ _ Hrec Em)|].
  rewrite <- (list_fmap_id (inputs ox)). revert Em. apply mapM_transfer. intros k r Hk Hr. specialize (Hrec k r Hk Hr). unfold id.
  unfold reconnect in Hrec. destruct (src_id k =? op_id od) eqn:Ek; [|done]. bool_prop. exfalso. apply Hx.
  eapply (Hc x ox (op_id od) od Ex Hlx); [|done]. rewrite <- Ek. by apply list_elem_of_fmap_2.
Qed.
End rewire.

(** ** A chain of two reshapes becomes one *)

Section chain.
Context (p : GraphPrepare) (od src : OpNode) (c : InputConn).
Context (Hw : graph_wf p) (Hc : complete (opdefs p)) (Hpl : plain_reads (opdefs p)) (Hl : shape_laws p).
Context (E : opdefs p !! op_id od = Some od) (Ei : inputs od = [c]) (Es : opdefs p !! src_id c = Some src).
Context (Hlv : is_live od = true) (Hod : is_reshape (name od) = true) (Hsr : is_reshape (name src) = true) (Hone : length (consumers src) = 1%nat).

Let ins (x : op_id_t) (o : OpNode) : list InputConn := if decide (x = op_id od) then inputs src else inputs o.

Lemma src_named : op_id src = src_id c.
Proof. by apply (wf_ids p Hw). Qed.

(** Nobody else reads the source. *)
Lemma only_reader x (ox : OpNode) : opdefs p !! x = Some ox -> is_live ox = true -> src_id c ∈ src_id <$> inputs ox -> x = op_id od.
Proof.
intros Ex Hlx Hin. pose proof (Hc x ox (src_id c) src Ex Hlx Hin Es) as H1.
assert (op_id od ∈ consumers src) as H2 by (eapply (Hc _ od (src_id c) src E Hlv); [rewrite Ei; left|done]).
destruct (consumers src) as [|a [|b l]]; [done| |done]. apply list_elem_of_singleton in H1, H2. congruence.
Qed.

Lemma chain_keeps : keeps p (merge_chain od src p).
Proof.
destruct (merge_spliced p od src) as [Hs Hcons]. fold ins in Hs. set (p' := merge_chain od src p) in *. pose proof src_named as Hsn.
destruct (proj1 (Hpl _ _ Es) Hsr) as (k0 & Ek0 & Ho0).
assert (out_idx c = 0) as Hoc by (destruct (proj1 (Hpl _ _ E) Hod) as (c' & Ec' & Hx); rewrite Ei in Ec'; by injection Ec' as ->).
apply (splice_keeps (op_id src) ins); [done|done|done| | | |].
- intros x ox' id s' Ex Hlx Hin Es'.
  destruct (sp_back _ _ _ _ _ _ Hs Ex) as (ox & Eox & _ & _ & Eins & Elx). rewrite Elx in Hlx. case_decide as Hne; [done|].
  destruct (sp_back _ _ _ _ _ _ Hs Es') as (s & Eos & _). apply (Hcons id s s' x Eos Es').
  rewrite Eins in Hin. unfold ins in Hin. case_decide as Hx; [by right|]. left. split; [by apply (Hc x ox id s Eox Hlx)|done].
- intros x ox' Ex. destruct (sp_back _ _ _ _ _ _ Hs Ex) as (ox & Eox & Ha & _ & Eins & _). destruct (Hpl x ox Eox) as [H1 H2].
  assert (name ox' = name ox) as -> by exact (f_equal at_name Ha). rewrite Eins. unfold ins. case_decide as Hx; [|done]. split.
  + intros _. by exists k0.
  + intros _ k Hk. rewrite Ek0 in Hk. apply list_elem_of_singleton in Hk. by subst.
- intros o Eo. rewrite Hsn in Eo. replace o with src by congruence. unfold is_plain. by rewrite Hsr.
- induction h as [|h IH]; intros x v Hne; [done|]. cbn [eval]. destruct (opdefs p !! x) as [ox|] eqn:Ex; [|done].
  destruct (sp_some _ _ _ _ Hs x ox Ex) as (ox' & Ex' & Ha & _ & Eins & Elx). rewrite Ex', Elx, Ha, decide_False by done.
  destruct (is_live ox) eqn:Hlx; [|done]. intros Hv. rewrite Eins. unfold ins. destruct (decide (x = op_id od)) as [->|Hx].
  + replace ox with od in * by congruence. rewrite Ei in Hv. cbn in Hv. destruct (eval sem h (opdefs p) (src_id c)) as [w|] eqn:Ew; [|done].
    cbn in Hv. rewrite Hoc in Hv. injection Hv as <-.
    destruct (eval_one h _ _ src k0 w Es Ek0 Ho0 Ew) as (h' & u & -> & Hu & ->).
    assert (src_id k0 <> op_id src) as Hk0.
    { rewrite Hsn. intros Hself. rewrite (eval_self (S h') _ _ src Es) in Ew; [done|]. rewrite Ek0. cbn. rewrite Hself. left. }
    rewrite Ek0. cbn [mapM mbind option_bind]. rewrite (IH (src_id k0) u Hk0) by (by apply eval_more). cbn. rewrite Ho0. f_equal.
    symmetry. by apply (sl_chain p Hl).
  + destruct (mapM _ (inputs ox)) as [vs|] eqn:Em; [|done].
    assert (mapM (fun k => v ← eval sem h (opdefs p') (src_id k); Some (v, out_idx k)) (inputs ox) = Some vs) as ->; [|done].
    rewrite <- (list_fmap_id (inputs ox)). revert Em. apply mapM_transfer. intros k r Hk. unfold id.
    destruct (eval sem h (opdefs p) (src_id k)) as [w|] eqn:Ew; [|done]. rewrite (IH (src_id k) w); [done| |done].
    rewrite Hsn. intros Hself. apply Hx, (only_reader x ox Ex Hlx). rewrite <- Hself. by apply list_elem_of_fmap_2.
Qed.
End chain.

(** One change of the pass. *)
Lemma shape_rewrite_keeps p (od : OpNode) p' n : graph_wf p -> complete (opdefs p) -> plain_reads (opdefs p) -> shape_laws p ->
  opdefs p !! op_id od = Some od -> shape_rewrite p od = Some (p', n) -> keeps p p'.
Proof.
intros Hw Hc Hpl Hl E. unfold shape_rewrite. pose proof (keeps_refl p Hc Hpl Hl) as Hrefl.
destruct (match_pattern p od) eqn:Ep; [by intros [= <- <-]|..]; unfold match_pattern in Ep; destruct (workable od) eqn:Ewk; try done;
  cbn [negb] in Ep; pose proof (workable_live _ Ewk) as Hlv; destruct (inputs od) as [|c [|c2 l]] eqn:Ei; try done;
  destruct (opdefs p !! src_id c) as [src|] eqn:Es; try done; destruct (is_live src); try done; cbn [negb] in Ep;
  intros [= <- <-]; destruct (is_reshape (name od)) eqn:Er.
- destruct (_ && _); [done|]. destruct (od_equal _ _) eqn:Eq; [|done]. by apply (rewire_keeps p od src c); auto.
- by repeat case_match.
- destruct (is_reshape (name src) && _) eqn:Ech; [|by case_match]. apply andb_true_iff in Ech as [Esr Eone%Nat.eqb_eq].
  by apply (chain_keeps p od src c).
- by repeat case_match.
- by repeat case_match.
- destruct (is_transpose (name od)) eqn:Et; [|done]. destruct (od_equal _ _) eqn:Eq; [|done]. cbn [andb] in Ep.
  destruct (all_params_identity p od) eqn:Epi; [|done]. by apply (rewire_keeps p od src c); auto.
Qed.
End values.

(** * Claims *)

(** Every pass is one of the built-in ones, switched on or off. *)
Definition registered execute (m : PassManager) : Prop :=
  forall g, g ∈ passes m -> exists g0, g0 ∈ [const_fold execute; shape_fold] ++ (fusion_pass <$> kLegacyFusionRules) /\
    phase g = phase g0 /\ matcher g = matcher g0 /\ rewrite g = rewrite g0.

Lemma registered_same execute m m' : registered execute m -> Forall2 same_rule (passes m) (passes m') -> registered execute m'.
Proof.
intros Hm H2 g Hg. apply list_elem_of_lookup in Hg as [i Hi]. destruct (Forall2_lookup_r _ _ _ _ _ H2 Hi) as (g1 & Hg1 & Hs).
destruct (Hm g1) as (g0 & Hin & E1 & E2 & E3); [by eapply list_elem_of_lookup_2|]. destruct Hs as (_ & S1 & S2 & S3 & _).
exists g0. split; [done|]. split_and!; congruence.
Qed.

Definition builtin execute : list GraphPass := [const_fold execute; shape_fold] ++ (fusion_pass <$> kLegacyFusionRules).

Lemma add_pass_registered execute g m : registered execute m -> g ∈ builtin execute -> registered execute (fst (add_pass g m)).
Proof.
intros Hm Hg. unfold add_pass. destruct (existsb _ _); [done|]. intros x. cbn. intros [Hx| ->%list_elem_of_singleton]%elem_of_app; [by apply Hm|].
exists g. split; [exact Hg|]. by repeat case_bool_decide.
Qed.

Lemma builtin_registered execute m : registered execute m -> registered execute (register_builtin_passes execute m).
Proof.
unfold register_builtin_passes. fold (builtin execute). assert (forall l m, (forall g, g ∈ l -> g ∈ builtin execute) -> registered execute m ->
  registered execute (foldl (fun m g => fst (add_pass g m)) m l)) as Hgo; [|by apply Hgo].
induction l as [|g l IH]; intros m' Hl Hm; [done|]. cbn [foldl]. apply IH; [intros x Hx; apply Hl; by right|].
apply add_pass_registered; [done|apply Hl; left].
Qed.

Lemma registered_descends execute m : registered execute m -> Forall descends (passes m).
Proof.
intros Hm. apply Forall_forall. intros g Hg. destruct (Hm g Hg) as (g0 & Hin & _ & Em & Er).
assert (descends g0) as Hd.
{ apply elem_of_app in Hin as [Hin|Hin].
  - rewrite !elem_of_cons in Hin. destruct Hin as [->|[->|[]%not_elem_of_nil]]; [apply const_fold_descends|apply shape_fold_descends].
  - apply list_elem_of_fmap in Hin as (r & -> & Hr). by apply fusion_descends. }
intros mt rw U p od p' n H1 H2. apply (Hd mt rw U p od p' n); congruence.
Qed.

Lemma shape_rewrite_defined p od : shape_rewrite p od <> None.
Proof.
unfold shape_rewrite. destruct (match_pattern p od) eqn:E; [done|..]; unfold match_pattern in E; destruct (negb (workable od)); try done;
  destruct (inputs od) as [|c [|]]; try done; by destruct (opdefs p !! src_id c).
Qed.

Lemma fuse_pair_defined r p od : fuse_pair r p od <> None.
Proof. unfold fuse_pair. by repeat case_match. Qed.

(** Only constant folding can be undefined. *)
Lemma undefined_phase execute ph m p : registered execute m -> undefined_at ph (passes m) p -> ph = 3000.
Proof.
intros Hm (od & rw & (g & mt & Hg & Ha & _ & Hr & _) & Hn). destruct (Hm g Hg) as (g0 & Hin & Eph & _ & Er).
rewrite Er in Hr. unfold active in Ha. rewrite !andb_true_iff in Ha. destruct Ha as ((Hph%Z.eqb_eq & _) & _). rewrite Eph in Hph.
apply elem_of_app in Hin as [Hin|Hin].
- rewrite !elem_of_cons in Hin. destruct Hin as [->|[->|[]%not_elem_of_nil]]; [by rewrite <- Hph|].
  injection Hr as <-. by apply shape_rewrite_defined in Hn.
- apply list_elem_of_fmap in Hin as (r & -> & _). injection Hr as <-. by apply fuse_pair_defined in Hn.
Qed.

Lemma fixpoint_ends p : graph_wf p -> exists p', run_phase_fixpoint (2 * length (keys p) + 2) p = Some p' /\ graph_wf p' /\ settled p' /\ graph_dirty p' = false.
Proof.
intros Hw. destruct (fixpoint_ok (2 * length (keys p) + 2) p Hw) as (p' & Hrun & Hr & Hset & Hdirty).
{ unfold unordered. repeat case_match; lia. }
exists p'. split; [apply Hrun; lia|]. split; [apply Hr|done].
Qed.

(** One phase with its cleaning. *)
Lemma phase_ends execute ph m p : graph_wf p -> registered execute m ->
  exists r, phase_and_clean ph (m, p) = Some r /\
    match r with
    | None => ph = 3000 /\ exists q, rtc (pass_step ph (passes m)) p q /\ undefined_at ph (passes m) q
    | Some (m', p') => graph_wf p' /\ registered execute m' /\ Forall2 same_rule (passes m) (passes m')
    end.
Proof.
intros Hw Hm. destruct (run_phase_ok ph m p Hw (registered_descends _ _ Hm)) as (r & E & Hr). unfold phase_and_clean. rewrite E. cbn [mbind option_bind].
destruct r as [[[m' p'] n]|].
- destruct Hr as (H2 & _ & Hw' & _). pose proof (registered_same _ _ _ Hm H2). destruct (0 <? n).
  + destruct (fixpoint_ends p' Hw') as (p2 & -> & Hw2 & _). cbn [mbind option_bind]. by eexists.
  + by eexists.
- eexists. split; [done|]. destruct Hr as (q & Hq & Hu). split; [by eapply undefined_phase|]. by exists q.
Qed.


(** C14: the optimisation passes end on every well-formed graph, whatever
    the host kernels compute and whichever of the built-in passes are on.
    Either constant folding has met an undefined operation, or a well-formed
    graph is left on which dead code removal, ordering and common
    subexpression elimination have nothing more to do. *)
Theorem run_optimize_passes_ends execute m p :
  graph_wf p -> registered execute m ->
  exists r, run_optimize_passes m p = Some r /\
    match r with
    | None => exists q, rtc (pass_step 3000 (passes (reset_stats m))) p q /\ undefined_at 3000 (passes (reset_stats m)) q
    | Some (_, p') => graph_wf p' /\ settled p' /\ graph_dirty p' = false
    end.
Proof.
intros Hw Hm. unfold run_optimize_passes.
assert (registered execute (reset_stats m)) as Hm0 by (apply (registered_same _ m); [done|]; cbn; induction (passes m) as [|g l IH]; [done|]; cbn; by constructor).
destruct (phase_ends execute 3000 _ p Hw Hm0) as (r1 & E1 & H1). rewrite E1. destruct r1 as [[m1 p1]|]; [|destruct H1 as [_ H1]; by eexists].
destruct H1 as (Hw1 & Hm1 & _). cbn [then_run mbind option_bind].
destruct (phase_ends execute 10190 m1 p1 Hw1 Hm1) as (r2 & E2 & H2). rewrite E2. destruct r2 as [[m2 p2]|]; [|by destruct H2].
destruct H2 as (Hw2 & Hm2 & _). cbn [then_run mbind option_bind].
destruct (phase_ends execute 12492 m2 p2 Hw2 Hm2) as (r3 & E3 & H3). rewrite E3. destruct r3 as [[m3 p3]|]; [|by destruct H3].
destruct H3 as (Hw3 & _). cbn [then_run mbind option_bind].
set (p4 := if count_live p3 <=? 21101 then fst (const_prop_and_cse p3) else p3). assert (graph_wf p4) as Hw4.
{ unfold p4. case_match; [|done]. unfold const_prop_and_cse, const_prop. destruct (cse_refines p3 Hw3) as (q & n & -> & Hr & _). apply Hr. }
assert (exists p5, (if count_live p3 <=? 24999 then run_phase_fixpoint (2 * length (keys p4) + 2) p4 else Some p4) = Some p5 /\ graph_wf p5) as (p5 & -> & Hw5).
{ case_match; [|by exists p4]. destruct (fixpoint_ends p4 Hw4) as (q & -> & Hq & _). by exists q. }
cbn [mbind option_bind]. destruct (fixpoint_ends p5 Hw5) as (p6 & -> & H6). cbn [mbind option_bind]. by eexists.
Qed.

(** C13: folding shapes keeps the values of a well-formed graph with complete
    consumer lists whose reshapes have one input, which is output 0 of its
    source, and whose transposes read outputs 0 only.  Under the laws of
    reshapes and identity transposes, the phase ends on a well-formed graph
    with complete consumer lists; it brings no op to life and removes
    reshapes and transposes only; and every op that is left computes the
    value it had.  (Without the condition on the reads it does not:
    [folding_loses_output].) *)
Theorem shape_phase_preserves_values {V} (sem : OpAttrs -> list (V * Z) -> V) shape_of execute m p :
  graph_wf p -> complete (opdefs p) -> plain_reads (opdefs p) -> shape_laws sem shape_of p -> registered execute m ->
  exists m' p' n, run_phase 10190 m p = Some (Some (m', p', n)) /\ graph_wf p' /\ complete (opdefs p') /\
    (forall x, live_at (opdefs p') x = true -> live_at (opdefs p) x = true) /\
    (forall x (od : OpNode), opdefs p !! x = Some od -> is_live od = true -> is_plain (name od) = true -> live_at (opdefs p') x = true) /\
    (forall h x v, live_at (opdefs p') x = true -> eval sem h (opdefs p) x = Some v -> eval sem h (opdefs p') x = Some v).
Proof.
intros Hw Hc Hpl Hl Hm. destruct (run_phase_ok 10190 m p Hw (registered_descends _ _ Hm)) as (r & E & Hr).
destruct r as [[[m' p'] n]|]; [|destruct Hr as (q & _ & Hu); by apply (undefined_phase execute) in Hu]. destruct Hr as (_ & Hsteps & Hw' & _).
exists m', p', n. split; [done|]. split; [done|].
assert (keeps sem shape_of p p') as K; [|split; [apply K|]; split; [apply K|]; split; apply K].
clear E Hw'. revert Hw Hc Hpl Hl. induction Hsteps as [p|p q p' Hst Hsteps IH]; intros Hw Hc Hpl Hl; [by apply keeps_refl|].
destruct Hst as (od & rw & k & (g & mt & Hg & Ha & Em & Er & Hmt & Eod & Hwk) & Erw & Hk).
pose proof (proj1 (Forall_forall _ _) (registered_descends _ _ Hm) g Hg mt rw (graph_ids p) p od q k Em Er Hw
  (proj1 (proj2 (graph_ids_spec p Hw))) (proj2 (proj2 (graph_ids_spec p Hw))) Eod Hwk Hmt Erw) as Hde.
rewrite (proj2 (Z.ltb_lt 0 k) Hk) in Hde.
destruct (Hm g Hg) as (g0 & Hin & Eph & _ & Er0). unfold active in Ha. rewrite !andb_true_iff in Ha. destruct Ha as ((Hph%Z.eqb_eq & _) & _).
rewrite Eph in Hph. assert (rw = shape_rewrite) as ->.
{ rewrite Er0 in Er. apply elem_of_app in Hin as [Hin|Hin].
  - rewrite !elem_of_cons in Hin. destruct Hin as [->|[->|[]%not_elem_of_nil]]; [done|by injection Er as <-].
  - by apply list_elem_of_fmap in Hin as (r & -> & _). }
pose proof (shape_rewrite_keeps sem shape_of p od q k Hw Hc Hpl Hl Eod Erw) as K.
eapply keeps_trans; [exact K|]. apply IH; [apply Hde|apply K..].
Qed.

(** ** Instances *)

Definition demo_def (l : list Z) : OutputDef := mkOutputDef (Z.of_nat (length l)) 0 l 4.
Definition demo_node (id : op_id_t) (nm : string) (l : list Z) (ins cons : list op_id_t) : OpNode :=
  mkNode (mkOpDef id 1 (Some nm) (demo_def l) ((fun s => mkInputConn s 0 zero_def) <$> ins) cons) [] [] 0 0.

(** An identity reshape and a chain of two reshapes. *)
Definition shapes_ops : list OpNode :=
  [demo_node 1 "Input" [2; 3] [] [2]; demo_node 2 "Reshape" [2; 3] [1] [3]; demo_node 3 "Softmax" [2; 3] [2] [4];
   demo_node 4 "Reshape" [6] [3] [5]; demo_node 5 "Reshape" [3; 2] [4] [6]; demo_node 6 "Output" [3; 2] [5] []].
Definition shapes_graph : GraphPrepare := graph_from shapes_ops 1 6.

Definition demo_manager : PassManager := register_builtin_passes (fun _ _ _ _ => None) (mkManager [] [] [] 0 0).

(** Shape and number; reshapes and transposes keep the number. *)
Definition shape_sem (at_ : OpAttrs) (vs : list ((Z * list Z) * Z * Z)) : (Z * list Z) * Z :=
  (od_shape (at_output at_),
   if is_plain (at_name at_) then 1 + sum_by (fun v => v.1.2) vs else match vs with [(v, _)] => v.2 | _ => 0 end).

Lemma shape_sem_laws p : shape_laws shape_sem fst p.
Proof.
split.
- done.
- intros at_ [sh v] Hr Hs. unfold shape_sem, is_plain. rewrite Hr. cbn in *. by rewrite <- Hs.
- intros at1 at2 [sh v] H1 H2. unfold shape_sem, is_plain. by rewrite H1, H2.
- intros od [sh v] Ht _ Hs. unfold shape_sem, is_plain. cbn [attrs_of at_name at_output]. rewrite Ht, andb_false_r. cbn in *. by rewrite <- Hs.
Qed.

Lemma shapes_wf : graph_wf shapes_graph.
Proof. apply graph_from_wf. apply (bool_decide_unpack _). by vm_compute. Qed.

Lemma shapes_complete : complete (opdefs shapes_graph).
Proof. apply (graph_from_complete shapes_ops 1 6); by vm_compute. Qed.

Definition plain_check (od : OpNode) : bool :=
  (if is_reshape (name od) then match inputs od with [c] => out_idx c =? 0 | _ => false end else true) &&
  (if is_transpose (name od) then forallb (fun c => out_idx c =? 0) (inputs od) else true).

Lemma graph_from_plain ops i o : forallb plain_check ops = true -> plain_reads (opdefs (graph_from ops i o)).
Proof.
intros Hc x od [Hin _]%(graph_from_lookup ops i o). rewrite forallb_forall in Hc. specialize (Hc od ltac:(by apply list_elem_of_In)).
unfold plain_check in Hc. apply andb_true_iff in Hc as [H1 H2]. split; intros Hn; rewrite Hn in *.
- destruct (inputs od) as [|c [|]]; try done. exists c. by bool_prop.
- intros c Hcin. rewrite forallb_forall in H2. apply Z.eqb_eq, H2. by apply list_elem_of_In.
Qed.

Lemma shapes_plain : plain_reads (opdefs shapes_graph).
Proof. apply graph_from_plain. by vm_compute. Qed.

Lemma demo_registered : registered (fun _ _ _ _ => None) demo_manager.
Proof. apply builtin_registered. intros g Hg. by apply not_elem_of_nil in Hg. Qed.

(** A reshape of output 1 of its source.  Its readers are rewired to output 0
    of the source. *)
Definition second_output_ops : list OpNode :=
  [demo_node 1 "Input" [2; 3] [] [2];
   mkNode (mkOpDef 2 1 (Some "Reshape"%string) (demo_def [2; 3]) [mkInputConn 1 1 zero_def] [3]) [] [] 0 0;
   demo_node 3 "Output" [2; 3] [2] []].
Definition second_output_graph : GraphPrepare := graph_from second_output_ops 1 3.

(** As [shape_sem], and output [i] of a value is [i] more. *)
Definition output_sem (at_ : OpAttrs) (vs : list ((Z * list Z) * Z * Z)) : (Z * list Z) * Z :=
  (od_shape (at_output at_),
   if is_plain (at_name at_) then 1 + sum_by (fun v => v.1.2 + v.2) vs else match vs with [(v, i)] => v.2 + i | _ => 0 end).

Lemma output_sem_laws p : shape_laws output_sem fst p.
Proof.
split.
- done.
- intros at_ [sh v] Hr Hs. unfold output_sem, is_plain. rewrite Hr. cbn in *. by rewrite <- Hs, Z.add_0_r.
- intros at1 at2 [sh v] H1 H2. unfold output_sem, is_plain. rewrite H1, H2. cbn. by rewrite !Z.add_0_r.
- intros od [sh v] Ht _ Hs. unfold output_sem, is_plain. cbn [attrs_of at_name at_output]. rewrite Ht, andb_false_r. cbn in *.
  by rewrite <- Hs, Z.add_0_r.
Qed.

(** Folding a reshape forgets which output of its source it reads: on a
    well-formed graph with complete consumer lists and a meaning that obeys
    the laws, the value of op 3 changes from 3 to 2. *)
Theorem folding_loses_output :
  graph_wf second_output_graph /\ complete (opdefs second_output_graph) /\ shape_laws output_sem fst second_output_graph /\
  eval output_sem 4 (opdefs second_output_graph) 3 = Some ((2, [2; 3]), 3) /\
  match run_phase 10190 demo_manager second_output_graph with
  | Some (Some (_, p, n)) => n = 1 /\ live_at (opdefs p) 3 = true /\ eval output_sem 4 (opdefs p) 3 = Some ((2, [2; 3]), 2)
  | _ => False
  end.
Proof.
split_and!; [|by apply graph_from_complete; vm_compute|apply output_sem_laws|by vm_compute|by vm_compute].
apply graph_from_wf. apply (bool_decide_unpack _). by vm_compute.
Qed.

(** Two ops are left between the input and the output. *)
Lemma shape_phase_preserves_values_witness :
  exists m' p' n, run_phase 10190 demo_manager shapes_graph = Some (Some (m', p', n)) /\ n = 2 /\
    filter (fun x => live_at (opdefs p') x = true) (keys p') = [1; 3; 5; 6] /\
    eval shape_sem 6 (opdefs p') 6 = Some ((2, [3; 2]), 3).
Proof.
destruct (shape_phase_preserves_values shape_sem fst (fun _ _ _ _ => None) demo_manager shapes_graph shapes_wf shapes_complete shapes_plain
  (shape_sem_laws _) demo_registered) as (m' & p' & n & E & _ & _ & _ & Hstay & Hv).
exists m', p', n. split; [exact E|].
assert (match run_phase 10190 demo_manager shapes_graph with
  | Some (Some (_, p, n)) => Some (n, filter (fun x => live_at (opdefs p) x = true) (keys p)) | _ => None end = Some (2, [1; 3; 5; 6])) as Ev
  by (vm_compute; reflexivity).
rewrite E in Ev. injection Ev as En Ef. split; [exact En|]. split; [exact Ef|].
apply Hv; [|vm_compute; reflexivity]. apply (Hstay 6 (demo_node 6 "Output" [3; 2] [5] [])); vm_compute; reflexivity.
Defined.

(** The whole run settles with four ops in order; the dead ones stay in the
    map, where nothing looks at them. *)
Lemma run_optimize_passes_ends_witness :
  exists m' p', run_optimize_passes demo_manager shapes_graph = Some (Some (m', p')) /\ node_order p' = [1; 3; 5; 6] /\ settled p'.
Proof.
destruct (run_optimize_passes_ends (fun _ _ _ _ => None) demo_manager shapes_graph shapes_wf demo_registered) as (r & E & Hr).
assert (match run_optimize_passes demo_manager shapes_graph with Some (Some (_, p)) => Some (node_order p) | _ => None end = Some [1; 3; 5; 6]) as Ev
  by (vm_compute; reflexivity).
rewrite E in Ev. destruct r as [[m' p']|]; [|discriminate Ev]. injection Ev as Ek.
exists m', p'. split; [exact E|]. split; [exact Ek|]. exact (proj1 (proj2 Hr)).
Defined.

(** Fusing a [Relu] into a [MatMul] leaves a plain [MatMul]. *)
Example relu_is_lost :
  (fun p => (fun od : OpNode => (name od, src_id <$> inputs od)) <$> opdefs p !! 3) <$>
    (fst <$> fuse_pair (mkRule "MatMul" "Relu" "MatMul")
      (graph_from [demo_node 1 "Input" [2; 3] [] [2]; demo_node 2 "MatMul" [2; 3] [1] [3]; demo_node 3 "Relu" [2; 3] [2] []] 1 3)
      (demo_node 3 "Relu" [2; 3] [2] [])) = Some (Some (Some "MatMul"%string, [1])).
Proof. vm_compute. reflexivity. Qed.

(** ** The folded constant *)

(** It keeps its id and readers, holds the data, and the constants that were
    in the pool keep their bytes. *)
Lemma folded_constant p (od : OpNode) data : workable od = true -> data <> [] ->
  Z.of_nat (length (const_pool p)) + Z.of_nat (length data) + 8 < 2 ^ 64 ->
  let '(p', folded) := fold_op_to_const od data p in
  folded = true /\ exists pc : OpNode, opdefs p' !! op_id od = Some pc /\ is_const pc = true /\ consumers pc = consumers od /\
    output_def pc = output_def od /\ const_bytes p' pc = Some data /\
    (forall oc bs, const_pool p <> [] -> 0 <= const_data_offset oc -> 0 <= const_data_size oc ->
      const_data_offset oc + const_data_size oc < 2 ^ 64 -> const_bytes p oc = Some bs -> const_bytes p' oc = Some bs).
Proof.
intros Hwk Hd Hlen. unfold fold_op_to_const. rewrite Hwk, bool_decide_false by done. cbn [negb orb]. split; [done|].
set (pool := if bool_decide (const_pool p = []) then replicate 4 0 else const_pool p).
assert (Z.of_nat (length pool) <= Z.of_nat (length (const_pool p)) + 4) as Hpl by (unfold pool; case_bool_decide as Hp; [rewrite Hp; cbn; lia|lia]).
eexists. split; [cbn; by rewrite lookup_insert_eq|]. cbn [const_node consumers output_def node_op].
split; [by vm_compute|]. split; [done|]. split; [done|]. split.
- unfold const_bytes. cbn [const_data_offset const_data_size const_pool set_graph set_pool const_node]. rewrite (wrap_id 64) by lia.
  rewrite !length_app. destruct (_ <=? _) eqn:E; bool_prop; [|lia]. rewrite !Nat2Z.id, drop_app_length, take_app_length. done.
- intros oc bs Hne H0 H1 H2. unfold const_bytes. cbn [const_pool set_graph set_pool]. unfold pool. rewrite bool_decide_false by done.
  rewrite (wrap_id 64) by lia. destruct (_ <=? _) eqn:E; [|done]. bool_prop. intros [= <-].
  rewrite !length_app. destruct (_ <=? _) eqn:E'; bool_prop; [|lia]. f_equal. rewrite drop_app_le by lia. rewrite take_app_le by (rewrite length_drop; lia). done.
Qed.
